(* ===== verification/_CoqProject ===== *)
-Q . S2P
Prelude.v
World.v
Tree.v
Clock.v
External.v
Instances.v
Share.v
Crypto.v
Auth.v
Rotation.v
Ticket.v
Shadow.v
Sync.v
Frame.v
Network.v
Daemon.v
Loops.v
Swarm.v
Ipc.v
Reach.v
Cli.v
Client.v
Host.v
Main.v
UnitTests.v
