(* ===== verification/Prelude.v ===== *)
(** * rust-peerdup: a verification development

    rust-peerdup keeps directories synchronous between peers.  A daemon runs
    one task per share; peers of a share find each other by gossip, exchange
    versions as encrypted BitTorrent payloads, order them by vector clocks,
    and decide who is a member by a signed operation log.  Owners revoke
    members and distribute a fresh epoch key to those who remain.  This
    library models the program in [src/src] and proves what makes it correct.

    ** Parts

    The files are listed bottom up; each models the source named next to it.

    - [Prelude]: bytes, 64-bit words, stable sort by key, outcomes ([Ok],
      [Err], [Panic]) with [?] as [try!], generic lemmas, the hint database
      [peerdup].
    - [World], [Tree]: [std::fs] as a finite map from paths to nodes, entropy
      and wall clock, the monad [M] ([let!], [;;;]) in which the program text
      is written.  A world carries a plan of faults; every operation that can
      fail for an outside reason (and, for a write, leave a prefix behind)
      consumes one, so that a statement on every world includes every pattern
      of I/O failures and interrupted writes.  [Path::exists] cannot fail; it
      answers [false] when the metadata of the path cannot be read, which the
      class [Metadata] decides in a world with faults.  [touches], [reads],
      [quiet] are the judgements that the components' frame and read-only
      lemmas use.
    - [Clock]: [clock.rs], the vector clock.
    - [External]: one class per crate the program calls (bincode, serde_json,
      blake3, XChaCha20-Poly1305, Ed25519, crypto_box, base64): the functions
      called, and as laws the documented behaviour that is relied on.  The
      classes of p2panda_auth, librqbit, gossip and file watching, fs2 and
      zbus are in [Auth], [Sync], [Loops], [Cli] and [Client].  [Instances]: a
      small executable instance of each, for the witnesses only.
    - [Share]: [share.rs], [share_state.rs], [data_dir.rs], [identity.rs].
    - [Crypto]: [crypto.rs], the keyring [keys.bin] and the blobs.
    - [Auth]: [auth.rs], member ids, signed operations, the log with its queue
      of operations whose dependencies are missing.
    - [Rotation]: [rotation.rs], signed rotations, their verification, and the
      queue on disk.
    - [Ticket]: [ticket.rs].
    - [Shadow]: [daemon.rs] 1318-1488 and 1621-1630, content snapshot and
      hash, the encrypted shadow of a directory.
    - [Sync]: [daemon.rs] 1152-1316, 1490-1680 and 907-979: version on start,
      local change, announce, fetch, last-writer-wins, debounce.
    - [Frame]: the files the sync engine can change.
    - [Network]: peers that exchange versions, abstractly: only clocks, hashes
      and times.  A [policy] says when a peer may edit and what it may hold
      after a new start ([hasty], [careful], [forgetful]); a delivery is
      decided as [Sync.receive] says, or, its transfer failing, refused.
    - [Daemon]: [daemon.rs] 30-145, 984-1150 and 1682-1901, the state
      [ShareTask] of a running share (keyring, log, queue of rotations, buffer
      of early rotations), its commands and its gossip messages, in the state
      monad [SM] ([let*], [;*]).
    - [Loops]: [daemon.rs] 226-402 and 445-982, spawning, the three loops as
      turns folded over a list of events, [select!] over [debounce], the
      supervising loop of [serve].
    - [Swarm]: several sync loops, each on its own world, that start, hear each
      other's payloads in any order, late, repeatedly or never, stop, fail and
      start again, between arbitrary changes to their files.
    - [Ipc]: [ipc.rs], the service's methods on the map of running shares, in
      the monad [DM] ([let^], [;^]).
    - [Cli]: [lock.rs] and the direct commands of [main.rs] (342-675).
    - [Client]: [client.rs] and the commands of [main.rs] that go through the
      session bus (196-334).
    - [Reach]: the files a share task can change.
    - [Host]: one daemon with all its shares on one disk ([DaemonRuntime]):
      beginning loops, single turns of them, requests of the service, direct
      commands of other processes and edits outside [shares/] as the steps
      [host_step] of a [host], in any order.
    - [Main]: [main.rs] 20-194, [daemon.rs] 281-336 and 404-409, [ipc.rs]
      447-457: which command runs where, how the daemon starts and ends.
    - [UnitTests]: the repository's own tests, run on the model.

    The program's calls are the files' calls: [Client] calls [Ipc]; [Ipc] and
    [Loops] call [Daemon]; [Loops] calls [Sync]; [Daemon] calls [Auth],
    [Crypto], [Rotation], [Ticket]; [Sync] calls [Shadow] and [Clock]; [Cli]
    works on the same files by itself.  [Host] and [Main] put
    all of them together.  Names are those of the source.

    ** What is shown

    - Synchronisation.  [Sync.on_announce_refines]: the announce branch is the
      abstract reaction [receive].  [Swarm.swarm_refines_network]: a run of
      the loops in which every peer that starts again finds on disk the
      version it held, and a directory that is not empty, is a run of
      [Network], of a [careful] one when every edit is also later than the
      version it replaces; then equal clocks mean equal versions
      ([Swarm.swarm_agrees]), and an agreement can be reached if the transfers
      it needs succeed ([Network.gossip_converges]).  Both conditions are
      needed ([Sync.restart_forgets_clock], [Network.restart_diverges],
      [Network.skew_diverges]).  A fetched version is the announced one
      ([Sync.apply_remote_sync_sound]); a version that deletes a file is never
      adopted ([Sync.deletion_never_applies]); a start and a local edit do
      what they should ([Sync.reconcile_cases],
      [Sync.handle_local_change_spec]); the engine stays in its files
      ([Frame.sync_engine_frame]).
    - Content.  Hashes depend on the content only and determine it up to a
      collision of BLAKE3 on the very bytes that are hashed for it
      ([Shadow.snapshot_deterministic], [Shadow.vhash_collision_free]); encrypting, copying and decrypting a
      share reproduces it ([Shadow.shadow_transfer]).
    - Keys.  No key is lost, whatever fails, as long as the metadata of
      [keys.bin] can be read ([Crypto.keyring_monotone]; otherwise
      [Crypto.unreadable_metadata_loses_keys]);
      rotations are accepted by a specification of checks
      ([Rotation.verify_refines_spec]), reach every recipient
      ([Rotation.rotation_reaches_recipients]), may arrive in any order
      ([Daemon.rotation_catch_up]) in a bounded buffer
      ([Daemon.rotation_buffer_bounded]); the queue on disk is a map from
      epochs ([Rotation.save_pending_refines], [Rotation.load_pending_refines]).
    - Members.  The log keeps its invariant ([Auth.auth_log_invariant]),
      replicas converge in any order of delivery ([Auth.auth_convergence]),
      any bytes from the network are safe ([Daemon.apply_auth_ops_safe]);
      a revocation excludes the revoked and reaches the others
      ([Daemon.revoke_rekeys]); an invitation can be joined
      ([Ipc.invite_join]), and a join is justified ([Ipc.share_join_sound]).
    - The task as a whole.  [Loops.share_task_safe]: from spawn through any
      events, the log, the keyring in memory and on disk, the queue and the
      buffer keep their invariant; [Ipc.call_share_safe] for commands of the
      service.
    - The daemon as a whole.  All shares keep their invariant together in
      every reachable [host] ([Host.daemon_invariant]); the task of a share
      that is not removed loses no operation, no rotation and no key
      ([Host.daemon_loses_nothing]; the log on the disk can be written over,
      [Cli.direct_revoke_lost]); a task writes only in its share's own
      directory, below its root, and one temporary file beside the root
      ([Host.task_isolated]; roots of different shares may be nested); a
      restart keeps the keys ([Main.restart_keeps_keys]).  The turns of [Host]
      are those of [run_share] ([Host.run_share_turns]), its steps those of
      the commands ([Main.commands_are_steps]).  What the callers must
      respect, and the program does not check, is stated as [good_id] (ids are
      names of directories; [Ipc.share_remove_dotdot] shows why), [good_root]
      (a shared directory is neither inside nor around [shares/]) and
      [direct_sane] (a running share is not removed behind the daemon's back;
      [Host.direct_remove_forgets_keys] shows why).
    - The command line.  Direct commands do what the daemon's do on a disk
      that works ([Cli.invite_direct_equiv], [Cli.revoke_direct_equiv],
      [Client.views_agree], where the lines for an empty list differ); a second daemon is kept out
      ([Cli.serve_locked_out]).
    - The tests of the repository pass on the model ([UnitTests]).
    - Tickets.  [Ticket.ticket_round_trip], and every reason to refuse one
      ([Ticket.ticket_decode_sound]).
    - Round trips of every format, and closed examples of where the program
      goes wrong ([Sync.deletion_never_applies], [Cli.direct_revoke_lost],
      [Ipc.ticket_id_escapes_data_dir], [Loops.interrupted_debounce_loses_edit]
      and others named in the files).

    ** Bounds and fuel

    Counters, epochs and ports are integers with the wrap-around or the range
    check of the code written out; a clock counter wraps at 2^64
    ([wrap64]).  Three recursions take fuel: [Shadow.collect_files] gets the
    depth of the file map, which no directory exceeds; [Auth.drain_pending]
    and [Daemon.drain_rotation_buffer] get one more than the length of the
    queue, which every turn shortens ([Auth.drain_pending_terminates],
    [Daemon.rotation_buffer_bounded]).  The buffer of early rotations holds
    64 entries, as in the code.

    ** Assumptions

    Cryptography is modelled by its functional laws (what was sealed opens,
    what was signed verifies), not by secrecy or unforgeability.  Paths are
    lists of components without symbolic links, a [..] leading to the parent;
    text is taken to be UTF-8.  Hash collisions appear as a case of the
    statements, not as an assumption, and as collisions of particular inputs.
    That the metadata of a file can be read, where [Path::exists] is asked
    for, is an explicit premise: of one path ([World.unreadable]), of every
    [keys.bin] ([Crypto.KeysSighted]) or of all paths ([World.Sighted]).
    An [await] of the program is a point where other tasks run; the state of a
    share task is owned by the task, so its turns are atomic on it, and tasks
    of different shares meet only in the map of the service and in separate
    directories.

    ** Not modelled

    - [daemon.rs] 166-222 and 411-443: the objects of p2panda_net, librqbit
      and tokio ([start_runtime] is a parameter of [Main]); signals.
    - [ipc.rs] 428-442: registration on the bus (zbus), a parameter of [Main].
    - [main.rs]: argument parsing (clap), logging set-up, the layout of
      printed tables.  Commands return the values they print.
    - The abortion of a task in the middle of a turn at shutdown: tasks end
      between turns; crashes inside an operation on the disk are the faults of
      [World].
    - timers and tasks of tokio: the events a loop sees are an arbitrary list.
    - the log messages of [tracing], the shell scripts and packaging. *)

From stdpp Require Export base tactics list gmap sets strings sorting.
From Stdlib Require Export ZArith Lia Ascii.
From Stdlib Require Import Strings.Byte.
Export Strings.String(string).
#[global] Open Scope Z_scope.
#[global] Open Scope list_scope.

#[global] Arguments Nat.div : simpl never.
#[global] Arguments Nat.modulo : simpl never.

(** ** Bytes and little-endian words *)

Abbreviation byte := Byte.byte.
Abbreviation bytes := (list byte).

Definition Z_of_byte (b : byte) : Z := Z.of_N (Byte.to_N b).

Definition byte_of_Z (z : Z) : byte :=
  default Byte.x00 (Byte.of_N (Z.to_N (z `mod` 256))).

Definition u64_max : Z := 2 ^ 64 - 1.

(** Wrap-around of an unsigned 64-bit addition (release profile). *)
Definition wrap64 (z : Z) : Z := z `mod` 2 ^ 64.

Fixpoint le_encode (k : nat) (n : Z) : bytes :=
  match k with
  | O => []
  | S k => byte_of_Z n :: le_encode k (n / 256)
  end.

(** [u64::from_le_bytes] and its kin. *)
Fixpoint le_decode (bs : bytes) : Z :=
  match bs with
  | [] => 0
  | b :: bs => Z_of_byte b + 256 * le_decode bs
  end.

Definition u64_le (n : Z) : bytes := le_encode 8 n.

Definition string_bytes (s : string) : bytes := String.list_byte_of_string s.
Definition bytes_string (b : bytes) : string := String.string_of_list_byte b.

(** ** Boolean total orders and a stable sort by key *)

Class TotalLeb (A : Type) := {
  leb : A -> A -> bool;
  leb_total : forall x y, leb x y = true \/ leb y x = true;
  leb_trans : forall x y z, leb x y = true -> leb y z = true -> leb x z = true;
  leb_antisymm : forall x y, leb x y = true -> leb y x = true -> x = y;
}.

Definition ltb {A} `{TotalLeb A} (x y : A) : bool := negb (leb y x).

Fixpoint list_leb {A} `{EqDecision A} (le : A -> A -> bool) (l k : list A) : bool :=
  match l, k with
  | [], _ => true
  | _ :: _, [] => false
  | x :: l, y :: k => if decide (x = y) then list_leb le l k else le x y
  end.

(** Stable insertion sort: the behaviour of [slice::sort_by_key]. *)
Section sorting.
Context {A K : Type} `{TotalLeb K} (key : A -> K).

Fixpoint insert_by (x : A) (l : list A) : list A :=
  match l with
  | [] => [x]
  | y :: l' => if leb (key x) (key y) then x :: y :: l' else y :: insert_by x l'
  end.

Fixpoint sort_by (l : list A) : list A :=
  match l with
  | [] => []
  | x :: l => insert_by x (sort_by l)
  end.

Definition key_le (x y : A) : Prop := leb (key x) (key y) = true.

(** [Vec::dedup_by_key]: drops an element whose key equals that of the
    previously kept one. *)
Fixpoint dedup_from `{EqDecision K} (prev : A) (l : list A) : list A :=
  match l with
  | [] => []
  | y :: l => if decide (key y = key prev) then dedup_from prev l
              else y :: dedup_from y l
  end.

Definition dedup_by `{EqDecision K} (l : list A) : list A :=
  match l with
  | [] => []
  | x :: l => x :: dedup_from x l
  end.
End sorting.

(** [Iterator::position] *)
Fixpoint position {A} (p : A -> bool) (l : list A) : option nat :=
  match l with
  | [] => None
  | x :: l => if p x then Some O else S <$> position p l
  end.

(** ** Outcomes and errors *)

Inductive io_kind :=
  | NotFound
  | AlreadyExists
  | NotADirectory
  | IsADirectory
  | WouldBlock
  | OtherIo.

(** The error values of the program: one constructor per [anyhow!] site that
    a theorem tells apart; [ECtx] is [anyhow::Context]. *)
Inductive error :=
  | EIo (k : io_kind)
  | EMsg (m : string)
  | EBadLength (got : nat)
  | EEpochConflict (epoch : Z)
  | ETooShort (got : nat)
  | ENoKey (epoch have : Z)
  | EAead
  | ENotFound (id : string)
  | EBadHexLen (got : nat)
  | EBadHexByte (at_ : nat)
  | EBadTicketVersion (v : Z)
  | EPendingLeft (n : nat)
  | EVersionMismatch (got want : string)
  | ECtx (c : string) (e : error).

Inductive outcome (A : Type) :=
  | Ok (a : A)
  | Err (e : error)
  | Panic.
Arguments Ok {A} a.
Arguments Err {A} e.
Arguments Panic {A}.

#[export] Instance io_kind_eq_dec : EqDecision io_kind.
Proof. solve_decision. Defined.
#[export] Instance error_eq_dec : EqDecision error.
Proof. solve_decision. Defined.
#[export] Instance outcome_eq_dec {A} `{EqDecision A} : EqDecision (outcome A).
Proof. solve_decision. Defined.

Definition is_Ok {A} (r : outcome A) : Prop := exists a, r = Ok a.

Definition rbind {A B} (r : outcome A) (f : A -> outcome B) : outcome B :=
  match r with
  | Ok a => f a
  | Err e => Err e
  | Panic => Panic
  end.

Definition rctx {A} (c : string) (r : outcome A) : outcome A :=
  match r with
  | Err e => Err (ECtx c e)
  | r => r
  end.

Definition ok_or {A} (e : error) (o : option A) : outcome A :=
  match o with Some a => Ok a | None => Err e end.

(** [Option::expect]/[Result::expect] *)
Definition expect {A} (o : option A) : outcome A :=
  match o with Some a => Ok a | None => Panic end.

Declare Scope rust_scope.
Delimit Scope rust_scope with rust.
Notation "'try!' x ':=' r 'in' k" := (rbind r (fun x => k))
  (at level 10, x pattern, r at level 100, k at level 200,
   format "'[v' 'try!'  x  ':='  r  'in' '/' k ']'") : rust_scope.
#[global] Open Scope rust_scope.

(** ** Tactics *)

(** Case analysis on the discriminee of a [match] or [if], in the goal or in
    a hypothesis, keeping the equation. *)
Ltac case_m :=
  match goal with
  | |- context [ match ?x with _ => _ end ] => destruct x eqn:?
  | H : context [ match ?x with _ => _ end ] |- _ => destruct x eqn:?
  end.

Ltac crush :=
  repeat (simplify_eq/=; try done; case_m); simplify_eq/=; try done.

Create HintDb peerdup.
Create Rewrite HintDb peerdup.

(** ** Lemmas on bytes and words *)

Lemma Z_of_byte_range b : 0 <= Z_of_byte b < 256.
Proof. unfold Z_of_byte. pose proof (Byte.to_N_bounded b). lia. Qed.

Lemma byte_of_Z_of_byte b : byte_of_Z (Z_of_byte b) = b.
Proof.
  unfold byte_of_Z. pose proof (Z_of_byte_range b).
  rewrite Z.mod_small by lia. unfold Z_of_byte.
  by rewrite N2Z.id, Byte.of_to_N.
Qed.

Lemma Z_of_byte_of_Z z : Z_of_byte (byte_of_Z z) = z `mod` 256.
Proof.
  unfold byte_of_Z, Z_of_byte.
  pose proof (Z.mod_pos_bound z 256 ltac:(lia)).
  destruct (Byte.of_N _) as [b|] eqn:E; simpl.
  - apply Byte.to_of_N in E. rewrite E. lia.
  - apply Byte.of_N_None_iff in E. lia.
Qed.

Lemma length_le_encode k n : length (le_encode k n) = k.
Proof. revert n. induction k; intros; f_equal/=; auto. Qed.

Lemma le_decode_encode k n :
  0 <= n < 256 ^ Z.of_nat k -> le_decode (le_encode k n) = n.
Proof.
  revert n. induction k as [|k IH]; intros n Hn.
  - simpl in *. lia.
  - replace (Z.of_nat (S k)) with (Z.of_nat k + 1) in Hn by lia.
    rewrite Z.pow_add_r in Hn by lia.
    cbn [le_encode le_decode]. rewrite Z_of_byte_of_Z, IH.
    + pose proof (Z.div_mod n 256). lia.
    + split; [apply Z.div_pos; lia|].
      apply Z.div_lt_upper_bound; lia.
Qed.

Lemma le_decode_range bs : 0 <= le_decode bs < 256 ^ Z.of_nat (length bs).
Proof.
  induction bs as [|b bs IH]; [simpl; lia|].
  pose proof (Z_of_byte_range b). cbn [le_decode length].
  replace (Z.of_nat (S (length bs))) with (Z.of_nat (length bs) + 1) by lia.
  rewrite Z.pow_add_r by lia. lia.
Qed.

Lemma le_encode_decode bs : le_encode (length bs) (le_decode bs) = bs.
Proof.
  induction bs as [|b bs IH]; [done|]. cbn [length le_encode le_decode].
  pose proof (Z_of_byte_range b). f_equal.
  - rewrite <- (byte_of_Z_of_byte b) at 2. unfold byte_of_Z.
    do 3 f_equal. rewrite Z.mul_comm, Z_mod_plus_full. done.
  - replace ((Z_of_byte b + 256 * le_decode bs) / 256) with (le_decode bs); [done|].
    rewrite Z.mul_comm, Z.div_add by lia. rewrite Z.div_small; lia.
Qed.

Lemma length_u64_le n : length (u64_le n) = 8%nat.
Proof. apply length_le_encode. Qed.

Lemma u64_le_decode n : 0 <= n <= u64_max -> le_decode (u64_le n) = n.
Proof. intros. apply le_decode_encode. unfold u64_max in *. simpl. lia. Qed.

Lemma u64_le_inj n m :
  0 <= n <= u64_max -> 0 <= m <= u64_max -> u64_le n = u64_le m -> n = m.
Proof.
  intros Hn Hm E. rewrite <- (u64_le_decode n), <- (u64_le_decode m) by done.
  by rewrite E.
Qed.

Lemma wrap64_small z : 0 <= z <= u64_max -> wrap64 z = z.
Proof. intros. unfold wrap64, u64_max in *. apply Z.mod_small. lia. Qed.

Lemma bytes_string_bytes s : bytes_string (string_bytes s) = s.
Proof. apply String.string_of_list_byte_of_string. Qed.

Lemma string_bytes_string b : string_bytes (bytes_string b) = b.
Proof. apply String.list_byte_of_string_of_list_byte. Qed.

Lemma string_bytes_inj s t : string_bytes s = string_bytes t -> s = t.
Proof.
  intros E. rewrite <- (bytes_string_bytes s), <- (bytes_string_bytes t).
  by rewrite E.
Qed.

Lemma string_bytes_app s t : string_bytes (s +:+ t) = string_bytes s ++ string_bytes t.
Proof.
  induction s as [|c s IH]; [done|].
  change (string_bytes (String.String c s +:+ t))
    with (Ascii.byte_of_ascii c :: string_bytes (s +:+ t)). by rewrite IH.
Qed.

#[export] Hint Rewrite length_u64_le bytes_string_bytes string_bytes_string
  : peerdup.

(** ** Lemmas on sorting *)

Section sorting_lemmas.
Context {A K : Type} `{TotalLeb K} (key : A -> K).

Lemma leb_refl (x : K) : leb x x = true.
Proof. by destruct (leb_total x x). Qed.

Lemma leb_false_flip (x y : K) : leb x y = false -> leb y x = true.
Proof. destruct (leb_total x y); congruence. Qed.

Lemma insert_by_perm x l : insert_by key x l ≡ₚ x :: l.
Proof.
  induction l as [|y l IH]; simpl; [done|]. case_match; [done|].
  rewrite IH. constructor.
Qed.

Lemma sort_by_perm l : sort_by key l ≡ₚ l.
Proof. induction l; simpl; [done|]. rewrite insert_by_perm. by f_equiv. Qed.

Lemma insert_by_sorted x l :
  StronglySorted (key_le key) l -> StronglySorted (key_le key) (insert_by key x l).
Proof.
  induction 1 as [|y l Hl IH Hy]; simpl.
  - repeat constructor.
  - destruct (leb (key x) (key y)) eqn:E.
    + constructor; [by constructor|]. constructor; [done|].
      eapply Forall_impl; [done|]. intros z Hz. by eapply leb_trans.
    + constructor; [done|]. rewrite insert_by_perm.
      constructor; [|done]. by apply leb_false_flip.
Qed.

Lemma sort_by_sorted l : StronglySorted (key_le key) (sort_by key l).
Proof. induction l; simpl; [constructor|]. by apply insert_by_sorted. Qed.

Lemma elem_of_sort_by x l : x ∈ sort_by key l <-> x ∈ l.
Proof. by rewrite sort_by_perm. Qed.

Lemma length_sort_by l : length (sort_by key l) = length l.
Proof. by rewrite sort_by_perm. Qed.

Lemma insert_by_sorted_head x l :
  Forall (key_le key x) l -> insert_by key x l = x :: l.
Proof. destruct l as [|y l]; [done|]. inversion_clear 1 as [|?? Hy]. simpl. by rewrite Hy. Qed.

Lemma sort_by_id l : StronglySorted (key_le key) l -> sort_by key l = l.
Proof.
  induction 1 as [|x l Hl IH Hx]; [done|]. simpl. rewrite IH.
  by apply insert_by_sorted_head.
Qed.

(** A sorted list is determined by its elements when the key is injective. *)
Lemma sorted_perm_unique l k :
  (forall x y, x ∈ l -> y ∈ l -> key x = key y -> x = y) ->
  StronglySorted (key_le key) l -> StronglySorted (key_le key) k ->
  l ≡ₚ k -> l = k.
Proof.
  intros Hinj Hl. revert k Hinj. induction Hl as [|x l Hl IH Hx]; intros k Hinj Hk Hp.
  - by apply Permutation_nil_l in Hp.
  - destruct Hk as [|y k Hk Hy]; [by apply Permutation_nil_r in Hp|].
    assert (x = y) as ->.
    { apply Hinj; [set_solver | rewrite Hp; set_solver | ].
      assert (y ∈ x :: l) as Hyl by (rewrite Hp; set_solver).
      assert (x ∈ y :: k) as Hxk by (rewrite <- Hp; set_solver).
      rewrite Forall_forall in Hx, Hy.
      apply elem_of_cons in Hyl as [->|Hyl]; [done|].
      apply elem_of_cons in Hxk as [->|Hxk]; [done|].
      apply leb_antisymm; [by apply Hx | by apply Hy]. }
    f_equal. apply IH; [|done|].
    + intros; apply Hinj; set_solver.
    + by apply Permutation_cons_inv in Hp.
Qed.

Lemma sort_by_unique l k :
  (forall x y, x ∈ l -> y ∈ l -> key x = key y -> x = y) ->
  l ≡ₚ k -> sort_by key l = sort_by key k.
Proof.
  intros Hinj Hp. apply sorted_perm_unique.
  - intros x y Hx Hy. rewrite elem_of_sort_by in Hx, Hy. by apply Hinj.
  - apply sort_by_sorted.
  - apply sort_by_sorted.
  - by rewrite !sort_by_perm.
Qed.

Lemma sort_by_head x l k :
  sort_by key l = x :: k -> x ∈ l /\ forall y, y ∈ l -> leb (key x) (key y) = true.
Proof.
  intros E. pose proof (sort_by_sorted l) as Hs. rewrite E in Hs.
  inversion_clear Hs as [|?? _ Hx]. split.
  - rewrite <- elem_of_sort_by, E. set_solver.
  - intros y Hy. rewrite <- elem_of_sort_by, E in Hy.
    apply elem_of_cons in Hy as [->|Hy]; [apply leb_refl|].
    rewrite Forall_forall in Hx. by apply Hx.
Qed.

Context `{EqDecision K}.

Lemma dedup_from_subset x prev l : x ∈ dedup_from key prev l -> x ∈ l.
Proof.
  revert prev. induction l as [|y l IH]; intros prev; simpl; [done|].
  case_decide; rewrite ?elem_of_cons; naive_solver.
Qed.

Lemma dedup_by_subset x l : x ∈ dedup_by key l -> x ∈ l.
Proof.
  destruct l as [|y l]; simpl; [done|]. rewrite !elem_of_cons.
  intros [?|?%dedup_from_subset]; auto.
Qed.

Lemma dedup_from_keys prev l y :
  y ∈ l -> key y = key prev \/ exists x, x ∈ dedup_from key prev l /\ key x = key y.
Proof.
  revert prev. induction l as [|z l IH]; intros prev Hy; [set_solver|]. simpl.
  apply elem_of_cons in Hy as [->|Hy].
  - case_decide; [by left|]. right. exists z. set_solver.
  - case_decide as E; [by apply IH|]. right.
    destruct (IH z Hy) as [?|(x & ? & ?)]; [exists z | exists x]; set_solver.
Qed.

(** Deduplication keeps an element for every key. *)
Lemma dedup_by_keys l y : y ∈ l -> exists x, x ∈ dedup_by key l /\ key x = key y.
Proof.
  destruct l as [|z l]; [set_solver|]. simpl. intros Hy.
  apply elem_of_cons in Hy as [->|Hy]; [exists z; set_solver|].
  destruct (dedup_from_keys z l y Hy) as [?|(x & ? & ?)];
    [exists z | exists x]; set_solver.
Qed.

Lemma dedup_from_nodup prev l :
  StronglySorted (key_le key) (prev :: l) -> NoDup (key <$> prev :: dedup_from key prev l).
Proof.
  revert prev. induction l as [|y l IH]; intros prev Hs.
  - apply NoDup_singleton.
  - simpl. inversion_clear Hs as [|?? Hs' Hp]. case_decide as E.
    + apply (IH prev). inversion_clear Hs'. constructor; [done|].
      by inversion_clear Hp.
    + pose proof (IH y Hs') as Hnd. simpl in Hnd. simpl. constructor; [|done].
      rewrite elem_of_cons. intros [?|(z & Hz & Hin)%list_elem_of_fmap_1]; [done|].
      apply dedup_from_subset in Hin.
      inversion_clear Hs' as [|?? Hs'' Hy]. rewrite Forall_forall in Hy.
      inversion_clear Hp as [|?? Hpy _].
      apply Hy in Hin. unfold key_le in *. rewrite <- Hz in Hin.
      apply E. by apply leb_antisymm.
Qed.

(** On sorted input the surviving keys are pairwise distinct. *)
Lemma dedup_by_nodup l :
  StronglySorted (key_le key) l -> NoDup (key <$> dedup_by key l).
Proof. destruct l; [constructor|]. apply dedup_from_nodup. Qed.
End sorting_lemmas.

(** ** Instances of [TotalLeb] *)

#[export, refine] Instance Z_leb : TotalLeb Z := {| leb := Z.leb |}.
Proof.
  - intros. rewrite !Z.leb_le. lia.
  - intros ???. rewrite !Z.leb_le. lia.
  - intros ??. rewrite !Z.leb_le. lia.
Defined.

#[export, refine] Instance byte_leb : TotalLeb byte :=
  {| leb := fun x y => Z_of_byte x <=? Z_of_byte y |}.
Proof.
  - intros. rewrite !Z.leb_le. lia.
  - intros ???. rewrite !Z.leb_le. lia.
  - intros x y. rewrite !Z.leb_le. intros.
    rewrite <- (byte_of_Z_of_byte x), <- (byte_of_Z_of_byte y). f_equal. lia.
Defined.

#[export] Instance byte_eq_dec : EqDecision byte := Byte.byte_eq_dec.

#[export] Instance byte_countable : Countable byte :=
  inj_countable Byte.to_N Byte.of_N Byte.of_to_N.

(** Lexicographic order of slices, [str]s and paths. *)
#[export, refine] Instance list_leb_inst {A} `{TotalLeb A} `{EqDecision A} :
  TotalLeb (list A) := {| leb := list_leb leb |}.
Proof.
  - induction x as [|x l IH]; intros [|y k]; simpl; auto.
    destruct (decide (x = y)) as [->|]; [rewrite decide_True by done; auto|].
    rewrite decide_False by done. apply leb_total.
  - induction x as [|x l IH]; intros [|y k] [|z m]; simpl; try done.
    destruct (decide (x = y)) as [->|Hxy].
    + destruct (decide (y = z)) as [->|]; [apply IH|done].
    + destruct (decide (y = z)) as [->|Hyz]; [by rewrite decide_False|].
      destruct (decide (x = z)) as [->|]; [|apply leb_trans].
      intros ??. destruct Hxy. by apply leb_antisymm.
  - induction x as [|x l IH]; intros [|y k]; simpl; try done.
    destruct (decide (x = y)) as [->|Hxy].
    + rewrite decide_True by done. intros. f_equal. by apply IH.
    + rewrite decide_False by done. intros. destruct Hxy. by apply leb_antisymm.
Defined.

#[export, refine] Instance string_leb : TotalLeb string :=
  {| leb := fun s t => leb (string_bytes s) (string_bytes t) |}.
Proof.
  - intros. apply leb_total.
  - intros ???. apply leb_trans.
  - intros. apply string_bytes_inj. by apply leb_antisymm.
Defined.

(** [Ordering::then_with] of two comparisons. *)
#[export, refine] Instance prod_leb {A B} `{TotalLeb A, EqDecision A, TotalLeb B} :
  TotalLeb (A * B) :=
  {| leb := fun x y => if decide (x.1 = y.1) then leb x.2 y.2 else leb x.1 y.1 |}.
Proof.
  - intros [x1 x2] [y1 y2]; simpl. destruct (decide (x1 = y1)) as [->|].
    + rewrite decide_True by done. apply leb_total.
    + rewrite decide_False by done. apply leb_total.
  - intros [x1 x2] [y1 y2] [z1 z2]; simpl.
    destruct (decide (x1 = y1)) as [->|Hxy].
    + destruct (decide (y1 = z1)) as [->|]; [apply leb_trans|done].
    + destruct (decide (y1 = z1)) as [->|Hyz]; [by rewrite decide_False|].
      destruct (decide (x1 = z1)) as [->|]; [|apply leb_trans].
      intros ??. destruct Hxy. by apply leb_antisymm.
  - intros [x1 x2] [y1 y2]; simpl. destruct (decide (x1 = y1)) as [->|Hxy].
    + rewrite decide_True by done. intros. f_equal. by apply leb_antisymm.
    + rewrite decide_False by done. intros. destruct Hxy. by apply leb_antisymm.
Defined.

(** ** Lemmas on [position] *)

Lemma position_None {A} (p : A -> bool) l :
  position p l = None <-> Forall (fun x => p x = false) l.
Proof.
  induction l as [|x l IH]; simpl; [done|].
  rewrite Forall_cons. destruct (p x); [naive_solver|].
  rewrite <- IH. destruct (position p l); naive_solver.
Qed.

Lemma position_Some {A} (p : A -> bool) l i :
  position p l = Some i -> exists x, l !! i = Some x /\ p x = true.
Proof.
  revert i. induction l as [|x l IH]; intros i; simpl; [done|].
  destruct (p x) eqn:E; [naive_solver|].
  destruct (position p l) eqn:?; naive_solver.
Qed.

Lemma rbind_Ok {A B} (r : outcome A) (f : A -> outcome B) b :
  rbind r f = Ok b <-> exists a, r = Ok a /\ f a = Ok b.
Proof. destruct r; naive_solver. Qed.

Lemma rctx_Ok {A} c (r : outcome A) a : rctx c r = Ok a <-> r = Ok a.
Proof. by destruct r. Qed.

Lemma ok_or_Ok {A} e (o : option A) a : ok_or e o = Ok a <-> o = Some a.
Proof. destruct o; naive_solver. Qed.

Lemma expect_Ok {A} (o : option A) a : expect o = Ok a <-> o = Some a.
Proof. destruct o; naive_solver. Qed.
