(* ===== verification/World.v ===== *)
(** * The world a peer runs in: file system, entropy, wall clock

    [std::fs] as the program uses it: a finite map from absolute paths (lists
    of components) to nodes, with Unix modes on files.  Every operation that
    can fail for a reason outside the map (permission, full disk, ...)
    consumes one entry of a fault plan, so that a theorem quantified over
    worlds holds under every pattern of I/O failures, partial writes
    included.  [M] is the state-and-outcome monad of the program text.

    [Path::exists] is the exception: it cannot fail, and answers [false] when
    the metadata of the path cannot be read ([Metadata]).

    Symbolic links are not followed ([NOther] stands for them and for any
    node that is neither a file nor a directory); a [..] component leads to
    the parent, as it does where no symbolic link is on the way; file names
    are valid UTF-8. *)

From S2P Require Import Prelude.

Abbreviation path := (list string).

(** ** Paths ([std::path]) *)

Definition slash : byte := Byte.x2f.
Definition dot : byte := Byte.x2e.

Fixpoint split_on (sep : byte) (cur : bytes) (s : bytes) : list bytes :=
  match s with
  | [] => [rev cur]
  | c :: s => if decide (c = sep) then rev cur :: split_on sep [] s
              else split_on sep (c :: cur) s
  end.

(** The names between the separators; empty ones and [.] disappear. *)
Definition names (s : string) : list string :=
  filter (fun c => c <> "" /\ c <> ".")%string
    (bytes_string <$> split_on slash [] (string_bytes s)).

Definition parent (p : path) : path := removelast p.

(** Where a walk along names ends; the parent of the root is the root. *)
Definition walk (p : path) (ns : list string) : path :=
  foldl (fun p n => if decide (n = "..") then parent p else p ++ [n]) p ns.

(** The place a path names. *)
Definition components (s : string) : path := walk [] (names s).

Definition is_absolute (s : string) : bool :=
  match string_bytes s with c :: _ => bool_decide (c = slash) | [] => false end.

(** [Path::join]: an absolute argument replaces the path. *)
Definition join (p : path) (s : string) : path :=
  if is_absolute s then components s else walk p (names s).

(** [Path::file_name]; [..] is not one. *)
Definition file_name (p : path) : option string :=
  n ← last p; if decide (n = "..") then None else Some n.

Definition set_file_name (p : path) (n : string) : path := removelast p ++ [n].

(** The part before and after the last dot of a name. *)
Fixpoint rsplit_dot (s : bytes) : option (bytes * bytes) :=
  match s with
  | [] => None
  | c :: s' =>
      match rsplit_dot s' with
      | Some (a, b) => Some (c :: a, b)
      | None => if decide (c = dot) then Some ([], s') else None
      end
  end.

(** [Path::file_stem] and [Path::extension] of a file name. *)
Definition stem_ext (n : string) : string * option string :=
  match rsplit_dot (string_bytes n) with
  | Some ([], _) | None => (n, None)
  | Some (a, b) => (bytes_string a, Some (bytes_string b))
  end.

Definition extension (p : path) : option string :=
  match file_name p with Some n => snd (stem_ext n) | None => None end.

Definition with_extension (p : path) (ext : string) : path :=
  match file_name p with
  | Some n => set_file_name p (fst (stem_ext n) +:+ "." +:+ ext)
  | None => p
  end.

(** ** Nodes and the file map *)

Record file := File { f_data : bytes; f_mode : Z }.

Inductive node :=
  | NFile (f : file)
  | NDir
  | NOther.

Abbreviation fsmap := (gmap (list string) node).

#[export] Instance file_eq_dec : EqDecision file.
Proof. solve_decision. Defined.
#[export] Instance node_eq_dec : EqDecision node.
Proof. solve_decision. Defined.

(** Mode of a freshly created file (0666 under the usual umask 022). *)
Definition default_mode : Z := 420.
(** 0600 *)
Definition mode_0600 : Z := 384.

Definition is_dir (fs : fsmap) (p : path) : bool := bool_decide (fs !! p = Some NDir).

Definition fsop (A : Type) : Type := fsmap -> outcome A * fsmap.

Definition op_read (p : path) : fsop bytes := fun fs =>
  match fs !! p with
  | Some (NFile f) => (Ok (f_data f), fs)
  | Some NDir => (Err (EIo IsADirectory), fs)
  | Some NOther => (Err (EIo OtherIo), fs)
  | None => (Err (EIo NotFound), fs)
  end.

(** [fs::write]: truncates an existing file (keeping its mode) or creates it. *)
Definition op_write (p : path) (data : bytes) : fsop unit := fun fs =>
  match fs !! p with
  | Some (NFile f) => (Ok tt, <[p := NFile (File data (f_mode f))]> fs)
  | Some NDir => (Err (EIo IsADirectory), fs)
  | Some NOther => (Err (EIo OtherIo), fs)
  | None =>
      if is_dir fs (parent p)
      then (Ok tt, <[p := NFile (File data default_mode)]> fs)
      else (Err (EIo NotFound), fs)
  end.

(** [fs::rename] of a regular file: atomic replacement of the target. *)
Definition op_rename (a b : path) : fsop unit := fun fs =>
  match fs !! a with
  | Some (NFile f) =>
      match fs !! b with
      | Some NDir => (Err (EIo IsADirectory), fs)
      | Some _ => (Ok tt, <[b := NFile f]> (delete a fs))
      | None => if is_dir fs (parent b)
                then (Ok tt, <[b := NFile f]> (delete a fs))
                else (Err (EIo NotFound), fs)
      end
  | Some _ => (Err (EIo OtherIo), fs)
  | None => (Err (EIo NotFound), fs)
  end.

Definition op_set_mode (p : path) (mode : Z) : fsop unit := fun fs =>
  match fs !! p with
  | Some (NFile f) => (Ok tt, <[p := NFile (File (f_data f) mode)]> fs)
  | Some _ => (Err (EIo OtherIo), fs)
  | None => (Err (EIo NotFound), fs)
  end.

Fixpoint mkdirs (ps : list path) : fsop unit := fun fs =>
  match ps with
  | [] => (Ok tt, fs)
  | p :: ps =>
      match fs !! p with
      | Some NDir => mkdirs ps fs
      | Some _ => (Err (EIo NotADirectory), fs)
      | None => mkdirs ps (<[p := NDir]> fs)
      end
  end.

(** The ancestors of a path from the root down, itself included. *)
Definition ancestors (p : path) : list path :=
  (fun i => take i p) <$> seq 0 (S (length p)).

Definition op_create_dir_all (p : path) : fsop unit := mkdirs (ancestors p).

Definition op_remove_file (p : path) : fsop unit := fun fs =>
  match fs !! p with
  | Some NDir => (Err (EIo IsADirectory), fs)
  | Some _ => (Ok tt, delete p fs)
  | None => (Err (EIo NotFound), fs)
  end.

Definition op_remove_dir_all (p : path) : fsop unit := fun fs =>
  match fs !! p with
  | Some NDir => (Ok tt, filter (fun kn => ~ p `prefix_of` kn.1) fs)
  | Some _ => (Err (EIo NotADirectory), fs)
  | None => (Err (EIo NotFound), fs)
  end.

(** The name of [k] below [p] when [k] is an immediate child of [p]. *)
Fixpoint child_of (p k : path) : option string :=
  match p, k with
  | [], [c] => Some c
  | x :: p, y :: k => if decide (x = y) then child_of p k else None
  | _, _ => None
  end.

Definition children (fs : fsmap) (p : path) : list string :=
  omap (fun kn => child_of p kn.1) (map_to_list fs).

(** The order in which a host enumerates a directory is its own. *)
Class ReadDir := {
  dir_order : path -> list string -> list string;
  dir_order_perm : forall p l, dir_order p l ≡ₚ l;
}.

Definition op_read_dir `{ReadDir} (p : path) : fsop (list string) := fun fs =>
  match fs !! p with
  | Some NDir => (Ok (dir_order p (children fs p)), fs)
  | Some _ => (Err (EIo NotADirectory), fs)
  | None => (Err (EIo NotFound), fs)
  end.

(** [DirEntry::file_type] *)
Definition op_file_type (p : path) : fsop node := fun fs =>
  match fs !! p with
  | Some n => (Ok n, fs)
  | None => (Err (EIo NotFound), fs)
  end.

(** ** The world *)

(** One entry of the fault plan: the operation goes through, fails before it
    did anything, or fails after [n] units of its effect. *)
Inductive fault :=
  | FNone
  | FOpen
  | FPartial (n : nat).

Record world := World {
  w_fs : fsmap;
  w_faults : list fault;
  w_rng : nat;      (* number of draws from the OS generator so far *)
  w_tick : nat;     (* number of readings of the wall clock so far *)
}.

Definition set_fs (fs : fsmap) (w : world) : world :=
  World fs (w_faults w) (w_rng w) (w_tick w).

(** [OsRng] and [Utc::now]. *)
Class Entropy := {
  rng_draw : nat -> nat -> bytes;
  rng_draw_length : forall i n, length (rng_draw i n) = n;
}.
Class WallClock := wall : nat -> Z.

Definition M (A : Type) : Type := world -> outcome A * world.

Definition ret {A} (a : A) : M A := fun w => (Ok a, w).
Definition fail {A} (e : error) : M A := fun w => (Err e, w).
Definition lift {A} (r : outcome A) : M A := fun w => (r, w).
Definition bind {A B} (m : M A) (k : A -> M B) : M B := fun w =>
  match m w with
  | (Ok a, w') => k a w'
  | (Err e, w') => (Err e, w')
  | (Panic, w') => (Panic, w')
  end.
(** [Context::with_context] *)
Definition ctx {A} (c : string) (m : M A) : M A := fun w =>
  let '(r, w') := m w in (rctx c r, w').
(** Look at the result of [m] without propagating its error. *)
Definition attempt {A} (m : M A) : M (outcome A) := fun w =>
  match m w with
  | (Panic, w') => (Panic, w')
  | (r, w') => (Ok r, w')
  end.

Notation "'let!' x ':=' m 'in' k" := (bind m (fun x => k))
  (at level 10, x pattern, m at level 100, k at level 200,
   format "'[v' 'let!'  x  ':='  m  'in' '/' k ']'") : rust_scope.
Notation "m ;;; k" := (bind m (fun _ => k))
  (at level 100, right associativity,
   format "'[v' m ;;; '/' k ']'") : rust_scope.

Fixpoint forM {A} (l : list A) (f : A -> M unit) : M unit :=
  match l with
  | [] => ret tt
  | x :: l => f x ;;; forM l f
  end.

(** Run one operation under the head of the fault plan; [partial n] is its
    effect when it is cut after [n] units. *)
Definition io {A} (op : fsop A) (partial : nat -> fsmap -> fsmap) : M A := fun w =>
  let go fl :=
    let '(r, fs) := op (w_fs w) in (r, World fs fl (w_rng w) (w_tick w)) in
  match w_faults w with
  | [] => go []
  | FNone :: fl => go fl
  | FOpen :: fl => (Err (EIo OtherIo), World (w_fs w) fl (w_rng w) (w_tick w))
  | FPartial n :: fl =>
      (Err (EIo OtherIo), World (partial n (w_fs w)) fl (w_rng w) (w_tick w))
  end.

Definition no_effect (_ : nat) (fs : fsmap) : fsmap := fs.

(** Whether the metadata of a path cannot be read; as every failure, not
    once the plan of faults is over. *)
Class Metadata := stat_fails : world -> path -> bool.

Definition unreadable `{Metadata} (w : world) (p : path) : bool :=
  match w_faults w with [] => false | _ => stat_fails w p end.

(** [Path::exists]: [metadata().is_ok()] *)
Definition fs_exists `{Metadata} (p : path) : M bool := fun w =>
  (Ok (bool_decide (is_Some (w_fs w !! p)) && negb (unreadable w p)), w).
Definition fs_read (p : path) : M bytes := io (op_read p) no_effect.
Definition fs_write (p : path) (data : bytes) : M unit :=
  io (op_write p data) (fun n fs => snd (op_write p (take n data) fs)).
Definition fs_rename (a b : path) : M unit := io (op_rename a b) no_effect.
Definition fs_set_mode (p : path) (mode : Z) : M unit := io (op_set_mode p mode) no_effect.
Definition fs_create_dir_all (p : path) : M unit :=
  io (op_create_dir_all p) (fun n fs => snd (mkdirs (take n (ancestors p)) fs)).
Definition fs_remove_file (p : path) : M unit := io (op_remove_file p) no_effect.
Definition fs_remove_dir_all (p : path) : M unit :=
  io (op_remove_dir_all p)
     (fun _ fs => filter (fun kn => ~ (p `prefix_of` kn.1 /\ kn.1 <> p)) fs).
Definition fs_read_dir `{ReadDir} (p : path) : M (list string) :=
  io (op_read_dir p) no_effect.
Definition fs_file_type (p : path) : M node := io (op_file_type p) no_effect.

(** [Path::canonicalize]: without symbolic links, the path itself if it
    exists. *)
Definition op_canonicalize (p : path) : fsop path := fun fs =>
  match fs !! p with
  | Some _ => (Ok p, fs)
  | None => (Err (EIo NotFound), fs)
  end.
Definition fs_canonicalize (p : path) : M path := io (op_canonicalize p) no_effect.

Definition fill_bytes `{Entropy} (n : nat) : M bytes := fun w =>
  (Ok (rng_draw (w_rng w) n), World (w_fs w) (w_faults w) (S (w_rng w)) (w_tick w)).
Definition utc_now `{WallClock} : M Z := fun w =>
  (Ok (wall (w_tick w)), World (w_fs w) (w_faults w) (w_rng w) (S (w_tick w))).

(** The directory an atomic save goes through: write a sibling, rename it
    over the target, then restrict its mode. *)
Definition write_atomic (dir target tmp : path) (data : bytes) (mode : option Z) : M unit :=
  fs_create_dir_all dir ;;;
  fs_write tmp data ;;;
  fs_rename tmp target ;;;
  match mode with
  | Some m => fs_set_mode target m
  | None => ret tt
  end.

(** The regular file at a path, if there is one. *)
Definition file_at (fs : fsmap) (p : path) : option file :=
  match fs !! p with Some (NFile f) => Some f | _ => None end.

Definition data_at (fs : fsmap) (p : path) : option bytes := f_data <$> file_at fs p.

(** [touches S m]: whatever the faults, [m] leaves every regular file outside
    [S] as it was. *)
Definition touches (S : path -> Prop) {A} (m : M A) : Prop :=
  forall w q, ~ S q -> file_at (w_fs (snd (m w))) q = file_at (w_fs w) q.

(** No obstacle on the way to a directory. *)
Definition can_mkdir (fs : fsmap) (p : path) : Prop :=
  forall q, q ∈ ancestors p -> fs !! q = None \/ fs !! q = Some NDir.

(** The path can be written as a regular file once its parent exists. *)
Definition can_write (fs : fsmap) (p : path) : Prop :=
  fs !! p = None \/ exists f, fs !! p = Some (NFile f).

(** Every node but the root has a directory for parent. *)
Definition fs_wf (fs : fsmap) : Prop :=
  fs !! [] = Some NDir /\
  forall p c, is_Some (fs !! (p ++ [c])) -> fs !! p = Some NDir.

(** ** Lemmas on the monad *)

Lemma bind_Ok {A B} (m : M A) (k : A -> M B) w b w'' :
  bind m k w = (Ok b, w'') <->
  exists a w', m w = (Ok a, w') /\ k a w' = (Ok b, w'').
Proof. unfold bind. destruct (m w) as [[a|e|] w']; naive_solver. Qed.

Lemma bind_run {A B} (m : M A) (k : A -> M B) w a w' :
  m w = (Ok a, w') -> bind m k w = k a w'.
Proof. intros E. unfold bind. by rewrite E. Qed.

Lemma run_Ok {A} (m : M A) w a : fst (m w) = Ok a -> m w = (Ok a, snd (m w)).
Proof. destruct (m w). simpl. congruence. Qed.

Lemma ctx_Ok {A} c (m : M A) w a w' : ctx c m w = (Ok a, w') <-> m w = (Ok a, w').
Proof. unfold ctx. destruct (m w) as [[]]; naive_solver. Qed.

Lemma lift_Ok {A} (r : outcome A) w a w' :
  lift r w = (Ok a, w') <-> r = Ok a /\ w' = w.
Proof. unfold lift. naive_solver. Qed.

Lemma ret_Ok {A} (x : A) w a w' : ret x w = (Ok a, w') <-> a = x /\ w' = w.
Proof. unfold ret. naive_solver. Qed.

(** Decompose a successful run into its successful steps. *)
Ltac inv_ok :=
  repeat match goal with
  | H : bind _ _ _ = (Ok _, _) |- _ =>
      apply bind_Ok in H as (? & ? & ? & H)
  | H : ctx _ _ _ = (Ok _, _) |- _ => apply ctx_Ok in H
  | H : lift _ _ = (Ok _, _) |- _ => apply lift_Ok in H as [? ->]
  | H : ret _ _ = (Ok _, _) |- _ => apply ret_Ok in H as [? ->]
  | H : fail _ _ = (Ok _, _) |- _ => discriminate H
  | H : rbind _ _ = Ok _ |- _ => apply rbind_Ok in H as (? & ? & H)
  | H : rctx _ _ = Ok _ |- _ => apply rctx_Ok in H
  | H : ok_or _ _ = Ok _ |- _ => apply ok_or_Ok in H
  | H : expect _ = Ok _ |- _ => apply expect_Ok in H
  | H : (_, _) = (_, _) |- _ => injection H as ? ?; subst
  | u : unit |- _ => destruct u
  end; simplify_eq.

(** ** Equality of computations up to the text of errors

    [Context] changes what is printed, not what happens: [≈ₘ] relates two
    computations with the same effects and the same successful results. *)
Inductive out_eq {A} : outcome A -> outcome A -> Prop :=
  | oe_ok a : out_eq (Ok a) (Ok a)
  | oe_err e1 e2 : out_eq (Err e1) (Err e2)
  | oe_panic : out_eq Panic Panic.

Definition meq {A} (m1 m2 : M A) : Prop :=
  forall w, out_eq (fst (m1 w)) (fst (m2 w)) /\ snd (m1 w) = snd (m2 w).
Infix "≈ₘ" := meq (at level 70) : rust_scope.

#[export] Instance meq_equiv {A} : Equivalence (@meq A).
Proof.
  split.
  - intros m w. split; [|done]. destruct (fst (m w)); constructor.
  - intros m1 m2 H w. destruct (H w) as [[] ?]; split; try constructor; done.
  - intros m1 m2 m3 H12 H23 w. destruct (H12 w) as [H1 ->], (H23 w) as [H2 ->].
    split; [|done]. destruct H1; inversion H2; constructor.
Qed.

#[export] Instance bind_proper {A B} :
  Proper (meq ==> pointwise_relation A meq ==> meq) (@bind A B).
Proof.
  intros m1 m2 Hm k1 k2 Hk w. unfold bind. destruct (Hm w) as [Ho Hs].
  destruct (m1 w) as [o1 w1], (m2 w) as [o2 w2]. simpl in *. subst.
  destruct Ho; simpl; [apply Hk | split; [constructor|done]..].
Qed.

Lemma ctx_meq {A} c (m : M A) : ctx c m ≈ₘ m.
Proof.
  intros w. unfold ctx. destruct (m w) as [[] w']; simpl; split; try constructor; done.
Qed.

Lemma meq_Ok {A} (m1 m2 : M A) w a w' :
  m1 ≈ₘ m2 -> m1 w = (Ok a, w') <-> m2 w = (Ok a, w').
Proof.
  intros H. destruct (H w) as [Ho Hs]. destruct (m1 w), (m2 w). simpl in *. subst.
  destruct Ho; naive_solver.
Qed.

Lemma meq_world {A} (m1 m2 : M A) w : m1 ≈ₘ m2 -> snd (m1 w) = snd (m2 w).
Proof. intros H. apply (H w). Qed.

#[export] Instance touches_proper {A} S : Proper (meq ==> iff) (@touches S A).
Proof.
  intros m1 m2 Hm. unfold touches.
  split; intros H w q Hq; [rewrite <- (meq_world _ _ w Hm) | rewrite (meq_world _ _ w Hm)];
    by apply H.
Qed.

(** ** Lemmas on paths *)

Lemma ancestors_self p : p ∈ ancestors p.
Proof.
  unfold ancestors. apply list_elem_of_fmap. exists (length p).
  rewrite take_ge by lia. split; [done|]. apply elem_of_seq. lia.
Qed.

Lemma ancestors_prefix p q : q ∈ ancestors p -> q `prefix_of` p.
Proof.
  unfold ancestors. intros (i & -> & _)%list_elem_of_fmap. apply prefix_take.
Qed.

Lemma length_ancestor p q : q ∈ ancestors p -> (length q <= length p)%nat.
Proof. intros H%ancestors_prefix. by apply prefix_length. Qed.

Lemma parent_snoc (p : path) c : parent (p ++ [c]) = p.
Proof. apply removelast_last. Qed.

(** A name that [Path::join] appends as a single component. *)
Definition plain_name (s : string) : Prop :=
  names s = [s] /\ is_absolute s || bool_decide (s = "..") = false.

Ltac plain_const := split; vm_compute; reflexivity.

Lemma join_plain p s : plain_name s -> join p s = p ++ [s].
Proof.
  intros [Hc [Ha Hd]%orb_false_iff]. apply bool_decide_eq_false in Hd.
  unfold join. rewrite Ha, Hc. simpl. by rewrite decide_False.
Qed.

Lemma split_on_none sep cur s : sep ∉ s -> split_on sep cur s = [rev cur ++ s].
Proof.
  revert cur. induction s as [|c s IH]; intros cur Hs; simpl; [by rewrite app_nil_r|].
  rewrite decide_False by set_solver. rewrite IH by set_solver. simpl.
  by rewrite <- app_assoc.
Qed.

Lemma plain_name_intro s :
  slash ∉ string_bytes s -> s <> ""%string -> s <> "."%string -> s <> ".."%string -> plain_name s.
Proof.
  intros Hs He Hd Hdd. split.
  - unfold names. rewrite split_on_none by done. simpl.
    rewrite bytes_string_bytes. rewrite filter_cons_True by done. done.
  - rewrite (bool_decide_false _ Hdd), orb_false_r. unfold is_absolute.
    destruct (string_bytes s); [done|]. apply bool_decide_false. set_solver.
Qed.

Lemma file_name_snoc (p : path) n : n <> ".."%string -> file_name (p ++ [n]) = Some n.
Proof. intros Hn. unfold file_name. rewrite last_snoc. simpl. by rewrite decide_False. Qed.

Lemma with_extension_snoc (p : path) n ext :
  n <> ".."%string -> with_extension (p ++ [n]) ext = p ++ [fst (stem_ext n) +:+ "." +:+ ext].
Proof.
  intros Hn. unfold with_extension, set_file_name.
  by rewrite file_name_snoc, removelast_last.
Qed.

Lemma plain_name_dotdot n : plain_name n -> n <> ".."%string.
Proof. intros [_ [_ Hd]%orb_false_iff]. by apply bool_decide_eq_false in Hd. Qed.

Lemma set_fs_id w : set_fs (w_fs w) w = w.
Proof. by destruct w. Qed.

Lemma ancestors_length_ne (p : path) c : p ++ [c] ∉ ancestors p.
Proof. intros H%length_ancestor. rewrite length_app in H. simpl in H. lia. Qed.

(** ** Lemmas on the file operations *)

Lemma child_of_Some p k c : child_of p k = Some c <-> k = p ++ [c].
Proof.
  revert k. induction p as [|x p IH]; intros [|y k]; simpl; try (split; congruence).
  - destruct k; split; congruence.
  - case_decide; subst; [rewrite IH|]; split; congruence.
Qed.

Lemma elem_of_children fs p c : c ∈ children fs p <-> is_Some (fs !! (p ++ [c])).
Proof.
  unfold children. rewrite list_elem_of_omap. split.
  - intros ([k n] & Hk & E). simpl in E. apply child_of_Some in E as ->.
    apply elem_of_map_to_list in Hk. eauto.
  - intros [n Hn]. exists (p ++ [c], n). split; [by apply elem_of_map_to_list|].
    by apply child_of_Some.
Qed.

Lemma children_nodup fs p : NoDup (children fs p).
Proof.
  unfold children. pose proof (NoDup_map_to_list fs) as Hnd.
  assert (forall kn1 kn2, kn1 ∈ map_to_list fs -> kn2 ∈ map_to_list fs ->
    child_of p kn1.1 = child_of p kn2.1 -> is_Some (child_of p kn1.1) -> kn1 = kn2) as Hinj.
  { intros [k1 n1] [k2 n2] H1 H2 E [c Hc]. simpl in *. rewrite Hc in E. symmetry in E.
    apply child_of_Some in Hc as ->, E as ->.
    apply elem_of_map_to_list in H1, H2. congruence. }
  induction Hnd as [|kn l Hkn Hnd IH]; [constructor|]. simpl.
  destruct (child_of p kn.1) as [c|] eqn:E.
  - constructor.
    + rewrite list_elem_of_omap. intros (kn' & Hin & E').
      destruct Hkn. rewrite (Hinj kn kn') by (rewrite ?E; set_solver). done.
    + apply IH. intros; apply Hinj; set_solver.
  - apply IH. intros; apply Hinj; set_solver.
Qed.

Lemma mkdirs_spec ps fs :
  (forall q, snd (mkdirs ps fs) !! q = fs !! q \/
             (q ∈ ps /\ fs !! q = None /\ snd (mkdirs ps fs) !! q = Some NDir)).
Proof.
  revert fs. induction ps as [|p ps IH]; intros fs q; simpl; [by left|].
  destruct (fs !! p) as [[| |]|] eqn:E; simpl; try by left.
  - destruct (IH fs q) as [->|(?&?&->)]; [by left|right; set_solver].
  - destruct (decide (p = q)) as [->|Hne].
    + right. split; [set_solver|]. split; [done|].
      destruct (IH (<[q:=NDir]> fs) q) as [->|(?&?&->)]; [|done].
      by rewrite lookup_insert_eq.
    + destruct (IH (<[p:=NDir]> fs) q) as [->|(?&HN&->)];
        rewrite lookup_insert_ne in * by done; [by left|]. right. set_solver.
Qed.

Lemma mkdirs_ok ps fs :
  (forall q, q ∈ ps -> fs !! q = None \/ fs !! q = Some NDir) ->
  fst (mkdirs ps fs) = Ok tt /\ forall q, q ∈ ps -> snd (mkdirs ps fs) !! q = Some NDir.
Proof.
  revert fs. induction ps as [|p ps IH]; intros fs Hps; simpl; [set_solver|].
  assert (forall q, q ∈ ps -> <[p:=NDir]> fs !! q = None \/ <[p:=NDir]> fs !! q = Some NDir)
    as Hps'.
  { intros q Hq. rewrite lookup_insert. case_decide; [by right|]. apply Hps. set_solver. }
  assert (forall fs', fs' !! p = Some NDir -> snd (mkdirs ps fs') !! p = Some NDir) as Hkeep.
  { intros fs' Hp. destruct (mkdirs_spec ps fs' p) as [->|(?&?&?)]; congruence. }
  destruct (Hps p) as [E|E]; [set_solver| |]; rewrite E.
  - destruct (IH _ Hps') as [? Hd]. split; [done|].
    intros q [->|?]%elem_of_cons; [|by apply Hd].
    apply Hkeep. by rewrite lookup_insert_eq.
  - destruct (IH fs) as [? Hd]; [set_solver|]. split; [done|].
    intros q [->|?]%elem_of_cons; [by apply Hkeep | by apply Hd].
Qed.

Lemma mkdirs_file_at ps fs q : file_at (snd (mkdirs ps fs)) q = file_at fs q.
Proof.
  unfold file_at. destruct (mkdirs_spec ps fs q) as [->|(_ & -> & ->)]; done.
Qed.

Lemma op_write_file_at p data fs q :
  q <> p -> file_at (snd (op_write p data fs)) q = file_at fs q.
Proof.
  intros Hq. unfold op_write, file_at.
  repeat case_match; simplify_eq/=; rewrite ?lookup_insert_ne in * by done; congruence.
Qed.

Lemma op_write_ok p data fs fs' :
  op_write p data fs = (Ok tt, fs') -> data_at fs' p = Some data.
Proof.
  unfold op_write, data_at, file_at. intros.
  repeat case_match; simplify_eq/=; rewrite lookup_insert_eq in *; by simplify_eq.
Qed.

Lemma op_rename_file_at a b fs q :
  q <> a -> q <> b -> file_at (snd (op_rename a b fs)) q = file_at fs q.
Proof.
  intros Ha Hb. unfold op_rename, file_at.
  repeat case_match; simplify_eq/=;
    rewrite ?lookup_insert_ne, ?lookup_delete_ne in * by done; congruence.
Qed.

Lemma op_rename_ok a b fs fs' :
  op_rename a b fs = (Ok tt, fs') ->
  file_at fs' b = file_at fs a /\ is_Some (file_at fs a).
Proof.
  unfold op_rename, file_at. intros.
  repeat case_match; simplify_eq/=; rewrite ?lookup_insert_eq in *; simplify_eq; eauto.
Qed.

Lemma op_rename_target a b fs :
  a <> b ->
  file_at (snd (op_rename a b fs)) b = file_at fs b \/
  file_at (snd (op_rename a b fs)) b = file_at fs a.
Proof.
  intros Hab. unfold op_rename, file_at.
  repeat case_match; simplify_eq/=; auto;
    rewrite ?lookup_insert_eq in *; simplify_eq; auto.
Qed.

Lemma op_set_mode_file_at p m fs q :
  q <> p -> file_at (snd (op_set_mode p m fs)) q = file_at fs q.
Proof.
  intros Hq. unfold op_set_mode, file_at.
  repeat case_match; simplify_eq/=; rewrite ?lookup_insert_ne in * by done; congruence.
Qed.

Lemma op_set_mode_data p m fs q : data_at (snd (op_set_mode p m fs)) q = data_at fs q.
Proof.
  unfold op_set_mode, data_at, file_at.
  destruct (decide (q = p)) as [->|]; repeat case_match; simplify_eq/=;
    rewrite ?lookup_insert_eq, ?lookup_insert_ne in * by done; simplify_eq/=; done.
Qed.

Lemma op_set_mode_mode p m fs fs' :
  op_set_mode p m fs = (Ok tt, fs') ->
  exists f, file_at fs' p = Some (File (f_data f) m) /\ file_at fs p = Some f.
Proof.
  unfold op_set_mode, file_at. intros. repeat case_match; simplify_eq/=;
    rewrite lookup_insert_eq in *; naive_solver.
Qed.

(** ** Lemmas on [io] *)

Lemma io_Ok {A} (op : fsop A) (pt : nat -> fsmap -> fsmap) w a w' :
  io op pt w = (Ok a, w') ->
  op (w_fs w) = (Ok a, w_fs w') /\ w_rng w' = w_rng w /\ w_tick w' = w_tick w.
Proof.
  unfold io. destruct (w_faults w) as [|[]]; destruct (op (w_fs w)) eqn:E;
    intros; simplify_eq/=; auto.
Qed.

Lemma io_run {A} (op : fsop A) (pt : nat -> fsmap -> fsmap) w :
  w_faults w = [] -> io op pt w = (fst (op (w_fs w)), set_fs (snd (op (w_fs w))) w).
Proof.
  intros Hf. unfold io, set_fs. rewrite Hf. by destruct (op (w_fs w)).
Qed.

(** A property of the file map that the operation and each of its partial
    effects preserve is preserved whatever the fault. *)
Lemma io_pres {A} (op : fsop A) (pt : nat -> fsmap -> fsmap) (R : fsmap -> Prop) w :
  R (w_fs w) -> R (snd (op (w_fs w))) -> (forall n, R (pt n (w_fs w))) ->
  R (w_fs (snd (io op pt w))).
Proof.
  intros. unfold io. destruct (w_faults w) as [|[]];
    destruct (op (w_fs w)); simpl in *; auto.
Qed.

Lemma io_touches (S : path -> Prop) {A} (op : fsop A) (pt : nat -> fsmap -> fsmap) :
  (forall fs q, ~ S q -> file_at (snd (op fs)) q = file_at fs q) ->
  (forall n fs q, ~ S q -> file_at (pt n fs) q = file_at fs q) ->
  touches S (io op pt).
Proof.
  intros Hop Hpt w q Hq.
  apply (io_pres op pt (fun fs => file_at fs q = file_at (w_fs w) q)); auto.
Qed.

Lemma touches_mono (S T : path -> Prop) {A} (m : M A) :
  (forall q, S q -> T q) -> touches S m -> touches T m.
Proof. intros HST Hm w q Hq. apply Hm. auto. Qed.

Lemma touches_bind S {A B} (m : M A) (k : A -> M B) :
  touches S m -> (forall a, touches S (k a)) -> touches S (bind m k).
Proof.
  intros Hm Hk w q Hq. unfold bind. specialize (Hm w q Hq).
  destruct (m w) as [[a|e|] w'] eqn:E; simpl in *; [|done|done].
  rewrite Hk by done. done.
Qed.

Lemma touches_ctx S {A} c (m : M A) : touches S m -> touches S (ctx c m).
Proof.
  intros Hm w q Hq. unfold ctx. specialize (Hm w q Hq). by destruct (m w).
Qed.

Lemma touches_attempt S {A} (m : M A) : touches S m -> touches S (attempt m).
Proof.
  intros Hm w q Hq. unfold attempt. specialize (Hm w q Hq).
  by destruct (m w) as [[] ?].
Qed.

Lemma touches_ret S {A} (a : A) : touches S (ret a).
Proof. by intros w q Hq. Qed.
Lemma touches_fail S {A} e : touches S (@fail A e).
Proof. by intros w q Hq. Qed.
Lemma touches_lift S {A} (r : outcome A) : touches S (lift r).
Proof. by intros w q Hq. Qed.
Lemma touches_exists `{Metadata} S p : touches S (fs_exists p).
Proof. by intros w q Hq. Qed.
Lemma touches_fill S `{Entropy} n : touches S (fill_bytes n).
Proof. by intros w q Hq. Qed.
Lemma touches_now S `{WallClock} : touches S utc_now.
Proof. by intros w q Hq. Qed.

Lemma touches_read S p : touches S (fs_read p).
Proof. apply io_touches; [|done]. intros. unfold op_read. by repeat case_match. Qed.

Lemma touches_read_dir S `{ReadDir} p : touches S (fs_read_dir p).
Proof. apply io_touches; [|done]. intros. unfold op_read_dir. by repeat case_match. Qed.

Lemma touches_canonicalize S p : touches S (fs_canonicalize p).
Proof. apply io_touches; [|done]. intros. unfold op_canonicalize. by repeat case_match. Qed.

Lemma touches_file_type S p : touches S (fs_file_type p).
Proof. apply io_touches; [|done]. intros. unfold op_file_type. by repeat case_match. Qed.

Lemma touches_create_dir_all S p : touches S (fs_create_dir_all p).
Proof. apply io_touches; intros; apply mkdirs_file_at. Qed.

Lemma touches_write p data : touches (fun q => q = p) (fs_write p data).
Proof. apply io_touches; intros; by apply op_write_file_at. Qed.

Lemma touches_rename a b : touches (fun q => q = a \/ q = b) (fs_rename a b).
Proof.
  apply io_touches; [|done]. intros fs q Hq. apply op_rename_file_at; tauto.
Qed.

Lemma touches_set_mode p m : touches (fun q => q = p) (fs_set_mode p m).
Proof. apply io_touches; [|done]. intros. by apply op_set_mode_file_at. Qed.

Lemma touches_forM S {A} (l : list A) (f : A -> M unit) :
  (forall x, x ∈ l -> touches S (f x)) -> touches S (forM l f).
Proof.
  induction l as [|x l IH]; intros Hf; simpl; [apply touches_ret|].
  apply touches_bind; [apply Hf; set_solver|]. intros _. apply IH. set_solver.
Qed.

#[export] Hint Resolve touches_bind touches_ctx touches_attempt touches_ret
  touches_fail touches_lift touches_exists touches_fill touches_now touches_read
  touches_read_dir touches_file_type touches_canonicalize touches_create_dir_all touches_write
  touches_rename touches_set_mode : peerdup.

Lemma fs_read_run p w d :
  w_faults w = [] -> data_at (w_fs w) p = Some d -> fs_read p w = (Ok d, w).
Proof.
  intros Hf Hd. unfold fs_read. rewrite io_run by done.
  unfold op_read, data_at, file_at in *.
  destruct (w_fs w !! p) as [[]|] eqn:E; simplify_eq/=. by rewrite set_fs_id.
Qed.

Lemma fs_read_Ok p w d w' :
  fs_read p w = (Ok d, w') ->
  data_at (w_fs w) p = Some d /\ w_fs w' = w_fs w /\ w_rng w' = w_rng w.
Proof.
  intros (E & ? & _)%io_Ok. unfold op_read, data_at, file_at in *.
  by repeat case_match; simplify_eq/=.
Qed.

(** The metadata of every path can be read all the time: what the code relies
    on when it takes a [false] of [exists] for the absence of a file. *)
Class Sighted `{Metadata} : Prop := sighted : forall w p, stat_fails w p = false.

Lemma sighted_readable `{Metadata, !Sighted} w p : unreadable w p = false.
Proof. unfold unreadable. destruct (w_faults w); [done|apply sighted]. Qed.

Lemma quiet_readable `{Metadata} w p : w_faults w = [] -> unreadable w p = false.
Proof. unfold unreadable. by intros ->. Qed.

Lemma fs_exists_run `{Metadata} p w :
  unreadable w p = false -> fs_exists p w = (Ok (bool_decide (is_Some (w_fs w !! p))), w).
Proof. unfold fs_exists. intros ->. by rewrite andb_true_r. Qed.

Lemma fs_exists_data `{Metadata} p w d :
  unreadable w p = false -> data_at (w_fs w) p = Some d -> fs_exists p w = (Ok true, w).
Proof.
  intros Hu Hd. rewrite fs_exists_run by done. unfold data_at, file_at in Hd.
  destruct (w_fs w !! p) as [n|]; [|done]. by rewrite bool_decide_true by eauto.
Qed.

(** A path that is said to exist exists. *)
Lemma fs_exists_true `{Metadata} p w w' :
  fs_exists p w = (Ok true, w') -> is_Some (w_fs w !! p) /\ w' = w.
Proof.
  unfold fs_exists. intros [= [He _]%andb_true_iff ->]. by apply bool_decide_eq_true in He.
Qed.

(** ** Atomic saves *)

Section write_atomic.
Context (dir target tmp : path) (data : bytes) (mode : option Z).

Lemma write_atomic_touches :
  touches (fun q => q = target \/ q = tmp) (write_atomic dir target tmp data mode).
Proof.
  unfold write_atomic.
  apply touches_bind; [apply touches_create_dir_all|]. intros _.
  apply touches_bind; [eapply touches_mono; [|apply touches_write]; naive_solver|]. intros _.
  apply touches_bind; [eapply touches_mono; [|apply touches_rename]; naive_solver|]. intros _.
  destruct mode; [|apply touches_ret].
  eapply touches_mono; [|apply touches_set_mode]; naive_solver.
Qed.

(** A save that reports success has stored exactly its data. *)
Lemma write_atomic_Ok w w' :
  write_atomic dir target tmp data mode w = (Ok tt, w') ->
  data_at (w_fs w') target = Some data /\
  (forall m, mode = Some m -> file_at (w_fs w') target = Some (File data m)).
Proof.
  unfold write_atomic. intros H. inv_ok.
  match goal with H : fs_write _ _ _ = _ |- _ => apply io_Ok in H as [Ew _] end.
  match goal with H : fs_rename _ _ _ = _ |- _ => apply io_Ok in H as [Er _] end.
  apply op_write_ok in Ew. apply op_rename_ok in Er as [Er _].
  unfold data_at in Ew. rewrite <- Er in Ew.
  destruct mode as [m|]; [|inv_ok; done].
  apply io_Ok in H as [Em _].
  match type of Em with op_set_mode _ _ ?fs = _ =>
    pose proof (op_set_mode_data target m fs target) as Hd end.
  rewrite Em in Hd. simpl in Hd. unfold data_at in Hd |- *. rewrite Hd.
  split; [done|]. intros ? [= <-]. apply op_set_mode_mode in Em as (f & -> & Hf).
  unfold data_at in *. destruct (file_at _ target); naive_solver.
Qed.

(** Whatever fails, and wherever, the target holds its old contents or the
    complete new ones. *)
Lemma write_atomic_atomic w :
  tmp <> target ->
  let fs' := w_fs (snd (write_atomic dir target tmp data mode w)) in
  data_at fs' target = data_at (w_fs w) target \/ data_at fs' target = Some data.
Proof.
  intros Hne. cbv zeta.
  set (P := fun fs => data_at fs target = data_at (w_fs w) target \/
                      data_at fs target = Some data).
  change (P (w_fs (snd (write_atomic dir target tmp data mode w)))).
  unfold write_atomic.
  assert (Hm : forall w1, data_at (w_fs (snd (match mode with
      Some m => fs_set_mode target m | None => ret tt end w1))) target
    = data_at (w_fs w1) target).
  { intros w1. destruct mode as [m|]; [|done].
    apply (io_pres _ _ (fun fs => data_at fs target = data_at (w_fs w1) target));
      [done | apply op_set_mode_data | done]. }
  pose proof (touches_create_dir_all (fun _ => False) dir w target ltac:(auto)) as H1.
  unfold bind at 1. destruct (fs_create_dir_all dir w) as [[?|?|] w1]; simpl in H1;
    [|by left; simpl; unfold data_at; rewrite H1..].
  pose proof (touches_write tmp data w1 target ltac:(auto)) as H2.
  unfold bind at 1. destruct (fs_write tmp data w1) as [[[]|?|] w2] eqn:E2; simpl in H2;
    [|by left; simpl; unfold data_at; rewrite H2, H1..].
  apply io_Ok in E2 as [Ew _]. apply op_write_ok in Ew. unfold data_at in *.
  unfold bind.
  assert (Hr : file_at (w_fs (snd (fs_rename tmp target w2))) target = file_at (w_fs w2) target
    \/ file_at (w_fs (snd (fs_rename tmp target w2))) target = file_at (w_fs w2) tmp).
  { apply (io_pres _ _ (fun fs => file_at fs target = file_at (w_fs w2) target \/
      file_at fs target = file_at (w_fs w2) tmp)); [by left| |by left].
    by apply op_rename_target. }
  destruct (fs_rename tmp target w2) as [[?|?|] w3]; simpl in *; subst P; simpl; rewrite ?Hm;
    unfold data_at in *; rewrite ?H1, ?H2 in *; destruct Hr as [Hr|Hr]; rewrite Hr; auto.
Qed.

(** Without I/O failures a save into a usable place succeeds. *)
Lemma write_atomic_run w :
  w_faults w = [] -> tmp <> target -> parent target = dir -> parent tmp = dir ->
  target ∉ ancestors dir -> tmp ∉ ancestors dir ->
  can_mkdir (w_fs w) dir -> can_write (w_fs w) target -> can_write (w_fs w) tmp ->
  exists fs', write_atomic dir target tmp data mode w = (Ok tt, set_fs fs' w) /\
    can_mkdir fs' dir /\ can_write fs' target /\ can_write fs' tmp.
Proof.
  intros Hf Hne Hpt Hpm Htd Hmd Hdir Ht Hm. unfold write_atomic.
  destruct (mkdirs_ok (ancestors dir) (w_fs w) Hdir) as [Hok Hanc].
  set (fs1 := snd (mkdirs (ancestors dir) (w_fs w))) in *.
  assert (Hd1 : fs1 !! dir = Some NDir) by (apply Hanc, ancestors_self).
  assert (Hsame : forall q, q ∉ ancestors dir -> fs1 !! q = w_fs w !! q).
  { intros q Hq. by destruct (mkdirs_spec (ancestors dir) (w_fs w) q) as [?|(?&?&?)]. }
  rewrite (bind_run _ _ _ tt (set_fs fs1 w)).
  2: { unfold fs_create_dir_all. rewrite io_run by done. unfold op_create_dir_all.
       by rewrite Hok. }
  assert (exists fs2 f, op_write tmp data fs1 = (Ok tt, fs2) /\
    fs2 !! tmp = Some (NFile f) /\ (forall q, q <> tmp -> fs2 !! q = fs1 !! q))
    as (fs2 & f & E2 & Htmp & Hoth).
  { unfold op_write. rewrite (Hsame tmp) by done. destruct Hm as [->|[f ->]].
    - unfold is_dir. rewrite Hpm, Hd1, bool_decide_true by done.
      do 2 eexists. split; [done|]. rewrite lookup_insert_eq. split; [done|].
      intros. by rewrite lookup_insert_ne.
    - do 2 eexists. split; [done|]. rewrite lookup_insert_eq. split; [done|].
      intros. by rewrite lookup_insert_ne. }
  rewrite (bind_run _ _ _ tt (set_fs fs2 w)).
  2: { unfold fs_write. rewrite io_run by done. simpl. by rewrite E2. }
  assert (op_rename tmp target fs2 = (Ok tt, <[target := NFile f]> (delete tmp fs2))) as E3.
  { unfold op_rename. rewrite Htmp, (Hoth target), (Hsame target) by done.
    destruct Ht as [->|[f' ->]]; [|done].
    assert (dir <> tmp) by (intros ->; by apply Hmd, ancestors_self).
    unfold is_dir. by rewrite Hpt, Hoth, Hd1, bool_decide_true by done. }
  set (fs3 := <[target := NFile f]> (delete tmp fs2)) in *.
  assert (forall fs', (forall q, q <> target -> fs' !! q = fs3 !! q) ->
    (exists g, fs' !! target = Some (NFile g)) ->
    can_mkdir fs' dir /\ can_write fs' target /\ can_write fs' tmp) as Hready.
  { intros fs' Hfr Hg. split; [|split; [by right|]].
    - intros q Hq. right. unfold fs3 in Hfr. rewrite Hfr by (intros ->; done).
      rewrite lookup_insert_ne, lookup_delete_ne, Hoth by (intros ->; done). by apply Hanc.
    - left. rewrite Hfr by done. unfold fs3. by rewrite lookup_insert_ne, lookup_delete_eq by done. }
  assert (fs3 !! target = Some (NFile f)) as Hf3 by apply lookup_insert_eq.
  rewrite (bind_run _ _ _ tt (set_fs fs3 w)).
  2: { unfold fs_rename. rewrite io_run by done. simpl. by rewrite E3. }
  destruct mode as [m|]; [|exists fs3; split; [done|]; eauto].
  unfold fs_set_mode. rewrite io_run by done. simpl. unfold op_set_mode. rewrite Hf3.
  set (fs4 := <[target := _]> fs3). exists fs4. split; [done|]. apply Hready.
  - intros q Hq. unfold fs4. by rewrite lookup_insert_ne.
  - unfold fs4. rewrite lookup_insert_eq. eauto.
Qed.
End write_atomic.

(** ** Whole nodes under an atomic save *)

(** What an atomic save of [target] in [dir] may do to the nodes of [fs0]:
    directories stay, nodes away from the save are as before, and the target
    is as before or a regular file. *)
Record saved_near (dir target tmp : path) (fs0 fs : fsmap) : Prop := {
  sn_dirs : forall q, fs0 !! q = Some NDir -> fs !! q = Some NDir;
  sn_frame : forall q, q <> target -> q <> tmp -> q ∉ ancestors dir -> fs !! q = fs0 !! q;
  sn_target : fs !! target = fs0 !! target \/ exists f, fs !! target = Some (NFile f);
}.

Lemma op_write_near dir target tmp data fs0 fs :
  tmp <> target ->
  saved_near dir target tmp fs0 fs -> saved_near dir target tmp fs0 (snd (op_write tmp data fs)).
Proof.
  intros Hne Hs. pose proof Hs as [Hd Hf Ht]. unfold op_write.
  destruct (fs !! tmp) as [[f| |]|] eqn:E; [|done..|case_match; [|done]]; simpl; split.
  all: try (intros q Hq Hq' Hq''; rewrite lookup_insert_ne by done; by apply Hf).
  all: try (rewrite !lookup_insert_ne by done; done).
  all: intros q Hq; destruct (decide (q = tmp)) as [->|]; [apply Hd in Hq; congruence|].
  all: rewrite lookup_insert_ne by done; by apply Hd.
Qed.

Lemma op_rename_near dir target tmp fs0 fs :
  tmp <> target ->
  saved_near dir target tmp fs0 fs -> saved_near dir target tmp fs0 (snd (op_rename tmp target fs)).
Proof.
  intros Hne Hs. pose proof Hs as [Hd Hf Ht]. unfold op_rename.
  destruct (fs !! tmp) as [[f| |]|] eqn:E; [|done..].
  assert (fs !! target <> Some NDir ->
    saved_near dir target tmp fs0 (<[target:=NFile f]> (delete tmp fs))) as Hgo.
  { intros Hnd. split.
    - intros q Hq. destruct (decide (q = target)) as [->|]; [by apply Hd in Hq|].
      destruct (decide (q = tmp)) as [->|]; [apply Hd in Hq; congruence|].
      rewrite lookup_insert_ne, lookup_delete_ne by done. by apply Hd.
    - intros q ???. rewrite lookup_insert_ne, lookup_delete_ne by done. by apply Hf.
    - right. rewrite lookup_insert_eq. eauto. }
  destruct (fs !! target) as [[g| |]|] eqn:E'; simpl; try done; try by apply Hgo.
  case_match; [by apply Hgo|done].
Qed.

Lemma op_set_mode_near dir target tmp m fs0 fs :
  saved_near dir target tmp fs0 fs ->
  saved_near dir target tmp fs0 (snd (op_set_mode target m fs)).
Proof.
  intros Hs. pose proof Hs as [Hd Hf Ht]. unfold op_set_mode. destruct (fs !! target) as [[f| |]|] eqn:E; try done.
  simpl. split.
  - intros q Hq. destruct (decide (q = target)) as [->|]; [apply Hd in Hq; congruence|].
    rewrite lookup_insert_ne by done. by apply Hd.
  - intros q ???. rewrite lookup_insert_ne by done. by apply Hf.
  - right. rewrite lookup_insert_eq. eauto.
Qed.

Lemma mkdirs_near dir target tmp ps fs0 fs :
  (forall q, q ∈ ps -> q ∈ ancestors dir) -> target ∉ ancestors dir ->
  saved_near dir target tmp fs0 fs -> saved_near dir target tmp fs0 (snd (mkdirs ps fs)).
Proof.
  intros Hps Ht [Hd Hf Htg].
  split.
  - intros q Hq. apply Hd in Hq. destruct (mkdirs_spec ps fs q) as [->|(?&?&?)]; done.
  - intros q ?? Hq. destruct (mkdirs_spec ps fs q) as [->|(Hin&?&?)]; [by apply Hf|].
    by apply Hps in Hin.
  - destruct (mkdirs_spec ps fs target) as [->|(Hin&?&?)]; [done|]. by apply Hps in Hin.
Qed.

Lemma write_atomic_near dir target tmp data mode w :
  tmp <> target -> target ∉ ancestors dir ->
  saved_near dir target tmp (w_fs w) (w_fs (snd (write_atomic dir target tmp data mode w))).
Proof.
  intros Hne Hta. set (R := saved_near dir target tmp (w_fs w)).
  assert (R (w_fs w)) as H0 by (split; auto).
  assert (forall A B (m : M A) (k : A -> M B) w0, R (w_fs (snd (m w0))) ->
    (forall a w1, R (w_fs w1) -> R (w_fs (snd (k a w1)))) -> R (w_fs (snd (bind m k w0)))) as Hb.
  { intros A B m k w0 Hm Hk. unfold bind. destruct (m w0) as [[a|e|] w1]; simpl in *; auto. }
  unfold write_atomic. apply Hb; [|intros _ w1 H1; apply Hb; [|intros _ w2 H2; apply Hb]].
  - apply (io_pres _ _ R); [done| |]; intros; apply mkdirs_near; try done.
    intros q Hq. eapply elem_of_submseteq; [exact Hq|]. apply sublist_submseteq, sublist_take.
  - apply (io_pres _ _ R); [done| |]; intros; by apply op_write_near.
  - apply (io_pres _ _ R); [done| |]; intros; [by apply op_rename_near|done].
  - intros _ w3 H3. destruct mode; [|done].
    apply (io_pres _ _ R); [done| |]; intros; [by apply op_set_mode_near|done].
Qed.
