(* ===== verification/Tree.v ===== *)
(** * Well-formed file trees and read-only computations

    [fs_wf] is an invariant of every file operation; [reads] is the judgement
    for computations that only look at the files. *)

From S2P Require Import Prelude World.

(** ** [fs_wf] is preserved *)

Lemma snoc_parent (p : path) : p <> [] -> exists c, p = parent p ++ [c].
Proof.
  intros Hp. destruct p as [|c q _] using rev_ind; [done|]. exists c. by rewrite parent_snoc.
Qed.

Lemma fs_wf_prefix fs p s : fs_wf fs -> s <> [] -> is_Some (fs !! (p ++ s)) -> fs !! p = Some NDir.
Proof.
  intros [_ Hwf]. revert p. induction s as [|c s IH]; intros p Hne Hs; [done|].
  destruct (decide (s = [])) as [->|Hs']; [by eapply Hwf|].
  eapply Hwf. rewrite (IH (p ++ [c])); [eauto|done|]. by rewrite <- app_assoc.
Qed.

Lemma fs_wf_no_child fs p c : fs_wf fs -> fs !! p <> Some NDir -> fs !! (p ++ [c]) = None.
Proof.
  intros [_ Hwf] Hp. destruct (fs !! (p ++ [c])) eqn:E; [|done].
  destruct Hp. eapply Hwf. eauto.
Qed.

Lemma fs_wf_insert fs p n :
  fs_wf fs -> fs !! p <> Some NDir -> (fs !! p = None -> fs !! parent p = Some NDir) ->
  fs_wf (<[p := n]> fs).
Proof.
  intros Hwf Hp Hpar. destruct Hwf as [Hroot Hwf].
  assert (p <> []) as Hne by (intros ->; congruence).
  split; [by rewrite lookup_insert_ne|].
  intros q c Hc. rewrite lookup_insert. case_decide as Hq.
  - subst q. exfalso. rewrite lookup_insert_ne in Hc.
    + apply Hwf in Hc. congruence.
    + intros E%(f_equal length). rewrite length_app in E. simpl in E. lia.
  - destruct (decide (p = q ++ [c])) as [->|Hne'].
    + rewrite parent_snoc in Hpar. destruct (fs !! (q ++ [c])) eqn:E; [|by apply Hpar].
      eapply Hwf. eauto.
    + rewrite lookup_insert_ne in Hc by done. by eapply Hwf.
Qed.

Lemma fs_wf_delete fs p : fs_wf fs -> fs !! p <> Some NDir -> fs_wf (delete p fs).
Proof.
  intros [Hroot Hwf] Hp. assert (p <> []) by (intros ->; congruence).
  split; [by rewrite lookup_delete_ne|].
  intros q c Hc. rewrite lookup_delete in Hc. case_decide as Hpc; [by destruct Hc|].
  rewrite lookup_delete_ne; [by eapply Hwf|]. intros ->.
  apply Hwf in Hc. congruence.
Qed.

Lemma fs_wf_write p d fs : fs_wf fs -> fs_wf (snd (op_write p d fs)).
Proof.
  intros Hwf. unfold op_write. destruct (fs !! p) as [[f| |]|] eqn:E; simpl; try done.
  - apply fs_wf_insert; [done|congruence|congruence].
  - unfold is_dir. case_bool_decide; [|done]. simpl. apply fs_wf_insert; [done|congruence|done].
Qed.

Lemma fs_wf_remove_file p fs : fs_wf fs -> fs_wf (snd (op_remove_file p fs)).
Proof.
  intros Hwf. unfold op_remove_file. destruct (fs !! p) as [[f| |]|] eqn:E; simpl; try done;
    (apply fs_wf_delete; [done|congruence]).
Qed.

Lemma fs_wf_rename a b fs : fs_wf fs -> fs_wf (snd (op_rename a b fs)).
Proof.
  intros Hwf. unfold op_rename. destruct (fs !! a) as [[f| |]|] eqn:E; try done.
  assert (fs_wf (delete a fs)) as Hd by (apply fs_wf_delete; [done|congruence]).
  assert (fs !! b <> Some NDir -> (fs !! b = None -> fs !! parent b = Some NDir) ->
    fs_wf (<[b := NFile f]> (delete a fs))) as Hgo.
  { intros Hb Hpar. destruct (decide (a = b)) as [->|Hne].
    - rewrite insert_delete_eq. apply fs_wf_insert; [done|congruence|congruence].
    - apply fs_wf_insert; [done| |]; rewrite lookup_delete_ne by done; [done|].
      intros Hnone. rewrite lookup_delete_ne; [by apply Hpar|].
      intros Ha. specialize (Hpar Hnone). rewrite <- Ha in Hpar. congruence. }
  destruct (fs !! b) as [[g| |]|] eqn:E'; simpl; try done; try (apply Hgo; congruence).
  unfold is_dir. case_bool_decide; [|done]. by apply Hgo.
Qed.

Lemma fs_wf_set_mode p m fs : fs_wf fs -> fs_wf (snd (op_set_mode p m fs)).
Proof.
  intros Hwf. unfold op_set_mode. destruct (fs !! p) as [[f| |]|] eqn:E; simpl; try done.
  apply fs_wf_insert; [done|congruence|congruence].
Qed.

Lemma mkdirs_wf_from (p : path) k n fs :
  fs_wf fs -> (forall j, (j < k)%nat -> fs !! take j p = Some NDir) -> (k + n <= S (length p))%nat ->
  fs_wf (snd (mkdirs ((fun i => take i p) <$> seq k n) fs)).
Proof.
  revert k fs. induction n as [|n IH]; intros k fs Hwf Hd Hk; [done|]. cbn [seq].
  rewrite fmap_cons. cbn [mkdirs]. destruct (fs !! take k p) as [[f| |]|] eqn:E; try done.
  - apply IH; [done| |lia]. intros j Hj. destruct (decide (j = k)) as [->|]; [done|].
    apply Hd. lia.
  - assert (k <> 0%nat) as Hk0.
    { intros ->. destruct Hwf as [Hroot _]. rewrite take_0 in E. congruence. }
    apply IH; [|intros j Hj|lia].
    + apply fs_wf_insert; [done|congruence|]. intros _.
      destruct k as [|k]; [done|]. rewrite (take_S_r p k (default ""%string (p !! k))).
      * rewrite parent_snoc. apply Hd. lia.
      * destruct (lookup_lt_is_Some_2 p k) as [c ->]; [lia|done].
    + destruct (decide (j = k)) as [->|]; [by rewrite lookup_insert_eq|].
      rewrite lookup_insert_ne; [apply Hd; lia|].
      intros E'%(f_equal length). rewrite !length_take in E'. lia.
Qed.

Lemma fs_wf_mkdirs p n fs : fs_wf fs -> fs_wf (snd (mkdirs (take n (ancestors p)) fs)).
Proof.
  intros Hwf. unfold ancestors. rewrite <- fmap_take, take_seq.
  apply mkdirs_wf_from; [done|lia|lia].
Qed.

Lemma fs_wf_create_dir_all p fs : fs_wf fs -> fs_wf (snd (op_create_dir_all p fs)).
Proof.
  intros Hwf. unfold op_create_dir_all. rewrite <- (take_ge (ancestors p) (length (ancestors p))) by done.
  by apply fs_wf_mkdirs.
Qed.

(** Computations that keep the tree well formed, whatever the faults. *)
Definition keeps_wf {A : Type} (m : M A) : Prop :=
  forall w, fs_wf (w_fs w) -> fs_wf (w_fs (snd (m w))).

Lemma keeps_wf_bind {A B : Type} (m : M A) (k : A -> M B) :
  keeps_wf m -> (forall a, keeps_wf (k a)) -> keeps_wf (bind m k).
Proof.
  intros Hm Hk w Hw. apply Hm in Hw. unfold bind. destruct (m w) as [[a|e|] w'] eqn:E; simpl in *;
    [by apply Hk|done|done].
Qed.
Lemma keeps_wf_ret {A : Type} (a : A) : keeps_wf (ret a).
Proof. by intros w Hw. Qed.
Lemma keeps_wf_fail {A : Type} e : keeps_wf (@fail A e).
Proof. by intros w Hw. Qed.
Lemma keeps_wf_lift {A : Type} (r : outcome A) : keeps_wf (lift r).
Proof. by intros w Hw. Qed.
Lemma keeps_wf_ctx {A : Type} c (m : M A) : keeps_wf m -> keeps_wf (ctx c m).
Proof. intros Hm w Hw. apply Hm in Hw. unfold ctx. by destruct (m w). Qed.
Lemma keeps_wf_attempt {A : Type} (m : M A) : keeps_wf m -> keeps_wf (attempt m).
Proof. intros Hm w Hw. apply Hm in Hw. unfold attempt. by destruct (m w) as [[] ?]. Qed.
Lemma keeps_wf_exists `{Metadata} p : keeps_wf (fs_exists p).
Proof. by intros w Hw. Qed.
Lemma keeps_wf_fill `{Entropy} n : keeps_wf (fill_bytes n).
Proof. by intros w Hw. Qed.
Lemma keeps_wf_read p : keeps_wf (fs_read p).
Proof.
  intros w Hw. apply (io_pres _ _ fs_wf); [done| |done]. unfold op_read. by repeat case_match.
Qed.
Lemma keeps_wf_write p d : keeps_wf (fs_write p d).
Proof. intros w Hw. apply (io_pres _ _ fs_wf); [done| |]; intros; by apply fs_wf_write. Qed.
Lemma keeps_wf_rename a b : keeps_wf (fs_rename a b).
Proof. intros w Hw. apply (io_pres _ _ fs_wf); [done|by apply fs_wf_rename|done]. Qed.
Lemma keeps_wf_create_dir_all p : keeps_wf (fs_create_dir_all p).
Proof.
  intros w Hw. apply (io_pres _ _ fs_wf); [done|by apply fs_wf_create_dir_all|intros; by apply fs_wf_mkdirs].
Qed.
Lemma keeps_wf_remove_file p : keeps_wf (fs_remove_file p).
Proof. intros w Hw. apply (io_pres _ _ fs_wf); [done|by apply fs_wf_remove_file|done]. Qed.

Lemma keeps_wf_forM {A : Type} (l : list A) (f : A -> M unit) :
  (forall x, keeps_wf (f x)) -> keeps_wf (forM l f).
Proof.
  intros Hf. induction l as [|x l IH]; simpl; [apply keeps_wf_ret|].
  apply keeps_wf_bind; [apply Hf|]. by intros _.
Qed.

#[export] Hint Resolve keeps_wf_bind keeps_wf_ret keeps_wf_fail keeps_wf_lift keeps_wf_ctx
  keeps_wf_attempt keeps_wf_exists keeps_wf_fill keeps_wf_read keeps_wf_write keeps_wf_rename
  keeps_wf_create_dir_all keeps_wf_remove_file keeps_wf_forM : peerdup.

(** Computations that do not invent faults. *)
Definition quiet {A : Type} (m : M A) : Prop :=
  forall w, w_faults w = [] -> w_faults (snd (m w)) = [].

Lemma quiet_bind {A B : Type} (m : M A) (k : A -> M B) :
  quiet m -> (forall a, quiet (k a)) -> quiet (bind m k).
Proof.
  intros Hm Hk w Hw. apply Hm in Hw. unfold bind. destruct (m w) as [[a|e|] w'] eqn:E; simpl in *;
    [by apply Hk|done|done].
Qed.
Lemma quiet_ret {A : Type} (a : A) : quiet (ret a).
Proof. by intros w Hw. Qed.
Lemma quiet_fail {A : Type} e : quiet (@fail A e).
Proof. by intros w Hw. Qed.
Lemma quiet_lift {A : Type} (r : outcome A) : quiet (lift r).
Proof. by intros w Hw. Qed.
Lemma quiet_ctx {A : Type} c (m : M A) : quiet m -> quiet (ctx c m).
Proof. intros Hm w Hw. apply Hm in Hw. unfold ctx. by destruct (m w). Qed.
Lemma quiet_attempt {A : Type} (m : M A) : quiet m -> quiet (attempt m).
Proof. intros Hm w Hw. apply Hm in Hw. unfold attempt. by destruct (m w) as [[] ?]. Qed.
Lemma quiet_exists `{Metadata} p : quiet (fs_exists p).
Proof. by intros w Hw. Qed.
Lemma quiet_fill `{Entropy} n : quiet (fill_bytes n).
Proof. by intros w Hw. Qed.
Lemma quiet_io {A : Type} (op : fsop A) (pt : nat -> fsmap -> fsmap) : quiet (io op pt).
Proof. intros w Hw. by rewrite io_run. Qed.
Lemma quiet_forM {A : Type} (l : list A) (f : A -> M unit) :
  (forall x, quiet (f x)) -> quiet (forM l f).
Proof.
  intros Hf. induction l as [|x l IH]; simpl; [apply quiet_ret|].
  apply quiet_bind; [apply Hf|]. by intros _.
Qed.

#[export] Hint Resolve quiet_bind quiet_ret quiet_fail quiet_lift quiet_ctx quiet_attempt
  quiet_exists quiet_fill quiet_io quiet_forM : peerdup.

Lemma quiet_Ok {A : Type} (m : M A) w a w' :
  quiet m -> m w = (Ok a, w') -> w_faults w = [] -> w_faults w' = [].
Proof. intros Hm E Hf. specialize (Hm w Hf). by rewrite E in Hm. Qed.

Lemma touches_Ok S {A : Type} (m : M A) w a w' q :
  touches S m -> m w = (Ok a, w') -> ~ S q -> file_at (w_fs w') q = file_at (w_fs w) q.
Proof. intros Hm E Hq. specialize (Hm w q Hq). by rewrite E in Hm. Qed.

Lemma keeps_wf_Ok {A : Type} (m : M A) w a w' :
  keeps_wf m -> m w = (Ok a, w') -> fs_wf (w_fs w) -> fs_wf (w_fs w').
Proof. intros Hm E Hw. specialize (Hm w Hw). by rewrite E in Hm. Qed.

Lemma touches_remove_file p : touches (fun q => q = p) (fs_remove_file p).
Proof.
  apply io_touches; [|done]. intros fs q Hq. unfold op_remove_file, file_at.
  repeat case_match; simplify_eq/=; rewrite ?lookup_delete_ne in * by done; congruence.
Qed.

#[export] Hint Resolve touches_remove_file : peerdup.

(** ** Read-only computations *)

(** A computation that only looks at the files [fs]: it leaves them alone,
    does nothing else on a working disk, its result satisfies [P], and on a
    working disk it has one when [tot] holds. *)
Definition reads {A : Type} (fs : fsmap) (m : M A) (P : A -> Prop) (tot : Prop) : Prop :=
  forall w, w_fs w = fs ->
    w_fs (snd (m w)) = fs /\ (w_faults w = [] -> snd (m w) = w) /\
    (forall a, fst (m w) = Ok a -> P a) /\ (w_faults w = [] -> tot -> is_Ok (fst (m w))).

Lemma reads_bind {A B : Type} fs (m : M A) (k : A -> M B) P Q tot :
  reads fs m P tot -> (forall a, P a -> reads fs (k a) Q tot) -> reads fs (bind m k) Q tot.
Proof.
  intros Hm Hk w Hw. destruct (Hm w Hw) as (H1 & H2 & H3 & H4). unfold bind.
  destruct (m w) as [[a|e|] w']; simpl in *.
  - destruct (Hk a (H3 a eq_refl) w' H1) as (K1 & K2 & K3 & K4).
    split; [done|]. split; [|split; [done|]].
    + intros Hf. rewrite H2 in * by done. by apply K2.
    + intros Hf Ht. rewrite H2 in * by done. by apply K4.
  - split; [done|]. split; [done|]. split; [done|]. intros Hf Ht.
    destruct (H4 Hf Ht) as [? [=]].
  - split; [done|]. split; [done|]. split; [done|]. intros Hf Ht.
    destruct (H4 Hf Ht) as [? [=]].
Qed.

Lemma reads_ret {A : Type} fs (a : A) (P : A -> Prop) tot : P a -> reads fs (ret a) P tot.
Proof.
  intros Ha w Hw. simpl. split; [done|]. split; [done|]. split; [by intros ? [= <-]|].
  intros. by exists a.
Qed.

Lemma reads_lift {A : Type} fs (r : outcome A) (P : A -> Prop) (tot : Prop) :
  (forall a, r = Ok a -> P a) -> (tot -> is_Ok r) -> reads fs (lift r) P tot.
Proof. intros Hr Ht w Hw. simpl. auto. Qed.

Lemma reads_ctx {A : Type} fs c (m : M A) P tot : reads fs m P tot -> reads fs (ctx c m) P tot.
Proof.
  intros Hm w Hw. destruct (Hm w Hw) as (H1 & H2 & H3 & H4). unfold ctx.
  destruct (m w) as [[a|e|] w']; simpl in *; (split; [done|]); (split; [done|]);
    (split; [done|]); intros Hf Ht; destruct (H4 Hf Ht) as [? [=]]; subst; by eexists.
Qed.

Lemma reads_impl {A : Type} fs (m : M A) (P Q : A -> Prop) (tot tot' : Prop) :
  reads fs m P tot -> (forall a, P a -> Q a) -> (tot' -> tot) -> reads fs m Q tot'.
Proof.
  intros Hm HP Ht w Hw. destruct (Hm w Hw) as (H1 & H2 & H3 & H4).
  split; [done|]. split; [done|]. split; auto.
Qed.

Lemma reads_io {A : Type} fs (op : fsop A) (P : A -> Prop) (tot : Prop) :
  snd (op fs) = fs -> (forall a, fst (op fs) = Ok a -> P a) -> (tot -> is_Ok (fst (op fs))) ->
  reads fs (io op no_effect) P tot.
Proof.
  intros Hfs HP Ht w Hw. unfold io, no_effect. rewrite Hw.
  destruct w as [wfs fl rng tick]. simpl in *. subst wfs.
  destruct fl as [|[] fl]; destruct (op fs) as [o fs']; simpl in *; subst;
    (split; [done|]); (split; [done|]); (split; [done|]); done.
Qed.

(** ** Deciding well-formedness *)

Definition fs_wf_check (fs : fsmap) : bool :=
  bool_decide (fs !! [] = Some NDir) &&
  forallb (fun kn => bool_decide (kn.1 = [] \/ fs !! parent kn.1 = Some NDir)) (map_to_list fs).

Lemma fs_wf_check_ok fs : fs_wf_check fs = true -> fs_wf fs.
Proof.
  unfold fs_wf_check. rewrite andb_true_iff. intros [Hr%bool_decide_eq_true Hall].
  split; [done|]. intros p c [n Hn%elem_of_map_to_list].
  rewrite forallb_forall in Hall. apply list_elem_of_In, Hall, bool_decide_eq_true in Hn.
  cbn [fst] in Hn. rewrite parent_snoc in Hn. destruct Hn as [Hn|Hn]; [by destruct p|done].
Qed.

Lemma map_check {A : Type} (m : gmap path A) (f : path -> A -> bool) :
  forallb (fun kn => f kn.1 kn.2) (map_to_list m) = true ->
  forall p d, m !! p = Some d -> f p d = true.
Proof.
  rewrite forallb_forall. intros Hf p d Hp%elem_of_map_to_list%list_elem_of_In.
  by apply Hf in Hp.
Qed.
