(* ===== verification/Clock.v ===== *)
(** * Vector clocks ([src/clock.rs])

    A clock is a map from peer ids to 64-bit counters; a missing entry counts
    as zero, so clocks are compared up to [veq], a relation coarser than
    equality of maps.  [vle] is the causal order the four-way [compare]
    decides. *)

From S2P Require Import Prelude.

Abbreviation VectorClock := (gmap string Z).

Inductive ClockOrdering :=
  | Equal
  | SelfDominates
  | OtherDominates
  | Concurrent.

#[export] Instance ClockOrdering_eq_dec : EqDecision ClockOrdering.
Proof. solve_decision. Defined.

(** ** Operations *)

Definition new : VectorClock := ∅.

(** [.get(key).copied().unwrap_or(0)] *)
Definition get (c : VectorClock) (k : string) : Z := default 0 (c !! k).

Definition increment (c : VectorClock) (peer : string) : VectorClock :=
  <[peer := wrap64 (get c peer + 1)]> c.

(** Iteration order of a [BTreeMap]. *)
Definition entries (c : VectorClock) : list (string * Z) :=
  sort_by fst (map_to_list c).

Definition merge_entry (self : VectorClock) (kv : string * Z) : VectorClock :=
  let our := get self kv.1 in
  <[kv.1 := if our <? kv.2 then kv.2 else our]> self.

Definition merge (self other : VectorClock) : VectorClock :=
  foldl merge_entry self (entries other).

Definition compare_keys (self other : VectorClock) : list string :=
  sort_by id (elements (dom self ∪ dom other)).

(** One turn of the comparison loop: the two [ahead] flags. *)
Definition compare_key (self other : VectorClock) (st : bool * bool) (k : string)
    : bool * bool :=
  let s := get self k in
  let o := get other k in
  ((if o <? s then true else st.1), (if s <? o then true else st.2)).

Definition compare (self other : VectorClock) : ClockOrdering :=
  match foldl (compare_key self other) (false, false) (compare_keys self other) with
  | (false, false) => Equal
  | (true, false) => SelfDominates
  | (false, true) => OtherDominates
  | (true, true) => Concurrent
  end.

(** ** Specification *)

(** Every counter is a [u64]. *)
Definition clock_wf (c : VectorClock) : Prop :=
  map_Forall (fun _ v => 0 <= v <= u64_max) c.

Definition vle (a b : VectorClock) : Prop := forall k, get a k <= get b k.
Definition veq (a b : VectorClock) : Prop := forall k, get a k = get b k.

(** What the four answers promise, in terms of the causal order alone. *)
Inductive ordering_spec (a b : VectorClock) : ClockOrdering -> Prop :=
  | OS_equal : vle a b -> vle b a -> ordering_spec a b Equal
  | OS_self : vle b a -> ~ vle a b -> ordering_spec a b SelfDominates
  | OS_other : vle a b -> ~ vle b a -> ordering_spec a b OtherDominates
  | OS_conc : ~ vle a b -> ~ vle b a -> ordering_spec a b Concurrent.

Definition flip_ordering (o : ClockOrdering) : ClockOrdering :=
  match o with
  | Equal => Equal
  | SelfDominates => OtherDominates
  | OtherDominates => SelfDominates
  | Concurrent => Concurrent
  end.

(** ** Lemmas *)

#[export] Instance veq_equiv : Equivalence veq.
Proof.
  split.
  - by intros a k.
  - intros a b H k. by rewrite H.
  - intros a b c H1 H2 k. by rewrite H1.
Qed.

#[export] Instance vle_preorder : PreOrder vle.
Proof.
  split.
  - intros a k. done.
  - intros a b c H1 H2 k. etransitivity; [apply H1 | apply H2].
Qed.

#[export] Instance vle_proper : Proper (veq ==> veq ==> iff) vle.
Proof.
  intros a a' Ha b b' Hb. split; intros H k; specialize (H k).
  - by rewrite <- (Ha k), <- (Hb k).
  - by rewrite (Ha k), (Hb k).
Qed.

Lemma vle_antisymm a b : vle a b -> vle b a -> veq a b.
Proof. intros H1 H2 k. apply Z.le_antisymm; [apply H1 | apply H2]. Qed.

Lemma veq_vle a b : veq a b -> vle a b.
Proof. intros E k. rewrite E. done. Qed.

Lemma get_range c k : clock_wf c -> 0 <= get c k <= u64_max.
Proof.
  intros H. unfold get. destruct (c !! k) eqn:E; simpl; [by apply (H k)|].
  unfold u64_max. lia.
Qed.

Lemma get_new k : get new k = 0.
Proof. done. Qed.

Lemma get_insert c k v j : get (<[k := v]> c) j = if decide (k = j) then v else get c j.
Proof. unfold get. rewrite lookup_insert. by case_decide. Qed.

Lemma get_increment c p k :
  get (increment c p) k = if decide (p = k) then wrap64 (get c p + 1) else get c k.
Proof. apply get_insert. Qed.

Lemma merge_entry_get c kv k :
  get (merge_entry c kv) k = if decide (kv.1 = k) then Z.max (get c k) kv.2 else get c k.
Proof.
  unfold merge_entry. rewrite get_insert. case_decide; [|done]. subst.
  destruct (Z.ltb_spec (get c kv.1) kv.2); lia.
Qed.

Lemma foldl_merge_get l c k :
  NoDup l.*1 ->
  get (foldl merge_entry c l) k =
    match (list_to_map l : VectorClock) !! k with
    | Some v => Z.max (get c k) v
    | None => get c k
    end.
Proof.
  revert c. induction l as [|[j v] l IH]; intros c; [done|].
  simpl. intros [Hj Hnd]%NoDup_cons. rewrite IH by done.
  rewrite merge_entry_get. simpl. rewrite lookup_insert. case_decide; subst; [|done].
  rewrite not_elem_of_list_to_map_1 by done. done.
Qed.

Lemma entries_nodup c : NoDup (entries c).*1.
Proof. unfold entries. rewrite sort_by_perm. apply NoDup_fst_map_to_list. Qed.

Lemma entries_lookup c k : (list_to_map (entries c) : VectorClock) !! k = c !! k.
Proof.
  rewrite (list_to_map_proper (M:=gmap string) _ (map_to_list c)).
  - by rewrite list_to_map_to_list.
  - apply entries_nodup.
  - apply sort_by_perm.
Qed.

(** The loop of [merge] computes the pointwise maximum. *)
Lemma get_merge a b k :
  clock_wf a -> get (merge a b) k = Z.max (get a k) (get b k).
Proof.
  intros Ha. unfold merge. rewrite foldl_merge_get by apply entries_nodup.
  rewrite entries_lookup. pose proof (get_range a k Ha).
  unfold get at 4. destruct (b !! k); simpl; lia.
Qed.

Lemma merge_wf a b : clock_wf a -> clock_wf b -> clock_wf (merge a b).
Proof.
  intros Ha Hb. unfold merge.
  assert (Forall (fun kv => 0 <= kv.2 <= u64_max) (entries b)) as Hl.
  { apply Forall_forall. intros [k v] Hin. unfold entries in Hin.
    rewrite elem_of_sort_by in Hin. apply elem_of_map_to_list in Hin. by apply (Hb k). }
  clear Hb. revert a Ha. induction Hl as [|kv l Hkv Hl IH]; intros a Ha; [done|].
  apply IH. unfold merge_entry. apply map_Forall_insert_2; [|done].
  pose proof (get_range a kv.1 Ha). by case_match.
Qed.

Lemma increment_wf c p : clock_wf c -> clock_wf (increment c p).
Proof.
  intros Hc. apply map_Forall_insert_2; [|done]. unfold wrap64, u64_max.
  pose proof (Z.mod_pos_bound (get c p + 1) (2 ^ 64)). lia.
Qed.

Lemma new_wf : clock_wf new.
Proof. apply map_Forall_empty. Qed.

Lemma foldl_compare self other st l :
  let r := foldl (compare_key self other) st l in
  (r.1 = true <-> st.1 = true \/ exists k, k ∈ l /\ get other k < get self k) /\
  (r.2 = true <-> st.2 = true \/ exists k, k ∈ l /\ get self k < get other k).
Proof.
  revert st. induction l as [|k l IH]; intros st; simpl.
  - set_solver.
  - destruct (IH (compare_key self other st k)) as [H1 H2].
    rewrite H1, H2. unfold compare_key. simpl. setoid_rewrite elem_of_cons.
    destruct (Z.ltb_spec (get other k) (get self k)),
      (Z.ltb_spec (get self k) (get other k)); split; naive_solver lia.
Qed.

Lemma compare_keys_spec a b k :
  get a k <> get b k -> k ∈ compare_keys a b.
Proof.
  intros Hne. unfold compare_keys. rewrite elem_of_sort_by, elem_of_elements.
  rewrite elem_of_union, !elem_of_dom. unfold get in Hne.
  destruct (a !! k), (b !! k); simpl in *; naive_solver.
Qed.

Lemma exists_ahead a b :
  (exists k, k ∈ compare_keys a b /\ get b k < get a k) <-> ~ vle a b.
Proof.
  split.
  - intros (k & _ & Hk) H. specialize (H k). lia.
  - intros H. destruct (decide (Exists (fun k => get b k < get a k) (compare_keys a b)))
      as [E|E]; [by apply Exists_exists in E|].
    destruct H. intros k. destruct (Z.le_gt_cases (get a k) (get b k)); [done|].
    destruct E. apply Exists_exists. exists k. split; [|lia].
    apply compare_keys_spec. lia.
Qed.

Lemma compare_keys_sym a b : compare_keys a b = compare_keys b a.
Proof. unfold compare_keys. by rewrite union_comm_L. Qed.

Lemma compare_unfold a b :
  exists x y, (x = true <-> ~ vle a b) /\ (y = true <-> ~ vle b a) /\
  compare a b = match x, y with
                | false, false => Equal
                | true, false => SelfDominates
                | false, true => OtherDominates
                | true, true => Concurrent
                end.
Proof.
  pose proof (foldl_compare a b (false, false) (compare_keys a b)) as [H1 H2].
  unfold compare. destruct (foldl _ _ _) as [x y]. exists x, y. simpl in *.
  rewrite <- exists_ahead, <- exists_ahead, (compare_keys_sym b a).
  rewrite H1, H2. destruct x, y; naive_solver.
Qed.

#[export] Instance vle_dec a b : Decision (vle a b).
Proof.
  destruct (decide (Exists (fun k => get b k < get a k) (compare_keys a b))) as [E|E].
  - right. apply exists_ahead. by apply Exists_exists.
  - left. intros k. destruct (Z.le_gt_cases (get a k) (get b k)); [done|].
    destruct E. apply Exists_exists. exists k. split; [|lia]. apply compare_keys_spec. lia.
Qed.

Lemma compare_iff a b o : compare a b = o <-> ordering_spec a b o.
Proof.
  destruct (compare_unfold a b) as (x & y & Hx & Hy & ->).
  destruct (decide (vle a b)), (decide (vle b a)), x, y;
    try (exfalso; intuition congruence);
    (split; [intros <-; by constructor | by inversion 1]).
Qed.

Lemma compare_cases a b : ordering_spec a b (compare a b).
Proof. by apply compare_iff. Qed.

#[export] Instance compare_proper : Proper (veq ==> veq ==> eq) compare.
Proof.
  intros a a' Ha b b' Hb. apply compare_iff.
  destruct (compare_cases a' b'); constructor; by rewrite ?Ha, ?Hb.
Qed.

#[export] Instance increment_proper : Proper (veq ==> eq ==> veq) increment.
Proof. intros a b E p ? <- k. rewrite !get_increment. by rewrite !E. Qed.

Lemma compare_Equal a b : compare a b = Equal <-> veq a b.
Proof.
  rewrite compare_iff. split.
  - inversion 1. by apply vle_antisymm.
  - intros E. constructor; by apply veq_vle.
Qed.

Lemma compare_Other a b : compare a b = OtherDominates <-> vle a b /\ ~ vle b a.
Proof. rewrite compare_iff. split; [inversion 1; done | intros []; by constructor]. Qed.

Lemma compare_Self a b : compare a b = SelfDominates <-> vle b a /\ ~ vle a b.
Proof. rewrite compare_iff. split; [inversion 1; done | intros []; by constructor]. Qed.

Lemma compare_Concurrent a b : compare a b = Concurrent <-> ~ vle a b /\ ~ vle b a.
Proof. rewrite compare_iff. split; [inversion 1; done | intros []; by constructor]. Qed.

Lemma merge_veq_max a b : clock_wf a -> forall k, get (merge a b) k = Z.max (get a k) (get b k).
Proof. intros. by apply get_merge. Qed.

Lemma merge_ub_l a b : clock_wf a -> vle a (merge a b).
Proof. intros Ha k. rewrite get_merge by done. lia. Qed.

Lemma merge_ub_r a b : clock_wf a -> vle b (merge a b).
Proof. intros Ha k. rewrite get_merge by done. lia. Qed.

Lemma merge_least a b c : clock_wf a -> vle a c -> vle b c -> vle (merge a b) c.
Proof. intros Ha Hac Hbc k. rewrite get_merge by done. specialize (Hac k). specialize (Hbc k). lia. Qed.

Lemma merge_of_le a b : clock_wf a -> vle a b -> veq (merge a b) b.
Proof. intros Ha Hab k. rewrite get_merge by done. specialize (Hab k). lia. Qed.

Lemma increment_above c p : clock_wf c -> get c p < u64_max -> vle c (increment c p).
Proof.
  intros Hc Hp k. rewrite get_increment. case_decide; [subst|done].
  rewrite wrap64_small; [lia|]. pose proof (get_range c k Hc). lia.
Qed.

(** ** Properties *)

(** C19. [compare] decides the causal order: each of its four answers is given
    exactly when the specification [ordering_spec] allows it, whatever keys
    the two maps hold (a missing counter and a zero counter are the same). *)
Theorem compare_refines_spec (a b : VectorClock) (o : ClockOrdering) :
  compare a b = o <-> ordering_spec a b o.
Proof. apply compare_iff. Qed.

(** The comparison is antisymmetric under exchange of its arguments: the two
    peers of an exchange reach opposite verdicts, so that exactly one of them
    fetches when one version dominates. *)
Theorem compare_flip (a b : VectorClock) : compare b a = flip_ordering (compare a b).
Proof. apply compare_iff. destruct (compare_cases a b); simpl; by constructor. Qed.

(** C37. [merge] is the least upper bound of the two clocks in the causal order,
    and keeps every counter a [u64]. *)
Theorem merge_lub (a b : VectorClock) (Ha : clock_wf a) (Hb : clock_wf b) :
  clock_wf (merge a b) /\ vle a (merge a b) /\ vle b (merge a b) /\
  forall c, vle a c -> vle b c -> vle (merge a b) c.
Proof.
  split; [by apply merge_wf|]. split; [by apply merge_ub_l|].
  split; [by apply merge_ub_r|]. intros. by apply merge_least.
Qed.

(** An increment yields a strictly dominating clock as long as the counter is
    below [u64::MAX]; at [u64::MAX] it wraps to zero and the new version is
    dominated by the old one. *)
Theorem increment_dominates (c : VectorClock) (p : string) (Hc : clock_wf c) :
  clock_wf (increment c p) /\
  (get c p < u64_max -> compare (increment c p) c = SelfDominates) /\
  (get c p = u64_max -> compare (increment c p) c = OtherDominates).
Proof.
  split; [by apply increment_wf|]. split; intros Hp.
  - apply compare_Self. split; [by apply increment_above|].
    intros H. specialize (H p). rewrite get_increment, decide_True in H by done.
    rewrite wrap64_small in H; [lia|]. pose proof (get_range c p Hc). lia.
  - assert (wrap64 (get c p + 1) = 0) as E by (rewrite Hp; done).
    apply compare_Other. split.
    + intros k. rewrite get_increment. case_decide; [subst|done]. rewrite E, Hp.
      unfold u64_max. lia.
    + intros H. specialize (H p). rewrite get_increment, decide_True in H by done.
      rewrite E, Hp in H. unfold u64_max in H. lia.
Qed.

(** ** Witnesses *)

Definition clock_a : VectorClock := increment (increment new "p1") "p2".
Definition clock_b : VectorClock := increment new "p3".

Lemma clock_a_wf : clock_wf clock_a.
Proof. repeat apply increment_wf. apply new_wf. Qed.
Lemma clock_b_wf : clock_wf clock_b.
Proof. apply increment_wf, new_wf. Qed.

Lemma merge_lub_witness :
  clock_wf (merge clock_a clock_b) /\ vle clock_a (merge clock_a clock_b) /\
  vle clock_b (merge clock_a clock_b) /\
  forall c, vle clock_a c -> vle clock_b c -> vle (merge clock_a clock_b) c.
Proof. exact (merge_lub clock_a clock_b clock_a_wf clock_b_wf). Defined.

Lemma increment_dominates_witness :
  clock_wf (increment clock_a "p1") /\
  (get clock_a "p1" < u64_max ->
   compare (increment clock_a "p1") clock_a = SelfDominates) /\
  (get clock_a "p1" = u64_max ->
   compare (increment clock_a "p1") clock_a = OtherDominates).
Proof. exact (increment_dominates clock_a "p1" clock_a_wf). Defined.
