(* ===== verification/External.v ===== *)
(** * Interfaces of the crates the program calls

    Code outside [src/] is a parameter: each class lists the functions the
    program calls and, as laws, the documented behaviour it relies on.  A
    concrete instance of every class is in [Instances]. *)

From S2P Require Import Prelude World.

(** ** Serialization: [bincode] and [serde_json]

    [bin_decode] also returns the number of bytes read, which the program
    ignores. *)
Class Bincode (A : Type) := {
  bin_encode : A -> option bytes;
  bin_decode : bytes -> option (A * nat);
  bin_decode_encode : forall a b,
    bin_encode a = Some b -> exists n, bin_decode b = Some (a, n);
}.

(** Types whose encoding never fails: the [.expect] sites. *)
Class BincodeTotal (A : Type) `{Bincode A} :=
  bin_encode_total : forall a : A, is_Some (bin_encode a).

Definition bin_expect {A} `{BincodeTotal A} (a : A) : bytes :=
  is_Some_proj (bin_encode_total a).

Class Json (A : Type) := {
  json_to_vec : A -> option bytes;
  json_from_slice : bytes -> option A;
  json_from_to : forall a b, json_to_vec a = Some b -> json_from_slice b = Some a;
}.

(** [URL_SAFE_NO_PAD]: the alphabet holds no white space. *)
Class Base64 := {
  b64_encode : bytes -> string;
  b64_decode : string -> option bytes;
  b64_decode_encode : forall b, b64_decode (b64_encode b) = Some b;
  b64_alphabet : forall b c, c ∈ string_bytes (b64_encode b) ->
    32 < Z_of_byte c < 127;
}.

(** ** [blake3]: [update] concatenates, [finalize] yields 32 bytes *)
Class Blake3 := {
  blake3 : bytes -> bytes;
  blake3_length : forall b, length (blake3 b) = 32%nat;
}.

(** ** XChaCha20-Poly1305 ([chacha20poly1305]): a 16-byte tag is appended *)
Class Aead := {
  aead_encrypt : bytes -> bytes -> bytes -> option bytes;
  aead_decrypt : bytes -> bytes -> bytes -> option bytes;
  aead_decrypt_encrypt : forall k n p c,
    aead_encrypt k n p = Some c -> aead_decrypt k n c = Some p;
  aead_length : forall k n p c,
    aead_encrypt k n p = Some c -> length c = (length p + 16)%nat;
}.

(** ** Ed25519 ([p2panda_core]): keys are raw 32-byte strings *)
Class Ed25519 := {
  public_key : bytes -> bytes;
  pk_from_bytes : bytes -> bool;
  sign : bytes -> bytes -> bytes;
  sig_verify : bytes -> bytes -> bytes -> bool;
  new_private_key : nat -> bytes;
  public_key_length : forall sk, length (public_key sk) = 32%nat;
  new_private_key_length : forall i, length (new_private_key i) = 32%nat;
  pk_from_bytes_public : forall sk, pk_from_bytes (public_key sk) = true;
  sign_length : forall sk m, length (sign sk m) = 64%nat;
  sig_verify_sign : forall sk m, sig_verify (public_key sk) m (sign sk m) = true;
}.

(** ** Sealed boxes ([crypto_box], keys converted from Ed25519 by [ed25519_dalek])

    [montgomery_of] is [VerifyingKey::from_bytes] followed by
    [to_montgomery]; [None] is a malformed public key.  [scalar_of] is
    [SigningKey::to_scalar_bytes]. *)
Class CryptoBox `{Ed25519} := {
  montgomery_of : bytes -> option bytes;
  scalar_of : bytes -> bytes;
  box_public : bytes -> bytes;
  box_encrypt : bytes -> bytes -> bytes -> bytes -> option bytes;
  box_decrypt : bytes -> bytes -> bytes -> bytes -> option bytes;
  montgomery_of_public : forall sk, is_Some (montgomery_of (public_key sk));
  box_decrypt_encrypt : forall sk p esk n m c,
    montgomery_of (public_key sk) = Some p ->
    box_encrypt p esk n m = Some c ->
    box_decrypt (box_public esk) (scalar_of sk) n c = Some m;
}.

(** ** Lowercase hexadecimal, as [blake3::Hash::to_hex] and
    [PublicKey::to_hex] print it *)
Definition hex_digit (n : Z) : byte :=
  byte_of_Z (if n <? 10 then 48 + n else 87 + n).

Definition hex_byte (b : byte) : bytes :=
  [hex_digit (Z_of_byte b / 16); hex_digit (Z_of_byte b `mod` 16)].

Definition hex_encode (b : bytes) : bytes := b ≫= hex_byte.

Lemma length_hex_encode b : length (hex_encode b) = (2 * length b)%nat.
Proof.
  induction b as [|x b IH]; [done|].
  change (hex_encode (x :: b)) with (hex_byte x ++ hex_encode b).
  rewrite length_app, IH. simpl. lia.
Qed.

Lemma bin_expect_encode {A} `{BincodeTotal A} (a : A) : bin_encode a = Some (bin_expect a).
Proof.
  unfold bin_expect. destruct (bin_encode_total a) as [b E]. by destruct (bin_encode a).
Qed.

(** Encoding is injective, by the round trip. *)
Lemma bin_expect_inj {A} `{BincodeTotal A} (a b : A) : bin_expect a = bin_expect b -> a = b.
Proof.
  intros E. destruct (bin_decode_encode a _ (bin_expect_encode a)) as [n Ha].
  destruct (bin_decode_encode b _ (bin_expect_encode b)) as [m Hb]. congruence.
Qed.
