(* ===== verification/Instances.v ===== *)
(** * A concrete model of the external interfaces

    One small executable instance per class of [External] and [World], so
    that the theorems of the components can be evaluated on concrete inputs.
    They are plain definitions: a component never picks them up by itself. *)

From S2P Require Import Prelude World External.

Definition toy_read_dir : ReadDir.
Proof. by refine {| dir_order := fun _ l => l |}. Defined.

(** A host that enumerates directories backwards. *)
Definition rev_read_dir : ReadDir.
Proof. refine {| dir_order := fun _ l => rev l |}. intros. symmetry. apply Permutation_rev. Defined.

Definition toy_metadata : Metadata := fun _ _ => false.

Lemma toy_sighted : Sighted (H := toy_metadata).
Proof. by intros w p. Qed.

Definition toy_entropy : Entropy.
Proof.
  refine {| rng_draw := fun i n => replicate n (byte_of_Z (Z.of_nat i + 1)) |}.
  intros. apply length_replicate.
Defined.

Definition toy_clock : WallClock := fun i => Z.of_nat i.

(** ** Serialization: self-delimiting byte strings *)

Class Ser (A : Type) := {
  ser : A -> bytes;
  de : bytes -> option (A * bytes);
  de_ser : forall a r, de (ser a ++ r) = Some (a, r);
}.

#[export] Instance ser_byte : Ser byte.
Proof.
  refine {| ser := fun b => [b];
            de := fun s => match s with b :: s => Some (b, s) | [] => None end |}.
  done.
Defined.

#[export] Instance ser_unit : Ser unit.
Proof. refine {| ser := fun _ => []; de := fun s => Some (tt, s) |}. by intros [] r. Defined.

#[export] Instance ser_prod {A B} `{Ser A, Ser B} : Ser (A * B).
Proof.
  refine {| ser := fun x => ser x.1 ++ ser x.2;
            de := fun s => match de s with
                           | Some (a, s) =>
                               match de s with
                               | Some (b, s) => Some ((a, b), s)
                               | None => None
                               end
                           | None => None
                           end |}.
  intros [a b] r. simpl. by rewrite <- app_assoc, !de_ser.
Defined.

#[export] Instance ser_sum {A B} `{Ser A, Ser B} : Ser (A + B).
Proof.
  refine {| ser := fun x => match x with
                            | inl a => Byte.x00 :: ser a
                            | inr b => Byte.x01 :: ser b
                            end;
            de := fun s => match s with
                           | Byte.x00 :: s => '(a, s) ← de s; Some (inl a, s)
                           | _ :: s => '(b, s) ← de s; Some (inr b, s)
                           | [] => None
                           end |}.
  intros [a|b] r; simpl; by rewrite de_ser.
Defined.

(** Elements are announced by 1, the end of the list by 0. *)
Section ser_list.
Context {A : Type} `{Ser A}.

Fixpoint ser_list_go (l : list A) : bytes :=
  match l with
  | [] => [Byte.x00]
  | x :: l => Byte.x01 :: ser x ++ ser_list_go l
  end.

Fixpoint de_list_go (fuel : nat) (s : bytes) : option (list A * bytes) :=
  match fuel, s with
  | S fuel, Byte.x00 :: s => Some ([], s)
  | S fuel, Byte.x01 :: s =>
      match de s with
      | Some (x, s) =>
          match de_list_go fuel s with
          | Some (l, s) => Some (x :: l, s)
          | None => None
          end
      | None => None
      end
  | _, _ => None
  end.

Lemma de_list_ser fuel l r :
  (length l < fuel)%nat -> de_list_go fuel (ser_list_go l ++ r) = Some (l, r).
Proof.
  revert l. induction fuel as [|fuel IH]; intros [|x l] Hf; simpl in *; try lia; [done|].
  rewrite <- app_assoc, de_ser, IH by lia. done.
Qed.

Lemma ser_list_length l : (length l < length (ser_list_go l))%nat.
Proof. induction l; simpl; [lia|]. rewrite length_app. lia. Qed.
End ser_list.

#[export] Instance ser_list {A} `{Ser A} : Ser (list A).
Proof.
  refine {| ser := ser_list_go; de := fun s => de_list_go (length s) s |}.
  intros l r. apply de_list_ser. rewrite length_app. pose proof (ser_list_length l). lia.
Defined.

(** A type that embeds in a serializable one. *)
Definition ser_inj {A B} `{Ser B} (f : A -> B) (g : B -> option A)
    (Hfg : forall a, g (f a) = Some a) : Ser A.
Proof.
  refine {| ser := fun a => ser (f a);
            de := fun s => match de s with
                           | Some (b, s) =>
                               match g b with Some a => Some (a, s) | None => None end
                           | None => None
                           end |}.
  intros a r. by rewrite de_ser, Hfg.
Defined.

Fixpoint pos_bytes (p : positive) : bytes :=
  match p with
  | xH => []
  | xO p => Byte.x00 :: pos_bytes p
  | xI p => Byte.x01 :: pos_bytes p
  end.

Fixpoint bytes_pos (b : bytes) : positive :=
  match b with
  | [] => xH
  | Byte.x00 :: b => xO (bytes_pos b)
  | _ :: b => xI (bytes_pos b)
  end.

Lemma bytes_pos_bytes p : bytes_pos (pos_bytes p) = p.
Proof. induction p; simpl; congruence. Qed.

(** Scalars, through [Countable]. *)
Definition ser_countable (A : Type) `{Countable A} : Ser A.
Proof.
  refine (ser_inj (B := list byte) (fun a => pos_bytes (encode a)) (fun b => decode (bytes_pos b)) _).
  intros a. by rewrite bytes_pos_bytes, decode_encode.
Defined.

#[export] Instance ser_Z : Ser Z := ser_countable Z.

#[export] Instance ser_string : Ser string.
Proof.
  refine (ser_inj (B := list byte) string_bytes (fun b => Some (bytes_string b)) _).
  intros s. by rewrite bytes_string_bytes.
Defined.

#[export] Instance ser_option {A} `{Ser A} : Ser (option A).
Proof.
  refine (ser_inj (B := A + unit) (fun o => match o with Some a => inl a | None => inr tt end)
                  (fun x => Some (match x with inl a => Some a | inr _ => None end)) _).
  by intros [].
Defined.

#[export] Instance ser_gmap {V} `{Ser V} : Ser (gmap string V).
Proof.
  refine (ser_inj (B := list (string * V)) (fun m : gmap string V => map_to_list m) (fun l => Some (list_to_map l)) _).
  intros m. by rewrite list_to_map_to_list.
Defined.

#[export] Instance ser_gset : Ser (gset path).
Proof.
  refine (ser_inj (B := list path) (fun m : gset path => elements m) (fun l => Some (list_to_set l)) _).
  intros m. by rewrite list_to_set_elements_L.
Defined.

Definition toy_bincode (A : Type) `{Ser A} : Bincode A.
Proof.
  refine {| bin_encode := fun a => Some (ser a);
            bin_decode := fun b => match de b with
                                   | Some (a, r) => Some (a, length b - length r)%nat
                                   | None => None
                                   end |}.
  intros a b [= <-]. exists (length (ser a)).
  pose proof (de_ser a []) as E. rewrite app_nil_r in E. rewrite E.
  simpl. by rewrite Nat.sub_0_r.
Defined.

Definition toy_total (A : Type) `{Ser A} : @BincodeTotal A (toy_bincode A).
Proof. intros a. by eexists. Defined.

Definition toy_json (A : Type) `{Ser A} : Json A.
Proof.
  refine {| json_to_vec := fun a => Some (ser a);
            json_from_slice := fun b => fst <$> de b |}.
  intros a b [= <-]. pose proof (de_ser a []) as E. rewrite app_nil_r in E. by rewrite E.
Defined.

(** ** Base64 by hexadecimal digits *)

Definition unhex_digit (c : byte) : option Z :=
  let z := Z_of_byte c in
  if (48 <=? z) && (z <? 58) then Some (z - 48)
  else if (97 <=? z) && (z <? 103) then Some (z - 87)
  else None.

Fixpoint unhex (b : bytes) : option bytes :=
  match b with
  | [] => Some []
  | x :: y :: b =>
      match unhex_digit x, unhex_digit y, unhex b with
      | Some h, Some l, Some r => Some (byte_of_Z (16 * h + l) :: r)
      | _, _, _ => None
      end
  | [_] => None
  end.

Lemma hex_digit_Z n : 0 <= n < 16 ->
  Z_of_byte (hex_digit n) = if n <? 10 then 48 + n else 87 + n.
Proof.
  intros. unfold hex_digit. rewrite Z_of_byte_of_Z.
  destruct (Z.ltb_spec n 10); rewrite Z.mod_small; lia.
Qed.

Lemma unhex_hex_digit n : 0 <= n < 16 -> unhex_digit (hex_digit n) = Some n.
Proof.
  intros. unfold unhex_digit. rewrite hex_digit_Z by done.
  destruct (Z.ltb_spec n 10).
  - destruct (Z.leb_spec 48 (48 + n)), (Z.ltb_spec (48 + n) 58); simpl; try lia.
    f_equal. lia.
  - destruct (Z.leb_spec 48 (87 + n)), (Z.ltb_spec (87 + n) 58),
      (Z.leb_spec 97 (87 + n)), (Z.ltb_spec (87 + n) 103); simpl; try lia.
    f_equal. lia.
Qed.

Lemma nibble_range b : 0 <= Z_of_byte b / 16 < 16 /\ 0 <= Z_of_byte b `mod` 16 < 16.
Proof.
  pose proof (Z_of_byte_range b). split; [|apply Z.mod_pos_bound; lia].
  split; [apply Z.div_pos; lia | apply Z.div_lt_upper_bound; lia].
Qed.

Lemma nibble_join b : byte_of_Z (16 * (Z_of_byte b / 16) + Z_of_byte b `mod` 16) = b.
Proof. rewrite <- Z.div_mod by lia. apply byte_of_Z_of_byte. Qed.

Lemma unhex_hex b : unhex (hex_encode b) = Some b.
Proof.
  induction b as [|x b IH]; [done|].
  change (hex_encode (x :: b))
    with (hex_digit (Z_of_byte x / 16) :: hex_digit (Z_of_byte x `mod` 16) :: hex_encode b).
  cbn [unhex]. destruct (nibble_range x).
  rewrite !unhex_hex_digit, IH by done. by rewrite nibble_join.
Qed.

Definition toy_base64 : Base64.
Proof.
  refine {| b64_encode := fun b => bytes_string (hex_encode b);
            b64_decode := fun s => unhex (string_bytes s) |}.
  - intros b. rewrite string_bytes_string. apply unhex_hex.
  - intros b c. rewrite string_bytes_string. unfold hex_encode.
    intros (y & Hc & _)%list_elem_of_bind. destruct (nibble_range y).
    unfold hex_byte in Hc. rewrite !elem_of_cons, elem_of_nil in Hc.
    destruct Hc as [->|[->|[]]]; rewrite hex_digit_Z by done; case_match; lia.
Defined.

(** ** Cryptography *)

Definition toy_hash (b : bytes) : bytes :=
  le_encode 32 (foldl (fun acc x => Z.land (acc * 257 + Z_of_byte x + 1) (Z.ones 64)) 7 b).

Definition toy_blake3 : Blake3.
Proof. refine {| blake3 := toy_hash |}. intros. apply length_le_encode. Defined.

Definition toy_tag (k n p : bytes) : bytes := take 16 (toy_hash (k ++ n ++ p)).

Definition toy_aead_decrypt (k n c : bytes) : option bytes :=
  let p := take (length c - 16) c in
  if decide (drop (length c - 16) c = toy_tag k n p) then Some p else None.

Lemma length_toy_tag k n p : length (toy_tag k n p) = 16%nat.
Proof. unfold toy_tag, toy_hash. by rewrite length_take, length_le_encode. Qed.

Definition toy_aead : Aead.
Proof.
  refine {| aead_encrypt := fun k n p => Some (p ++ toy_tag k n p);
            aead_decrypt := toy_aead_decrypt |}.
  - intros k n p c [= <-]. unfold toy_aead_decrypt.
    rewrite length_app, length_toy_tag.
    replace (length p + 16 - 16)%nat with (length p) by lia.
    by rewrite take_app_length, drop_app_length, decide_True.
  - intros k n p c [= <-]. by rewrite length_app, length_toy_tag.
Defined.

Definition toy_public (sk : bytes) : bytes := Byte.x00 :: take 31 (sk ++ replicate 31 Byte.x00).

Definition toy_valid (pk : bytes) : bool :=
  bool_decide (length pk = 32%nat /\ head pk = Some Byte.x00).

Definition toy_mac (pk m : bytes) : bytes := toy_hash (pk ++ m) ++ toy_hash m.

Lemma length_toy_public sk : length (toy_public sk) = 32%nat.
Proof.
  unfold toy_public. cbn [length]. rewrite length_take, length_app, length_replicate. lia.
Qed.

Definition toy_ed25519 : Ed25519.
Proof.
  refine {| public_key := toy_public;
            pk_from_bytes := toy_valid;
            sign := fun sk m => toy_mac (toy_public sk) m;
            sig_verify := fun pk m s => bool_decide (s = toy_mac pk m);
            new_private_key := fun i => replicate 32 (byte_of_Z (Z.of_nat i + 1)) |}.
  - apply length_toy_public.
  - intros. apply length_replicate.
  - intros. unfold toy_valid. apply bool_decide_true. by split; [apply length_toy_public|].
  - intros. unfold toy_mac, toy_hash. by rewrite length_app, !length_le_encode.
  - intros. by apply bool_decide_true.
Defined.

Definition toy_box : @CryptoBox toy_ed25519.
Proof.
  refine {| montgomery_of := fun pk => if toy_valid pk then Some pk else None;
            scalar_of := toy_public;
            box_public := fun s => s;
            box_encrypt := fun p esk n m => Some (m ++ toy_tag (p ++ esk) n m);
            box_decrypt := fun epk s n c => toy_aead_decrypt (s ++ epk) n c |}.
  - intros sk. pose proof (@pk_from_bytes_public toy_ed25519 sk) as Hv. simpl in *.
    rewrite Hv. eauto.
  - intros sk p esk n m c Hp Hc. simpl in Hp. case_match; [|done].
    injection Hp as <-. by apply (@aead_decrypt_encrypt toy_aead).
Defined.

(** ** Small file systems *)

(** The directories of a path, the path included. *)
Definition with_dirs (p : path) (fs : fsmap) : fsmap := snd (op_create_dir_all p fs).

Definition with_file (p : path) (d : bytes) (fs : fsmap) : fsmap :=
  <[p := NFile (File d default_mode)]> (with_dirs (parent p) fs).

Definition root_fs : fsmap := {[ [] := NDir ]}.

Definition world_of (fs : fsmap) : world := World fs [] 0 0.
Definition faulty_world (fs : fsmap) (fl : list fault) : world := World fs fl 0 0.
