(* ===== verification/Share.v ===== *)
(** * Shares on disk ([src/share.rs], [src/share_state.rs], [src/data_dir.rs],
    [src/identity.rs])

    [ShareConfig] is what the user configured, one [share.json] per directory
    below [shares/]; [PersistedState] is what the daemon remembers of its sync
    history ([state.json]); the identity key is a raw 32-byte file. *)

From S2P Require Import Prelude World Tree Clock External Instances.

(** ** Paths ([data_dir.rs]) *)

Definition identity_path (data_dir : path) : path := join data_dir "identity.key".
Definition lock_path (data_dir : path) : path := join data_dir "daemon.lock".
Definition shares_dir (data_dir : path) : path := join data_dir "shares".

(** The directory of one share. *)
Definition share_dir (data_dir : path) (id : string) : path :=
  join (shares_dir data_dir) id.

(** [data_dir::resolve]; [platform] is [ProjectDirs::from]. *)
Definition resolve (override_path platform : option path) : outcome path :=
  match override_path with
  | Some p => Ok p
  | None => ok_or (EMsg "could not resolve platform project dirs") platform
  end.

(** ** Configuration ([share.rs]) *)

Inductive ShareRole := Seed | Leech | Sync.

#[export] Instance ShareRole_eq_dec : EqDecision ShareRole.
Proof. solve_decision. Defined.

Record ShareConfig := {
  sc_id : string;
  sc_topic : string;
  sc_root_path : path;
  sc_role : ShareRole;
  sc_created_at : Z;
}.

#[export] Instance ShareConfig_eq_dec : EqDecision ShareConfig.
Proof. solve_decision. Defined.

Section config.
Context `{MD : Metadata, Blake3, WallClock, ReadDir, Json ShareConfig}.

(** [hash.to_hex().as_str()[..16]] *)
Definition id_from_topic (topic : string) : string :=
  bytes_string (take 16 (hex_encode (blake3 (string_bytes topic)))).

Definition config_new (topic : string) (root : path) (role : ShareRole) : M ShareConfig :=
  let! now := utc_now in
  ret {| sc_id := id_from_topic topic; sc_topic := topic; sc_root_path := root;
         sc_role := role; sc_created_at := now |}.

Definition config_save (cfg : ShareConfig) (data_dir : path) : M unit :=
  let dir := join (shares_dir data_dir) (sc_id cfg) in
  ctx "create_dir_all" (fs_create_dir_all dir) ;;;
  let! json := lift (ok_or (EMsg "serializing share config") (json_to_vec cfg)) in
  ctx "write share.json" (fs_write (join dir "share.json") json).

(** One turn of the loop of [load_all]; [None] is [continue]. *)
Definition load_entry (dir : path) (name : string) : M (option ShareConfig) :=
  let! ft := fs_file_type (dir ++ [name]) in
  if decide (ft <> NDir) then ret None else
  let p := join (dir ++ [name]) "share.json" in
  let! ex := fs_exists p in
  if negb ex then ret None else
  let! raw := ctx "reading" (fs_read p) in
  let! cfg := lift (ok_or (EMsg "parsing share.json") (json_from_slice raw)) in
  ret (Some cfg).

Fixpoint load_entries (dir : path) (names : list string) : M (list ShareConfig) :=
  match names with
  | [] => ret []
  | n :: names =>
      let! c := load_entry dir n in
      let! rest := load_entries dir names in
      ret (match c with Some c => c :: rest | None => rest end)
  end.

Definition load_all (data_dir : path) : M (list ShareConfig) :=
  let dir := shares_dir data_dir in
  let! ex := fs_exists dir in
  if negb ex then ret [] else
  let! names := ctx "read_dir" (fs_read_dir dir) in
  let! out := load_entries dir names in
  ret (sort_by sc_id out).

(** [share::remove] *)
Definition share_dir_remove (data_dir : path) (id : string) : M unit :=
  let dir := join (shares_dir data_dir) id in
  let! ex := fs_exists dir in
  if negb ex then fail (ENotFound id) else
  ctx "remove_dir_all" (fs_remove_dir_all dir).
End config.

(** ** Persisted sync state ([share_state.rs]) *)

Record PersistedState := {
  ps_version_hash : string;
  ps_clock : VectorClock;
  ps_timestamp : Z;
  ps_manifest : gset path;
}.

#[export] Instance PersistedState_eq_dec : EqDecision PersistedState.
Proof. solve_decision. Defined.

Section state.
Context `{MD : Metadata, Json PersistedState}.

Definition state_path (data_dir : path) (share_id : string) : path :=
  join (join (shares_dir data_dir) share_id) "state.json".

Definition state_load (data_dir : path) (share_id : string) : M (option PersistedState) :=
  let p := state_path data_dir share_id in
  let! ex := fs_exists p in
  if negb ex then ret None else
  let! raw := ctx "reading" (fs_read p) in
  let! st := lift (ok_or (EMsg "parsing state.json") (json_from_slice raw)) in
  ret (Some st).

Definition state_save (data_dir : path) (share_id : string) (st : PersistedState) : M unit :=
  let p := state_path data_dir share_id in
  ctx "create_dir_all" (fs_create_dir_all (parent p)) ;;;
  let! json := lift (ok_or (EMsg "serializing state") (json_to_vec st)) in
  let tmp := with_extension p "json.tmp" in
  ctx "writing" (fs_write tmp json) ;;;
  ctx "renaming" (fs_rename tmp p) ;;;
  ret tt.
End state.

(** ** Identity ([identity.rs]) *)

Section identity.
Context `{MD : Metadata, Ed25519}.

Definition PRIVATE_KEY_LEN : nat := 32.

(** [PrivateKey::new] draws from the OS generator. *)
Definition private_key_new : M bytes := fun w =>
  (Ok (new_private_key (w_rng w)),
   World (w_fs w) (w_faults w) (S (w_rng w)) (w_tick w)).

Definition load_or_create (p : path) : M bytes :=
  let! ex := fs_exists p in
  if (ex : bool) then
    let! raw := ctx "reading" (fs_read p) in
    if decide (length raw = PRIVATE_KEY_LEN) then ret raw
    else fail (EBadLength (length raw))
  else
    let! key := private_key_new in
    ctx "create_dir_all" (fs_create_dir_all (parent p)) ;;;
    ctx "writing" (fs_write p key) ;;;
    ctx "chmod 0600" (fs_set_mode p mode_0600) ;;;
    ret key.
End identity.

(** ** Lemmas: the state file *)

Section state_lemmas.
Context `{MD : Metadata, Json PersistedState} (dd : path) (sid : string).

Definition sfile : path := share_dir dd sid ++ ["state.json"].
Definition stmp : path := share_dir dd sid ++ ["state.json.tmp"].

Lemma state_path_eq : state_path dd sid = sfile.
Proof. apply join_plain. plain_const. Qed.

Lemma stmp_ne : stmp <> sfile.
Proof. unfold stmp, sfile. by intros [=]%app_inv_head. Qed.

Lemma state_save_run_eq st json w :
  json_to_vec st = Some json ->
  snd (state_save dd sid st w) = snd (write_atomic (share_dir dd sid) sfile stmp json None w) /\
  (fst (state_save dd sid st w) = Ok tt <->
   fst (write_atomic (share_dir dd sid) sfile stmp json None w) = Ok tt).
Proof.
  intros E.
  assert (state_save dd sid st ≈ₘ write_atomic (share_dir dd sid) sfile stmp json None) as Hm.
  { unfold state_save, write_atomic. rewrite state_path_eq. cbv zeta. rewrite E.
    replace (with_extension sfile "json.tmp") with stmp by (symmetry; by apply with_extension_snoc).
    replace (parent sfile) with (share_dir dd sid) by (symmetry; apply parent_snoc).
    change (ok_or _ (Some json)) with (Ok json).
    rewrite ctx_meq. apply bind_proper; [reflexivity|]. intros _.
    transitivity (ctx "writing" (fs_write stmp json) ;;; ctx "renaming" (fs_rename stmp sfile) ;;; ret tt).
    { by intros w1; split; [destruct (fst _); constructor|]. }
    rewrite ctx_meq. apply bind_proper; [reflexivity|]. intros _.
    rewrite ctx_meq. reflexivity. }
  destruct (Hm w) as [Ho Hw]. split; [done|]. destruct Ho; split; congruence.
Qed.

(** What a load finds, as a function of the file. *)
Definition state_view (fs : fsmap) : option (option PersistedState) :=
  match fs !! sfile with
  | None => Some None
  | Some (NFile f) => Some <$> json_from_slice (f_data f)
  | Some _ => None
  end.

Lemma state_load_run w v :
  w_faults w = [] -> state_view (w_fs w) = Some v -> state_load dd sid w = (Ok v, w).
Proof.
  intros Hf Hv. unfold state_load. rewrite state_path_eq. cbv zeta. unfold state_view in Hv.
  destruct (w_fs w !! sfile) as [[f| |]|] eqn:E; try done.
  - destruct (json_from_slice (f_data f)) as [st|] eqn:Ej; simplify_eq/=.
    assert (data_at (w_fs w) sfile = Some (f_data f)) as Hd
      by (unfold data_at, file_at; by rewrite E).
    erewrite bind_run by (eapply fs_exists_data; [by apply quiet_readable|done]). change (negb true) with false. cbv iota.
    erewrite bind_run by (apply ctx_Ok; by apply fs_read_run).
    erewrite bind_run by (unfold lift; by rewrite Ej). done.
  - simplify_eq. rewrite (bind_run _ _ _ false w); [done|].
    rewrite fs_exists_run by by apply quiet_readable. by rewrite E, bool_decide_false by (by intros []).
Qed.
End state_lemmas.

(** ** Properties *)

(** The sync state survives a restart: after a successful save a load
    returns it; and whatever fails during a save, the state file afterwards
    holds the complete old or the complete new state. *)
Theorem persisted_state_round_trip `{MD : Metadata, Json PersistedState} (dd : path) (sid : string)
    (st : PersistedState) (json : bytes) (w : world) (Hj : json_to_vec st = Some json) :
  let '(o, w') := state_save dd sid st w in
  (o = Ok tt -> w_faults w' = [] -> state_load dd sid w' = (Ok (Some st), w')) /\
  (data_at (w_fs w') (state_path dd sid) = data_at (w_fs w) (state_path dd sid) \/
   data_at (w_fs w') (state_path dd sid) = Some json).
Proof.
  rewrite state_path_eq. pose proof (state_save_run_eq dd sid st json w Hj) as [Hw Ho].
  pose proof (write_atomic_atomic (share_dir dd sid) (sfile dd sid) (stmp dd sid) json None w
    (stmp_ne dd sid)) as Ha.
  destruct (state_save dd sid st w) as [o w']. simpl in *. subst w'. split; [|done].
  intros Hok Hf. apply Ho in Hok.
  destruct (write_atomic _ _ _ json None w) as [o' w'] eqn:E. simpl in *. subst o'.
  apply write_atomic_Ok in E as [Hd _]. apply state_load_run; [done|].
  unfold state_view, data_at, file_at in *.
  destruct (w_fs w' !! sfile dd sid) as [[f| |]|]; simplify_eq/=.
  by rewrite (json_from_to _ _ Hj).
Qed.

(** The identity is created once: whatever [load_or_create] returned, the
    next call returns the same 32-byte key; a key it has just created is in a
    file readable by its owner only. *)
Theorem identity_stable `{MD : Metadata, Ed25519} (p : path) (w w' : world) (k : bytes)
    (Hl : load_or_create p w = (Ok k, w')) (Hf : w_faults w' = []) :
  length k = PRIVATE_KEY_LEN /\ load_or_create p w' = (Ok k, w') /\
  (w_fs w !! p = None -> f_mode <$> file_at (w_fs w') p = Some mode_0600).
Proof.
  assert (length k = PRIVATE_KEY_LEN /\ data_at (w_fs w') p = Some k /\
    (w_fs w !! p = None -> f_mode <$> file_at (w_fs w') p = Some mode_0600)) as (Hk & Hd & Hm).
  { unfold load_or_create in Hl. apply bind_Ok in Hl as (ex & w0 & Hex & Hl).
    destruct ex; [apply fs_exists_true in Hex as [Hb ->]|injection Hex as _ <-]; inv_ok.
    - case_decide; inv_ok.
      match goal with H1 : fs_read _ _ = _ |- _ => apply fs_read_Ok in H1 as (Hd & Hfs & _) end.
      split; [done|]. split; [by rewrite Hfs|]. intros E. rewrite E in Hb. by destruct Hb.
    - match goal with H1 : private_key_new _ = _ |- _ => injection H1 as <- <- end.
      match goal with H1 : fs_write _ _ _ = _ |- _ => apply io_Ok in H1 as (Ew & _);
        apply op_write_ok in Ew end.
      match goal with H1 : fs_set_mode _ _ ?w1 = _ |- _ => apply io_Ok in H1 as (Em & _);
        pose proof (op_set_mode_data p mode_0600 (w_fs w1) p) as Hd end.
      rewrite Em in Hd. simpl in Hd. rewrite Hd. split; [apply new_private_key_length|].
      split; [done|]. intros _. apply op_set_mode_mode in Em as (f & -> & _). done. }
  split; [done|]. split; [|done]. unfold load_or_create.
  erewrite bind_run by (eapply fs_exists_data; [by apply quiet_readable|done]). cbv iota.
  erewrite bind_run by (apply ctx_Ok; by apply fs_read_run).
  by rewrite decide_True.
Qed.

(** A directory id the program never checks: the empty one names the
    directory of all shares, [..] the data directory itself. *)
Lemma share_dir_empty (dd : path) : share_dir dd "" = shares_dir dd.
Proof. reflexivity. Qed.

Lemma share_dir_dotdot (dd : path) : share_dir dd ".." = dd.
Proof.
  unfold share_dir. change (shares_dir dd) with (join dd "shares").
  rewrite (join_plain dd "shares") by plain_const. apply parent_snoc.
Qed.

(** Removing a share by its id deletes exactly the directory that id names
    (nodes elsewhere are unchanged): the share's own for a plain name; but
    with the empty id, which no caller rejects, the directory of all shares,
    and with [..] the whole data directory (the removal of the emptied
    directory itself may be refused by the host). *)
Theorem share_remove_subtree `{MD : Metadata} (dd : path) (id : string) (w : world)
    (Hf : w_faults w = []) (Hid : plain_name id \/ id = "" \/ id = "..")
    (Hd : w_fs w !! share_dir dd id = Some NDir) :
  let '(o, w') := share_dir_remove dd id w in
  o = Ok tt /\
  (plain_name id -> share_dir dd id = shares_dir dd ++ [id]) /\
  (id = "" -> share_dir dd id = shares_dir dd) /\
  (id = ".." -> share_dir dd id = dd) /\
  forall q, w_fs w' !! q = if decide (share_dir dd id `prefix_of` q) then None else w_fs w !! q.
Proof.
  unfold share_dir_remove. fold (share_dir dd id). cbv zeta.
  rewrite (bind_run _ _ _ true w).
  2: { rewrite fs_exists_run by by apply quiet_readable. by rewrite Hd, bool_decide_true by done. }
  change (negb true) with false. cbv iota. unfold ctx, fs_remove_dir_all.
  rewrite io_run by done. unfold op_remove_dir_all. rewrite Hd. simpl.
  split; [done|]. split; [|split; [|split]].
  - intros Hp. by apply join_plain.
  - intros ->. apply share_dir_empty.
  - intros ->. apply share_dir_dotdot.
  - intros q. rewrite map_lookup_filter. case_decide as Hq.
    + destruct (w_fs w !! q); simpl; [|done]. by case_guard.
    + destruct (w_fs w !! q); simpl; [|done]. by case_guard.
Qed.

(** ** Witnesses *)

#[export] Instance ser_state : Ser PersistedState.
Proof.
  refine (ser_inj (B := (string * gmap string Z) * (Z * gset path))
    (fun s => ((ps_version_hash s, ps_clock s), (ps_timestamp s, ps_manifest s)))
    (fun x => Some {| ps_version_hash := x.1.1; ps_clock := x.1.2;
                      ps_timestamp := x.2.1; ps_manifest := x.2.2 |}) _).
  by intros [].
Defined.

Definition toy_state : Json PersistedState := toy_json _.

Section witnesses.
#[local] Existing Instance toy_metadata.
#[local] Existing Instance toy_state.
#[local] Existing Instance toy_ed25519.

Definition wsh_dd : path := ["data"].
Definition wsh_state : PersistedState :=
  {| ps_version_hash := "ab"; ps_clock := increment new "p"; ps_timestamp := 7;
     ps_manifest := {[ ["x.txt"] ]} |}.
Definition wsh_json : bytes := ser wsh_state.
Definition wsh_saved := state_save wsh_dd "s" wsh_state (world_of root_fs).

Lemma persisted_state_round_trip_witness :
  state_load wsh_dd "s" wsh_saved.2 = (Ok (Some wsh_state), wsh_saved.2).
Proof.
  assert (Ho : wsh_saved.1 = Ok tt) by (vm_compute; reflexivity).
  assert (Hf : w_faults wsh_saved.2 = []) by (vm_compute; reflexivity).
  pose proof (persisted_state_round_trip wsh_dd "s" wsh_state wsh_json (world_of root_fs) eq_refl)
    as Hr.
  revert Ho Hf. unfold wsh_saved. destruct (state_save _ _ _ _) as [o w']. cbn [fst snd].
  intros Ho Hf. by apply Hr.
Defined.

Definition wsh_id := load_or_create (identity_path wsh_dd) (world_of root_fs).

Lemma identity_stable_witness :
  load_or_create (identity_path wsh_dd) wsh_id.2 = (Ok (replicate 32 Byte.x01), wsh_id.2) /\
  f_mode <$> file_at (w_fs wsh_id.2) (identity_path wsh_dd) = Some mode_0600.
Proof.
  assert (Hl : wsh_id.1 = Ok (replicate 32 Byte.x01)) by (vm_compute; reflexivity).
  assert (Hf : w_faults wsh_id.2 = []) by (vm_compute; reflexivity).
  destruct (identity_stable (identity_path wsh_dd) (world_of root_fs) wsh_id.2
    (replicate 32 Byte.x01)) as (_ & H1 & H2).
  - rewrite <- Hl. apply surjective_pairing.
  - exact Hf.
  - split; [exact H1|]. apply H2. vm_compute. reflexivity.
Defined.

(** A first start interrupted while it writes the identity, after any number
    of bytes short of the whole key, leaves a file every later start
    refuses: the daemon never generates another identity by itself. *)
Definition wsh_interrupted (n : nat) : world :=
  snd (load_or_create (identity_path wsh_dd) (faulty_world root_fs [FNone; FPartial n])).

Theorem identity_interrupted :
  forallb (fun n => bool_decide
    (fst (load_or_create (identity_path wsh_dd) (wsh_interrupted n)) = Err (EBadLength n)))
    (seq 0 32) = true.
Proof. vm_compute. reflexivity. Qed.

Definition wsh_two : world := world_of
  (with_file (share_dir wsh_dd "a" ++ ["share.json"]) []
    (with_file (share_dir wsh_dd "b" ++ ["share.json"]) [] root_fs)).

#[local] Abbreviation removed id := (share_dir_remove wsh_dd id wsh_two).

Lemma share_remove_subtree_witness :
  w_fs (removed "a").2 !! (share_dir wsh_dd "b" ++ ["share.json"]) =
    Some (NFile (File [] default_mode)) /\
  w_fs (removed "").2 !! (share_dir wsh_dd "a" ++ ["share.json"]) = None /\
  w_fs (removed "..").2 !! (share_dir wsh_dd "a" ++ ["share.json"]) = None.
Proof.
  split; [|split].
  - assert (Hp : plain_name "a") by plain_const.
    pose proof (share_remove_subtree wsh_dd "a" wsh_two eq_refl (or_introl Hp) eq_refl) as Hs.
    destruct (removed "a") as [o w']. destruct Hs as (_ & _ & _ & _ & ->).
    vm_compute. reflexivity.
  - pose proof (share_remove_subtree wsh_dd "" wsh_two eq_refl
      (or_intror (or_introl eq_refl)) eq_refl) as Hs.
    destruct (removed "") as [o w']. destruct Hs as (_ & _ & _ & _ & ->).
    vm_compute. reflexivity.
  - pose proof (share_remove_subtree wsh_dd ".." wsh_two eq_refl
      (or_intror (or_intror eq_refl)) eq_refl) as Hs.
    destruct (removed "..") as [o w']. destruct Hs as (_ & _ & _ & _ & ->).
    vm_compute. reflexivity.
Defined.
End witnesses.
