(* ===== verification/Crypto.v ===== *)
(** * Keyring and file encryption ([src/crypto.rs])

    A share's keyring is one 32-byte key per epoch, epochs numbered from 1,
    stored as the concatenation of its keys in [keys.bin]; it only ever grows.
    A blob is [epoch(8, little endian) ++ nonce(24) ++ ciphertext ++ tag(16)]. *)

From S2P Require Import Prelude World External Instances Share.

Definition KEY_LEN : nat := 32.
Definition NONCE_LEN : nat := 24.
Definition TAG_LEN : nat := 16.
Definition EPOCH_LEN : nat := 8.
Definition HEADER_LEN : nat := EPOCH_LEN + NONCE_LEN.

Abbreviation Key := bytes.

Record KeyRing := { keys : list Key }.

#[export] Instance KeyRing_eq_dec : EqDecision KeyRing.
Proof. solve_decision. Defined.

(** ** The in-memory keyring *)

Definition current_epoch (r : KeyRing) : Z := Z.of_nat (length (keys r)).

(** [.last().expect(..)] *)
Definition current_key (r : KeyRing) : outcome Key := expect (last (keys r)).

Definition key_for_epoch (r : KeyRing) (epoch : Z) : option Key :=
  if epoch <? 1 then None else keys r !! Z.to_nat (epoch - 1).

Definition export_keys (r : KeyRing) : list Key := keys r.

(** ** On disk *)

Definition keys_path (data_dir : path) (share_id : string) : path :=
  join (join (shares_dir data_dir) share_id) "keys.bin".

(** [slice::chunks_exact(KEY_LEN)] for [n] whole chunks *)
Fixpoint chunks_exact (n : nat) (raw : bytes) : list Key :=
  match n with
  | O => []
  | S n => take KEY_LEN raw :: chunks_exact n (drop KEY_LEN raw)
  end.

Definition ring_bytes (r : KeyRing) : bytes := concat (keys r).

Definition save_keyring (data_dir : path) (share_id : string) (ring : KeyRing) : M unit :=
  let p := keys_path data_dir share_id in
  ctx "create_dir_all" (fs_create_dir_all (parent p)) ;;;
  let tmp := with_extension p "bin.tmp" in
  ctx "writing" (fs_write tmp (ring_bytes ring)) ;;;
  ctx "renaming" (fs_rename tmp p) ;;;
  ctx "chmod 0600" (fs_set_mode p mode_0600).

Inductive InstallOutcome :=
  | Installed
  | Idempotent
  | Stale
  | Gap (have got : Z).

#[export] Instance InstallOutcome_eq_dec : EqDecision InstallOutcome.
Proof. solve_decision. Defined.

Section keyring.
Context `{MD : Metadata, Entropy}.

Definition load_or_create_keyring (data_dir : path) (share_id : string) : M KeyRing :=
  let p := keys_path data_dir share_id in
  let! ex := fs_exists p in
  if (ex : bool) then
    let! raw := ctx "reading" (fs_read p) in
    if decide (raw = [] \/ (length raw `mod` KEY_LEN)%nat <> 0%nat)
    then fail (EBadLength (length raw))
    else ret {| keys := chunks_exact (length raw / KEY_LEN)%nat raw |}
  else
    let! k := fill_bytes KEY_LEN in
    let ring := {| keys := [k] |} in
    save_keyring data_dir share_id ring ;;;
    ret ring.

Definition install_keyring (data_dir : path) (share_id : string) (ks : list Key) : M unit :=
  let p := keys_path data_dir share_id in
  let! ex := fs_exists p in
  if (ex : bool) then fail (EMsg "keys.bin already exists; refusing to overwrite") else
  if decide (ks = []) then fail (EMsg "cannot install an empty keyring") else
  save_keyring data_dir share_id {| keys := ks |}.

Definition push_key (r : KeyRing) (k : Key) : KeyRing := {| keys := keys r ++ [k] |}.

Definition rotate_keyring (data_dir : path) (share_id : string) : M Z :=
  let! ring := load_or_create_keyring data_dir share_id in
  let! k := fill_bytes KEY_LEN in
  let ring := push_key ring k in
  save_keyring data_dir share_id ring ;;;
  ret (current_epoch ring).

Definition install_epoch_key (data_dir : path) (share_id : string) (epoch : Z) (key : Key)
    : M InstallOutcome :=
  let! ring := load_or_create_keyring data_dir share_id in
  let current := current_epoch ring in
  if epoch =? current then
    let! existing := lift (expect (key_for_epoch ring epoch)) in
    if decide (existing = key) then ret Idempotent
    else fail (EEpochConflict epoch)
  else if epoch <? current then ret Stale
  else if current + 1 <? epoch then ret (Gap current epoch)
  else
    save_keyring data_dir share_id (push_key ring key) ;;;
    ret Installed.
End keyring.

(** ** Blobs *)

Section blobs.
Context `{MD : Metadata, Entropy, Aead}.

Definition encrypt (ring : KeyRing) (plaintext : bytes) : M bytes :=
  let epoch := current_epoch ring in
  let! key := lift (current_key ring) in
  let! nonce := fill_bytes NONCE_LEN in
  let! ct := lift (ok_or (EMsg "encryption failed") (aead_encrypt key nonce plaintext)) in
  ret (u64_le epoch ++ nonce ++ ct).

Definition decrypt (ring : KeyRing) (blob : bytes) : outcome bytes :=
  if (length blob <? HEADER_LEN + TAG_LEN)%nat then Err (ETooShort (length blob)) else
  let epoch := le_decode (take EPOCH_LEN blob) in
  try! key := ok_or (ENoKey epoch (current_epoch ring)) (key_for_epoch ring epoch) in
  let nonce := take NONCE_LEN (drop EPOCH_LEN blob) in
  ok_or EAead (aead_decrypt key nonce (drop HEADER_LEN blob)).
End blobs.

(** ** Specification *)

Definition ring_wf (r : KeyRing) : Prop :=
  keys r <> [] /\ Forall (fun k => length k = KEY_LEN) (keys r).

(** [r'] keeps every key of [r] at its epoch. *)
Definition ring_extends (r r' : KeyRing) : Prop := keys r `prefix_of` keys r'.

(** What the ring stored at a share is, when its file parses. *)
Definition parse_ring (raw : bytes) : option KeyRing :=
  if decide (raw = [] \/ (length raw `mod` KEY_LEN)%nat <> 0%nat) then None
  else Some {| keys := chunks_exact (length raw / KEY_LEN)%nat raw |}.

(** ** Lemmas *)

Lemma chunks_concat (ks : list Key) :
  Forall (fun k => length k = KEY_LEN) ks -> chunks_exact (length ks) (concat ks) = ks.
Proof.
  induction 1 as [|k ks Hk _ IH]; [done|]. cbn [length chunks_exact concat].
  rewrite take_app_length', drop_app_length' by done. by rewrite IH.
Qed.

Lemma length_concat_keys (ks : list Key) :
  Forall (fun k => length k = KEY_LEN) ks -> length (concat ks) = (length ks * KEY_LEN)%nat.
Proof.
  induction 1 as [|k ks Hk _ IH]; [done|]. cbn [length concat].
  rewrite length_app, IH, Hk. done.
Qed.

Lemma chunks_exact_spec n raw :
  length raw = (n * KEY_LEN)%nat ->
  concat (chunks_exact n raw) = raw /\ length (chunks_exact n raw) = n /\
  Forall (fun k => length k = KEY_LEN) (chunks_exact n raw).
Proof.
  revert raw. induction n as [|n IH]; intros raw Hlen; cbn [chunks_exact concat].
  - by destruct raw.
  - destruct (IH (drop KEY_LEN raw)) as (Hc & Hl & Hf).
    { rewrite length_drop, Hlen. lia. }
    rewrite Hc, take_drop. cbn [length]. rewrite Hl. split; [done|]. split; [done|].
    constructor; [|done]. rewrite length_take, Hlen. lia.
Qed.

Lemma parse_ring_bytes r : ring_wf r -> parse_ring (ring_bytes r) = Some r.
Proof.
  intros [Hne Hf]. unfold parse_ring, ring_bytes.
  pose proof (length_concat_keys _ Hf) as Hlen. rewrite decide_False.
  - rewrite Hlen, Nat.div_mul, chunks_concat by done. by destruct r.
  - rewrite Hlen, Nat.Div0.mod_mul. intros [E|?]; [|done].
    rewrite E in Hlen. destruct (keys r); [done|]. unfold KEY_LEN in Hlen. simpl in Hlen. lia.
Qed.

Lemma parse_ring_Some raw r :
  parse_ring raw = Some r -> ring_wf r /\ ring_bytes r = raw.
Proof.
  unfold parse_ring. case_decide as Hd; [done|]. intros [= <-].
  apply Decidable.not_or in Hd as [Hne Hm].
  assert (length raw = (length raw / KEY_LEN * KEY_LEN)%nat) as Hlen.
  { pose proof (Nat.div_mod_eq (length raw) KEY_LEN). lia. }
  destruct (chunks_exact_spec _ raw Hlen) as (Hc & Hl & Hf).
  unfold ring_wf, ring_bytes. simpl. split; [split|]; try done.
  intros E. rewrite E in Hc. by destruct raw.
Qed.

Lemma parse_ring_iff raw r :
  parse_ring raw = Some r <-> ring_wf r /\ ring_bytes r = raw.
Proof.
  split; [apply parse_ring_Some|]. intros [Hw <-]. by apply parse_ring_bytes.
Qed.

Lemma push_key_wf r k : ring_wf r -> length k = KEY_LEN -> ring_wf (push_key r k).
Proof.
  intros [Hne Hf] Hk. split; simpl; [by destruct (keys r)|].
  apply Forall_app_2; [done|]. by repeat constructor.
Qed.

Lemma push_key_bytes r k : ring_bytes (push_key r k) = ring_bytes r ++ k.
Proof. unfold ring_bytes. simpl. rewrite concat_app. simpl. by rewrite app_nil_r. Qed.

Lemma push_key_extends r k : ring_extends r (push_key r k).
Proof. by exists [k]. Qed.

Lemma current_epoch_push r k : current_epoch (push_key r k) = current_epoch r + 1.
Proof. unfold current_epoch. simpl. rewrite length_app. simpl. lia. Qed.

Lemma key_for_epoch_extends r r' e k :
  ring_extends r r' -> key_for_epoch r e = Some k -> key_for_epoch r' e = Some k.
Proof.
  intros [suf E]. unfold key_for_epoch. case_match; [done|]. rewrite E.
  apply lookup_app_l_Some.
Qed.

Lemma key_for_epoch_range r e :
  is_Some (key_for_epoch r e) <-> 1 <= e <= current_epoch r.
Proof.
  unfold key_for_epoch, current_epoch.
  destruct (Z.ltb_spec e 1); [split; [by intros []|lia]|].
  rewrite lookup_lt_is_Some. lia.
Qed.

Lemma key_for_epoch_push r k :
  key_for_epoch (push_key r k) (current_epoch r + 1) = Some k.
Proof.
  unfold key_for_epoch, current_epoch. destruct (Z.ltb_spec (Z.of_nat (length (keys r)) + 1) 1);
    [lia|].
  replace (Z.to_nat _) with (length (keys r)) by lia. simpl. apply list_lookup_middle. done.
Qed.

Lemma current_key_epoch r k :
  current_key r = Ok k -> key_for_epoch r (current_epoch r) = Some k.
Proof.
  unfold current_key, key_for_epoch, current_epoch. rewrite expect_Ok, last_lookup.
  intros E. pose proof (lookup_lt_Some _ _ _ E).
  destruct (Z.ltb_spec (Z.of_nat (length (keys r))) 1); [lia|].
  replace (Z.to_nat _) with (pred (length (keys r))) by lia. done.
Qed.

Lemma ring_wf_current_key r : ring_wf r -> is_Ok (current_key r).
Proof.
  intros [Hne _]. unfold current_key. destruct (last (keys r)) eqn:E; [by eexists|].
  by apply last_None in E.
Qed.

(** *** The file of a share *)

Section disk.
Context (dd : path) (sid : string).

Definition kfile : path := share_dir dd sid ++ ["keys.bin"].
Definition ktmp : path := share_dir dd sid ++ ["keys.bin.tmp"].

Lemma keys_path_eq : keys_path dd sid = kfile.
Proof. apply join_plain. plain_const. Qed.

Lemma ktmp_ne : ktmp <> kfile.
Proof. unfold ktmp, kfile. by intros [=]%app_inv_head. Qed.

Lemma save_keyring_meq r :
  save_keyring dd sid r ≈ₘ
  write_atomic (share_dir dd sid) kfile ktmp (ring_bytes r) (Some mode_0600).
Proof.
  unfold save_keyring, write_atomic. rewrite keys_path_eq. cbv zeta.
  change (with_extension kfile "bin.tmp") with (with_extension (share_dir dd sid ++ ["keys.bin"]) "bin.tmp").
  rewrite with_extension_snoc by done. change (parent kfile) with (parent (share_dir dd sid ++ ["keys.bin"])).
  rewrite parent_snoc. change (_ ++ [_]) with ktmp.
  rewrite ctx_meq. apply bind_proper; [reflexivity|]. intros _.
  rewrite ctx_meq. apply bind_proper; [reflexivity|]. intros _.
  rewrite ctx_meq. apply bind_proper; [reflexivity|]. intros _. apply ctx_meq.
Qed.

Lemma save_keyring_touches r :
  touches (fun q => q = kfile \/ q = ktmp) (save_keyring dd sid r).
Proof. rewrite save_keyring_meq. apply write_atomic_touches. Qed.

Lemma save_keyring_Ok r w w' :
  save_keyring dd sid r w = (Ok tt, w') ->
  file_at (w_fs w') kfile = Some (File (ring_bytes r) mode_0600).
Proof.
  rewrite (meq_Ok _ _ _ _ _ (save_keyring_meq r)). intros H.
  apply write_atomic_Ok in H as [_ H]. by apply H.
Qed.

Lemma save_keyring_atomic r w :
  let fs' := w_fs (snd (save_keyring dd sid r w)) in
  data_at fs' kfile = data_at (w_fs w) kfile \/ data_at fs' kfile = Some (ring_bytes r).
Proof.
  cbv zeta. rewrite (meq_world _ _ w (save_keyring_meq r)).
  apply write_atomic_atomic, ktmp_ne.
Qed.

(** The place a keyring is saved to is free of obstacles. *)
Definition share_ready (fs : fsmap) : Prop :=
  can_mkdir fs (share_dir dd sid) /\ can_write fs kfile /\ can_write fs ktmp.

Lemma save_keyring_run r w :
  w_faults w = [] -> share_ready (w_fs w) ->
  exists fs', save_keyring dd sid r w = (Ok tt, set_fs fs' w) /\ share_ready fs'.
Proof.
  intros Hf (Hd & Hk & Ht).
  destruct (write_atomic_run (share_dir dd sid) kfile ktmp (ring_bytes r) (Some mode_0600) w)
    as (fs' & E & Hrd); try done.
  - apply ktmp_ne.
  - apply parent_snoc.
  - apply parent_snoc.
  - apply ancestors_length_ne.
  - apply ancestors_length_ne.
  - exists fs'. split; [by rewrite (meq_Ok _ _ _ _ _ (save_keyring_meq r))|exact Hrd].
Qed.

Context `{MD : Metadata, Entropy}.

Lemma load_keyring_run w raw :
  w_faults w = [] -> data_at (w_fs w) kfile = Some raw ->
  load_or_create_keyring dd sid w =
    (match parse_ring raw with Some r => Ok r | None => Err (EBadLength (length raw)) end, w).
Proof.
  intros Hf Hd. unfold load_or_create_keyring. rewrite keys_path_eq.
  erewrite bind_run by by eapply fs_exists_data; [apply quiet_readable|]. cbv iota.
  unfold parse_ring, bind, ctx. rewrite (fs_read_run _ _ raw) by done. simpl.
  by case_decide.
Qed.

(** A ring that was returned is well formed and is the one on disk. *)
Lemma load_keyring_Ok w r w' :
  load_or_create_keyring dd sid w = (Ok r, w') ->
  ring_wf r /\ data_at (w_fs w') kfile = Some (ring_bytes r) /\
  (unreadable w kfile = false -> w_fs w !! kfile <> None -> w_fs w' = w_fs w).
Proof.
  unfold load_or_create_keyring. rewrite keys_path_eq. intros Hl.
  apply bind_Ok in Hl as (ex & w0 & Hex & Hl).
  destruct ex; [apply fs_exists_true in Hex as [_ ->]|injection Hex as Hex <-]; inv_ok.
  - match goal with H : fs_read _ _ = _ |- _ => apply fs_read_Ok in H as (Hd & Hfs & _) end.
    case_decide as Hp; inv_ok.
    match type of Hp with ~ (?raw = [] \/ _) =>
      assert (parse_ring raw = Some {| keys := chunks_exact (length raw / KEY_LEN) raw |}) as E
        by by (unfold parse_ring; rewrite decide_False) end.
    apply parse_ring_Some in E as [? Eb]. rewrite Hfs, Eb. done.
  - match goal with H : fill_bytes _ _ = _ |- _ => injection H as <- <- end.
    match goal with H : save_keyring _ _ _ _ = _ |- _ => apply save_keyring_Ok in H as Hs end.
    split; [split; [done|]; repeat constructor; apply rng_draw_length|].
    split; [unfold data_at; by rewrite Hs|].
    intros Hu He. rewrite Hu, andb_true_r in Hex. apply bool_decide_eq_false in Hex.
    destruct Hex. by destruct (w_fs w !! kfile) eqn:?; eauto.
Qed.
End disk.

(** The ring a share's [keys.bin] holds. *)
Definition disk_ring (dd : path) (sid : string) (fs : fsmap) : option KeyRing :=
  data_at fs (kfile dd sid) ≫= parse_ring.

Lemma disk_ring_bytes dd sid fs r :
  ring_wf r -> data_at fs (kfile dd sid) = Some (ring_bytes r) -> disk_ring dd sid fs = Some r.
Proof. intros Hw Hd. unfold disk_ring. rewrite Hd. simpl. by apply parse_ring_bytes. Qed.

Lemma disk_ring_data dd sid fs r :
  disk_ring dd sid fs = Some r -> ring_wf r /\ data_at fs (kfile dd sid) = Some (ring_bytes r).
Proof.
  unfold disk_ring. destruct (data_at fs (kfile dd sid)); [|done]. simpl.
  intros [? <-]%parse_ring_Some. done.
Qed.

(** [keys.bin] is seen where it is: its metadata can be read whenever the
    program asks whether it exists. *)
Class KeysSighted `{MD : Metadata} : Prop :=
  keys_sighted : forall w dd sid, unreadable w (kfile dd sid) = false.

#[export] Instance sighted_keys `{MD : Metadata, !Sighted} : KeysSighted.
Proof. intros w dd sid. apply sighted_readable. Qed.

Section monotone.
Context `{MD : Metadata, Entropy} (dd : path) (sid : string).

(** After [m], from any world where [keys.bin] is seen and under any faults,
    every key that was on disk is still there at its epoch. *)
Definition keeps_ring {A} (m : M A) : Prop :=
  forall w r, unreadable w (kfile dd sid) = false -> disk_ring dd sid (w_fs w) = Some r ->
  exists r', disk_ring dd sid (w_fs (snd (m w))) = Some r' /\ ring_extends r r'.

Lemma keeps_ring_touches {A} (m : M A) :
  touches (fun _ => False) m -> keeps_ring m.
Proof.
  intros Hm w r _ Hr. exists r. split; [|by exists []; rewrite app_nil_r].
  unfold disk_ring, data_at in *. by rewrite (Hm w) by auto.
Qed.

Lemma keeps_ring_refl r : ring_extends r r.
Proof. by exists []; rewrite app_nil_r. Qed.

(** Loading an existing ring returns it and changes no file. *)
Lemma load_keyring_disk w r :
  unreadable w (kfile dd sid) = false -> disk_ring dd sid (w_fs w) = Some r ->
  let '(o, w') := load_or_create_keyring dd sid w in
  w_fs w' = w_fs w /\ (o = Ok r \/ exists e, o = Err e).
Proof.
  intros Hu [Hw Hd]%disk_ring_data.
  unfold load_or_create_keyring. rewrite keys_path_eq.
  erewrite bind_run by by eapply fs_exists_data. cbv iota.
  unfold bind, ctx. destruct (fs_read _ w) as [[raw|e|] w'] eqn:E.
  - apply fs_read_Ok in E as (Hd' & Hfs & _). rewrite Hd in Hd'. simplify_eq. simpl.
    pose proof (parse_ring_bytes r Hw) as Hp. unfold parse_ring in Hp.
    case_decide; simplify_eq. split; [done|]. left. unfold ret. simpl. by rewrite Hp.
  - simpl. unfold fs_read, io, op_read, data_at, file_at in *.
    repeat case_match; simplify_eq/=; eauto.
  - unfold fs_read, io, op_read, data_at, file_at in *.
    repeat case_match; simplify_eq/=; eauto.
Qed.

Lemma save_keeps r0 r w :
  disk_ring dd sid (w_fs w) = Some r0 -> ring_wf r -> ring_extends r0 r ->
  exists r', disk_ring dd sid (w_fs (snd (save_keyring dd sid r w))) = Some r' /\
             ring_extends r0 r'.
Proof.
  intros Hr Hw He. destruct (save_keyring_atomic dd sid r w) as [E|E].
  - exists r0. split; [|apply keeps_ring_refl]. unfold disk_ring in *. by rewrite E.
  - exists r. split; [|done]. by apply disk_ring_bytes.
Qed.

Lemma load_keeps : keeps_ring (load_or_create_keyring dd sid).
Proof.
  intros w r Hu Hr. pose proof (load_keyring_disk w r Hu Hr) as Hl.
  destruct (load_or_create_keyring dd sid w) as [o w']. destruct Hl as [Hfs _].
  exists r. simpl. rewrite Hfs. split; [done|]. apply keeps_ring_refl.
Qed.

(** The shape shared by the operations that load the ring first. *)
Lemma bind_load_keeps {A} (k : KeyRing -> M A) :
  (forall w r, disk_ring dd sid (w_fs w) = Some r ->
    exists r', disk_ring dd sid (w_fs (snd (k r w))) = Some r' /\ ring_extends r r') ->
  keeps_ring (bind (load_or_create_keyring dd sid) k).
Proof.
  intros Hk w r Hu Hr. pose proof (load_keyring_disk w r Hu Hr) as Hl. unfold bind.
  destruct (load_or_create_keyring dd sid w) as [o w']. destruct Hl as [Hfs [->|[e ->]]].
  - rewrite <- Hfs in Hr. by apply Hk.
  - exists r. simpl. rewrite Hfs. split; [done|]. apply keeps_ring_refl.
Qed.

Lemma disk_ring_same w r :
  disk_ring dd sid (w_fs w) = Some r ->
  exists r', disk_ring dd sid (w_fs w) = Some r' /\ ring_extends r r'.
Proof. intros Hr. exists r. split; [done|]. apply keeps_ring_refl. Qed.

Lemma rotate_keeps : keeps_ring (rotate_keyring dd sid).
Proof.
  apply bind_load_keeps. intros w r Hr. pose proof (disk_ring_data _ _ _ _ Hr) as [Hw _].
  unfold fill_bytes. erewrite bind_run by done. cbv zeta.
  set (k := rng_draw (w_rng w) KEY_LEN). set (w1 := World _ _ _ _).
  assert (ring_wf (push_key r k)) as Hw' by (apply push_key_wf; [done|apply rng_draw_length]).
  destruct (save_keeps r (push_key r k) w1 Hr Hw' (push_key_extends r k)) as (r' & Hr' & He).
  exists r'. unfold bind. by destruct (save_keyring dd sid (push_key r k) w1) as [[] ?].
Qed.

Lemma install_epoch_keeps epoch key :
  length key = KEY_LEN -> keeps_ring (install_epoch_key dd sid epoch key).
Proof.
  intros Hk. apply bind_load_keeps. intros w r Hr.
  pose proof (disk_ring_data _ _ _ _ Hr) as [Hw _]. cbv zeta.
  case_match; [|case_match; [|case_match]].
  - unfold bind, lift. destruct (expect _); simpl; [|by apply disk_ring_same..].
    case_decide; by apply disk_ring_same.
  - by apply disk_ring_same.
  - by apply disk_ring_same.
  - assert (ring_wf (push_key r key)) as Hw' by by apply push_key_wf.
    destruct (save_keeps r _ w Hr Hw' (push_key_extends r key)) as (r' & Hr' & He).
    exists r'. unfold bind. by destruct (save_keyring dd sid (push_key r key) w) as [[] ?].
Qed.

Lemma install_keeps ks : keeps_ring (install_keyring dd sid ks).
Proof.
  intros w r Hu Hr. pose proof (disk_ring_data _ _ _ _ Hr) as [_ Hd].
  unfold install_keyring. rewrite keys_path_eq.
  erewrite bind_run by by eapply fs_exists_data. by apply disk_ring_same.
Qed.
End monotone.

Lemma load_keyring_same `{MD : Metadata, Entropy} dd sid w r r' w' :
  unreadable w (kfile dd sid) = false -> disk_ring dd sid (w_fs w) = Some r -> load_or_create_keyring dd sid w = (Ok r', w') ->
  r' = r /\ w_fs w' = w_fs w.
Proof.
  intros Hu Hr Hl. pose proof (load_keyring_disk dd sid w r Hu Hr) as Hd. rewrite Hl in Hd.
  destruct Hd as [Hfs [[= ->]|[e [=]]]]. done.
Qed.

(** A rotation that succeeds appends one key to the ring on disk. *)
Lemma rotate_keyring_Ok `{MD : Metadata, Entropy} dd sid w e w' :
  rotate_keyring dd sid w = (Ok e, w') ->
  exists r0 k, length k = KEY_LEN /\ e = current_epoch r0 + 1 /\
    disk_ring dd sid (w_fs w') = Some (push_key r0 k) /\
    (unreadable w (kfile dd sid) = false -> forall r, disk_ring dd sid (w_fs w) = Some r -> r0 = r).
Proof.
  unfold rotate_keyring. intros Hr. inv_ok.
  match goal with H1 : load_or_create_keyring _ _ _ = (Ok ?r, ?w1) |- _ =>
    rename H1 into Hl; rename r into r0; rename w1 into wl end.
  match goal with H1 : fill_bytes _ _ = _ |- _ => injection H1 as <- <- end.
  match goal with H1 : save_keyring _ _ (push_key _ ?k0) _ = _ |- _ =>
    exists r0, k0; apply save_keyring_Ok in H1 as Hs end.
  split; [apply rng_draw_length|]. split; [apply current_epoch_push|]. split.
  - apply disk_ring_bytes; [|by unfold data_at; rewrite Hs].
    apply push_key_wf; [by apply load_keyring_Ok in Hl as [? _]|apply rng_draw_length].
  - intros Hu r Hd. by destruct (load_keyring_same dd sid _ _ _ _ Hu Hd Hl).
Qed.

Lemma disk_ring_touches {A : Type} (S : path -> Prop) (m : M A) dd sid w :
  touches S m -> ~ S (kfile dd sid) ->
  disk_ring dd sid (w_fs (snd (m w))) = disk_ring dd sid (w_fs w).
Proof. intros Hm Hs. unfold disk_ring, data_at. by rewrite (Hm w _ Hs). Qed.

(** *** Installing on a working disk *)

Lemma install_epoch_key_run `{MD : Metadata, Entropy} (dd : path) (sid : string) (w : world) (r : KeyRing)
    (epoch : Z) (key : Key) :
  w_faults w = [] -> share_ready dd sid (w_fs w) -> disk_ring dd sid (w_fs w) = Some r ->
  length key = KEY_LEN ->
  let res := install_epoch_key dd sid epoch key w in
  let n := current_epoch r in
  (epoch = n -> key_for_epoch r n = Some key -> res = (Ok Idempotent, w)) /\
  (epoch = n -> key_for_epoch r n <> Some key -> res = (Err (EEpochConflict n), w)) /\
  (epoch < n -> res = (Ok Stale, w)) /\
  (n + 1 < epoch -> res = (Ok (Gap n epoch), w)) /\
  (epoch = n + 1 -> exists fs', res = (Ok Installed, set_fs fs' w) /\
     disk_ring dd sid fs' = Some (push_key r key) /\ share_ready dd sid fs').
Proof.
  intros Hf Hready Hr Hk.
  apply disk_ring_data in Hr as [Hw Hd]. cbv zeta. unfold install_epoch_key.
  rewrite (bind_run _ _ _ r w).
  2: { rewrite (load_keyring_run dd sid w _ Hf Hd). by rewrite parse_ring_bytes. }
  destruct (ring_wf_current_key r Hw) as [k Hcur]. apply current_key_epoch in Hcur.
  destruct (save_keyring_run dd sid (push_key r key) w Hf Hready) as (fs' & Es & Hrd).
  cbv zeta. rewrite Hcur.
  destruct (Z.eqb_spec epoch (current_epoch r)), (Z.ltb_spec epoch (current_epoch r)),
    (Z.ltb_spec (current_epoch r + 1) epoch); subst; try lia;
    repeat (split; [intros; try lia; try done|]); try (intros; lia).
  - rewrite Hcur. unfold bind, lift. simpl. case_decide; [done|congruence].
  - rewrite Hcur. unfold bind, lift. simpl. case_decide; [congruence|done].
  - intros _. exists fs'. rewrite (bind_run _ _ _ tt (set_fs fs' w)) by done. split; [done|]. split; [|done].
    apply save_keyring_Ok in Es. change (w_fs (set_fs fs' w)) with fs' in Es.
    apply disk_ring_bytes; [by apply push_key_wf|].
    unfold data_at. by rewrite Es.
Qed.

(** ** Lemmas: blobs *)

Lemma encrypt_opens `{Entropy, Aead} (r : KeyRing) (p blob : bytes) (w w' : world) :
  current_epoch r <= u64_max -> encrypt r p w = (Ok blob, w') ->
  w_fs w' = w_fs w /\ forall r',
  (ring_extends r r' -> decrypt r' blob = Ok p) /\
  (current_epoch r' < current_epoch r ->
   decrypt r' blob = Err (ENoKey (current_epoch r) (current_epoch r'))).
Proof.
  intros Hn He. unfold encrypt in He. inv_ok.
  match goal with H : fill_bytes _ _ = _ |- _ => injection H as <- <- end.
  match goal with H : current_key _ = _ |- _ => apply current_key_epoch in H as Hcur end.
  match goal with H : aead_encrypt _ _ _ = Some ?c |- _ =>
    rename H into Hae; rename c into ct end.
  assert (Hlen := aead_length _ _ _ _ Hae).
  assert (Hrng := rng_draw_length (w_rng w) NONCE_LEN).
  set (nonce := rng_draw (w_rng w) NONCE_LEN) in *.
  assert (0 <= current_epoch r) by (unfold current_epoch; lia).
  assert (Hshape : forall ring, decrypt ring (u64_le (current_epoch r) ++ nonce ++ ct) =
    try! k := ok_or (ENoKey (current_epoch r) (current_epoch ring))
                    (key_for_epoch ring (current_epoch r)) in
    ok_or EAead (aead_decrypt k nonce ct)).
  { intros ring. unfold decrypt, HEADER_LEN.
    rewrite !length_app, length_u64_le, Hrng, Hlen.
    destruct (Nat.ltb_spec (8 + (NONCE_LEN + (length p + 16))) (EPOCH_LEN + NONCE_LEN + TAG_LEN));
      [unfold EPOCH_LEN, TAG_LEN in *; lia|].
    rewrite take_app_length' by by rewrite length_u64_le.
    rewrite drop_app_length' by by rewrite length_u64_le.
    rewrite take_app_length' by done.
    rewrite (app_assoc (u64_le _)), drop_app_length'
      by by rewrite length_app, length_u64_le, Hrng.
    by rewrite u64_le_decode. }
  split; [done|]. intros r'. split; intros Hx; rewrite Hshape.
  - erewrite key_for_epoch_extends by done. simpl. by erewrite aead_decrypt_encrypt.
  - destruct (key_for_epoch r' (current_epoch r)) eqn:E; [|done].
    assert (is_Some (key_for_epoch r' (current_epoch r))) as Hs by eauto.
    apply key_for_epoch_range in Hs. lia.
Qed.

(** ** Properties *)

(** A keyring that was saved is read back unchanged by the next load, and its
    file is readable by its owner only. *)
Theorem keyring_round_trip `{MD : Metadata, Entropy} (dd : path) (sid : string) (r : KeyRing) (w w' : world)
    (Hwf : ring_wf r) (Hs : save_keyring dd sid r w = (Ok tt, w')) (Hf : w_faults w' = []) :
  load_or_create_keyring dd sid w' = (Ok r, w') /\
  f_mode <$> file_at (w_fs w') (keys_path dd sid) = Some mode_0600.
Proof.
  apply save_keyring_Ok in Hs as Hfile. rewrite keys_path_eq. split.
  - rewrite (load_keyring_run dd sid w' (ring_bytes r) Hf).
    + by rewrite parse_ring_bytes.
    + unfold data_at. by rewrite Hfile.
  - by rewrite Hfile.
Qed.

(** C13. Old keys are never deleted: from any world whose [keys.bin] parses, and
    under any pattern of I/O failures, each of the four operations on the
    keyring leaves a [keys.bin] that parses and holds every former key at its
    epoch (a crash between write and rename included), as long as the
    metadata of [keys.bin] can be read when the operation starts. *)
Theorem keyring_monotone `{MD : Metadata, Entropy} (dd : path) (sid : string) (w : world) (r : KeyRing)
    (Hr : disk_ring dd sid (w_fs w) = Some r)
    (Hu : unreadable w (keys_path dd sid) = false)
    (epoch : Z) (key : Key) (ks : list Key) (Hk : length key = KEY_LEN) :
  (exists r', disk_ring dd sid (w_fs (snd (load_or_create_keyring dd sid w))) = Some r' /\
     ring_extends r r') /\
  (exists r', disk_ring dd sid (w_fs (snd (rotate_keyring dd sid w))) = Some r' /\
     ring_extends r r') /\
  (exists r', disk_ring dd sid (w_fs (snd (install_epoch_key dd sid epoch key w))) = Some r' /\
     ring_extends r r') /\
  (exists r', disk_ring dd sid (w_fs (snd (install_keyring dd sid ks w))) = Some r' /\
     ring_extends r r').
Proof.
  rewrite keys_path_eq in Hu. split; [by apply load_keeps|]. split; [by apply rotate_keeps|].
  split; [by apply install_epoch_keeps | by apply install_keeps].
Qed.

(** [install_epoch_key] on a working disk: the current epoch is idempotent
    for the same key and an error for another one, older epochs are dropped,
    epochs beyond the next are reported as a gap, and only the next epoch
    changes the disk, by appending its key. *)
Theorem install_epoch_key_cases `{MD : Metadata, Entropy} (dd : path) (sid : string) (w : world) (r : KeyRing)
    (Hf : w_faults w = []) (Hready : share_ready dd sid (w_fs w))
    (Hr : disk_ring dd sid (w_fs w) = Some r) (epoch : Z) (key : Key)
    (Hk : length key = KEY_LEN) :
  let res := install_epoch_key dd sid epoch key w in
  let n := current_epoch r in
  (epoch = n -> key_for_epoch r n = Some key -> res = (Ok Idempotent, w)) /\
  (epoch = n -> key_for_epoch r n <> Some key -> res = (Err (EEpochConflict n), w)) /\
  (epoch < n -> res = (Ok Stale, w)) /\
  (n + 1 < epoch -> res = (Ok (Gap n epoch), w)) /\
  (epoch = n + 1 -> fst res = Ok Installed /\
     disk_ring dd sid (w_fs (snd res)) = Some (push_key r key)).
Proof.
  destruct (install_epoch_key_run dd sid w r epoch key Hf Hready Hr Hk) as (H1 & H2 & H3 & H4 & H5).
  cbv zeta. do 4 (split; [done|]). intros He. destruct (H5 He) as (fs' & -> & Hd & _). done.
Qed.

(** C30. A blob decrypts to its plaintext with any later state of the keyring that
    produced it, and a peer that never received the blob's epoch key (one
    that was revoked before it) is told exactly that. *)
Theorem decrypt_encrypt `{Entropy, Aead} (r r' old : KeyRing) (p blob : bytes) (w w' : world)
    (Hn : current_epoch r <= u64_max) (He : encrypt r p w = (Ok blob, w')) :
  (ring_extends r r' -> decrypt r' blob = Ok p) /\
  (current_epoch old < current_epoch r ->
   decrypt old blob = Err (ENoKey (current_epoch r) (current_epoch old))).
Proof.
  destruct (encrypt_opens r p blob w w' Hn He) as [_ Hd]. split; apply Hd.
Qed.

(** [decrypt] fails in exactly three ways, tried in this order: the blob is
    shorter than header and tag, its epoch has no key, the AEAD rejects it. *)
Theorem decrypt_total `{Aead} (r : KeyRing) (blob : bytes) :
  let e := le_decode (take EPOCH_LEN blob) in
  (decrypt r blob = Err (ETooShort (length blob)) <-> (length blob < 48)%nat) /\
  (decrypt r blob = Err (ENoKey e (current_epoch r)) <->
     (48 <= length blob)%nat /\ ~ 1 <= e <= current_epoch r) /\
  (decrypt r blob = Err EAead <->
     (48 <= length blob)%nat /\ exists k, key_for_epoch r e = Some k /\
     aead_decrypt k (take NONCE_LEN (drop EPOCH_LEN blob)) (drop HEADER_LEN blob) = None) /\
  decrypt r blob <> Panic.
Proof.
  cbv zeta. unfold decrypt. change (HEADER_LEN + TAG_LEN)%nat with 48%nat.
  destruct (Nat.ltb_spec (length blob) 48).
  - repeat split; try done; intros; naive_solver lia.
  - rewrite <- key_for_epoch_range.
    destruct (key_for_epoch r _) as [k|] eqn:E; simpl.
    + destruct (aead_decrypt _ _ _) eqn:Ea; simpl.
      * split; [split; [done|lia]|]. split; [split; [done|by intros [_ Hno]; destruct Hno; eexists]|].
        split; [split; [done|intros (_ & k' & [= <-] & ?); congruence]|done].
      * split; [split; [done|lia]|]. split; [split; [done|by intros [_ Hno]; destruct Hno; eexists]|].
        split; [split; [by eauto|done]|done].
    + split; [split; [done|lia]|]. split; [split; [intros _; split; [done|by intros []]|done]|].
      split; [split; [done|by intros (_ & k' & ? & ?)]|done].
Qed.

(** ** Witnesses *)

Section witnesses.
#[local] Existing Instance toy_metadata.
#[local] Existing Instance toy_entropy.
#[local] Existing Instance toy_aead.

Definition w_dd : path := ["data"].
Definition w_sid : string := "5ha4e".
Definition w_ring : KeyRing := {| keys := [replicate 32 Byte.x01; replicate 32 Byte.x02] |}.
Definition w_ring1 : KeyRing := {| keys := [replicate 32 Byte.x01] |}.
Definition w_saved : world := snd (save_keyring w_dd w_sid w_ring (world_of root_fs)).

Lemma w_ring_wf : ring_wf w_ring.
Proof. split; [done|]. by repeat constructor. Qed.

Lemma keyring_round_trip_witness :
  load_or_create_keyring w_dd w_sid w_saved = (Ok w_ring, w_saved) /\
  f_mode <$> file_at (w_fs w_saved) (keys_path w_dd w_sid) = Some mode_0600.
Proof.
  apply (keyring_round_trip w_dd w_sid w_ring (world_of root_fs) w_saved).
  - exact w_ring_wf.
  - vm_compute. reflexivity.
  - vm_compute. reflexivity.
Defined.

(** The fault plan lets [create_dir_all] and the write through and fails the
    rename. *)
Definition w_faulty : world :=
  World (w_fs w_saved) [FNone; FNone; FNone; FOpen] 0 0.

Lemma keyring_monotone_witness :
  exists r', disk_ring w_dd w_sid (w_fs (snd (rotate_keyring w_dd w_sid w_faulty))) = Some r' /\
     ring_extends w_ring r'.
Proof.
  destruct (keyring_monotone w_dd w_sid w_faulty w_ring) with (epoch := 3)
    (key := replicate 32 Byte.x09) (ks := @nil Key) as (_ & Hr & _).
  - vm_compute. reflexivity.
  - vm_compute. reflexivity.
  - reflexivity.
  - exact Hr.
Defined.

Lemma w_ready : share_ready w_dd w_sid (w_fs w_saved).
Proof.
  split; [|split].
  - intros q Hq. unfold ancestors in Hq. apply list_elem_of_fmap in Hq as (i & -> & Hi).
    apply elem_of_seq in Hi. simpl in Hi.
    destruct i as [|[|[|[|i]]]]; [right; vm_compute; reflexivity..|lia].
  - right. eexists. vm_compute. reflexivity.
  - left. vm_compute. reflexivity.
Qed.

Lemma install_epoch_key_cases_witness :
  fst (install_epoch_key w_dd w_sid 3 (replicate 32 Byte.x09) w_saved) = Ok Installed /\
  disk_ring w_dd w_sid (w_fs (snd (install_epoch_key w_dd w_sid 3 (replicate 32 Byte.x09) w_saved)))
    = Some (push_key w_ring (replicate 32 Byte.x09)).
Proof.
  apply (install_epoch_key_cases w_dd w_sid w_saved w_ring) with (epoch := 3)
    (key := replicate 32 Byte.x09).
  - vm_compute. reflexivity.
  - exact w_ready.
  - vm_compute. reflexivity.
  - reflexivity.
  - reflexivity.
Defined.

Definition w_plain : bytes := [Byte.x68; Byte.x69].
Definition w_blob : bytes :=
  match fst (encrypt w_ring w_plain (world_of root_fs)) with Ok b => b | _ => [] end.

Lemma decrypt_encrypt_witness :
  decrypt (push_key w_ring (replicate 32 Byte.x09)) w_blob = Ok w_plain /\
  decrypt w_ring1 w_blob = Err (ENoKey 2 1).
Proof.
  destruct (decrypt_encrypt w_ring (push_key w_ring (replicate 32 Byte.x09)) w_ring1 w_plain w_blob
    (world_of root_fs) (snd (encrypt w_ring w_plain (world_of root_fs)))) as [H1 H2].
  - vm_compute. discriminate.
  - vm_compute. reflexivity.
  - split; [apply H1; eexists; reflexivity | apply H2; reflexivity].
Defined.

(** A host that, in the course of a failure, cannot read the metadata of the
    keyring: the file is there and can be read. *)
Definition w_blind : Metadata := fun _ p => bool_decide (p = keys_path w_dd w_sid).
Definition w_before : world := World (w_fs w_saved) [FNone] 8 0.
#[local] Abbreviation blind_rotate :=
  (rotate_keyring (MD := w_blind) w_dd w_sid w_before).

(** [Path::exists] answers [false] for a file whose metadata cannot be read;
    the keyring is then taken to be absent, and a fresh one is written over
    it: all the keys of the share are lost. *)
Theorem unreadable_metadata_loses_keys :
  disk_ring w_dd w_sid (w_fs w_before) = Some w_ring /\
  fst blind_rotate = Ok 2 /\
  exists r', disk_ring w_dd w_sid (w_fs (snd blind_rotate)) = Some r' /\
    Forall (fun k => k ∉ keys r') (keys w_ring).
Proof.
  split; [vm_compute; reflexivity|]. split; [vm_compute; reflexivity|].
  eexists. split; [vm_compute; reflexivity|].
  apply (bool_decide_unpack _). vm_compute. constructor.
Qed.
End witnesses.
