(* ===== verification/Auth.v ===== *)
(** * Share membership: the signed operation log ([src/auth.rs])

    Members are raw Ed25519 public keys.  Every membership change is a signed
    operation naming the operations it depends on; [AuthState] holds the
    applied operations in causal order, the ones whose dependencies have not
    arrived, and the state of the group CRDT of [p2panda_auth], which is a
    parameter. *)

From S2P Require Import Prelude World External Instances Share.

(** ** Identifiers *)

Abbreviation MemberId := bytes.
Abbreviation OpId := bytes.

(** [format!("{:02x}")] of every byte. *)
Definition to_hex (m : MemberId) : string := bytes_string (hex_encode m).

(** [str::is_char_boundary]: not inside a multi-byte character. *)
Definition is_char_boundary (s : bytes) (i : nat) : bool :=
  if decide (i = 0%nat \/ i = length s) then true
  else match s !! i with
       | Some c => negb ((128 <=? Z_of_byte c) && (Z_of_byte c <? 192))
       | None => false
       end.

Definition hex_value (c : byte) : option Z :=
  let z := Z_of_byte c in
  if (48 <=? z) && (z <? 58) then Some (z - 48)
  else if (97 <=? z) && (z <? 103) then Some (z - 87)
  else if (65 <=? z) && (z <? 71) then Some (z - 55)
  else None.

Fixpoint radix16 (acc : Z) (s : bytes) : option Z :=
  match s with
  | [] => Some acc
  | c :: s =>
      match hex_value c with
      | Some d => let v := 16 * acc + d in if 255 <? v then None else radix16 v s
      | None => None
      end
  end.

(** [u8::from_str_radix(_, 16)]: a leading [+] is accepted. *)
Definition from_str_radix (s : bytes) : option Z :=
  match s with
  | [] => None
  | [c] => radix16 0 [c]
  | c :: s' => if decide (c = Byte.x2b) then radix16 0 s' else radix16 0 s
  end.

(** The loop of [from_hex] from index [i] on, [k] turns left; slicing inside a
    character panics. *)
Fixpoint from_hex_loop (s : bytes) (k i : nat) : outcome bytes :=
  match k with
  | O => Ok []
  | S k =>
      if is_char_boundary s (2 * i) && is_char_boundary s (2 * i + 2) then
        match from_str_radix (take 2 (drop (2 * i) s)) with
        | Some v =>
            try! rest := from_hex_loop s k (S i) in
            Ok (byte_of_Z v :: rest)
        | None => Err (EBadHexByte (2 * i))
        end
      else Panic
  end.

Definition from_hex (s : string) : outcome MemberId :=
  let b := string_bytes s in
  if decide (length b = 64%nat) then from_hex_loop b 32 0
  else Err (EBadHexLen (length b)).

(** ** Roles and access levels *)

Inductive AuthRole := Owner | Writer | Reader.

(** [p2panda_auth::AccessLevel]; conditions are [()] throughout. *)
Inductive AccessLevel := Pull | Read | Write | Manage.

#[export] Instance AuthRole_eq_dec : EqDecision AuthRole.
Proof. solve_decision. Defined.
#[export] Instance AccessLevel_eq_dec : EqDecision AccessLevel.
Proof. solve_decision. Defined.

Definition to_access (r : AuthRole) : AccessLevel :=
  match r with Owner => Manage | Writer => Write | Reader => Read end.

Definition from_access (a : AccessLevel) : AuthRole :=
  match a with
  | Manage => Owner
  | Write => Writer
  | Read | Pull => Reader
  end.

Definition role_display (r : AuthRole) : string :=
  match r with Owner => "owner" | Writer => "writer" | Reader => "reader" end.

(** ** Operations

    The actions the program builds; [OtherAction] stands for the remaining
    actions of [p2panda_auth], which it only carries. *)
Inductive GroupAction :=
  | Create (initial_members : list (MemberId * AccessLevel))
  | Add (member : MemberId) (access : AccessLevel)
  | Remove (member : MemberId)
  | OtherAction (raw : bytes).

Record GroupControlMessage := { gm_group_id : MemberId; gm_action : GroupAction }.

Record SignedOp := {
  op_author : MemberId;
  op_deps : list OpId;
  op_payload : GroupControlMessage;
  op_signature : bytes;
}.

#[export] Instance GroupAction_eq_dec : EqDecision GroupAction.
Proof. solve_decision. Defined.
#[export] Instance GroupControlMessage_eq_dec : EqDecision GroupControlMessage.
Proof. solve_decision. Defined.
#[export] Instance SignedOp_eq_dec : EqDecision SignedOp.
Proof. solve_decision. Defined.

Definition SIGNATURE_LEN : nat := 64.

(** [serde_bytes_64::deserialize], after [Vec::deserialize] *)
Definition deserialize_bytes_64 (v : bytes) : outcome bytes :=
  if decide (length v = SIGNATURE_LEN) then Ok v else Err (EBadLength (length v)).

Abbreviation canonical_tuple := (MemberId * list OpId * GroupControlMessage)%type.

Section signed_op.
Context `{MD : Metadata, Blake3, Ed25519} `{!Bincode canonical_tuple, !BincodeTotal canonical_tuple}.
Context `{!Bincode SignedOp}.

Definition canonical_bytes (op : SignedOp) : bytes :=
  bin_expect (op_author op, op_deps op, op_payload op).

Definition compute_id (op : SignedOp) : OpId :=
  blake3 (canonical_bytes op ++ op_signature op).

Definition verify (op : SignedOp) : outcome unit :=
  if negb (pk_from_bytes (op_author op)) then Err (EMsg "invalid author pubkey") else
  if negb (sig_verify (op_author op) (canonical_bytes op) (op_signature op))
  then Err (EMsg "signature verification failed")
  else Ok tt.

Definition op_encode (op : SignedOp) : outcome bytes :=
  ok_or (EMsg "encoding signed op") (bin_encode op).

Definition op_decode (b : bytes) : outcome SignedOp :=
  ok_or (EMsg "decoding signed op") (fst <$> bin_decode b).
End signed_op.

(** ** The group CRDT of [p2panda_auth]

    [crdt_process] is [GroupCrdt::process]; [None] is its error.  The heads
    are those of the operation graph: initially none, and an operation only
    ever adds itself. *)
Class GroupCrdt `{Blake3} `{!Bincode canonical_tuple, !BincodeTotal canonical_tuple} := {
  CrdtState : Type;
  crdt_new : CrdtState;
  crdt_process : CrdtState -> SignedOp -> option CrdtState;
  crdt_heads : CrdtState -> list OpId;
  crdt_members : CrdtState -> MemberId -> list (MemberId * AccessLevel);
  crdt_heads_new : crdt_heads crdt_new = [];
  crdt_heads_process : forall s op s' h,
    crdt_process s op = Some s' -> h ∈ crdt_heads s' ->
    h = compute_id op \/ h ∈ crdt_heads s;
}.

(** ** [AuthState] *)

Section auth_state.
Context `{MD : Metadata, Blake3, Ed25519} `{!Bincode canonical_tuple, !BincodeTotal canonical_tuple}.
Context `{!Bincode (list SignedOp)} `{!GroupCrdt}.

Record AuthState := {
  crdt : CrdtState;
  ops : list SignedOp;
  pending : list SignedOp;
}.

Definition auth_empty : AuthState := {| crdt := crdt_new; ops := []; pending := [] |}.

Definition auth_is_empty (st : AuthState) : bool := bool_decide (ops st = []).

Definition known (st : AuthState) : list OpId := compute_id <$> ops st.

(** [op.deps.iter().all(|d| known.contains(d))] *)
Definition deps_known (kn : list OpId) (op : SignedOp) : bool :=
  forallb (fun d => bool_decide (d ∈ kn)) (op_deps op).

(** [mem::replace] has already put a fresh CRDT in place when [process]
    fails. *)
Definition process (op : SignedOp) (st : AuthState) : outcome unit * AuthState :=
  let prev := crdt st in
  let st := {| crdt := crdt_new; ops := ops st; pending := pending st |} in
  match crdt_process prev op with
  | None => (Err (EMsg "auth crdt error"), st)
  | Some next => (Ok tt, {| crdt := next; ops := ops st ++ [op]; pending := pending st |})
  end.

(** The loop of [drain_pending]; every turn removes one pending operation, so
    its length is fuel enough. *)
Fixpoint drain_pending_loop (fuel : nat) (st : AuthState) : outcome unit * AuthState :=
  match fuel with
  | O => (Ok tt, st)
  | S fuel =>
      match position (deps_known (known st)) (pending st) with
      | Some idx =>
          match pending st !! idx with
          | Some op =>
              let st := {| crdt := crdt st; ops := ops st;
                           pending := delete idx (pending st) |} in
              match process op st with
              | (Ok tt, st) => drain_pending_loop fuel st
              | r => r
              end
          | None => (Panic, st)
          end
      | None => (Ok tt, st)
      end
  end.

Definition drain_pending (st : AuthState) : outcome unit * AuthState :=
  drain_pending_loop (S (length (pending st))) st.

Definition apply_remote (op : SignedOp) (st : AuthState) : outcome bool * AuthState :=
  match verify op with
  | Err e => (Err (ECtx "verifying remote auth op" e), st)
  | Panic => (Panic, st)
  | Ok tt =>
      let id := compute_id op in
      if bool_decide (id ∈ known st) || bool_decide (id ∈ (compute_id <$> pending st))
      then (Ok false, st)
      else if negb (deps_known (known st) op)
      then (Ok false, {| crdt := crdt st; ops := ops st; pending := pending st ++ [op] |})
      else
        match process op st with
        | (Ok tt, st) =>
            match drain_pending st with
            | (Ok tt, st) => (Ok true, st)
            | (Err e, st) => (Err e, st)
            | (Panic, st) => (Panic, st)
            end
        | (Err e, st) => (Err e, st)
        | (Panic, st) => (Panic, st)
        end
  end.

(** Construct, sign and apply a local operation. *)
Definition author (my_key : bytes) (group_id : MemberId) (action : GroupAction)
    (st : AuthState) : outcome SignedOp * AuthState :=
  let me := public_key my_key in
  let deps := crdt_heads (crdt st) in
  let payload := {| gm_group_id := group_id; gm_action := action |} in
  match bin_encode (me, deps, payload) with
  | None => (Err (ECtx "encoding canonical op" (EMsg "bincode")), st)
  | Some canonical =>
      let op := {| op_author := me; op_deps := deps; op_payload := payload;
                   op_signature := sign my_key canonical |} in
      match process op st with
      | (Ok tt, st) => (Ok op, st)
      | (Err e, st) => (Err (ECtx "applying locally-authored auth op" e), st)
      | (Panic, st) => (Panic, st)
      end
  end.

Definition create_group (my_key : bytes) (group_id : MemberId) (st : AuthState)
    : outcome SignedOp * AuthState :=
  if negb (auth_is_empty st)
  then (Err (EMsg "auth state already has operations; refusing to re-create group"), st)
  else author my_key group_id (Create [(public_key my_key, Manage)]) st.

Definition add_member (my_key : bytes) (group_id new_member : MemberId) (role : AuthRole)
    (st : AuthState) : outcome SignedOp * AuthState :=
  author my_key group_id (Add new_member (to_access role)) st.

Definition remove_member (my_key : bytes) (group_id member : MemberId)
    (st : AuthState) : outcome SignedOp * AuthState :=
  author my_key group_id (Remove member) st.

Definition members (st : AuthState) (group_id : MemberId) : list (MemberId * AuthRole) :=
  (fun ma => (ma.1, from_access ma.2)) <$> crdt_members (crdt st) group_id.

Definition is_member (st : AuthState) (group_id member : MemberId) : bool :=
  existsb (fun ma => bool_decide (ma.1 = member)) (crdt_members (crdt st) group_id).

Definition group_id_for (share_id : string) : MemberId :=
  blake3 (string_bytes "peerdup-group/" ++ string_bytes share_id).

(** ** The log on disk *)

Definition auth_log_path (data_dir : path) (share_id : string) : path :=
  join (share_dir data_dir share_id) "auth.log".

(** Apply a list of operations in order, stopping at the first error. *)
Fixpoint replay (l : list SignedOp) (st : AuthState) : outcome unit * AuthState :=
  match l with
  | [] => (Ok tt, st)
  | op :: l =>
      match apply_remote op st with
      | (Ok _, st) => replay l st
      | (Err e, st) => (Err (ECtx "replaying op" e), st)
      | (Panic, st) => (Panic, st)
      end
  end.

Definition auth_load (data_dir : path) (share_id : string) : M AuthState :=
  let p := auth_log_path data_dir share_id in
  let! ex := fs_exists p in
  if negb ex then ret auth_empty else
  let! raw := ctx "reading" (fs_read p) in
  let! l := lift (ok_or (EMsg "decoding auth.log") (fst <$> bin_decode raw)) in
  let '(r, st) := replay l auth_empty in
  let! _ := lift r in
  if decide (pending st = []) then ret st
  else fail (EPendingLeft (length (pending st))).

Definition auth_save (data_dir : path) (share_id : string) (st : AuthState) : M unit :=
  let p := auth_log_path data_dir share_id in
  ctx "create_dir_all" (fs_create_dir_all (parent p)) ;;;
  let! raw := lift (ok_or (EMsg "encoding auth log") (bin_encode (ops st))) in
  let tmp := with_extension p "log.tmp" in
  ctx "writing" (fs_write tmp raw) ;;;
  ctx "renaming" (fs_rename tmp p) ;;;
  ctx "chmod 0600" (fs_set_mode p mode_0600).
End auth_state.

(** ** Specification *)

Section spec.
Context `{MD : Metadata, Blake3, Ed25519} `{!Bincode canonical_tuple, !BincodeTotal canonical_tuple}.
Context `{!GroupCrdt}.

Definition ids (l : list SignedOp) : list OpId := compute_id <$> l.

(** Every operation comes after the operations it depends on. *)
Fixpoint causal (kn : list OpId) (l : list SignedOp) : Prop :=
  match l with
  | [] => True
  | op :: l => deps_known kn op = true /\ causal (compute_id op :: kn) l
  end.

Definition verified (op : SignedOp) : Prop := verify op = Ok tt.

(** The CRDT state after a log. *)
Definition crdt_run (l : list SignedOp) : option CrdtState :=
  foldl (fun s op => s ≫= fun s => crdt_process s op) (Some crdt_new) l.

(** The CRDT takes every causally ordered selection of these operations. *)
Definition crdt_accepts (U : SignedOp -> Prop) : Prop :=
  forall l, causal [] l -> NoDup (ids l) -> Forall U l -> is_Some (crdt_run l).

(** What holds of every reachable state: the log is causally ordered, every
    operation in it was verified, and the CRDT's heads are in the log. *)
Record auth_wf (st : AuthState) : Prop := {
  wf_causal : causal [] (ops st);
  wf_verified : Forall verified (ops st ++ pending st);
  wf_heads : forall h, h ∈ crdt_heads (crdt st) -> h ∈ known st;
}.

(** The state of a replica that received exactly the operations [D] and never
    had one refused. *)
Record auth_inv (st : AuthState) (D : list SignedOp) : Prop := {
  inv_causal : causal [] (ops st);
  inv_nodup : NoDup (ids (ops st ++ pending st));
  inv_deliv : forall op, op ∈ ops st ++ pending st <-> op ∈ D;
  inv_crdt : crdt_run (ops st) = Some (crdt st);
}.

Definition auth_stable (st : AuthState) : Prop :=
  Forall (fun p => deps_known (known st) p = false) (pending st).
End spec.

(** ** Lemmas: hexadecimal *)

Lemma hex_value_digit n : 0 <= n < 16 -> hex_value (hex_digit n) = Some n.
Proof.
  intros. unfold hex_value. rewrite hex_digit_Z by done.
  destruct (Z.ltb_spec n 10).
  - destruct (Z.leb_spec 48 (48 + n)), (Z.ltb_spec (48 + n) 58); simpl; try lia.
    f_equal. lia.
  - destruct (Z.leb_spec 48 (87 + n)), (Z.ltb_spec (87 + n) 58),
      (Z.leb_spec 97 (87 + n)), (Z.ltb_spec (87 + n) 103); simpl; try lia.
    f_equal. lia.
Qed.

Lemma from_str_radix_hex b : from_str_radix (hex_byte b) = Some (Z_of_byte b).
Proof.
  destruct (nibble_range b) as [Hh Hl]. unfold hex_byte, from_str_radix.
  rewrite decide_False.
  - unfold radix16. rewrite !hex_value_digit by done.
    destruct (Z.ltb_spec 255 (16 * 0 + Z_of_byte b / 16)); [lia|].
    pose proof (Z.div_mod (Z_of_byte b) 16). pose proof (Z_of_byte_range b).
    destruct (Z.ltb_spec 255 (16 * (16 * 0 + Z_of_byte b / 16) + Z_of_byte b `mod` 16));
      [lia|]. f_equal. lia.
  - intros E. apply (f_equal Z_of_byte) in E. rewrite hex_digit_Z in E by done.
    change (Z_of_byte Byte.x2b) with 43 in E. case_match; lia.
Qed.

Lemma hex_encode_ascii b c : c ∈ hex_encode b -> Z_of_byte c < 128.
Proof.
  unfold hex_encode. intros (y & Hc & _)%list_elem_of_bind. destruct (nibble_range y).
  unfold hex_byte in Hc. rewrite !elem_of_cons, elem_of_nil in Hc.
  destruct Hc as [->|[->|[]]]; rewrite hex_digit_Z by done; case_match; lia.
Qed.

Lemma ascii_boundary s i :
  (forall c, c ∈ s -> Z_of_byte c < 128) -> (i <= length s)%nat -> is_char_boundary s i = true.
Proof.
  intros Hs Hi. unfold is_char_boundary. case_decide as Hd; [done|].
  destruct (lookup_lt_is_Some_2 s i) as [c Hc]; [lia|]. rewrite Hc.
  apply list_elem_of_lookup_2, Hs in Hc. destruct (Z.leb_spec 128 (Z_of_byte c)); [lia|done].
Qed.

Lemma hex_encode_app a b : hex_encode (a ++ b) = hex_encode a ++ hex_encode b.
Proof. apply bind_app. Qed.

Lemma from_hex_loop_encode pre m :
  from_hex_loop (hex_encode (pre ++ m)) (length m) (length pre) = Ok m.
Proof.
  revert pre. induction m as [|x m IH]; intros pre; [done|].
  assert (Hlen := length_hex_encode (pre ++ x :: m)).
  rewrite length_app in Hlen. cbn [length] in *. cbn [from_hex_loop].
  rewrite !ascii_boundary by (try lia; apply hex_encode_ascii). cbn [andb].
  replace (take 2 (drop (2 * length pre) (hex_encode (pre ++ x :: m)))) with (hex_byte x).
  - rewrite from_str_radix_hex. specialize (IH (pre ++ [x])).
    rewrite <- app_assoc in IH. rewrite length_app in IH. simpl in IH.
    replace (length pre + 1)%nat with (S (length pre)) in IH by lia.
    rewrite IH. simpl. by rewrite byte_of_Z_of_byte.
  - rewrite hex_encode_app, drop_app_length' by by rewrite length_hex_encode. done.
Qed.

Lemma from_hex_loop_length s k i m : from_hex_loop s k i = Ok m -> length m = k.
Proof.
  revert i m. induction k as [|k IH]; intros i m; simpl; [by intros [= <-]|].
  case_match; [|done]. case_match; [|done]. intros (r & Hr & [= <-])%rbind_Ok.
  simpl. f_equal. eauto.
Qed.

Lemma from_hex_loop_ascii s k i :
  (forall c, c ∈ s -> Z_of_byte c < 128) -> (2 * (i + k) <= length s)%nat ->
  from_hex_loop s k i <> Panic.
Proof.
  revert i. induction k as [|k IH]; intros i Hs Hlen; cbn [from_hex_loop]; [done|].
  rewrite !ascii_boundary by (done || lia). simpl.
  case_match; [|done]. specialize (IH (S i) Hs ltac:(lia)).
  by destruct (from_hex_loop s k (S i)).
Qed.

(** ** Lemmas: the operation log *)

Section lemmas.
Context `{MD : Metadata, Blake3, Ed25519} `{!Bincode canonical_tuple, !BincodeTotal canonical_tuple}.
Context `{!GroupCrdt}.

Lemma deps_known_true kn op :
  deps_known kn op = true <-> forall d, d ∈ op_deps op -> d ∈ kn.
Proof.
  unfold deps_known. rewrite forallb_forall. setoid_rewrite <- list_elem_of_In.
  setoid_rewrite bool_decide_eq_true. done.
Qed.

Lemma deps_known_mono kn kn' op :
  (forall d, d ∈ kn -> d ∈ kn') -> deps_known kn op = true -> deps_known kn' op = true.
Proof. rewrite !deps_known_true. auto. Qed.

Lemma causal_mono kn kn' l :
  (forall d, d ∈ kn -> d ∈ kn') -> causal kn l -> causal kn' l.
Proof.
  revert kn kn'. induction l as [|op l IH]; intros kn kn' Hsub; simpl; [done|].
  intros [Hd Hl]. split; [by eapply deps_known_mono|].
  eapply IH; [|done]. set_solver.
Qed.

Lemma causal_snoc kn l op :
  causal kn (l ++ [op]) <-> causal kn l /\ deps_known (ids l ++ kn) op = true.
Proof.
  revert kn. induction l as [|x l IH]; intros kn; simpl; [tauto|].
  rewrite IH. unfold ids. simpl.
  assert (deps_known ((compute_id <$> l) ++ compute_id x :: kn) op = true <->
          deps_known (compute_id x :: (compute_id <$> l) ++ kn) op = true) as ->;
    [|tauto].
  rewrite !deps_known_true. by setoid_rewrite <- Permutation_middle.
Qed.

Lemma causal_middle kn l1 y l2 :
  causal kn (l1 ++ y :: l2) -> deps_known (ids l1 ++ kn) y = true.
Proof.
  revert kn. induction l1 as [|x l1 IH]; intros kn; simpl; [tauto|].
  intros [_ Hl]. apply IH in Hl. eapply deps_known_mono; [|done].
  unfold ids. simpl. set_solver.
Qed.

Lemma causal_snoc_nil l op :
  causal [] (l ++ [op]) <-> causal [] l /\ deps_known (ids l) op = true.
Proof. rewrite causal_snoc. by rewrite app_nil_r. Qed.

Lemma crdt_run_snoc l op :
  crdt_run (l ++ [op]) = crdt_run l ≫= fun s => crdt_process s op.
Proof. unfold crdt_run. by rewrite foldl_app. Qed.

Lemma ids_app l k : ids (l ++ k) = ids l ++ ids k.
Proof. apply fmap_app. Qed.

Lemma process_Ok op st st' :
  process op st = (Ok tt, st') ->
  exists s, crdt_process (crdt st) op = Some s /\
  st' = {| crdt := s; ops := ops st ++ [op]; pending := pending st |}.
Proof. unfold process. simpl. destruct (crdt_process _ _); naive_solver. Qed.

Lemma process_cases op st :
  (exists s, crdt_process (crdt st) op = Some s /\
     process op st = (Ok tt, {| crdt := s; ops := ops st ++ [op]; pending := pending st |})) \/
  (crdt_process (crdt st) op = None /\
     process op st = (Err (EMsg "auth crdt error"),
                      {| crdt := crdt_new; ops := ops st; pending := pending st |})).
Proof. unfold process. simpl. destruct (crdt_process _ _); eauto. Qed.

(** *** The invariant of every state *)

Lemma process_wf op st :
  auth_wf st -> verified op -> deps_known (known st) op = true ->
  auth_wf (snd (process op st)).
Proof.
  intros [Hc Hv Hh] Hop Hd.
  destruct (process_cases op st) as [(s & Hs & ->)|[_ ->]]; simpl; split; simpl; try done.
  - apply causal_snoc_nil. done.
  - rewrite <- app_assoc. apply Forall_app in Hv as [? ?].
    apply Forall_app. split; [done|]. by constructor.
  - intros h Hin. unfold known. simpl. rewrite fmap_app. simpl.
    destruct (crdt_heads_process _ _ _ _ Hs Hin) as [->|Hin']; [set_solver|].
    apply Hh in Hin'. unfold known in Hin'. set_solver.
  - rewrite crdt_heads_new. intros h Hin. by apply elem_of_nil in Hin.
Qed.

Lemma process_ops_prefix op st : ops st `prefix_of` ops (snd (process op st)).
Proof.
  destruct (process_cases op st) as [(s & _ & ->)|[_ ->]]; simpl; [by eexists|].
  by exists []; rewrite app_nil_r.
Qed.

Lemma pending_delete_wf st idx op :
  pending st !! idx = Some op -> auth_wf st ->
  auth_wf {| crdt := crdt st; ops := ops st; pending := delete idx (pending st) |} /\
  verified op.
Proof.
  intros Hi [Hc Hv Hh]. apply Forall_app in Hv as [Hv1 Hv2]. split.
  - split; try done. simpl. apply Forall_app. split; [done|]. by apply Forall_delete.
  - by eapply Forall_lookup_1 in Hi.
Qed.

Lemma drain_wf fuel st :
  auth_wf st ->
  auth_wf (snd (drain_pending_loop fuel st)) /\
  ops st `prefix_of` ops (snd (drain_pending_loop fuel st)).
Proof.
  revert st. induction fuel as [|fuel IH]; intros st Hwf; cbn [drain_pending_loop].
  - split; [done|]. by exists []; rewrite app_nil_r.
  - destruct (position _ _) as [idx|] eqn:Hp.
    2: { split; [done|]. by exists []; rewrite app_nil_r. }
    apply position_Some in Hp as (op & Hi & Hd). rewrite Hi. cbv zeta.
    destruct (pending_delete_wf st idx op Hi Hwf) as [Hwf' Hv].
    set (st1 := {| crdt := crdt st; ops := ops st; pending := delete idx (pending st) |}) in *.
    pose proof (process_wf op st1 Hwf' Hv Hd) as Hw2.
    pose proof (process_ops_prefix op st1) as Hp2.
    destruct (process op st1) as [[[]|e|] st2]; simpl in *; try done.
    destruct (IH st2 Hw2) as [? Hp3]. split; [done|]. by etrans.
Qed.

Lemma process_total op st :
  fst (process op st) <> Panic /\ pending (snd (process op st)) = pending st.
Proof. unfold process. by destruct (crdt_process _ _). Qed.

(** Every turn that goes on takes one operation off the queue. *)
Lemma drain_settles fuel extra st :
  (length (pending st) < fuel)%nat ->
  drain_pending_loop (fuel + extra) st = drain_pending_loop fuel st /\
  fst (drain_pending_loop fuel st) <> Panic /\
  (fst (drain_pending_loop fuel st) = Ok tt ->
   Forall (fun op => deps_known (known (snd (drain_pending_loop fuel st))) op = false)
     (pending (snd (drain_pending_loop fuel st)))).
Proof.
  revert st. induction fuel as [|fuel IH]; intros st Hlt; [lia|]. cbn [Nat.add drain_pending_loop].
  destruct (position _ _) as [idx|] eqn:Hp.
  2: { split; [done|]. split; [done|]. intros _. by apply position_None in Hp. }
  apply position_Some in Hp as (op & Hi & _). rewrite Hi. cbv zeta.
  set (st1 := {| crdt := crdt st; ops := ops st; pending := delete idx (pending st) |}).
  destruct (process_total op st1) as [Hnp Hpe].
  destruct (process op st1) as [[[]|e|] st2]; [|done..]. simpl in Hpe. apply IH. rewrite Hpe.
  pose proof (length_delete (pending st) idx ltac:(by eexists)). pose proof (lookup_lt_Some _ _ _ Hi). lia.
Qed.

Lemma apply_remote_wf op st :
  auth_wf st ->
  auth_wf (snd (apply_remote op st)) /\
  ops st `prefix_of` ops (snd (apply_remote op st)).
Proof.
  intros Hwf. unfold apply_remote.
  assert (Hrefl : ops st `prefix_of` ops st) by by exists []; rewrite app_nil_r.
  destruct (verify op) as [[]|e|] eqn:Hv; try done. cbv zeta.
  case_match; [done|]. destruct (deps_known (known st) op) eqn:Hd; simpl.
  - pose proof (process_wf op st Hwf Hv Hd) as Hw2.
    pose proof (process_ops_prefix op st) as Hp2.
    destruct (process op st) as [[[]|e|] st2]; simpl in *; try done.
    destruct (drain_wf (S (length (pending st2))) st2 Hw2) as [Hw3 Hp3].
    unfold drain_pending. destruct (drain_pending_loop _ st2) as [[[]|e|] st3]; simpl in *;
      (split; [done|by etrans]).
  - split; [|done]. destruct Hwf as [Hc Hvf Hh]. split; try done. simpl.
    rewrite app_assoc. apply Forall_app. split; [done|]. by constructor.
Qed.

Lemma author_verified k g a canonical deps :
  bin_encode (public_key k, deps, {| gm_group_id := g; gm_action := a |}) = Some canonical ->
  verified {| op_author := public_key k; op_deps := deps;
              op_payload := {| gm_group_id := g; gm_action := a |};
              op_signature := sign k canonical |}.
Proof.
  intros E. unfold verified, verify, canonical_bytes. simpl.
  rewrite pk_from_bytes_public. simpl.
  rewrite bin_expect_encode in E. injection E as <-. by rewrite sig_verify_sign.
Qed.

Lemma author_wf k g a st :
  auth_wf st ->
  auth_wf (snd (author k g a st)) /\
  (forall op, fst (author k g a st) = Ok op ->
     verified op /\ ops (snd (author k g a st)) = ops st ++ [op] /\
     gm_action (op_payload op) = a /\ op_author op = public_key k /\
     op_deps op = crdt_heads (crdt st)).
Proof.
  intros Hwf. unfold author. destruct (bin_encode _) as [canonical|] eqn:E; [|done].
  pose proof (author_verified _ _ _ _ _ E) as Hv. set (op := Build_SignedOp _ _ _ _) in *.
  assert (Hd : deps_known (known st) op = true).
  { apply deps_known_true. apply wf_heads, Hwf. }
  pose proof (process_wf op st Hwf Hv Hd) as Hw2.
  destruct (process op st) as [[[]|e|] st2] eqn:Ep; simpl in *; try done.
  split; [done|]. intros ? [= <-]. apply process_Ok in Ep as (s & _ & ->). done.
Qed.

Lemma auth_empty_wf : auth_wf auth_empty.
Proof.
  split; simpl; [done|constructor|]. rewrite crdt_heads_new.
  intros h Hh. by apply elem_of_nil in Hh.
Qed.

(** *** Delivery without refusals *)

Section delivery.
Context (U : SignedOp -> Prop) (Hacc : crdt_accepts U).

Lemma nodup_ids_prefix (l k : list SignedOp) : NoDup (ids (l ++ k)) -> NoDup (ids l).
Proof. rewrite ids_app. by intros [? _]%NoDup_app. Qed.

Lemma process_inv op st D :
  auth_inv st D -> (forall x, x ∈ D -> U x) -> U op ->
  deps_known (known st) op = true -> compute_id op ∉ ids (ops st ++ pending st) ->
  exists st', process op st = (Ok tt, st') /\ auth_inv st' (op :: D) /\
    pending st' = pending st.
Proof.
  intros [Hc Hnd Hdl Hr] HU Hop Hd Hnew.
  assert (Hc' : causal [] (ops st ++ [op])) by by apply causal_snoc_nil.
  assert (Hnd' : NoDup (ids ((ops st ++ [op]) ++ pending st))).
  { rewrite <- app_assoc. simpl. unfold ids. rewrite <- Permutation_middle.
    by constructor. }
  destruct (Hacc (ops st ++ [op])) as [s Hs]; [done| | |].
  { by apply nodup_ids_prefix in Hnd'. }
  { apply Forall_app. split; [|by repeat constructor].
    apply Forall_forall. intros x Hx. apply HU, Hdl. set_solver. }
  rewrite crdt_run_snoc, Hr in Hs. simpl in Hs.
  exists {| crdt := s; ops := ops st ++ [op]; pending := pending st |}.
  unfold process. simpl. rewrite Hs. split; [done|]. split; [|done].
  split; simpl; try done.
  - intros x. rewrite elem_of_cons, <- Hdl. set_solver.
  - rewrite crdt_run_snoc, Hr. done.
Qed.

Lemma drain_inv fuel st D :
  (length (pending st) < fuel)%nat ->
  auth_inv st D -> (forall x, x ∈ D -> U x) ->
  exists st', drain_pending_loop fuel st = (Ok tt, st') /\ auth_inv st' D /\ auth_stable st'.
Proof.
  revert st. induction fuel as [|fuel IH]; intros st Hfuel Hinv HU; [lia|].
  cbn [drain_pending_loop]. destruct (position _ _) as [idx|] eqn:Hp.
  2: { exists st. split; [done|]. split; [done|]. by apply position_None in Hp. }
  apply position_Some in Hp as (op & Hi & Hd). rewrite Hi. cbv zeta.
  pose proof (delete_Permutation _ _ _ Hi) as Hperm.
  set (st1 := {| crdt := crdt st; ops := ops st; pending := delete idx (pending st) |}).
  assert (Hnd : NoDup (ids (ops st ++ op :: pending st1))).
  { destruct Hinv as [_ Hnd _ _]. unfold ids in *. by rewrite Hperm in Hnd. }
  destruct (process_inv op st1 (ops st ++ pending st1)) as (st2 & -> & Hinv2 & Hp2); try done.
  - destruct Hinv as [Hc _ Hdl Hr]. split; try done. simpl.
    rewrite ids_app in *. apply NoDup_app in Hnd as (? & ? & Hnd).
    apply NoDup_app. split; [done|]. split; [set_solver|].
    by apply NoDup_cons in Hnd as [_ ?].
  - intros x Hx. apply HU. destruct Hinv as [_ _ Hdl _]. apply Hdl. rewrite Hperm. set_solver.
  - apply HU. destruct Hinv as [_ _ Hdl _]. apply Hdl. rewrite Hperm. set_solver.
  - rewrite ids_app in Hnd |- *. apply NoDup_app in Hnd as (? & Hx & Hnd).
    apply NoDup_cons in Hnd as [? ?]. simpl. rewrite elem_of_app. intros [Hin|Hin]; [|done].
    apply (Hx _ Hin). set_solver.
  - destruct (IH st2) as (st' & ? & ? & ?); [|..|by exists st'].
    + rewrite Hp2. simpl. apply Permutation_length in Hperm. simpl in Hperm. lia.
    + destruct Hinv as [_ _ Hdl _], Hinv2 as [? ? Hdl2 ?]. split; try done.
      intros x. rewrite Hdl2, <- Hdl, Hperm. set_solver.
    + done.
Qed.

(** One delivery: never refused, and the replica settles again. *)
Lemma apply_remote_inv op st D :
  auth_inv st D -> auth_stable st -> (forall x, x ∈ D -> U x) -> U op -> verified op ->
  (forall x, x ∈ D -> compute_id x = compute_id op -> x = op) ->
  exists b st', apply_remote op st = (Ok b, st') /\ auth_inv st' (op :: D) /\ auth_stable st'.
Proof.
  intros Hinv Hst HU Hop Hv Hinj. unfold apply_remote. rewrite Hv. cbv zeta.
  destruct (bool_decide (compute_id op ∈ known st) ||
            bool_decide (compute_id op ∈ compute_id <$> pending st)) eqn:Hdup.
  - exists false, st. split; [done|]. split; [|done].
    assert (op ∈ D) as Hin.
    { rewrite orb_true_iff, !bool_decide_eq_true in Hdup.
      destruct Hinv as [_ _ Hdl _].
      assert (compute_id op ∈ compute_id <$> (ops st ++ pending st)) as Hx
        by (rewrite fmap_app; unfold known in Hdup; set_solver).
      apply list_elem_of_fmap in Hx as (x & E & Hx). apply Hdl in Hx.
      by rewrite <- (Hinj x). }
    destruct Hinv as [? ? Hdl ?]. split; try done. intros x. rewrite Hdl. set_solver.
  - assert (Hnew : compute_id op ∉ ids (ops st ++ pending st)).
    { apply orb_false_iff in Hdup as [Hk1%bool_decide_eq_false Hk2%bool_decide_eq_false].
      unfold known in Hk1. unfold ids. rewrite fmap_app. set_solver. }
    destruct (deps_known (known st) op) eqn:Hd; simpl.
    + destruct (process_inv op st D) as (st1 & -> & Hinv1 & Hp1); try done.
      destruct (drain_inv (S (length (pending st1))) st1 (op :: D)) as (st2 & E & ? & ?);
        [lia|done|set_solver|]. unfold drain_pending. rewrite E. eauto.
    + eexists false, _. split; [done|]. destruct Hinv as [Hc Hnd Hdl Hr]. split.
      * split; simpl; try done.
        -- rewrite app_assoc. unfold ids. rewrite (Permutation_app_comm _ [op]).
           by constructor.
        -- intros x. rewrite elem_of_cons, <- Hdl. set_solver.
      * apply Forall_app. split; [done|]. by constructor.
Qed.

Lemma replay_inv k st D :
  auth_inv st D -> auth_stable st -> (forall x, x ∈ D -> U x) ->
  Forall (fun x => U x /\ verified x) k ->
  (forall x y, U x -> U y -> compute_id x = compute_id y -> x = y) ->
  exists st', replay k st = (Ok tt, st') /\ auth_inv st' (rev k ++ D) /\ auth_stable st'.
Proof.
  revert st D. induction k as [|op k IH]; intros st D Hinv Hst HU Hk Hinj; simpl; [eauto|].
  inversion_clear Hk as [|?? [Hop Hv] Hk'].
  destruct (apply_remote_inv op st D) as (b & st1 & -> & Hinv1 & Hst1); try done.
  { intros y Hy. apply Hinj; auto. }
  rewrite <- app_assoc. apply IH; try done. set_solver.
Qed.
End delivery.

Lemma auth_empty_inv : auth_inv auth_empty [].
Proof. split; simpl; [done|constructor|set_solver|done]. Qed.

(** Operations left pending although all that was sent arrived contradict
    the causal order of what was sent. *)
Lemma stable_complete st l0 :
  auth_inv st l0 -> auth_stable st -> causal [] l0 -> pending st = [].
Proof.
  intros [Hc Hnd Hdl Hr] Hst Hl0.
  assert (Hall : forall l1 l2, l0 = l1 ++ l2 -> forall x, x ∈ l1 -> x ∈ ops st).
  { induction l1 as [|y l1 IH] using rev_ind; intros l2 E x Hx; [set_solver|].
    rewrite <- app_assoc in E. specialize (IH _ E).
    apply elem_of_app in Hx as [Hx|Hx%list_elem_of_singleton]; [by apply IH|subst x].
    assert (y ∈ ops st ++ pending st) as [?|Hp]%elem_of_app; [apply Hdl; rewrite E; set_solver|done|].
    unfold auth_stable in Hst. rewrite Forall_forall in Hst. specialize (Hst y Hp).
    enough (deps_known (known st) y = true) by congruence.
    apply (deps_known_mono (ids l1)).
    - unfold ids, known. intros d (z & -> & Hz)%list_elem_of_fmap.
      apply list_elem_of_fmap. eauto.
    - subst l0. simpl in Hl0.
apply causal_middle in Hl0. by rewrite app_nil_r in Hl0. }
  destruct (pending st) as [|p ps] eqn:Ep; [done|]. exfalso.
  assert (p ∈ ops st) as Hin.
  { apply (Hall l0 []); [by rewrite app_nil_r|]. apply Hdl. set_solver. }
  rewrite ids_app in Hnd. apply NoDup_app in Hnd as (_ & Hx & _).
  apply (Hx (compute_id p)); unfold ids; apply list_elem_of_fmap; set_solver.
Qed.
End lemmas.

(** ** Lemmas: the log on disk *)

Section log.
Context `{MD : Metadata, Blake3, Ed25519} `{!Bincode canonical_tuple, !BincodeTotal canonical_tuple}.
Context `{!Bincode (list SignedOp)} `{!GroupCrdt}.
Context (dd : path) (sid : string).

Definition auth_file : path := share_dir dd sid ++ ["auth.log"].
Definition auth_tmp : path := share_dir dd sid ++ ["auth.log.tmp"].

Lemma auth_log_path_eq : auth_log_path dd sid = auth_file.
Proof. apply join_plain. plain_const. Qed.

Lemma auth_tmp_ne : auth_tmp <> auth_file.
Proof. unfold auth_tmp, auth_file. by intros [=]%app_inv_head. Qed.

Lemma auth_save_meq st :
  auth_save dd sid st ≈ₘ
  (fs_create_dir_all (share_dir dd sid) ;;;
   let! raw := lift (ok_or (EMsg "encoding auth log") (bin_encode (ops st))) in
   fs_write auth_tmp raw ;;;
   fs_rename auth_tmp auth_file ;;;
   fs_set_mode auth_file mode_0600).
Proof.
  unfold auth_save. rewrite auth_log_path_eq. cbv zeta.
  replace (with_extension auth_file "log.tmp") with auth_tmp
    by (symmetry; by apply with_extension_snoc).
  replace (parent auth_file) with (share_dir dd sid) by (symmetry; apply parent_snoc).
  rewrite ctx_meq. apply bind_proper; [reflexivity|]. intros _.
  apply bind_proper; [reflexivity|]. intros raw.
  rewrite ctx_meq. apply bind_proper; [reflexivity|]. intros _.
  rewrite ctx_meq. apply bind_proper; [reflexivity|]. intros _. apply ctx_meq.
Qed.

Lemma auth_save_touches st :
  touches (fun q => q = auth_file \/ q = auth_tmp) (auth_save dd sid st).
Proof.
  intros w q Hq. rewrite (meq_world _ _ w (auth_save_meq st)). revert w q Hq.
  fold (touches (fun q => q = auth_file \/ q = auth_tmp) (A := unit)
    (fs_create_dir_all (share_dir dd sid) ;;;
     let! raw := lift (ok_or (EMsg "encoding auth log") (bin_encode (ops st))) in
     fs_write auth_tmp raw ;;; fs_rename auth_tmp auth_file ;;; fs_set_mode auth_file mode_0600)).
  apply touches_bind; [apply touches_create_dir_all|]. intros _.
  apply touches_bind; [apply touches_lift|]. intros raw.
  apply touches_bind; [eapply touches_mono; [|apply touches_write]; simpl; tauto|]. intros _.
  apply touches_bind; [eapply touches_mono; [|apply touches_rename]; simpl; tauto|]. intros _.
  eapply touches_mono; [|apply touches_set_mode]. simpl. tauto.
Qed.

Lemma auth_save_write_atomic st raw w :
  bin_encode (ops st) = Some raw ->
  snd (auth_save dd sid st w) =
    snd (write_atomic (share_dir dd sid) auth_file auth_tmp raw (Some mode_0600) w) /\
  (fst (auth_save dd sid st w) = Ok tt <->
   fst (write_atomic (share_dir dd sid) auth_file auth_tmp raw (Some mode_0600) w) = Ok tt).
Proof.
  intros E. pose proof (auth_save_meq st w) as [Ho Hw]. rewrite Hw.
  rewrite E in Ho |- *. unfold write_atomic. split; [done|].
  destruct (fst (auth_save dd sid st w)); inversion Ho as [? Heq Heq2|? ? Heq Heq2|Heq Heq2];
    change (ok_or _ (Some raw)) with (Ok raw) in *;
    unfold bind, lift in *; simpl in *; rewrite <- Heq2; split; congruence.
Qed.

(** The next operation of a causally ordered log is applied at once. *)
Lemma apply_remote_next op st s :
  pending st = [] -> verified op -> deps_known (known st) op = true -> compute_id op ∉ known st ->
  crdt_process (crdt st) op = Some s ->
  apply_remote op st = (Ok true, {| crdt := s; ops := ops st ++ [op]; pending := [] |}).
Proof.
  intros Hp Hop Hd Hnew E. unfold apply_remote. rewrite Hop. cbv zeta.
  rewrite (bool_decide_false (_ ∈ known st)) by done. rewrite Hp. simpl.
  rewrite Hd. simpl. unfold process. simpl. rewrite E, Hp. done.
Qed.

Lemma crdt_foldl_None (l : list SignedOp) :
  foldl (fun s op => s ≫= fun s => crdt_process s op) None l = None.
Proof. induction l; [done|]. simpl. done. Qed.

(** A causally ordered log replays to itself, one operation at a time. *)
Lemma replay_log l st s :
  pending st = [] -> causal (known st) l -> NoDup (ids (ops st ++ l)) ->
  Forall verified l ->
  foldl (fun s op => s ≫= fun s => crdt_process s op) (Some (crdt st)) l = Some s ->
  replay l st = (Ok tt, {| crdt := s; ops := ops st ++ l; pending := [] |}).
Proof.
  revert st. induction l as [|op l IH]; intros st Hp Hc Hnd Hv Hs; simpl in *.
  - rewrite app_nil_r. destruct st; simpl in *. by simplify_eq.
  - destruct Hc as [Hd Hc]. inversion_clear Hv as [|?? Hop Hv'].
    destruct (crdt_process (crdt st) op) as [s1|] eqn:E.
    2: { by rewrite crdt_foldl_None in Hs. }
    assert (Hnew : compute_id op ∉ known st).
    { rewrite ids_app in Hnd. apply NoDup_app in Hnd as (_ & Hx & _). intros Hin.
      apply (Hx _ Hin). unfold ids. simpl. set_solver. }
    rewrite (apply_remote_next op st s1) by done.
    rewrite (IH {| crdt := s1; ops := ops st ++ [op]; pending := [] |}).
    + simpl. by rewrite <- app_assoc.
    + done.
    + unfold known. simpl. rewrite fmap_app. simpl.
      eapply causal_mono; [|done]. set_solver.
    + simpl. by rewrite <- app_assoc.
    + done.
    + done.
Qed.

Lemma replay_empty l s :
  causal [] l -> NoDup (ids l) -> Forall verified l -> crdt_run l = Some s ->
  replay l auth_empty = (Ok tt, {| crdt := s; ops := l; pending := [] |}).
Proof. intros. by rewrite (replay_log l auth_empty s). Qed.
End log.

(** ** Properties *)

(** Printing and parsing of member ids: what [to_hex] prints is parsed back,
    a parsed id has 32 bytes, and parsing a text of ASCII characters never
    panics. *)
Theorem from_hex_contract :
  (forall m : MemberId, length m = 32%nat -> from_hex (to_hex m) = Ok m) /\
  (forall s m, from_hex s = Ok m -> length (string_bytes s) = 64%nat /\ length m = 32%nat) /\
  (forall s, (forall c, c ∈ string_bytes s -> Z_of_byte c < 128) -> from_hex s <> Panic).
Proof.
  unfold from_hex. cbv zeta. split; [|split].
  - intros m Hm. unfold to_hex. rewrite string_bytes_string.
    rewrite length_hex_encode, Hm, decide_True by done.
    rewrite <- Hm. apply (from_hex_loop_encode []).
  - intros s m. case_decide; [|done]. intros E. split; [done|]. by apply from_hex_loop_length in E.
  - intros s Hs. case_decide as E; [|done]. apply from_hex_loop_ascii; [done|]. rewrite E. done.
Qed.

Definition hex_multibyte : string :=
  bytes_string (Byte.x61 :: Byte.xc3 :: Byte.xa9 :: replicate 61 Byte.x61).
Definition hex_plus : string :=
  bytes_string (Byte.x2b :: Byte.x66 :: replicate 62 Byte.x30).

(** Two texts of 64 bytes on which [from_hex] leaves its contract: the first
    is valid UTF-8 with a two-byte character across a slice boundary and
    panics, the second holds [+f] and is accepted, although printing the
    result gives another text. *)
Theorem from_hex_irregular :
  from_hex hex_multibyte = Panic /\
  exists m, from_hex hex_plus = Ok m /\ to_hex m <> hex_plus.
Proof.
  split; [vm_compute; reflexivity|].
  exists (Byte.x0f :: replicate 31 Byte.x00). split; [vm_compute; reflexivity|].
  vm_compute. discriminate.
Qed.

Section properties.
Context `{MD : Metadata, Blake3, Ed25519} `{!Bincode canonical_tuple, !BincodeTotal canonical_tuple}.
Context `{!Bincode (list SignedOp)} `{!GroupCrdt}.

(** C18. The invariant of the membership log ([auth_wf]: causally ordered, all
    signatures checked, CRDT heads in the log) holds initially and is
    preserved by the delivery of an arbitrary remote operation and by the three
    local mutators, whatever they return; the log only ever grows. *)
Theorem auth_log_invariant (st : AuthState) (Hwf : auth_wf st) :
  auth_wf auth_empty /\
  (forall op, let st' := snd (apply_remote op st) in
     auth_wf st' /\ ops st `prefix_of` ops st') /\
  (forall k g, auth_wf (snd (create_group k g st))) /\
  (forall k g m r, auth_wf (snd (add_member k g m r st))) /\
  (forall k g m, auth_wf (snd (remove_member k g m st))).
Proof.
  split; [apply auth_empty_wf|]. split; [intros op; by apply apply_remote_wf|].
  split; [|split]; intros; try by apply author_wf.
  unfold create_group. case_match; [done|]. by apply author_wf.
Qed.

(** C29. [drain_pending] ends: as many turns as there are waiting operations are
    enough, it never panics, and when it succeeds no operation that waits has
    all its dependencies. *)
Theorem drain_pending_terminates (st : AuthState) (extra : nat) :
  drain_pending_loop (S (length (pending st)) + extra) st = drain_pending st /\
  fst (drain_pending st) <> Panic /\
  (fst (drain_pending st) = Ok tt ->
   Forall (fun op => deps_known (known (snd (drain_pending st))) op = false)
     (pending (snd (drain_pending st)))).
Proof. apply drain_settles. lia. Qed.

(** C6. Strong eventual consistency of the log: let [l0] be the operations sent,
    in an order in which they were authored.  A replica that receives them
    with any reordering and duplication refuses none, ends with nothing
    pending and with exactly these operations in its log; and when the CRDT
    is order-insensitive on them, all replicas see the same members. *)
Theorem auth_convergence (U : SignedOp -> Prop) (Hacc : crdt_accepts U)
    (Hconf : forall l k s t g, l ≡ₚ k -> Forall U l -> causal [] l -> causal [] k ->
       crdt_run l = Some s -> crdt_run k = Some t -> crdt_members s g ≡ₚ crdt_members t g)
    (Hinj : forall x y, U x -> U y -> compute_id x = compute_id y -> x = y)
    (l0 k1 k2 : list SignedOp) (Hl0 : causal [] l0)
    (HU : Forall (fun x => U x /\ verified x) l0)
    (Hk1 : forall x, x ∈ k1 <-> x ∈ l0) (Hk2 : forall x, x ∈ k2 <-> x ∈ l0) :
  exists s1 s2, replay k1 auth_empty = (Ok tt, s1) /\ replay k2 auth_empty = (Ok tt, s2) /\
    pending s1 = [] /\ pending s2 = [] /\ ops s1 ≡ₚ ops s2 /\
    (forall x, x ∈ ops s1 <-> x ∈ l0) /\
    forall g, members s1 g ≡ₚ members s2 g.
Proof.
  assert (Hgo : forall k, (forall x, x ∈ k <-> x ∈ l0) -> exists st,
    replay k auth_empty = (Ok tt, st) /\ auth_inv st l0 /\ pending st = []).
  { intros k Hk.
    destruct (replay_inv U Hacc k auth_empty []) as (st & Hr & Hinv & Hst).
    - apply auth_empty_inv.
    - constructor.
    - set_solver.
    - rewrite Forall_forall in HU |- *. intros x Hx. apply HU, Hk, Hx.
    - done.
    - exists st. split; [done|]. rewrite app_nil_r in Hinv.
      assert (auth_inv st l0) as Hinv'.
      { destruct Hinv as [? ? Hd ?]. split; try done. intros x.
        rewrite Hd, <- Hk. assert (k ≡ₚ rev k) as <- by apply Permutation_rev. done. }
      split; [done|]. by apply (stable_complete st l0). }
  destruct (Hgo k1 Hk1) as (s1 & Hr1 & [Hc1 Hn1 Hd1 Hs1] & Hp1).
  destruct (Hgo k2 Hk2) as (s2 & Hr2 & [Hc2 Hn2 Hd2 Hs2] & Hp2).
  rewrite Hp1, app_nil_r in Hn1, Hd1. rewrite Hp2, app_nil_r in Hn2, Hd2.
  assert (Hperm : ops s1 ≡ₚ ops s2).
  { apply NoDup_Permutation; [by eapply NoDup_fmap_1..|]. intros x. by rewrite Hd1, Hd2. }
  exists s1, s2. do 6 (split; [done|]). intros g. unfold members.
  rewrite (Hconf (ops s1) (ops s2)); try done.
  rewrite Forall_forall in HU |- *. intros x Hx. by apply HU, Hd1.
Qed.

(** A remote operation that passes the signature check but is refused by the
    CRDT empties the CRDT while the log stays: the replica reports the
    members of a group that was never created, although its log is not
    empty.  (The daemon only logs the error and goes on with this state.) *)
Theorem rejected_op_resets_crdt (st : AuthState) (op : SignedOp)
    (Hv : verified op) (Hd : deps_known (known st) op = true)
    (Hnew : compute_id op ∉ known st ++ (compute_id <$> pending st))
    (Hrej : crdt_process (crdt st) op = None) :
  fst (apply_remote op st) = Err (EMsg "auth crdt error") /\
  ops (snd (apply_remote op st)) = ops st /\
  forall g, members (snd (apply_remote op st)) g = members auth_empty g.
Proof.
  assert (apply_remote op st = (Err (EMsg "auth crdt error"),
    {| crdt := crdt_new; ops := ops st; pending := pending st |})) as ->; [|done].
  unfold apply_remote. rewrite Hv. cbv zeta. apply not_elem_of_app in Hnew as [??].
  rewrite !bool_decide_false by done. simpl. rewrite Hd. simpl.
  unfold process. simpl. by rewrite Hrej.
Qed.

End properties.

(** ** A concrete group CRDT

    Grants are kept in a table; an action the table does not know is refused.
    The heads are the operations nothing applied depends on. *)

#[export] Instance ser_access : Ser AccessLevel.
Proof.
  refine (ser_inj (B := byte)
    (fun a => match a with Pull => Byte.x00 | Read => Byte.x01
                         | Write => Byte.x02 | Manage => Byte.x03 end)
    (fun b => match b with Byte.x00 => Some Pull | Byte.x01 => Some Read
                         | Byte.x02 => Some Write | Byte.x03 => Some Manage
                         | _ => None end) _).
  by intros [].
Defined.

#[export] Instance ser_action : Ser GroupAction.
Proof.
  refine (ser_inj (B := (list (MemberId * AccessLevel) + MemberId * AccessLevel) +
                        (MemberId + bytes))
    (fun a => match a with
              | Create l => inl (inl l)
              | Add m x => inl (inr (m, x))
              | Remove m => inr (inl m)
              | OtherAction r => inr (inr r)
              end)
    (fun x => Some match x with
              | inl (inl l) => Create l
              | inl (inr (m, x)) => Add m x
              | inr (inl m) => Remove m
              | inr (inr r) => OtherAction r
              end) _).
  by intros [].
Defined.

#[export] Instance ser_message : Ser GroupControlMessage.
Proof.
  refine (ser_inj (B := MemberId * GroupAction)
    (fun m => (gm_group_id m, gm_action m))
    (fun x => Some {| gm_group_id := x.1; gm_action := x.2 |}) _).
  by intros [].
Defined.

#[export] Instance ser_op : Ser SignedOp.
Proof.
  refine (ser_inj (B := (MemberId * list OpId) * (GroupControlMessage * bytes))
    (fun o => ((op_author o, op_deps o), (op_payload o, op_signature o)))
    (fun x => Some {| op_author := x.1.1; op_deps := x.1.2;
                      op_payload := x.2.1; op_signature := x.2.2 |}) _).
  by intros [].
Defined.

Definition toy_canonical : Bincode canonical_tuple := toy_bincode _.
Definition toy_canonical_total : @BincodeTotal canonical_tuple toy_canonical := toy_total _.
Definition toy_ops : Bincode (list SignedOp) := toy_bincode _.

Section toy_crdt.
#[local] Existing Instance toy_blake3.
#[local] Existing Instance toy_ed25519.
#[local] Existing Instance toy_canonical.
#[local] Existing Instance toy_canonical_total.

(** What an action grants; [None] for the actions the table refuses. *)
Definition toy_grants (a : GroupAction) : option (list (MemberId * AccessLevel)) :=
  match a with
  | Create l => Some l
  | Add m x => Some [(m, x)]
  | Remove _ => Some []
  | OtherAction _ => None
  end.

Abbreviation toy_table := (gmap (MemberId * MemberId) AccessLevel).

Definition toy_apply (g : MemberId) (a : GroupAction) (t : toy_table) : option toy_table :=
  match a with
  | Remove m => Some (delete (g, m) t)
  | _ => l ← toy_grants a; Some (foldl (fun t mx => <[(g, mx.1) := mx.2]> t) t l)
  end.

Definition toy_crdt_process (s : list OpId * toy_table) (op : SignedOp)
    : option (list OpId * toy_table) :=
  t ← toy_apply (gm_group_id (op_payload op)) (gm_action (op_payload op)) s.2;
  Some (compute_id op :: filter (fun h => h ∉ op_deps op) s.1, t).

Definition toy_members (t : toy_table) (g : MemberId) : list (MemberId * AccessLevel) :=
  omap (fun kx => if decide (kx.1.1 = g) then Some (kx.1.2, kx.2) else None)
       (map_to_list t).

Definition toy_group : GroupCrdt.
Proof.
  refine {| CrdtState := list OpId * toy_table;
            crdt_new := ([], ∅);
            crdt_process := toy_crdt_process;
            crdt_heads := fst;
            crdt_members := fun s => toy_members s.2 |}.
  - done.
  - intros s op s' h. unfold toy_crdt_process. destruct (toy_apply _ _ _); simpl; [|done].
    intros [= <-]. simpl. rewrite elem_of_cons, list_elem_of_filter. tauto.
Defined.
#[local] Existing Instance toy_group.

(** Operations that only grant, each member always at the same level. *)
Definition toy_monotone (lvl : MemberId -> AccessLevel) (op : SignedOp) : Prop :=
  match gm_action (op_payload op) with
  | Create l => Forall (fun mx => mx.2 = lvl mx.1) l
  | Add m x => x = lvl m
  | _ => False
  end.

Definition toy_granted (op : SignedOp) : list (MemberId * MemberId) :=
  (fun mx => (gm_group_id (op_payload op), mx.1)) <$>
    default [] (toy_grants (gm_action (op_payload op))).

Lemma toy_insert_all (lvl : MemberId -> AccessLevel) (g : MemberId) (l : list (MemberId * AccessLevel)) (t : toy_table) k :
  Forall (fun mx : MemberId * AccessLevel => mx.2 = lvl mx.1) l ->
  foldl (fun t mx => <[(g, mx.1) := mx.2]> t) t l !! k =
    if decide (k ∈ (fun mx => (g, mx.1)) <$> l) then Some (lvl k.2) else t !! k.
Proof.
  intros Hl. revert t. induction Hl as [|[m x] l Hx _ IH]; intros t; cbn [foldl].
  - rewrite decide_False; [done|]. apply not_elem_of_nil.
  - rewrite IH, lookup_insert, fmap_cons. simpl in Hx.
    repeat case_decide; subst; try done; set_solver.
Qed.

Lemma toy_run (lvl : MemberId -> AccessLevel) (l : list SignedOp) s0 :
  Forall (toy_monotone lvl) l ->
  exists s, foldl (fun s op => s ≫= fun s => crdt_process s op) (Some s0) l = Some s /\
  forall k, s.2 !! k = if decide (k ∈ l ≫= toy_granted) then Some (lvl k.2) else s0.2 !! k.
Proof.
  intros Hl. revert s0. induction Hl as [|op l Hop _ IH]; intros s0; cbn [foldl].
  - exists s0. split; [done|]. intros k. rewrite decide_False; [done|]. apply not_elem_of_nil.
  - assert (exists s1, crdt_process s0 op = Some s1 /\ forall k, s1.2 !! k =
      if decide (k ∈ toy_granted op) then Some (lvl k.2) else s0.2 !! k) as (s1 & E & Hs1).
    { simpl. unfold toy_crdt_process, toy_granted. unfold toy_monotone in Hop.
      destruct (gm_action (op_payload op)) as [ms|m x|m|r]; try done; simpl;
        eexists; (split; [done|]); intros k.
      - by apply toy_insert_all.
      - apply (toy_insert_all lvl _ [(m, x)]). by repeat constructor. }
    cbn [mbind option_bind]. rewrite E. destruct (IH s1) as (s & Hr & Hs). exists s.
    split; [done|]. intros k. rewrite Hs, Hs1. change ((op :: l) ≫= toy_granted)
      with (toy_granted op ++ (l ≫= toy_granted)).
    repeat case_decide; try done; set_solver.
Qed.

Lemma toy_accepts lvl : crdt_accepts (toy_monotone lvl).
Proof. intros l _ _ Hl. destruct (toy_run lvl l ([], ∅) Hl) as (s & E & _). by exists s. Qed.

Lemma toy_confluent (lvl : MemberId -> AccessLevel) (l k : list SignedOp) s t g :
  l ≡ₚ k -> Forall (toy_monotone lvl) l -> crdt_run l = Some s -> crdt_run k = Some t ->
  crdt_members s g = crdt_members t g.
Proof.
  intros Hp Hl Hs Ht. destruct (toy_run lvl l ([], ∅) Hl) as (s' & Es & Hs').
  assert (Hk : Forall (toy_monotone lvl) k) by by rewrite <- Hp.
  destruct (toy_run lvl k ([], ∅) Hk) as (t' & Et & Ht').
  assert (Some s = Some s') as [= ->] by (etrans; [symmetry; exact Hs | exact Es]).
  assert (Some t = Some t') as [= ->] by (etrans; [symmetry; exact Ht | exact Et]).
  simpl. f_equal. apply map_eq. intros i. rewrite Hs', Ht'.
  assert (i ∈ l ≫= toy_granted <-> i ∈ k ≫= toy_granted).
  { by rewrite Hp. }
  repeat case_decide; tauto.
Qed.
End toy_crdt.

(** ** Witnesses *)

Section witnesses.
#[local] Existing Instance toy_metadata.
#[local] Existing Instance toy_blake3.
#[local] Existing Instance toy_ed25519.
#[local] Existing Instance toy_canonical.
#[local] Existing Instance toy_canonical_total.
#[local] Existing Instance toy_ops.
#[local] Existing Instance toy_group.

Definition wa_key (b : byte) : bytes := replicate 32 b.
Definition wa_alice : bytes := wa_key Byte.x0a.
Definition wa_gid : MemberId := group_id_for "share".

Definition wa_op (r : outcome SignedOp * AuthState) : SignedOp :=
  match r.1 with
  | Ok op => op
  | _ => {| op_author := []; op_deps := [];
            op_payload := {| gm_group_id := []; gm_action := OtherAction [] |};
            op_signature := [] |}
  end.

(** Alice creates the group and, from the same state, adds Bob and Carol. *)
Definition wa_created := create_group wa_alice wa_gid auth_empty.
Definition wa_bob :=
  add_member wa_alice wa_gid (public_key (wa_key Byte.x0b)) Reader wa_created.2.
Definition wa_carol :=
  add_member wa_alice wa_gid (public_key (wa_key Byte.x0c)) Writer wa_created.2.

Definition wa_op1 : SignedOp := Eval vm_compute in wa_op wa_created.
Definition wa_op2 : SignedOp := Eval vm_compute in wa_op wa_bob.
Definition wa_op3 : SignedOp := Eval vm_compute in wa_op wa_carol.
Definition wa_log : list SignedOp := [wa_op1; wa_op2; wa_op3].
Definition wa_shuffled : list SignedOp :=
  [wa_op3; wa_op2; wa_op3; wa_op1; wa_op2].

(** What the three operations say. *)
Definition wa_lvl (m : MemberId) : AccessLevel :=
  if decide (m = public_key wa_alice) then Manage
  else if decide (m = public_key (wa_key Byte.x0b)) then Read else Write.

Lemma wa_log_monotone : Forall (toy_monotone wa_lvl) wa_log.
Proof. repeat constructor; vm_compute; done. Qed.

Lemma wa_sub : Forall (fun x => x ∈ wa_log /\ verified x) wa_log.
Proof.
  repeat (apply Forall_cons_2; [split; [set_solver | vm_compute; reflexivity]|]).
  constructor.
Qed.

Lemma wa_in l : Forall (fun x => x ∈ wa_log) l -> Forall (toy_monotone wa_lvl) l.
Proof.
  pose proof wa_log_monotone as Hm. rewrite Forall_forall in Hm.
  intros Hl. eapply Forall_impl; [exact Hl|]. auto.
Qed.

Lemma wa_inj : forallb (fun x => forallb (fun y =>
  bool_decide (compute_id x = compute_id y -> x = y)) wa_log) wa_log = true.
Proof. vm_compute. reflexivity. Qed.

Lemma auth_convergence_witness :
  exists s1 s2, replay wa_log auth_empty = (Ok tt, s1) /\
    replay wa_shuffled auth_empty = (Ok tt, s2) /\
    pending s1 = [] /\ pending s2 = [] /\ ops s1 ≡ₚ ops s2 /\
    (forall x, x ∈ ops s1 <-> x ∈ wa_log) /\
    forall g, members s1 g ≡ₚ members s2 g.
Proof.
  apply (auth_convergence (fun x => x ∈ wa_log)).
  - intros l Hc Hn Hl. apply (toy_accepts wa_lvl); [done..|]. by apply wa_in.
  - intros l k s t g Hp Hl _ _ Hs Ht.
    by rewrite (toy_confluent wa_lvl l k s t g Hp (wa_in l Hl) Hs Ht).
  - intros x y Hx Hy. pose proof wa_inj as Hi. rewrite forallb_forall in Hi.
    specialize (Hi x). rewrite <- list_elem_of_In, forallb_forall in Hi.
    specialize (Hi Hx y). rewrite <- list_elem_of_In in Hi.
    specialize (Hi Hy). apply bool_decide_eq_true in Hi. exact Hi.
  - vm_compute. repeat split.
  - exact wa_sub.
  - done.
  - unfold wa_log, wa_shuffled. set_solver.
Defined.

Lemma wa_created_wf : auth_wf wa_created.2.
Proof.
  split; [vm_compute; repeat split | | ].
  - assert (ops wa_created.2 ++ pending wa_created.2 = [wa_op1]) as -> by (vm_compute; reflexivity).
    apply Forall_singleton. vm_compute. reflexivity.
  - intros h Hh. vm_compute in Hh |- *. done.
Qed.

Lemma auth_log_invariant_witness :
  auth_wf (snd (apply_remote wa_op2 wa_created.2)) /\
  ops wa_created.2 `prefix_of` ops (snd (apply_remote wa_op2 wa_created.2)).
Proof. apply (auth_log_invariant wa_created.2 wa_created_wf). Defined.

(** Two operations that wait for the creation of the group, which arrived. *)
Definition wa_waiting : AuthState :=
  {| crdt := crdt wa_created.2; ops := ops wa_created.2; pending := [wa_op3; wa_op2] |}.

Lemma drain_pending_terminates_witness :
  drain_pending_loop 10 wa_waiting = drain_pending wa_waiting.
Proof. exact (proj1 (drain_pending_terminates wa_waiting 7)). Defined.

(** Bob, a reader, signs an action the CRDT refuses. *)
Definition wa_bad : SignedOp :=
  let payload := {| gm_group_id := wa_gid; gm_action := OtherAction [] |} in
  {| op_author := public_key (wa_key Byte.x0b); op_deps := []; op_payload := payload;
     op_signature := sign (wa_key Byte.x0b)
       (bin_expect (public_key (wa_key Byte.x0b), [], payload)) |}.

Lemma rejected_op_resets_crdt_witness :
  members wa_created.2 wa_gid = [(public_key wa_alice, Owner)] /\
  members (snd (apply_remote wa_bad wa_created.2)) wa_gid = [].
Proof.
  split; [vm_compute; reflexivity|].
  assert (Hn : compute_id wa_bad ∉ known wa_created.2 ++ (compute_id <$> pending wa_created.2)).
  { apply (bool_decide_unpack (_ ∉ _)). vm_compute. exact I. }
  assert (Hv : verified wa_bad) by (vm_compute; reflexivity).
  assert (Hd : deps_known (known wa_created.2) wa_bad = true) by (vm_compute; reflexivity).
  assert (Hr : crdt_process (crdt wa_created.2) wa_bad = None) by (vm_compute; reflexivity).
  destruct (rejected_op_resets_crdt wa_created.2 wa_bad Hv Hd Hn Hr) as (_ & _ & ->).
  vm_compute. reflexivity.
Defined.

Definition wa_final : AuthState := (replay wa_log auth_empty).2.
Definition wa_saved : world :=
  snd (auth_save ["data"] "share" wa_final (world_of root_fs)).

Lemma wa_final_ops : ops wa_final = wa_log.
Proof. vm_compute. reflexivity. Qed.

Lemma wa_final_pending : pending wa_final = [].
Proof. vm_compute. reflexivity. Qed.

Lemma wa_final_inv : auth_inv wa_final wa_log.
Proof.
  split.
  - rewrite wa_final_ops. vm_compute. repeat split.
  - rewrite wa_final_ops, wa_final_pending.
    assert (bool_decide (NoDup (ids (wa_log ++ []))) = true) as Hn by (vm_compute; reflexivity).
    by apply bool_decide_eq_true in Hn.
  - intros x. by rewrite wa_final_ops, wa_final_pending, app_nil_r.
  - exact (eq_refl (Some (crdt wa_final)) <: crdt_run (ops wa_final) = Some (crdt wa_final)).
Qed.

Lemma wa_final_verified : Forall verified (ops wa_final).
Proof.
  rewrite wa_final_ops. eapply Forall_impl; [exact wa_sub|]. by intros x [_ Hx].
Qed.

End witnesses.
