(* ===== verification/Rotation.v ===== *)
(** * Distribution of rotated keys ([src/rotation.rs])

    A rotation carries a fresh epoch key in one sealed box per recipient and
    is signed by the rotator.  The receiver checks the signature, that the
    rotator is an owner, and opens its own envelope.  Rotations made offline
    wait in [pending_rotations/<epoch>.bin]. *)

From stdpp Require Import pretty.
From S2P Require Import Prelude World External Instances Share Crypto Auth.

Record KeyEnvelope := {
  recipient_pubkey : MemberId;
  ephemeral_pubkey : bytes;
  nonce : bytes;
  ciphertext : bytes;
}.

Record SignedRotation := {
  epoch : Z;
  rotator_pubkey : MemberId;
  signature : bytes;
  envelopes : list KeyEnvelope;
}.

Inductive VerifyOutcome :=
  | OkForUs (key : Key)
  | NotForUs
  | NotAManager
  | BadSignature
  | DecryptFailed.

#[export] Instance KeyEnvelope_eq_dec : EqDecision KeyEnvelope.
Proof. solve_decision. Defined.
#[export] Instance SignedRotation_eq_dec : EqDecision SignedRotation.
Proof. solve_decision. Defined.
#[export] Instance VerifyOutcome_eq_dec : EqDecision VerifyOutcome.
Proof. solve_decision. Defined.

Definition BOX_NONCE_LEN : nat := 24.

Abbreviation rotation_tuple := (Z * MemberId * list KeyEnvelope)%type.

Section rotation.
Context `{Entropy, Blake3, Ed25519, !CryptoBox}.
Context `{!Bincode rotation_tuple, !BincodeTotal rotation_tuple, !Bincode SignedRotation}.
Context `{!Bincode canonical_tuple, !BincodeTotal canonical_tuple, !GroupCrdt}.

Definition rotation_bytes (epoch : Z) (rotator : MemberId) (envs : list KeyEnvelope) : bytes :=
  bin_expect (epoch, rotator, envs).

Definition ed25519_pub_to_box_pub (raw : bytes) : outcome bytes :=
  ok_or (EMsg "invalid Ed25519 pubkey") (montgomery_of raw).

Definition ed25519_priv_to_box_priv (identity : bytes) : bytes := scalar_of identity.

(** One turn of the loop of [build_signed_rotation]. *)
Definition seal_for (new_key : Key) (recipient : MemberId) : M KeyEnvelope :=
  let! recipient_box_pub :=
    lift (rctx "deriving X25519 pubkey for recipient" (ed25519_pub_to_box_pub recipient)) in
  let! ephemeral_secret := fill_bytes 32 in
  let! nonce_bytes := fill_bytes BOX_NONCE_LEN in
  let! ct := lift (ok_or (EMsg "crypto_box encrypt failed")
    (box_encrypt recipient_box_pub ephemeral_secret nonce_bytes new_key)) in
  ret {| recipient_pubkey := recipient; ephemeral_pubkey := box_public ephemeral_secret;
         nonce := nonce_bytes; ciphertext := ct |}.

Fixpoint seal_all (new_key : Key) (recipients : list MemberId) : M (list KeyEnvelope) :=
  match recipients with
  | [] => ret []
  | r :: rs =>
      let! env := seal_for new_key r in
      let! envs := seal_all new_key rs in
      ret (env :: envs)
  end.

Definition build_signed_rotation (rotator : bytes) (epoch : Z) (new_key : Key)
    (recipients : list MemberId) : M SignedRotation :=
  let sorted := dedup_by id (sort_by id recipients) in
  let rotator_pubkey := public_key rotator in
  let! envelopes := seal_all new_key sorted in
  let canonical := rotation_bytes epoch rotator_pubkey envelopes in
  ret {| epoch := epoch; rotator_pubkey := rotator_pubkey;
         signature := sign rotator canonical; envelopes := envelopes |}.

(** The role check of [verify_and_decrypt]. *)
Definition is_manager (st : AuthState) (group_id m : MemberId) : bool :=
  existsb (fun mr => bool_decide (mr.1 = m) && bool_decide (mr.2 = Owner))
    (members st group_id).

Definition verify_and_decrypt (rotation : SignedRotation) (auth_state : AuthState)
    (group_id : MemberId) (me_identity : bytes) : VerifyOutcome :=
  if negb (pk_from_bytes (rotator_pubkey rotation)) then BadSignature else
  let canonical := rotation_bytes (epoch rotation) (rotator_pubkey rotation)
                     (envelopes rotation) in
  if negb (sig_verify (rotator_pubkey rotation) canonical (signature rotation))
  then BadSignature else
  if negb (is_manager auth_state group_id (rotator_pubkey rotation))
  then NotAManager else
  let me := public_key me_identity in
  match find (fun e => bool_decide (recipient_pubkey e = me)) (envelopes rotation) with
  | None => NotForUs
  | Some envelope =>
      let my_secret := ed25519_priv_to_box_priv me_identity in
      match box_decrypt (ephemeral_pubkey envelope) my_secret (nonce envelope)
                        (ciphertext envelope) with
      | None => DecryptFailed
      | Some plaintext =>
          if decide (length plaintext = KEY_LEN) then OkForUs plaintext else DecryptFailed
      end
  end.

(** ** The queue on disk *)

Definition pending_dir (data_dir : path) (share_id : string) : path :=
  join (join (shares_dir data_dir) share_id) "pending_rotations".

(** [format!("{}.bin", epoch)] *)
Definition pending_name (epoch : Z) : string := pretty (Z.to_N epoch) +:+ ".bin".

Definition save_pending (data_dir : path) (share_id : string) (rotation : SignedRotation)
    : M unit :=
  let dir := pending_dir data_dir share_id in
  ctx "create_dir_all" (fs_create_dir_all dir) ;;;
  let! raw := lift (ok_or (EMsg "encoding rotation") (bin_encode rotation)) in
  let p := join dir (pending_name (epoch rotation)) in
  let tmp := with_extension p "bin.tmp" in
  ctx "writing" (fs_write tmp raw) ;;;
  ctx "renaming" (fs_rename tmp p) ;;;
  ctx "chmod 0600" (fs_set_mode p mode_0600).

Fixpoint load_pending_entries (dir : path) (names : list string) : M (list SignedRotation) :=
  match names with
  | [] => ret []
  | n :: names =>
      let p := dir ++ [n] in
      if decide (extension p <> Some "bin"%string) then load_pending_entries dir names else
      let! raw := ctx "reading" (fs_read p) in
      let! rot := lift (ok_or (EMsg "decoding") (fst <$> bin_decode raw)) in
      let! rest := load_pending_entries dir names in
      ret (rot :: rest)
  end.

Context `{MD : Metadata, ReadDir}.

Definition load_pending (data_dir : path) (share_id : string) : M (list SignedRotation) :=
  let dir := pending_dir data_dir share_id in
  let! ex := fs_exists dir in
  if negb ex then ret [] else
  let! names := ctx "read_dir" (fs_read_dir dir) in
  let! out := load_pending_entries dir names in
  ret (sort_by epoch out).

(** ** Specification *)

(** What each answer of [verify_and_decrypt] asserts. *)
Definition signed_by_rotator (rot : SignedRotation) : Prop :=
  pk_from_bytes (rotator_pubkey rot) = true /\
  sig_verify (rotator_pubkey rot)
    (rotation_bytes (epoch rot) (rotator_pubkey rot) (envelopes rot)) (signature rot) = true.

Definition rotator_owns (rot : SignedRotation) (st : AuthState) (g : MemberId) : Prop :=
  (rotator_pubkey rot, Owner) ∈ members st g.

(** The first envelope addressed to a member. *)
Definition my_envelope (rot : SignedRotation) (me : MemberId) (e : KeyEnvelope) : Prop :=
  exists pre post, envelopes rot = pre ++ e :: post /\ recipient_pubkey e = me /\
  Forall (fun e' => recipient_pubkey e' <> me) pre.

Definition opens (identity : bytes) (e : KeyEnvelope) (k : Key) : Prop :=
  box_decrypt (ephemeral_pubkey e) (scalar_of identity) (nonce e) (ciphertext e) = Some k /\
  length k = KEY_LEN.

Inductive verify_spec (rot : SignedRotation) (st : AuthState) (g : MemberId)
    (identity : bytes) : VerifyOutcome -> Prop :=
  | VS_sig : ~ signed_by_rotator rot -> verify_spec rot st g identity BadSignature
  | VS_role : signed_by_rotator rot -> ~ rotator_owns rot st g ->
      verify_spec rot st g identity NotAManager
  | VS_none : signed_by_rotator rot -> rotator_owns rot st g ->
      Forall (fun e => recipient_pubkey e <> public_key identity) (envelopes rot) ->
      verify_spec rot st g identity NotForUs
  | VS_fail e : signed_by_rotator rot -> rotator_owns rot st g ->
      my_envelope rot (public_key identity) e -> (forall k, ~ opens identity e k) ->
      verify_spec rot st g identity DecryptFailed
  | VS_ok e k : signed_by_rotator rot -> rotator_owns rot st g ->
      my_envelope rot (public_key identity) e -> opens identity e k ->
      verify_spec rot st g identity (OkForUs k).

(** The queue directory holds exactly the rotations [m], by epoch. *)
Record pending_repr (dir : path) (fs : fsmap) (m : gmap Z SignedRotation) : Prop := {
  pr_dir : fs !! dir = Some NDir;
  pr_epoch : forall e r, m !! e = Some r -> epoch r = e /\ 0 <= e;
  pr_file : forall e r, m !! e = Some r -> exists raw,
    data_at fs (dir ++ [pending_name e]) = Some raw /\ fst <$> bin_decode raw = Some r;
  pr_name : forall n, is_Some (fs !! (dir ++ [n])) -> extension (dir ++ [n]) = Some "bin"%string ->
    exists e r, m !! e = Some r /\ n = pending_name e;
}.
End rotation.

(** ** Lemmas *)

Lemma find_spec {A} (f : A -> bool) l :
  match find f l with
  | Some x => exists pre post, l = pre ++ x :: post /\ f x = true /\
                Forall (fun y => f y = false) pre
  | None => Forall (fun y => f y = false) l
  end.
Proof.
  induction l as [|x l IH]; simpl; [constructor|].
  destruct (f x) eqn:E; [by exists [], l|].
  destruct (find f l) as [y|].
  - destruct IH as (pre & post & -> & Hy & Hp). exists (x :: pre), post.
    split; [done|]. split; [done|]. by constructor.
  - by constructor.
Qed.

Section lemmas.
Context `{Entropy, Blake3, Ed25519, !CryptoBox}.
Context `{!Bincode rotation_tuple, !BincodeTotal rotation_tuple, !Bincode SignedRotation}.
Context `{!Bincode canonical_tuple, !BincodeTotal canonical_tuple, !GroupCrdt}.

Lemma is_manager_spec st g m : is_manager st g m = true <-> (m, Owner) ∈ members st g.
Proof.
  unfold is_manager. rewrite existsb_exists. split.
  - intros ([m' r] & Hin & Hb%andb_true_iff). simpl in Hb.
    destruct Hb as [Hm%bool_decide_eq_true Hr%bool_decide_eq_true]. subst.
    by apply list_elem_of_In.
  - intros Hin. exists (m, Owner). split; [by apply list_elem_of_In|].
    simpl. by rewrite !bool_decide_true.
Qed.

Lemma first_envelope rot me :
  match find (fun e => bool_decide (recipient_pubkey e = me)) (envelopes rot) with
  | Some e => my_envelope rot me e
  | None => Forall (fun e => recipient_pubkey e <> me) (envelopes rot)
  end.
Proof.
  pose proof (find_spec (fun e => bool_decide (recipient_pubkey e = me)) (envelopes rot)) as Hf.
  destruct (find _ _) as [e|].
  - destruct Hf as (pre & post & Hl & He & Hp). exists pre, post.
    apply bool_decide_eq_true in He. split; [done|]. split; [done|].
    eapply Forall_impl; [exact Hp|]. by intros y Hy%bool_decide_eq_false.
  - eapply Forall_impl; [exact Hf|]. by intros y Hy%bool_decide_eq_false.
Qed.

Lemma my_envelope_unique rot me e e' : my_envelope rot me e -> my_envelope rot me e' -> e = e'.
Proof.
  intros (pre & post & Hl & Hr & Hp) (pre' & post' & Hl' & Hr' & Hp').
  rewrite Hl in Hl'. clear Hl. revert pre' Hp' Hl'.
  induction Hp as [|x pre Hx Hp IH]; intros [|y pre'] Hp' E; simplify_eq/=; try done.
  - by inversion Hp'.
  - inversion Hp'. by eapply IH.
Qed.

Lemma my_envelope_None rot me e :
  my_envelope rot me e -> ~ Forall (fun e => recipient_pubkey e <> me) (envelopes rot).
Proof.
  intros (pre & post & -> & Hr & _). rewrite Forall_forall. intros Hf. apply (Hf e); [|done].
  set_solver.
Qed.

Lemma verify_cases rot st g identity :
  verify_spec rot st g identity (verify_and_decrypt rot st g identity).
Proof.
  unfold verify_and_decrypt. cbv zeta.
  destruct (pk_from_bytes _) eqn:Hpk; simpl; [|by apply VS_sig; intros [??]; congruence].
  destruct (sig_verify _ _ _) eqn:Hsig; simpl; [|by apply VS_sig; intros [??]; congruence].
  assert (signed_by_rotator rot) by done.
  destruct (is_manager st g (rotator_pubkey rot)) eqn:Hm; simpl.
  2: { apply VS_role; [done|]. unfold rotator_owns. rewrite <- is_manager_spec. congruence. }
  apply is_manager_spec in Hm.
  pose proof (first_envelope rot (public_key identity)) as He.
  destruct (find _ _) as [e|]; [|by apply VS_none].
  unfold ed25519_priv_to_box_priv. destruct (box_decrypt _ _ _ _) as [k|] eqn:Hd.
  - case_decide; [by eapply VS_ok|]. eapply VS_fail; try done.
    intros k' [Hk' ?]. congruence.
  - eapply VS_fail; try done. intros k' [Hk' ?]. congruence.
Qed.

Lemma verify_spec_functional rot st g identity v v' :
  verify_spec rot st g identity v -> verify_spec rot st g identity v' -> v = v'.
Proof.
  intros Hv Hv'. destruct Hv as [|? ?|? ? Hn|e ? ? He Hf|e k ? ? He Hk]; inversion Hv' as
    [|? ?|? ? Hn'|e' ? ? He' Hf'|e' k' ? ? He' Hk']; try done;
    try (by apply my_envelope_None in He); try (by apply my_envelope_None in He').
  - rewrite (my_envelope_unique _ _ _ _ He He') in Hf. by apply Hf in Hk'.
  - rewrite (my_envelope_unique _ _ _ _ He He') in Hk. by apply Hf' in Hk.
  - rewrite (my_envelope_unique _ _ _ _ He He') in Hk. destruct Hk, Hk'. congruence.
Qed.

Lemma verify_iff rot st g identity v :
  verify_and_decrypt rot st g identity = v <-> verify_spec rot st g identity v.
Proof.
  split; [intros <-; apply verify_cases|].
  apply verify_spec_functional, verify_cases.
Qed.

(** *** Building *)

Definition sealed (new_key : Key) (e : KeyEnvelope) : Prop :=
  exists p esk, montgomery_of (recipient_pubkey e) = Some p /\
    box_encrypt p esk (nonce e) new_key = Some (ciphertext e) /\
    ephemeral_pubkey e = box_public esk.

Lemma seal_all_Ok k rs w envs w' :
  seal_all k rs w = (Ok envs, w') ->
  recipient_pubkey <$> envs = rs /\ Forall (sealed k) envs /\ w_fs w' = w_fs w.
Proof.
  revert w envs. induction rs as [|r rs IH]; intros w envs Hs; cbn [seal_all] in Hs; inv_ok.
  { done. }
  match goal with H : seal_all _ _ _ = _ |- _ => apply IH in H as (<- & Hf & Hw) end.
  match goal with H : seal_for _ _ _ = _ |- _ => unfold seal_for in H end. inv_ok.
  unfold ed25519_pub_to_box_pub in *. inv_ok.
  repeat match goal with H : fill_bytes _ _ = _ |- _ => injection H as <- <- end.
  split; [done|]. split; [|done]. constructor; [|done]. by eexists _, _.
Qed.

Lemma build_Ok sk ep k rs w rot w' :
  build_signed_rotation sk ep k rs w = (Ok rot, w') ->
  signed_by_rotator rot /\ rotator_pubkey rot = public_key sk /\ epoch rot = ep /\
  recipient_pubkey <$> envelopes rot = dedup_by id (sort_by id rs) /\
  Forall (sealed k) (envelopes rot) /\ w_fs w' = w_fs w.
Proof.
  unfold build_signed_rotation. cbv zeta. intros Hb. inv_ok.
  match goal with H : seal_all _ _ _ = _ |- _ => apply seal_all_Ok in H as (? & ? & ?) end.
  split; [|done]. split; simpl; [apply pk_from_bytes_public | apply sig_verify_sign].
Qed.

Lemma opens_sealed identity k e :
  length k = KEY_LEN -> recipient_pubkey e = public_key identity -> sealed k e ->
  opens identity e k.
Proof.
  intros Hk Hr (p & esk & Hp & Hc & He). split; [|done]. rewrite He. rewrite Hr in Hp.
  by eapply box_decrypt_encrypt.
Qed.

Lemma elem_of_recipients m (rs : list MemberId) : m ∈ dedup_by id (sort_by id rs) <-> m ∈ rs.
Proof.
  rewrite <- (elem_of_sort_by id m rs). split; [apply dedup_by_subset|].
  intros Hm. destruct (dedup_by_keys id _ m Hm) as (x & Hx & E). simpl in E. by subst.
Qed.

Lemma my_envelope_exists rot me :
  me ∈ recipient_pubkey <$> envelopes rot -> exists e, my_envelope rot me e /\ e ∈ envelopes rot.
Proof.
  intros (e0 & -> & Hin)%list_elem_of_fmap_1.
  pose proof (first_envelope rot (recipient_pubkey e0)) as Hf.
  destruct (find _ _) as [e|].
  - exists e. split; [done|]. destruct Hf as (pre & post & -> & _). set_solver.
  - rewrite Forall_forall in Hf. by apply Hf in Hin.
Qed.
End lemmas.

(** *** File names of the queue *)

Definition digit_byte (b : byte) : Prop := 48 <= Z_of_byte b < 58.

Lemma pretty_N_char_digit x : digit_byte (Ascii.byte_of_ascii (pretty_N_char x)).
Proof. unfold pretty_N_char. repeat case_match; vm_compute; split; congruence. Qed.

Lemma pretty_N_go_digits x s :
  Forall digit_byte (string_bytes s) -> Forall digit_byte (string_bytes (pretty_N_go x s)).
Proof.
  revert s. induction (N.lt_wf_0 x) as [x _ IH]; intros s Hs.
  assert (x = 0 \/ 0 < x)%N as [->|Hx] by lia; [by rewrite pretty_N_go_0|].
  rewrite pretty_N_go_step by done. apply IH; [by apply N.div_lt|].
  constructor; [apply pretty_N_char_digit | done].
Qed.

Lemma pretty_digits (x : N) : Forall digit_byte (string_bytes (pretty x)).
Proof.
  unfold pretty, pretty_N. case_decide; [by repeat constructor|].
  apply pretty_N_go_digits. constructor.
Qed.

Lemma pretty_go_nonempty x s : s <> ""%string -> pretty_N_go x s <> ""%string.
Proof.
  revert s. induction (N.lt_wf_0 x) as [x _ IH]; intros s Hs.
  assert (x = 0 \/ 0 < x)%N as [->|Hx] by lia; [by rewrite pretty_N_go_0|].
  rewrite pretty_N_go_step by done. apply IH; [by apply N.div_lt|done].
Qed.

Lemma pretty_nonempty (x : N) : pretty x <> ""%string.
Proof.
  unfold pretty, pretty_N. case_decide; [done|].
  rewrite pretty_N_go_step by lia. by apply pretty_go_nonempty.
Qed.

Lemma rsplit_dot_none s : dot ∉ s -> rsplit_dot s = None.
Proof.
  induction s as [|c s IH]; intros Hs; [done|]. simpl.
  rewrite IH by set_solver. rewrite decide_False by set_solver. done.
Qed.

Lemma rsplit_dot_app a b : dot ∉ b -> rsplit_dot (a ++ dot :: b) = Some (a, b).
Proof.
  intros Hb. induction a as [|c a IH]; simpl.
  - by rewrite rsplit_dot_none.
  - by rewrite IH.
Qed.

Lemma stem_ext_app n e :
  n <> ""%string -> dot ∉ string_bytes e -> stem_ext (n +:+ "." +:+ e) = (n, Some e).
Proof.
  intros Hn He. unfold stem_ext. rewrite !string_bytes_app.
  change (string_bytes ".") with [dot]. cbn [app]. rewrite rsplit_dot_app by done.
  destruct (string_bytes n) eqn:E.
  - destruct Hn. by apply string_bytes_inj.
  - rewrite <- E. by rewrite !bytes_string_bytes.
Qed.

Lemma pending_name_stem e : stem_ext (pending_name e) = (pretty (Z.to_N e), Some "bin"%string).
Proof.
  change (pending_name e) with (pretty (Z.to_N e) +:+ "." +:+ "bin").
  apply stem_ext_app; [apply pretty_nonempty|]. vm_compute. set_solver.
Qed.

Lemma pending_name_plain e : plain_name (pending_name e).
Proof.
  apply plain_name_intro.
  - unfold pending_name. rewrite string_bytes_app, elem_of_app. intros [Hs|Hs].
    + pose proof (pretty_digits (Z.to_N e)) as Hd. rewrite Forall_forall in Hd.
      apply Hd in Hs. vm_compute in Hs. by destruct Hs.
    + vm_compute in Hs. set_solver.
  - unfold pending_name. destruct (pretty _) eqn:E; [by apply pretty_nonempty in E|done].
  - unfold pending_name. destruct (pretty _) as [|c s] eqn:E; [by apply pretty_nonempty in E|].
    by destruct s.
  - unfold pending_name. destruct (pretty _) as [|c [|c' s]] eqn:E;
      [by apply pretty_nonempty in E|done|]. by destruct s.
Qed.

Lemma pending_name_inj e e' : 0 <= e -> 0 <= e' -> pending_name e = pending_name e' -> e = e'.
Proof.
  intros ?? E. apply (f_equal stem_ext) in E. rewrite !pending_name_stem in E.
  injection E as E%(inj pretty). lia.
Qed.

Definition pending_tmp_name (e : Z) : string := pretty (Z.to_N e) +:+ ".bin.tmp".

Lemma extension_snoc (p : path) n :
  n <> ".."%string -> extension (p ++ [n]) = snd (stem_ext n).
Proof. intros Hn. unfold extension. by rewrite file_name_snoc. Qed.

Lemma pending_tmp_plain e : pending_tmp_name e <> ".."%string.
Proof.
  unfold pending_tmp_name. destruct (pretty _) as [|c [|c' s]] eqn:E;
    [by apply pretty_nonempty in E|done|]. by destruct s.
Qed.

Lemma pending_ext (p : path) e : extension (p ++ [pending_name e]) = Some "bin"%string.
Proof.
  rewrite extension_snoc by apply plain_name_dotdot, pending_name_plain.
  by rewrite pending_name_stem.
Qed.

Lemma pending_tmp_ext (p : path) e :
  extension (p ++ [pending_tmp_name e]) = Some "tmp"%string.
Proof.
  rewrite extension_snoc by apply pending_tmp_plain. unfold pending_tmp_name.
  replace (pretty (Z.to_N e) +:+ ".bin.tmp") with (pending_name e +:+ "." +:+ "tmp").
  - rewrite stem_ext_app; [done| |vm_compute; set_solver].
    destruct (pending_name_plain e) as [Hc _]. intros E. rewrite E in Hc. discriminate.
  - apply string_bytes_inj. unfold pending_name. by rewrite !string_bytes_app, <- !app_assoc.
Qed.

Lemma pending_tmp_eq (p : path) e :
  with_extension (p ++ [pending_name e]) "bin.tmp" = p ++ [pending_tmp_name e].
Proof.
  rewrite with_extension_snoc by apply plain_name_dotdot, pending_name_plain.
  by rewrite pending_name_stem.
Qed.

Lemma pending_tmp_ne (p : path) e e' : p ++ [pending_tmp_name e] <> p ++ [pending_name e'].
Proof.
  intros E. apply (f_equal extension) in E. rewrite pending_tmp_ext, pending_ext in E. done.
Qed.

(** *** The queue *)

Section queue.
Context `{!Bincode SignedRotation} (dd : path) (sid : string).

Definition pdir : path := share_dir dd sid ++ ["pending_rotations"].
Definition pfile (e : Z) : path := pdir ++ [pending_name e].
Definition ptmp (e : Z) : path := pdir ++ [pending_tmp_name e].

Lemma pending_dir_eq : pending_dir dd sid = pdir.
Proof. apply join_plain. plain_const. Qed.

Lemma save_pending_run_eq rot raw w :
  bin_encode rot = Some raw ->
  snd (save_pending dd sid rot w) =
    snd (write_atomic pdir (pfile (epoch rot)) (ptmp (epoch rot)) raw (Some mode_0600) w) /\
  (fst (save_pending dd sid rot w) = Ok tt <->
   fst (write_atomic pdir (pfile (epoch rot)) (ptmp (epoch rot)) raw (Some mode_0600) w) = Ok tt).
Proof.
  intros E.
  assert (save_pending dd sid rot ≈ₘ
    write_atomic pdir (pfile (epoch rot)) (ptmp (epoch rot)) raw (Some mode_0600)) as Hm.
  { unfold save_pending, write_atomic. rewrite pending_dir_eq. cbv zeta.
    rewrite join_plain by apply pending_name_plain. rewrite pending_tmp_eq, E.
    change (ok_or _ (Some raw)) with (Ok raw).
    rewrite ctx_meq. apply bind_proper; [reflexivity|]. intros _.
    transitivity (ctx "writing" (fs_write (ptmp (epoch rot)) raw) ;;;
      ctx "renaming" (fs_rename (ptmp (epoch rot)) (pfile (epoch rot))) ;;;
      ctx "chmod 0600" (fs_set_mode (pfile (epoch rot)) mode_0600)).
    { by intros w1; split; [destruct (fst _); constructor|]. }
    rewrite ctx_meq. apply bind_proper; [reflexivity|]. intros _.
    rewrite ctx_meq. apply bind_proper; [reflexivity|]. intros _. apply ctx_meq. }
  destruct (Hm w) as [Ho Hw]. split; [done|].
  destruct Ho; split; congruence.
Qed.

Lemma pfile_not_ancestor e : pfile e ∉ ancestors pdir.
Proof. apply ancestors_length_ne. Qed.

Lemma node_of_data fs p d : data_at fs p = Some d -> exists f, fs !! p = Some (NFile f) /\ f_data f = d.
Proof. unfold data_at, file_at. intros. repeat case_match; naive_solver. Qed.

(** A file of the queue other than the one saved is untouched. *)
Lemma near_other e e' fs fs' :
  0 <= e -> 0 <= e' -> e' <> e -> saved_near pdir (pfile e) (ptmp e) fs fs' ->
  fs' !! pfile e' = fs !! pfile e'.
Proof.
  intros ??? Hn. apply Hn.
  - intros E%app_inv_head. injection E as E. by apply pending_name_inj in E.
  - intros E. symmetry in E. by apply pending_tmp_ne in E.
  - apply pfile_not_ancestor.
Qed.

Lemma saved_repr e fs fs' (m m' : gmap Z SignedRotation) :
  0 <= e -> pending_repr pdir fs m -> saved_near pdir (pfile e) (ptmp e) fs fs' ->
  (forall e', e' <> e -> m' !! e' = m !! e') ->
  match m' !! e with
  | Some r => epoch r = e /\ exists raw, data_at fs' (pfile e) = Some raw /\
                fst <$> bin_decode raw = Some r
  | None => fs' !! pfile e = None
  end ->
  pending_repr pdir fs' m'.
Proof.
  intros He [Hd Hep Hfile Hname] Hn Hm Hnew. split.
  - by apply Hn.
  - intros e' r Hr. destruct (decide (e' = e)) as [->|Hne].
    + rewrite Hr in Hnew. naive_solver.
    + rewrite Hm in Hr by done. by apply Hep.
  - intros e' r Hr. destruct (decide (e' = e)) as [->|Hne].
    + rewrite Hr in Hnew. naive_solver.
    + rewrite Hm in Hr by done. destruct (Hep _ _ Hr). destruct (Hfile _ _ Hr) as (raw & Hraw & ?).
      exists raw. split; [|done]. unfold data_at, file_at in *.
      change (pdir ++ [pending_name e']) with (pfile e') in *.
      by rewrite (near_other e e' fs fs').
  - intros n Hin Hext. destruct (decide (pdir ++ [n] = pfile e)) as [E|Hne].
    + apply app_inv_head in E. injection E as ->. fold (pfile e) in Hin.
      destruct (m' !! e) as [r|] eqn:Er; [by exists e, r|]. rewrite Hnew in Hin. by destruct Hin.
    + assert (pdir ++ [n] <> ptmp e).
      { intros E. rewrite E in Hext. unfold ptmp in Hext. by rewrite pending_tmp_ext in Hext. }
      rewrite (sn_frame _ _ _ _ _ Hn) in Hin by (done || apply ancestors_length_ne).
      destruct (Hname n Hin Hext) as (e' & r & Hr & ->). exists e', r. split; [|done].
      rewrite Hm; [done|]. intros ->. by destruct Hne.
Qed.

(** A save under any faults, seen on the map of epochs. *)
Lemma save_pending_repr rot raw w (m : gmap Z SignedRotation) :
  pending_repr pdir (w_fs w) m -> 0 <= epoch rot -> bin_encode rot = Some raw ->
  let fs' := w_fs (snd (save_pending dd sid rot w)) in
  (pending_repr pdir fs' m \/ pending_repr pdir fs' (<[epoch rot := rot]> m)) /\
  (fst (save_pending dd sid rot w) = Ok tt ->
   pending_repr pdir fs' (<[epoch rot := rot]> m)).
Proof.
  intros Hr He Henc. cbv zeta. set (e := epoch rot).
  destruct (save_pending_run_eq rot raw w Henc) as [-> Hok].
  assert (ptmp e <> pfile e) as Hne by apply pending_tmp_ne.
  pose proof (write_atomic_near pdir (pfile e) (ptmp e) raw (Some mode_0600) w Hne
    (pfile_not_ancestor e)) as Hn.
  pose proof (write_atomic_atomic pdir (pfile e) (ptmp e) raw (Some mode_0600) w Hne) as Hat.
  cbv zeta in Hat. fold e in Hok |- *. set (fs' := w_fs (snd (write_atomic _ _ _ _ _ w))) in *.
  assert (data_at fs' (pfile e) = Some raw -> pending_repr pdir fs' (<[e:=rot]> m)) as Hnew.
  { intros Hd. apply (saved_repr e (w_fs w) fs' m); [done..| |].
    - intros e' ?. by rewrite lookup_insert_ne.
    - rewrite lookup_insert_eq. split; [done|]. exists raw. split; [done|].
      destruct (bin_decode_encode _ _ Henc) as [n ->]. done. }
  split.
  - destruct Hat as [Hold|Hd]; [|right; by apply Hnew]. left.
    apply (saved_repr e (w_fs w) fs' m); [done..| |]; [done|].
    destruct (m !! e) as [r|] eqn:Em.
    + destruct (pr_epoch _ _ _ Hr _ _ Em) as [? _]. split; [done|].
      rewrite Hold. by apply (pr_file _ _ _ Hr).
    + destruct (sn_target _ _ _ _ _ Hn) as [->|[f Hf]].
      * destruct (w_fs w !! pfile e) eqn:E; [|done].
        destruct (pr_name _ _ _ Hr (pending_name e)) as (e' & r & Hm & Hn').
        -- unfold pfile in E. by rewrite E.
        -- apply pending_ext.
        -- destruct (pr_epoch _ _ _ Hr _ _ Hm). apply pending_name_inj in Hn'; [|done..].
           subst. congruence.
      * exfalso. assert (is_Some (data_at (w_fs w) (pfile e))) as [d Hd].
        { rewrite <- Hold. unfold data_at, file_at. by rewrite Hf. }
        apply node_of_data in Hd as (g & Hg & _).
        destruct (pr_name _ _ _ Hr (pending_name e)) as (e' & r & Hm & Hn').
        -- unfold pfile in Hg. by rewrite Hg.
        -- apply pending_ext.
        -- destruct (pr_epoch _ _ _ Hr _ _ Hm). apply pending_name_inj in Hn'; [|done..].
           subst. congruence.
  - intros Hok'%Hok. apply Hnew.
    destruct (write_atomic _ _ _ _ _ w) as [o w'] eqn:E. simpl in *. subst.
    by apply write_atomic_Ok in E as [? _].
Qed.

(** *** Reading the queue *)

Lemma load_entries_run names w (m : gmap Z SignedRotation) :
  w_faults w = [] -> pending_repr pdir (w_fs w) m ->
  (forall n, n ∈ names -> is_Some (w_fs w !! (pdir ++ [n]))) ->
  exists out, load_pending_entries pdir names w = (Ok out, w) /\
    (fun r => pending_name (epoch r)) <$> out =
      filter (fun n => extension (pdir ++ [n]) = Some "bin"%string) names /\
    Forall (fun r => m !! epoch r = Some r) out.
Proof.
  intros Hf Hr. induction names as [|n names IH]; intros Hn; cbn [load_pending_entries].
  - exists []. done.
  - destruct IH as (out & Hout & Hnm & Hm); [set_solver|].
    destruct (decide (extension (pdir ++ [n]) <> Some "bin"%string)) as [Hx|Hx].
    + exists out. split; [done|]. by rewrite filter_cons_False.
    + apply dec_stable in Hx.
      destruct (pr_name _ _ _ Hr n) as (e & r & Hmr & ->); [apply Hn; set_solver|done|].
      destruct (pr_epoch _ _ _ Hr _ _ Hmr) as [He _].
      destruct (pr_file _ _ _ Hr _ _ Hmr) as (raw & Hraw & Hdec).
      exists (r :: out).
      erewrite bind_run by (apply ctx_Ok; by apply fs_read_run).
      rewrite Hdec. unfold bind at 1, lift. simpl ok_or. cbn iota beta.
      rewrite (bind_run _ _ _ out w) by done. split; [done|].
      rewrite filter_cons_True by done. rewrite fmap_cons, He. split; [by f_equal|].
      constructor; [by rewrite He|done].
Qed.

Context `{MD : Metadata, ReadDir}.

Lemma load_pending_repr w (m : gmap Z SignedRotation) :
  w_faults w = [] -> pending_repr pdir (w_fs w) m ->
  load_pending dd sid w = (Ok (sort_by epoch (map_to_list m).*2), w).
Proof.
  intros Hf Hr. unfold load_pending. rewrite pending_dir_eq. cbv zeta.
  rewrite (bind_run _ _ _ true w).
  2: { rewrite fs_exists_run by by apply quiet_readable. by rewrite (pr_dir _ _ _ Hr), bool_decide_true by done. }
  change (negb true) with false. cbv iota. set (names := dir_order pdir (children (w_fs w) pdir)).
  rewrite (bind_run _ _ _ names w).
  2: { apply ctx_Ok. unfold fs_read_dir. rewrite io_run by done. unfold op_read_dir.
       rewrite (pr_dir _ _ _ Hr). simpl. by rewrite set_fs_id. }
  assert (names ≡ₚ children (w_fs w) pdir) as Hp by apply dir_order_perm.
  destruct (load_entries_run names w m Hf Hr) as (out & Hout & Hnm & Hm).
  { intros n Hn. rewrite Hp in Hn. by apply elem_of_children. }
  rewrite (bind_run _ _ _ out w) by done. unfold ret. do 2 f_equal.
  rewrite Forall_forall in Hm.
  assert (forall r r', r ∈ out -> r' ∈ out -> epoch r = epoch r' -> r = r') as Hinj.
  { intros r r' Hin Hin' E. apply Hm in Hin, Hin'. rewrite E in Hin. congruence. }
  apply sort_by_unique; [done|]. apply NoDup_Permutation.
  - apply (NoDup_fmap_1 (fun r => pending_name (epoch r))). rewrite Hnm, Hp.
    apply NoDup_filter, children_nodup.
  - apply (NoDup_fmap_1 epoch).
    assert (epoch <$> (map_to_list m).*2 = (map_to_list m).*1) as ->;
      [|apply NoDup_fst_map_to_list].
    rewrite <- list_fmap_compose. apply list_fmap_ext. intros i [e r] Hi.
    apply list_elem_of_lookup_2, elem_of_map_to_list in Hi. simpl.
    by destruct (pr_epoch _ _ _ Hr _ _ Hi).
  - intros r. split.
    + intros Hin%Hm. apply list_elem_of_fmap. exists (epoch r, r). split; [done|].
      by apply elem_of_map_to_list.
    + intros ([e r'] & -> & Hin)%list_elem_of_fmap. apply elem_of_map_to_list in Hin. simpl.
      destruct (pr_epoch _ _ _ Hr _ _ Hin) as [He ?].
      assert (pending_name e ∈ (fun r => pending_name (epoch r)) <$> out) as Hin'.
      { rewrite Hnm, list_elem_of_filter. split; [apply pending_ext|]. rewrite Hp.
        apply elem_of_children. destruct (pr_file _ _ _ Hr _ _ Hin) as (raw & Hraw & _).
        apply node_of_data in Hraw as (f & Hf' & _). by rewrite Hf'. }
      apply list_elem_of_fmap in Hin' as (r2 & E & Hr2). pose proof (Hm _ Hr2) as Hm2.
      destruct (pr_epoch _ _ _ Hr _ _ Hm2) as [_ ?].
      apply pending_name_inj in E; [|done..]. rewrite <- E in Hm2. congruence.
Qed.
End queue.

(** ** Properties *)

Section properties.
Context `{Entropy, Blake3, Ed25519, !CryptoBox}.
Context `{!Bincode rotation_tuple, !BincodeTotal rotation_tuple, !Bincode SignedRotation}.
Context `{!Bincode canonical_tuple, !BincodeTotal canonical_tuple, !GroupCrdt}.

(** C14. [verify_and_decrypt] gives each of its five answers exactly when
    [verify_spec] allows it: a key is only ever accepted from a rotation
    signed by a current owner of the share, out of the first envelope
    addressed to us. *)
Theorem verify_refines_spec (rot : SignedRotation) (st : AuthState) (g : MemberId)
    (identity : bytes) (v : VerifyOutcome) :
  verify_and_decrypt rot st g identity = v <-> verify_spec rot st g identity v.
Proof. apply verify_iff. Qed.

(** C26. A rotation built by an owner reaches exactly its recipients: each of
    them recovers the new key, everybody else is told that the rotation is
    not for them, and a receiver that does not know the rotator as an owner
    refuses it. *)
Theorem rotation_reaches_recipients (sk : bytes) (ep : Z) (new_key : Key)
    (recipients : list MemberId) (w w' : world) (rot : SignedRotation)
    (Hk : length new_key = KEY_LEN)
    (Hb : build_signed_rotation sk ep new_key recipients w = (Ok rot, w'))
    (st : AuthState) (g : MemberId) (identity : bytes) :
  ((public_key sk, Owner) ∈ members st g -> public_key identity ∈ recipients ->
   verify_and_decrypt rot st g identity = OkForUs new_key) /\
  ((public_key sk, Owner) ∈ members st g -> public_key identity ∉ recipients ->
   verify_and_decrypt rot st g identity = NotForUs) /\
  ((public_key sk, Owner) ∉ members st g ->
   verify_and_decrypt rot st g identity = NotAManager).
Proof.
  apply build_Ok in Hb as (Hs & Hpk & _ & Hrec & Hsealed & _).
  assert (forall m, m ∈ recipient_pubkey <$> envelopes rot <-> m ∈ recipients) as Hin.
  { intros m. rewrite Hrec. apply elem_of_recipients. }
  rewrite !verify_iff. unfold rotator_owns. split; [|split]; intros Ho.
  - intros Hm%Hin. destruct (my_envelope_exists _ _ Hm) as (e & He & Hine).
    eapply VS_ok; try done; [by unfold rotator_owns; rewrite Hpk|].
    apply opens_sealed; [done| |].
    + by destruct He as (? & ? & _ & ? & _).
    + rewrite Forall_forall in Hsealed. by apply Hsealed.
  - intros Hm. apply VS_none; [done|by unfold rotator_owns; rewrite Hpk|].
    apply Forall_forall. intros e He E. apply Hm, Hin. rewrite <- E.
    by apply list_elem_of_fmap_2.
  - apply VS_role; [done|]. unfold rotator_owns. by rewrite Hpk.
Qed.

(** The envelopes come in the order of the recipients' raw keys without
    repetition, whatever the order in which the members were listed. *)
Theorem rotation_deterministic_order (sk1 sk2 : bytes) (ep1 ep2 : Z) (k1 k2 : Key)
    (rs1 rs2 : list MemberId) (w1 w2 w1' w2' : world) (rot1 rot2 : SignedRotation)
    (Hb1 : build_signed_rotation sk1 ep1 k1 rs1 w1 = (Ok rot1, w1'))
    (Hb2 : build_signed_rotation sk2 ep2 k2 rs2 w2 = (Ok rot2, w2')) (Hp : rs1 ≡ₚ rs2) :
  recipient_pubkey <$> envelopes rot1 = recipient_pubkey <$> envelopes rot2 /\
  NoDup (recipient_pubkey <$> envelopes rot1).
Proof.
  apply build_Ok in Hb1 as (_ & _ & _ & -> & _). apply build_Ok in Hb2 as (_ & _ & _ & -> & _).
  rewrite (sort_by_unique id rs1 rs2) by done. split; [done|].
  rewrite <- (list_fmap_id (dedup_by id _)). apply dedup_by_nodup, sort_by_sorted.
Qed.

(** C39. Queueing a rotation, under any pattern of I/O failures: the queue
    directory represents the old map from epochs to rotations or the one
    with the new rotation at its epoch, and the latter when the save reports
    success. *)
Theorem save_pending_refines (dd : path) (sid : string) (rot : SignedRotation) (raw : bytes)
    (w : world) (m : gmap Z SignedRotation) (Hr : pending_repr (pending_dir dd sid) (w_fs w) m)
    (He : 0 <= epoch rot) (Henc : bin_encode rot = Some raw) :
  let '(o, w') := save_pending dd sid rot w in
  (pending_repr (pending_dir dd sid) (w_fs w') m \/
   pending_repr (pending_dir dd sid) (w_fs w') (<[epoch rot := rot]> m)) /\
  (o = Ok tt -> pending_repr (pending_dir dd sid) (w_fs w') (<[epoch rot := rot]> m)).
Proof.
  rewrite pending_dir_eq in *. pose proof (save_pending_repr dd sid rot raw w m Hr He Henc) as Hs.
  by destruct (save_pending dd sid rot w) as [o w'].
Qed.

(** Reading the queue back lists the rotations it represents, by ascending
    epoch, in whatever order the host enumerates the directory; leftovers of
    interrupted saves are ignored. *)
Theorem load_pending_refines `{MD : Metadata, ReadDir} (dd : path) (sid : string) (w : world)
    (m : gmap Z SignedRotation) (Hf : w_faults w = [])
    (Hr : pending_repr (pending_dir dd sid) (w_fs w) m) :
  load_pending dd sid w = (Ok (sort_by epoch (map_to_list m).*2), w).
Proof. rewrite pending_dir_eq in Hr. by apply load_pending_repr. Qed.
End properties.

(** ** Witnesses *)

#[export] Instance ser_envelope : Ser KeyEnvelope.
Proof.
  refine (ser_inj (B := (MemberId * bytes) * (bytes * bytes))
    (fun e => ((recipient_pubkey e, ephemeral_pubkey e), (nonce e, ciphertext e)))
    (fun x => Some {| recipient_pubkey := x.1.1; ephemeral_pubkey := x.1.2;
                      nonce := x.2.1; ciphertext := x.2.2 |}) _).
  by intros [].
Defined.

#[export] Instance ser_rotation : Ser SignedRotation.
Proof.
  refine (ser_inj (B := (Z * MemberId) * (bytes * list KeyEnvelope))
    (fun r => ((epoch r, rotator_pubkey r), (signature r, envelopes r)))
    (fun x => Some {| epoch := x.1.1; rotator_pubkey := x.1.2;
                      signature := x.2.1; envelopes := x.2.2 |}) _).
  by intros [].
Defined.

Definition toy_rotation_tuple : Bincode rotation_tuple := toy_bincode _.
Definition toy_rotation_total : @BincodeTotal rotation_tuple toy_rotation_tuple := toy_total _.
Definition toy_rotation : Bincode SignedRotation := toy_bincode _.

Section witnesses.
#[local] Existing Instance toy_metadata.
#[local] Existing Instance toy_entropy.
#[local] Existing Instance toy_blake3.
#[local] Existing Instance toy_ed25519.
#[local] Existing Instance toy_box.
#[local] Existing Instance toy_rotation_tuple.
#[local] Existing Instance toy_rotation_total.
#[local] Existing Instance toy_rotation.
#[local] Existing Instance toy_canonical.
#[local] Existing Instance toy_canonical_total.
#[local] Existing Instance toy_group.
#[local] Existing Instance rev_read_dir.

Definition wr_bob : bytes := wa_key Byte.x0b.
Definition wr_carol : bytes := wa_key Byte.x0c.
Definition wr_key : Key := replicate 32 Byte.x77.
Definition wr_recipients : list MemberId :=
  [public_key wr_carol; public_key wa_alice; public_key wr_carol].
Definition wr_build := build_signed_rotation wa_alice 2 wr_key wr_recipients (world_of root_fs).
Definition wr_rot : SignedRotation := Eval vm_compute in
  match wr_build.1 with
  | Ok r => r
  | _ => {| epoch := 0; rotator_pubkey := []; signature := []; envelopes := [] |}
  end.

Lemma wr_build_Ok : wr_build = (Ok wr_rot, wr_build.2).
Proof. apply injective_projections; [vm_compute; reflexivity | reflexivity]. Qed.

Lemma wr_alice_owns : (public_key wa_alice, Owner) ∈ members wa_final wa_gid.
Proof.
  assert (existsb (fun x => bool_decide (x = (public_key wa_alice, Owner)))
    (members wa_final wa_gid) = true) as Hb by (vm_compute; reflexivity).
  apply existsb_exists in Hb as (x & Hx & ->%bool_decide_eq_true). by apply list_elem_of_In.
Qed.

Lemma wr_bob_out : public_key wr_bob ∉ wr_recipients.
Proof. apply (bool_decide_unpack (_ ∉ _)). vm_compute. exact I. Qed.

Lemma wr_carol_in : public_key wr_carol ∈ wr_recipients.
Proof. unfold wr_recipients. set_solver. Qed.

Lemma verify_refines_spec_witness :
  verify_spec wr_rot wa_final wa_gid wr_carol (OkForUs wr_key).
Proof. apply verify_refines_spec. vm_compute. reflexivity. Defined.

Lemma rotation_reaches_recipients_witness :
  verify_and_decrypt wr_rot wa_final wa_gid wr_carol = OkForUs wr_key /\
  verify_and_decrypt wr_rot wa_final wa_gid wr_bob = NotForUs.
Proof.
  split.
  - apply (rotation_reaches_recipients wa_alice 2 wr_key wr_recipients (world_of root_fs)
      wr_build.2 wr_rot eq_refl wr_build_Ok); [exact wr_alice_owns | exact wr_carol_in].
  - apply (rotation_reaches_recipients wa_alice 2 wr_key wr_recipients (world_of root_fs)
      wr_build.2 wr_rot eq_refl wr_build_Ok); [exact wr_alice_owns | exact wr_bob_out].
Defined.

Definition wr_recipients' : list MemberId :=
  [public_key wr_carol; public_key wr_carol; public_key wa_alice].
Definition wr_build' := build_signed_rotation wr_bob 7 wr_key wr_recipients' (world_of root_fs).
Definition wr_rot' : SignedRotation := Eval vm_compute in
  match wr_build'.1 with Ok r => r | _ => wr_rot end.

Lemma wr_build'_Ok : wr_build' = (Ok wr_rot', wr_build'.2).
Proof. apply injective_projections; [vm_compute; reflexivity | reflexivity]. Qed.

Lemma rotation_deterministic_order_witness :
  recipient_pubkey <$> envelopes wr_rot = recipient_pubkey <$> envelopes wr_rot' /\
  NoDup (recipient_pubkey <$> envelopes wr_rot).
Proof.
  apply (rotation_deterministic_order wa_alice wr_bob 2 7 wr_key wr_key wr_recipients
    wr_recipients' (world_of root_fs) (world_of root_fs) wr_build.2 wr_build'.2 wr_rot wr_rot'
    wr_build_Ok wr_build'_Ok).
  unfold wr_recipients, wr_recipients'. apply Permutation_skip, Permutation_swap.
Defined.

Definition wr_fs : fsmap := with_dirs (pending_dir ["data"] "share") root_fs.

Lemma wr_fs_repr : pending_repr (pending_dir ["data"] "share") wr_fs ∅.
Proof.
  split; [vm_compute; reflexivity|done|done|].
  intros n Hn. exfalso.
  assert (forallb (fun kn => bool_decide (length kn.1 <= 4)%nat) (map_to_list wr_fs) = true) as Hl
    by (vm_compute; reflexivity).
  destruct Hn as [x Hx%elem_of_map_to_list]. rewrite forallb_forall in Hl.
  apply list_elem_of_In, Hl, bool_decide_eq_true in Hx. cbn [fst] in Hx.
  rewrite length_app in Hx. change (length (pending_dir ["data"] "share")) with 4%nat in Hx.
  simpl in Hx. lia.
Qed.

Definition wr_save := save_pending ["data"] "share" wr_rot (world_of wr_fs).

Definition wr_raw : bytes := Eval vm_compute in ser wr_rot.

(** The plan cuts the write of the temporary file after three bytes. *)
Definition wr_cut : world := World wr_fs [FNone; FPartial 3] 0 0.

Lemma save_pending_refines_witness :
  pending_repr (pending_dir ["data"] "share") (w_fs wr_save.2) (<[2 := wr_rot]> ∅) /\
  (pending_repr (pending_dir ["data"] "share")
     (w_fs (save_pending ["data"] "share" wr_rot wr_cut).2) ∅ \/
   pending_repr (pending_dir ["data"] "share")
     (w_fs (save_pending ["data"] "share" wr_rot wr_cut).2) (<[2 := wr_rot]> ∅)).
Proof.
  assert (He : 0 <= epoch wr_rot) by (vm_compute; discriminate).
  assert (Henc : bin_encode wr_rot = Some wr_raw) by (vm_compute; reflexivity).
  split.
  - pose proof (save_pending_refines ["data"] "share" wr_rot wr_raw (world_of wr_fs) ∅
      wr_fs_repr He Henc) as Hs.
    assert (Ho : wr_save.1 = Ok tt) by (vm_compute; reflexivity). revert Ho. unfold wr_save.
    destruct (save_pending _ _ _ _) as [o w']. cbn [fst snd]. intros ->. by apply Hs.
  - pose proof (save_pending_refines ["data"] "share" wr_rot wr_raw wr_cut ∅
      wr_fs_repr He Henc) as Hs.
    destruct (save_pending _ _ _ _) as [o w']. apply Hs.
Defined.

Definition wr_disk : world := world_of
  (with_file (pending_dir ["data"] "share" ++ ["2.bin"]) wr_raw root_fs).

Lemma wr_disk_repr :
  pending_repr (pending_dir ["data"] "share") (w_fs wr_disk) {[ 2 := wr_rot ]}.
Proof.
  split; [vm_compute; reflexivity| | |].
  - intros e r [<- <-]%lookup_singleton_Some. split; [reflexivity|lia].
  - intros e r [<- <-]%lookup_singleton_Some. exists wr_raw.
    split; vm_compute; reflexivity.
  - intros n [x Hx%elem_of_map_to_list] _. exists 2, wr_rot. split; [done|].
    assert (forallb (fun kn => bool_decide (child_of (pending_dir ["data"] "share") kn.1 = None \/
      child_of (pending_dir ["data"] "share") kn.1 = Some "2.bin"%string))
      (map_to_list (w_fs wr_disk)) = true) as Hl by (vm_compute; reflexivity).
    rewrite forallb_forall in Hl. apply list_elem_of_In, Hl, bool_decide_eq_true in Hx.
    assert (child_of (pending_dir ["data"] "share") (pending_dir ["data"] "share" ++ [n]) = Some n)
      as E by by apply child_of_Some.
    cbn [fst] in Hx. rewrite E in Hx. destruct Hx as [[=]|[= ->]]. vm_compute. reflexivity.
Qed.

Lemma load_pending_refines_witness :
  load_pending ["data"] "share" wr_disk = (Ok [wr_rot], wr_disk).
Proof.
  rewrite (load_pending_refines ["data"] "share" wr_disk {[ 2 := wr_rot ]} eq_refl wr_disk_repr).
  by rewrite map_to_list_singleton.
Defined.
End witnesses.
