(* ===== verification/Ticket.v ===== *)
(** * Share invitations ([src/ticket.rs])

    A ticket is a bincode payload in URL-safe base64.  [decode] ignores white
    space around the text and rejects other versions, an empty keyring and an
    empty membership log. *)

From S2P Require Import Prelude World External Instances Share Crypto Auth.

Definition TICKET_VERSION : Z := 2.

Record Ticket := {
  version : Z;
  share_id : string;
  topic : string;
  tkeys : list Key;
  auth_log : list SignedOp;
  invitee_pubkey : bytes;
  role : ShareRole;
}.

#[export] Instance Ticket_eq_dec : EqDecision Ticket.
Proof. solve_decision. Defined.

(** ** [str::trim] *)

(** UTF-8 encodings of the characters with the White_Space property. *)
Definition white_space : list bytes :=
  [ [Byte.x09]; [Byte.x0a]; [Byte.x0b]; [Byte.x0c]; [Byte.x0d]; [Byte.x20];
    [Byte.xc2; Byte.x85]; [Byte.xc2; Byte.xa0]; [Byte.xe1; Byte.x9a; Byte.x80];
    [Byte.xe2; Byte.x80; Byte.x80]; [Byte.xe2; Byte.x80; Byte.x81];
    [Byte.xe2; Byte.x80; Byte.x82]; [Byte.xe2; Byte.x80; Byte.x83];
    [Byte.xe2; Byte.x80; Byte.x84]; [Byte.xe2; Byte.x80; Byte.x85];
    [Byte.xe2; Byte.x80; Byte.x86]; [Byte.xe2; Byte.x80; Byte.x87];
    [Byte.xe2; Byte.x80; Byte.x88]; [Byte.xe2; Byte.x80; Byte.x89];
    [Byte.xe2; Byte.x80; Byte.x8a]; [Byte.xe2; Byte.x80; Byte.xa8];
    [Byte.xe2; Byte.x80; Byte.xa9]; [Byte.xe2; Byte.x80; Byte.xaf];
    [Byte.xe2; Byte.x81; Byte.x9f]; [Byte.xe3; Byte.x80; Byte.x80] ].

Fixpoint strip_prefix (p s : bytes) : option bytes :=
  match p, s with
  | [], s => Some s
  | x :: p, y :: s => if decide (x = y) then strip_prefix p s else None
  | _ :: _, [] => None
  end.

(** Strip one of the given prefixes. *)
Definition strip_any (ps : list bytes) (s : bytes) : option bytes :=
  head (omap (fun p => strip_prefix p s) ps).

(** Every turn shortens the text: its length is fuel enough. *)
Fixpoint strip_all (fuel : nat) (ps : list bytes) (s : bytes) : bytes :=
  match fuel with
  | O => s
  | S fuel =>
      match strip_any ps s with
      | Some s => strip_all fuel ps s
      | None => s
      end
  end.

Definition trim_start (s : bytes) : bytes := strip_all (length s) white_space s.
Definition trim_end (s : bytes) : bytes :=
  rev (strip_all (length s) (@rev byte <$> white_space) (rev s)).
Definition trim (s : string) : string :=
  bytes_string (trim_end (trim_start (string_bytes s))).

(** ** [encode] and [decode] *)

Section ticket.
Context `{!Bincode Ticket, Base64}.

Definition encode (t : Ticket) : outcome string :=
  try! raw := ok_or (EMsg "encoding ticket") (bin_encode t) in
  Ok (b64_encode raw).

Definition decode (s : string) : outcome Ticket :=
  try! raw := ok_or (EMsg "ticket is not valid base64") (b64_decode (trim s)) in
  try! ticket := ok_or (EMsg "ticket payload is malformed") (fst <$> bin_decode raw) in
  if negb (version ticket =? TICKET_VERSION) then Err (EBadTicketVersion (version ticket)) else
  if decide (tkeys ticket = []) then Err (EMsg "ticket has no keys") else
  if decide (auth_log ticket = []) then Err (EMsg "ticket has no auth log") else
  Ok ticket.

(** ** Specification *)

Definition ticket_wf (t : Ticket) : Prop :=
  version t = TICKET_VERSION /\ tkeys t <> [] /\ auth_log t <> [].

(** A text made of white-space characters. *)
Inductive blank : bytes -> Prop :=
  | blank_nil : blank []
  | blank_cons c s : c ∈ white_space -> blank s -> blank (c ++ s).

(** What decoding reads off a text, before validation. *)
Definition payload (s : string) : option Ticket :=
  raw ← b64_decode (trim s); fst <$> bin_decode raw.

(** What decoding a text may come to, one case per reason to refuse it. *)
Inductive decodes (s : string) : outcome Ticket -> Prop :=
  | decodes_not_base64 :
      b64_decode (trim s) = None -> decodes s (Err (EMsg "ticket is not valid base64"))
  | decodes_malformed raw :
      b64_decode (trim s) = Some raw -> bin_decode (A := Ticket) raw = None ->
      decodes s (Err (EMsg "ticket payload is malformed"))
  | decodes_version t :
      payload s = Some t -> version t <> TICKET_VERSION ->
      decodes s (Err (EBadTicketVersion (version t)))
  | decodes_no_keys t :
      payload s = Some t -> version t = TICKET_VERSION -> tkeys t = [] ->
      decodes s (Err (EMsg "ticket has no keys"))
  | decodes_no_log t :
      payload s = Some t -> version t = TICKET_VERSION -> tkeys t <> [] -> auth_log t = [] ->
      decodes s (Err (EMsg "ticket has no auth log"))
  | decodes_ok t : payload s = Some t -> ticket_wf t -> decodes s (Ok t).

(** ** Lemmas *)

Lemma strip_prefix_app p s : strip_prefix p (p ++ s) = Some s.
Proof. induction p; simpl; [done|]. by rewrite decide_True. Qed.

Lemma strip_prefix_Some p s r : strip_prefix p s = Some r -> s = p ++ r.
Proof.
  revert s. induction p as [|x p IH]; intros [|y s]; simpl; try congruence.
  case_decide; [|done]. subst. intros ->%IH. done.
Qed.

Lemma strip_any_Some ps s r : strip_any ps s = Some r -> exists p, p ∈ ps /\ s = p ++ r.
Proof.
  unfold strip_any. intros Hh%head_Some_elem_of. apply list_elem_of_omap in Hh as (p & Hp & E).
  apply strip_prefix_Some in E. eauto.
Qed.

Lemma strip_any_None ps s p r : strip_any ps s = None -> p ∈ ps -> s <> p ++ r.
Proof.
  unfold strip_any. intros Hh%head_None Hp ->.
  assert (r ∈ omap (fun q => strip_prefix q (p ++ r)) ps) as Hin.
  { apply list_elem_of_omap. exists p. by rewrite strip_prefix_app. }
  rewrite Hh in Hin. by apply elem_of_nil in Hin.
Qed.

(** A byte that no white-space encoding starts or ends with. *)
Definition solid (b : byte) : Prop := 32 < Z_of_byte b < 127.

Lemma strip_all_solid fuel ps s :
  (forall p, p ∈ ps -> exists b p', p = b :: p' /\ ~ solid b) ->
  (forall b s', s = b :: s' -> solid b) -> strip_all fuel ps s = s.
Proof.
  intros Hps Hs. destruct fuel as [|fuel]; simpl; [done|].
  destruct (strip_any ps s) as [r|] eqn:E; [|done]. exfalso.
  apply strip_any_Some in E as (p & Hp & ->). destruct (Hps _ Hp) as (b & p' & -> & Hb).
  apply Hb. by eapply Hs.
Qed.

(** No encoding is a prefix of another one, so that stripping is
    deterministic. *)
Definition prefix_free (ps : list bytes) : bool :=
  forallb (fun p => forallb (fun q => bool_decide (p = q \/ ~ p `prefix_of` q)) ps) ps.

Lemma strip_any_unique ps p s :
  prefix_free ps = true -> p ∈ ps -> strip_any ps (p ++ s) = Some s.
Proof.
  intros Hpf Hp. destruct (strip_any ps (p ++ s)) as [r|] eqn:E.
  2: { exfalso. by eapply strip_any_None. }
  apply strip_any_Some in E as (q & Hq & E).
  unfold prefix_free in Hpf. rewrite forallb_forall in Hpf.
  assert (forall x y, x ∈ ps -> y ∈ ps -> x `prefix_of` y -> x = y) as Hxy.
  { intros x y Hx Hy Hpre. apply list_elem_of_In in Hx, Hy. apply Hpf in Hx.
    rewrite forallb_forall in Hx. apply Hx, bool_decide_eq_true in Hy. naive_solver. }
  assert (p = q) as ->; [|apply app_inv_head in E; by subst].
  destruct (prefix_weak_total p q (p ++ s)) as [?|?].
  - by exists s.
  - by exists r.
  - by apply Hxy.
  - symmetry. by apply Hxy.
Qed.

Lemma strip_all_blank fuel ps ws s :
  prefix_free ps = true -> Forall (fun c => c ∈ ps /\ c <> []) ws ->
  (forall fuel', strip_all fuel' ps s = s) ->
  (length (concat ws) <= fuel)%nat -> strip_all fuel ps (concat ws ++ s) = s.
Proof.
  intros Hpf Hws Hs. revert fuel. induction Hws as [|c ws [Hc Hne] _ IH]; intros fuel Hf; simpl.
  - apply Hs.
  - simpl in Hf. rewrite length_app in Hf. destruct c as [|b c]; [done|].
    destruct fuel as [|fuel]; [simpl in Hf; lia|]. cbn [strip_all].
    rewrite <- app_assoc, strip_any_unique by done. apply IH. simpl in Hf. lia.
Qed.

Lemma blank_concat s : blank s -> exists ws, s = concat ws /\ Forall (fun c => c ∈ white_space) ws.
Proof.
  induction 1 as [|c s Hc _ (ws & -> & Hws)]; [by exists []|].
  exists (c :: ws). split; [done|]. by constructor.
Qed.

Lemma white_space_spec p :
  p ∈ white_space ->
  (exists b p', p = b :: p' /\ ~ solid b) /\ (exists b p', rev p = b :: p' /\ ~ solid b).
Proof.
  assert (forallb (fun p => match p, rev p with
    | b :: _, b' :: _ => negb ((32 <? Z_of_byte b) && (Z_of_byte b <? 127)) &&
                         negb ((32 <? Z_of_byte b') && (Z_of_byte b' <? 127))
    | _, _ => false end) white_space = true) as Hall by (vm_compute; reflexivity).
  rewrite forallb_forall in Hall. intros Hp%list_elem_of_In%Hall.
  destruct p as [|b p]; [done|]. destruct (rev (b :: p)) as [|b' p'] eqn:E; [done|].
  unfold solid. apply andb_true_iff in Hp as [H1%negb_true_iff H2%negb_true_iff].
  apply andb_false_iff in H1, H2. rewrite !Z.ltb_ge in H1, H2.
  split; do 2 eexists; (split; [reflexivity|lia]).
Qed.

Lemma rev_concat (ws : list bytes) : rev (concat ws) = concat (rev (@rev byte <$> ws)).
Proof.
  induction ws as [|c ws IH]; simpl; [done|].
  rewrite rev_app_distr, IH, concat_app. simpl. by rewrite app_nil_r.
Qed.

(** Trimming removes the white space around a text of printable ASCII. *)
Lemma trim_spec pre s post :
  blank pre -> blank post -> Forall solid (string_bytes s) ->
  trim (bytes_string (pre ++ string_bytes s ++ post)) = s.
Proof.
  intros (ws & -> & Hws)%blank_concat (ws' & -> & Hws')%blank_concat Hs.
  unfold trim. rewrite string_bytes_string.
  destruct (decide (string_bytes s = [])) as [E|Hne].
  - (* nothing but white space *)
    rewrite E. simpl. unfold trim_start. rewrite <- concat_app.
    rewrite <- (app_nil_r (concat (ws ++ ws'))) at 2.
    rewrite strip_all_blank.
    + unfold trim_end. simpl. by apply string_bytes_inj.
    + vm_compute. reflexivity.
    + apply Forall_app. split; (eapply Forall_impl; [eassumption|]); intros c Hc;
        (split; [done|]); destruct (white_space_spec c Hc) as [(? & ? & -> & _) _]; done.
    + intros. apply strip_all_solid; [|done]. intros p Hp. by apply white_space_spec.
    + done.
  - unfold trim_start. rewrite strip_all_blank.
    + unfold trim_end. rewrite rev_app_distr, rev_concat, strip_all_blank.
      * rewrite rev_involutive. apply bytes_string_bytes.
      * vm_compute. reflexivity.
      * apply Forall_rev, Forall_fmap. eapply Forall_impl; [eassumption|].
        intros c Hc. split; [by apply (list_elem_of_fmap_2 (@rev byte))|].
        destruct (white_space_spec c Hc) as [_ (? & ? & -> & _)]. done.
      * intros. apply strip_all_solid.
        -- intros p (q & -> & Hq)%list_elem_of_fmap. by apply white_space_spec.
        -- intros b s' E. apply (Forall_rev) in Hs. rewrite E in Hs. by inversion Hs.
      * rewrite <- rev_concat, length_rev, length_app. lia.
    + vm_compute. reflexivity.
    + eapply Forall_impl; [eassumption|]. intros c Hc. split; [done|].
      destruct (white_space_spec c Hc) as [(? & ? & -> & _) _]. done.
    + intros. apply strip_all_solid; [intros p Hp; by apply white_space_spec|].
      intros b s' E. destruct (string_bytes s) as [|x l]; [done|].
      simpl in E. simplify_eq. by inversion Hs.
    + rewrite length_app. lia.
Qed.

Lemma decode_padded (t : Ticket) (s : string) (pre post : bytes) :
  ticket_wf t -> encode t = Ok s -> blank pre -> blank post ->
  decode (bytes_string (pre ++ string_bytes s ++ post)) = Ok t.
Proof.
  intros Hwf He Hpre Hpost. unfold encode in He. inv_ok. unfold decode. rewrite trim_spec; try done.
  2: { apply Forall_forall. intros c Hc. by eapply b64_alphabet. }
  rewrite b64_decode_encode. simpl.
  match goal with H : bin_encode _ = Some _ |- _ => destruct (bin_decode_encode _ _ H) as [n ->] end.
  simpl. destruct Hwf as (-> & Hk & Hl). by rewrite Z.eqb_refl, !decide_False.
Qed.

Lemma decode_encode t s : ticket_wf t -> encode t = Ok s -> decode s = Ok t.
Proof.
  intros Hwf He. pose proof (decode_padded t s [] [] Hwf He blank_nil blank_nil) as Hd.
  simpl in Hd. by rewrite app_nil_r, bytes_string_bytes in Hd.
Qed.

Lemma decode_decodes s : decodes s (decode s).
Proof.
  unfold decode. destruct (b64_decode (trim s)) as [raw|] eqn:Eb; simpl; [|by apply decodes_not_base64].
  destruct (bin_decode raw) as [[t n]|] eqn:Er; simpl; [|by eapply decodes_malformed].
  assert (payload s = Some t) as Hp by (unfold payload; rewrite Eb; simpl; by rewrite Er).
  destruct (Z.eqb_spec (version t) TICKET_VERSION); simpl; [|by apply decodes_version].
  case_decide; [by eapply decodes_no_keys|]. case_decide; [by eapply decodes_no_log|].
  by apply decodes_ok.
Qed.

Lemma payload_Some s t :
  payload s = Some t -> exists raw, b64_decode (trim s) = Some raw /\ fst <$> bin_decode raw = Some t.
Proof. unfold payload. destruct (b64_decode _) as [raw|]; [|done]. simpl. eauto. Qed.

Lemma decodes_decode s o : decodes s o -> decode s = o.
Proof.
  unfold decode, ticket_wf. intros [Eb|raw Eb Er|t Hp Hv|t Hp Hv Hk|t Hp Hv Hk Hl|t Hp (Hv & Hk & Hl)].
  - by rewrite Eb.
  - rewrite Eb. simpl. by rewrite Er.
  - apply payload_Some in Hp as (raw & -> & E). cbn [ok_or rbind]. rewrite E. simpl.
    by rewrite (proj2 (Z.eqb_neq _ _) Hv).
  - apply payload_Some in Hp as (raw & -> & E). cbn [ok_or rbind]. rewrite E. simpl.
    by rewrite Hv, decide_True.
  - apply payload_Some in Hp as (raw & -> & E). cbn [ok_or rbind]. rewrite E. simpl.
    by rewrite Hv, decide_False, decide_True.
  - apply payload_Some in Hp as (raw & -> & E). cbn [ok_or rbind]. rewrite E. simpl.
    by rewrite Hv, !decide_False.
Qed.

(** ** Properties *)

(** C31. A valid ticket survives encoding and decoding, and white space pasted
    around its text does not matter. *)
Theorem ticket_round_trip (t : Ticket) (s : string) (Hwf : ticket_wf t)
    (He : encode t = Ok s) (pre post : bytes) (Hpre : blank pre) (Hpost : blank post) :
  decode (bytes_string (pre ++ string_bytes s ++ post)) = Ok t.
Proof. by apply decode_padded. Qed.

(** C32. [decode] answers as [decodes] says and in no other way: it accepts
    exactly the texts whose payload is a ticket of the current version with at
    least one key and a membership log, and a text it refuses gets the error
    of the first thing that is wrong with it: not base64, a malformed payload,
    another version (which is named), no keys, no membership log. *)
Theorem ticket_decode_sound (s : string) (o : outcome Ticket) : decode s = o <-> decodes s o.
Proof. split; [intros <-; apply decode_decodes|apply decodes_decode]. Qed.
End ticket.

(** ** Witness *)

#[export] Instance ser_role : Ser ShareRole.
Proof.
  refine (ser_inj (B := byte)
    (fun a => match a with Seed => Byte.x00 | Leech => Byte.x01 | Sync => Byte.x02 end)
    (fun b => match b with Byte.x00 => Some Seed | Byte.x01 => Some Leech
                         | Byte.x02 => Some Sync | _ => None end) _).
  by intros [].
Defined.

#[export] Instance ser_ticket : Ser Ticket.
Proof.
  refine (ser_inj (B := ((Z * string) * (string * list Key)) * ((list SignedOp * bytes) * ShareRole))
    (fun t => (((version t, share_id t), (topic t, tkeys t)),
               ((auth_log t, invitee_pubkey t), role t)))
    (fun x => Some {| version := x.1.1.1; share_id := x.1.1.2; topic := x.1.2.1;
                      tkeys := x.1.2.2; auth_log := x.2.1.1; invitee_pubkey := x.2.1.2;
                      role := x.2.2 |}) _).
  by intros [].
Defined.

Definition toy_ticket : Bincode Ticket := toy_bincode _.

Section witness.
#[local] Existing Instance toy_ticket.
#[local] Existing Instance toy_base64.

Definition wt_ticket : Ticket :=
  {| version := 2; share_id := "5ha4e"; topic := "demo"; tkeys := [replicate 32 Byte.x01];
     auth_log := wa_log; invitee_pubkey := wa_key Byte.x0b; role := Sync |}.
Definition wt_text : string := Eval vm_compute in
  match encode wt_ticket with Ok s => s | _ => "" end.

Lemma ticket_round_trip_witness :
  decode (bytes_string ([Byte.x20; Byte.xe2; Byte.x80; Byte.x89] ++ string_bytes wt_text ++
    [Byte.x0d; Byte.x0a])) = Ok wt_ticket.
Proof.
  apply ticket_round_trip.
  - split; [reflexivity|]. split; discriminate.
  - vm_compute. reflexivity.
  - apply (blank_cons [Byte.x20]); [vm_compute; set_solver|].
    apply (blank_cons [Byte.xe2; Byte.x80; Byte.x89] []); [vm_compute; set_solver|].
    constructor.
  - apply (blank_cons [Byte.x0d]); [vm_compute; set_solver|].
    apply (blank_cons [Byte.x0a] []); [vm_compute; set_solver|]. constructor.
Defined.
End witness.
