(* ===== verification/Shadow.v ===== *)
(** * Share content and its encrypted shadow ([src/daemon.rs], 1318-1488, 1621-1630)

    The user's files live below the share root; their encrypted copies, which
    BitTorrent transfers, below [.peerdup/encrypted], one [<name>.bin] per
    file.  [snapshot_content] identifies a version by a hash of the sorted
    paths and file hashes. *)

From S2P Require Import Prelude World Tree External Instances Share Crypto.

Definition PEERDUP_DIR_NAME : string := ".peerdup".

(** ** Paths of the shadow *)

Definition shadow_root (root : path) : path := join (join root PEERDUP_DIR_NAME) "encrypted".

(** [PathBuf::set_file_name] with [""] and ["."] included; [".."] stays the
    last component, which is then no file name. *)
Definition set_name (p : path) (n : string) : path := parent p ++ names n.

Definition shadow_file_for (root plaintext_rel : path) : path :=
  let p := shadow_root root ++ plaintext_rel in
  match file_name p with
  | Some name => set_name p (name +:+ ".bin")
  | None => p
  end.

(** [str::strip_suffix] *)
Definition strip_suffix (s suffix : string) : option string :=
  let b := string_bytes s in
  let k := (length b - length (string_bytes suffix))%nat in
  if decide (drop k b = string_bytes suffix) then Some (bytes_string (take k b)) else None.

Definition plaintext_rel_from_shadow_rel (shadow_rel : path) : option path :=
  name ← file_name shadow_rel;
  stripped ← strip_suffix name ".bin";
  Some (set_name shadow_rel stripped).

(** ** Walking a directory *)

Fixpoint strip_path_prefix (root p : path) : option path :=
  match root, p with
  | [], p => Some p
  | x :: root, y :: p => if decide (x = y) then strip_path_prefix root p else None
  | _ :: _, [] => None
  end.

Section walk.
Context `{MD : Metadata, ReadDir}.

(** The loop over the entries of one directory; [walk] is the recursive call. *)
Fixpoint collect_entries (walk : path -> M (list path)) (root dir : path) (names : list string)
    : M (list path) :=
  match names with
  | [] => ret []
  | n :: names =>
      if decide (n = PEERDUP_DIR_NAME) then collect_entries walk root dir names else
      let! ft := fs_file_type (dir ++ [n]) in
      let! here :=
        match ft with
        | NDir => walk (dir ++ [n])
        | NFile _ =>
            let! rel := lift (ok_or (EMsg "strip_prefix") (strip_path_prefix root (dir ++ [n]))) in
            ret [rel]
        | NOther => ret []
        end in
      let! rest := collect_entries walk root dir names in
      ret (here ++ rest)
  end.

Fixpoint collect_fuel (fuel : nat) (root dir : path) : M (list path) :=
  match fuel with
  | O => fail (EMsg "out of fuel")
  | S fuel =>
      let! names := ctx "read_dir" (fs_read_dir dir) in
      collect_entries (collect_fuel fuel root) root dir names
  end.

(** One more than the longest path: a walk cannot go deeper. *)
Definition fs_depth (fs : fsmap) : nat :=
  S (foldr Nat.max O ((fun kn => length kn.1) <$> map_to_list fs)).

Definition collect_files (root dir : path) : M (list path) := fun w =>
  collect_fuel (fs_depth (w_fs w)) root dir w.

Definition has_content (root : path) : M bool :=
  let! names := ctx "read_dir" (fs_read_dir root) in
  ret (negb (bool_decide (names = []))).

(** ** The version hash *)

(** [Path::to_string_lossy] of a relative path. *)
Fixpoint path_text (p : path) : bytes :=
  match p with
  | [] => []
  | [c] => string_bytes c
  | c :: p => string_bytes c ++ slash :: path_text p
  end.

Context `{Blake3}.

(** What one file contributes to the top-level hash. *)
Definition file_record (rel : path) (content_hash : bytes) : bytes :=
  u64_le (Z.of_nat (length (path_text rel))) ++ path_text rel ++ content_hash.

Fixpoint hash_files (root : path) (paths : list path) : M (bytes * gset path) :=
  match paths with
  | [] => ret ([], ∅)
  | rel :: paths =>
      let! data := ctx "hashing" (fs_read (root ++ rel)) in
      let! r := hash_files root paths in
      ret (file_record rel (blake3 data) ++ r.1, {[ rel ]} ∪ r.2)
  end.

Definition snapshot_content (root : path) : M (string * gset path) :=
  let! paths := collect_files root root in
  let paths := sort_by id paths in
  let! r := hash_files root paths in
  ret (bytes_string (hex_encode (blake3 r.1)), r.2).

(** ** Encrypting into the shadow *)

Context `{Entropy, Aead}.

(** Iteration order of a [BTreeSet]. *)
Definition in_order (s : gset path) : list path := sort_by id (elements s).

Definition encrypt_file (root : path) (key : KeyRing) (rel : path) : M unit :=
  let shadow_path := shadow_file_for root rel in
  ctx "create_dir_all" (fs_create_dir_all (parent shadow_path)) ;;;
  let! pt_bytes := ctx "reading plaintext" (fs_read (root ++ rel)) in
  let! ct_bytes := ctx "encrypting" (encrypt key pt_bytes) in
  ctx "writing ciphertext" (fs_write shadow_path ct_bytes).

(** One turn of the deletion of ciphertext without plaintext. *)
Definition drop_shadow_orphan (shadow : path) (manifest : gset path) (rel : path) : M unit :=
  match plaintext_rel_from_shadow_rel rel with
  | None => ret tt
  | Some pt_rel =>
      if decide (pt_rel ∈ manifest) then ret tt
      else attempt (fs_remove_file (shadow ++ rel)) ;;; ret tt
  end.

Definition sync_plaintext_to_shadow (root : path) (key : KeyRing) (manifest : gset path) : M unit :=
  let shadow := shadow_root root in
  ctx "create_dir_all" (fs_create_dir_all shadow) ;;;
  forM (in_order manifest) (encrypt_file root key) ;;;
  let! ex := fs_exists shadow in
  let! shadow_files := (if (ex : bool) then collect_files shadow shadow else ret []) in
  forM shadow_files (drop_shadow_orphan shadow manifest).

(** ** Decrypting out of the shadow *)

(** One turn of the loop of [sync_shadow_to_plaintext]; [None] is [continue]. *)
Definition decrypt_file (root : path) (key : KeyRing) (shadow_rel : path) : M (option path) :=
  match plaintext_rel_from_shadow_rel shadow_rel with
  | None => ret None
  | Some pt_rel =>
      let pt_path := root ++ pt_rel in
      let! ct_bytes := ctx "reading ciphertext" (fs_read (shadow_root root ++ shadow_rel)) in
      let! pt_bytes := lift (rctx "decrypting" (decrypt key ct_bytes)) in
      ctx "create_dir_all" (fs_create_dir_all (parent pt_path)) ;;;
      let! name := lift (ok_or (EMsg "plaintext path has no filename") (file_name pt_path)) in
      let tmp := set_file_name pt_path (name +:+ ".peerdup-tmp") in
      ctx "writing plaintext" (fs_write tmp pt_bytes) ;;;
      ctx "renaming" (fs_rename tmp pt_path) ;;;
      ret (Some pt_rel)
  end.

Fixpoint decrypt_files (root : path) (key : KeyRing) (rels : list path) : M (gset path) :=
  match rels with
  | [] => ret ∅
  | r :: rels =>
      let! p := decrypt_file root key r in
      let! rest := decrypt_files root key rels in
      ret (match p with Some p => {[ p ]} ∪ rest | None => rest end)
  end.

Definition sync_shadow_to_plaintext (root : path) (key : KeyRing) : M (gset path) :=
  let shadow := shadow_root root in
  let! ex := fs_exists shadow in
  if negb ex then ret ∅ else
  let! shadow_files := collect_files shadow shadow in
  decrypt_files root key shadow_files.

(** ** Deleting what a new version no longer has *)

Definition delete_orphans (root : path) (old new : gset path) : M unit :=
  forM (in_order (old ∖ new)) (fun rel => attempt (fs_remove_file (root ++ rel)) ;;; ret tt).
End walk.

(** ** Specification *)

(** The user's files below [root], by relative path. *)
Definition content (fs : fsmap) (root : path) : gmap path bytes :=
  list_to_map (omap (fun kn =>
    match strip_path_prefix root kn.1, kn.2 with
    | Some rel, NFile f => if decide (PEERDUP_DIR_NAME ∈ rel) then None else Some (rel, f_data f)
    | _, _ => None
    end) (map_to_list fs)).

(** The version hash as a function of the content alone. *)
Definition vhash `{Blake3} (m : gmap path bytes) : string :=
  bytes_string (hex_encode (blake3 (concat
    ((fun pd => file_record pd.1 (blake3 pd.2)) <$> sort_by fst (map_to_list m))))).

(** The shadow path of a plaintext path, relative to the shadow root. *)
Definition shadow_rel (p : path) : path :=
  match file_name p with
  | Some n => parent p ++ [n +:+ ".bin"]
  | None => p
  end.

Definition tmp_name (n : string) : string := n +:+ ".peerdup-tmp".

(** Names a host can hold: no separator, not empty, not [.] or [..]. *)
Definition name_ok (n : string) : Prop :=
  slash ∉ string_bytes n /\ n <> ""%string /\ n <> "."%string /\ n <> ".."%string.

Definition path_ok (p : path) : Prop := p <> [] /\ Forall name_ok p /\ PEERDUP_DIR_NAME ∉ p.

Definition tmp_of (p : path) : path :=
  set_file_name p (tmp_name (default ""%string (file_name p))).

(** Content whose temporary files collide neither with other content nor with
    the files [old] already there. *)
Definition clean (m old : gmap path bytes) : Prop :=
  forall p, is_Some (m !! p) -> path_ok p /\ m !! tmp_of p = None /\ old !! tmp_of p = None.

(** Every encrypted file is at the shadow path of the plaintext it names. *)
Definition shadow_names (fs : fsmap) (root : path) : Prop :=
  forall q p, is_Some (content fs (shadow_root root) !! q) ->
    plaintext_rel_from_shadow_rel q = Some p -> q = shadow_rel p.

(** The shadow holds exactly the content [m], encrypted under [ring]. *)
Record shadow_holds `{Aead} (ring : KeyRing) (fs : fsmap) (root : path) (m : gmap path bytes)
    : Prop := {
  sh_names : shadow_names fs root;
  sh_only : forall q p, is_Some (content fs (shadow_root root) !! q) ->
    plaintext_rel_from_shadow_rel q = Some p -> is_Some (m !! p);
  sh_all : forall p d, m !! p = Some d ->
    exists blob, data_at fs (shadow_root root ++ shadow_rel p) = Some blob /\
                 decrypt ring blob = Ok d;
}.

(** ** Lemmas: paths *)

Lemma strip_path_prefix_Some root q p : strip_path_prefix root q = Some p <-> q = root ++ p.
Proof.
  revert q. induction root as [|x root IH]; intros [|y q]; simpl; try (split; congruence).
  case_decide; subst; [rewrite IH|]; split; congruence.
Qed.

Lemma shadow_root_eq root : shadow_root root = root ++ [PEERDUP_DIR_NAME; "encrypted"].
Proof.
  unfold shadow_root. rewrite !join_plain by plain_const. by rewrite <- app_assoc.
Qed.

Lemma shadow_rel_snoc p n :
  n <> ".."%string -> shadow_rel (p ++ [n]) = p ++ [n +:+ ".bin"].
Proof. intros Hn. unfold shadow_rel. by rewrite file_name_snoc, parent_snoc. Qed.

Lemma name_ok_dotdot n : name_ok n -> n <> ".."%string.
Proof. by intros (_ & _ & _ & ?). Qed.

Lemma path_ok_snoc p : path_ok p -> exists q n, p = q ++ [n] /\ name_ok n /\ n <> PEERDUP_DIR_NAME.
Proof.
  intros (Hne & Hp & Hd). destruct p as [|n q _] using rev_ind; [done|].
  exists q, n. apply Forall_app in Hp as [_ Hn]. rewrite Forall_singleton in Hn.
  split; [done|]. split; [done|]. intros ->. apply Hd. set_solver.
Qed.

Lemma append_inj_r (s t u : string) : s +:+ u = t +:+ u -> s = t.
Proof.
  intros E. apply string_bytes_inj. apply (f_equal string_bytes) in E.
  rewrite !string_bytes_app in E. by apply app_inv_tail in E.
Qed.

Lemma strip_suffix_app s t : strip_suffix (s +:+ t) t = Some s.
Proof.
  unfold strip_suffix. rewrite string_bytes_app, length_app.
  replace (length (string_bytes s) + length (string_bytes t) - length (string_bytes t))%nat
    with (length (string_bytes s)) by lia.
  rewrite drop_app_length, take_app_length, decide_True by done.
  by rewrite bytes_string_bytes.
Qed.

Lemma name_ok_plain n : name_ok n -> plain_name n.
Proof. intros (? & ? & ? & ?). by apply plain_name_intro. Qed.

Lemma name_ok_append n t :
  name_ok n -> slash ∉ string_bytes t -> (2 < length (string_bytes t))%nat -> name_ok (n +:+ t).
Proof.
  intros (Hs & _) Ht Hl. split; [rewrite string_bytes_app; set_solver|].
  split; [|split]; intros E; apply (f_equal (length ∘ string_bytes)) in E; simpl in E;
    rewrite string_bytes_app, length_app in E; lia.
Qed.

Lemma name_ok_bin n : name_ok n -> name_ok (n +:+ ".bin").
Proof. intros Hn. apply name_ok_append; [done|vm_compute; set_solver|simpl; lia]. Qed.

Lemma name_ok_tmp n : name_ok n -> name_ok (tmp_name n).
Proof. intros Hn. apply name_ok_append; [done|vm_compute; set_solver|simpl; lia]. Qed.

Lemma set_name_snoc p n n' : name_ok n' -> set_name (p ++ [n]) n' = p ++ [n'].
Proof.
  intros [Hc _]%name_ok_plain. unfold set_name. by rewrite parent_snoc, Hc.
Qed.

Lemma shadow_file_for_eq root p :
  path_ok p -> shadow_file_for root p = shadow_root root ++ shadow_rel p.
Proof.
  intros (q & n & -> & Hn & _)%path_ok_snoc. unfold shadow_file_for.
  pose proof (name_ok_dotdot _ Hn) as Hd. rewrite shadow_rel_snoc by done. rewrite app_assoc.
  rewrite file_name_snoc by done. rewrite set_name_snoc by by apply name_ok_bin. by rewrite <- app_assoc.
Qed.

(** [plaintext_rel_from_shadow_rel] inverts the mapping into the shadow. *)
Lemma plaintext_shadow_rel p : path_ok p -> plaintext_rel_from_shadow_rel (shadow_rel p) = Some p.
Proof.
  intros (q & n & -> & Hn & _)%path_ok_snoc.
  rewrite shadow_rel_snoc by by apply name_ok_dotdot. unfold plaintext_rel_from_shadow_rel.
  rewrite file_name_snoc by exact (name_ok_dotdot _ (name_ok_bin _ Hn)). simpl.
  rewrite strip_suffix_app. simpl. by rewrite set_name_snoc.
Qed.

Lemma shadow_rel_not_peerdup p : path_ok p -> PEERDUP_DIR_NAME ∉ shadow_rel p.
Proof.
  intros Hp. pose proof Hp as (q & n & -> & Hn & _)%path_ok_snoc.
  rewrite shadow_rel_snoc by by apply name_ok_dotdot.
  destruct Hp as (_ & _ & Hpd). rewrite not_elem_of_app in *.
  rewrite list_elem_of_singleton. split; [tauto|]. intros E.
  pose proof (strip_suffix_app n ".bin") as Es. rewrite <- E in Es. vm_compute in Es. done.
Qed.

Lemma shadow_rel_inj p q : path_ok p -> path_ok q -> shadow_rel p = shadow_rel q -> p = q.
Proof.
  intros Hp Hq E. apply plaintext_shadow_rel in Hp, Hq. rewrite E in Hp. congruence.
Qed.

(** ** Lemmas: content *)

Lemma content_lookup fs root p d :
  content fs root !! p = Some d <-> PEERDUP_DIR_NAME ∉ p /\ data_at fs (root ++ p) = Some d.
Proof.
  unfold content.
  set (f := fun kn : path * node => match strip_path_prefix root kn.1, kn.2 with
    | Some rel, NFile f => if decide (PEERDUP_DIR_NAME ∈ rel) then None else Some (rel, f_data f)
    | _, _ => None end).
  assert (forall kn q c, f kn = Some (q, c) <-> kn.1 = root ++ q /\ PEERDUP_DIR_NAME ∉ q /\
    exists g, kn.2 = NFile g /\ c = f_data g) as Hf.
  { intros [k n] q c. unfold f. simpl. destruct (strip_path_prefix root k) as [rel|] eqn:E.
    - apply strip_path_prefix_Some in E as ->.
      destruct n as [g| |]; [|split; [done|intros (?&?&?&?&?); congruence]..].
      case_decide as Hd.
      + split; [done|]. intros (E%app_inv_head & ? & _). by subst.
      + split; [naive_solver|]. intros (E%app_inv_head & ? & g' & [= <-] & ->). by subst.
    - split; [done|]. intros (-> & _). exfalso.
      assert (strip_path_prefix root (root ++ q) = Some q) by by apply strip_path_prefix_Some.
      congruence. }
  assert (NoDup (omap f (map_to_list fs)).*1) as Hnd.
  { pose proof (NoDup_fst_map_to_list fs) as Hk. revert Hk.
    induction (map_to_list fs) as [|kn l IH]; [constructor|].
    rewrite fmap_cons. intros [Hkn Hl]%NoDup_cons. simpl.
    destruct (f kn) as [[q c]|] eqn:E; [|by apply IH]. simpl. constructor; [|by apply IH].
    intros Hin. apply list_elem_of_fmap in Hin as ([q' c'] & Eq & Hin). simpl in Eq. subst q'.
    apply list_elem_of_omap in Hin as (kn' & Hkn' & E'). apply Hf in E as (E & _), E' as (E' & _).
    apply Hkn, list_elem_of_fmap. exists kn'. split; [congruence|done]. }
  rewrite <- elem_of_list_to_map by done. rewrite list_elem_of_omap. split.
  - intros (kn & Hin & (E & ? & g & En & ->)%Hf). split; [done|].
    destruct kn as [k n]. simpl in *. subst. apply elem_of_map_to_list in Hin.
    unfold data_at, file_at. by rewrite Hin.
  - intros [Hp Hd]. unfold data_at, file_at in Hd.
    destruct (fs !! (root ++ p)) as [[g| |]|] eqn:E; simplify_eq/=.
    exists (root ++ p, NFile g). split; [by apply elem_of_map_to_list|].
    apply Hf. naive_solver.
Qed.

Lemma content_cons fs dir n s :
  content fs dir !! (n :: s) =
    if decide (n = PEERDUP_DIR_NAME) then None else content fs (dir ++ [n]) !! s.
Proof.
  apply option_eq. intros d. rewrite content_lookup. case_decide as Hn.
  - split; [|done]. intros [Hp _]. subst. set_solver.
  - rewrite content_lookup, not_elem_of_cons, <- app_assoc. simpl. naive_solver.
Qed.

Lemma content_file fs p g s d :
  fs_wf fs -> fs !! p = Some (NFile g) -> content fs p !! s = Some d -> s = [].
Proof.
  intros Hwf Hp [_ Hd]%content_lookup. destruct (decide (s = [])) as [|Hs]; [done|].
  unfold data_at, file_at in Hd. destruct (fs !! (p ++ s)) eqn:E; [|done].
  pose proof (fs_wf_prefix fs p s Hwf Hs ltac:(eauto)). congruence.
Qed.

Lemma content_dir_nonempty fs p s d :
  fs !! p = Some NDir -> content fs p !! s = Some d -> s <> [].
Proof.
  intros Hp [_ Hd]%content_lookup ->. rewrite app_nil_r in Hd.
  unfold data_at, file_at in Hd. by rewrite Hp in Hd.
Qed.

Lemma content_other fs p s :
  fs_wf fs -> fs !! p = Some NOther -> content fs p !! s = None.
Proof.
  intros Hwf Hp. destruct (content fs p !! s) as [d|] eqn:E; [|done].
  apply content_lookup in E as [_ Hd].
  unfold data_at, file_at in Hd. destruct (decide (s = [])) as [->|Hs].
  - rewrite app_nil_r, Hp in Hd. done.
  - destruct (fs !! (p ++ s)) eqn:E; [|done].
    pose proof (fs_wf_prefix fs p s Hwf Hs ltac:(eauto)). congruence.
Qed.

(** ** Lemmas: walking *)

Section walk_lemmas.
Context `{MD : Metadata, ReadDir}.

Lemma reads_read_dir fs dir tot :
  (tot -> fs !! dir = Some NDir) ->
  reads fs (fs_read_dir dir) (fun ns => fs !! dir = Some NDir /\ ns ≡ₚ children fs dir) tot.
Proof.
  intros Ht. apply reads_io.
  - unfold op_read_dir. by repeat case_match.
  - unfold op_read_dir. intros ns. repeat case_match; try done. intros [= <-].
    split; [done|]. apply dir_order_perm.
  - intros Htot. unfold op_read_dir. rewrite Ht by done. by eexists.
Qed.

Lemma reads_file_type fs p tot :
  is_Some (fs !! p) -> reads fs (fs_file_type p) (fun n => fs !! p = Some n) tot.
Proof.
  intros [n Hn]. apply reads_io.
  - unfold op_file_type. by rewrite Hn.
  - unfold op_file_type. rewrite Hn. simpl. congruence.
  - intros _. unfold op_file_type. rewrite Hn. by eexists.
Qed.

(** The files below [pre] a walk finds, relative to the root. *)
Definition below (fs : fsmap) (root pre : path) (l : list path) : Prop :=
  NoDup l /\ forall p, p ∈ l <-> exists s, p = pre ++ s /\ is_Some (content fs (root ++ pre) !! s).

Lemma entries_reads fs root pre walk names (tot : Prop) :
  fs_wf fs -> NoDup names -> (forall n, n ∈ names -> is_Some (fs !! ((root ++ pre) ++ [n]))) ->
  (forall n, n ∈ names -> fs !! ((root ++ pre) ++ [n]) = Some NDir ->
     reads fs (walk ((root ++ pre) ++ [n])) (below fs root (pre ++ [n])) tot) ->
  reads fs (collect_entries walk root (root ++ pre) names)
    (fun l => NoDup l /\ forall p, p ∈ l <->
       exists n s, n ∈ names /\ p = pre ++ n :: s /\ is_Some (content fs (root ++ pre) !! (n :: s)))
    tot.
Proof.
  intros Hwf. induction names as [|n names IH]; intros Hnd Hn Hw; cbn [collect_entries].
  { apply reads_ret. split; [constructor|]. set_solver. }
  apply NoDup_cons in Hnd as [Hnn Hnd].
  assert (IH' := IH Hnd ltac:(set_solver) ltac:(set_solver)). clear IH.
  destruct (decide (n = PEERDUP_DIR_NAME)) as [Hp|Hp].
  { eapply reads_impl; [exact IH'| |done]. intros l [Hl Hin]. split; [done|].
    intros p. rewrite Hin. split.
    - intros (m & s & ? & ? & ?). exists m, s. set_solver.
    - intros (m & s & [->|Hm]%elem_of_cons & ? & Hc); [|by exists m, s].
      rewrite content_cons, decide_True in Hc by done. by destruct Hc. }
  assert (Hcc : forall s, content fs ((root ++ pre) ++ [n]) !! s = content fs (root ++ pre) !! (n :: s)).
  { intros s. rewrite content_cons. by rewrite decide_False. }
  eapply reads_bind; [apply reads_file_type; apply Hn; set_solver|].
  intros ft Hft. simpl in Hft.
  apply (reads_bind _ _ _ (fun here => NoDup here /\ forall p, p ∈ here <->
    exists s, p = pre ++ n :: s /\ is_Some (content fs ((root ++ pre) ++ [n]) !! s))).
  - destruct ft as [g| |].
    + assert (strip_path_prefix root ((root ++ pre) ++ [n]) = Some (pre ++ [n])) as ->.
      { apply strip_path_prefix_Some. by rewrite <- app_assoc. }
      simpl. eapply reads_bind; [apply (reads_lift _ _ (fun r => r = pre ++ [n]))|].
      * by intros ? [= <-].
      * by eexists.
      * intros r ->. apply reads_ret. split; [apply NoDup_singleton|].
        intros p. rewrite list_elem_of_singleton. split.
        -- intros ->. exists []. split; [done|]. exists (f_data g). apply content_lookup.
           split; [set_solver|]. rewrite app_nil_r. unfold data_at, file_at. by rewrite Hft.
        -- intros (s & -> & d & Hd). by rewrite (content_file _ _ _ _ _ Hwf Hft Hd).
    + eapply reads_impl; [apply Hw; [set_solver|done] | |done].
      intros l [Hl Hin]. split; [done|]. intros p. rewrite Hin.
      split; intros (s & -> & Hs); exists s; rewrite <- !app_assoc in *; done.
    + apply reads_ret. split; [constructor|]. intros p. split; [by intros ?%elem_of_nil|].
      intros (s & _ & Hs). rewrite content_other in Hs by done. by destruct Hs.
  - intros here [Hh Hhin]. eapply reads_bind; [exact IH'|]. intros rest [Hr Hrin].
    apply reads_ret. split.
    + apply NoDup_app. split; [done|]. split; [|done].
      intros p (s & -> & _)%Hhin (m & s' & Hm & E & _)%Hrin.
      apply app_inv_head in E. injection E as -> ->. done.
    + intros p. rewrite elem_of_app, Hhin, Hrin. split.
      * intros [(s & -> & Hs)|(m & s & ? & -> & ?)]; [exists n, s|exists m, s].
        -- rewrite Hcc in Hs. set_solver.
        -- set_solver.
      * intros (m & s & [->|Hm]%elem_of_cons & -> & Hs); [left|right; eauto].
        exists s. by rewrite Hcc.
Qed.

Lemma fs_depth_spec fs p : is_Some (fs !! p) -> (length p < fs_depth fs)%nat.
Proof.
  intros [n Hn]. apply elem_of_map_to_list in Hn. unfold fs_depth.
  induction (map_to_list fs) as [|kn l IH]; [by apply elem_of_nil in Hn|].
  rewrite fmap_cons. cbn [foldr fst]. apply elem_of_cons in Hn as [<-|Hn]; cbn [fst]; [lia|].
  specialize (IH Hn). lia.
Qed.

Lemma content_child fs dir n s :
  fs_wf fs -> is_Some (content fs dir !! (n :: s)) -> n ∈ children fs dir.
Proof.
  intros Hwf [d [_ Hd]%content_lookup]. apply elem_of_children.
  unfold data_at, file_at in Hd. destruct (fs !! (dir ++ n :: s)) eqn:E; [|done].
  destruct (decide (s = [])) as [->|Hs]; [eauto|].
  rewrite (fs_wf_prefix fs (dir ++ [n]) s); eauto. rewrite <- app_assoc. simpl. eauto.
Qed.

Lemma collect_fuel_reads fs root pre fuel :
  fs_wf fs ->
  reads fs (collect_fuel fuel root (root ++ pre)) (below fs root pre)
    (fs !! (root ++ pre) = Some NDir /\ (fs_depth fs <= fuel + length (root ++ pre))%nat).
Proof.
  intros Hwf. revert pre. induction fuel as [|fuel IH]; intros pre; cbn [collect_fuel].
  - intros w Hw. simpl. split; [done|]. split; [done|]. split; [done|].
    intros _ [Hd Hf]. pose proof (fs_depth_spec fs (root ++ pre) ltac:(eauto)). lia.
  - eapply reads_bind.
    + apply reads_ctx, reads_read_dir. by intros [? _].
    + intros names [Hdir Hp]. eapply reads_impl;
        [apply (entries_reads fs root pre _ names
           (fs !! (root ++ pre) = Some NDir /\ (fs_depth fs <= S fuel + length (root ++ pre))%nat)
           Hwf)| |done].
      * rewrite Hp. apply children_nodup.
      * intros n Hn. rewrite Hp in Hn. by apply elem_of_children.
      * intros n _ Hd. rewrite <- app_assoc. eapply reads_impl; [apply IH|done|].
        intros [_ Hf]. rewrite app_assoc. split; [done|]. rewrite (length_app _ [n]). simpl in *. lia.
      * intros l [Hl Hin]. split; [done|]. intros p. rewrite Hin. split.
        -- intros (n & s & _ & -> & ?). eauto.
        -- intros (s & -> & [d Hd]). pose proof (content_dir_nonempty _ _ _ _ Hdir Hd).
           destruct s as [|n s]; [done|]. exists n, s. split; [|eauto].
           rewrite Hp. eapply content_child; eauto.
Qed.

(** [collect_files] lists exactly the content, and on a working disk the
    depth of the file map is fuel enough. *)
Lemma collect_files_reads fs root :
  fs_wf fs ->
  reads fs (collect_files root root)
    (fun l => NoDup l /\ forall p, p ∈ l <-> is_Some (content fs root !! p))
    (fs !! root = Some NDir).
Proof.
  intros Hwf w Hw. unfold collect_files. rewrite Hw.
  pose proof (collect_fuel_reads fs root [] (fs_depth fs) Hwf) as Hr. rewrite app_nil_r in Hr.
  apply (reads_impl _ _ _ (fun l => NoDup l /\ forall p, p ∈ l <-> is_Some (content fs root !! p))
    _ (fs !! root = Some NDir)) in Hr; [by apply Hr| |].
  - intros l [Hl Hin]. split; [done|]. intros p. rewrite Hin, app_nil_r. naive_solver.
  - intros Hd. split; [done|lia].
Qed.
End walk_lemmas.

(** ** Lemmas: the version hash *)

Section vhash_lemmas.
Context `{MD : Metadata, ReadDir, Blake3}.

Lemma hash_files_reads (fs : fsmap) (root : path) (paths : list path) (m : gmap path bytes) (tot : Prop) :
  (forall p : path, p ∈ paths -> exists d, m !! p = Some d /\ data_at fs (root ++ p) = Some d) ->
  reads fs (hash_files root paths)
    (fun r => r.1 = concat ((fun p => file_record p (blake3 (default [] (m !! p)))) <$> paths) /\
              r.2 = list_to_set paths) tot.
Proof.
  induction paths as [|p paths IH]; intros Hm; cbn [hash_files].
  { by apply reads_ret. }
  destruct (Hm p ltac:(set_solver)) as (d & Hmd & Hd).
  apply (reads_bind _ _ _ (fun data => data = d)).
  - apply reads_ctx, reads_io.
    + unfold op_read. by repeat case_match.
    + unfold op_read, data_at, file_at in *. intros a. repeat case_match; naive_solver.
    + intros _. unfold op_read, data_at, file_at in *. repeat case_match; simplify_eq/=. by eexists.
  - intros data ->. eapply reads_bind; [apply IH; set_solver|].
    intros r [H1 H2]. apply reads_ret. simpl. rewrite Hmd, H1, H2. done.
Qed.

Lemma sorted_keys (m : gmap path bytes) (l : list path) :
  NoDup l -> (forall p, p ∈ l <-> is_Some (m !! p)) ->
  sort_by id l = (sort_by fst (map_to_list m)).*1.
Proof.
  intros Hnd Hin. apply (sorted_perm_unique id).
  - done.
  - apply sort_by_sorted.
  - pose proof (sort_by_sorted fst (map_to_list m)) as Hs.
    induction Hs as [|x k _ IH Hx]; [constructor|]. rewrite fmap_cons. constructor; [done|].
    apply Forall_fmap. exact Hx.
  - rewrite !sort_by_perm. apply NoDup_Permutation; [done|apply NoDup_fst_map_to_list|].
    intros p. rewrite Hin, list_elem_of_fmap. split.
    + intros [d Hd]. exists (p, d). split; [done|]. by apply elem_of_map_to_list.
    + intros ([q d] & -> & Hd%elem_of_map_to_list). simpl. eauto.
Qed.

Lemma snapshot_reads (fs : fsmap) (root : path) :
  fs_wf fs ->
  reads fs (snapshot_content root)
    (fun r => r = (vhash (content fs root), dom (content fs root)))
    (fs !! root = Some NDir).
Proof.
  intros Hwf. eapply reads_bind; [by apply collect_files_reads|].
  intros l [Hnd Hin]. cbv zeta. set (m := content fs root) in *.
  eapply reads_bind; [apply (hash_files_reads fs root _ m)|].
  - intros p Hp. rewrite elem_of_sort_by in Hp. apply Hin in Hp as [d Hd].
    exists d. split; [done|]. by apply content_lookup in Hd as [_ ?].
  - intros r [H1 H2]. apply reads_ret. rewrite H1, H2. f_equal.
    + unfold vhash. do 4 f_equal. rewrite (sorted_keys m) by done.
      rewrite <- list_fmap_compose. apply list_fmap_ext. intros i [p d] Hi.
      apply list_elem_of_lookup_2 in Hi. rewrite elem_of_sort_by in Hi.
      apply elem_of_map_to_list in Hi. simpl. by rewrite Hi.
    + apply set_eq. intros p. rewrite elem_of_list_to_set, elem_of_sort_by, Hin.
      by rewrite elem_of_dom.
Qed.
End vhash_lemmas.

(** ** Lemmas: encrypting into the shadow *)

Section sync_lemmas.
Context `{MD : Metadata, ReadDir, Blake3, Entropy, Aead}.

Lemma data_at_eq fs fs' q : file_at fs' q = file_at fs q -> data_at fs' q = data_at fs q.
Proof. unfold data_at. by intros ->. Qed.

Lemma shadow_not_plain root p q : PEERDUP_DIR_NAME ∉ p -> root ++ p <> shadow_root root ++ q.
Proof.
  intros Hp E. rewrite shadow_root_eq, <- app_assoc in E. apply app_inv_head in E. subst.
  apply Hp. set_solver.
Qed.

Lemma encrypt_touches key d : touches (fun _ => False) (encrypt key d).
Proof. unfold encrypt. cbv zeta. eauto 10 with peerdup. Qed.

Lemma encrypt_file_touches root key rel :
  touches (fun q => q = shadow_file_for root rel) (encrypt_file root key rel).
Proof.
  unfold encrypt_file. cbv zeta.
  apply touches_bind; [by apply touches_ctx, touches_create_dir_all|]. intros _.
  apply touches_bind; [by apply touches_ctx, touches_read|]. intros d.
  apply touches_bind; [|intros ct; by apply touches_ctx, touches_write].
  apply touches_ctx. eapply touches_mono; [|apply encrypt_touches]. done.
Qed.

Lemma encrypt_file_quiet root key rel : quiet (encrypt_file root key rel).
Proof. unfold encrypt_file, encrypt, fs_create_dir_all, fs_read, fs_write. cbv zeta. eauto 12 with peerdup. Qed.

Lemma encrypt_file_wf root key rel : keeps_wf (encrypt_file root key rel).
Proof. unfold encrypt_file, encrypt. cbv zeta. eauto 12 with peerdup. Qed.

(** The shadow file of [rel] opens to the plaintext of [rel]. *)
Definition mirrored (key : KeyRing) (root : path) (fs : fsmap) (rel : path) (d : bytes) : Prop :=
  exists blob, data_at fs (shadow_root root ++ shadow_rel rel) = Some blob /\
               decrypt key blob = Ok d.

Lemma encrypt_file_Ok root key rel w w' :
  path_ok rel -> current_epoch key <= u64_max -> encrypt_file root key rel w = (Ok tt, w') ->
  exists d, data_at (w_fs w) (root ++ rel) = Some d /\ mirrored key root (w_fs w') rel d.
Proof.
  intros Hp Hep He. unfold encrypt_file in He. cbv zeta in He. inv_ok.
  rewrite shadow_file_for_eq in * by done.
  match goal with H : fs_create_dir_all _ _ = _ |- _ =>
    apply (touches_Ok (fun _ => False) _ _ _ _ (root ++ rel)) in H; [|apply touches_create_dir_all|tauto];
    apply data_at_eq in H as Hpt end.
  match goal with H : fs_read _ _ = _ |- _ => apply fs_read_Ok in H as (Hd & _) end.
  match goal with H : encrypt _ _ _ = _ |- _ => apply encrypt_opens in H as (_ & Hop); [|done] end.
  match goal with H : fs_write _ _ _ = _ |- _ => apply io_Ok in H as (Hw & _);
    apply op_write_ok in Hw end.
  eexists. split; [rewrite <- Hpt; exact Hd|]. eexists. split; [exact Hw|].
  apply Hop. by exists []; rewrite app_nil_r.
Qed.

Lemma encrypt_all_Ok root key l w w' :
  NoDup l -> Forall path_ok l -> current_epoch key <= u64_max ->
  forM l (encrypt_file root key) w = (Ok tt, w') ->
  (forall rel, rel ∈ l ->
     exists d, data_at (w_fs w) (root ++ rel) = Some d /\ mirrored key root (w_fs w') rel d) /\
  (forall q, (forall rel, rel ∈ l -> q <> shadow_root root ++ shadow_rel rel) ->
     file_at (w_fs w') q = file_at (w_fs w) q).
Proof.
  intros Hnd Hok Hep. revert w. induction l as [|r l IH]; intros w He; cbn [forM] in He.
  { inv_ok. set_solver. }
  apply NoDup_cons in Hnd as [Hr Hnd]. apply Forall_cons in Hok as [Hrok Hok].
  inv_ok. match goal with H1 : encrypt_file _ _ _ _ = (Ok tt, ?w1) |- _ =>
    rename H1 into He1; rename w1 into wm end.
  destruct (IH Hnd Hok _ He) as [IH1 IH2].
  destruct (encrypt_file_Ok _ _ _ _ _ Hrok Hep He1) as (d & Hd & Hm).
  pose proof (fun q => touches_Ok _ _ _ _ _ q (encrypt_file_touches root key r) He1) as Ht.
  rewrite shadow_file_for_eq in Ht by done.
  split.
  - intros rel [->|Hrel]%elem_of_cons.
    + exists d. split; [done|]. destruct Hm as (blob & Hb & Hdec). exists blob. split; [|done].
      rewrite <- Hb. apply data_at_eq, IH2. intros rel' Hrel' E.
      apply app_inv_head, shadow_rel_inj in E; [|done|by eapply Forall_forall].
      by subst.
    + destruct (IH1 rel Hrel) as (d' & Hd' & Hm'). exists d'. split; [|done].
      rewrite <- Hd'. symmetry. apply data_at_eq, Ht. apply shadow_not_plain.
      rewrite Forall_forall in Hok. by apply Hok.
  - intros q Hq. rewrite IH2 by set_solver. apply Ht. set_solver.
Qed.

(** *** Deleting shadow orphans *)

Definition shadow_orphan (manifest : gset path) (rel : path) : Prop :=
  exists p, plaintext_rel_from_shadow_rel rel = Some p /\ p ∉ manifest.

Lemma remove_file_attempt p w :
  w_faults w = [] ->
  exists w', (attempt (fs_remove_file p) ;;; ret tt) w = (Ok tt, w') /\ w_faults w' = [] /\
    file_at (w_fs w') p = None /\ forall q, q <> p -> file_at (w_fs w') q = file_at (w_fs w) q.
Proof.
  intros Hf. unfold fs_remove_file, bind, attempt. rewrite io_run by done.
  pose proof (touches_remove_file p w) as Ht. unfold fs_remove_file in Ht.
  rewrite io_run in Ht by done. simpl in Ht.
  assert (file_at (snd (op_remove_file p (w_fs w))) p = None) as Hnone.
  { unfold op_remove_file, file_at. repeat case_match; simplify_eq/=;
      rewrite ?lookup_delete_eq in *; congruence. }
  assert (fst (op_remove_file p (w_fs w)) <> Panic).
  { unfold op_remove_file. by repeat case_match. }
  destruct (fst (op_remove_file p (w_fs w))); try done; simpl; eexists; split; try done;
    (split; [done|]); (split; [done|]); intros; by apply Ht.
Qed.

Lemma drop_orphan_run shadow manifest rel w :
  w_faults w = [] ->
  exists w', drop_shadow_orphan shadow manifest rel w = (Ok tt, w') /\ w_faults w' = [] /\
    (shadow_orphan manifest rel -> file_at (w_fs w') (shadow ++ rel) = None) /\
    forall q, (shadow_orphan manifest rel -> q <> shadow ++ rel) ->
      file_at (w_fs w') q = file_at (w_fs w) q.
Proof.
  intros Hf. unfold drop_shadow_orphan, shadow_orphan.
  destruct (plaintext_rel_from_shadow_rel rel) as [p|].
  - case_decide as Hp.
    + exists w. split; [done|]. split; [done|]. split; [|done]. naive_solver.
    + destruct (remove_file_attempt (shadow ++ rel) w Hf) as (w' & -> & ? & ? & Hq).
      exists w'. split; [done|]. split; [done|]. split; [done|]. intros q Hne. apply Hq, Hne.
      eauto.
  - exists w. split; [done|]. split; [done|]. split; [|done]. naive_solver.
Qed.

Lemma drop_orphans_run shadow manifest l w :
  w_faults w = [] ->
  exists w', forM l (drop_shadow_orphan shadow manifest) w = (Ok tt, w') /\
    (forall rel, rel ∈ l -> shadow_orphan manifest rel -> file_at (w_fs w') (shadow ++ rel) = None) /\
    forall q, (forall rel, rel ∈ l -> shadow_orphan manifest rel -> q <> shadow ++ rel) ->
      file_at (w_fs w') q = file_at (w_fs w) q.
Proof.
  revert w. induction l as [|r l IH]; intros w Hf; cbn [forM].
  { exists w. set_solver. }
  destruct (drop_orphan_run shadow manifest r w Hf) as (w1 & E & Hf1 & Hn1 & Ho1).
  destruct (IH w1 Hf1) as (w2 & E2 & Hn2 & Ho2). exists w2.
  split; [by erewrite bind_run|]. split.
  - intros rel [->|Hrel]%elem_of_cons Horph; [|by apply Hn2].
    destruct (decide (r ∈ l)) as [Hin|Hout]; [by apply Hn2|].
    rewrite Ho2; [by apply Hn1|]. intros rel' Hrel' _ E'%app_inv_head. congruence.
  - intros q Hq. rewrite Ho2 by set_solver. apply Ho1. set_solver.
Qed.

Lemma in_order_spec (s : gset path) : NoDup (in_order s) /\ forall p, p ∈ in_order s <-> p ∈ s.
Proof.
  unfold in_order. rewrite sort_by_perm. split; [apply NoDup_elements|].
  intros p. by rewrite elem_of_sort_by, elem_of_elements.
Qed.

(** What a lookup in a content sees is a file; files decide contents. *)
Lemma content_file_at fs fs' root p :
  file_at fs' (root ++ p) = file_at fs (root ++ p) -> content fs' root !! p = content fs root !! p.
Proof.
  intros E. apply option_eq. intros d. rewrite !content_lookup. by rewrite (data_at_eq _ _ _ E).
Qed.

Lemma content_same fs fs' root :
  (forall p, PEERDUP_DIR_NAME ∉ p -> file_at fs' (root ++ p) = file_at fs (root ++ p)) ->
  content fs' root = content fs root.
Proof.
  intros Hs. apply map_eq. intros p. destruct (decide (PEERDUP_DIR_NAME ∈ p)) as [Hp|Hp].
  - apply option_eq. intros d. rewrite !content_lookup. tauto.
  - apply content_file_at, Hs, Hp.
Qed.

Lemma content_Some_file fs root p :
  is_Some (content fs root !! p) -> is_Some (file_at fs (root ++ p)).
Proof.
  intros [d [_ Hd]%content_lookup]. unfold data_at in Hd.
  destruct (file_at fs (root ++ p)) as [f|]; [by exists f|done].
Qed.

Lemma content_absent fs root p : fs_wf fs -> fs !! root = None -> content fs root !! p = None.
Proof.
  intros Hwf Hr. destruct (content fs root !! p) eqn:E; [|done]. exfalso.
  assert (is_Some (content fs root !! p)) as Hs by eauto. apply content_Some_file in Hs as [f Hf].
  unfold file_at in Hf. destruct (decide (p = [])) as [->|Hp].
  - rewrite app_nil_r, Hr in Hf. done.
  - destruct (fs !! (root ++ p)) eqn:E'; [|done].
    rewrite (fs_wf_prefix fs root p Hwf Hp) in Hr; [done|eauto].
Qed.

(** What the walk of the shadow returns, when there is a shadow. *)
Lemma shadow_walk_Ok sh w ex w1 l w2 :
  fs_wf (w_fs w) -> unreadable w sh = false -> fs_exists sh w = (Ok ex, w1) ->
  (if (ex : bool) then collect_files sh sh else ret []) w1 = (Ok l, w2) ->
  w_fs w2 = w_fs w /\ (w_faults w = [] -> w_faults w2 = []) /\
  NoDup l /\ forall p, p ∈ l <-> is_Some (content (w_fs w) sh !! p).
Proof.
  intros Hwf Hu Hex Hl. rewrite fs_exists_run in Hex by done.
  injection Hex as <- <-. case_bool_decide as Hb.
  - destruct (collect_files_reads (w_fs w) sh Hwf w eq_refl) as (H1' & H2' & H3' & _).
    rewrite Hl in H1', H2', H3'. simpl in *. destruct (H3' l eq_refl).
    split; [done|]. split; [|done]. intros Hf. by rewrite (H2' Hf).
  - injection Hl as <- <-. split; [done|]. split; [done|]. split; [constructor|].
    intros p. split; [by intros ?%elem_of_nil|]. intros [d Hd].
    rewrite content_absent in Hd; [done|done|]. by destruct (w_fs w !! sh) eqn:E; [destruct Hb; eauto|].
Qed.

(** On a working disk, encrypting the content of a share leaves the content
    alone and makes the shadow hold it. *)
Lemma plaintext_to_shadow_Ok root key w w' :
  fs_wf (w_fs w) -> w_faults w = [] -> current_epoch key <= u64_max ->
  (forall p, is_Some (content (w_fs w) root !! p) -> path_ok p) -> shadow_names (w_fs w) root ->
  sync_plaintext_to_shadow root key (dom (content (w_fs w) root)) w = (Ok tt, w') ->
  content (w_fs w') root = content (w_fs w) root /\
  shadow_holds key (w_fs w') root (content (w_fs w) root).
Proof.
  intros Hwf Hf Hep Hok Hnames He. set (m := content (w_fs w) root) in *.
  unfold sync_plaintext_to_shadow in He. cbv zeta in He. set (sh := shadow_root root) in *.
  inv_ok.
  match goal with H1 : fs_create_dir_all _ w = (Ok tt, ?w1) |- _ =>
    rename H1 into Hc; rename w1 into wc end.
  match goal with H1 : forM _ (encrypt_file _ _) wc = (Ok tt, ?w1) |- _ =>
    rename H1 into Hen; rename w1 into we end.
  destruct (in_order_spec (dom m)) as [Hnd Hin].
  assert (forall q, file_at (w_fs wc) q = file_at (w_fs w) q) as Hfc.
  { intros q. eapply (touches_Ok (fun _ => False)); [apply touches_create_dir_all|done|tauto]. }
  apply encrypt_all_Ok in Hen as Henc; [|done| |done].
  2: { apply Forall_forall. intros p Hp. apply Hok. apply elem_of_dom. by apply Hin. }
  destruct Henc as [Hmir Hoth].
  assert (w_faults we = []) as Hfe.
  { refine (quiet_Ok _ _ _ _ _ Hen _); [apply quiet_forM; intros; apply encrypt_file_quiet|].
    refine (quiet_Ok _ _ _ _ _ Hc Hf). apply quiet_io. }
  assert (fs_wf (w_fs we)) as Hwfe.
  { refine (keeps_wf_Ok _ _ _ _ _ Hen _); [apply keeps_wf_forM; intros; apply encrypt_file_wf|].
    refine (keeps_wf_Ok _ _ _ _ _ Hc Hwf). apply keeps_wf_create_dir_all. }
  destruct (shadow_walk_Ok _ _ _ _ _ _ Hwfe (quiet_readable _ _ Hfe)
    ltac:(eassumption) ltac:(eassumption)) as (Hfs6 & Hf6 & _ & Hl).
  match goal with H1 : forM ?l (drop_shadow_orphan _ _) ?w6 = _ |- _ =>
    destruct (drop_orphans_run sh (dom m) l w6 (Hf6 Hfe)) as (w7 & E7 & Hdel & Hkeep) end.
  rewrite E7 in He. injection He as <-. rewrite Hfs6 in Hkeep.
  assert (forall p, p ∈ in_order (dom m) <-> is_Some (m !! p)) as Hin'.
  { intros p. by rewrite Hin, elem_of_dom. }
  assert (forall q, is_Some (content (w_fs w7) sh !! q) -> is_Some (content (w_fs we) sh !! q) /\
    ~ shadow_orphan (dom m) q) as Hsub.
  { intros q Hq. apply content_Some_file in Hq as Hfq.
    destruct (decide (q ∈ x5)) as [Hin5|Hout].
    - split; [by apply Hl|]. intros Ho. rewrite Hdel in Hfq by done. by destruct Hfq.
    - assert (file_at (w_fs w7) (sh ++ q) = file_at (w_fs we) (sh ++ q)) as E.
      { apply Hkeep. intros r Hr _ E%app_inv_head. congruence. }
      rewrite (content_file_at _ _ _ _ E) in Hq. split; [done|]. by apply Hl in Hq. }
  split; [|split].
  - apply content_same. intros p Hp.
    rewrite Hkeep by (intros; by apply shadow_not_plain).
    rewrite Hoth by (intros; by apply shadow_not_plain). apply Hfc.
  - intros q p [Hq _]%Hsub Hpt.
    destruct (decide (Exists (fun r => q = shadow_rel r) (in_order (dom m)))) as [Hex|Hno].
    + apply Exists_exists in Hex as (r & Hr & ->).
      rewrite plaintext_shadow_rel in Hpt by (by apply Hok, Hin'). by injection Hpt as <-.
    + apply (Hnames q p); [|done].
      rewrite <- (content_file_at (w_fs w) (w_fs we) (shadow_root root) q); [done|].
      rewrite Hoth; [apply Hfc|]. intros r Hr E%app_inv_head. apply Hno, Exists_exists. eauto.
  - intros q p [_ Hno]%Hsub Hp. destruct (m !! p) eqn:E; [eauto|]. exfalso. apply Hno.
    exists p. split; [done|]. rewrite elem_of_dom, E. by intros [].
  - intros p d Hp. destruct (Hmir p) as (d' & Hd' & blob & Hb & Hdec); [apply Hin'; eauto|].
    exists blob. split.
    + rewrite <- Hb. apply data_at_eq, Hkeep. intros r Hr (p' & Hp' & Hout) E%app_inv_head. subst r.
      rewrite plaintext_shadow_rel in Hp' by (apply Hok; eauto). injection Hp' as <-.
      apply Hout, elem_of_dom. eauto.
    + rewrite Hdec. f_equal. apply content_lookup in Hp as [_ Hd].
      rewrite (data_at_eq _ _ _ (Hfc (root ++ p))) in Hd'. congruence.
Qed.
(** ** Lemmas: decrypting out of the shadow *)

Lemma tmp_of_snoc q n : n <> ".."%string -> tmp_of (q ++ [n]) = q ++ [tmp_name n].
Proof.
  intros Hn. unfold tmp_of, set_file_name. by rewrite file_name_snoc, removelast_last.
Qed.

Lemma tmp_name_ne n : tmp_name n <> n.
Proof.
  intros E%(f_equal (fun s => length (string_bytes s))). unfold tmp_name in E.
  rewrite string_bytes_app, length_app in E. vm_compute (length (string_bytes ".peerdup-tmp")) in E.
  lia.
Qed.

Lemma tmp_name_not_peerdup n : tmp_name n <> PEERDUP_DIR_NAME.
Proof.
  intros E%(f_equal (fun s => length (string_bytes s))). unfold tmp_name in E.
  rewrite string_bytes_app, length_app in E. vm_compute (length (string_bytes ".peerdup-tmp")) in E.
  vm_compute (length (string_bytes PEERDUP_DIR_NAME)) in E. lia.
Qed.

Lemma tmp_of_ok p : path_ok p -> PEERDUP_DIR_NAME ∉ tmp_of p /\ tmp_of p <> p /\ p <> [].
Proof.
  intros Hp. pose proof Hp as (q & n & -> & Hn & _)%path_ok_snoc. destruct Hp as (_ & _ & Hd).
  rewrite tmp_of_snoc by by apply name_ok_dotdot. split; [|split].
  - pose proof (tmp_name_not_peerdup n). set_solver.
  - intros E%app_inv_head. injection E as E. by apply tmp_name_ne in E.
  - by destruct q.
Qed.

Lemma app_file_name (root p : path) : p <> [] -> file_name (root ++ p) = file_name p.
Proof.
  destruct p as [|c p _] using rev_ind; [done|]. intros _. unfold file_name.
  by rewrite app_assoc, !last_snoc.
Qed.

Lemma app_set_file_name (root p : path) n :
  p <> [] -> set_file_name (root ++ p) n = root ++ set_file_name p n.
Proof.
  destruct p as [|c p _] using rev_ind; [done|]. intros _. unfold set_file_name.
  by rewrite app_assoc, !removelast_last, app_assoc.
Qed.

(** One file: on success its plaintext is at its path, no temporary file is
    left, and no other file has changed. *)
Lemma decrypt_file_Ok root key q p w r w' :
  path_ok p -> plaintext_rel_from_shadow_rel q = Some p ->
  decrypt_file root key q w = (Ok r, w') ->
  r = Some p /\ (exists blob d, data_at (w_fs w) (shadow_root root ++ q) = Some blob /\
    decrypt key blob = Ok d /\ data_at (w_fs w') (root ++ p) = Some d) /\
  file_at (w_fs w') (root ++ tmp_of p) = None /\
  forall x, x <> root ++ p -> x <> root ++ tmp_of p -> file_at (w_fs w') x = file_at (w_fs w) x.
Proof.
  intros Hp Hq Hd. unfold decrypt_file in Hd. rewrite Hq in Hd. cbv zeta in Hd. inv_ok.
  destruct (tmp_of_ok p Hp) as (_ & Hne & Hnil).
  rewrite app_file_name in * by done.
  match goal with H : file_name p = Some ?n |- _ =>
    assert (set_file_name (root ++ p) (n +:+ ".peerdup-tmp") = root ++ tmp_of p) as Htmp
      by (rewrite app_set_file_name by done; unfold tmp_of; by rewrite H) end.
  rewrite Htmp in *. split; [done|].
  match goal with H1 : fs_read _ _ = _ |- _ => apply fs_read_Ok in H1 as (Hrd & Hfs1 & _) end.
  match goal with H1 : fs_create_dir_all _ ?w1 = (Ok tt, ?w2) |- _ =>
    assert (forall x, file_at (w_fs w2) x = file_at (w_fs w1) x) as Hc
      by (intros z; eapply (touches_Ok (fun _ => False)); [apply touches_create_dir_all|exact H1|tauto]) end.
  match goal with H1 : fs_write _ _ ?w1 = (Ok tt, ?w2) |- _ =>
    assert (forall x, x <> root ++ tmp_of p -> file_at (w_fs w2) x = file_at (w_fs w1) x) as Hw
      by (intros z Hz; eapply (touches_Ok (fun y => y = root ++ tmp_of p));
          [apply touches_write|exact H1|done]);
    apply io_Ok in H1 as (Ew & _); apply op_write_ok in Ew end.
  match goal with H1 : fs_rename _ _ ?w1 = (Ok tt, ?w2) |- _ =>
    assert (forall x, x <> root ++ tmp_of p -> x <> root ++ p ->
      file_at (w_fs w2) x = file_at (w_fs w1) x) as Hr
      by (intros z Hz Hz'; eapply (touches_Ok (fun y => y = root ++ tmp_of p \/ y = root ++ p));
          [apply touches_rename|exact H1|tauto]);
    apply io_Ok in H1 as (Er & _) end.
  assert (root ++ p <> root ++ tmp_of p) as Hne' by (intros E%app_inv_head; congruence).
  split; [|split].
  - do 2 eexists. split; [exact Hrd|]. split; [eassumption|].
    apply op_rename_ok in Er as [Er _]. unfold data_at in *. by rewrite Er.
  - unfold op_rename in Er. unfold file_at.
    match type of Er with match ?o with _ => _ end = (_, ?fs) => destruct o as [[f| |]|]; try done;
      assert (fs = <[root ++ p := NFile f]> (delete (root ++ tmp_of p) (w_fs x8))) as ->
        by (repeat case_match; congruence) end.
    by rewrite lookup_insert_ne, lookup_delete_eq.
  - intros z Hz Hz'. rewrite Hr, Hw, Hc by done. by rewrite Hfs1.
Qed.

(** The whole loop, over files whose plaintext paths are those of [m]. *)
Lemma decrypt_files_Ok (root : path) (key : KeyRing) (l : list path) (m : gmap path bytes) (w : world) (man : gset path) (w' : world) :
  NoDup l -> (forall q p, q ∈ l -> plaintext_rel_from_shadow_rel q = Some p ->
    q = shadow_rel p /\ is_Some (m !! p)) ->
  (forall p, is_Some (m !! p) -> path_ok p /\ m !! tmp_of p = None) ->
  decrypt_files root key l w = (Ok man, w') ->
  (forall p, p ∈ man <-> exists q, q ∈ l /\ plaintext_rel_from_shadow_rel q = Some p) /\
  (forall p, p ∈ man -> exists blob d, data_at (w_fs w) (shadow_root root ++ shadow_rel p) = Some blob /\
     decrypt key blob = Ok d /\ data_at (w_fs w') (root ++ p) = Some d) /\
  (forall x, (forall p, p ∈ man -> x <> root ++ p /\ x <> root ++ tmp_of p) ->
     file_at (w_fs w') x = file_at (w_fs w) x) /\
  (forall p, p ∈ man -> file_at (w_fs w') (root ++ tmp_of p) = None).
Proof.
  intros Hnd Hl Hm. revert w man. induction l as [|q l IH]; intros w man Hd; cbn [decrypt_files] in Hd.
  { inv_ok. set_solver. }
  apply NoDup_cons in Hnd as [Hq Hnd]. inv_ok.
  match goal with H1 : decrypt_file _ _ q w = (Ok ?o, ?w1) |- _ =>
    rename H1 into Hf; rename o into op; rename w1 into wm end.
  match goal with H1 : decrypt_files _ _ l wm = (Ok ?s, _) |- _ =>
    rename H1 into Hds; rename s into rest end.
  specialize (IH Hnd ltac:(set_solver) _ _ Hds). destruct IH as (IH1 & IH2 & IH3 & IH4).
  destruct (plaintext_rel_from_shadow_rel q) as [p|] eqn:Ep.
  2: { unfold decrypt_file in Hf. rewrite Ep in Hf. injection Hf as <- <-. split; [|done].
       intros p. rewrite IH1. set_solver. }
  destruct (Hl q p ltac:(set_solver) Ep) as [-> Hmp]. destruct (Hm p Hmp) as [Hpok Htp].
  destruct (decrypt_file_Ok _ _ _ _ _ _ _ Hpok Ep Hf) as (-> & (blob & d & Hb & Hdec & Hd) & Hn & Ho).
  assert (forall p', p' ∈ rest -> is_Some (m !! p') /\ path_ok p' /\ p' <> p) as Hrest.
  { intros p' (q' & Hq' & Ep')%IH1. destruct (Hl q' p' ltac:(set_solver) Ep') as [-> Hmp'].
    split; [done|]. split; [by apply Hm|]. intros ->. done. }
  assert (forall p1 p2, is_Some (m !! p1) -> is_Some (m !! p2) -> tmp_of p1 <> p2) as Hcross.
  { intros p1 p2 H1' H2' E. destruct (Hm p1 H1') as [_ Hnone]. rewrite E in Hnone.
    rewrite Hnone in H2'. by destruct H2'. }
  assert (forall p1 p2, path_ok p1 -> path_ok p2 -> tmp_of p1 = tmp_of p2 -> p1 = p2) as Htinj.
  { intros p1 p2 (q1 & n1 & -> & Hn1 & _)%path_ok_snoc (q2 & n2 & -> & Hn2 & _)%path_ok_snoc.
    rewrite !tmp_of_snoc by by apply name_ok_dotdot. intros [-> E]%app_inj_tail. f_equal. f_equal. by eapply append_inj_r. }
  assert (forall p', path_ok p' -> forall r, root ++ tmp_of p' <> shadow_root root ++ r) as Hts.
  { intros p' Hp' r. apply shadow_not_plain. by apply tmp_of_ok. }
  split; [|split; [|split]].
  - intros p'. rewrite elem_of_union, elem_of_singleton, IH1. split.
    + intros [->|(q' & ? & ?)]; [exists (shadow_rel p)|exists q']; set_solver.
    + intros (q' & [->|Hq']%elem_of_cons & E); [left; congruence|right; eauto].
  - intros p' [->%elem_of_singleton|Hp']%elem_of_union.
    + exists blob, d. split; [done|]. split; [done|]. rewrite <- Hd. apply data_at_eq, IH3.
      intros p2 Hp2. destruct (Hrest p2 Hp2) as (Hm2 & Hok2 & Hne2). split.
      * intros E%app_inv_head. congruence.
      * intros E%app_inv_head. symmetry in E. by apply Hcross in E.
    + destruct (Hrest p' Hp') as (Hm2 & Hok2 & Hne2).
      destruct (IH2 p' Hp') as (b' & d' & Hb' & Hdec' & Hd'). exists b', d'.
      split; [|done]. rewrite <- Hb'. symmetry. apply data_at_eq, Ho.
      * intros E. symmetry in E. apply shadow_not_plain in E; [done|]. by destruct Hpok as (_ & _ & ?).
      * intros E. symmetry in E. by apply Hts in E.
  - intros x Hx. rewrite IH3 by set_solver. destruct (Hx p ltac:(set_solver)). by apply Ho.
  - intros p' [->%elem_of_singleton|Hp']%elem_of_union; [|by apply IH4].
    rewrite IH3; [done|]. intros p2 Hp2. destruct (Hrest p2 Hp2) as (Hm2 & Hok2 & Hne2). split.
    + intros E%app_inv_head. by apply Hcross in E.
    + intros E%app_inv_head. apply Htinj in E; [|done..]. congruence.
Qed.

(** Whatever the faults, when decrypting succeeds the share has the content
    [m] of the shadow, next to the files it had at other paths. *)
Lemma shadow_to_plaintext_Ok (root : path) (key : KeyRing) (m : gmap path bytes) (w : world) (man : gset path) (w' : world) :
  fs_wf (w_fs w) -> shadow_holds key (w_fs w) root m -> clean m (content (w_fs w) root) ->
  unreadable w (shadow_root root) = false ->
  sync_shadow_to_plaintext root key w = (Ok man, w') ->
  man = dom m /\ content (w_fs w') root = m ∪ content (w_fs w) root.
Proof.
  intros Hwf [Hnm Honly Hall] Hclean Hu Hs. unfold sync_shadow_to_plaintext in Hs. cbv zeta in Hs.
  set (sh := shadow_root root) in *.
  assert (exists l w1, decrypt_files root key l w1 = (Ok man, w') /\ w_fs w1 = w_fs w /\ NoDup l /\
    forall p, p ∈ l <-> is_Some (content (w_fs w) sh !! p)) as (l & w1 & Hd & Hfs & Hnd & Hl).
  { apply bind_Ok in Hs as (ex & w0 & Hex & Hs). destruct ex; cbn [negb] in Hs.
    - inv_ok. match goal with H1 : collect_files sh sh _ = (Ok ?l, ?w2) |- _ =>
        destruct (shadow_walk_Ok sh w true w0 l w2 Hwf Hu Hex H1) as (? & _ & ? & ?); eauto 7 end.
    - destruct (shadow_walk_Ok sh w false w0 [] w0 Hwf Hu Hex eq_refl) as (? & _ & ? & ?).
      injection Hs as <- <-. exists [], w0. done. }
  assert (forall p, path_ok p -> is_Some (m !! p) <-> shadow_rel p ∈ l) as Hmem.
  { intros p Hp. rewrite Hl. split; [|intros Hc; eapply Honly; [exact Hc | by apply plaintext_shadow_rel]].
    intros [d Hmp]. destruct (Hall p d Hmp) as (blob & Hb & _). exists blob.
    apply content_lookup. split; [by apply shadow_rel_not_peerdup|done]. }
  assert (forall q p, q ∈ l -> plaintext_rel_from_shadow_rel q = Some p ->
    q = shadow_rel p /\ is_Some (m !! p)) as Hl'.
  { intros q p Hq Hpt. apply Hl in Hq. split; [by apply Hnm | by eapply Honly]. }
  assert (forall p, is_Some (m !! p) -> path_ok p /\ m !! tmp_of p = None) as Hm.
  { intros p Hp. by destruct (Hclean p Hp) as (? & ? & _). }
  destruct (decrypt_files_Ok root key l m w1 man w' Hnd Hl' Hm Hd) as (D1 & D2 & D3 & D4).
  rewrite Hfs in D2, D3.
  assert (forall p, p ∈ man <-> is_Some (m !! p)) as Hman.
  { intros p. rewrite D1. split.
    - intros (q & Hq & Hpt). by eapply Hl'.
    - intros Hp. destruct (Hm p Hp) as [Hok _]. exists (shadow_rel p).
      split; [by apply Hmem | by apply plaintext_shadow_rel]. }
  split; [apply set_eq; intros p; by rewrite Hman, elem_of_dom|].
  apply map_eq. intros p. destruct (m !! p) as [d|] eqn:Emp.
  - rewrite (lookup_union_Some_l _ _ _ d Emp). apply content_lookup.
    destruct (Hm p ltac:(eauto)) as [Hok _]. split; [by destruct Hok as (_ & _ & ?)|].
    destruct (D2 p) as (blob & d' & Hb & Hdec & ->); [apply Hman; eauto|].
    destruct (Hall p d Emp) as (blob' & Hb' & Hdec'). unfold sh in *. congruence.
  - rewrite lookup_union_r by done.
    destruct (decide (Exists (fun p' => p = tmp_of p') (elements man))) as [Hex|Hno].
    + apply Exists_exists in Hex as (p' & Hp' & ->). rewrite elem_of_elements in Hp'.
      destruct (Hclean p') as (Hok & _ & ->); [by apply Hman|].
      destruct (content (w_fs w') root !! tmp_of p') eqn:E; [|done]. exfalso.
      assert (is_Some (content (w_fs w') root !! tmp_of p')) as Hs' by eauto.
      apply content_Some_file in Hs'. rewrite (D4 p' Hp') in Hs'. by destruct Hs'.
    + apply content_file_at, D3. intros p' Hp'. split; intros E%app_inv_head.
      * subst. apply Hman in Hp'. rewrite Emp in Hp'. by destruct Hp'.
      * apply Hno, Exists_exists. exists p'. split; [by rewrite elem_of_elements|done].
Qed.

(** ** Lemmas: deleting orphans *)

Lemma delete_orphans_run root l w :
  w_faults w = [] ->
  exists w', forM l (fun rel => attempt (fs_remove_file (root ++ rel)) ;;; ret tt) w = (Ok tt, w') /\
    (forall rel, rel ∈ l -> file_at (w_fs w') (root ++ rel) = None) /\
    forall q, (forall rel, rel ∈ l -> q <> root ++ rel) -> file_at (w_fs w') q = file_at (w_fs w) q.
Proof.
  revert w. induction l as [|r l IH]; intros w Hf; cbn [forM].
  { exists w. set_solver. }
  destruct (remove_file_attempt (root ++ r) w Hf) as (w1 & E & Hf1 & Hn1 & Ho1).
  destruct (IH w1 Hf1) as (w2 & E2 & Hn2 & Ho2). exists w2.
  split; [by erewrite bind_run|]. split.
  - intros rel [->|Hrel]%elem_of_cons; [|by apply Hn2].
    destruct (decide (r ∈ l)) as [Hin|Hout]; [by apply Hn2|].
    rewrite Ho2; [done|]. intros rel' Hrel' E'%app_inv_head. congruence.
  - intros q Hq. rewrite Ho2 by set_solver. apply Ho1. set_solver.
Qed.
End sync_lemmas.

(** ** Lemmas: the version hash determines the content *)

Section injectivity.
Context `{MD : Metadata, Blake3}.

Lemma hex_encode_inj a b : hex_encode a = hex_encode b -> a = b.
Proof. intros E. pose proof (unhex_hex a) as Ha. rewrite E, unhex_hex in Ha. congruence. Qed.

Lemma split_first_slash (a b r s : bytes) :
  slash ∉ a -> slash ∉ b -> a ++ slash :: r = b ++ slash :: s -> a = b /\ r = s.
Proof.
  revert b. induction a as [|x a IH]; intros [|y b] Ha Hb E; simplify_eq/=; try done.
  - set_solver.
  - set_solver.
  - destruct (IH b) as [-> ->]; [set_solver|set_solver|done|done].
Qed.

Lemma path_text_slash c p : slash ∈ path_text (c :: p) -> Forall name_ok (c :: p) -> p <> [].
Proof.
  intros Hs Hok ->. apply Forall_singleton in Hok as (Hc & _). done.
Qed.

Lemma path_text_inj p q :
  Forall name_ok p -> Forall name_ok q -> p <> [] -> q <> [] -> path_text p = path_text q -> p = q.
Proof.
  revert q. induction p as [|c p IH]; intros [|d q] Hp Hq Hnp Hnq E; try done.
  apply Forall_cons in Hp as [(Hc & _) Hp]. apply Forall_cons in Hq as [(Hd & _) Hq].
  destruct p as [|c' p], q as [|d' q].
  - simpl in E. by rewrite (string_bytes_inj c d).
  - exfalso. apply Hc. simpl in E. rewrite E. set_solver.
  - exfalso. apply Hd. simpl in E. rewrite <- E. set_solver.
  - change (path_text (c :: c' :: p)) with (string_bytes c ++ slash :: path_text (c' :: p)) in E.
    change (path_text (d :: d' :: q)) with (string_bytes d ++ slash :: path_text (d' :: q)) in E.
    apply split_first_slash in E as [E1 E2]; [|done..].
    rewrite (string_bytes_inj c d) by done. f_equal. by apply IH.
Qed.

(** A path whose printed length fits the 8-byte length field. *)
Definition path_short (p : path) : Prop := Z.of_nat (length (path_text p)) <= u64_max.

Lemma file_record_inj p q h k r s :
  path_ok p -> path_ok q -> path_short p -> path_short q -> length h = 32%nat -> length k = 32%nat ->
  file_record p h ++ r = file_record q k ++ s -> p = q /\ h = k /\ r = s.
Proof.
  intros (Hpn & Hp & _) (Hqn & Hq & _) Hps Hqs Hh Hk E. unfold file_record in E.
  rewrite <- !app_assoc in E.
  apply app_inj_1 in E as [El E]; [|by rewrite !length_u64_le].
  apply u64_le_inj in El; [|unfold path_short in *; lia..].
  apply app_inj_1 in E as [Et E]; [|lia].
  apply app_inj_1 in E as [-> ->]; [|congruence].
  split; [|done]. by apply path_text_inj.
Qed.

Definition records (l : list (path * bytes)) : bytes :=
  concat ((fun pd => file_record pd.1 (blake3 pd.2)) <$> l).

Definition host_content (m : gmap path bytes) : Prop :=
  forall p, is_Some (m !! p) -> path_ok p /\ path_short p.

Lemma records_inj l k :
  Forall (fun pd => path_ok pd.1 /\ path_short pd.1) l ->
  Forall (fun pd => path_ok pd.1 /\ path_short pd.1) k ->
  records l = records k ->
  l = k \/ exists p d e, (p, d) ∈ l /\ (p, e) ∈ k /\ d <> e /\ blake3 d = blake3 e.
Proof.
  intros Hl. revert k. induction Hl as [|[p d] l [Hp Hps] _ IH]; intros [|[q e] k] Hk E.
  - by left.
  - exfalso. apply (f_equal length) in E. unfold records in E. rewrite fmap_cons in E.
    cbn [concat fmap list_fmap] in E. unfold file_record in E.
    rewrite !length_app, length_u64_le in E. cbn [length] in E. lia.
  - exfalso. apply (f_equal length) in E. unfold records in E. rewrite fmap_cons in E.
    cbn [concat fmap list_fmap] in E. unfold file_record in E.
    rewrite !length_app, length_u64_le in E. cbn [length] in E. lia.
  - apply Forall_cons in Hk as [[Hq Hqs] Hk]. unfold records in E. rewrite !fmap_cons in E.
    cbn [concat fst snd] in *. apply file_record_inj in E as (-> & Eh & E);
      [|done..|apply blake3_length|apply blake3_length].
    destruct (decide (d = e)) as [->|Hde]; [|right; exists q, d, e; set_solver].
    destruct (IH k Hk E) as [->|(p & d & e' & ? & ? & ?)]; [by left|].
    right. exists p, d, e'. set_solver.
Qed.

(** The bytes the version hash of a content is taken of. *)
Definition transcript (m : gmap path bytes) : bytes := records (sort_by fst (map_to_list m)).

(** The hashing of two contents collides on the very bytes that were hashed:
    on the two transcripts, or on the two files of one path. *)
Definition vhash_collision (m k : gmap path bytes) : Prop :=
  (transcript m <> transcript k /\ blake3 (transcript m) = blake3 (transcript k)) \/
  exists p d e, m !! p = Some d /\ k !! p = Some e /\ d <> e /\ blake3 d = blake3 e.

Lemma vhash_records m k :
  host_content m -> host_content k -> vhash m = vhash k -> m = k \/ vhash_collision m k.
Proof.
  intros Hm Hk E. unfold vhash in E. apply (f_equal string_bytes) in E.
  rewrite !string_bytes_string in E. apply hex_encode_inj in E.
  change (blake3 (transcript m) = blake3 (transcript k)) in E.
  destruct (decide (transcript m = transcript k)) as [Er|Hne]; [|by right; left].
  assert (forall m', host_content m' ->
    Forall (fun pd => path_ok pd.1 /\ path_short pd.1) (sort_by fst (map_to_list m'))) as Hf.
  { intros m' Hm'. apply Forall_forall. intros [p d] Hin. rewrite elem_of_sort_by in Hin.
    apply elem_of_map_to_list in Hin. apply Hm'. eauto. }
  destruct (records_inj _ _ (Hf m Hm) (Hf k Hk) Er) as [El|(p & d & e & Hd & He & Hc)].
  2: { rewrite elem_of_sort_by, elem_of_map_to_list in Hd, He. right. right. by exists p, d, e. }
  left.
  apply (map_to_list_inj m k). by rewrite <- (sort_by_perm fst (map_to_list m)), El, sort_by_perm.
Qed.
End injectivity.

Lemma decrypt_extends `{Aead} r r' blob d :
  ring_extends r r' -> decrypt r blob = Ok d -> decrypt r' blob = Ok d.
Proof.
  intros He. unfold decrypt. case_match; [done|]. cbv zeta.
  intros (k & Hk & Hd)%rbind_Ok. apply ok_or_Ok in Hk.
  by rewrite (key_for_epoch_extends _ _ _ _ He Hk).
Qed.

(** ** Properties *)

(** C20. [snapshot_content] on a working disk returns a result, and that result
    is a function of the files alone: the version hash and the path set do
    not depend on the place of the share, on the order in which the host
    enumerates directories, or on peerdup's own files; the fuel of the walk
    never runs out. *)
Theorem snapshot_deterministic `{MD : Metadata, Blake3} (R1 R2 : ReadDir) (root1 root2 : path) (w1 w2 : world)
    (Hwf1 : fs_wf (w_fs w1)) (Hwf2 : fs_wf (w_fs w2))
    (Hf1 : w_faults w1 = []) (Hf2 : w_faults w2 = [])
    (Hd1 : w_fs w1 !! root1 = Some NDir) (Hd2 : w_fs w2 !! root2 = Some NDir)
    (Hc : content (w_fs w1) root1 = content (w_fs w2) root2) :
  let m := content (w_fs w1) root1 in
  @snapshot_content R1 _ root1 w1 = (Ok (vhash m, dom m), w1) /\
  @snapshot_content R2 _ root2 w2 = (Ok (vhash m, dom m), w2).
Proof.
  assert (forall R root w, fs_wf (w_fs w) -> w_faults w = [] -> w_fs w !! root = Some NDir ->
    @snapshot_content R _ root w =
      (Ok (vhash (content (w_fs w) root), dom (content (w_fs w) root)), w)) as Hgo.
  { intros R root w Hwf Hf Hd.
    destruct (@snapshot_reads R _ (w_fs w) root Hwf w eq_refl) as (_ & Hw & Hr & Ht).
    destruct (Ht Hf Hd) as [a Ha]. specialize (Hw Hf). specialize (Hr a Ha).
    destruct (@snapshot_content R _ root w) as [o w']. simpl in *. by subst. }
  cbv zeta. split; [by apply Hgo|]. rewrite Hc. by apply Hgo.
Qed.


(** The mapping into the shadow and back is the identity on host paths, and
    distinct files have distinct ciphertext files. *)
Theorem shadow_path_round_trip (root p q : path) (Hp : path_ok p) (Hq : path_ok q) :
  strip_path_prefix (shadow_root root) (shadow_file_for root p) = Some (shadow_rel p) /\
  plaintext_rel_from_shadow_rel (shadow_rel p) = Some p /\
  (shadow_file_for root p = shadow_file_for root q -> p = q).
Proof.
  rewrite !shadow_file_for_eq by done. split; [by apply strip_path_prefix_Some|].
  split; [by apply plaintext_shadow_rel|].
  intros E%app_inv_head. by apply shadow_rel_inj.
Qed.


(** ** Witnesses *)

#[export] Instance name_ok_dec n : Decision (name_ok n).
Proof. unfold name_ok. apply _. Defined.
#[export] Instance path_ok_dec p : Decision (path_ok p).
Proof. unfold path_ok. apply _. Defined.
#[export] Instance path_short_dec p : Decision (path_short p).
Proof. unfold path_short. apply _. Defined.

Lemma content_check (m : gmap path bytes) (P : path -> Prop) `{!forall p, Decision (P p)} :
  forallb (fun kn => bool_decide (P kn.1)) (map_to_list m) = true ->
  forall p, is_Some (m !! p) -> P p.
Proof.
  intros Hf p [d Hd]. apply (bool_decide_eq_true (P p)).
  by apply (map_check m (fun p _ => bool_decide (P p)) Hf p d).
Qed.

Section witnesses.
#[local] Existing Instance toy_metadata.
#[local] Existing Instance toy_entropy.
#[local] Existing Instance toy_aead.
#[local] Existing Instance toy_blake3.
#[local] Existing Instance rev_read_dir.

Definition ws_root1 : path := ["home"; "a"].
Definition ws_root2 : path := ["srv"; "b"].
Definition ws_text (b : byte) : bytes := replicate 5 b.

Definition ws_fs1 : fsmap :=
  with_file (ws_root1 ++ ["d"; "y.txt"]) (ws_text Byte.x79)
    (with_file (ws_root1 ++ ["x.txt"]) (ws_text Byte.x78) root_fs).
Definition ws_w1 : world := world_of ws_fs1.
Definition ws_m : gmap path bytes := content ws_fs1 ws_root1.
Definition ws_run1 := sync_plaintext_to_shadow ws_root1 w_ring (dom ws_m) ws_w1.
Definition ws_w1' : world := ws_run1.2.

(** The receiver: an older file of its own, an older version of [x.txt], and
    the sender's ciphertext files. *)
Definition ws_fs2 : fsmap :=
  foldr (fun qb fs => with_file (shadow_root ws_root2 ++ qb.1) qb.2 fs)
    (with_file (ws_root2 ++ ["old.txt"]) (ws_text Byte.x6f)
      (with_file (ws_root2 ++ ["x.txt"]) (ws_text Byte.x61) root_fs))
    (map_to_list (content (w_fs ws_w1') (shadow_root ws_root1))).
Definition ws_w2 : world := world_of ws_fs2.
Definition ws_ring2 : KeyRing := push_key w_ring (replicate 32 Byte.x09).
Definition ws_run2 := sync_shadow_to_plaintext ws_root2 ws_ring2 ws_w2.
Definition ws_man : gset path := match ws_run2.1 with Ok m => m | _ => ∅ end.

Lemma ws_wf1 : fs_wf (w_fs ws_w1).
Proof. apply fs_wf_check_ok. vm_compute. reflexivity. Qed.
Lemma ws_wf2 : fs_wf (w_fs ws_w2).
Proof. apply fs_wf_check_ok. vm_compute. reflexivity. Qed.

Lemma ws_ok p : is_Some (ws_m !! p) -> path_ok p.
Proof. revert p. apply (content_check ws_m path_ok). vm_compute. reflexivity. Qed.

Lemma ws_no_shadow q :
  is_Some (content ws_fs1 (shadow_root ws_root1) !! q) -> plaintext_rel_from_shadow_rel q = None.
Proof.
  revert q. apply (content_check _ (fun q => plaintext_rel_from_shadow_rel q = None)).
  vm_compute. reflexivity.
Qed.

Lemma ws_names : shadow_names (w_fs ws_w1) ws_root1.
Proof. intros q p Hq Hp. apply ws_no_shadow in Hq. congruence. Qed.

Lemma ws_clean : clean ws_m (content (w_fs ws_w2) ws_root2).
Proof.
  refine (content_check ws_m (fun p => path_ok p /\ ws_m !! tmp_of p = None /\
    content (w_fs ws_w2) ws_root2 !! tmp_of p = None) _). vm_compute. reflexivity.
Qed.

Lemma ws_copy : content (w_fs ws_w2) (shadow_root ws_root2) =
                content (w_fs ws_w1') (shadow_root ws_root1).
Proof.
  apply (bool_decide_eq_true (content (w_fs ws_w2) (shadow_root ws_root2) =
    content (w_fs ws_w1') (shadow_root ws_root1))). vm_compute. reflexivity.
Qed.

Lemma ws_ok1 : ws_run1.1 = Ok tt.
Proof. vm_compute. reflexivity. Qed.

Lemma ws_sync1 : ws_run1 = (Ok tt, ws_w1').
Proof. unfold ws_w1'. rewrite <- ws_ok1. apply surjective_pairing. Qed.

Lemma ws_ok2 : (match ws_run2.1 with Ok _ => true | _ => false end) = true.
Proof. vm_compute. reflexivity. Qed.

Lemma ws_sync2 : ws_run2 = (Ok ws_man, ws_run2.2).
Proof.
  pose proof ws_ok2 as Ho. unfold ws_man. destruct ws_run2 as [[m|e|] w]; simpl in *; done.
Qed.


(** The same files at another place of another host. *)
Definition ws_fs3 : fsmap :=
  with_file (ws_root2 ++ ["x.txt"]) (ws_text Byte.x78)
    (with_file (ws_root2 ++ ["d"; "y.txt"]) (ws_text Byte.x79)
      (with_file (ws_root2 ++ [".peerdup"; "encrypted"; "junk"]) [] root_fs)).

Lemma snapshot_deterministic_witness :
  @snapshot_content toy_read_dir _ ws_root1 ws_w1 = (Ok (vhash ws_m, dom ws_m), ws_w1) /\
  @snapshot_content rev_read_dir _ ws_root2 (world_of ws_fs3) =
    (Ok (vhash ws_m, dom ws_m), world_of ws_fs3).
Proof.
  apply (snapshot_deterministic toy_read_dir rev_read_dir ws_root1 ws_root2 ws_w1 (world_of ws_fs3)).
  - exact ws_wf1.
  - apply fs_wf_check_ok. vm_compute. reflexivity.
  - reflexivity.
  - reflexivity.
  - vm_compute. reflexivity.
  - vm_compute. reflexivity.
  - apply (bool_decide_eq_true (content (w_fs ws_w1) ws_root1 =
      content (w_fs (world_of ws_fs3)) ws_root2)). vm_compute. reflexivity.
Defined.

Lemma ws_host : host_content ws_m.
Proof.
  refine (content_check ws_m (fun p => path_ok p /\ path_short p) _). vm_compute. reflexivity.
Qed.


Lemma shadow_path_round_trip_witness :
  plaintext_rel_from_shadow_rel (shadow_rel ["d"; "y.txt"]) = Some ["d"; "y.txt"]%string.
Proof.
  apply (shadow_path_round_trip ws_root1 ["d"; "y.txt"] ["x.txt"]);
    apply (bool_decide_unpack (path_ok _)); vm_compute; exact I.
Defined.

(** *** A collision with a temporary name *)

Definition ws_fs4 : fsmap :=
  with_file (ws_root1 ++ ["a"]) (ws_text Byte.x61)
    (with_file (ws_root1 ++ ["a.peerdup-tmp"]) (ws_text Byte.x62) root_fs).
Definition ws_sent : world :=
  snd (sync_plaintext_to_shadow ws_root1 w_ring (dom (content ws_fs4 ws_root1)) (world_of ws_fs4)).
Definition ws_received (R : ReadDir) :=
  @sync_shadow_to_plaintext toy_metadata R _ ws_root1 w_ring (world_of (w_fs ws_sent)).

(** A file that has the name of another file's temporary copy does not
    survive the transfer when the host lists it first: decrypting reports
    success and names it in the manifest, but writing and renaming the other
    file's temporary copy has removed it. *)
Theorem tmp_collision_loses_file :
  match ws_received toy_read_dir with
  | (Ok man, w) =>
      bool_decide (["a.peerdup-tmp"] ∈ man) = true /\
      data_at (w_fs w) (ws_root1 ++ ["a"]) = Some (ws_text Byte.x61) /\
      data_at (w_fs w) (ws_root1 ++ ["a.peerdup-tmp"]) = None
  | _ => False
  end.
Proof. vm_compute. repeat split. Qed.
End witnesses.
