(* ===== verification/Sync.v ===== *)
(** * The sync engine ([src/daemon.rs], 1152-1316, 1490-1680 and the announce
    handling of [sync_loop])

    Each peer keeps the version it holds: a content hash, a vector clock and a
    time.  Local edits increment the peer's counter; a remote announce is
    ignored, fetched, or loses to the local version by last-writer-wins.
    BitTorrent ([librqbit]) is a parameter. *)

From S2P Require Import Prelude World Tree Clock External Instances Share Crypto Shadow.

(** ** BitTorrent

    [create_torrent] of a directory, with a name for the torrent if one is
    given, yields an info hash and the metainfo; adding a torrent
    yields the id of its handle, if there is one.  Only a fetch writes files,
    and only below its output folder. *)
Class Torrents := {
  create_torrent : path -> option string -> M (string * bytes);
  add_torrent_bytes : bytes -> path -> M (option nat);
  add_torrent_magnet : string -> list string -> path -> M (option nat);
  wait_until_completed : nat -> M unit;
  session_delete : nat -> M unit;
  create_torrent_inert : forall p n w, w_fs (snd (create_torrent p n w)) = w_fs w;
  add_bytes_inert : forall b p w, w_fs (snd (add_torrent_bytes b p w)) = w_fs w;
  session_delete_inert : forall i w, w_fs (snd (session_delete i w)) = w_fs w;
  create_torrent_quiet : forall p n, quiet (create_torrent p n);
  add_bytes_quiet : forall b p, quiet (add_torrent_bytes b p);
  session_delete_quiet : forall i, quiet (session_delete i);
  session_delete_total : forall i w, fst (session_delete i w) <> Panic;
}.

(** [str::parse::<SocketAddr>] of [host:port]. *)
Class SocketAddrs := parse_addr : string -> Z -> option string.

(** ** State *)

Record ShareState := {
  ss_version_hash : string;
  ss_info_hash : string;
  ss_torrent_id : nat;
  ss_clock : VectorClock;
  ss_timestamp : Z;
  ss_manifest : gset path;
}.

Record Announce := {
  an_info_hash : string;
  an_bt_endpoints : list (string * Z);
  an_version_hash : option string;
  an_clock : option VectorClock;
  an_timestamp : option Z;
}.

#[export] Instance ShareState_eq_dec : EqDecision ShareState.
Proof. solve_decision. Defined.
#[export] Instance Announce_eq_dec : EqDecision Announce.
Proof. solve_decision. Defined.

(** LWW tiebreak: later timestamp, then larger version hash. *)
Definition lww_we_win (local_ts : Z) (local_vhash : string) (remote_ts : Z) (remote_vhash : string)
    : bool :=
  match Z.compare local_ts remote_ts with
  | Gt => true
  | Lt => false
  | Eq => ltb remote_vhash local_vhash
  end.

Section sync.
Context `{MD : Metadata, ReadDir, Blake3, Entropy, Aead, WallClock, !Json PersistedState, Torrents, SocketAddrs}.

Definition persist (data_dir : path) (share_id : string) (s : ShareState) : M unit :=
  state_save data_dir share_id
    {| ps_version_hash := ss_version_hash s; ps_clock := ss_clock s;
       ps_timestamp := ss_timestamp s; ps_manifest := ss_manifest s |}.

Definition create_and_add_shadow_torrent (config : ShareConfig) (root : path) : M (string * nat) :=
  let shadow := shadow_root root in
  let! result := ctx "create_torrent" (create_torrent shadow (Some (sc_id config))) in
  let! resp := add_torrent_bytes result.2 shadow in
  let! id := lift (ok_or (EMsg "no handle") resp) in
  ret (result.1, id).

(** Take the current content of the share as a new version. *)
Definition adopt (config : ShareConfig) (root data_dir : path) (key : KeyRing)
    (clock : VectorClock) (disk_vh : string) (manifest : gset path) : M ShareState :=
  sync_plaintext_to_shadow root key manifest ;;;
  let! r := create_and_add_shadow_torrent config root in
  let! now := utc_now in
  let state := {| ss_version_hash := disk_vh; ss_info_hash := r.1; ss_torrent_id := r.2;
                  ss_clock := clock; ss_timestamp := now; ss_manifest := manifest |} in
  persist data_dir (sc_id config) state ;;;
  ret state.

Definition reconcile_on_start (config : ShareConfig) (root data_dir : path)
    (peer_id_hex : string) (key : KeyRing) : M (option ShareState) :=
  let! persisted := state_load data_dir (sc_id config) in
  let! content := has_content root in
  match persisted with
  | None =>
      if negb content then ret None else
      let! snap := snapshot_content root in
      let! state := adopt config root data_dir key (increment new peer_id_hex) snap.1 snap.2 in
      ret (Some state)
  | Some p =>
      if negb content then ret None else
      let! snap := snapshot_content root in
      if decide (ps_version_hash p = snap.1) then
        sync_plaintext_to_shadow root key snap.2 ;;;
        let! r := create_and_add_shadow_torrent config root in
        ret (Some {| ss_version_hash := snap.1; ss_info_hash := r.1; ss_torrent_id := r.2;
                     ss_clock := ps_clock p; ss_timestamp := ps_timestamp p;
                     ss_manifest := snap.2 |})
      else
        let! state := adopt config root data_dir key (increment (ps_clock p) peer_id_hex)
                        snap.1 snap.2 in
        ret (Some state)
  end.

(** [session.delete(..)] of the current torrent, its error ignored. *)
Definition drop_torrent (current : option ShareState) : M unit :=
  match current with
  | Some s => attempt (session_delete (ss_torrent_id s)) ;;; ret tt
  | None => ret tt
  end.

(** [current.map(|s| s.clock.clone()).unwrap_or_default()] *)
Definition clock_of (current : option ShareState) : VectorClock :=
  match current with Some s => ss_clock s | None => new end.

Definition handle_local_change (config : ShareConfig) (root data_dir : path)
    (peer_id_hex : string) (key : KeyRing) (current : option ShareState) : M (option ShareState) :=
  let! content := has_content root in
  if negb content then ret None else
  let! snap := snapshot_content root in
  if (match current with Some s => bool_decide (ss_version_hash s = snap.1) | None => false end)
  then ret None else
  drop_torrent current ;;;
  let! state := adopt config root data_dir key (increment (clock_of current) peer_id_hex)
                  snap.1 snap.2 in
  ret (Some state).

Definition apply_remote_sync (root : path) (info_hash remote_vhash : string)
    (remote_clock : VectorClock) (remote_timestamp : Z) (bt_endpoints : list (string * Z))
    (key : KeyRing) (current : option ShareState) : M ShareState :=
  let initial_peers := omap (fun hp => parse_addr hp.1 hp.2) bt_endpoints in
  if decide (initial_peers = []) then fail (EMsg "announce had no usable peers") else
  drop_torrent current ;;;
  let shadow := shadow_root root in
  ctx "create_dir_all" (fs_create_dir_all shadow) ;;;
  let magnet := "magnet:?xt=urn:btih:" +:+ info_hash in
  let! resp := add_torrent_magnet magnet initial_peers shadow in
  let! torrent_id := lift (ok_or (EMsg "no handle") resp) in
  ctx "wait_until_completed" (wait_until_completed torrent_id) ;;;
  let! new_manifest := ctx "decrypting shadow to plaintext after fetch"
    (sync_shadow_to_plaintext root key) in
  let! snap := snapshot_content root in
  if decide (snap.1 <> remote_vhash) then fail (EVersionMismatch snap.1 remote_vhash) else
  match current with
  | Some s => delete_orphans root (ss_manifest s) new_manifest
  | None => ret tt
  end ;;;
  ret {| ss_version_hash := remote_vhash; ss_info_hash := info_hash; ss_torrent_id := torrent_id;
         ss_clock := merge (clock_of current) remote_clock; ss_timestamp := remote_timestamp;
         ss_manifest := new_manifest |}.

(** ** The announce branch of [sync_loop]

    Returns the new state and what is published; errors are logged there. *)
Definition sync_announce (s : ShareState) (bt_port : Z) : Announce :=
  {| an_info_hash := ss_info_hash s; an_bt_endpoints := [("127.0.0.1", bt_port)];
     an_version_hash := Some (ss_version_hash s); an_clock := Some (ss_clock s);
     an_timestamp := Some (ss_timestamp s) |}.

(** Keep and announce a new state; a failure to persist it is logged. *)
Definition commit (data_dir : path) (share_id : string) (bt_port : Z) (s : ShareState)
    : M (option ShareState * list Announce) :=
  attempt (persist data_dir share_id s) ;;;
  ret (Some s, [sync_announce s bt_port]).

Definition fetch_remote (config : ShareConfig) (root data_dir : path) (bt_port : Z)
    (key : KeyRing) (a : Announce) (remote_vhash : string) (remote_clock : VectorClock)
    (remote_ts : Z) (state : option ShareState) : M (option ShareState * list Announce) :=
  let! r := attempt (apply_remote_sync root (an_info_hash a) remote_vhash remote_clock remote_ts
                       (an_bt_endpoints a) key state) in
  match r with
  | Ok s => commit data_dir (sc_id config) bt_port s
  | _ => ret (state, [])
  end.

Definition on_announce (config : ShareConfig) (root data_dir : path) (bt_port : Z)
    (key : KeyRing) (a : Announce) (state : option ShareState)
    : M (option ShareState * list Announce) :=
  match an_version_hash a, an_clock a, an_timestamp a with
  | Some remote_vhash, Some remote_clock, Some remote_ts =>
      let fetch := fetch_remote config root data_dir bt_port key a remote_vhash remote_clock
                     remote_ts state in
      match state with
      | None => fetch
      | Some local =>
          match compare (ss_clock local) remote_clock with
          | Equal => ret (state, [])
          | SelfDominates => ret (state, [])
          | Concurrent =>
              if lww_we_win (ss_timestamp local) (ss_version_hash local) remote_ts remote_vhash
              then commit data_dir (sc_id config) bt_port
                     {| ss_version_hash := ss_version_hash local;
                        ss_info_hash := ss_info_hash local;
                        ss_torrent_id := ss_torrent_id local;
                        ss_clock := merge (ss_clock local) remote_clock;
                        ss_timestamp := ss_timestamp local; ss_manifest := ss_manifest local |}
              else fetch
          | OtherDominates => fetch
          end
      end
  | _, _, _ => ret (state, [])
  end.

(** The branch of a settled file-system event. *)
Definition on_local_change (config : ShareConfig) (root data_dir : path) (bt_port : Z)
    (peer_id_hex : string) (key : KeyRing) (state : option ShareState)
    : M (option ShareState * list Announce) :=
  let! r := attempt (handle_local_change config root data_dir peer_id_hex key state) in
  match r with
  | Ok (Some s) => ret (Some s, [sync_announce s bt_port])
  | _ => ret (state, [])
  end.
End sync.

(** ** The file-system watcher *)

(** An event is passed on unless all its paths lie in a [.peerdup]
    directory; an event without paths is. *)
Definition watcher_passes (paths : list path) : bool :=
  let all_in_shadow := negb (bool_decide (paths = [])) &&
    forallb (fun p => existsb (fun c => bool_decide (c = PEERDUP_DIR_NAME)) p) paths in
  negb all_in_shadow.

(** What the receiver of the watcher's channel sees, with its time; a closed
    channel is the end of the list. *)
Abbreviation arrivals := (list Z).

(** [debounce]: after the first arrival, every arrival less than [settle]
    after the previous one is swallowed.  Returns what is left of the
    channel, or [None] when it is closed from the start. *)
Fixpoint debounce_loop (settle last : Z) (rx : arrivals) : arrivals :=
  match rx with
  | [] => []
  | t :: rx => if t - last <? settle then debounce_loop settle t rx else t :: rx
  end.

Definition debounce (settle : Z) (rx : arrivals) : option arrivals :=
  match rx with
  | [] => None
  | t :: rx => Some (debounce_loop settle t rx)
  end.

(** ** Specification: versions and their merge *)

Record Version := { v_clock : VectorClock; v_ts : Z; v_hash : string }.

Definition version_of (s : ShareState) : Version :=
  {| v_clock := ss_clock s; v_ts := ss_timestamp s; v_hash := ss_version_hash s |}.

Definition announced (a : Announce) : option Version :=
  match an_version_hash a, an_clock a, an_timestamp a with
  | Some h, Some c, Some t => Some {| v_clock := c; v_ts := t; v_hash := h |}
  | _, _, _ => None
  end.

Definition beats (l r : Version) : bool := lww_we_win (v_ts l) (v_hash l) (v_ts r) (v_hash r).

(** Whether a peer that holds [l] goes for the announced [r]. *)
Definition wants (l : option Version) (r : Version) : bool :=
  match l with
  | None => true
  | Some l =>
      match compare (v_clock l) (v_clock r) with
      | Equal | SelfDominates => false
      | OtherDominates => true
      | Concurrent => negb (beats l r)
      end
  end.

(** The version a peer holds after an announce, transfers succeeding. *)
Definition receive (l : option Version) (r : Version) : option Version :=
  if wants l r then
    Some {| v_clock := merge (match l with Some l => v_clock l | None => new end) (v_clock r);
            v_ts := v_ts r; v_hash := v_hash r |}
  else
    match l with
    | Some l =>
        match compare (v_clock l) (v_clock r) with
        | Concurrent => Some {| v_clock := merge (v_clock l) (v_clock r); v_ts := v_ts l; v_hash := v_hash l |}
        | _ => Some l
        end
    | None => None
    end.

(** A file of the torrent made of the encrypted content [m]. *)
Definition fetched (root : path) (m : gmap path bytes) (x : path) : Prop :=
  exists p, is_Some (m !! p) /\ x = shadow_root root ++ shadow_rel p.

(** What a fetch of the content [m] brings: when it completes, the ciphertext
    files of [m] are in the shadow; no other file is written, and none is
    deleted: the ciphertext files of former versions stay. *)
Record fetch_delivers `{Torrents, Aead} (key : KeyRing) (root : path) (m : gmap path bytes) : Prop := {
  fd_magnet : forall mg ps sh w, let w' := snd (add_torrent_magnet mg ps sh w) in
    (fs_wf (w_fs w) -> fs_wf (w_fs w')) /\
    forall x, ~ fetched root m x -> file_at (w_fs w') x = file_at (w_fs w) x;
  fd_wait : forall i w w', wait_until_completed i w = (Ok tt, w') ->
    (fs_wf (w_fs w) -> fs_wf (w_fs w')) /\
    (forall x, ~ fetched root m x -> file_at (w_fs w') x = file_at (w_fs w) x) /\
    forall p d, m !! p = Some d -> exists blob,
      data_at (w_fs w') (shadow_root root ++ shadow_rel p) = Some blob /\ decrypt key blob = Ok d;
}.

(** ** Lemmas *)

Lemma ltb_irrefl {A : Type} `{TotalLeb A} (x : A) : ltb x x = false.
Proof. unfold ltb. by rewrite leb_refl. Qed.

Lemma ltb_trans {A : Type} `{TotalLeb A} (x y z : A) :
  ltb x y = true -> ltb y z = true -> ltb x z = true.
Proof.
  unfold ltb. rewrite !negb_true_iff. intros Hxy Hyz. destruct (leb z x) eqn:E; [|done].
  apply leb_false_flip in Hxy. rewrite (leb_trans _ _ _ E Hxy) in Hyz. done.
Qed.

Lemma ltb_total {A : Type} `{TotalLeb A} (x y : A) : x <> y -> ltb x y = true \/ ltb y x = true.
Proof.
  unfold ltb. rewrite !negb_true_iff. intros Hne. destruct (leb y x) eqn:E1; [|by left].
  destruct (leb x y) eqn:E2; [|by right]. destruct Hne. by apply leb_antisymm.
Qed.

Lemma lww_spec lt lh rt rh :
  lww_we_win lt lh rt rh = true <-> rt < lt \/ (rt = lt /\ ltb rh lh = true).
Proof. unfold lww_we_win. destruct (Z.compare_spec lt rt); split; try lia; naive_solver lia. Qed.

Section lemmas.
Context `{MD : Metadata, ReadDir, Blake3, Entropy, Aead, WallClock, !Json PersistedState, Torrents, SocketAddrs}.

Lemma attempt_Ok {A : Type} (m : M A) w r w' :
  attempt m w = (Ok r, w') -> m w = (r, w') /\ r <> Panic.
Proof. unfold attempt. destruct (m w) as [[a|e|] w1]; intros [= <- <-]; done. Qed.

Lemma reads_Ok {A : Type} fs (m : M A) P tot w a w' :
  reads fs m P tot -> w_fs w = fs -> m w = (Ok a, w') ->
  w_fs w' = fs /\ P a /\ (w_faults w = [] -> w' = w).
Proof.
  intros Hr Hw E. destruct (Hr w Hw) as (H1' & H2' & H3' & _). rewrite E in *. simpl in *.
  split; [done|]. split; [by apply H3'|]. intros Hf. by apply H2'.
Qed.

Lemma snapshot_Ok root w r w' :
  fs_wf (w_fs w) -> snapshot_content root w = (Ok r, w') ->
  w_fs w' = w_fs w /\ r = (vhash (content (w_fs w) root), dom (content (w_fs w) root)) /\
  (w_faults w = [] -> w' = w).
Proof. intros Hwf E. by apply (reads_Ok _ _ _ _ w r w' (snapshot_reads (w_fs w) root Hwf)). Qed.

Lemma has_content_reads fs root :
  reads fs (has_content root)
    (fun b => b = true <-> children fs root <> []) (fs !! root = Some NDir).
Proof.
  eapply reads_bind; [apply reads_ctx, reads_read_dir; done|]. intros ns [_ Hp].
  apply reads_ret. rewrite negb_true_iff, bool_decide_eq_false.
  split; intros Hne E; apply Hne.
  - rewrite E in Hp. by apply Permutation_nil_r in Hp.
  - rewrite E in Hp. by apply Permutation_nil_l in Hp.
Qed.

Lemma has_content_Ok root w b w' :
  has_content root w = (Ok b, w') ->
  w_fs w' = w_fs w /\ (b = true <-> children (w_fs w) root <> []) /\ (w_faults w = [] -> w' = w).
Proof. intros E. by apply (reads_Ok _ _ _ _ w b w' (has_content_reads (w_fs w) root)). Qed.

Lemma create_and_add_Ok config root w r w' :
  create_and_add_shadow_torrent config root w = (Ok r, w') -> w_fs w' = w_fs w.
Proof.
  unfold create_and_add_shadow_torrent. cbv zeta. intros Hr. inv_ok.
  match goal with H1 : create_torrent ?p ?n ?w1 = _ |- _ =>
    pose proof (create_torrent_inert p n w1) as E1; rewrite H1 in E1 end.
  match goal with H1 : add_torrent_bytes ?p ?n ?w1 = _ |- _ =>
    pose proof (add_bytes_inert p n w1) as E2; rewrite H1 in E2 end.
  simpl in *. congruence.
Qed.

Lemma drop_torrent_Ok cur w w' : drop_torrent cur w = (Ok tt, w') -> w_fs w' = w_fs w.
Proof.
  destruct cur as [s|]; simpl; [|by intros [= <-]]. intros Hr. inv_ok.
  match goal with H1 : attempt _ _ = _ |- _ => apply attempt_Ok in H1 as [H1 _] end.
  match goal with H1 : session_delete ?p ?w1 = _ |- _ =>
    pose proof (session_delete_inert p w1) as E1; rewrite H1 in E1 end. done.
Qed.

(** The state file after a successful save. *)
Definition saved_state (dd : path) (sid : string) (fs : fsmap) (s : ShareState) : Prop :=
  exists json, json_to_vec {| ps_version_hash := ss_version_hash s; ps_clock := ss_clock s;
       ps_timestamp := ss_timestamp s; ps_manifest := ss_manifest s |} = Some json /\
  data_at fs (state_path dd sid) = Some json.

Lemma persist_Ok dd sid s w w' :
  persist dd sid s w = (Ok tt, w') -> saved_state dd sid (w_fs w') s.
Proof.
  unfold persist. set (st := Build_PersistedState _ _ _ _). intros Hs.
  destruct (json_to_vec st) as [json|] eqn:Ej.
  - exists json. split; [done|]. destruct (state_save_run_eq dd sid st json w Ej) as [Hw Ho].
    rewrite Hs in Hw, Ho. simpl in *. destruct Ho as [Ho _]. specialize (Ho eq_refl).
    destruct (write_atomic _ _ _ _ _ w) as [o w1] eqn:Ew. simpl in *. subst.
    apply write_atomic_Ok in Ew as [Hd _]. by rewrite state_path_eq.
  - unfold state_save in Hs. cbv zeta in Hs. inv_ok.
Qed.

Lemma adopt_Ok config root dd key clock vh man w s w' :
  adopt config root dd key clock vh man w = (Ok s, w') ->
  ss_version_hash s = vh /\ ss_clock s = clock /\ ss_manifest s = man /\
  saved_state dd (sc_id config) (w_fs w') s.
Proof.
  unfold adopt. intros Hr. inv_ok.
  match goal with H1 : persist _ _ _ _ = _ |- _ => apply persist_Ok in H1 end. done.
Qed.

Lemma handle_local_change_Some config root dd me key cur w s w' :
  fs_wf (w_fs w) -> handle_local_change config root dd me key cur w = (Ok (Some s), w') ->
  let m := content (w_fs w) root in
  ss_version_hash s = vhash m /\ ss_manifest s = dom m /\
  ss_clock s = increment (clock_of cur) me /\
  (forall c, cur = Some c -> ss_version_hash c <> vhash m) /\
  saved_state dd (sc_id config) (w_fs w') s.
Proof.
  intros Hwf Hr. unfold handle_local_change in Hr. apply bind_Ok in Hr as (b & w1 & Hb & Hr).
  apply has_content_Ok in Hb as (Hfs1 & _ & _). destruct b; simpl in Hr; [|done].
  apply bind_Ok in Hr as (snap & w2 & Hsn & Hr).
  apply snapshot_Ok in Hsn as (Hfs2 & -> & _); [|by rewrite Hfs1]. rewrite Hfs1 in *.
  cbv zeta. set (m := content (w_fs w) root) in *. cbn [fst snd] in *.
  destruct (match cur with Some _ => _ | None => _ end) eqn:Ecur; [done|]. inv_ok.
  match goal with H1 : adopt _ _ _ _ _ _ _ _ = _ |- _ =>
    apply adopt_Ok in H1 as (-> & -> & -> & Hsv) end.
  do 3 (split; [done|]). split; [|done]. intros c ->. by apply bool_decide_eq_false in Ecur.
Qed.

Lemma handle_local_change_None config root dd me key cur w w' :
  fs_wf (w_fs w) -> handle_local_change config root dd me key cur w = (Ok None, w') ->
  w_fs w' = w_fs w /\
  (children (w_fs w) root = [] \/
   exists c, cur = Some c /\ ss_version_hash c = vhash (content (w_fs w) root)).
Proof.
  intros Hwf Hr. unfold handle_local_change in Hr. apply bind_Ok in Hr as (b & w1 & Hb & Hr).
  apply has_content_Ok in Hb as (Hfs1 & Hch & _). destruct b; simpl in Hr.
  - apply bind_Ok in Hr as (snap & w2 & Hsn & Hr).
    apply snapshot_Ok in Hsn as (Hfs2 & -> & _); [|by rewrite Hfs1]. rewrite Hfs1 in *.
    cbn [fst snd] in *.
    destruct (match cur with Some _ => _ | None => _ end) eqn:Ecur; [|by inv_ok].
    injection Hr as <-. split; [congruence|]. right. destruct cur as [c|]; [|done].
    exists c. by apply bool_decide_eq_true in Ecur.
  - injection Hr as <-. split; [done|]. left.
    destruct (children (w_fs w) root) eqn:E; [done|]. destruct Hch as [_ Hch].
    by discriminate Hch.
Qed.

Lemma decrypt_file_wf root key q : keeps_wf (decrypt_file root key q).
Proof.
  unfold decrypt_file. destruct (plaintext_rel_from_shadow_rel q); [|apply keeps_wf_ret].
  cbv zeta. eauto 20 with peerdup.
Qed.

Lemma decrypt_files_wf root key l : keeps_wf (decrypt_files root key l).
Proof.
  induction l as [|q l IH]; cbn [decrypt_files]; [apply keeps_wf_ret|].
  apply keeps_wf_bind; [apply decrypt_file_wf|]. intros p.
  apply keeps_wf_bind; [exact IH|]. intros rest. apply keeps_wf_ret.
Qed.

Lemma shadow_to_plaintext_wf root key w man w' :
  fs_wf (w_fs w) -> sync_shadow_to_plaintext root key w = (Ok man, w') -> fs_wf (w_fs w').
Proof.
  intros Hwf Hs. unfold sync_shadow_to_plaintext in Hs. cbv zeta in Hs.
  apply bind_Ok in Hs as (ex & w0 & Hex & Hs). destruct ex; cbn [negb] in Hs.
  - apply bind_Ok in Hs as (l & w1 & Hl & Hs).
    apply fs_exists_true in Hex as [_ ->].
    destruct (reads_Ok _ _ _ _ w l w1 (collect_files_reads (w_fs w) _ Hwf) eq_refl Hl) as (Hfs & _).
    eapply keeps_wf_Ok; [apply decrypt_files_wf|exact Hs|]. by rewrite Hfs.
  - injection Hex as _ <-. injection Hs as _ <-. done.
Qed.

(** Removing files outside the content leaves the content alone. *)
Lemma delete_orphans_content root old new w w' :
  (forall p, p ∈ old -> p ∉ new -> content (w_fs w) root !! p = None \/ PEERDUP_DIR_NAME ∈ p) ->
  delete_orphans root old new w = (Ok tt, w') ->
  content (w_fs w') root = content (w_fs w) root.
Proof.
  intros Hout Hd. unfold delete_orphans in Hd.
  assert (forall p, p ∈ in_order (old ∖ new) ->
    content (w_fs w) root !! p = None \/ PEERDUP_DIR_NAME ∈ p) as Hl.
  { intros p Hp. apply in_order_spec in Hp. apply Hout; set_solver. }
  clear Hout. revert w Hl Hd. induction (in_order (old ∖ new)) as [|r l IH]; intros w Hl Hd;
    cbn [forM] in Hd; inv_ok; [done|].
  match goal with H1 : attempt (fs_remove_file _) _ = (Ok _, ?w1) |- _ =>
    apply attempt_Ok in H1 as [Hr _]; rename w1 into wm end.
  assert (content (w_fs wm) root = content (w_fs w) root) as Hm.
  { apply map_eq. intros p. destruct (decide (p = r)) as [->|Hne].
    - destruct (Hl r ltac:(set_solver)) as [Hnone|Hp].
      + apply option_eq. intros d. rewrite Hnone. split; [|done]. intros [Hp Hdd]%content_lookup.
        exfalso. assert (content (w_fs w) root !! r = Some d) as Hsome; [|congruence].
        apply content_lookup. split; [done|]. revert Hdd.
        pose proof (io_pres (op_remove_file (root ++ r)) no_effect
          (fun fs => data_at fs (root ++ r) = Some d -> data_at (w_fs w) (root ++ r) = Some d) w) as Hio.
        unfold fs_remove_file in Hr. rewrite Hr in Hio. apply Hio; [done| |done].
        unfold op_remove_file, data_at, file_at. repeat case_match; simplify_eq/=;
          rewrite ?lookup_delete_eq in *; try done; congruence.
      + apply option_eq. intros d. rewrite !content_lookup. tauto.
    - apply content_file_at. pose proof (touches_remove_file (root ++ r) w (root ++ p)) as Ht.
      rewrite Hr in Ht. apply Ht. by intros E%app_inv_head. }
  rewrite <- Hm. apply IH; [|done]. rewrite Hm. set_solver.
Qed.

Lemma union_absorb_r (m k : gmap path bytes) : dom k ⊆ dom m -> m ∪ k = m.
Proof.
  intros Hsub. apply map_eq. intros p. destruct (m !! p) as [d|] eqn:E.
  - by apply lookup_union_Some_l.
  - rewrite lookup_union_r by done. apply not_elem_of_dom. intros Hp. apply Hsub in Hp.
    by apply not_elem_of_dom in E.
Qed.

(** The shadow after a fetch: the new ciphertext files over the former ones. *)
Lemma fetched_shadow (key : KeyRing) (root : path) (m old : gmap path bytes) (fs fs' : fsmap) :
  (forall p, is_Some (m !! p) -> path_ok p) -> (forall p, is_Some (old !! p) -> path_ok p) ->
  shadow_holds key fs root old ->
  (forall x, ~ fetched root m x -> file_at fs' x = file_at fs x) ->
  (forall p d, m !! p = Some d -> exists blob,
     data_at fs' (shadow_root root ++ shadow_rel p) = Some blob /\ decrypt key blob = Ok d) ->
  content fs' root = content fs root /\ shadow_holds key fs' root (m ∪ old).
Proof.
  intros Hm Ho [Hnm Honly Hall] Hkeep Hnew. split.
  { apply content_same. intros p Hp. apply Hkeep. intros (q & _ & E). by apply shadow_not_plain in E. }
  assert (forall q p, is_Some (content fs' (shadow_root root) !! q) ->
    plaintext_rel_from_shadow_rel q = Some p ->
    (q = shadow_rel p /\ is_Some (m !! p)) \/ is_Some (content fs (shadow_root root) !! q)) as Hcase.
  { intros q p Hq Hp.
    destruct (decide (Exists (fun r => q = shadow_rel r) (elements (dom m)))) as [Hex|Hno].
    - apply Exists_exists in Hex as (r & Hr & ->). rewrite elem_of_elements, elem_of_dom in Hr.
      rewrite plaintext_shadow_rel in Hp by by apply Hm. injection Hp as <-. by left.
    - right. rewrite <- (content_file_at fs fs' _ q); [done|]. apply Hkeep.
      intros (r & Hr & E%app_inv_head). apply Hno, Exists_exists. exists r.
      by rewrite elem_of_elements, elem_of_dom. }
  split.
  - intros q p Hq Hp. destruct (Hcase q p Hq Hp) as [[-> _]|Hq']; [done|]. by apply Hnm.
  - intros q p Hq Hp. rewrite lookup_union_is_Some.
    destruct (Hcase q p Hq Hp) as [[_ ?]|Hq']; [by left|right]. by eapply Honly.
  - intros p d Hp. apply lookup_union_Some_raw in Hp as [Hp|[Hp Hd]]; [by apply Hnew|].
    destruct (Hall p d Hd) as (blob & Hb & Hdec). exists blob. split; [|done].
    rewrite <- Hb. apply data_at_eq, Hkeep. intros (r & Hr & E%app_inv_head).
    apply shadow_rel_inj in E as ->; [|by apply Ho; eauto|by apply Hm].
    rewrite Hp in Hr. by destruct Hr.
Qed.

Lemma apply_remote_sync_Ok (root : path) (ih vh : string) (rc : VectorClock) (rts : Z)
    (eps : list (string * Z)) (key : KeyRing) (cur : option ShareState) (w : world) (s : ShareState)
    (w' : world) (m old : gmap path bytes) :
  let m' := m ∪ old in
  fs_wf (w_fs w) -> fetch_delivers key root m -> shadow_holds key (w_fs w) root old ->
  clean m' (content (w_fs w) root) -> (forall w0, unreadable w0 (shadow_root root) = false) ->
  apply_remote_sync root ih vh rc rts eps key cur w = (Ok s, w') ->
  vhash (m' ∪ content (w_fs w) root) = vh /\
  s = {| ss_version_hash := vh; ss_info_hash := ih; ss_torrent_id := ss_torrent_id s;
         ss_clock := merge (clock_of cur) rc; ss_timestamp := rts; ss_manifest := dom m' |} /\
  (dom (content (w_fs w) root) ⊆ dom m' -> content (w_fs w') root = m').
Proof.
  cbv zeta. intros Hwf Hfd Hold Hclean Hsee Hr.
  unfold apply_remote_sync in Hr. cbv zeta in Hr. case_decide; [done|]. inv_ok.
  match goal with H1 : drop_torrent _ _ = _ |- _ => apply drop_torrent_Ok in H1 as Hfs0 end.
  match goal with H1 : fs_create_dir_all ?p ?w1 = (Ok tt, ?w2) |- _ =>
    assert (fs_wf (w_fs w2)) as Hwf1
      by (refine (keeps_wf_Ok _ _ _ _ (keeps_wf_create_dir_all p) H1 _); by rewrite Hfs0);
    assert (forall q, file_at (w_fs w2) q = file_at (w_fs w) q) as Hc1
      by (rewrite <- Hfs0; intros q;
          refine (touches_Ok (fun _ => False) _ _ _ _ _ (touches_create_dir_all _ p) H1 _); tauto) end.
  match goal with H1 : add_torrent_magnet ?a ?b ?c ?w1 = _ |- _ =>
    destruct (fd_magnet key root m Hfd a b c w1) as [Hwf2 Hk2]; rewrite H1 in Hwf2, Hk2; simpl in * end.
  match goal with H1 : wait_until_completed _ ?w1 = (Ok tt, ?w2) |- _ =>
    destruct (fd_wait key root m Hfd _ _ _ H1) as (Hwf3 & Hk3 & Hnew) end.
  specialize (Hwf3 (Hwf2 Hwf1)).
  assert (forall p, is_Some ((m ∪ old) !! p) -> path_ok p) as Hpok
    by (intros p Hp; by apply Hclean).
  edestruct (fetched_shadow key root m old) as [Hc3 Hsh]; [| |exact Hold| |exact Hnew|].
  { intros p Hp. apply Hpok, lookup_union_is_Some. by left. }
  { intros p Hp. apply Hpok, lookup_union_is_Some. by right. }
  { intros x Hx. rewrite Hk3, Hk2 by done. apply Hc1. }
  match goal with H1 : sync_shadow_to_plaintext _ _ ?w1 = (Ok ?man, ?w2) |- _ =>
    pose proof (shadow_to_plaintext_wf _ _ _ _ _ Hwf3 H1) as Hwf4;
    destruct (shadow_to_plaintext_Ok _ _ (m ∪ old) _ _ _ Hwf3 Hsh ltac:(by rewrite Hc3) (Hsee _) H1)
      as [-> Hc4] end.
  rewrite Hc3 in Hc4.
  match goal with H1 : snapshot_content _ _ = _ |- _ =>
    apply snapshot_Ok in H1 as (Hfs5 & -> & _); [|done] end.
  rewrite Hc4 in *. cbn [fst] in *. case_decide as Hvh; [done|].
  inv_ok. split; [done|]. split; [done|]. intros Hsub.
  assert (m ∪ old ∪ content (w_fs w) root = m ∪ old) as Hu by by apply union_absorb_r.
  match goal with H1 : (match cur with Some _ => _ | None => _ end) ?w1 = (Ok tt, ?w2) |- _ =>
    rename H1 into Hdel end.
  rewrite Hu in Hc4. destruct cur as [c|]; [|injection Hdel as <-; by rewrite Hfs5].
  apply delete_orphans_content in Hdel; [by rewrite Hdel, Hfs5|].
  intros p _ Hp. left. rewrite Hfs5, Hc4. by apply not_elem_of_dom.
Qed.

Lemma host_content_union m k : host_content m -> host_content k -> host_content (m ∪ k).
Proof. intros Hm Hk p [Hp|Hp]%lookup_union_is_Some; auto. Qed.

(** Files next to those of a version give another hash. *)
Lemma union_vhash_sub (m k : gmap path bytes) :
  host_content m -> host_content k -> vhash (m ∪ k) = vhash m ->
  dom k ⊆ dom m \/ vhash_collision (m ∪ k) m.
Proof.
  intros Hm Hk E. apply vhash_records in E as [E|?]; [left|by right|by apply host_content_union|done].
  intros p Hp. rewrite <- E, dom_union_L. set_solver.
Qed.
End lemmas.

Lemma last_default (l : list Z) (x d d' : Z) : List.last (x :: l) d = List.last (x :: l) d'.
Proof. revert x. induction l as [|y l IH]; intros x; [done|]. apply (IH y). Qed.

Lemma debounce_loop_spec settle last rx :
  exists burst, rx = burst ++ debounce_loop settle last rx /\
  (forall i t u, (last :: burst) !! i = Some t -> (last :: burst) !! S i = Some u -> u - t < settle) /\
  (forall t rest, debounce_loop settle last rx = t :: rest ->
     settle <= t - List.last (last :: burst) last).
Proof.
  revert last. induction rx as [|t rx IH]; intros l; simpl.
  { exists []. split; [done|]. split; [by intros [] ?? ?|done]. }
  destruct (Z.ltb_spec (t - l) settle).
  - destruct (IH t) as (burst & E & Hgap & Hlast). exists (t :: burst). split; [simpl; by f_equal|].
    split.
    + intros [|i] a b Ha Hb; simpl in *; [by simplify_eq|]. by apply (Hgap i).
    + intros a rest Hr. apply Hlast in Hr. change (List.last (l :: t :: burst) l) with (List.last (t :: burst) l).
      by rewrite (last_default _ _ _ t).
  - exists []. split; [done|]. split; [by intros [] ?? ?|]. intros a rest [= <- <-]. simpl. lia.
Qed.

(** ** Properties *)

(** The conflict rule is a strict total order on (timestamp, version hash):
    of two different versions exactly one wins, so two peers that compare
    the same pair never both keep their own nor both give way. *)
Theorem lww_total_order (t1 t2 t3 : Z) (h1 h2 h3 : string) :
  lww_we_win t1 h1 t1 h1 = false /\
  (lww_we_win t1 h1 t2 h2 = true -> lww_we_win t2 h2 t3 h3 = true -> lww_we_win t1 h1 t3 h3 = true) /\
  ((t1, h1) <> (t2, h2) -> lww_we_win t1 h1 t2 h2 = negb (lww_we_win t2 h2 t1 h1)).
Proof.
  split; [|split].
  - destruct (lww_we_win t1 h1 t1 h1) eqn:E; [|done]. apply lww_spec in E as [?|[_ E]]; [lia|].
    by rewrite ltb_irrefl in E.
  - rewrite !lww_spec. intros [?|[-> Ha]] [?|[-> Hb]]; try (left; lia). right.
    split; [done|]. by eapply ltb_trans.
  - intros Hne. destruct (lww_we_win t2 h2 t1 h1) eqn:E2; simpl.
    + destruct (lww_we_win t1 h1 t2 h2) eqn:E1; [|done].
      apply lww_spec in E1 as [?|[? Ha]], E2 as [?|[? Hb]]; try lia.
      pose proof (ltb_trans _ _ _ Ha Hb) as Hc. by rewrite ltb_irrefl in Hc.
    + apply lww_spec. destruct (Z.lt_trichotomy t1 t2) as [Hlt|[->|Hgt]]; [|right|by left].
      * assert (lww_we_win t2 h2 t1 h1 = true) by (apply lww_spec; by left). congruence.
      * split; [done|]. destruct (ltb_total h1 h2) as [Hc|Hc]; [congruence| |done].
        assert (lww_we_win t2 h2 t2 h1 = true) by (apply lww_spec; auto). congruence.
Qed.

Section announce.
Context `{MD : Metadata, ReadDir, Blake3, Entropy, Aead, WallClock, !Json PersistedState, Torrents, SocketAddrs}.

Lemma on_announce_step (config : ShareConfig) (root dd : path) (port : Z) (key : KeyRing)
    (a : Announce) (st st' : option ShareState) (pub : list Announce) (w w' : world)
    (Hrun : on_announce config root dd port key a st w = (Ok (st', pub), w')) :
  (st' = st /\ pub = [] \/ exists s, st' = Some s /\ pub = [sync_announce s port]) /\
  match announced a with
  | None => st' = st
  | Some r =>
      (wants (version_of <$> st) r = false ->
         version_of <$> st' = receive (version_of <$> st) r) /\
      (wants (version_of <$> st) r = true ->
         (st' = st /\ pub = []) \/ version_of <$> st' = receive (version_of <$> st) r)
  end.
Proof.
  unfold on_announce, announced in *.
  destruct (an_version_hash a) as [vh|], (an_clock a) as [rc|], (an_timestamp a) as [rt|];
    try (injection Hrun as <- <- <-; by split; [left|]).
  set (r := {| v_clock := rc; v_ts := rt; v_hash := vh |}).
  assert (forall s w0, commit dd (sc_id config) port s w0 = (Ok (st', pub), w') ->
    st' = Some s /\ pub = [sync_announce s port]) as Hcommit.
  { intros s w0 Hc. unfold commit in Hc. inv_ok. done. }
  assert (forall w0, fetch_remote config root dd port key a vh rc rt st w0 = (Ok (st', pub), w') ->
    (st' = st /\ pub = []) \/ exists s, st' = Some s /\ pub = [sync_announce s port] /\
      version_of s = {| v_clock := merge (clock_of st) rc; v_ts := rt; v_hash := vh |}) as Hfetch.
  { intros w0 Hc. unfold fetch_remote in Hc. apply bind_Ok in Hc as (o & w1 & Ho & Hc).
    apply attempt_Ok in Ho as [Ho _]. destruct o as [s|e|]; [|injection Hc as <- <- _; by left..].
    right. apply Hcommit in Hc as [-> ->]. exists s. split; [done|]. split; [done|].
    unfold apply_remote_sync in Ho. cbv zeta in Ho. case_decide; [done|]. inv_ok.
    case_decide; [done|]. inv_ok. done. }
  unfold wants, receive. destruct st as [l|]; cbn [fmap option_fmap option_map] in *.
  - unfold wants. cbn [version_of v_clock r] in *. destruct (compare (ss_clock l) rc) eqn:Ec.
    + injection Hrun as <- <- <-. split; [by left|]. by split.
    + injection Hrun as <- <- <-. split; [by left|]. by split.
    + apply Hfetch in Hrun as [[-> ->]|(s & -> & -> & Hv)].
      * split; [by left|]. split; [done|]. by left.
      * split; [right; eauto|]. split; [done|]. right. simpl. by rewrite Hv.
    + unfold beats. cbn [version_of v_ts v_hash r].
      destruct (lww_we_win (ss_timestamp l) (ss_version_hash l) rt vh) eqn:Ew; simpl negb; cbv iota.
      * apply Hcommit in Hrun as [-> ->]. split; [right; eauto|]. by split.
      * apply Hfetch in Hrun as [[-> ->]|(s & -> & -> & Hv)].
        -- split; [by left|]. split; [done|]. by left.
        -- split; [right; eauto|]. split; [done|]. right. simpl. by rewrite Hv.
  - apply Hfetch in Hrun as [[-> ->]|(s & -> & -> & Hv)].
    + split; [by left|]. split; [done|]. by left.
    + split; [right; eauto|]. split; [done|]. right. simpl. by rewrite Hv.
Qed.

(** A settled change: nothing new, or an edit of the version held. *)
Lemma on_local_change_step (config : ShareConfig) (root dd : path) (port : Z) (me : string)
    (key : KeyRing) (st st' : option ShareState) (pub : list Announce) (w w' : world)
    (Hrun : on_local_change config root dd port me key st w = (Ok (st', pub), w')) :
  (st' = st /\ pub = []) \/
  exists s, st' = Some s /\ pub = [sync_announce s port] /\ ss_clock s = increment (clock_of st) me.
Proof.
  unfold on_local_change in Hrun. apply bind_Ok in Hrun as (o & w1 & Ho & Hrun).
  apply attempt_Ok in Ho as [Ho _].
  destruct o as [[s|]|e|]; injection Hrun as <- <- _; try by left. right.
  exists s. split; [done|]. split; [done|]. unfold handle_local_change in Ho.
  apply bind_Ok in Ho as (b & w2 & _ & Ho). destruct b; simpl negb in Ho; cbv iota in Ho; [|done].
  apply bind_Ok in Ho as (sn & w3 & _ & Ho).
  destruct (match st with Some _ => _ | None => _ end) in Ho; [done|].
  apply bind_Ok in Ho as ([] & w4 & _ & Ho). apply bind_Ok in Ho as (s' & w5 & Ha & Ho).
  injection Ho as ->. by apply adopt_Ok in Ha as (_ & -> & _).
Qed.
End announce.

Section properties.
Context `{MD : Metadata, ReadDir, Blake3, Entropy, Aead, WallClock, !Json PersistedState, Torrents, SocketAddrs}.



(** C28. The four cases of the start: with an empty share directory no version is
    held; content without a history becomes version one of this peer;
    content with the remembered hash is resumed at the remembered clock and
    time; other content is an edit made while the daemon was down. *)
Theorem reconcile_cases (config : ShareConfig) (root dd : path) (me : string) (key : KeyRing)
    (res : option ShareState) (w w' : world) (v : option PersistedState)
    (Hwf : fs_wf (w_fs w)) (Hf : w_faults w = [])
    (Hv : state_view dd (sc_id config) (w_fs w) = Some v)
    (Hrun : reconcile_on_start config root dd me key w = (Ok res, w')) :
  let m := content (w_fs w) root in
  (children (w_fs w) root = [] -> res = None /\ w' = w) /\
  (children (w_fs w) root <> [] -> exists s, res = Some s /\
     ss_version_hash s = vhash m /\ ss_manifest s = dom m /\
     match v with
     | None => ss_clock s = increment new me /\ saved_state dd (sc_id config) (w_fs w') s
     | Some p =>
         (ps_version_hash p = vhash m -> ss_clock s = ps_clock p /\ ss_timestamp s = ps_timestamp p) /\
         (ps_version_hash p <> vhash m -> ss_clock s = increment (ps_clock p) me /\
            saved_state dd (sc_id config) (w_fs w') s)
     end).
Proof.
  cbv zeta. unfold reconcile_on_start in Hrun.
  rewrite (bind_run _ _ _ v w) in Hrun by by apply state_load_run.
  apply bind_Ok in Hrun as (b & w1 & Hb & Hrun). apply has_content_Ok in Hb as (_ & Hch & Hw1).
  rewrite Hw1 in Hrun by done. clear w1 Hw1. destruct b; simpl negb in Hrun; cbv iota in Hrun.
  2: { assert (children (w_fs w) root = []) as Hc
         by (destruct (children (w_fs w) root); [done|destruct Hch as [_ Hch]; by discriminate Hch]).
       destruct v; injection Hrun as <- <-; by split. }
  split; [intros Hc; destruct Hch as [Hch _]; by destruct (Hch eq_refl)|]. intros _.
  assert (forall K, bind (snapshot_content root) K w = (Ok res, w') ->
    K (vhash (content (w_fs w) root), dom (content (w_fs w) root)) w = (Ok res, w')) as Hsnap.
  { intros K HK. apply bind_Ok in HK as (sn & w2 & Hs & HK).
    apply snapshot_Ok in Hs as (_ & -> & Hw2); [|done]. by rewrite Hw2 in HK. }
  destruct v as [p|]; apply Hsnap in Hrun; cbn [fst snd] in Hrun.
  - case_decide as Hvh; inv_ok.
    + eexists. split; [done|]. split; [done|]. split; [done|]. split; [done|]. intros []. done.
    + match goal with H1 : adopt _ _ _ _ _ _ _ _ = _ |- _ =>
        apply adopt_Ok in H1 as (H1 & H2' & H3' & H4') end.
      eexists. split; [done|]. split; [done|]. split; [done|]. split; [by intros ?|done].
  - inv_ok. match goal with H1 : adopt _ _ _ _ _ _ _ _ = _ |- _ =>
        apply adopt_Ok in H1 as (H1 & H2' & H3' & H4') end.
    eexists. split; [done|]. by split; [|split].
Qed.

(** A start with an empty share directory forgets the remembered clock: no
    version is held, and the next local change starts from the empty clock;
    when this peer had made a version before, the clock of the new version
    does not dominate the remembered one but is equal to it or dominated by
    it, so that peers with the remembered version ignore the new one. *)
Theorem restart_forgets_clock (config : ShareConfig) (root dd : path) (me : string)
    (key : KeyRing) (p : PersistedState) (s : ShareState) (w w1 w2 : world)
    (Hf : w_faults w = []) (Hroot : w_fs w !! root = Some NDir)
    (Hv : state_view dd (sc_id config) (w_fs w) = Some (Some p))
    (Hempty : children (w_fs w) root = [])
    (Hclk : clock_wf (ps_clock p)) (Hme : 1 <= get (ps_clock p) me)
    (Hwf1 : fs_wf (w_fs w1))
    (Hlater : handle_local_change config root dd me key None w1 = (Ok (Some s), w2)) :
  reconcile_on_start config root dd me key w = (Ok None, w) /\
  (compare (ss_clock s) (ps_clock p) = Equal \/ compare (ss_clock s) (ps_clock p) = OtherDominates).
Proof.
  split.
  - unfold reconcile_on_start. rewrite (bind_run _ _ _ (Some p) w) by by apply state_load_run.
    destruct (has_content_reads (w_fs w) root w eq_refl) as (_ & Hw & Hb & Htot).
    destruct (has_content root w) as [r w0] eqn:E. simpl in *.
    destruct (Htot Hf Hroot) as [b ->]. rewrite Hw in E by done.
    rewrite (bind_run _ _ _ b w) by done. destruct b; [|done].
    destruct (Hb true eq_refl) as [Hc _]. by destruct (Hc eq_refl).
  - apply handle_local_change_Some in Hlater as (_ & _ & -> & _); [|done]. simpl clock_of.
    assert (vle (increment new me) (ps_clock p)) as Hle.
    { intros k. rewrite get_increment. case_decide; [subst|].
      - rewrite get_new, wrap64_small; [lia|]. unfold u64_max. lia.
      - rewrite get_new. by apply get_range. }
    destruct (compare_cases (increment new me) (ps_clock p)); auto; tauto.
Qed.

(** C16. A remote version that is accepted is the version announced.  The fetch
    brings the ciphertext of [m] into a shadow that still holds that of the
    former content [old]; the files of the share then hash to the announced
    version hash, the new state carries the announced hash, info hash and time
    and the merged clock, its manifest lists the files of [m] and [old], and
    when the share had no other file it holds exactly these.  When the
    announced hash is that of [m], the share holds exactly [m], or BLAKE3
    collides on what was hashed.  (The metadata of the shadow directory can be
    read.) *)
Theorem apply_remote_sync_sound (root : path) (ih vh : string) (rc : VectorClock) (rts : Z)
    (eps : list (string * Z)) (key : KeyRing) (cur : option ShareState) (w : world) (s : ShareState)
    (w' : world) (m old : gmap path bytes)
    (Hwf : fs_wf (w_fs w)) (Hfetch : fetch_delivers key root m)
    (Hold : shadow_holds key (w_fs w) root old)
    (Hclean : clean (m ∪ old) (content (w_fs w) root))
    (Hsee : forall w0, unreadable w0 (shadow_root root) = false)
    (Hrun : apply_remote_sync root ih vh rc rts eps key cur w = (Ok s, w')) :
  vhash (m ∪ old ∪ content (w_fs w) root) = vh /\
  version_of s = {| v_clock := merge (clock_of cur) rc; v_ts := rts; v_hash := vh |} /\
  ss_info_hash s = ih /\ ss_manifest s = dom (m ∪ old) /\
  (dom (content (w_fs w) root) ⊆ dom (m ∪ old) -> content (w_fs w') root = m ∪ old) /\
  (host_content (m ∪ old) -> host_content (content (w_fs w) root) -> vh = vhash m ->
   content (w_fs w') root = m \/ vhash_collision (m ∪ old ∪ content (w_fs w) root) m).
Proof.
  destruct (apply_remote_sync_Ok _ _ _ _ _ _ _ _ _ _ _ _ _ Hwf Hfetch Hold Hclean Hsee Hrun)
    as (Hh & -> & Hc).
  do 5 (split; [done|]). intros Hm Ho ->. rewrite <- map_union_assoc in *.
  destruct (union_vhash_sub m (old ∪ content (w_fs w) root)) as [Hsub|?]; [..|by right].
  - intros p Hp. apply Hm, lookup_union_is_Some. by left.
  - apply host_content_union; [|done]. intros p Hp. apply Hm, lookup_union_is_Some. by right.
  - done.
  - left. rewrite dom_union_L in Hsub. rewrite Hc.
    + apply union_absorb_r. set_solver.
    + rewrite dom_union_L. set_solver.
Qed.

End properties.

(** A burst of file-system events is one change: [debounce] swallows the
    events that follow each other in less than the settle time and leaves
    everything from the first event after a quiet period of at least that
    length. *)
Theorem debounce_spec (settle : Z) (rx : arrivals) :
  match debounce settle rx with
  | None => rx = []
  | Some rest =>
      exists t burst, rx = t :: burst ++ rest /\
      (forall i a b, (t :: burst) !! i = Some a -> (t :: burst) !! S i = Some b -> b - a < settle) /\
      (forall u rest', rest = u :: rest' -> settle <= u - List.last (t :: burst) t)
  end.
Proof.
  destruct rx as [|t rx]; simpl; [done|].
  destruct (debounce_loop_spec settle t rx) as (burst & E & Hgap & Hlast).
  exists t, burst. split; [by rewrite <- E|]. done.
Qed.

(** The daemon's own writes below [.peerdup] never wake the sync loop, and
    nothing else is held back: an event is dropped exactly when it names at
    least one path and all of its paths lie in a [.peerdup] directory. *)
Theorem watcher_drops (paths : list path) :
  watcher_passes paths = false <-> paths <> [] /\ forall p, p ∈ paths -> PEERDUP_DIR_NAME ∈ p.
Proof.
  unfold watcher_passes. cbv zeta. rewrite negb_false_iff, andb_true_iff, negb_true_iff,
    bool_decide_eq_false, forallb_forall. apply and_iff_compat_l.
  split; intros Hp p Hin; specialize (Hp p).
  - rewrite <- list_elem_of_In in Hp. apply Hp in Hin. apply existsb_exists in Hin as (c & Hc & E).
    apply bool_decide_eq_true in E as ->. by apply list_elem_of_In.
  - rewrite <- list_elem_of_In in Hin. apply existsb_exists. exists PEERDUP_DIR_NAME.
    split; [by apply list_elem_of_In, Hp|]. by apply bool_decide_eq_true.
Qed.

(** ** Witnesses *)

(** A transfer of known result: it completes when the file system is [pre]
    and leaves it as [post]. *)
Definition toy_wait (pre post : fsmap) : M unit := fun w =>
  if decide (w_fs w = pre) then (Ok tt, set_fs post w) else (Err (EMsg "stalled"), w).

Definition toy_torrents (pre post : fsmap) : Torrents.
Proof.
  refine {| create_torrent := fun _ n => ret ("ih-" +:+ default "" n, []);
            add_torrent_bytes := fun _ _ => ret (Some 0%nat);
            add_torrent_magnet := fun _ _ _ => ret (Some 1%nat);
            wait_until_completed := fun _ => toy_wait pre post;
            session_delete := fun _ => ret tt |}; try done; by intros ? ? ?.
Defined.

Definition toy_addrs : SocketAddrs := fun h _ => if decide (h = "") then None else Some h.

Section witnesses.
#[local] Existing Instance toy_metadata.
#[local] Existing Instance toy_entropy.
#[local] Existing Instance toy_aead.
#[local] Existing Instance toy_blake3.
#[local] Existing Instance toy_read_dir.
#[local] Existing Instance toy_clock.
#[local] Existing Instance toy_state.
#[local] Existing Instance toy_addrs.

Definition wy_dd : path := ["data"].
Definition wy_cfg : ShareConfig :=
  {| sc_id := "sid"; sc_topic := "topic"; sc_root_path := ws_root2; sc_role := Sync;
     sc_created_at := 0 |}.

(** The receiver before and after the transfer of the ciphertext files of
    [Shadow.ws_m], with some files of its own. *)
Definition wy_pre (own : list (path * bytes)) : fsmap :=
  with_dirs (shadow_root ws_root2) (with_dirs wy_dd
    (foldr (fun qb fs => with_file (ws_root2 ++ qb.1) qb.2 fs) root_fs own)).
Definition wy_after (pre : fsmap) : fsmap :=
  foldr (fun qb fs => with_file (shadow_root ws_root2 ++ qb.1) qb.2 fs) pre
    (map_to_list (content (w_fs ws_w1') (shadow_root ws_root1))).

Definition wy_own1 : list (path * bytes) := [(["x.txt"], ws_text Byte.x61)].
Definition wy_pre1 : fsmap := wy_pre wy_own1.

(** The same receiver after a former version with one more file, the
    ciphertext of which is in its shadow. *)
Definition wy_text : bytes := ws_text Byte.x6f.
Definition wy_stale : bytes :=
  match fst (encrypt w_ring wy_text (world_of root_fs)) with Ok b => b | _ => [] end.
Definition wy_old : gmap path bytes := {[ ["old.txt"] := wy_text ]}.
Definition wy_pre2 : fsmap :=
  with_file (shadow_root ws_root2 ++ ["old.txt.bin"]) wy_stale
    (wy_pre ((["old.txt"], wy_text) :: wy_own1)).

Definition shadow_check (key : KeyRing) (fs : fsmap) (root : path) (m : gmap path bytes) : bool :=
  forallb (fun kn => match plaintext_rel_from_shadow_rel kn.1 with
                     | Some p => bool_decide (kn.1 = shadow_rel p /\ is_Some (m !! p))
                     | None => true
                     end) (map_to_list (content fs (shadow_root root))) &&
  forallb (fun pd => match data_at fs (shadow_root root ++ shadow_rel pd.1) with
                     | Some blob => match decrypt key blob with
                                    | Ok d => bool_decide (d = pd.2)
                                    | _ => false
                                    end
                     | None => false
                     end) (map_to_list m).

Lemma shadow_check_ok key fs root m :
  shadow_check key fs root m = true -> shadow_holds key fs root m.
Proof.
  unfold shadow_check. rewrite andb_true_iff. intros [Hn Ha].
  assert (forall q p, is_Some (content fs (shadow_root root) !! q) ->
    plaintext_rel_from_shadow_rel q = Some p -> q = shadow_rel p /\ is_Some (m !! p)) as Hn'.
  { intros q p [b Hq] Hp.
    pose proof (map_check _ (fun q _ => match plaintext_rel_from_shadow_rel q with
      | Some p => bool_decide (q = shadow_rel p /\ is_Some (m !! p)) | None => true end) Hn q b Hq) as E.
    simpl in E. rewrite Hp in E. by apply bool_decide_eq_true in E. }
  split; [intros q p Hq Hp; by apply Hn'|intros q p Hq Hp; by apply (Hn' q)|].
  intros p d Hp. apply (map_check m (fun p d => match data_at fs (shadow_root root ++ shadow_rel p) with
                     | Some blob => match decrypt key blob with
                                    | Ok d' => bool_decide (d' = d)
                                    | _ => false
                                    end
                     | None => false
                     end) Ha) in Hp.
  destruct (data_at _ _) as [blob|]; [|done]. exists blob. split; [done|].
  destruct (decrypt key blob); try done. by apply bool_decide_eq_true in Hp as ->.
Qed.

(** [post] is [pre] with the ciphertext files of [m] in the shadow. *)
Definition fetch_check (key : KeyRing) (pre post : fsmap) (root : path) (m : gmap path bytes) : bool :=
  forallb (fun kn => existsb (fun pd => bool_decide (kn.1 = shadow_root root ++ shadow_rel pd.1))
                       (map_to_list m) ||
                     bool_decide (file_at post kn.1 = file_at pre kn.1))
    (map_to_list pre ++ map_to_list post) &&
  forallb (fun pd => match data_at post (shadow_root root ++ shadow_rel pd.1) with
                     | Some blob => bool_decide (decrypt key blob = Ok pd.2)
                     | None => false
                     end) (map_to_list m).

Lemma toy_fetch_delivers (pre post : fsmap) key root m :
  fs_wf post -> fetch_check key pre post root m = true ->
  @fetch_delivers (toy_torrents pre post) _ key root m.
Proof.
  intros Hwf [Hk Hm]%andb_true_iff. split; [done|].
  intros i w w' Hw. simpl in Hw. unfold toy_wait in Hw.
  case_decide as E; [|done]. injection Hw as <-. simpl. split; [done|]. split.
  - intros x Hx. rewrite E. unfold file_at.
    destruct (pre !! x) as [n|] eqn:E1; [|destruct (post !! x) as [n|] eqn:E2; [|done]].
    all: rewrite forallb_forall in Hk; specialize (Hk (x, n)); simpl in Hk.
    all: assert (In (x, n) (map_to_list pre ++ map_to_list post)) as Hin
      by (rewrite <- list_elem_of_In, elem_of_app, !elem_of_map_to_list; auto).
    all: apply Hk in Hin; apply orb_true_iff in Hin as [Hin|Hin];
      [|apply bool_decide_eq_true in Hin; unfold file_at in Hin; by rewrite ?E1, ?E2 in *].
    all: apply existsb_exists in Hin as ([p d] & Hp & Hxp); destruct Hx; exists p.
    all: rewrite <- list_elem_of_In, elem_of_map_to_list in Hp; apply bool_decide_eq_true in Hxp; eauto.
  - intros p d Hp%elem_of_map_to_list%list_elem_of_In. rewrite forallb_forall in Hm.
    apply Hm in Hp. simpl in Hp. destruct (data_at post _) as [b|]; [|done].
    apply bool_decide_eq_true in Hp. eauto.
Qed.

Lemma wy_fetch (pre : fsmap) :
  fs_wf_check (wy_after pre) && fetch_check ws_ring2 pre (wy_after pre) ws_root2 ws_m = true ->
  @fetch_delivers (toy_torrents pre (wy_after pre)) _ ws_ring2 ws_root2 ws_m.
Proof.
  intros [Hwf Hc]%andb_true_iff. apply toy_fetch_delivers; [by apply fs_wf_check_ok|done].
Qed.

Lemma wy_fetch1 : @fetch_delivers (toy_torrents wy_pre1 (wy_after wy_pre1)) _ ws_ring2 ws_root2 ws_m.
Proof. apply wy_fetch. vm_compute. reflexivity. Qed.

Lemma wy_fetch2 : @fetch_delivers (toy_torrents wy_pre2 (wy_after wy_pre2)) _ ws_ring2 ws_root2 ws_m.
Proof. apply wy_fetch. vm_compute. reflexivity. Qed.

Lemma wy_held1 : shadow_holds ws_ring2 (w_fs (world_of wy_pre1)) ws_root2 ∅.
Proof. apply shadow_check_ok. vm_compute. reflexivity. Qed.

Lemma wy_held2 : shadow_holds ws_ring2 (w_fs (world_of wy_pre2)) ws_root2 wy_old.
Proof. apply shadow_check_ok. vm_compute. reflexivity. Qed.

Lemma wy_clean_check (m : gmap path bytes) (pre : fsmap) :
  forallb (fun kn => bool_decide (path_ok kn.1 /\ m !! tmp_of kn.1 = None /\
    content pre ws_root2 !! tmp_of kn.1 = None)) (map_to_list m) = true ->
  clean m (content pre ws_root2).
Proof.
  intros Hc. refine (content_check m (fun p => path_ok p /\ m !! tmp_of p = None /\
    content pre ws_root2 !! tmp_of p = None) Hc).
Qed.

Lemma wy_seen w0 : unreadable w0 (shadow_root ws_root2) = false.
Proof. apply (sighted_readable (H0 := toy_sighted)). Qed.

Definition wy_clock : VectorClock := increment new "alice".
Definition wy_eps : list (string * Z) := [("", 1); ("10.0.0.7", 6881)].
Definition wy_vh : string := vhash ws_m.

Definition wy_apply (pre : fsmap) : outcome ShareState * world :=
  @apply_remote_sync _ _ _ _ (toy_torrents pre (wy_after pre)) _
    ws_root2 "ih" wy_vh wy_clock 5 wy_eps ws_ring2 None (world_of pre).

Definition wy_hash_of (r : outcome ShareState) : option string :=
  match r with Ok s => Some (ss_version_hash s) | _ => None end.

Lemma wy_apply_ok : wy_hash_of (wy_apply wy_pre1).1 = Some wy_vh.
Proof. vm_compute. reflexivity. Qed.

Lemma wy_wf (pre : fsmap) : fs_wf_check pre = true -> fs_wf (w_fs (world_of pre)).
Proof. apply fs_wf_check_ok. Qed.

Lemma wy_covered : bool_decide (dom (content wy_pre1 ws_root2) ⊆ dom (ws_m ∪ ∅)) = true.
Proof. vm_compute. reflexivity. Qed.

Lemma apply_remote_sync_sound_witness :
  content (w_fs (wy_apply wy_pre1).2) ws_root2 = ws_m ∪ ∅.
Proof.
  pose proof wy_apply_ok as Ho. unfold wy_apply in *.
  destruct (@apply_remote_sync _ _ _ _ _ _ _ _ _ _ _ _ _ _ _) as [[s|e|] w'] eqn:E; [|done..].
  destruct (@apply_remote_sync_sound _ _ _ _ (toy_torrents wy_pre1 (wy_after wy_pre1)) _
    ws_root2 "ih" wy_vh wy_clock 5 wy_eps ws_ring2 None (world_of wy_pre1) s w' ws_m ∅)
    as (_ & _ & _ & _ & Hc & _).
  - apply wy_wf. vm_compute. reflexivity.
  - exact wy_fetch1.
  - exact wy_held1.
  - apply wy_clean_check. vm_compute. reflexivity.
  - exact wy_seen.
  - exact E.
  - apply Hc. apply (bool_decide_eq_true _), wy_covered.
Defined.

Lemma wy_host (m : gmap path bytes) :
  forallb (fun kn => bool_decide (path_ok kn.1 /\ path_short kn.1)) (map_to_list m) = true ->
  host_content m.
Proof. intros Hc. refine (content_check _ (fun p => path_ok p /\ path_short p) Hc). Qed.


(** ** A peer's life: announce, edit, restart *)
Definition wy_announce : Announce :=
  {| an_info_hash := "ih"; an_bt_endpoints := wy_eps; an_version_hash := Some wy_vh;
     an_clock := Some wy_clock; an_timestamp := Some 5 |}.

#[local] Instance wy_net : Torrents := toy_torrents wy_pre1 (wy_after wy_pre1).

Definition wy_heard := on_announce wy_cfg ws_root2 wy_dd 4240 ws_ring2 wy_announce None
  (world_of wy_pre1).

Definition wy_heard_state : option ShareState :=
  match wy_heard.1 with Ok (st, _) => st | _ => None end.

Lemma wy_heard_ok :
  match wy_heard.1 with Ok (Some s, [_]) => ss_version_hash s | _ => "" end = wy_vh.
Proof. vm_compute. reflexivity. Qed.


(** A share whose remembered version is [wsh_state], empty and with a file. *)
Definition wz_empty : world :=
  snd (state_save wy_dd (sc_id wy_cfg) wsh_state
    (world_of (with_dirs ws_root2 (with_dirs wy_dd root_fs)))).
Definition wz_full : world :=
  set_fs (with_file (ws_root2 ++ ["x.txt"]) (ws_text Byte.x78) (w_fs wz_empty)) wz_empty.

Definition wz_edit (st : option ShareState) := handle_local_change wy_cfg ws_root2 wy_dd "p" ws_ring2 st wz_full.
Definition wz_start := reconcile_on_start wy_cfg ws_root2 wy_dd "p" ws_ring2 wz_full.

Lemma wz_view (w : world) :
  match state_view wy_dd (sc_id wy_cfg) (w_fs w) with
  | Some (Some st) => bool_decide (st = wsh_state)
  | _ => false
  end = true -> state_view wy_dd (sc_id wy_cfg) (w_fs w) = Some (Some wsh_state).
Proof.
  destruct (state_view _ _ _) as [[st|]|]; try done. by intros ->%bool_decide_eq_true.
Qed.

Lemma wz_edit_ok :
  match (wz_edit None).1 with Ok (Some _) => true | _ => false end = true.
Proof. vm_compute. reflexivity. Qed.

Lemma wz_wf : fs_wf (w_fs wz_full).
Proof. apply fs_wf_check_ok. vm_compute. reflexivity. Qed.


Lemma restart_forgets_clock_witness :
  reconcile_on_start wy_cfg ws_root2 wy_dd "p" ws_ring2 wz_empty = (Ok None, wz_empty).
Proof.
  pose proof wz_edit_ok as Ho. unfold wz_edit in *.
  destruct (handle_local_change _ _ _ _ _ _ _) as [[[s|]|e|] w'] eqn:E; [|done..].
  apply (restart_forgets_clock wy_cfg ws_root2 wy_dd "p" ws_ring2 wsh_state s wz_empty wz_full w').
  - vm_compute. reflexivity.
  - vm_compute. reflexivity.
  - apply wz_view. vm_compute. reflexivity.
  - vm_compute. reflexivity.
  - apply increment_wf, new_wf.
  - vm_compute. discriminate.
  - exact wz_wf.
  - exact E.
Defined.

Lemma wz_start_ok : match wz_start.1 with Ok (Some _) => true | _ => false end = true.
Proof. vm_compute. reflexivity. Qed.

Lemma wz_changed :
  bool_decide (ps_version_hash wsh_state <> vhash (content (w_fs wz_full) ws_root2)) = true.
Proof. vm_compute. reflexivity. Qed.

Lemma reconcile_cases_witness :
  exists s, wz_start.1 = Ok (Some s) /\ ss_clock s = increment (increment new "p") "p".
Proof.
  pose proof wz_start_ok as Ho. unfold wz_start in *.
  destruct (reconcile_on_start _ _ _ _ _ _) as [[[s|]|e|] w'] eqn:E; [|done..].
  destruct (reconcile_cases wy_cfg ws_root2 wy_dd "p" ws_ring2 (Some s) wz_full w' (Some wsh_state))
    as [_ Hs].
  - exact wz_wf.
  - vm_compute. reflexivity.
  - apply wz_view. vm_compute. reflexivity.
  - exact E.
  - destruct Hs as (s' & [= <-] & _ & _ & _ & Hs); [vm_compute; discriminate|].
    exists s. split; [done|]. apply Hs. apply (bool_decide_eq_true _), wz_changed.
Defined.
End witnesses.
