(* ===== verification/Frame.v ===== *)
(** * What the sync engine may write

    Every operation of [Sync], whatever it is given and whatever fails,
    leaves every file alone but those below the share's directory, the
    share's state file with its temporary, and one temporary file next to
    the share's directory. *)

From S2P Require Import Prelude World Tree Clock External Instances Share Crypto Shadow Sync.

(** [librqbit] writes below the output folder of a torrent. *)
Class TorrentFolders `{Torrents} : Prop := {
  magnet_touches : forall mg ps p, touches (fun q => p `prefix_of` q) (add_torrent_magnet mg ps p);
  wait_touches : forall mg ps p w i w', add_torrent_magnet mg ps p w = (Ok (Some i), w') ->
    touches (fun q => p `prefix_of` q) (wait_until_completed i);
}.

(** The temporary file of a shadow file named [.bin]. *)
Definition beside (root : path) : path :=
  set_file_name root (default "" (file_name root) +:+ ".peerdup-tmp").

Lemma touches_bind_Ok S {A B : Type} (m : M A) (k : A -> M B) :
  touches S m -> (forall w a w', m w = (Ok a, w') -> touches S (k a)) -> touches S (bind m k).
Proof.
  intros Hm Hk w q Hq. specialize (Hm w q Hq). unfold bind.
  destruct (m w) as [[a|e|] w'] eqn:E; simpl in *; [|done..].
  rewrite <- Hm. by apply (Hk w a w').
Qed.

Lemma touches_inert S {A : Type} (m : M A) : (forall w, w_fs (snd (m w)) = w_fs w) -> touches S m.
Proof. intros Hm w q _. by rewrite Hm. Qed.

Lemma prefix_parent (root p : path) : root `prefix_of` p -> p <> root -> root `prefix_of` parent p.
Proof.
  intros [l ->] Hne. destruct l as [|c l _] using rev_ind; [by rewrite app_nil_r in Hne|].
  rewrite app_assoc, parent_snoc. by apply prefix_app_r.
Qed.

Lemma shadow_below root rel : root `prefix_of` shadow_file_for root rel.
Proof.
  assert (root `prefix_of` shadow_root root ++ rel) as Hp
    by (rewrite shadow_root_eq, <- app_assoc; by apply prefix_app_r).
  unfold shadow_file_for. destruct (file_name _); [|done]. apply prefix_app_r.
  apply prefix_parent; [done|]. rewrite shadow_root_eq, <- app_assoc. intros E.
  apply (f_equal length) in E. rewrite length_app in E. simpl in E. lia.
Qed.

Section frame.
Context `{MD : Metadata, ReadDir, Blake3, Entropy, Aead, WallClock, !Json PersistedState, Torrents, SocketAddrs}.
Context `{!TorrentFolders} (root dd : path) (sid : string).

Definition engine_file (q : path) : Prop :=
  root `prefix_of` q \/ q = beside root \/ q = sfile dd sid \/ q = stmp dd sid.

Abbreviation framed := (touches engine_file).

Lemma framed_inner {A : Type} (m : M A) : touches (fun q => root `prefix_of` q) m -> framed m.
Proof. apply touches_mono. intros q Hq. by left. Qed.

Lemma framed_none {A : Type} (m : M A) : touches (fun _ => False) m -> framed m.
Proof. by apply touches_mono. Qed.

Lemma framed_at {A : Type} p (m : M A) :
  root `prefix_of` p -> touches (fun q => q = p) m -> framed m.
Proof. intros Hp. apply touches_mono. intros q ->. by left. Qed.

Lemma collect_frame fuel root' dir : framed (collect_fuel fuel root' dir).
Proof.
  revert dir. induction fuel as [|fuel IH]; intros dir; cbn [collect_fuel]; [auto with peerdup|].
  apply touches_bind; [auto with peerdup|]. intros names.
  induction names as [|n names IHn]; cbn [collect_entries]; [auto with peerdup|].
  case_decide; [done|]. apply touches_bind; [auto with peerdup|]. intros ft.
  apply touches_bind; [destruct ft; [auto 10 with peerdup|apply IH|auto with peerdup]|]. intros here.
  apply touches_bind; [done|]. auto with peerdup.
Qed.

Lemma collect_files_frame root' dir : framed (collect_files root' dir).
Proof. intros w q. apply collect_frame. Qed.

Lemma has_content_frame p : framed (has_content p).
Proof. unfold has_content. auto 10 with peerdup. Qed.

Lemma snapshot_frame p : framed (snapshot_content p).
Proof.
  unfold snapshot_content. apply touches_bind; [apply collect_files_frame|]. intros ps. cbv zeta.
  apply touches_bind; [|auto with peerdup].
  induction (sort_by id ps) as [|r l IH]; cbn [hash_files]; [auto with peerdup|].
  apply touches_bind; [auto with peerdup|]. intros d. apply touches_bind; [done|]. auto with peerdup.
Qed.

Lemma to_shadow_frame key man : framed (sync_plaintext_to_shadow root key man).
Proof.
  unfold sync_plaintext_to_shadow. cbv zeta. apply touches_bind; [auto with peerdup|]. intros _.
  apply touches_bind.
  { apply touches_forM. intros rel _. eapply framed_at; [apply shadow_below|apply encrypt_file_touches]. }
  intros _. apply touches_bind; [auto with peerdup|]. intros ex. apply touches_bind.
  { destruct ex; [apply collect_files_frame|auto with peerdup]. }
  intros l. apply touches_forM. intros rel _. unfold drop_shadow_orphan.
  destruct (plaintext_rel_from_shadow_rel rel); [|auto with peerdup]. case_decide; [auto with peerdup|].
  apply touches_bind; [|auto with peerdup]. apply touches_attempt.
  apply (framed_at (shadow_root root ++ rel)); [|apply touches_remove_file].
  rewrite shadow_root_eq, <- app_assoc. by apply prefix_app_r.
Qed.

Lemma decrypt_file_frame key rel : framed (decrypt_file root key rel).
Proof.
  unfold decrypt_file. destruct (plaintext_rel_from_shadow_rel rel) as [p|]; [|auto with peerdup].
  cbv zeta. apply touches_bind; [auto with peerdup|]. intros ct.
  apply touches_bind; [auto with peerdup|]. intros pt.
  apply touches_bind; [auto with peerdup|]. intros _.
  apply touches_bind_Ok; [auto with peerdup|]. intros w n w' [Hn _]%lift_Ok.
  assert (engine_file (set_file_name (root ++ p) (n +:+ ".peerdup-tmp"))) as Htmp.
  { apply ok_or_Ok in Hn. destruct p as [|c p _] using rev_ind.
    - right. left. rewrite app_nil_r in *. unfold beside. by rewrite Hn.
    - left. rewrite app_assoc. unfold set_file_name. rewrite removelast_last, <- app_assoc.
      by apply prefix_app_r. }
  apply touches_bind.
  { apply touches_ctx. eapply touches_mono; [|apply touches_write]. by intros q ->. }
  intros _. apply touches_bind; [|auto with peerdup].
  apply touches_ctx. eapply touches_mono; [|apply touches_rename].
  intros q [->| ->]; [done|]. left. by apply prefix_app_r.
Qed.

Lemma to_plaintext_frame key : framed (sync_shadow_to_plaintext root key).
Proof.
  unfold sync_shadow_to_plaintext. cbv zeta. apply touches_bind; [auto with peerdup|]. intros ex.
  destruct (negb ex); [auto with peerdup|]. apply touches_bind; [apply collect_files_frame|].
  intros l. induction l as [|r l IH]; cbn [decrypt_files]; [auto with peerdup|].
  apply touches_bind; [apply decrypt_file_frame|]. intros p. apply touches_bind; [done|].
  auto with peerdup.
Qed.

Lemma delete_orphans_frame old new : framed (delete_orphans root old new).
Proof.
  apply touches_forM. intros rel _. apply touches_bind; [|auto with peerdup]. apply touches_attempt.
  apply (framed_at (root ++ rel)); [by apply prefix_app_r|apply touches_remove_file].
Qed.

Lemma state_save_touches st : touches (fun q => q = sfile dd sid \/ q = stmp dd sid) (state_save dd sid st).
Proof.
  destruct (json_to_vec st) as [json|] eqn:E.
  - intros w q Hq. destruct (state_save_run_eq dd sid st json w E) as [-> _].
    by apply write_atomic_touches.
  - unfold state_save. cbv zeta. rewrite E. apply touches_bind; [auto with peerdup|]. intros _.
    apply touches_bind_Ok; [auto with peerdup|]. by intros w a w' [? _]%lift_Ok.
Qed.

Lemma persist_frame s : framed (persist dd sid s).
Proof. eapply touches_mono; [|apply state_save_touches]. intros q [->| ->]; right; right; auto. Qed.

Lemma drop_torrent_frame cur : framed (drop_torrent cur).
Proof.
  destruct cur as [s|]; simpl; [|auto with peerdup]. apply touches_bind; [|auto with peerdup].
  apply touches_attempt, touches_inert. intros w. apply session_delete_inert.
Qed.

Lemma create_and_add_frame config r : framed (create_and_add_shadow_torrent config r).
Proof.
  unfold create_and_add_shadow_torrent. cbv zeta.
  apply touches_bind; [apply touches_ctx, touches_inert; intros w; apply create_torrent_inert|].
  intros res. apply touches_bind; [apply touches_inert; intros w; apply add_bytes_inert|].
  intros resp. apply touches_bind; [auto with peerdup|]. auto with peerdup.
Qed.

Lemma adopt_frame config key clock vh man :
  sc_id config = sid -> framed (adopt config root dd key clock vh man).
Proof.
  intros Hs. unfold adopt. rewrite Hs. apply touches_bind; [apply to_shadow_frame|]. intros _.
  apply touches_bind; [apply create_and_add_frame|]. intros r.
  apply touches_bind; [auto with peerdup|]. intros now. cbv zeta.
  apply touches_bind; [apply persist_frame|]. auto with peerdup.
Qed.

Lemma local_change_frame config port me key st :
  sc_id config = sid -> framed (on_local_change config root dd port me key st).
Proof.
  intros Hs. unfold on_local_change. apply touches_bind.
  2: { intros [[s|]|e|]; auto with peerdup. }
  apply touches_attempt. unfold handle_local_change.
  apply touches_bind; [apply has_content_frame|]. intros b. destruct (negb b); [auto with peerdup|].
  apply touches_bind; [apply snapshot_frame|]. intros sn.
  match goal with |- context [if ?c then _ else _] => destruct c end; [auto with peerdup|].
  apply touches_bind; [apply drop_torrent_frame|]. intros _.
  apply touches_bind; [by apply adopt_frame|]. auto with peerdup.
Qed.

Lemma reconcile_frame config me key :
  sc_id config = sid -> framed (reconcile_on_start config root dd me key).
Proof.
  intros Hs. unfold reconcile_on_start. apply touches_bind.
  { unfold state_load. cbv zeta. apply touches_bind; [auto with peerdup|]. intros ex.
    destruct (negb ex); auto 10 with peerdup. }
  intros v. apply touches_bind; [apply has_content_frame|]. intros b.
  destruct v as [p|]; (destruct (negb b); [auto with peerdup|]);
    (apply touches_bind; [apply snapshot_frame|]; intros sn).
  - case_decide.
    + apply touches_bind; [apply to_shadow_frame|]. intros _.
      apply touches_bind; [apply create_and_add_frame|]. auto with peerdup.
    + apply touches_bind; [by apply adopt_frame|]. auto with peerdup.
  - apply touches_bind; [by apply adopt_frame|]. auto with peerdup.
Qed.

Lemma apply_remote_frame ih vh rc rts eps key cur :
  framed (apply_remote_sync root ih vh rc rts eps key cur).
Proof.
  unfold apply_remote_sync. cbv zeta. case_decide; [auto with peerdup|].
  assert (root `prefix_of` shadow_root root) as Hsh
    by (rewrite shadow_root_eq; by apply prefix_app_r).
  apply touches_bind; [apply drop_torrent_frame|]. intros _.
  apply touches_bind; [auto with peerdup|]. intros _.
  apply touches_bind_Ok.
  { apply framed_inner. eapply touches_mono; [|apply magnet_touches]. intros q Hq. by etrans. }
  intros w resp w' Ha. apply touches_bind_Ok; [auto with peerdup|]. intros w1 i w2 [Hi _]%lift_Ok.
  apply ok_or_Ok in Hi as ->. apply touches_bind.
  { apply touches_ctx, framed_inner. eapply touches_mono; [|by eapply wait_touches].
    intros q Hq. by etrans. }
  intros _. apply touches_bind; [apply touches_ctx, to_plaintext_frame|]. intros man.
  apply touches_bind; [apply snapshot_frame|]. intros sn. case_decide; [auto with peerdup|].
  apply touches_bind; [destruct cur; [apply delete_orphans_frame|auto with peerdup]|].
  auto with peerdup.
Qed.

Lemma commit_frame port s : framed (commit dd sid port s).
Proof.
  unfold commit. apply touches_bind; [apply touches_attempt, persist_frame|]. auto with peerdup.
Qed.

Lemma on_announce_frame config port key a st :
  sc_id config = sid -> framed (on_announce config root dd port key a st).
Proof.
  intros Hs. assert (forall vh rc rt, framed (fetch_remote config root dd port key a vh rc rt st)) as Hf.
  { intros vh rc rt. unfold fetch_remote. rewrite Hs.
    apply touches_bind; [apply touches_attempt, apply_remote_frame|].
    intros [s|e|]; [apply commit_frame|auto with peerdup..]. }
  unfold on_announce. destruct (an_version_hash a), (an_clock a), (an_timestamp a); auto with peerdup.
  cbv zeta. destruct st as [l|]; [|apply Hf]. destruct (compare _ _); auto with peerdup.
  rewrite Hs. destruct (lww_we_win _ _ _ _); [apply commit_frame|apply Hf].
Qed.
End frame.

(** ** Property *)

Section properties.
Context `{MD : Metadata, ReadDir, Blake3, Entropy, Aead, WallClock, !Json PersistedState, Torrents, SocketAddrs}.

(** C17. The reach of the sync engine: starting up, reacting to a local change and
    reacting to any announce, with any outcome and under any I/O failures,
    change no file outside the share's directory other than the share's own
    state file, its temporary, and one temporary beside the directory. *)
Theorem sync_engine_frame `{!TorrentFolders} (config : ShareConfig) (root dd : path) (port : Z)
    (me : string) (key : KeyRing) (a : Announce) (st : option ShareState) (w : world) (q : path)
    (Hout : ~ root `prefix_of` q) (Hbeside : q <> beside root)
    (Hstate : q <> sfile dd (sc_id config) /\ q <> stmp dd (sc_id config)) :
  file_at (w_fs (snd (reconcile_on_start config root dd me key w))) q = file_at (w_fs w) q /\
  file_at (w_fs (snd (on_local_change config root dd port me key st w))) q = file_at (w_fs w) q /\
  file_at (w_fs (snd (on_announce config root dd port key a st w))) q = file_at (w_fs w) q.
Proof.
  assert (~ engine_file root dd (sc_id config) q) as Hq by (unfold engine_file; tauto).
  split; [|split].
  - by apply (reconcile_frame root dd (sc_id config)).
  - by apply (local_change_frame root dd (sc_id config)).
  - by apply (on_announce_frame root dd (sc_id config)).
Qed.
End properties.

(** ** Witness *)

(** A session whose transfers bring nothing. *)
Definition idle_torrents : Torrents.
Proof.
  refine {| create_torrent := fun _ n => ret ("ih-" +:+ default "" n, []);
            add_torrent_bytes := fun _ _ => ret (Some 0%nat);
            add_torrent_magnet := fun _ _ _ => ret (Some 1%nat);
            wait_until_completed := fun _ => ret tt;
            session_delete := fun _ => ret tt |}; try done; by intros ? ? ?.
Defined.

Definition idle_folders : @TorrentFolders idle_torrents.
Proof. by split. Qed.

Section witnesses.
#[local] Existing Instance toy_metadata.
#[local] Existing Instance toy_entropy.
#[local] Existing Instance toy_aead.
#[local] Existing Instance toy_blake3.
#[local] Existing Instance toy_read_dir.
#[local] Existing Instance toy_clock.
#[local] Existing Instance toy_state.
#[local] Existing Instance toy_addrs.
#[local] Existing Instance idle_torrents.
#[local] Existing Instance idle_folders.

(** The keyring of the share survives an edit of the share. *)
Lemma sync_engine_frame_witness :
  file_at (w_fs (snd (on_local_change wy_cfg ws_root2 wy_dd 4240 "p" ws_ring2 None wz_full)))
    (kfile wy_dd (sc_id wy_cfg)) =
  file_at (w_fs wz_full) (kfile wy_dd (sc_id wy_cfg)).
Proof.
  destruct (sync_engine_frame wy_cfg ws_root2 wy_dd 4240 "p" ws_ring2 wy_announce None wz_full
    (kfile wy_dd (sc_id wy_cfg))) as (_ & E & _).
  - intros [l Hl]. discriminate Hl.
  - vm_compute. discriminate.
  - split; vm_compute; discriminate.
  - exact E.
Defined.
End witnesses.
