(* ===== verification/Network.v ===== *)
(** * An abstract network of peers

    Peers that edit, announce, receive and refuse versions, and start again.
    A peer's reaction to an announce is [Sync.receive], which the announce
    branch of [sync_loop] refines, or, when the transfer fails, nothing; its
    reaction to an edit is the clock step of [handle_local_change].  Announces
    are delivered late, repeatedly, in any order or not at all.  When a peer
    may edit, and what it holds after a new start, is up to a [policy]: the
    peers agree under [careful]; [skew_diverges] and [restart_diverges] show
    that they need not otherwise. *)

From stdpp Require Import functions.
From S2P Require Import Prelude World Tree Clock External Instances Share Crypto Shadow Sync.

(** ** The network *)

(** [current.map(|s| s.clock.clone()).unwrap_or_default()], then incremented. *)
Definition held_clock (l : option Version) : VectorClock :=
  match l with Some v => v_clock v | None => new end.

Definition edit (l : option Version) (p : string) (t : Z) (h : string) : Version :=
  {| v_clock := increment (held_clock l) p; v_ts := t; v_hash := h |}.

(** [n_air]: every version ever announced; [n_log]: the edits each peer has
    made, a ghost of the proof. *)
Record network := {
  n_peers : string -> option Version;
  n_air : list Version;
  n_log : string -> list (Z * string);
}.

Definition start : network := {| n_peers := fun _ => None; n_air := []; n_log := fun _ => [] |}.

Definition do_edit (s : network) (p : string) (t : Z) (h : string) : network :=
  {| n_peers := <[p := Some (edit (n_peers s p) p t h)]> (n_peers s);
     n_air := edit (n_peers s p) p t h :: n_air s;
     n_log := <[p := n_log s p ++ [(t, h)]]> (n_log s) |}.

(** A peer hears an announce and decides it; a transfer it needs succeeds (one
    that fails is [step_refuse]). *)
Definition do_deliver (s : network) (p : string) (r : Version) : network :=
  {| n_peers := <[p := receive (n_peers s p) r]> (n_peers s);
     n_air := option_list (receive (n_peers s p) r) ++ n_air s;
     n_log := n_log s |}.

(** A peer starts again and holds [l]. *)
Definition do_restart (s : network) (p : string) (l : option Version) : network :=
  {| n_peers := <[p := l]> (n_peers s); n_air := option_list l ++ n_air s; n_log := n_log s |}.

Inductive delivers (s : network) : network -> Prop :=
| delivers_at p r : r ∈ n_air s -> delivers s (do_deliver s p r).

(** What may happen to a peer that holds a version: an edit at a time; a start
    after which it holds another one. *)
Record policy := {
  may_edit : option Version -> string -> Z -> Prop;
  may_restart : option Version -> option Version -> Prop;
}.

Inductive step (pol : policy) (s : network) : network -> Prop :=
| step_edit p t h : may_edit pol (n_peers s p) p t -> step pol s (do_edit s p t h)
| step_deliver s' : delivers s s' -> step pol s s'
| step_refuse p r : r ∈ n_air s -> wants (n_peers s p) r = true -> step pol s s
| step_restart p l : may_restart pol (n_peers s p) l -> step pol s (do_restart s p l).

Definition reachable (pol : policy) (s : network) : Prop := rtc (step pol) start s.

(** Clocks close enough: an edit is later than the version it replaces. *)
Definition later (l : option Version) (t : Z) : Prop :=
  match l with Some v => v_ts v < t | None => True end.

(** Edits at any time, by peers that remember the version they held when they
    start again; and what has to be respected for the peers to agree: edits
    are also later than what they replace, and no counter overflows. *)
Definition hasty : policy := {| may_edit _ _ _ := True; may_restart l l' := l' = l |}.
Definition careful : policy :=
  {| may_edit l p t := later l t /\ get (held_clock l) p < u64_max;
     may_restart l l' := l' = l |}.

Definition same_content (v w : Version) : Prop := v_ts v = v_ts w /\ v_hash v = v_hash w.

(** ** The invariant

    A version carries the content of the last edit, in the order of the
    conflict rule, among the edits its clock counts. *)
Definition history (log : string -> list (Z * string)) (c : VectorClock) (e : Z * string) : Prop :=
  exists q i, log q !! i = Some e /\ Z.of_nat i < get c q.

Record good (log : string -> list (Z * string)) (v : Version) : Prop := {
  g_wf : clock_wf (v_clock v);
  g_le : forall q, get (v_clock v) q <= Z.of_nat (length (log q));
  g_in : history log (v_clock v) (v_ts v, v_hash v);
  g_max : forall e, history log (v_clock v) e ->
    e = (v_ts v, v_hash v) \/ lww_we_win (v_ts v) (v_hash v) e.1 e.2 = true;
}.

Record net_inv (s : network) : Prop := {
  i_air : forall v, v ∈ n_air s -> good (n_log s) v;
  i_said : forall p v, n_peers s p = Some v -> v ∈ n_air s;
  i_own : forall p, get (held_clock (n_peers s p)) p = Z.of_nat (length (n_log s p));
}.

Lemma history_veq log a b e : veq a b -> history log a e -> history log b e.
Proof. intros E (q & i & Hl & Hi). exists q, i. by rewrite <- E. Qed.

Lemma history_merge log a b e : clock_wf a ->
  history log (merge a b) e <-> history log a e \/ history log b e.
Proof.
  intros Ha. unfold history. split.
  - intros (q & i & Hl & Hi). rewrite get_merge in Hi by done.
    destruct (Z.max_spec (get a q) (get b q)) as [[_ E]|[_ E]]; rewrite E in Hi; [right|left]; eauto.
  - intros [(q & i & Hl & Hi)|(q & i & Hl & Hi)]; exists q, i; rewrite get_merge by done;
      (split; [done|lia]).
Qed.

Lemma lww_trans t1 t2 t3 h1 h2 h3 :
  lww_we_win t1 h1 t2 h2 = true -> lww_we_win t2 h2 t3 h3 = true -> lww_we_win t1 h1 t3 h3 = true.
Proof.
  rewrite !lww_spec. intros [?|[-> Ha]] [?|[-> Hb]]; try (left; lia). right.
  split; [done|]. by eapply ltb_trans.
Qed.

Lemma lww_asym t1 t2 h1 h2 : lww_we_win t1 h1 t2 h2 = true -> lww_we_win t2 h2 t1 h1 = false.
Proof.
  intros Hw. destruct (lww_we_win t2 h2 t1 h1) eqn:E; [|done].
  pose proof (lww_trans _ _ _ _ _ _ Hw E) as Hc. apply lww_spec in Hc as [?|[_ Hc]]; [lia|].
  by rewrite ltb_irrefl in Hc.
Qed.

Lemma lww_cases (l r : Version) :
  beats l r = false -> (v_ts l, v_hash l) = (v_ts r, v_hash r) \/ beats r l = true.
Proof.
  unfold beats. intros Hb. destruct (decide ((v_ts l, v_hash l) = (v_ts r, v_hash r))); [by left|].
  right. rewrite lww_spec. destruct (Z.lt_trichotomy (v_ts l) (v_ts r)) as [?|[E|?]].
  - by left.
  - right. split; [done|]. destruct (ltb_total (v_hash l) (v_hash r)) as [?|Hc]; [congruence|done|].
    assert (lww_we_win (v_ts l) (v_hash l) (v_ts r) (v_hash r) = true); [|congruence].
    apply lww_spec. right. by split.
  - assert (lww_we_win (v_ts l) (v_hash l) (v_ts r) (v_hash r) = true); [|congruence].
    apply lww_spec. left. lia.
Qed.

(** Equal clocks count the same edits, so their versions are the same. *)
Lemma good_same log v w : good log v -> good log w -> veq (v_clock v) (v_clock w) -> same_content v w.
Proof.
  intros Hv Hw E.
  assert (forall a b : Version, good log a -> good log b -> veq (v_clock a) (v_clock b) ->
    (v_ts b, v_hash b) = (v_ts a, v_hash a) \/ beats a b = true) as Hab.
  { intros a b Ha Hb Eab. apply (g_max _ _ Ha). apply (history_veq _ (v_clock b)); [|apply (g_in _ _ Hb)].
    intros k. by rewrite Eab. }
  destruct (Hab v w Hv Hw E) as [|H1]; [by simplify_eq/=|].
  destruct (Hab w v Hw Hv (fun k => eq_sym (E k))) as [|H2]; [by simplify_eq/=|].
  apply lww_asym in H1. unfold beats in H2. congruence.
Qed.

(** *** Receiving *)

Lemma good_join log (v w : Version) :
  good log v -> good log w -> beats v w = true \/ (v_ts v, v_hash v) = (v_ts w, v_hash w) ->
  forall c, (forall e, history log c e <-> history log (v_clock v) e \/ history log (v_clock w) e) ->
  clock_wf c -> (forall q, get c q <= Z.of_nat (length (log q))) ->
  good log {| v_clock := c; v_ts := v_ts v; v_hash := v_hash v |}.
Proof.
  intros Hv Hw Hbeat c Hc Hwf Hle. split; simpl; try done.
  - apply Hc. left. apply (g_in _ _ Hv).
  - intros e [He|He]%Hc; [by apply (g_max _ _ Hv)|].
    destruct (g_max _ _ Hw e He) as [->|He'], Hbeat as [Hb|Hb].
    + by right.
    + by left.
    + right. by eapply lww_trans.
    + right. injection Hb as -> ->. done.
Qed.

Lemma good_veq log (v : Version) (c : VectorClock) :
  good log v -> clock_wf c -> veq c (v_clock v) ->
  good log {| v_clock := c; v_ts := v_ts v; v_hash := v_hash v |}.
Proof.
  intros Hg Hwf E. apply (good_join log v v Hg Hg (or_intror eq_refl)); [|done|].
  - intros e. split; [|intros [He|He]].
    + intros He. left. by eapply history_veq.
    + eapply history_veq; [|exact He]. intros k. by rewrite E.
    + eapply history_veq; [|exact He]. intros k. by rewrite E.
  - intros q. rewrite E. apply (g_le _ _ Hg).
Qed.

Lemma receive_good log l r v :
  (forall u, l = Some u -> good log u) -> good log r -> receive l r = Some v ->
  good log v /\ (forall k, get (v_clock v) k = Z.max (get (held_clock l) k) (get (v_clock r) k)).
Proof.
  intros Hl Hr Hv. unfold receive in Hv. pose proof (g_wf _ _ Hr) as Hwr. destruct l as [l|].
  - specialize (Hl l eq_refl). pose proof (g_wf _ _ Hl) as Hwl. unfold wants in Hv. simpl in *.
    assert (forall k, get (merge (v_clock l) (v_clock r)) k <= Z.of_nat (length (log k))) as Hle.
    { intros k. rewrite get_merge by done. pose proof (g_le _ _ Hl k). pose proof (g_le _ _ Hr k). lia. }
    destruct (compare_cases (v_clock l) (v_clock r)) as [Hlr Hrl|Hrl _|Hlr _|H1 H2].
    + injection Hv as <-. split; [done|]. intros k. specialize (Hlr k). specialize (Hrl k). lia.
    + injection Hv as <-. split; [done|]. intros k. specialize (Hrl k). lia.
    + injection Hv as <-. simpl. split; [|intros; by apply get_merge].
      apply good_veq; [done|by apply merge_wf|by apply merge_of_le].
    + destruct (beats l r) eqn:Eb; simpl in Hv; injection Hv as <-; simpl;
        (split; [|intros; by apply get_merge]).
      * apply (good_join log l r Hl Hr); [by left| |by apply merge_wf|done].
        intros e. by apply history_merge.
      * apply lww_cases in Eb.
        apply (good_join log r l Hr Hl); [|intros e; rewrite history_merge by done; tauto|by apply merge_wf|done].
        destruct Eb as [Eb|?]; [by right|by left].
  - injection Hv as <-. simpl. pose proof new_wf as Hn. split; [|intros; by apply get_merge].
    apply good_veq; [done|by apply merge_wf|]. apply merge_of_le; [done|].
    intros k. rewrite get_new. by apply get_range.
Qed.

Lemma receive_Some l r : l <> None -> receive l r <> None.
Proof.
  destruct l as [l|]; [intros _|done]. unfold receive. case_match; [done|]. by case_match.
Qed.

(** *** Editing *)

Lemma history_grow log p e0 c e :
  get c p <= Z.of_nat (length (log p)) ->
  history (<[p := log p ++ [e0]]> log) c e <-> history log c e.
Proof.
  intros Hc. unfold history. split; intros (q & i & Hl & Hi); exists q, i; (split; [|done]).
  - destruct (decide (p = q)) as [<-|]; [|by rewrite fn_lookup_insert_ne in Hl].
    rewrite fn_lookup_insert in Hl. rewrite lookup_app_l in Hl by lia. done.
  - destruct (decide (p = q)) as [<-|]; [|by rewrite fn_lookup_insert_ne].
    rewrite fn_lookup_insert. rewrite lookup_app_l by lia. done.
Qed.

Lemma good_grow log p e0 v : good log v -> good (<[p := log p ++ [e0]]> log) v.
Proof.
  intros [Hwf Hle Hin Hmax]. split; [done| | |].
  - intros q. specialize (Hle q). destruct (decide (p = q)) as [<-|]; [|by rewrite fn_lookup_insert_ne].
    rewrite fn_lookup_insert, length_app. simpl. lia.
  - by apply history_grow.
  - intros e He%history_grow; [|done]. by apply Hmax.
Qed.

Lemma good_edit log l p t h :
  (forall u, l = Some u -> good log u) -> later l t -> get (held_clock l) p < u64_max ->
  get (held_clock l) p = Z.of_nat (length (log p)) ->
  good (<[p := log p ++ [(t, h)]]> log) (edit l p t h).
Proof.
  intros Hl Ht Hmax Hown.
  assert (clock_wf (held_clock l)) as Hwf by (destruct l; [by apply (g_wf log), Hl|apply new_wf]).
  assert (forall q, get (held_clock l) q <= Z.of_nat (length (log q))) as Hle.
  { intros q. destruct l; [by apply (g_le log), Hl|]. simpl. rewrite get_new. lia. }
  assert (wrap64 (get (held_clock l) p + 1) = Z.of_nat (length (log p)) + 1) as Hw.
  { rewrite wrap64_small; [lia|]. pose proof (get_range _ p Hwf). lia. }
  split; unfold edit; simpl.
  - by apply increment_wf.
  - intros q. rewrite get_increment. case_decide; [subst|by rewrite fn_lookup_insert_ne].
    rewrite Hw, fn_lookup_insert, length_app. simpl. lia.
  - exists p, (length (log p)). rewrite fn_lookup_insert, get_increment, decide_True, Hw by done.
    split; [|lia]. rewrite lookup_app_r, Nat.sub_diag by done. done.
  - intros e (q & i & He & Hi). rewrite get_increment in Hi.
    assert (history log (held_clock l) e \/ e = (t, h)) as [He'|He']; [| |by left].
    { case_decide; subst.
      - rewrite fn_lookup_insert in He. rewrite Hw in Hi.
        destruct (decide (i = length (log q))) as [->|].
        + rewrite lookup_app_r, Nat.sub_diag in He by done. right. by simplify_eq/=.
        + left. exists q, i. rewrite lookup_app_l in He by lia. split; [done|lia].
      - rewrite fn_lookup_insert_ne in He by done. left. by exists q, i. }
    right. apply lww_spec. left. destruct l as [v|]; simpl in *.
    + apply (g_max _ _ (Hl v eq_refl)) in He' as [->|He']; [done|].
      apply lww_spec in He'. lia.
    + destruct He' as (q' & i' & _ & Hi'). rewrite get_new in Hi'. lia.
Qed.

(** *** Reachable networks *)

Lemma inv_start : net_inv start.
Proof. split; simpl; [by intros v ?%not_elem_of_nil|done|]. intros p. apply get_new. Qed.

Lemma inv_held s p v : net_inv s -> n_peers s p = Some v -> good (n_log s) v.
Proof. intros Hi Hp. eapply (i_air _ Hi), (i_said _ Hi), Hp. Qed.

Lemma inv_deliver s p r : net_inv s -> r ∈ n_air s -> net_inv (do_deliver s p r).
Proof.
  intros Hi Hr. pose proof (i_air _ Hi r Hr) as Hgr.
  assert (forall v, receive (n_peers s p) r = Some v -> good (n_log s) v /\
    (forall k, get (v_clock v) k = Z.max (get (held_clock (n_peers s p)) k) (get (v_clock r) k))) as Hrec.
  { intros v Hv. eapply receive_good; [|done..]. intros u. by apply inv_held. }
  unfold do_deliver. split; simpl.
  - intros v [Hv|Hv]%elem_of_app; [|by apply (i_air _ Hi)].
    destruct (receive _ _) as [u|]; simpl in Hv; [|by apply not_elem_of_nil in Hv].
    apply list_elem_of_singleton in Hv as ->. by apply Hrec.
  - intros q v Hq. apply elem_of_app. destruct (decide (p = q)) as [<-|].
    + rewrite fn_lookup_insert in Hq. rewrite Hq. left. by apply list_elem_of_singleton.
    + rewrite fn_lookup_insert_ne in Hq by done. right. by eapply (i_said _ Hi).
  - intros q. destruct (decide (p = q)) as [<-|]; [|rewrite fn_lookup_insert_ne by done; apply (i_own _ Hi)].
    rewrite fn_lookup_insert. pose proof (i_own _ Hi p) as Hown. pose proof (g_le _ _ Hgr p) as Hle.
    destruct (receive (n_peers s p) r) as [v|] eqn:E; simpl.
    + destruct (Hrec v eq_refl) as [_ ->]. lia.
    + destruct (n_peers s p) as [l|] eqn:El; [|done].
      by destruct (receive_Some (Some l) r ltac:(done)).
Qed.

Lemma inv_edit s p t h :
  net_inv s -> later (n_peers s p) t -> get (held_clock (n_peers s p)) p < u64_max ->
  net_inv (do_edit s p t h).
Proof.
  intros Hi Ht Hmax.
  assert (good (<[p := n_log s p ++ [(t, h)]]> (n_log s)) (edit (n_peers s p) p t h)) as Hg.
  { apply good_edit; [|done..|apply (i_own _ Hi)]. intros u. by apply inv_held. }
  unfold do_edit. split; simpl.
  - intros v [->|Hv]%elem_of_cons; [done|]. by apply good_grow, (i_air _ Hi).
  - intros q v Hq. apply elem_of_cons. destruct (decide (p = q)) as [<-|].
    + rewrite fn_lookup_insert in Hq. left. congruence.
    + rewrite fn_lookup_insert_ne in Hq by done. right. by eapply (i_said _ Hi).
  - intros q. destruct (decide (p = q)) as [<-|].
    + rewrite !fn_lookup_insert, length_app. simpl. rewrite get_increment, decide_True by done.
      pose proof (i_own _ Hi p) as Hown. rewrite Hown, wrap64_small; simpl; lia.
    + rewrite !fn_lookup_insert_ne by done. apply (i_own _ Hi).
Qed.

(** A peer that remembers what it held. *)
Lemma inv_resume s p : net_inv s -> net_inv (do_restart s p (n_peers s p)).
Proof.
  intros Hi. assert (forall q, <[p := n_peers s p]> (n_peers s) q = n_peers s q) as Hq.
  { intros q. destruct (decide (p = q)) as [<-|]; [by rewrite fn_lookup_insert|by rewrite fn_lookup_insert_ne]. }
  assert (forall v, v ∈ option_list (n_peers s p) -> v ∈ n_air s) as Hair.
  { intros v Hv. apply (i_said _ Hi p). destruct (n_peers s p); set_solver. }
  unfold do_restart. split; simpl.
  - intros v [Hv|Hv]%elem_of_app; apply (i_air _ Hi); auto.
  - intros q v. rewrite Hq. intros Hv%(i_said _ Hi). set_solver.
  - intros q. rewrite Hq. apply (i_own _ Hi).
Qed.

Lemma inv_step s s' : net_inv s -> step careful s s' -> net_inv s'.
Proof.
  intros Hi [p t h [Ht Hmax]|? [p r Hr]|p r _ _|p l ->];
    [by apply inv_edit|by apply inv_deliver|done|by apply inv_resume].
Qed.

Lemma inv_reachable s : reachable careful s -> net_inv s.
Proof.
  intros Hr. cut (forall a b, rtc (step careful) a b -> net_inv a -> net_inv b).
  { intros Hc. eapply Hc; [exact Hr|apply inv_start]. }
  induction 1; [done|]. intros Hi. eauto using inv_step.
Qed.

(** *** Gossip *)

Lemma deliver_other s p r q : p <> q -> n_peers (do_deliver s p r) q = n_peers s q.
Proof. intros Hne. simpl. by rewrite fn_lookup_insert_ne. Qed.

Lemma deliver_held s p r : net_inv s -> r ∈ n_air s ->
  exists v, n_peers (do_deliver s p r) p = Some v /\ 
    forall k, get (v_clock v) k = Z.max (get (held_clock (n_peers s p)) k) (get (v_clock r) k).
Proof.
  intros Hi Hr. simpl. rewrite fn_lookup_insert.
  destruct (receive (n_peers s p) r) as [v|] eqn:E.
  - exists v. split; [done|]. eapply receive_good in E as [_ E]; [exact E| |by apply (i_air _ Hi)].
    intros u. by apply inv_held.
  - exfalso. destruct (n_peers s p) as [l|]; [by apply (receive_Some (Some l) r)|done].
Qed.

(** What the gossip steps keep. *)
Record gossiped (s s' : network) : Prop := {
  go_run : rtc delivers s s';
  go_inv : net_inv s';
  go_air : forall v, v ∈ n_air s -> v ∈ n_air s';
}.

Lemma gossiped_refl s : net_inv s -> gossiped s s.
Proof. by split. Qed.

Lemma gossiped_trans s1 s2 s3 : gossiped s1 s2 -> gossiped s2 s3 -> gossiped s1 s3.
Proof. intros [] []. split; [by etrans|done|auto]. Qed.

Lemma gossiped_one s p r : net_inv s -> r ∈ n_air s -> gossiped s (do_deliver s p r).
Proof.
  intros Hi Hr. split; [by apply rtc_once|by apply inv_deliver|]. intros v Hv. simpl.
  apply elem_of_app. by right.
Qed.

(** One peer hears a list of announced versions. *)
Lemma collect s p (l : list Version) :
  net_inv s -> (forall v, v ∈ l -> v ∈ n_air s) ->
  exists s', gossiped s s' /\ (forall q, p <> q -> n_peers s' q = n_peers s q) /\
    (n_peers s p <> None \/ l <> [] -> n_peers s' p <> None) /\
    (forall k, get (held_clock (n_peers s p)) k <= get (held_clock (n_peers s' p)) k) /\
    (forall v, v ∈ l -> vle (v_clock v) (held_clock (n_peers s' p))).
Proof.
  revert s. induction l as [|r l IH]; intros s Hi Hl.
  - exists s. split; [by apply gossiped_refl|]. split; [done|]. split; [naive_solver|].
    split; [done|]. by intros v ?%not_elem_of_nil.
  - assert (r ∈ n_air s) as Hr by (apply Hl; set_solver).
    pose proof (gossiped_one s p r Hi Hr) as Hg1. destruct (deliver_held s p r Hi Hr) as (v & Hv & Hk).
    destruct (IH (do_deliver s p r)) as (s' & Hg & Hoth & Hsome & Hge & Hall).
    { apply Hg1. }
    { intros u Hu. apply (go_air _ _ Hg1), Hl. set_solver. }
    exists s'. split; [by eapply gossiped_trans|]. split.
    { intros q Hq. rewrite Hoth by done. by apply deliver_other. }
    split. { intros _. apply Hsome. left. by rewrite Hv. }
    rewrite Hv in Hge. simpl held_clock in Hge. split.
    + intros k. specialize (Hge k). rewrite Hk in Hge. lia.
    + intros u [->|Hu]%elem_of_cons; [|by apply Hall].
      intros k. specialize (Hge k). rewrite Hk in Hge. lia.
Qed.

(** A list of peers hears one announced version that is above all of theirs. *)
Lemma spread s (top : Version) (ps : list string) :
  net_inv s -> top ∈ n_air s ->
  (forall q, q ∈ ps -> vle (held_clock (n_peers s q)) (v_clock top)) ->
  exists s', gossiped s s' /\
    (forall q, q ∉ ps -> n_peers s' q = n_peers s q) /\
    (forall q, q ∈ ps -> exists v, n_peers s' q = Some v /\ veq (v_clock v) (v_clock top)).
Proof.
  revert s. induction ps as [|p ps IH]; intros s Hi Ht Hle.
  - exists s. split; [by apply gossiped_refl|]. split; [done|]. by intros q ?%not_elem_of_nil.
  - pose proof (gossiped_one s p top Hi Ht) as Hg1. destruct (deliver_held s p top Hi Ht) as (v & Hv & Hk).
    assert (veq (v_clock v) (v_clock top)) as Hveq.
    { intros k. rewrite Hk. pose proof (Hle p ltac:(set_solver) k). lia. }
    destruct (IH (do_deliver s p top)) as (s' & Hg & Hoth & Hall).
    { apply Hg1. } { by apply (go_air _ _ Hg1). }
    { intros q Hq. destruct (decide (p = q)) as [<-|].
      - rewrite Hv. simpl. by apply veq_vle.
      - rewrite deliver_other by done. apply Hle. set_solver. }
    exists s'. split; [by eapply gossiped_trans|]. split.
    + intros q Hq. rewrite Hoth by set_solver. apply deliver_other. set_solver.
    + intros q Hq. destruct (decide (q ∈ ps)); [by apply Hall|].
      assert (q = p) as -> by set_solver. exists v. by rewrite Hoth.
Qed.

(** ** Properties *)

(** In a careful network versions with equal clocks have the same content: the
    answer [Equal], on which a peer ignores an announce, never hides a
    different version. *)
Theorem equal_clocks_same_content (s : network) (v w : Version)
    (Hs : reachable careful s) (Hv : v ∈ n_air s) (Hw : w ∈ n_air s)
    (Heq : compare (v_clock v) (v_clock w) = Equal) :
  same_content v w.
Proof.
  apply inv_reachable in Hs. apply compare_Equal in Heq.
  eapply good_same; [by apply (i_air _ Hs)..|done].
Qed.

(** Agreement at rest: two peers of which neither changes its version when it
    hears the other's hold the same content. *)
Theorem quiescent_agree (s : network) (p q : string) (v w : Version)
    (Hs : reachable careful s) (Hp : n_peers s p = Some v) (Hq : n_peers s q = Some w)
    (Hpq : receive (Some v) w = Some v) (Hqp : receive (Some w) v = Some w) :
  same_content v w.
Proof.
  apply inv_reachable in Hs. pose proof (inv_held _ _ _ Hs Hp) as Hv.
  pose proof (inv_held _ _ _ Hs Hq) as Hw. apply (good_same _ _ _ Hv Hw).
  apply (receive_good (n_log s)) in Hpq as [_ Hpq]; [|by intros u [= <-]|done].
  apply (receive_good (n_log s)) in Hqp as [_ Hqp]; [|by intros u [= <-]|done].
  intros k. specialize (Hpq k). specialize (Hqp k). simpl in *. lia.
Qed.

(** Agreement can be reached when transfers succeed: from every reachable
    careful network, and whatever was delivered or refused before, some finite
    sequence of deliveries, none of them refused, leaves any given peers, of
    which one holds a version, with one and the same content and clock.  (The
    program refuses some versions for good: [Sync.deletion_never_applies].) *)
Theorem gossip_converges (s : network) (ps : list string) (p : string)
    (Hs : reachable careful s) (Hp : p ∈ ps) (Hheld : n_peers s p <> None) :
  exists s' top, rtc delivers s s' /\
    forall q, q ∈ ps -> exists v, n_peers s' q = Some v /\ same_content v top /\
      compare (v_clock v) (v_clock top) = Equal.
Proof.
  apply inv_reachable in Hs.
  destruct (collect s p (omap (n_peers s) ps)) as (s1 & Hg1 & Hoth & Hsome & Hown & Hall); [done| |].
  { intros v (q & _ & Hq)%list_elem_of_omap. by eapply (i_said _ Hs). }
  destruct (n_peers s1 p) as [top|] eqn:Etop; [|by destruct (Hsome (or_introl Hheld))].
  simpl in Hall. pose proof (go_inv _ _ Hg1) as Hi1.
  destruct (spread s1 top ps) as (s2 & Hg2 & _ & Heq); [done|by eapply (i_said _ Hi1)| |].
  { intros q Hq k. destruct (decide (p = q)) as [<-|Hne]; [by rewrite Etop|].
    rewrite Hoth by done. destruct (n_peers s q) as [v|] eqn:Eq; simpl.
    - apply (Hall v). apply list_elem_of_omap. eauto.
    - rewrite get_new. eapply get_range, (g_wf (n_log s1)), inv_held; [done|exact Etop]. }
  exists s2, top. split; [etrans; [apply Hg1|apply Hg2]|]. intros q Hq.
  destruct (Heq q Hq) as (v & Hv & Hveq). exists v. split; [done|].
  pose proof (go_inv _ _ Hg2) as Hi2. split; [|by apply compare_Equal].
  eapply good_same; [by eapply inv_held| |done].
  apply (i_air _ Hi2), (go_air _ _ Hg2). by eapply (i_said _ Hi1).
Qed.

(** ** Witnesses, and what happens without care *)

Definition wn_edited : network := do_edit start "A" 10 "x".
Definition wn_a : Version := edit None "A" 10 "x".
Definition wn_two : network := do_edit wn_edited "B" 12 "y".
Definition wn_b : Version := edit None "B" 12 "y".

Lemma wn_reachable : reachable careful wn_two.
Proof.
  eapply rtc_l; [apply (step_edit _ _ "A" 10 "x"); split; [exact I|vm_compute; reflexivity]|].
  eapply rtc_l; [apply (step_edit _ _ "B" 12 "y"); split; [exact I|vm_compute; reflexivity]|].
  apply rtc_refl.
Qed.

Lemma gossip_converges_witness :
  exists s' top, rtc delivers wn_two s' /\
    forall q, q ∈ ["A"; "B"; "C"]%string -> exists v, n_peers s' q = Some v /\ same_content v top /\
      compare (v_clock v) (v_clock top) = Equal.
Proof.
  apply (gossip_converges wn_two ["A"; "B"; "C"]%string "A" wn_reachable).
  - apply list_elem_of_here.
  - vm_compute. discriminate.
Defined.

Lemma equal_clocks_same_content_witness : same_content wn_a wn_a.
Proof.
  apply (equal_clocks_same_content wn_two wn_a wn_a wn_reachable).
  - right. left.
  - right. left.
  - vm_compute. reflexivity.
Defined.

(** Both peers have heard each other's version. *)
Definition wn_met : network := do_deliver (do_deliver wn_two "A" wn_b) "B" wn_a.
Definition wn_held (s : network) (p : string) : Version :=
  match n_peers s p with Some v => v | None => wn_a end.

Lemma wn_met_reachable : reachable careful wn_met.
Proof.
  unfold reachable. transitivity wn_two; [exact wn_reachable|].
  eapply rtc_l; [apply step_deliver, (delivers_at wn_two "A" wn_b); left|].
  eapply rtc_l; [apply step_deliver, (delivers_at _ "B" wn_a); right; right; left|].
  apply rtc_refl.
Qed.

Lemma quiescent_agree_witness : same_content (wn_held wn_met "A") (wn_held wn_met "B").
Proof.
  apply (quiescent_agree wn_met "A" "B" _ _ wn_met_reachable); vm_compute; reflexivity.
Defined.

(** Without the restriction on times the peers can disagree for good: [A]
    makes a version at time 10; [B], whose clock is behind, edits it at time
    5; [C] makes another one at time 7.  [B] and [C] end with equal clocks and
    different contents, and ignore each other from then on. *)
Definition wn_c1 : Version := edit None "C" 7 "z".
Definition wn_skew1 : network := do_edit (do_deliver wn_edited "B" wn_a) "B" 5 "y".
Definition wn_b1 : Version := wn_held wn_skew1 "B".
Definition wn_skew2 : network := do_edit wn_skew1 "C" 7 "z".
Definition wn_skew : network :=
  do_deliver (do_deliver (do_deliver wn_skew2 "C" wn_a) "C" wn_b1) "B" wn_c1.

Lemma wn_skew_reachable : reachable hasty wn_skew.
Proof.
  eapply rtc_l; [apply (step_edit _ _ "A" 10 "x"); exact I|].
  eapply rtc_l; [apply step_deliver, (delivers_at wn_edited "B" wn_a); left|].
  eapply rtc_l; [apply (step_edit _ _ "B" 5 "y"); exact I|].
  eapply rtc_l; [apply (step_edit _ _ "C" 7 "z"); exact I|].
  eapply rtc_l; [apply step_deliver, (delivers_at wn_skew2 "C" wn_a)|].
  { right. right. right. left. }
  eapply rtc_l; [apply step_deliver, (delivers_at _ "C" wn_b1)|].
  { right. right. left. }
  eapply rtc_l; [apply step_deliver, (delivers_at _ "B" wn_c1)|].
  { right. right. left. }
  apply rtc_refl.
Qed.

Theorem skew_diverges :
  exists s v w, reachable hasty s /\ n_peers s "B" = Some v /\ n_peers s "C" = Some w /\
    compare (v_clock v) (v_clock w) = Equal /\ v_hash v <> v_hash w /\
    receive (Some v) w = Some v /\ receive (Some w) v = Some w.
Proof.
  exists wn_skew, (wn_held wn_skew "B"), (wn_held wn_skew "C").
  split; [exact wn_skew_reachable|]. do 3 (split; [vm_compute; reflexivity|]).
  split; [vm_compute; discriminate|]. split; vm_compute; reflexivity.
Qed.

(** Nor can a peer forget: [A] makes a version, [B] hears it, [A] starts again
    without it and makes another one, later, under the same clock. *)
Definition forgetful : policy := {| may_edit := may_edit careful; may_restart _ l' := l' = None |}.
Definition wn_forgot : network :=
  do_edit (do_restart (do_deliver wn_edited "B" wn_a) "A" None) "A" 20 "y".

Lemma wn_forgot_reachable : reachable forgetful wn_forgot.
Proof.
  eapply rtc_l; [apply (step_edit _ _ "A" 10 "x"); split; [exact I|vm_compute; reflexivity]|].
  eapply rtc_l; [apply step_deliver, (delivers_at wn_edited "B" wn_a); left|].
  eapply rtc_l; [apply (step_restart _ _ "A" None); reflexivity|].
  eapply rtc_l; [apply (step_edit _ _ "A" 20 "y"); split; [exact I|vm_compute; reflexivity]|].
  apply rtc_refl.
Qed.

Theorem restart_diverges :
  exists s v w, reachable forgetful s /\ n_peers s "A" = Some v /\ n_peers s "B" = Some w /\
    compare (v_clock v) (v_clock w) = Equal /\ v_ts w < v_ts v /\ v_hash v <> v_hash w /\
    receive (Some v) w = Some v /\ receive (Some w) v = Some w.
Proof.
  exists wn_forgot, (wn_held wn_forgot "A"), (wn_held wn_forgot "B").
  split; [exact wn_forgot_reachable|]. do 4 (split; [vm_compute; reflexivity|]).
  split; [vm_compute; discriminate|]. split; vm_compute; reflexivity.
Qed.
