(* ===== verification/Daemon.v ===== *)
(** * The share task: members, tickets and key rotation
    ([src/daemon.rs], 30-145, 984-1150 and 1682-1901)

    Each share runs in one task that owns its keyring, membership log, queue
    of rotations to announce and buffer of rotations that arrived early.
    Commands and messages are handled one at a time on that state. *)

From S2P Require Import Prelude World Tree Clock External Instances Share Crypto Auth.
From S2P Require Import Rotation Ticket Shadow Sync.

Definition ROTATION_BUFFER_CAP : nat := 64.

Inductive ShareMsg :=
  | MAnnounce (a : Announce)
  | MAuthOps (raw_ops : list bytes)
  | MKeyRotation (rot : SignedRotation).

Inductive ShareCommand :=
  | CInvite (invitee : MemberId) (auth_role : AuthRole) (suggested_role : ShareRole)
  | CRevoke (target : MemberId)
  | CRotateKey
  | CMembers
  | CShutdown.

Inductive Reply :=
  | RTicket (r : outcome string)
  | REpoch (r : outcome Z)
  | RMembers (l : list (MemberId * AuthRole))
  | RDone.

Inductive AppliedOrBuffered := ABApplied | ABIdempotent | ABStale | ABBuffered.

#[export] Instance AppliedOrBuffered_eq_dec : EqDecision AppliedOrBuffered.
Proof. solve_decision. Defined.

(** Bounded push: drop the lowest epoch once the buffer is full. *)
Definition buffer_push (buf : list SignedRotation) (rot : SignedRotation) : list SignedRotation :=
  if existsb (fun r => bool_decide (epoch r = epoch rot)) buf then buf else
  let buf := if (ROTATION_BUFFER_CAP <=? length buf)%nat then drop 1 (sort_by epoch buf) else buf in
  buf ++ [rot].

Section daemon.
Context `{MD : Metadata, Entropy, Blake3, Ed25519, !CryptoBox, Base64}.
Context `{!Bincode rotation_tuple, !BincodeTotal rotation_tuple, !Bincode SignedRotation}.
Context `{!Bincode canonical_tuple, !BincodeTotal canonical_tuple, !GroupCrdt}.
Context `{!Bincode SignedOp, !Bincode (list SignedOp), !Bincode Ticket, !Json ShareMsg}.

(** ** The task's state and its monad *)

Record ShareTask := {
  t_key : KeyRing;
  t_auth : AuthState;
  t_pending : list SignedRotation;
  t_buffer : list SignedRotation;
}.

Definition set_key (k : KeyRing) (t : ShareTask) : ShareTask :=
  {| t_key := k; t_auth := t_auth t; t_pending := t_pending t; t_buffer := t_buffer t |}.
Definition set_auth (a : AuthState) (t : ShareTask) : ShareTask :=
  {| t_key := t_key t; t_auth := a; t_pending := t_pending t; t_buffer := t_buffer t |}.
Definition set_pending (l : list SignedRotation) (t : ShareTask) : ShareTask :=
  {| t_key := t_key t; t_auth := t_auth t; t_pending := l; t_buffer := t_buffer t |}.
Definition set_buffer (l : list SignedRotation) (t : ShareTask) : ShareTask :=
  {| t_key := t_key t; t_auth := t_auth t; t_pending := t_pending t; t_buffer := l |}.

(** Computations of the task: what was changed before an error stays. *)
Definition SM (A : Type) : Type := ShareTask -> world -> outcome A * (ShareTask * world).

Definition sret {A : Type} (a : A) : SM A := fun t w => (Ok a, (t, w)).
Definition sfail {A : Type} (e : error) : SM A := fun t w => (Err e, (t, w)).
Definition slift {A : Type} (r : outcome A) : SM A := fun t w => (r, (t, w)).
Definition sbind {A B : Type} (m : SM A) (k : A -> SM B) : SM B := fun t w =>
  match m t w with
  | (Ok a, (t', w')) => k a t' w'
  | (Err e, tw) => (Err e, tw)
  | (Panic, tw) => (Panic, tw)
  end.
Definition sio {A : Type} (m : M A) : SM A := fun t w =>
  let '(r, w') := m w in (r, (t, w')).
Definition sget : SM ShareTask := fun t w => (Ok t, (t, w)).
Definition smod (f : ShareTask -> ShareTask) : SM unit := fun t w => (Ok tt, (f t, w)).
(** A method with [&mut self] on the membership log. *)
Definition sauth {A : Type} (f : AuthState -> outcome A * AuthState) : SM A := fun t w =>
  let '(r, a) := f (t_auth t) in (r, (set_auth a t, w)).
Definition sattempt {A : Type} (m : SM A) : SM (outcome A) := fun t w =>
  match m t w with
  | (Panic, tw) => (Panic, tw)
  | (r, tw) => (Ok r, tw)
  end.

Notation "'let*' x ':=' m 'in' k" := (sbind m (fun x => k))
  (at level 10, x pattern, m at level 100, k at level 200) : rust_scope.
Notation "m ;* k" := (sbind m (fun _ => k)) (at level 100, right associativity) : rust_scope.

(** ** Commands *)

Definition handle_invite (config : ShareConfig) (data_dir : path) (identity : bytes)
    (invitee : MemberId) (auth_role : AuthRole) (suggested_role : ShareRole) : SM string :=
  let group_id := group_id_for (sc_id config) in
  let* t := sget in
  if auth_is_empty (t_auth t) then sfail (EMsg "no auth state on disk") else
  if is_member (t_auth t) group_id invitee then sfail (EMsg "already a member") else
  sauth (add_member identity group_id invitee auth_role) ;*
  let* t := sget in
  sio (auth_save data_dir (sc_id config) (t_auth t)) ;*
  let exported := export_keys (t_key t) in
  slift (encode {| version := TICKET_VERSION; share_id := sc_id config; topic := sc_topic config;
                   tkeys := exported; auth_log := ops (t_auth t); invitee_pubkey := invitee;
                   role := suggested_role |}).

Definition handle_revoke (config : ShareConfig) (data_dir : path) (identity : bytes)
    (target : MemberId) : SM Z :=
  let group_id := group_id_for (sc_id config) in
  let* t := sget in
  if auth_is_empty (t_auth t) then sfail (EMsg "no auth state on disk") else
  if negb (is_member (t_auth t) group_id target) then sfail (EMsg "not a current member") else
  sauth (remove_member identity group_id target) ;*
  let* t := sget in
  sio (auth_save data_dir (sc_id config) (t_auth t)) ;*
  let remaining := sort_by id
    (base.filter (fun m => m <> target) ((members (t_auth t) group_id).*1)) in
  let* new_epoch := sio (rotate_keyring data_dir (sc_id config)) in
  let* ring := sio (load_or_create_keyring data_dir (sc_id config)) in
  let* new_key_bytes := slift (ok_or (EMsg "rotated keyring missing epoch")
    (key_for_epoch ring new_epoch)) in
  let* fresh := sio (load_or_create_keyring data_dir (sc_id config)) in
  smod (set_key fresh) ;*
  let* rotation_msg := sio (build_signed_rotation identity new_epoch new_key_bytes remaining) in
  sio (save_pending data_dir (sc_id config) rotation_msg) ;*
  smod (fun t => set_pending (t_pending t ++ [rotation_msg]) t) ;*
  sret new_epoch.

Definition handle_rotate_key (config : ShareConfig) (data_dir : path) : SM Z :=
  let* new_epoch := sio (rotate_keyring data_dir (sc_id config)) in
  let* fresh := sio (load_or_create_keyring data_dir (sc_id config)) in
  smod (set_key fresh) ;*
  sret new_epoch.

(** The flag tells whether the loop should exit. *)
Definition handle_share_command (cmd : ShareCommand) (config : ShareConfig) (data_dir : path)
    (identity : bytes) : SM (bool * Reply) :=
  match cmd with
  | CInvite invitee auth_role suggested_role =>
      let* r := sattempt (handle_invite config data_dir identity invitee auth_role suggested_role) in
      sret (false, RTicket r)
  | CRevoke target =>
      let* r := sattempt (handle_revoke config data_dir identity target) in
      sret (false, REpoch r)
  | CRotateKey =>
      let* r := sattempt (handle_rotate_key config data_dir) in
      sret (false, REpoch r)
  | CMembers =>
      let* t := sget in
      sret (false, RMembers (sort_by fst (members (t_auth t) (group_id_for (sc_id config)))))
  | CShutdown => sret (true, RDone)
  end.

(** ** Membership messages *)

Definition encode_ops (l : list SignedOp) : outcome (list bytes) :=
  foldr (fun op acc => try! b := op_encode op in try! r := acc in Ok (b :: r)) (Ok []) l.

Definition auth_announce_bytes (st : AuthState) : outcome bytes :=
  try! raw := encode_ops (ops st) in
  ok_or (EMsg "json") (json_to_vec (MAuthOps raw)).

(** The loop of [apply_auth_ops]: malformed and refused operations are
    logged and skipped. *)
Fixpoint apply_ops_loop (payload : list bytes) (applied : nat) (st : AuthState)
    : outcome nat * AuthState :=
  match payload with
  | [] => (Ok applied, st)
  | raw :: payload =>
      match op_decode raw with
      | Ok op =>
          match apply_remote op st with
          | (Ok true, st) => apply_ops_loop payload (S applied) st
          | (Panic, st) => (Panic, st)
          | (_, st) => apply_ops_loop payload applied st
          end
      | _ => apply_ops_loop payload applied st
      end
  end.

Definition apply_auth_ops (payload : list bytes) (data_dir : path) (share_id : string) : SM nat :=
  let* applied := sauth (apply_ops_loop payload 0) in
  (if (0 <? applied)%nat then
     let* t := sget in sio (ctx "persisting auth.log" (auth_save data_dir share_id (t_auth t)))
   else sret tt) ;*
  sret applied.

(** ** Key rotations *)

Definition try_install_rotation (rotation : SignedRotation) (group_id : MemberId)
    (identity : bytes) (data_dir : path) (share_id : string) : SM AppliedOrBuffered :=
  let* t := sget in
  match verify_and_decrypt rotation (t_auth t) group_id identity with
  | OkForUs new_key =>
      let* outcome := sio (ctx "installing rotation key"
        (install_epoch_key data_dir share_id (epoch rotation) new_key)) in
      match outcome with
      | Installed =>
          let* fresh := sio (ctx "reloading keyring" (load_or_create_keyring data_dir share_id)) in
          smod (set_key fresh) ;*
          sret ABApplied
      | Idempotent => sret ABIdempotent
      | Stale => sret ABStale
      | Gap _ _ => sret ABBuffered
      end
  | _ => sret ABIdempotent
  end.

Fixpoint drain_loop (fuel : nat) (group_id : MemberId) (identity : bytes) (data_dir : path)
    (share_id : string) : SM unit :=
  match fuel with
  | O => sret tt
  | S fuel =>
      let* t := sget in
      match sort_by epoch (t_buffer t) with
      | [] => sret tt
      | candidate :: rest =>
          smod (set_buffer rest) ;*
          let* r := sattempt (try_install_rotation candidate group_id identity data_dir share_id) in
          match r with
          | Ok ABBuffered => smod (set_buffer (buffer_push rest candidate))
          | _ => drain_loop fuel group_id identity data_dir share_id
          end
      end
  end.

(** Every turn that goes on removes an entry, so one more turn than entries
    is enough. *)
Definition drain_rotation_buffer (group_id : MemberId) (identity : bytes) (data_dir : path)
    (share_id : string) : SM unit :=
  let* t := sget in
  drain_loop (S (length (t_buffer t))) group_id identity data_dir share_id.

Definition apply_key_rotation (rotation : SignedRotation) (group_id : MemberId)
    (identity : bytes) (data_dir : path) (share_id : string) : SM unit :=
  let* r := try_install_rotation rotation group_id identity data_dir share_id in
  match r with
  | ABApplied => drain_rotation_buffer group_id identity data_dir share_id
  | ABIdempotent | ABStale => sret tt
  | ABBuffered => smod (fun t => set_buffer (buffer_push (t_buffer t) rotation) t)
  end.

(** ** Publishing: the payloads handed to gossip *)

Definition publish_sync_announce (s : ShareState) (bt_port : Z) : list bytes :=
  option_list (json_to_vec (MAnnounce (sync_announce s bt_port))).

Definition publish_auth_ops (st : AuthState) : list bytes :=
  if auth_is_empty st then [] else
  match auth_announce_bytes st with Ok b => [b] | _ => [] end.

Definition publish_pending_rotations (pending : list SignedRotation) : list bytes :=
  omap (fun rot => json_to_vec (MKeyRotation rot)) pending.
End daemon.

Notation "'let*' x ':=' m 'in' k" := (sbind m (fun x => k))
  (at level 10, x pattern, m at level 100, k at level 200) : rust_scope.
Notation "m ;* k" := (sbind m (fun _ => k)) (at level 100, right associativity) : rust_scope.

(** ** Lemmas: the task monad *)

Section lemmas.
Context `{MD : Metadata, Entropy, Blake3, Ed25519, !CryptoBox, Base64}.
Context `{!Bincode rotation_tuple, !BincodeTotal rotation_tuple, !Bincode SignedRotation}.
Context `{!Bincode canonical_tuple, !BincodeTotal canonical_tuple, !GroupCrdt}.
Context `{!Bincode SignedOp, !Bincode (list SignedOp), !Bincode Ticket, !Json ShareMsg}.

Lemma sbind_Ok {A B : Type} (m : SM A) (k : A -> SM B) t w b tw :
  sbind m k t w = (Ok b, tw) <->
  exists a t' w', m t w = (Ok a, (t', w')) /\ k a t' w' = (Ok b, tw).
Proof. unfold sbind. destruct (m t w) as [[a|e|] [t' w']]; naive_solver. Qed.

Lemma sbind_run {A B : Type} (m : SM A) (k : A -> SM B) t w a t' w' :
  m t w = (Ok a, (t', w')) -> sbind m k t w = k a t' w'.
Proof. intros E. unfold sbind. by rewrite E. Qed.

Lemma sget_run {B : Type} (k : ShareTask -> SM B) t w : sbind sget k t w = k t t w.
Proof. done. Qed.

Lemma smod_run {B : Type} f (k : unit -> SM B) t w : sbind (smod f) k t w = k tt (f t) w.
Proof. done. Qed.

Lemma sio_run {A B : Type} (m : M A) (k : A -> SM B) t w a w' :
  m w = (Ok a, w') -> sbind (sio m) k t w = k a t w'.
Proof. intros E. unfold sbind, sio. by rewrite E. Qed.

Lemma sio_Ok {A B : Type} (m : M A) (k : A -> SM B) t w b tw :
  sbind (sio m) k t w = (Ok b, tw) ->
  exists a w', m w = (Ok a, w') /\ k a t w' = (Ok b, tw).
Proof. unfold sbind, sio. destruct (m w) as [[a|e|] w']; naive_solver. Qed.

Lemma slift_Ok {A B : Type} (r : outcome A) (k : A -> SM B) t w b tw :
  sbind (slift r) k t w = (Ok b, tw) -> exists a, r = Ok a /\ k a t w = (Ok b, tw).
Proof. unfold sbind, slift. destruct r; naive_solver. Qed.

Lemma sauth_Ok {A B : Type} (f : AuthState -> outcome A * AuthState) (k : A -> SM B) t w b tw :
  sbind (sauth f) k t w = (Ok b, tw) ->
  exists a st, f (t_auth t) = (Ok a, st) /\ k a (set_auth st t) w = (Ok b, tw).
Proof. unfold sbind, sauth. destruct (f (t_auth t)) as [[a|e|] st]; naive_solver. Qed.

(** A relation between the task before and after, for every outcome. *)
Definition always {A : Type} (R : ShareTask -> ShareTask -> Prop) (m : SM A) : Prop :=
  forall t w, R t (snd (m t w)).1.

Section always.
Context (R : ShareTask -> ShareTask -> Prop) `{!PreOrder R}.

Lemma always_sbind {A B : Type} (m : SM A) (k : A -> SM B) :
  always R m -> (forall a, always R (k a)) -> always R (sbind m k).
Proof.
  intros Hm Hk t w. specialize (Hm t w). unfold sbind.
  destruct (m t w) as [[a|e|] [t' w']]; simpl in *; try done. etrans; [done|apply Hk].
Qed.

(** The continuation may use what the prefix read. *)
Lemma always_sget {B : Type} (k : ShareTask -> SM B) :
  (forall t w, R t (snd (k t t w)).1) -> always R (sbind sget k).
Proof. intros Hk t w. apply Hk. Qed.

Lemma always_same {A : Type} (m : SM A) : (forall t w, (snd (m t w)).1 = t) -> always R m.
Proof. intros Hm t w. rewrite Hm. reflexivity. Qed.

Lemma always_sio {A : Type} (m : M A) : always R (sio m).
Proof. apply always_same. intros t w. unfold sio. by destruct (m w). Qed.

Lemma always_sattempt {A : Type} (m : SM A) : always R m -> always R (sattempt m).
Proof.
  intros Hm t w. specialize (Hm t w). unfold sattempt. by destruct (m t w) as [[a|e|] [t' w']].
Qed.
End always.

(** *** The buffer *)

Definition buffer_ok (buf : list SignedRotation) : Prop :=
  (length buf <= ROTATION_BUFFER_CAP)%nat /\ NoDup (epoch <$> buf).

Lemma epoch_fresh buf rot :
  existsb (fun r => bool_decide (epoch r = epoch rot)) buf = false <-> epoch rot ∉ epoch <$> buf.
Proof.
  split.
  - intros Hx Hin. apply list_elem_of_fmap in Hin as (r & E & Hr).
    assert (existsb (fun r => bool_decide (epoch r = epoch rot)) buf = true); [|congruence].
    apply existsb_exists. exists r. split; [by apply list_elem_of_In|]. by apply bool_decide_true.
  - intros Hn. apply not_true_iff_false. intros Hx. apply existsb_exists in Hx as (r & Hr & E).
    apply bool_decide_eq_true in E. apply Hn, list_elem_of_fmap. exists r.
    split; [done|]. by apply list_elem_of_In.
Qed.

Lemma buffer_push_room buf rot :
  epoch rot ∉ epoch <$> buf -> (length buf < ROTATION_BUFFER_CAP)%nat ->
  buffer_push buf rot = buf ++ [rot].
Proof.
  intros Hn Hl. unfold buffer_push. rewrite (proj2 (epoch_fresh buf rot) Hn).
  by rewrite (proj2 (Nat.leb_gt _ _) Hl).
Qed.

Lemma buffer_push_ok buf rot : buffer_ok buf -> buffer_ok (buffer_push buf rot).
Proof.
  intros [Hl Hn]. unfold buffer_push. destruct (existsb _ _) eqn:E; [done|].
  apply epoch_fresh in E. cbv zeta. destruct (Nat.leb_spec ROTATION_BUFFER_CAP (length buf)).
  - pose proof (sort_by_perm epoch buf) as Hp. split.
    + rewrite length_app, length_drop, Hp. simpl. unfold ROTATION_BUFFER_CAP in *. lia.
    + rewrite fmap_app. apply NoDup_app.
      assert (NoDup (epoch <$> sort_by epoch buf)) as Hs by by rewrite Hp.
      split.
      { rewrite <- (take_drop 1 (sort_by epoch buf)), fmap_app in Hs.
        by apply NoDup_app in Hs as (_ & _ & Hs). }
      split; [|apply NoDup_singleton]. intros x Hx Hx'. apply list_elem_of_singleton in Hx' as ->.
      apply E. rewrite <- Hp. rewrite fmap_drop in Hx.
      eapply elem_of_submseteq; [exact Hx|]. apply sublist_submseteq, sublist_drop.
  - split.
    + rewrite length_app. simpl. lia.
    + rewrite fmap_app. apply NoDup_app. split; [done|]. split; [|apply NoDup_singleton].
      intros x Hx Hx'. apply list_elem_of_singleton in Hx' as ->. done.
Qed.

Lemma buffer_rest_ok buf c rest :
  buffer_ok buf -> sort_by epoch buf = c :: rest -> buffer_ok rest.
Proof.
  intros [Hl Hn] E. pose proof (sort_by_perm epoch buf) as Hp. rewrite E in Hp. split.
  - rewrite <- Hp in Hl. simpl in Hl. lia.
  - rewrite <- Hp in Hn. by apply NoDup_cons in Hn as [_ Hn].
Qed.

Definition keeps_buffer (t t' : ShareTask) : Prop := buffer_ok (t_buffer t) -> buffer_ok (t_buffer t').

#[local] Instance keeps_buffer_preorder : PreOrder keeps_buffer.
Proof. unfold keeps_buffer. split; red; auto. Qed.

Lemma always_smod_buffer f :
  (forall t, t_buffer (f t) = t_buffer t) -> always keeps_buffer (smod f).
Proof. intros Hf t w. unfold keeps_buffer. simpl. by rewrite Hf. Qed.

Lemma always_ret {A : Type} (a : A) : always keeps_buffer (sret a).
Proof. by apply always_same; [apply _|]. Qed.

(** *** What whole operations leave alone *)

Definition only_key (t t' : ShareTask) : Prop :=
  t_auth t' = t_auth t /\ t_pending t' = t_pending t /\ t_buffer t' = t_buffer t.

#[local] Instance only_key_preorder : PreOrder only_key.
Proof. unfold only_key. split; red; [done|]. intros t1 t2 t3 (-> & -> & ->) (-> & -> & ->). done. Qed.

Lemma try_install_only_key rot g id0 dd sid : always only_key (try_install_rotation rot g id0 dd sid).
Proof.
  unfold try_install_rotation. apply always_sget. intros t w.
  destruct (verify_and_decrypt _ _ _ _) as [k| | | |]; [|done..].
  refine (always_sbind only_key (A := InstallOutcome) _ _ _ _ t w); [by apply always_sio, _|].
  intros [| | |]; [|by apply always_same; [apply _|]..].
  apply always_sbind; [apply _|by apply always_sio, _|]. intros fresh.
  apply always_sbind; [apply _|by intros ??|]. intros _. by apply always_same; [apply _|].
Qed.

Lemma drain_keeps fuel g id0 dd sid : always keeps_buffer (drain_loop fuel g id0 dd sid).
Proof.
  induction fuel as [|fuel IH]; cbn [drain_loop]; [apply always_ret|].
  apply always_sget. intros t w. destruct (sort_by epoch (t_buffer t)) as [|c rest] eqn:E; [done|].
  rewrite smod_run. intros Hok. pose proof (buffer_rest_ok _ _ _ Hok E) as Hrest.
  refine (always_sbind keeps_buffer _ _ _ _ (set_buffer rest t) w Hrest).
  - apply always_sattempt. intros t1 w1 Hb. pose proof (try_install_only_key c g id0 dd sid t1 w1) as (_ & _ & ->).
    done.
  - intros [[| | |]|e|]; try exact IH. intros t1 w1 _. simpl. by apply buffer_push_ok.
Qed.

Lemma apply_key_rotation_keeps rot g id0 dd sid :
  always keeps_buffer (apply_key_rotation rot g id0 dd sid).
Proof.
  unfold apply_key_rotation. apply always_sbind; [apply _| |].
  - intros t1 w1 Hb. pose proof (try_install_only_key rot g id0 dd sid t1 w1) as (_ & _ & ->). done.
  - intros [| | |]; try apply always_ret.
    + unfold drain_rotation_buffer. apply always_sget. intros t w. apply drain_keeps.
    + intros t w Hb. simpl. by apply buffer_push_ok.
Qed.

(** *** Catching up with the epochs *)

Lemma filter_all {A : Type} (P : A -> Prop) `{!forall x, Decision (P x)} (l : list A) :
  Forall P l -> base.filter P l = l.
Proof. induction 1 as [|x l Hx _ IH]; [done|]. by rewrite filter_cons_True, IH. Qed.

Section catch_up.
Context (g : MemberId) (me : bytes) (dd : path) (sid : string) (st : AuthState) (ek : Z -> Key).

(** A rotation this peer accepts under [st]; [ek] is the key of each epoch. *)
Definition genuine (rot : SignedRotation) : Prop :=
  verify_and_decrypt rot st g me = OkForUs (ek (epoch rot)).

Lemma genuine_length rot : genuine rot -> length (ek (epoch rot)) = KEY_LEN.
Proof. unfold genuine. rewrite verify_iff. inversion 1 as [| | | |e k ? ? ? [? ?]]. done. Qed.

(** A working disk whose keyring is [r]. *)
Record working (w : world) (r : KeyRing) : Prop := {
  wk_faults : w_faults w = [];
  wk_ready : share_ready dd sid (w_fs w);
  wk_ring : disk_ring dd sid (w_fs w) = Some r;
}.

Lemma working_load w r : working w r -> load_or_create_keyring dd sid w = (Ok r, w).
Proof.
  intros [Hf _ Hr]. apply disk_ring_data in Hr as [Hw Hd].
  by rewrite (load_keyring_run dd sid w _ Hf Hd), parse_ring_bytes.
Qed.

Lemma try_install_run rot t w r :
  t_auth t = st -> genuine rot -> working w r ->
  let res := try_install_rotation rot g me dd sid t w in
  let n := current_epoch r in
  (epoch rot = n + 1 -> exists w', working w' (push_key r (ek (n + 1))) /\
     res = (Ok ABApplied, (set_key (push_key r (ek (n + 1))) t, w'))) /\
  (n + 1 < epoch rot -> res = (Ok ABBuffered, (t, w))) /\
  (epoch rot < n -> res = (Ok ABStale, (t, w))) /\
  (epoch rot = n -> key_for_epoch r n = Some (ek n) -> res = (Ok ABIdempotent, (t, w))).
Proof.
  intros Hst Hg Hw. pose proof (genuine_length rot Hg) as Hl.
  destruct (install_epoch_key_run dd sid w r (epoch rot) (ek (epoch rot))) as (R1 & R2 & R3 & R4 & R5);
    [apply Hw..|done|].
  assert (forall o w1, install_epoch_key dd sid (epoch rot) (ek (epoch rot)) w = (Ok o, w1) ->
    try_install_rotation rot g me dd sid t w =
    match o with
    | Installed =>
        sbind (sio (ctx "reloading keyring" (load_or_create_keyring dd sid)))
          (fun fresh => smod (set_key fresh) ;* sret ABApplied) t w1
    | Idempotent => (Ok ABIdempotent, (t, w1))
    | Stale => (Ok ABStale, (t, w1))
    | Gap _ _ => (Ok ABBuffered, (t, w1))
    end) as Hstep.
  { intros o w1 E. unfold try_install_rotation. rewrite sget_run, Hst, Hg.
    rewrite (sio_run _ _ _ _ o w1) by by apply ctx_Ok. by destruct o. }
  cbv zeta. split; [|split; [|split]].
  - intros He. destruct (R5 He) as (fs' & E & Hd & Hrd). rewrite He in Hd.
    assert (working (set_fs fs' w) (push_key r (ek (current_epoch r + 1)))) as Hw'
      by (split; [apply Hw|done..]).
    exists (set_fs fs' w). split; [done|]. rewrite (Hstep _ _ E).
    rewrite (sio_run _ _ _ _ (push_key r (ek (current_epoch r + 1))) (set_fs fs' w)); [done|].
    apply ctx_Ok. by apply working_load.
  - intros He. by rewrite (Hstep _ _ (R4 He)).
  - intros He. by rewrite (Hstep _ _ (R3 He)).
  - intros He Hk. rewrite <- He in Hk at 2. by rewrite (Hstep _ _ (R1 He Hk)).
Qed.

(** The ring [r], continued up to epoch [m]. *)
Definition ring_to (r : KeyRing) (m : Z) : KeyRing :=
  {| keys := keys r ++ (ek <$> seqZ (current_epoch r + 1) (m - current_epoch r)) |}.

Lemma ring_to_self r : ring_to r (current_epoch r) = r.
Proof.
  unfold ring_to. rewrite Z.sub_diag. simpl. rewrite app_nil_r. by destruct r.
Qed.

Lemma ring_to_push r m :
  current_epoch r + 1 <= m -> ring_to (push_key r (ek (current_epoch r + 1))) m = ring_to r m.
Proof.
  intros Hm. unfold ring_to. rewrite current_epoch_push. simpl. rewrite <- app_assoc.
  do 2 f_equal. rewrite (seqZ_cons (current_epoch r + 1)) by lia.
  rewrite fmap_cons. simpl. do 3 f_equal; lia.
Qed.

Lemma ring_to_epoch r m : current_epoch r <= m -> current_epoch (ring_to r m) = m.
Proof.
  intros Hm. unfold ring_to, current_epoch in *. simpl.
  rewrite length_app, length_fmap, length_seqZ. lia.
Qed.

Lemma ring_to_next r m :
  current_epoch r <= m -> push_key (ring_to r m) (ek (m + 1)) = ring_to r (m + 1).
Proof.
  intros Hm. unfold push_key, ring_to. simpl. rewrite <- app_assoc. do 2 f_equal.
  replace (m + 1 - current_epoch r) with (m - current_epoch r + 1) by lia.
  rewrite seqZ_app by lia. rewrite fmap_app. f_equal.
  replace (current_epoch r + 1 + (m - current_epoch r)) with (m + 1) by lia. done.
Qed.

Lemma ring_to_last r m :
  current_epoch r < m -> key_for_epoch (ring_to r m) m = Some (ek m).
Proof.
  intros Hm. assert (current_epoch (ring_to r (m - 1)) = m - 1) as E by (apply ring_to_epoch; lia).
  pose proof (key_for_epoch_push (ring_to r (m - 1)) (ek (m - 1 + 1))) as Hk.
  rewrite ring_to_next, E in Hk by lia. replace (m - 1 + 1) with m in Hk by lia. done.
Qed.

Definition drained (t : ShareTask) (r : KeyRing) (m : Z) (t' : ShareTask) (w' : world) : Prop :=
  current_epoch r <= m /\ working w' (ring_to r m) /\
  t_key t' = ring_to r m /\ t_auth t' = t_auth t /\ t_pending t' = t_pending t /\
  t_buffer t' ≡ₚ base.filter (fun x => m < epoch x) (t_buffer t) /\
  m + 1 ∉ epoch <$> t_buffer t /\
  (forall e, current_epoch r < e <= m -> e ∈ epoch <$> t_buffer t).

Lemma drain_run fuel t w r :
  (length (t_buffer t) < fuel)%nat -> t_auth t = st -> t_key t = r -> working w r ->
  buffer_ok (t_buffer t) -> Forall genuine (t_buffer t) ->
  (forall x, x ∈ t_buffer t -> current_epoch r < epoch x) ->
  exists m t' w', drain_loop fuel g me dd sid t w = (Ok tt, (t', w')) /\ drained t r m t' w'.
Proof.
  revert t w r. induction fuel as [|fuel IH]; intros t w r Hfuel Hst Hk Hw Hok Hgen Hgt; [lia|].
  cbn [drain_loop]. rewrite sget_run. pose proof (sort_by_perm epoch (t_buffer t)) as Hp.
  destruct (sort_by epoch (t_buffer t)) as [|c rest] eqn:E.
  { exists (current_epoch r), t, w. split; [done|]. apply Permutation_nil in Hp.
    unfold drained. rewrite ring_to_self, Hp. split; [done|]. do 4 (split; [done|]).
    split; [done|]. split; [set_solver|]. lia. }
  rewrite smod_run. pose proof (buffer_rest_ok _ _ _ Hok E) as Hrest.
  assert (NoDup (epoch <$> c :: rest)) as Hnd by (rewrite Hp; apply Hok).
  rewrite fmap_cons in Hnd. apply NoDup_cons in Hnd as [Hc Hnd].
  assert (forall e, e ∈ epoch <$> t_buffer t <-> e = epoch c \/ e ∈ epoch <$> rest) as Hin
    by (intros e; by rewrite <- Hp, fmap_cons, elem_of_cons).
  assert (genuine c /\ Forall genuine rest) as [Hgc Hgr]
    by (rewrite <- Hp in Hgen; by apply Forall_cons in Hgen).
  assert (current_epoch r < epoch c) as Hec by (apply Hgt; rewrite <- Hp; set_solver).
  destruct (try_install_run c (set_buffer rest t) w r Hst Hgc Hw) as (R1 & R2 & _ & _).
  destruct (decide (epoch c = current_epoch r + 1)) as [He|He].
  - destruct (R1 He) as (w1 & Hw1 & E1).
    rewrite (sbind_run _ _ _ _ (Ok ABApplied) _ _) by (unfold sattempt; by rewrite E1).
    set (t1 := set_key _ _). set (r1 := push_key r (ek (current_epoch r + 1))) in *.
    destruct (IH t1 w1 r1) as (m & t' & w' & Hrun & Hm & Hw' & Hk' & Ha' & Hp' & Hb' & Hn' & Hall').
    { rewrite <- Hp in Hfuel. simpl in *. lia. }
    1-5: done.
    { intros x Hx. unfold r1. rewrite current_epoch_push. simpl in Hx.
      assert (epoch x <> epoch c) as Hne
        by (intros Ex; apply Hc; rewrite <- Ex; apply list_elem_of_fmap; eauto).
      assert (current_epoch r < epoch x) by (apply Hgt; rewrite <- Hp; set_solver). lia. }
    exists m, t', w'. split; [exact Hrun|]. unfold r1 in *. rewrite current_epoch_push in Hm, Hall'.
    rewrite ring_to_push in * by lia. simpl in *. unfold drained. split; [lia|].
    do 4 (split; [done|]). split; [|split].
    + rewrite <- Hp, filter_cons_False by lia. done.
    + rewrite Hin. intros [Hx|Hx]; [lia|done].
    + intros e Hr. apply Hin. destruct (decide (e = epoch c)); [by left|].
      right. apply Hall'. lia.
  - assert (Hg : current_epoch r + 1 < epoch c) by lia.
    rewrite (sbind_run _ _ _ _ (Ok ABBuffered) (set_buffer rest t) w)
      by (unfold sattempt; by rewrite (R2 Hg)).
    rewrite buffer_push_room; [|done|].
    2: { destruct Hok as [Hlen _]. rewrite <- Hp in Hlen. simpl in Hlen. lia. }
    exists (current_epoch r), (set_buffer (rest ++ [c]) t), w. split; [done|].
    unfold drained. rewrite ring_to_self. simpl. split; [done|]. do 4 (split; [done|]).
    assert (forall x, x ∈ t_buffer t -> epoch c <= epoch x) as Hmin.
    { intros x Hx. destruct (sort_by_head epoch c (t_buffer t) rest E) as [_ Hle].
      apply Hle in Hx. by apply Z.leb_le in Hx. }
    split; [|split; [|lia]].
    + rewrite filter_all by (rewrite Forall_forall; exact Hgt).
      rewrite <- Hp. symmetry. apply Permutation_cons_append.
    + intros (x & Ex & Hx)%list_elem_of_fmap. apply Hmin in Hx. lia.
Qed.

(** The task after it has been sent the epochs [S], in whatever order. *)
Definition caught (r0 : KeyRing) (t0 : ShareTask) (S : list Z) (t : ShareTask) (w : world) : Prop :=
  exists m, current_epoch r0 <= m /\ working w (ring_to r0 m) /\ t_key t = ring_to r0 m /\
  t_auth t = t_auth t0 /\ t_pending t = t_pending t0 /\ buffer_ok (t_buffer t) /\
  Forall genuine (t_buffer t) /\
  (forall e, e ∈ epoch <$> t_buffer t <-> e ∈ S /\ m < e) /\
  m + 1 ∉ S /\ (forall e, current_epoch r0 < e <= m -> e ∈ S).

(** Each rotation handled as it arrives. *)
Fixpoint deliver_rotations (l : list SignedRotation) : SM unit :=
  match l with
  | [] => sret tt
  | rot :: l => apply_key_rotation rot g me dd sid ;* deliver_rotations l
  end.

Lemma elem_of_epochs (l : list SignedRotation) m e :
  e ∈ epoch <$> base.filter (fun x => m < epoch x) l <-> e ∈ epoch <$> l /\ m < e.
Proof.
  rewrite !list_elem_of_fmap. setoid_rewrite list_elem_of_filter. naive_solver.
Qed.

Lemma epochs_bound (l : list Z) (a : Z) (k : nat) :
  NoDup l -> (forall e, e ∈ l -> a <= e < a + Z.of_nat k) -> (length l <= k)%nat.
Proof.
  intros Hnd Hl. rewrite <- (Nat2Z.id k), <- (length_seqZ a).
  apply submseteq_length, NoDup_submseteq; [done|]. intros e He. apply elem_of_seqZ. auto.
Qed.

Lemma caught_step r0 t0 S t w rot :
  caught r0 t0 S t w -> t_auth t0 = st -> genuine rot ->
  (forall e, e ∈ S -> current_epoch r0 < e <= current_epoch r0 + Z.of_nat ROTATION_BUFFER_CAP) ->
  current_epoch r0 < epoch rot <= current_epoch r0 + Z.of_nat ROTATION_BUFFER_CAP ->
  exists t' w', apply_key_rotation rot g me dd sid t w = (Ok tt, (t', w')) /\
    caught r0 t0 (epoch rot :: S) t' w'.
Proof.
  intros (m & Hm & Hw & Hk & Ha & Hp & Hok & Hgen & Hb & Hn & Hall) Hst Hg HS Hr.
  destruct (try_install_run rot t w _ (eq_trans Ha Hst) Hg Hw) as (R1 & R2 & R3 & R4).
  rewrite ring_to_epoch in R1, R2, R3, R4 by done. unfold apply_key_rotation.
  destruct (decide (epoch rot = m + 1)) as [He|He]; [|destruct (decide (m + 1 < epoch rot)) as [Hgap|Hold]].
  - destruct (R1 He) as (w1 & Hw1 & E1). rewrite (sbind_run _ _ _ _ _ _ _ E1).
    unfold drain_rotation_buffer. rewrite sget_run. rewrite ring_to_next in * by done.
    destruct (drain_run (Datatypes.S (length (t_buffer t))) (set_key (ring_to r0 (m + 1)) t) w1 (ring_to r0 (m + 1)))
      as (m' & t' & w' & Hrun & Hm' & Hw' & Hk' & Ha' & Hp' & Hb' & Hn' & Hall').
    { simpl. lia. } { simpl. congruence. } { done. } { done. } { done. } { done. }
    { simpl. intros x Hx. rewrite ring_to_epoch by lia.
      destruct (proj1 (Hb (epoch x))) as [Hxs Hxm]; [apply list_elem_of_fmap; eauto|].
      assert (epoch x <> m + 1) by (intros E; by rewrite E in Hxs). lia. }
    rewrite ring_to_epoch in Hm', Hall' by lia. simpl in Hb', Hn', Hall', Ha', Hp'.
    assert (ring_to (ring_to r0 (m + 1)) m' = ring_to r0 m') as Erg.
    { unfold ring_to at 1. rewrite ring_to_epoch by lia. unfold ring_to. simpl. rewrite <- app_assoc.
      do 2 f_equal. rewrite <- fmap_app. f_equal.
      replace (m' - current_epoch r0) with ((m + 1 - current_epoch r0) + (m' - (m + 1))) by lia.
      rewrite seqZ_app by lia. f_equal. f_equal. lia. }
    rewrite Erg in *. exists t', w'. split; [exact Hrun|]. exists m'. split; [lia|].
    do 2 (split; [done|]). split; [congruence|]. split; [congruence|].
    pose proof (drain_keeps (Datatypes.S (length (t_buffer t))) g me dd sid
      (set_key (ring_to r0 (m + 1)) t) w1 Hok) as Hok'. rewrite Hrun in Hok'.
    split; [exact Hok'|]. split.
    { apply Forall_forall. intros x Hx. rewrite Hb', list_elem_of_filter in Hx.
      rewrite Forall_forall in Hgen. by apply Hgen, Hx. }
    split; [|split].
    + intros e. rewrite Hb', elem_of_epochs, Hb, elem_of_cons. split; [tauto|].
      intros [[->|?] ?]; [lia|]. split; [split; [done|lia]|done].
    + rewrite elem_of_cons. intros [E|Hin]; [lia|]. apply Hn', Hb. split; [done|lia].
    + intros e Hre. rewrite elem_of_cons. destruct (decide (e = epoch rot)); [by left|right].
      destruct (decide (e <= m)); [apply Hall; lia|]. apply Hb, Hall'. lia.
  - rewrite (sbind_run _ _ _ _ _ _ _ (R2 Hgap)).
    exists (set_buffer (buffer_push (t_buffer t) rot) t), w. split; [done|]. exists m.
    do 3 (split; [done|]). do 2 (split; [done|]). simpl.
    assert ((epoch rot ∈ epoch <$> t_buffer t /\ buffer_push (t_buffer t) rot = t_buffer t) \/
      buffer_push (t_buffer t) rot = t_buffer t ++ [rot]) as Hpush.
    { destruct (decide (epoch rot ∈ epoch <$> t_buffer t)) as [Hin|Hin].
      - left. split; [done|]. unfold buffer_push. destruct (existsb _ _) eqn:Ex; [done|].
        by apply epoch_fresh in Ex.
      - right. apply buffer_push_room; [done|]. destruct Hok as [_ Hnd].
        assert (length (epoch rot :: (epoch <$> t_buffer t)) <= 63)%nat as Hlen.
        { apply (epochs_bound _ (m + 2)); [by constructor|]. unfold ROTATION_BUFFER_CAP in *.
          intros e [->|He']%elem_of_cons; [lia|]. apply Hb in He' as [HeS Hem]. pose proof (HS e HeS).
          assert (e <> m + 1) by (intros ->; done). lia. }
        simpl in Hlen. rewrite length_fmap in Hlen. unfold ROTATION_BUFFER_CAP. lia. }
    split; [by apply buffer_push_ok|]. split; [|split; [|split]].
    + destruct Hpush as [[_ ->]| ->]; [done|]. apply Forall_app. split; [done|]. by constructor.
    + intros e. rewrite elem_of_cons. destruct Hpush as [[Hin ->]| ->].
      * rewrite Hb. apply Hb in Hin. split; [tauto|]. by intros [[->|?] ?].
      * rewrite fmap_app, elem_of_app, Hb. simpl. rewrite list_elem_of_singleton. split.
        -- intros [[? ?]| ->]; [tauto|]. split; [by left|lia].
        -- intros [[->|?] ?]; [by right|by left].
    + rewrite elem_of_cons. intros [E|?]; [lia|done].
    + intros e Hre. apply elem_of_cons. right. by apply Hall.
  - assert (apply_key_rotation rot g me dd sid t w = (Ok tt, (t, w))) as Hsame.
    { unfold apply_key_rotation. destruct (decide (epoch rot = m)) as [Hem|].
      - rewrite (sbind_run _ _ _ _ _ _ _ (R4 Hem (ring_to_last r0 m ltac:(lia)))). done.
      - rewrite (sbind_run _ _ _ _ _ _ _ (R3 ltac:(lia))). done. }
    exists t, w. split; [exact Hsame|]. exists m. do 5 (split; [done|]). split; [done|].
    split; [done|]. split; [|split].
    + intros e. rewrite Hb, elem_of_cons. split; [tauto|]. intros [[->|?] ?]; [lia|done].
    + rewrite elem_of_cons. intros [E|?]; [lia|done].
    + intros e Hre. apply elem_of_cons. right. by apply Hall.
Qed.

Lemma caught_all r0 t0 S t w l :
  caught r0 t0 S t w -> t_auth t0 = st -> Forall genuine l ->
  (forall e, e ∈ S -> current_epoch r0 < e <= current_epoch r0 + Z.of_nat ROTATION_BUFFER_CAP) ->
  (forall e, e ∈ epoch <$> l ->
     current_epoch r0 < e <= current_epoch r0 + Z.of_nat ROTATION_BUFFER_CAP) ->
  exists t' w' S', deliver_rotations l t w = (Ok tt, (t', w')) /\
    caught r0 t0 S' t' w' /\ forall e, e ∈ S' <-> e ∈ S \/ e ∈ epoch <$> l.
Proof.
  revert S t w. induction l as [|rot l IH]; intros S t w Hc Hst Hg HS Hl.
  { exists t, w, S. split; [done|]. split; [done|]. intros e. simpl. rewrite elem_of_nil. tauto. }
  apply Forall_cons in Hg as [Hg Hgl]. rewrite fmap_cons in Hl.
  destruct (caught_step r0 t0 S t w rot) as (t1 & w1 & E1 & Hc1); try done.
  { apply Hl. by left. }
  destruct (IH (epoch rot :: S) t1 w1) as (t' & w' & S' & E' & Hc' & HS'); try done.
  { intros e [->|He]%elem_of_cons; [apply Hl; by left|by apply HS]. }
  { intros e He. apply Hl. by right. }
  exists t', w', S'. cbn [deliver_rotations]. rewrite (sbind_run _ _ _ _ _ _ _ E1).
  split; [done|]. split; [done|]. intros e. rewrite HS', fmap_cons, !elem_of_cons. tauto.
Qed.

Lemma caught_start t w :
  working w (t_key t) -> t_buffer t = [] -> caught (t_key t) t [] t w.
Proof.
  intros Hw Hb. exists (current_epoch (t_key t)). rewrite ring_to_self, Hb.
  split; [done|]. do 4 (split; [done|]). split; [by split; [simpl; lia|constructor]|].
  split; [constructor|]. split; [|split; [apply not_elem_of_nil|lia]].
  intros e. simpl. rewrite elem_of_nil. tauto.
Qed.
End catch_up.
End lemmas.

(** ** Lemmas: commands *)

Section commands.
Context `{MD : Metadata, Entropy, Blake3, Ed25519, !CryptoBox, Base64}.
Context `{!Bincode rotation_tuple, !BincodeTotal rotation_tuple, !Bincode SignedRotation}.
Context `{!Bincode canonical_tuple, !BincodeTotal canonical_tuple, !GroupCrdt}.
Context `{!Bincode SignedOp, !Bincode (list SignedOp), !Bincode Ticket, !Json ShareMsg}.

Lemma auth_save_ring dd sid st w w' :
  auth_save dd sid st w = (Ok tt, w') -> disk_ring dd sid (w_fs w') = disk_ring dd sid (w_fs w).
Proof.
  intros Hs. pose proof (disk_ring_touches _ _ dd sid w (auth_save_touches dd sid st)) as Hd.
  rewrite Hs in Hd. apply Hd. unfold auth_file, auth_tmp, kfile. by intros [[=]%app_inv_head|[=]%app_inv_head].
Qed.

Lemma auth_save_Ok dd sid st w w' :
  auth_save dd sid st w = (Ok tt, w') ->
  exists raw, bin_encode (ops st) = Some raw /\ data_at (w_fs w') (auth_log_path dd sid) = Some raw.
Proof.
  intros Hs. destruct (bin_encode (ops st)) as [raw|] eqn:E.
  - exists raw. split; [done|]. destruct (auth_save_write_atomic dd sid st raw w E) as [Hw Ho].
    rewrite Hs in Hw, Ho. simpl in *. destruct Ho as [Ho _]. specialize (Ho eq_refl).
    destruct (write_atomic _ _ _ _ _ w) as [o w1] eqn:Ew. simpl in *. subst.
    apply write_atomic_Ok in Ew as [Hd _]. by rewrite auth_log_path_eq.
  - unfold auth_save in Hs. cbv zeta in Hs. rewrite E in Hs. inv_ok.
Qed.

Lemma save_pending_ring dd sid rot w w' :
  save_pending dd sid rot w = (Ok tt, w') -> disk_ring dd sid (w_fs w') = disk_ring dd sid (w_fs w).
Proof.
  intros Hs. destruct (bin_encode rot) as [raw|] eqn:E.
  - destruct (save_pending_run_eq dd sid rot raw w E) as [Hw _]. rewrite Hs in Hw. simpl in Hw.
    rewrite Hw. eapply disk_ring_touches; [apply write_atomic_touches|].
    unfold kfile, pfile, ptmp, pdir. rewrite <- !app_assoc.
    by intros [[=]%app_inv_head|[=]%app_inv_head].
  - unfold save_pending in Hs. cbv zeta in Hs. rewrite E in Hs. inv_ok.
Qed.

Lemma elem_of_remaining (l : list MemberId) (target m : MemberId) :
  m ∈ sort_by id (base.filter (fun m => m <> target) l) <-> m ∈ l /\ m <> target.
Proof. rewrite elem_of_sort_by, list_elem_of_filter. tauto. Qed.

(** The rotation of a revocation, as its receivers see it. *)
Lemma build_verifies sk ep k rs w rot w' st g :
  length k = KEY_LEN -> build_signed_rotation sk ep k rs w = (Ok rot, w') ->
  (public_key sk, Owner) ∈ members st g ->
  forall me, (public_key me ∈ rs -> verify_and_decrypt rot st g me = OkForUs k) /\
             (public_key me ∉ rs -> verify_and_decrypt rot st g me = NotForUs).
Proof.
  intros Hk (Hsig & Hpk & _ & Hrec & Hse & _)%build_Ok Hown me.
  assert (rotator_owns rot st g) as Ho by (unfold rotator_owns; by rewrite Hpk).
  split; intros Hin; apply verify_iff.
  - destruct (my_envelope_exists rot (public_key me)) as (env & Henv & Hmem).
    { rewrite Hrec. by apply elem_of_recipients. }
    eapply VS_ok; [done|done|exact Henv|]. apply opens_sealed; [done| |].
    + destruct Henv as (? & ? & _ & ? & _). done.
    + rewrite Forall_forall in Hse. by apply Hse.
  - apply VS_none; [done|done|]. apply Forall_forall. intros env Henv E. apply Hin.
    apply elem_of_recipients. rewrite <- Hrec, <- E. by apply list_elem_of_fmap_2.
Qed.

Lemma handle_revoke_Ok `{!KeysSighted} config dd identity target t w e t' w' :
  handle_revoke config dd identity target t w = (Ok e, (t', w')) ->
  let sid := sc_id config in
  let g := group_id_for sid in
  exists op rot k wb wb',
    remove_member identity g target (t_auth t) = (Ok op, t_auth t') /\
    is_member (t_auth t) g target = true /\
    t_pending t' = t_pending t ++ [rot] /\ t_buffer t' = t_buffer t /\
    length k = KEY_LEN /\ e = current_epoch (t_key t') /\
    key_for_epoch (t_key t') e = Some k /\
    disk_ring dd sid (w_fs w') = Some (t_key t') /\
    (forall r, disk_ring dd sid (w_fs w) = Some r -> t_key t' = push_key r k) /\
    build_signed_rotation identity e k
      (sort_by id (base.filter (fun m => m <> target) ((members (t_auth t') g).*1))) wb = (Ok rot, wb').
Proof.
  intros Hr. cbv zeta. unfold handle_revoke in Hr. rewrite sget_run in Hr.
  destruct (auth_is_empty (t_auth t)); [done|].
  destruct (is_member _ _ target) eqn:Em; [|done]. simpl negb in Hr. cbv iota in Hr.
  apply sauth_Ok in Hr as (op & st & Hrm & Hr). rewrite sget_run in Hr.
  apply sio_Ok in Hr as ([] & w1 & Hsv & Hr).
  apply sio_Ok in Hr as (ne & w2 & Hrot & Hr).
  apply sio_Ok in Hr as (ring & w3 & Hl1 & Hr).
  apply slift_Ok in Hr as (nk & Hnk & Hr).
  apply sio_Ok in Hr as (fresh & w4 & Hl2 & Hr). rewrite smod_run in Hr.
  apply sio_Ok in Hr as (rot & w5 & Hb & Hr).
  apply sio_Ok in Hr as ([] & w6 & Hsp & Hr). rewrite smod_run in Hr.
  injection Hr as -> <- <-. simpl.
  apply auth_save_ring in Hsv. apply rotate_keyring_Ok in Hrot as (r0 & k & Hk & -> & Hd & Hr0).
  destruct (load_keyring_same _ _ _ _ _ _ (keys_sighted _ _ _) Hd Hl1) as [-> Hfs3].
  rewrite <- Hfs3 in Hd. destruct (load_keyring_same _ _ _ _ _ _ (keys_sighted _ _ _) Hd Hl2) as [-> Hfs4].
  rewrite key_for_epoch_push in Hnk. injection Hnk as <-.
  pose proof Hb as (_ & _ & _ & _ & _ & Hfs5)%build_Ok. apply save_pending_ring in Hsp.
  exists op, rot, k, w4, w5. do 5 (split; [done|]). split; [by rewrite current_epoch_push|].
  split; [apply key_for_epoch_push|]. split; [by rewrite Hsp, Hfs5, Hfs4|]. split; [|done].
  intros r Hrd. rewrite <- Hsv in Hrd. by rewrite (Hr0 (keys_sighted _ _ _) r Hrd).
Qed.

(** *** Membership messages *)

Lemma apply_ops_wf payload n st :
  auth_wf st -> auth_wf (snd (apply_ops_loop payload n st)) /\
  ops st `prefix_of` ops (snd (apply_ops_loop payload n st)).
Proof.
  revert n st. induction payload as [|raw payload IH]; intros n st Hwf; cbn [apply_ops_loop]; [done|].
  destruct (op_decode raw) as [op|e|]; [|by apply IH..].
  destruct (apply_remote_wf op st Hwf) as [Hwf' Hpre].
  destruct (apply_remote op st) as [[[]|e|] st1]; simpl in *; [| | |done].
  - destruct (IH (S n) st1 Hwf'). split; [done|by etrans].
  - destruct (IH n st1 Hwf'). split; [done|by etrans].
  - destruct (IH n st1 Hwf'). split; [done|by etrans].
Qed.

Lemma encode_ops_Ok l raw : encode_ops l = Ok raw -> Forall2 (fun op b => op_encode op = Ok b) l raw.
Proof.
  revert raw. induction l as [|op l IH]; intros raw; simpl; [intros [= <-]; constructor|].
  intros (b & Hb & (r & Hr & [= <-])%rbind_Ok)%rbind_Ok. constructor; auto.
Qed.

Lemma op_decode_encode op b : op_encode op = Ok b -> op_decode b = Ok op.
Proof.
  unfold op_encode, op_decode. destruct (bin_encode op) eqn:E; [|done]. intros [= ->].
  by destruct (bin_decode_encode _ _ E) as [n ->].
Qed.

(** A log that arrives in order is taken over whole. *)
Lemma apply_ops_log l raw n st s :
  Forall2 (fun op b => op_encode op = Ok b) l raw ->
  pending st = [] -> causal (known st) l -> NoDup (ids (ops st ++ l)) -> Forall verified l ->
  foldl (fun s op => s ≫= fun s => crdt_process s op) (Some (crdt st)) l = Some s ->
  apply_ops_loop raw n st =
    (Ok (length l + n)%nat, {| crdt := s; ops := ops st ++ l; pending := [] |}).
Proof.
  intros Hf. revert n st. induction Hf as [|op b l raw Hb _ IH]; intros n st Hp Hc Hnd Hv Hs; simpl in *.
  - rewrite app_nil_r. destruct st; simpl in *. by simplify_eq.
  - destruct Hc as [Hd Hc]. inversion_clear Hv as [|?? Hop Hv'].
    destruct (crdt_process (crdt st) op) as [s1|] eqn:E; [|by rewrite crdt_foldl_None in Hs].
    assert (Hnew : compute_id op ∉ known st).
    { rewrite ids_app in Hnd. apply NoDup_app in Hnd as (_ & Hx & _). intros Hin.
      apply (Hx _ Hin). unfold ids. simpl. set_solver. }
    rewrite (op_decode_encode op b Hb), (apply_remote_next op st s1) by done.
    rewrite (IH (S n) {| crdt := s1; ops := ops st ++ [op]; pending := [] |}).
    + simpl. rewrite <- app_assoc. do 2 f_equal. lia.
    + done.
    + unfold known. simpl. rewrite fmap_app. simpl.
      eapply causal_mono; [|done]. set_solver.
    + simpl. by rewrite <- app_assoc.
    + done.
    + done.
Qed.

(** A log that is already known changes nothing. *)
Lemma apply_ops_known l raw n st :
  Forall2 (fun op b => op_encode op = Ok b) l raw -> Forall verified l ->
  (forall op, op ∈ l -> compute_id op ∈ known st) -> apply_ops_loop raw n st = (Ok n, st).
Proof.
  intros Hf Hv Hk. induction Hf as [|op b l raw Hb _ IH]; [done|]. simpl.
  inversion_clear Hv as [|?? Hop Hv']. rewrite (op_decode_encode op b Hb).
  unfold apply_remote. rewrite Hop. cbv zeta.
  rewrite (bool_decide_true (compute_id op ∈ known st)) by (apply Hk; set_solver).
  simpl. apply IH; [done|]. intros x Hx. apply Hk. set_solver.
Qed.

(** *** The fuel of [drain_loop] *)

Lemma drain_fuel f1 f2 g id0 dd sid t w :
  (length (t_buffer t) < f1)%nat -> (length (t_buffer t) < f2)%nat ->
  drain_loop f1 g id0 dd sid t w = drain_loop f2 g id0 dd sid t w.
Proof.
  revert f2 t w. induction f1 as [|f1 IH]; intros f2 t w Hlt1 Hlt2; [lia|].
  destruct f2 as [|f2]; [lia|]. cbn [drain_loop]. rewrite !sget_run.
  pose proof (length_sort_by epoch (t_buffer t)) as Hl.
  destruct (sort_by epoch (t_buffer t)) as [|c rest]; [done|]. simpl in Hl. rewrite !smod_run.
  unfold sbind, sattempt.
  pose proof (try_install_only_key c g id0 dd sid (set_buffer rest t) w) as (_ & _ & Hb).
  destruct (try_install_rotation c g id0 dd sid (set_buffer rest t) w) as [[[| | |]|e|] [t1 w1]];
    simpl in Hb; try done; apply IH; rewrite Hb; lia.
Qed.
End commands.

(** ** Properties *)

Section properties.
Context `{MD : Metadata, Entropy, Blake3, Ed25519, !CryptoBox, Base64}.
Context `{!Bincode rotation_tuple, !BincodeTotal rotation_tuple, !Bincode SignedRotation}.
Context `{!Bincode canonical_tuple, !BincodeTotal canonical_tuple, !GroupCrdt}.
Context `{!Bincode SignedOp, !Bincode (list SignedOp), !Bincode Ticket, !Json ShareMsg}.

(** C7. A revocation that succeeds records the removal in the log, appends one
    fresh key to the keyring, on disk and in memory, and queues its rotation:
    every remaining member opens it with that key, and the revoked member
    finds no envelope, at any receiver that knows the rotator as an owner.
    ([KeysSighted]: the metadata of [keys.bin] can be read.) *)
Theorem revoke_rekeys `{!KeysSighted} (config : ShareConfig) (dd : path) (identity : bytes) (target : MemberId)
    (t t' : ShareTask) (w w' : world) (e : Z) (Hwf : auth_wf (t_auth t))
    (Hrun : handle_revoke config dd identity target t w = (Ok e, (t', w'))) :
  let sid := sc_id config in
  let g := group_id_for sid in
  (exists op, ops (t_auth t') = ops (t_auth t) ++ [op] /\ gm_action (op_payload op) = Remove target) /\
  exists rot k, t_pending t' = t_pending t ++ [rot] /\ epoch rot = e /\
    e = current_epoch (t_key t') /\ key_for_epoch (t_key t') e = Some k /\
    disk_ring dd sid (w_fs w') = Some (t_key t') /\
    (forall r, disk_ring dd sid (w_fs w) = Some r -> t_key t' = push_key r k) /\
    forall st me, (public_key identity, Owner) ∈ members st g ->
      (public_key me ∈ (members (t_auth t') g).*1 -> public_key me <> target ->
         verify_and_decrypt rot st g me = OkForUs k) /\
      (public_key me = target -> verify_and_decrypt rot st g me = NotForUs).
Proof.
  cbv zeta. apply handle_revoke_Ok in Hrun as
    (op & rot & k & wb & wb' & Hrm & _ & Hpe & _ & Hk & He & Hke & Hd & Hr & Hb).
  split.
  - pose proof (author_wf identity (group_id_for (sc_id config)) (Remove target) (t_auth t) Hwf)
      as [_ Ha]. unfold remove_member in Hrm. rewrite Hrm in Ha.
    destruct (Ha op eq_refl) as (_ & Hops & Hact & _). by exists op.
  - exists rot, k. pose proof Hb as (_ & _ & Hep & _)%build_Ok. do 6 (split; [done|]).
    intros st me Hown. destruct (build_verifies _ _ _ _ _ _ _ st _ Hk Hb Hown me) as [Hin Hout].
    split; intros; [apply Hin|apply Hout]; rewrite elem_of_remaining; [done|]. by intros [_ ?].
Qed.

(** C15. Rotations may arrive in any order and any number of times: a peer that
    accepts the rotations of the next [k <= 64] epochs, each at least once,
    ends with all their keys in epoch order, on disk and in memory, with
    nothing left in the buffer, and no delivery fails. *)
Theorem rotation_catch_up (g : MemberId) (me : bytes) (dd : path) (sid : string) (ek : Z -> Key)
    (l : list SignedRotation) (t : ShareTask) (w : world) (k : Z)
    (Hgen : Forall (genuine g me (t_auth t) ek) l) (Hbuf : t_buffer t = [])
    (Hw : working dd sid w (t_key t)) (Hk : 0 <= k <= Z.of_nat ROTATION_BUFFER_CAP)
    (Hl : forall e, e ∈ epoch <$> l <-> current_epoch (t_key t) < e <= current_epoch (t_key t) + k) :
  exists t' w', deliver_rotations g me dd sid l t w = (Ok tt, (t', w')) /\
    keys (t_key t') = keys (t_key t) ++ (ek <$> seqZ (current_epoch (t_key t) + 1) k) /\
    disk_ring dd sid (w_fs w') = Some (t_key t') /\ t_buffer t' = [] /\ t_auth t' = t_auth t.
Proof.
  destruct (caught_all g me dd sid (t_auth t) ek (t_key t) t [] t w l) as
    (t' & w' & S & Hrun & (m & Hm & Hw' & Hk' & Ha & _ & _ & _ & Hb & Hn & Hall) & HS).
  - by apply caught_start.
  - done.
  - done.
  - by intros e ?%elem_of_nil.
  - intros e He%Hl. lia.
  - assert (forall e, e ∈ S <-> current_epoch (t_key t) < e <= current_epoch (t_key t) + k) as HS'
      by (intros e; rewrite HS, elem_of_nil, Hl; tauto).
    rewrite HS' in Hn. assert (m = current_epoch (t_key t) + k) as ->.
    { destruct (decide (m <= current_epoch (t_key t) + k)); [lia|].
      assert (m ∈ S) as Hms by (apply Hall; lia). apply HS' in Hms. lia. }
    exists t', w'. split; [done|]. rewrite Hk'. split; [|split; [apply Hw'|split; [|done]]].
    + unfold ring_to. simpl. do 3 f_equal. lia.
    + destruct (t_buffer t') as [|x b]; [done|]. exfalso.
      destruct (proj1 (Hb (epoch x))) as [Hxs Hxm]; [by left|]. apply HS' in Hxs. lia.
Qed.

(** C35. The buffer of early rotations never holds more than 64 entries and never
    two of one epoch, whatever is received and whatever fails; and the number
    of turns [drain_rotation_buffer] is given is enough: more turns change
    nothing. *)
Theorem rotation_buffer_bounded (rot : SignedRotation) (g : MemberId) (me : bytes) (dd : path)
    (sid : string) (t : ShareTask) (w : world) (extra : nat) (Hok : buffer_ok (t_buffer t)) :
  buffer_ok (t_buffer (snd (apply_key_rotation rot g me dd sid t w)).1) /\
  drain_loop (S (length (t_buffer t)) + extra) g me dd sid t w =
    drain_rotation_buffer g me dd sid t w.
Proof.
  split; [by apply apply_key_rotation_keeps|].
  unfold drain_rotation_buffer. rewrite sget_run. apply drain_fuel; lia.
Qed.

(** C24. Membership messages from the network: whatever bytes arrive, the log
    stays well formed and only grows, the keyring, the queue and the buffer
    are untouched, and when operations were applied the whole log is on
    disk. *)
Theorem apply_auth_ops_safe (payload : list bytes) (dd : path) (sid : string) (t t' : ShareTask)
    (w w' : world) (r : outcome nat) (Hwf : auth_wf (t_auth t))
    (Hrun : apply_auth_ops payload dd sid t w = (r, (t', w'))) :
  auth_wf (t_auth t') /\ ops (t_auth t) `prefix_of` ops (t_auth t') /\
  t' = set_auth (t_auth t') t /\
  (r = Ok 0%nat -> w' = w) /\
  (forall n, r = Ok (S n) -> exists raw, bin_encode (ops (t_auth t')) = Some raw /\
     data_at (w_fs w') (auth_log_path dd sid) = Some raw).
Proof.
  unfold apply_auth_ops, sbind, sauth in Hrun.
  destruct (apply_ops_wf payload 0 (t_auth t) Hwf) as [Hwf' Hpre].
  destruct (apply_ops_loop payload 0 (t_auth t)) as [[n|e|] st] eqn:E; simpl in *;
    try (injection Hrun as <- <- <-; done).
  destruct (0 <? n)%nat eqn:En; cbv beta iota delta [sget sio sret] in Hrun; simpl in Hrun.
  - destruct (ctx "persisting auth.log" (auth_save dd sid st) w) as [[[]|e|] w1] eqn:Es;
      injection Hrun as <- <- <-; simpl; do 3 (split; [done|]); (split; [|try done]).
    + by intros [= ->].
    + intros _ _. apply ctx_Ok in Es. by apply auth_save_Ok in Es.
    + done.
    + done.
  - injection Hrun as <- <- <-. simpl. do 4 (split; [done|]). by intros m [= ->].
Qed.

(** C25. A late joiner catches up from one announce: the payload a peer publishes
    for its membership log is parsed back, applied by a peer without any log
    it yields the same log and group state, and applied again (announces are
    repeated) it changes nothing. *)
Theorem announce_transfers_log (st : AuthState) (D : list SignedOp) (b : bytes)
    (Hinv : auth_inv st D) (Hver : Forall verified (ops st))
    (Hb : auth_announce_bytes st = Ok b) :
  let st' := {| crdt := crdt st; ops := ops st; pending := [] |} in
  exists raw, json_from_slice b = Some (MAuthOps raw) /\
    apply_ops_loop raw 0 auth_empty = (Ok (length (ops st)), st') /\
    apply_ops_loop raw 0 st' = (Ok 0%nat, st').
Proof.
  cbv zeta. unfold auth_announce_bytes in Hb. apply rbind_Ok in Hb as (raw & Hraw & Hb).
  apply ok_or_Ok in Hb. apply encode_ops_Ok in Hraw. exists raw.
  destruct Hinv as [Hc Hn _ Hr]. rewrite ids_app in Hn. apply NoDup_app in Hn as [Hn _].
  split; [by apply json_from_to|]. split.
  - rewrite (apply_ops_log (ops st) raw 0 auth_empty (crdt st)); try done.
    simpl. by rewrite Nat.add_0_r.
  - apply (apply_ops_known (ops st)); [done|done|]. intros op Hop. unfold known. simpl.
    by apply list_elem_of_fmap_2.
Qed.

(** The guards of the two membership commands: without a log, for a member
    who is already there (invite) and for one who is not (revoke) they fail
    and change nothing. *)
Theorem commands_refuse (config : ShareConfig) (dd : path) (identity : bytes) (m : MemberId)
    (ar : AuthRole) (sr : ShareRole) (t : ShareTask) (w : world) :
  let g := group_id_for (sc_id config) in
  (ops (t_auth t) = [] \/ is_member (t_auth t) g m = true ->
     exists e, handle_invite config dd identity m ar sr t w = (Err e, (t, w))) /\
  (ops (t_auth t) = [] \/ is_member (t_auth t) g m = false ->
     exists e, handle_revoke config dd identity m t w = (Err e, (t, w))).
Proof.
  cbv zeta. unfold handle_invite, handle_revoke, auth_is_empty. rewrite !sget_run.
  case_bool_decide; [split; by eexists|].
  split; intros [?| ->]; try done; by eexists.
Qed.
End properties.

(** ** Witnesses *)

#[export] Instance ser_announce : Ser Announce.
Proof.
  refine (ser_inj (B := (string * list (string * Z)) * (option string * (option (gmap string Z) * option Z)))
    (fun a => ((an_info_hash a, an_bt_endpoints a), (an_version_hash a, (an_clock a, an_timestamp a))))
    (fun x => Some {| an_info_hash := x.1.1; an_bt_endpoints := x.1.2; an_version_hash := x.2.1;
                      an_clock := x.2.2.1; an_timestamp := x.2.2.2 |}) _).
  by intros [].
Defined.

#[export] Instance ser_msg : Ser ShareMsg.
Proof.
  refine (ser_inj (B := Announce + (list bytes + SignedRotation))
    (fun m => match m with
              | MAnnounce a => inl a
              | MAuthOps l => inr (inl l)
              | MKeyRotation r => inr (inr r)
              end)
    (fun x => Some match x with
              | inl a => MAnnounce a
              | inr (inl l) => MAuthOps l
              | inr (inr r) => MKeyRotation r
              end) _).
  by intros [].
Defined.

Definition toy_op : Bincode SignedOp := toy_bincode _.
Definition toy_msg : Json ShareMsg := toy_json _.

Section witnesses.
#[local] Existing Instance toy_metadata.
#[local] Existing Instance toy_sighted.
#[local] Existing Instance toy_entropy.
#[local] Existing Instance toy_blake3.
#[local] Existing Instance toy_ed25519.
#[local] Existing Instance toy_box.
#[local] Existing Instance toy_base64.
#[local] Existing Instance toy_rotation_tuple.
#[local] Existing Instance toy_rotation_total.
#[local] Existing Instance toy_rotation.
#[local] Existing Instance toy_canonical.
#[local] Existing Instance toy_canonical_total.
#[local] Existing Instance toy_group.
#[local] Existing Instance toy_op.
#[local] Existing Instance toy_ops.
#[local] Existing Instance toy_ticket.
#[local] Existing Instance toy_msg.

Definition wd_dd : path := ["data"].
Definition wd_cfg : ShareConfig :=
  {| sc_id := "share"; sc_topic := "topic"; sc_root_path := ["home"]; sc_role := Sync; sc_created_at := 0 |}.
Definition wd_bob : MemberId := public_key (wa_key Byte.x0b).
Definition wd_carol : bytes := wa_key Byte.x0c.

(** Alice's task, its keyring saved. *)
Definition wd_world : world := snd (save_keyring wd_dd "share" w_ring (world_of root_fs)).
Definition wd_task : ShareTask :=
  {| t_key := w_ring; t_auth := wa_final; t_pending := []; t_buffer := [] |}.

#[local] Abbreviation wd_revoke := (handle_revoke wd_cfg wd_dd wa_alice wd_bob wd_task wd_world).

Lemma wd_revoke_ok : wd_revoke.1 = Ok 3.
Proof. vm_compute. reflexivity. Qed.

Lemma wd_ring : match disk_ring wd_dd "share" (w_fs wd_world) with
                | Some r => bool_decide (keys r = keys w_ring) | None => false end = true.
Proof. vm_compute. reflexivity. Qed.

Lemma wd_disk : disk_ring wd_dd "share" (w_fs wd_world) = Some w_ring.
Proof.
  pose proof wd_ring as Hr. destruct (disk_ring _ _ _) as [[ks]|]; [|done].
  apply bool_decide_eq_true in Hr. simpl in Hr. by rewrite Hr.
Qed.

Lemma wa_final_wf : auth_wf wa_final.
Proof.
  assert (forall l st, auth_wf st -> auth_wf (replay l st).2) as Hl.
  { induction l as [|op l IH]; intros st Hst; simpl; [done|].
    destruct (apply_remote_wf op st Hst) as [Hw _].
    destruct (apply_remote op st) as [[b|e|] st']; simpl in *; auto. }
  apply Hl, auth_empty_wf.
Qed.

Lemma wd_carol_stays : existsb (fun m => bool_decide (m = public_key wd_carol))
  ((members (t_auth wd_revoke.2.1) (group_id_for (sc_id wd_cfg))).*1) = true.
Proof. vm_compute. reflexivity. Qed.

Lemma revoke_rekeys_witness :
  exists rot k, t_pending wd_revoke.2.1 = [rot] /\ epoch rot = 3 /\
    t_key wd_revoke.2.1 = push_key w_ring k /\
    verify_and_decrypt rot wa_final wa_gid wd_carol = OkForUs k /\
    verify_and_decrypt rot wa_final wa_gid (wa_key Byte.x0b) = NotForUs.
Proof.
  pose proof wd_revoke_ok as Ho. pose proof wd_carol_stays as Hc.
  destruct (handle_revoke wd_cfg wd_dd wa_alice wd_bob wd_task wd_world) as [o [t' w']] eqn:E.
  cbn [fst snd] in *. subst o.
  destruct (revoke_rekeys wd_cfg wd_dd wa_alice wd_bob wd_task t' wd_world w' 3 wa_final_wf E) as (_ & rot & k & Hp & He & _ & _ & _ & Hk & Hv).
  destruct (Hv wa_final wd_carol wr_alice_owns) as [Hcarol _].
  destruct (Hv wa_final (wa_key Byte.x0b) wr_alice_owns) as [_ Hbob].
  exists rot, k. split; [exact Hp|]. split; [exact He|]. split; [exact (Hk w_ring wd_disk)|].
  split; [|exact (Hbob eq_refl)]. apply Hcarol; [|vm_compute; discriminate].
  apply existsb_exists in Hc as (x & Hx & ->%bool_decide_eq_true). by apply list_elem_of_In.
Defined.

(** Carol, at epoch 2, hears of epoch 4 twice and then of epoch 3. *)
Definition wd_ek (e : Z) : Key := replicate 32 (byte_of_Z e).
Definition wd_rot (e : Z) : SignedRotation :=
  match (build_signed_rotation wa_alice e (wd_ek e) [public_key wd_carol] (world_of root_fs)).1 with
  | Ok r => r
  | _ => wr_rot
  end.
Definition wd_rot3 : SignedRotation := Eval vm_compute in wd_rot 3.
Definition wd_rot4 : SignedRotation := Eval vm_compute in wd_rot 4.
Definition wd_heard : list SignedRotation := [wd_rot4; wd_rot4; wd_rot3].
Definition wd_carol_task : ShareTask :=
  {| t_key := w_ring; t_auth := wa_final; t_pending := []; t_buffer := [] |}.

Lemma wd_genuine : Forall (genuine wa_gid wd_carol wa_final wd_ek) wd_heard.
Proof.
  assert (genuine wa_gid wd_carol wa_final wd_ek wd_rot4) by (vm_compute; reflexivity).
  assert (genuine wa_gid wd_carol wa_final wd_ek wd_rot3) by (vm_compute; reflexivity).
  by constructor; [|constructor; [|constructor; [|constructor]]].
Qed.

Lemma wd_epochs e : e ∈ epoch <$> wd_heard <-> current_epoch w_ring < e <= current_epoch w_ring + 2.
Proof.
  change (epoch <$> wd_heard) with [4; 4; 3]. change (current_epoch w_ring) with 2.
  rewrite !elem_of_cons, elem_of_nil. lia.
Qed.

Lemma wd_working : working w_dd w_sid w_saved w_ring.
Proof.
  split; [vm_compute; reflexivity|exact w_ready|].
  pose proof (bool_decide_eq_true (keys <$> disk_ring w_dd w_sid (w_fs w_saved) = Some (keys w_ring))) as Hb.
  assert (keys <$> disk_ring w_dd w_sid (w_fs w_saved) = Some (keys w_ring)) as Hk
    by (apply Hb; vm_compute; reflexivity).
  destruct (disk_ring _ _ _) as [[ks]|]; [|done]. simpl in Hk. by injection Hk as ->.
Qed.

Lemma rotation_catch_up_witness :
  exists t' w', deliver_rotations wa_gid wd_carol w_dd w_sid wd_heard wd_carol_task w_saved = (Ok tt, (t', w')) /\
    keys (t_key t') = keys w_ring ++ [wd_ek 3; wd_ek 4] /\ t_buffer t' = [].
Proof.
  destruct (rotation_catch_up wa_gid wd_carol w_dd w_sid wd_ek wd_heard wd_carol_task w_saved 2
    wd_genuine eq_refl wd_working) as (t' & w' & Hrun & Hk & _ & Hb & _).
  - unfold ROTATION_BUFFER_CAP. lia.
  - exact wd_epochs.
  - exists t', w'. split; [exact Hrun|]. split; [exact Hk|exact Hb].
Defined.

Lemma rotation_buffer_bounded_witness :
  buffer_ok (t_buffer (snd (apply_key_rotation wd_rot4 wa_gid wd_carol w_dd w_sid wd_carol_task w_saved)).1).
Proof.
  apply (rotation_buffer_bounded wd_rot4 wa_gid wd_carol w_dd w_sid wd_carol_task w_saved 0).
  split; [simpl; lia|constructor].
Defined.


(** A joiner without a log hears the announce. *)
Lemma wd_announce_ok :
  match auth_announce_bytes wa_final with Ok _ => true | _ => false end = true.
Proof. vm_compute. reflexivity. Qed.

Lemma announce_transfers_log_witness :
  exists b raw, auth_announce_bytes wa_final = Ok b /\ json_from_slice b = Some (MAuthOps raw) /\
    apply_ops_loop raw 0 auth_empty =
      (Ok (length (ops wa_final)), {| crdt := crdt wa_final; ops := ops wa_final; pending := [] |}).
Proof.
  pose proof wd_announce_ok as Ha. destruct (auth_announce_bytes wa_final) as [b|e|] eqn:E; [|done..].
  destruct (announce_transfers_log wa_final wa_log b wa_final_inv wa_final_verified E)
    as (raw & Hj & Ht & _).
  exists b, raw. split; [reflexivity|]. split; [exact Hj|]. exact Ht.
Defined.

(** Garbage from the network leaves the log as it is. *)
Lemma apply_auth_ops_safe_witness :
  ops (t_auth wd_task) `prefix_of`
    ops (t_auth (snd (apply_auth_ops [[Byte.x01]] wd_dd "share" wd_task wd_world)).1).
Proof.
  destruct (apply_auth_ops [[Byte.x01]] wd_dd "share" wd_task wd_world) as [r [t' w']] eqn:E.
  cbn [fst snd]. destruct (apply_auth_ops_safe [[Byte.x01]] wd_dd "share" wd_task t' wd_world w' r
    wa_final_wf E) as (_ & Hpre & _). exact Hpre.
Defined.

Lemma commands_refuse_witness :
  exists e, handle_revoke wd_cfg wd_dd wa_alice (public_key (wa_key Byte.x3f)) wd_task wd_world =
    (Err e, (wd_task, wd_world)).
Proof.
  apply (commands_refuse wd_cfg wd_dd wa_alice (public_key (wa_key Byte.x3f)) Writer Sync wd_task wd_world).
  right. vm_compute. reflexivity.
Defined.
End witnesses.
