(* ===== verification/Loops.v ===== *)
(** * The life of a share task ([src/daemon.rs], 172-295 and 445-982)

    A task is spawned with what is on disk, runs the loop of its role, and
    handles one event at a time: a tick of the announce timer, a command, a
    gossip payload, a settled file-system change.  A turn of a loop is a
    computation on the task's state; a loop is a fold over the events that
    [select!] lets through. *)

From S2P Require Import Prelude World Tree Clock External Instances Share Crypto Auth.
From S2P Require Import Rotation Ticket Shadow Sync Frame Network Daemon.

(** ** The services a loop talks to

    [p2panda_net::Gossip] (joining a topic) and [notify] (watching a
    directory); neither writes files. *)
Class Services := {
  gossip_stream : bytes -> M unit;
  watch : path -> M unit;
  gossip_stream_inert : forall t w, w_fs (snd (gossip_stream t w)) = w_fs w;
  watch_inert : forall p w, w_fs (snd (watch p w)) = w_fs w;
}.

(** ** Events and turns *)

Inductive Event :=
  | ETick
  | ECommand (cmd : ShareCommand)
  | EGossip (payload : bytes)
  | ELag
  | EClosed
  | ESettled.

(** What a turn publishes and answers, and whether the loop ends. *)
Record Turn := { tn_publish : list bytes; tn_reply : option Reply; tn_stop : bool }.

Definition says (l : list bytes) : Turn := {| tn_publish := l; tn_reply := None; tn_stop := false |}.
Definition nothing : Turn := says [].
Definition over : Turn := {| tn_publish := []; tn_reply := None; tn_stop := true |}.

Section loops.
Context `{MD : Metadata, ReadDir, Entropy, WallClock, Blake3, Aead, Ed25519, !CryptoBox, Base64}.
Context `{!Bincode rotation_tuple, !BincodeTotal rotation_tuple, !Bincode SignedRotation}.
Context `{!Bincode canonical_tuple, !BincodeTotal canonical_tuple, !GroupCrdt}.
Context `{!Bincode SignedOp, !Bincode (list SignedOp), !Bincode Ticket, !Json ShareMsg}.
Context `{!Json PersistedState, Torrents, SocketAddrs, Services}.

(** ** Spawning *)

(** What [spawn_share_task] reads before the task starts: a share without a
    readable keyring or log is not started, an unreadable queue is dropped. *)
Definition spawn_share_task (data_dir : path) (config : ShareConfig) : M ShareTask :=
  let! key := ctx "loading share keyring" (load_or_create_keyring data_dir (sc_id config)) in
  let! auth_state := ctx "loading auth log" (auth_load data_dir (sc_id config)) in
  let! r := attempt (load_pending data_dir (sc_id config)) in
  ret {| t_key := key; t_auth := auth_state;
         t_pending := match r with Ok p => p | _ => [] end; t_buffer := [] |}.

(** The first part of [serve]: shares that cannot be spawned are skipped. *)
Fixpoint spawn_all (data_dir : path) (configs : list ShareConfig)
    (shares : gmap string (ShareConfig * ShareTask)) : M (gmap string (ShareConfig * ShareTask)) :=
  match configs with
  | [] => ret shares
  | config :: configs =>
      let! r := attempt (spawn_share_task data_dir config) in
      match r with
      | Ok t => spawn_all data_dir configs (<[sc_id config := (config, t)]> shares)
      | _ => spawn_all data_dir configs shares
      end
  end.

(** The second part of [serve]: one turn of its loop waits for the shutdown
    signal, the end of a task, or a quarter of a second; the answer tells
    whether the daemon shuts down. *)
Inductive Poll := PSignal | PJoined (r : outcome unit) | PTimeout.

Definition serve_turn {A : Type} (shares : gmap string A) (no_shares_at_start register_dbus : bool)
    (p : Poll) : bool :=
  match p with
  | PSignal => true
  | PJoined _ | PTimeout =>
      let shares_active := negb (bool_decide (shares = ∅)) in
      negb shares_active && negb no_shares_at_start && negb register_dbus
  end.

Fixpoint serve_wait {A : Type} (shares : gmap string A) (no_shares_at_start register_dbus : bool)
    (polls : list Poll) : bool :=
  match polls with
  | [] => false
  | p :: polls =>
      serve_turn shares no_shares_at_start register_dbus p ||
      serve_wait shares no_shares_at_start register_dbus polls
  end.

(** ** What the three loops share *)

Section task.
Context (config : ShareConfig) (data_dir : path) (identity : bytes) (bt_port : Z).

Definition share_topic : bytes := blake3 (string_bytes (sc_topic config)).
Definition peer_id_hex : string := to_hex (public_key identity).

Definition on_command (cmd : ShareCommand) : SM Turn :=
  let* r := handle_share_command cmd config data_dir identity in
  sret {| tn_publish := []; tn_reply := Some r.2; tn_stop := r.1 |}.

(** [if let Err(e) = ... { warn }] *)
Definition logged {A : Type} (m : SM A) : SM unit := sattempt m ;* sret tt.

Definition on_auth_ops (raw_ops : list bytes) : SM unit :=
  logged (apply_auth_ops raw_ops data_dir (sc_id config)).

Definition on_rotation (rot : SignedRotation) : SM unit :=
  logged (apply_key_rotation rot (group_id_for (sc_id config)) identity data_dir (sc_id config)).

Definition membership_turn : SM (list bytes) :=
  let* t := sget in
  sret (publish_auth_ops (t_auth t) ++ publish_pending_rotations (t_pending t)).

(** A loop is run on the events it sees until one of its turns ends it. *)
Fixpoint run_loop {St Ev : Type} (turn : St -> Ev -> SM (St * Turn)) (st : St) (evs : list Ev)
    : SM (St * list Turn) :=
  match evs with
  | [] => sret (st, [])
  | ev :: evs =>
      let* r := turn st ev in
      if tn_stop r.2 then sret (r.1, [r.2]) else
      let* rest := run_loop turn r.1 evs in
      sret (rest.1, r.2 :: rest.2)
  end.

(** ** [seed_loop] *)

(** Returns the announce that every tick repeats. *)
Definition seed_start : SM bytes :=
  let* root := sio (ctx "canonicalize" (fs_canonicalize (sc_root_path config))) in
  let* result := sio (ctx "create_torrent" (create_torrent root None)) in
  let* resp := sio (add_torrent_bytes result.2 root) in
  let* _handle := slift (ok_or (EMsg "add_torrent returned no handle") resp) in
  let announce := MAnnounce {| an_info_hash := result.1; an_bt_endpoints := [("127.0.0.1", bt_port)];
    an_version_hash := None; an_clock := None; an_timestamp := None |} in
  let* announce_bytes := slift (ok_or (EMsg "json") (json_to_vec announce)) in
  sio (gossip_stream share_topic) ;*
  sret announce_bytes.

Definition seed_turn (announce_bytes : bytes) (st : unit) (ev : Event) : SM (unit * Turn) :=
  match ev with
  | ETick =>
      let* l := membership_turn in
      sret (st, says (announce_bytes :: l))
  | ECommand cmd =>
      let* tn := on_command cmd in
      sret (st, tn)
  | EGossip payload =>
      match json_from_slice payload with
      | Some (MAuthOps raw_ops) => on_auth_ops raw_ops ;* sret (st, nothing)
      | Some (MKeyRotation rot) => on_rotation rot ;* sret (st, nothing)
      | Some (MAnnounce _) | None => sret (st, nothing)
      end
  | ELag => sret (st, nothing)
  | EClosed => sret (st, over)
  | ESettled => sret (st, nothing)
  end.

Definition seed_loop (evs : list Event) : SM (list Turn) :=
  let* announce_bytes := seed_start in
  let* r := run_loop (seed_turn announce_bytes) tt evs in
  sret r.2.

(** ** [leech_loop] *)

Definition leech_apply_announce (root : path) (info_hash : string)
    (bt_endpoints : list (string * Z)) : M unit :=
  let initial_peers := omap (fun hp => parse_addr hp.1 hp.2) bt_endpoints in
  if decide (initial_peers = []) then fail (EMsg "announce had no usable peers") else
  let magnet := "magnet:?xt=urn:btih:" +:+ info_hash in
  let! resp := add_torrent_magnet magnet initial_peers root in
  let! id := lift (ok_or (EMsg "add_torrent returned no handle") resp) in
  ctx "wait_until_completed failed" (wait_until_completed id).

(** The share directory, canonical, and what is published at the start. *)
Definition leech_start : SM (path * list bytes) :=
  sio (ctx "create_dir_all" (fs_create_dir_all (sc_root_path config))) ;*
  let* root := sio (ctx "canonicalize" (fs_canonicalize (sc_root_path config))) in
  sio (gossip_stream share_topic) ;*
  let* t := sget in
  sret (root, publish_pending_rotations (t_pending t)).

(** [finished] is the test at the end of a turn, which [continue] skips; an
    event comes with the answer of [cmd_rx.is_closed()] at that point. *)
Definition finished (completed cmd_closed : bool) : Turn :=
  {| tn_publish := []; tn_reply := None; tn_stop := completed && cmd_closed |}.

Definition leech_turn (root : path) (completed : bool) (evc : Event * bool) : SM (bool * Turn) :=
  let '(ev, cmd_closed) := evc in
  match ev with
  | ECommand cmd =>
      let* tn := on_command cmd in
      sret (completed, {| tn_publish := []; tn_reply := tn_reply tn;
                          tn_stop := tn_stop tn || (completed && cmd_closed) |})
  | EGossip payload =>
      match json_from_slice payload with
      | None => sret (completed, nothing)
      | Some (MAnnounce a) =>
          if completed then sret (completed, finished completed cmd_closed) else
          let* r := sattempt (sio (leech_apply_announce root (an_info_hash a) (an_bt_endpoints a))) in
          match r with
          | Ok _ => sret (true, finished true cmd_closed)
          | _ => sret (completed, finished completed cmd_closed)
          end
      | Some (MAuthOps raw_ops) => on_auth_ops raw_ops ;* sret (completed, finished completed cmd_closed)
      | Some (MKeyRotation rot) => on_rotation rot ;* sret (completed, finished completed cmd_closed)
      end
  | ELag => sret (completed, nothing)
  | EClosed => sret (completed, over)
  | ETick | ESettled => sret (completed, nothing)
  end.

Definition leech_loop (evs : list (Event * bool)) : SM (list Turn) :=
  let* s := leech_start in
  let* r := run_loop (leech_turn s.1) false evs in
  sret (says s.2 :: r.2).

(** ** [sync_loop] *)

Definition announce_payloads (l : list Announce) : list bytes :=
  omap (fun a => json_to_vec (MAnnounce a)) l.

(** Run an operation of the sync engine on the version and the current key. *)
Definition on_engine (m : KeyRing -> M (option ShareState * list Announce))
    : SM (option ShareState * Turn) :=
  let* t := sget in
  let* r := sio (m (t_key t)) in
  sret (r.1, says (announce_payloads r.2)).

Definition sync_start : SM (path * option ShareState * list bytes) :=
  sio (ctx "create_dir_all" (fs_create_dir_all (sc_root_path config))) ;*
  let* root := sio (ctx "canonicalize" (fs_canonicalize (sc_root_path config))) in
  sio (gossip_stream share_topic) ;*
  let* t := sget in
  let* state := sio (reconcile_on_start config root data_dir peer_id_hex (t_key t)) in
  sio (ctx "watching" (watch root)) ;*
  sret (root, state, match state with Some s => publish_sync_announce s bt_port | None => [] end).

Definition sync_turn (root : path) (state : option ShareState) (ev : Event)
    : SM (option ShareState * Turn) :=
  match ev with
  | ESettled =>
      on_engine (fun key => on_local_change config root data_dir bt_port peer_id_hex key state)
  | ETick =>
      let* l := membership_turn in
      sret (state, says (match state with Some s => publish_sync_announce s bt_port | None => [] end ++ l))
  | ECommand cmd =>
      let* tn := on_command cmd in
      sret (state, tn)
  | EGossip payload =>
      match json_from_slice payload with
      | None => sret (state, nothing)
      | Some (MAnnounce a) =>
          on_engine (fun key => on_announce config root data_dir bt_port key a state)
      | Some (MAuthOps raw_ops) => on_auth_ops raw_ops ;* sret (state, nothing)
      | Some (MKeyRotation rot) => on_rotation rot ;* sret (state, nothing)
      end
  | ELag => sret (state, nothing)
  | EClosed => sret (state, over)
  end.

Definition sync_loop (evs : list Event) : SM (list Turn) :=
  let* s := sync_start in
  let* r := run_loop (sync_turn s.1.1) s.1.2 evs in
  sret (says s.2 :: r.2).

(** ** [run_share] *)

Definition run_share (evs : list (Event * bool)) : SM (list Turn) :=
  match sc_role config with
  | Seed => seed_loop evs.*1
  | Leech => leech_loop evs
  | Sync => sync_loop evs.*1
  end.
End task.
End loops.

(** ** [select!] over [debounce]

    [debounce] receives from the watcher's channel itself; when another
    branch is ready first its future is dropped, with what it has received. *)

(** When the debounce that has received an arrival at [last] is over. *)
Fixpoint settled_at (settle last : Z) (rx : arrivals) : Z :=
  match rx with
  | [] => last + settle
  | t :: rx => if t - last <? settle then settled_at settle t rx else last + settle
  end.

Fixpoint received_by (u : Z) (rx : arrivals) : arrivals :=
  match rx with
  | [] => []
  | t :: rx => if t <=? u then received_by u rx else t :: rx
  end.

(** Whether the change branch is taken, and what is left in the channel;
    [other] is when the first other branch becomes ready. *)
Definition select_debounce (settle : Z) (other : option Z) (rx : arrivals) : bool * arrivals :=
  match rx with
  | [] => (false, [])
  | t :: rest =>
      match other with
      | Some u =>
          if u <? settled_at settle t rest then (false, received_by u rx)
          else (true, debounce_loop settle t rest)
      | None => (true, debounce_loop settle t rest)
      end
  end.

(** The turns of the loop between its other events. *)
Fixpoint noticed (settle : Z) (others : list Z) (rx : arrivals) : bool :=
  match others with
  | [] => (select_debounce settle None rx).1
  | u :: others =>
      let '(fired, rx) := select_debounce settle (Some u) rx in
      fired || noticed settle others rx
  end.

(** ** The invariant of a task

    The log is well formed, the buffer bounded, and the keyring in memory is
    an earlier state of the one on disk (they differ when reloading failed). *)

Section invariant.
Context `{MD : Metadata, ReadDir, Entropy, WallClock, Blake3, Aead, Ed25519, !CryptoBox, Base64}.
Context `{!Bincode rotation_tuple, !BincodeTotal rotation_tuple, !Bincode SignedRotation}.
Context `{!Bincode canonical_tuple, !BincodeTotal canonical_tuple, !GroupCrdt}.
Context `{!Bincode SignedOp, !Bincode (list SignedOp), !Bincode Ticket, !Json ShareMsg}.
Context `{!Json PersistedState, Torrents, SocketAddrs, Services}.
Context `{!KeysSighted}.
Context (dd : path) (sid : string).

Abbreviation cfg := (ShareTask * world)%type.

Record task_ok (s : cfg) : Prop := {
  ok_auth : auth_wf (t_auth s.1);
  ok_buffer : buffer_ok (t_buffer s.1);
  ok_ring : exists r, disk_ring dd sid (w_fs s.2) = Some r /\ ring_extends (t_key s.1) r;
}.

(** Nothing that the task knew is lost: operations and queued rotations in
    memory, keys in memory and on disk.  (The log and the queue on disk are
    written over by each save: see [Cli.direct_revoke_lost].) *)
Record grows (s s' : cfg) : Prop := {
  gr_ops : ops (t_auth s.1) `prefix_of` ops (t_auth s'.1);
  gr_pending : t_pending s.1 `prefix_of` t_pending s'.1;
  gr_key : ring_extends (t_key s.1) (t_key s'.1);
  gr_disk : forall r, disk_ring dd sid (w_fs s.2) = Some r ->
    exists r', disk_ring dd sid (w_fs s'.2) = Some r' /\ ring_extends r r';
}.

Definition evolves (s s' : cfg) : Prop := task_ok s -> task_ok s' /\ grows s s'.

(** Whatever the outcome, and under any faults. *)
Definition keeps {A : Type} (m : SM A) : Prop := forall t w, evolves (t, w) (snd (m t w)).

#[export] Instance ring_extends_preorder : PreOrder ring_extends.
Proof. unfold ring_extends. split; red; [done|]. intros. by etrans. Qed.

#[export] Instance grows_preorder : PreOrder grows.
Proof.
  split.
  - intros s. split; try done. intros r Hr. by exists r.
  - intros s1 s2 s3 [A1 A2 A3 A4] [B1 B2 B3 B4]. split; try by etrans.
    intros r (r2 & Hr2 & E2)%A4. destruct (B4 r2 Hr2) as (r3 & Hr3 & E3). exists r3. split; [done|by etrans].
Qed.

#[export] Instance evolves_preorder : PreOrder evolves.
Proof.
  split.
  - intros s Hs. split; [done|reflexivity].
  - intros s1 s2 s3 E1 E2 Hs1. destruct (E1 Hs1) as [Hs2 G1]. destruct (E2 Hs2) as [Hs3 G2].
    split; [done|by etrans].
Qed.

Lemma keeps_sbind {A B : Type} (m : SM A) (k : A -> SM B) :
  keeps m -> (forall a, keeps (k a)) -> keeps (sbind m k).
Proof.
  intros Hm Hk t w. specialize (Hm t w). unfold sbind.
  destruct (m t w) as [[a|e|] [t' w']]; simpl in *; try done. etrans; [done|apply Hk].
Qed.

(** The continuation may know where its argument comes from. *)
Lemma keeps_sbind_Ok {A B : Type} (m : SM A) (k : A -> SM B) :
  keeps m -> (forall t w a tw, m t w = (Ok a, tw) -> keeps (k a)) -> keeps (sbind m k).
Proof.
  intros Hm Hk t w. specialize (Hm t w). unfold sbind.
  destruct (m t w) as [[a|e|] [t' w']] eqn:E; simpl in *; try done.
  etrans; [done|]. by eapply Hk.
Qed.

Lemma keeps_sget {B : Type} (k : ShareTask -> SM B) : (forall t, keeps (k t)) -> keeps (sbind sget k).
Proof. intros Hk t w. apply Hk. Qed.

Lemma keeps_pure {A : Type} (m : SM A) : (forall t w, snd (m t w) = (t, w)) -> keeps m.
Proof. intros Hm t w. rewrite Hm. reflexivity. Qed.

Lemma keeps_sret {A : Type} (a : A) : keeps (sret a).
Proof. by apply keeps_pure. Qed.
Lemma keeps_sfail {A : Type} e : keeps (sfail (A := A) e).
Proof. by apply keeps_pure. Qed.
Lemma keeps_slift {A : Type} (r : outcome A) : keeps (slift r).
Proof. by apply keeps_pure. Qed.

Lemma keeps_sattempt {A : Type} (m : SM A) : keeps m -> keeps (sattempt m).
Proof.
  intros Hm t w. specialize (Hm t w). unfold sattempt. by destruct (m t w) as [[a|e|] [t' w']].
Qed.

Lemma keeps_sio {A : Type} (m : M A) : keeps_ring dd sid m -> keeps (sio m).
Proof.
  intros Hm t w [Ha Hb (r & Hr & He)]. specialize (Hm w). unfold sio.
  destruct (m w) as [o w'] eqn:E. simpl in *. destruct (Hm r (keys_sighted _ _ _) Hr) as (r' & Hr' & He').
  split; [split; [done..|]; exists r'; split; [done|by etrans]|].
  split; [done..|]. intros r0. by apply Hm, keys_sighted.
Qed.

Lemma keeps_sauth {A : Type} (f : AuthState -> outcome A * AuthState) :
  (forall st, auth_wf st -> auth_wf (snd (f st)) /\ ops st `prefix_of` ops (snd (f st))) ->
  keeps (sauth f).
Proof.
  intros Hf t w [Ha Hb Hr]. specialize (Hf (t_auth t) Ha). unfold sauth.
  destruct (f (t_auth t)) as [o st]. simpl in *. destruct Hf as [Hwf Hpre].
  split; [by split|]. split; simpl; [done..|]. intros r Hd. by exists r.
Qed.

Lemma evolves_intro s s' : (task_ok s -> evolves s s') -> evolves s s'.
Proof. unfold evolves. tauto. Qed.

(** Reload the keyring. *)
Lemma keeps_reload_bare {A : Type} (k : SM A) :
  keeps k ->
  keeps (sbind (sio (load_or_create_keyring dd sid))
    (fun fresh => sbind (smod (set_key fresh)) (fun _ => k))).
Proof.
  intros Hk t w. apply evolves_intro. intros [Ha Hb (r & Hr & He)].
  pose proof (load_keyring_disk dd sid w r (keys_sighted _ _ _) Hr) as Hl. unfold sbind at 1 2, sio.
  destruct (load_or_create_keyring dd sid w) as [o w']. destruct Hl as [Hfs Ho].
  assert (forall t', t_auth t' = t_auth t -> t_buffer t' = t_buffer t -> t_pending t' = t_pending t ->
    (t_key t' = t_key t \/ t_key t' = r) -> evolves (t, w) (t', w')) as Hev.
  { intros t' Ea Eb Ep Ek _. split; split; simpl; rewrite ?Ea, ?Eb, ?Ep, ?Hfs; try done.
    - exists r. split; [done|]. by destruct Ek as [->| ->].
    - by destruct Ek as [->| ->].
    - intros r0 Hr0. by exists r0. }
  destruct Ho as [->|[e ->]]; simpl.
  - assert (evolves (t, w) (set_key r t, w')) as Hev1 by (apply Hev; [done..|by right]).
    exact (transitivity Hev1 (Hk (set_key r t) w')).
  - apply (Hev t); [done..|by left].
Qed.

Lemma keeps_reload {A : Type} c (k : SM A) :
  keeps k ->
  keeps (sbind (sio (ctx c (load_or_create_keyring dd sid)))
    (fun fresh => sbind (smod (set_key fresh)) (fun _ => k))).
Proof.
  intros Hk t w. pose proof (keeps_reload_bare k Hk t w) as Hr. revert Hr.
  unfold sbind at 1 3, sio, ctx.
  by destruct (load_or_create_keyring dd sid w) as [[r|e|] w'].
Qed.

Lemma keeps_buffer_set f :
  (forall b, buffer_ok b -> buffer_ok (f b)) -> keeps (smod (fun t => set_buffer (f (t_buffer t)) t)).
Proof.
  intros Hf t w [Ha Hb Hr]. simpl in *. split; [split; simpl; auto|]. split; simpl; [done..|].
  intros r Hd. by exists r.
Qed.

Lemma keeps_ring_same {A : Type} (S : path -> Prop) (m : M A) :
  touches S m -> ~ S (kfile dd sid) -> keeps_ring dd sid m.
Proof.
  intros Hm Hs w r _ Hr. exists r. rewrite (disk_ring_touches S m dd sid w Hm Hs). done.
Qed.

Lemma keeps_ring_ctx {A : Type} c (m : M A) : keeps_ring dd sid m -> keeps_ring dd sid (ctx c m).
Proof. intros Hm w r Hu Hr. destruct (Hm w r Hu Hr) as (r' & Hr' & He). exists r'. unfold ctx. by destruct (m w). Qed.

Lemma auth_save_keeps st : keeps_ring dd sid (auth_save dd sid st).
Proof.
  eapply keeps_ring_same; [apply auth_save_touches|].
  unfold auth_file, auth_tmp, kfile. by intros [[=]%app_inv_head|[=]%app_inv_head].
Qed.

Lemma save_pending_keeps rot : keeps_ring dd sid (save_pending dd sid rot).
Proof.
  destruct (bin_encode rot) as [raw|] eqn:E.
  - intros w r Hr. exists r. split; [|reflexivity].
    destruct (save_pending_run_eq dd sid rot raw w E) as [-> _].
    rewrite (disk_ring_touches _ _ dd sid w (write_atomic_touches _ _ _ _ _)); [done|].
    unfold kfile, pfile, ptmp, pdir. rewrite <- !app_assoc.
    by intros [[=]%app_inv_head|[=]%app_inv_head].
  - apply (keeps_ring_same (fun _ => False)); [|tauto].
    unfold save_pending. rewrite E. cbv zeta. intros w q _. unfold bind at 1.
    pose proof (touches_ctx _ "create_dir_all" _
      (touches_create_dir_all (fun _ => False) (pending_dir dd sid)) w q ltac:(tauto)) as Ht.
    by destruct (ctx _ _ w) as [[[]|e|] w1].
Qed.

Lemma build_keeps sk ep k rs : keeps_ring dd sid (build_signed_rotation sk ep k rs).
Proof.
  apply (keeps_ring_same (fun _ => False)); [|tauto]. unfold build_signed_rotation. cbv zeta.
  apply touches_bind; [|auto with peerdup].
  induction (dedup_by id (sort_by id rs)) as [|r l IH]; cbn [seal_all]; [auto with peerdup|].
  apply touches_bind; [unfold seal_for; auto 10 with peerdup|]. intros env.
  apply touches_bind; [exact IH|]. auto with peerdup.
Qed.

Lemma author_keeps k g a : keeps (sauth (author k g a)).
Proof.
  apply keeps_sauth. intros st Hwf. split; [by apply author_wf|].
  unfold author, process. cbv zeta. destruct (bin_encode _); [|done]. simpl.
  destruct (crdt_process _ _); simpl; [by apply prefix_app_r|done].
Qed.

Lemma on_log_keeps payload n : keeps (sauth (apply_ops_loop payload n)).
Proof. apply keeps_sauth. intros st Hwf. by apply apply_ops_wf. Qed.

Lemma try_install_keeps rot g id0 : keeps (try_install_rotation rot g id0 dd sid).
Proof.
  unfold try_install_rotation. apply keeps_sget. intros t.
  destruct (verify_and_decrypt _ _ _ _) as [k| | | |] eqn:Ev; try apply keeps_sret.
  apply verify_iff in Ev. inversion Ev as [| | | |e k' ? ? ? [? ?]]; subst.
  apply keeps_sbind; [by apply keeps_sio, keeps_ring_ctx, install_epoch_keeps|].
  intros [| | |]; try apply keeps_sret. apply keeps_reload, keeps_sret.
Qed.

Lemma buffer_rest_keeps t c rest :
  sort_by epoch (t_buffer t) = c :: rest -> forall w, evolves (t, w) (set_buffer rest t, w).
Proof.
  intros E w [Ha Hb Hr]. simpl in *. split; [split; simpl; [done| |done]|].
  - by eapply buffer_rest_ok.
  - split; simpl; [done..|]. intros r Hd. by exists r.
Qed.

Lemma drain_loop_keeps fuel g id0 : keeps (drain_loop fuel g id0 dd sid).
Proof.
  induction fuel as [|fuel IH]; cbn [drain_loop]; [apply keeps_sret|]. intros t w.
  rewrite sget_run. destruct (sort_by epoch (t_buffer t)) as [|c rest] eqn:E; [reflexivity|].
  rewrite smod_run. apply evolves_intro. intros [_ Hb _].
  pose proof (buffer_rest_ok _ _ _ Hb E) as Hrest.
  transitivity (set_buffer rest t, w); [by eapply buffer_rest_keeps|].
  match goal with |- evolves _ (snd (?m _ _)) => assert (keeps m) as Hm; [|apply Hm] end.
  apply keeps_sbind; [apply keeps_sattempt, try_install_keeps|].
  intros [[| | |]|e|]; try exact IH.
  apply (keeps_buffer_set (fun _ => buffer_push rest c)). intros _ _. by apply buffer_push_ok.
Qed.

Lemma apply_rotation_keeps rot g id0 : keeps (apply_key_rotation rot g id0 dd sid).
Proof.
  unfold apply_key_rotation. apply keeps_sbind; [apply try_install_keeps|].
  intros [| | |]; try apply keeps_sret.
  - unfold drain_rotation_buffer. apply keeps_sget. intros t. apply drain_loop_keeps.
  - apply (keeps_buffer_set (fun b => buffer_push b rot)). intros b. by apply buffer_push_ok.
Qed.

Lemma apply_auth_ops_keeps payload : keeps (apply_auth_ops payload dd sid).
Proof.
  unfold apply_auth_ops. apply keeps_sbind; [apply on_log_keeps|]. intros n.
  apply keeps_sbind; [|intros _; apply keeps_sret].
  destruct (0 <? n)%nat; [|apply keeps_sret]. apply keeps_sget. intros t.
  apply keeps_sio, keeps_ring_ctx, auth_save_keeps.
Qed.

Lemma logged_keeps {A : Type} (m : SM A) : keeps m -> keeps (logged m).
Proof.
  intros Hm. apply keeps_sbind; [by apply keeps_sattempt|]. intros _. apply keeps_sret.
Qed.

Lemma push_pending_keeps l : keeps (smod (fun t => set_pending (t_pending t ++ l) t)).
Proof.
  intros t w [Ha Hb Hr]. split; [by split|]. split; simpl; try done; [by apply prefix_app_r|].
  intros r Hd. by exists r.
Qed.
End invariant.

Section turns.
Context `{MD : Metadata, ReadDir, Entropy, WallClock, Blake3, Aead, Ed25519, !CryptoBox, Base64}.
Context `{!Bincode rotation_tuple, !BincodeTotal rotation_tuple, !Bincode SignedRotation}.
Context `{!Bincode canonical_tuple, !BincodeTotal canonical_tuple, !GroupCrdt}.
Context `{!Bincode SignedOp, !Bincode (list SignedOp), !Bincode Ticket, !Json ShareMsg}.
Context `{!Json PersistedState, Torrents, SocketAddrs, Services}.
Context `{!KeysSighted}.
Context (config : ShareConfig) (dd : path) (identity : bytes).

Abbreviation keeps := (keeps dd (sc_id config)).

Lemma invite_keeps m ar sr : keeps (handle_invite config dd identity m ar sr).
Proof.
  unfold handle_invite. cbv zeta. apply keeps_sget. intros t.
  destruct (auth_is_empty _); [apply keeps_sfail|]. destruct (is_member _ _ _); [apply keeps_sfail|].
  apply keeps_sbind; [apply author_keeps|]. intros _. apply keeps_sget. intros t1.
  apply keeps_sbind; [apply keeps_sio, auth_save_keeps|]. intros _. apply keeps_slift.
Qed.

Lemma revoke_keeps m : keeps (handle_revoke config dd identity m).
Proof.
  unfold handle_revoke. cbv zeta. apply keeps_sget. intros t.
  destruct (auth_is_empty _); [apply keeps_sfail|]. destruct (negb _); [apply keeps_sfail|].
  apply keeps_sbind; [apply author_keeps|]. intros _. apply keeps_sget. intros t1.
  apply keeps_sbind; [apply keeps_sio, auth_save_keeps|]. intros _.
  apply keeps_sbind; [apply keeps_sio, rotate_keeps|]. intros e.
  apply keeps_sbind; [apply keeps_sio, load_keeps|]. intros ring.
  apply keeps_sbind; [apply keeps_slift|]. intros k.
  eapply (keeps_reload_bare dd (sc_id config)).
  apply keeps_sbind; [apply keeps_sio, build_keeps|]. intros rot.
  apply keeps_sbind; [apply keeps_sio, save_pending_keeps|]. intros _.
  apply keeps_sbind; [apply push_pending_keeps|]. intros _. apply keeps_sret.
Qed.

Lemma rotate_key_keeps : keeps (handle_rotate_key config dd).
Proof.
  unfold handle_rotate_key. apply keeps_sbind; [apply keeps_sio, rotate_keeps|]. intros e.
  apply keeps_reload_bare, keeps_sret.
Qed.

Lemma command_keeps cmd : keeps (handle_share_command cmd config dd identity).
Proof.
  destruct cmd as [m ar sr|m| | |]; simpl.
  - apply keeps_sbind; [apply keeps_sattempt, invite_keeps|]. intros r. apply keeps_sret.
  - apply keeps_sbind; [apply keeps_sattempt, revoke_keeps|]. intros r. apply keeps_sret.
  - apply keeps_sbind; [apply keeps_sattempt, rotate_key_keeps|]. intros r. apply keeps_sret.
  - apply keeps_sget. intros t. apply keeps_sret.
  - apply keeps_sret.
Qed.

Lemma on_command_keeps cmd : keeps (on_command config dd identity cmd).
Proof. unfold on_command. apply keeps_sbind; [apply command_keeps|]. intros r. apply keeps_sret. Qed.

Lemma on_auth_ops_keeps l : keeps (on_auth_ops config dd l).
Proof. apply logged_keeps, apply_auth_ops_keeps. Qed.

Lemma on_rotation_keeps rot : keeps (on_rotation config dd identity rot).
Proof. apply logged_keeps, apply_rotation_keeps. Qed.

Lemma run_loop_keeps {St Ev : Type} (turn : St -> Ev -> SM (St * Turn)) evs st :
  (forall st ev, keeps (turn st ev)) -> keeps (run_loop turn st evs).
Proof.
  intros Ht. revert st. induction evs as [|ev evs IH]; intros st; cbn [run_loop]; [apply keeps_sret|].
  apply keeps_sbind; [apply Ht|]. intros r. destruct (tn_stop r.2); [apply keeps_sret|].
  apply keeps_sbind; [apply IH|]. intros rest. apply keeps_sret.
Qed.

Lemma seed_turn_keeps ann st ev : keeps (seed_turn config dd identity ann st ev).
Proof.
  destruct ev as [|cmd|b| | |]; simpl; try apply keeps_sret.
  - apply keeps_sbind; [|intros l; apply keeps_sret]. apply keeps_sget. intros t. apply keeps_sret.
  - apply keeps_sbind; [apply on_command_keeps|]. intros tn. apply keeps_sret.
  - destruct (json_from_slice b) as [[a|l|rot]|]; try apply keeps_sret.
    + apply keeps_sbind; [apply on_auth_ops_keeps|]. intros _. apply keeps_sret.
    + apply keeps_sbind; [apply on_rotation_keeps|]. intros _. apply keeps_sret.
Qed.

(** *** Leech and sync: the keyring is out of reach of the transfers *)

Section transfers.
Context `{!TorrentFolders} (port : Z).

Abbreviation root := (sc_root_path config).
Context (Hroot : ~ root `prefix_of` kfile dd (sc_id config)).

Lemma beside_not_kfile (r : path) : kfile dd (sc_id config) <> beside r.
Proof.
  unfold kfile, beside, set_file_name. intros [_ E]%app_inj_2; [|done]. injection E as E.
  apply (f_equal string_bytes) in E. rewrite string_bytes_app in E.
  apply (f_equal length) in E. rewrite length_app in E. simpl in E. lia.
Qed.

Lemma engine_keeps {A : Type} (m : M A) :
  touches (engine_file root dd (sc_id config)) m -> keeps_ring dd (sc_id config) m.
Proof.
  intros Hm. eapply keeps_ring_same; [exact Hm|]. intros [?|[E|[E|E]]]; [done| | |].
  - by apply beside_not_kfile in E.
  - unfold kfile, sfile in E. by apply app_inv_head in E.
  - unfold kfile, stmp in E. by apply app_inv_head in E.
Qed.

Lemma none_keeps {A : Type} (m : M A) : touches (fun _ => False) m -> keeps_ring dd (sc_id config) m.
Proof. intros Hm. eapply keeps_ring_same; [exact Hm|tauto]. Qed.

Lemma leech_apply_frame ih eps : touches (engine_file root dd (sc_id config)) (leech_apply_announce root ih eps).
Proof.
  unfold leech_apply_announce. cbv zeta. case_decide; [auto with peerdup|].
  apply touches_bind_Ok; [apply framed_inner, magnet_touches|].
  intros w resp w' Ha. apply touches_bind_Ok; [auto with peerdup|]. intros w1 i w2 [Hi _]%lift_Ok.
  apply ok_or_Ok in Hi as ->. apply touches_ctx, framed_inner. by eapply wait_touches.
Qed.

Lemma leech_turn_keeps c ev : keeps (leech_turn config dd identity root c ev).
Proof.
  destruct ev as [[|cmd|b| | |] closed]; simpl; try apply keeps_sret.
  - apply keeps_sbind; [apply on_command_keeps|]. intros tn. apply keeps_sret.
  - destruct (json_from_slice b) as [[a|l|rot]|]; try apply keeps_sret.
    + destruct c; [apply keeps_sret|]. apply keeps_sbind; [|intros [u|e|]; apply keeps_sret].
      apply keeps_sattempt, keeps_sio, engine_keeps, leech_apply_frame.
    + apply keeps_sbind; [apply on_auth_ops_keeps|]. intros _. apply keeps_sret.
    + apply keeps_sbind; [apply on_rotation_keeps|]. intros _. apply keeps_sret.
Qed.

Lemma on_engine_keeps (m : KeyRing -> M (option ShareState * list Announce)) :
  (forall k, touches (engine_file root dd (sc_id config)) (m k)) -> keeps (on_engine m).
Proof.
  intros Hm. unfold on_engine. apply keeps_sget. intros t.
  apply keeps_sbind; [apply keeps_sio, engine_keeps, Hm|]. intros r. apply keeps_sret.
Qed.

Lemma sync_turn_keeps st ev : keeps (sync_turn config dd identity port root st ev).
Proof.
  destruct ev as [|cmd|b| | |]; cbn [sync_turn]; try apply keeps_sret.
  - apply keeps_sbind; [|intros l; apply keeps_sret]. apply keeps_sget. intros t. apply keeps_sret.
  - apply keeps_sbind; [apply on_command_keeps|]. intros tn. apply keeps_sret.
  - destruct (json_from_slice b) as [[a|l|rot]|]; try apply keeps_sret.
    + apply on_engine_keeps. intros k. by apply on_announce_frame.
    + apply keeps_sbind; [apply on_auth_ops_keeps|]. intros _. apply keeps_sret.
    + apply keeps_sbind; [apply on_rotation_keeps|]. intros _. apply keeps_sret.
  - apply on_engine_keeps. intros k. by apply local_change_frame.
Qed.

(** The canonical root is the configured one. *)
Lemma canonicalize_Ok p w q w' : fs_canonicalize p w = (Ok q, w') -> q = p.
Proof. unfold fs_canonicalize, io, op_canonicalize. intros E. repeat case_match; by simplify_eq/=. Qed.

Lemma leech_start_root t w s tw : leech_start config t w = (Ok s, tw) -> s.1 = root.
Proof.
  unfold leech_start. intros Hr. apply sio_Ok in Hr as ([] & w1 & _ & Hr).
  apply sio_Ok in Hr as (p & w2 & Hp%ctx_Ok%canonicalize_Ok & Hr).
  apply sio_Ok in Hr as ([] & w3 & _ & Hr). by injection Hr as <- _.
Qed.

Lemma sync_start_root t w s tw : sync_start config dd identity port t w = (Ok s, tw) -> s.1.1 = root.
Proof.
  unfold sync_start. intros Hr. apply sio_Ok in Hr as ([] & w1 & _ & Hr).
  apply sio_Ok in Hr as (p & w2 & Hp%ctx_Ok%canonicalize_Ok & Hr).
  apply sio_Ok in Hr as ([] & w3 & _ & Hr). rewrite sget_run in Hr.
  apply sio_Ok in Hr as (v & w4 & _ & Hr). apply sio_Ok in Hr as ([] & w5 & _ & Hr).
  by injection Hr as <- _.
Qed.

Lemma inert_keeps {A : Type} c (m : M A) :
  (forall w, w_fs (snd (m w)) = w_fs w) -> keeps (sio (ctx c m)).
Proof. intros Hm. by apply keeps_sio, none_keeps, touches_ctx, touches_inert. Qed.

Lemma start_keeps {A : Type} (k : path -> SM A) :
  keeps (k root) ->
  keeps (sio (ctx "create_dir_all" (fs_create_dir_all root)) ;*
         let* p := sio (ctx "canonicalize" (fs_canonicalize root)) in
         sio (gossip_stream (share_topic config)) ;* k p).
Proof.
  intros Hk. apply keeps_sbind; [apply keeps_sio, none_keeps; auto with peerdup|]. intros _.
  apply keeps_sbind_Ok; [apply keeps_sio, none_keeps; auto with peerdup|].
  intros t w p tw Hp. unfold sio in Hp. destruct (ctx _ _ w) as [o w1] eqn:E. simplify_eq.
  apply ctx_Ok, canonicalize_Ok in E as ->.
  apply keeps_sbind; [|done]. apply keeps_sio, none_keeps, touches_inert, gossip_stream_inert.
Qed.

Lemma seed_start_keeps : keeps (seed_start config port).
Proof.
  unfold seed_start. apply keeps_sbind; [apply keeps_sio, none_keeps; auto with peerdup|]. intros p.
  apply keeps_sbind; [apply inert_keeps, create_torrent_inert|]. intros res.
  apply keeps_sbind; [apply keeps_sio, none_keeps, touches_inert, add_bytes_inert|]. intros resp.
  apply keeps_sbind; [apply keeps_slift|]. intros h.
  apply keeps_sbind; [apply keeps_slift|]. intros ann.
  apply keeps_sbind; [apply keeps_sio, none_keeps, touches_inert, gossip_stream_inert|].
  intros _. apply keeps_sret.
Qed.

Lemma leech_start_keeps : keeps (leech_start config).
Proof. apply start_keeps, keeps_sget. intros t. apply keeps_sret. Qed.

Lemma sync_start_keeps : keeps (sync_start config dd identity port).
Proof.
  apply start_keeps, keeps_sget. intros t.
  apply keeps_sbind; [by apply keeps_sio, engine_keeps, reconcile_frame|]. intros v.
  apply keeps_sbind; [apply inert_keeps, watch_inert|]. intros _. apply keeps_sret.
Qed.

Lemma run_share_keeps evs : keeps (run_share config dd identity port evs).
Proof.
  unfold run_share. destruct (sc_role config).
  - apply keeps_sbind; [apply seed_start_keeps|]. intros ann.
    apply keeps_sbind; [|intros r; apply keeps_sret]. apply run_loop_keeps. intros st ev.
    apply seed_turn_keeps.
  - apply keeps_sbind_Ok; [apply leech_start_keeps|].
    intros t w s tw ->%leech_start_root. apply keeps_sbind; [|intros r; apply keeps_sret].
    apply run_loop_keeps. intros st ev. apply leech_turn_keeps.
  - apply keeps_sbind_Ok; [apply sync_start_keeps|].
    intros t w s tw ->%sync_start_root. apply keeps_sbind; [|intros r; apply keeps_sret].
    apply run_loop_keeps. intros st ev. apply sync_turn_keeps.
Qed.
End transfers.

(** *** Spawning *)

Lemma replay_wf l st : auth_wf st -> auth_wf (replay l st).2.
Proof.
  revert st. induction l as [|op l IH]; intros st Hst; simpl; [done|].
  destruct (apply_remote_wf op st Hst) as [Hw _].
  destruct (apply_remote op st) as [[b|e|] st']; simpl in *; auto.
Qed.

Lemma auth_load_Ok sid w st w' :
  auth_load dd sid w = (Ok st, w') -> auth_wf st /\ pending st = [] /\ w_fs w' = w_fs w.
Proof.
  unfold auth_load. intros Hl. apply bind_Ok in Hl as (ex & w1 & Hex & Hl). injection Hex as _ <-.
  destruct (negb ex); [injection Hl as <- <-; split; [apply auth_empty_wf|done]|].
  apply bind_Ok in Hl as (raw & w2 & (_ & Hfs & _)%ctx_Ok%fs_read_Ok & Hl).
  apply bind_Ok in Hl as (l & w3 & [_ ->]%lift_Ok & Hl).
  pose proof (replay_wf l auth_empty auth_empty_wf) as Hwf.
  destruct (replay l auth_empty) as [r st1]. simpl in Hwf.
  apply bind_Ok in Hl as ([] & w4 & [_ ->]%lift_Ok & Hl).
  case_decide; [|done]. by injection Hl as <- <-.
Qed.

Lemma load_pending_touches sid : touches (fun _ => False) (load_pending dd sid).
Proof.
  unfold load_pending. cbv zeta. apply touches_bind; [auto with peerdup|]. intros ex.
  destruct (negb ex); [auto with peerdup|]. apply touches_bind; [auto with peerdup|]. intros names.
  apply touches_bind; [|auto with peerdup].
  induction names as [|n names IH]; cbn [load_pending_entries]; [auto with peerdup|].
  case_decide; [done|]. apply touches_bind; [auto with peerdup|]. intros raw.
  apply touches_bind; [auto with peerdup|]. intros rot. apply touches_bind; [done|].
  auto with peerdup.
Qed.

Lemma spawn_ok w t w' :
  spawn_share_task dd config w = (Ok t, w') -> task_ok dd (sc_id config) (t, w').
Proof.
  unfold spawn_share_task. intros Hs.
  apply bind_Ok in Hs as (k & w1 & (Hwk & Hd & _)%ctx_Ok%load_keyring_Ok & Hs).
  apply bind_Ok in Hs as (st & w2 & (Hwf & _ & Hfs)%ctx_Ok%auth_load_Ok & Hs).
  apply bind_Ok in Hs as (r & w3 & [Hp _]%attempt_Ok & Hs). injection Hs as <- <-.
  split; simpl; [done|by split; [simpl; lia|constructor]|]. exists k. split; [|reflexivity].
  apply disk_ring_bytes; [done|]. unfold data_at.
  pose proof (load_pending_touches (sc_id config) w2 (kfile dd (sc_id config)) ltac:(tauto)) as Ht.
  rewrite Hp in Ht. simpl in Ht. by rewrite Ht, Hfs.
Qed.
End turns.

(** ** Properties *)

Section properties.
Context `{MD : Metadata, ReadDir, Entropy, WallClock, Blake3, Aead, Ed25519, !CryptoBox, Base64}.
Context `{!Bincode rotation_tuple, !BincodeTotal rotation_tuple, !Bincode SignedRotation}.
Context `{!Bincode canonical_tuple, !BincodeTotal canonical_tuple, !GroupCrdt}.
Context `{!Bincode SignedOp, !Bincode (list SignedOp), !Bincode Ticket, !Json ShareMsg}.
Context `{!Json PersistedState, Torrents, SocketAddrs, Services}.
Context `{!KeysSighted}.

(** C5. The life of a share task is safe: from a successful spawn, through the
    loop of any role on any events (commands and arbitrary payloads
    included), with any outcome and any I/O failures, the membership log
    stays well formed and only grows, the queue only grows, the rotation
    buffer stays bounded, the keyring in memory never forgets a key and is
    always an initial part of the one on disk, which never loses a key. *)
Theorem share_task_safe `{!TorrentFolders} (config : ShareConfig) (dd : path) (identity : bytes)
    (port : Z) (evs : list (Event * bool)) (t : ShareTask) (w0 w : world)
    (Hspawn : spawn_share_task dd config w0 = (Ok t, w))
    (Hroot : ~ sc_root_path config `prefix_of` kfile dd (sc_id config)) :
  let s' := snd (run_share config dd identity port evs t w) in
  task_ok dd (sc_id config) s' /\ grows dd (sc_id config) (t, w) s'.
Proof.
  cbv zeta. apply (run_share_keeps config dd identity port Hroot evs t w). by eapply spawn_ok.
Qed.

(** A leech downloads once: it takes a share over only when a transfer it
    started for an announce has completed, keeps trying until then, and from
    then on no announce makes it do anything; it ends as soon as it is
    complete and nobody can send it commands. *)
Theorem leech_completes_once (config : ShareConfig) (dd : path) (identity : bytes) (root : path)
    (b : bytes) (a : Announce) (closed : bool) (t : ShareTask) (w : world)
    (Hb : json_from_slice b = Some (MAnnounce a)) :
  let turn := leech_turn config dd identity root in
  let got := leech_apply_announce root (an_info_hash a) (an_bt_endpoints a) w in
  turn true (EGossip b, closed) t w = (Ok (true, finished true closed), (t, w)) /\
  match got with
  | (Ok _, w') => turn false (EGossip b, closed) t w = (Ok (true, finished true closed), (t, w'))
  | (Err _, w') => turn false (EGossip b, closed) t w = (Ok (false, nothing), (t, w'))
  | (Panic, w') => turn false (EGossip b, closed) t w = (Panic, (t, w'))
  end.
Proof.
  cbv zeta. unfold leech_turn. rewrite Hb. split; [done|].
  unfold sbind, sattempt, sio. by destruct (leech_apply_announce _ _ _ w) as [[u|e|] w'].
Qed.

(** [serve] starts every share it can: the start of the others is attempted
    whatever fails, a share runs exactly with what was read for it, and a
    share that is not running could not be read. *)
Theorem serve_starts (dd : path) (configs : list ShareConfig)
    (m0 m : gmap string (ShareConfig * ShareTask)) (w w' : world)
    (Hrun : spawn_all dd configs m0 w = (Ok m, w')) :
  (forall sid c t, m !! sid = Some (c, t) -> m0 !! sid = Some (c, t) \/
     (c ∈ configs /\ sc_id c = sid /\ exists w1 w2, spawn_share_task dd c w1 = (Ok t, w2))) /\
  (forall sid, is_Some (m0 !! sid) -> is_Some (m !! sid)) /\
  (forall c, c ∈ configs -> is_Some (m !! sc_id c) \/
     exists w1 w2 e, spawn_share_task dd c w1 = (Err e, w2)).
Proof.
  revert m0 w Hrun. induction configs as [|c configs IH]; intros m0 w; cbn [spawn_all].
  { intros [= <- <-]. split; [by left|]. split; [done|]. by intros c ?%elem_of_nil. }
  intros (r & w1 & Hr & Hs)%bind_Ok. apply attempt_Ok in Hr as [Hr Hnp].
  destruct r as [t|e|]; [| |done].
  - apply IH in Hs as (H1' & H2' & H3'). split; [|split].
    + intros sid c' t' Hm. apply H1' in Hm as [Hm|(Hc & Hid & Hw)].
      * apply lookup_insert_Some in Hm as [[<- [= <- <-]]|[_ Hm]]; [|by left].
        right. split; [by left|]. split; [done|]. by exists w, w1.
      * right. split; [by right|done].
    + intros sid Hsid. apply H2'. destruct (decide (sc_id c = sid)) as [<-|];
        [by rewrite lookup_insert_eq|by rewrite lookup_insert_ne].
    + intros c' [->|Hc]%elem_of_cons; [|by apply H3'].
      left. apply H2'. by rewrite lookup_insert_eq.
  - apply IH in Hs as (H1' & H2' & H3'). split; [|split; [done|]].
    + intros sid c' t' Hm. apply H1' in Hm as [Hm|(Hc & Hid & Hw)]; [by left|].
      right. split; [by right|done].
    + intros c' [->|Hc]%elem_of_cons; [|by apply H3']. right. by exists w, w1, e.
Qed.

(** An edit can go unnoticed: when another branch of the loop is ready after
    the last event of a burst and before the burst has settled, the burst is
    gone from the channel, and no later turn sees it, whatever comes next;
    when it is ready only after that, the edit is noticed. *)
Theorem interrupted_debounce_loses_edit (settle u t : Z) (burst : arrivals) (others : list Z)
    (Hburst : Forall (fun x => x <= u) (t :: burst)) :
  noticed settle (u :: others) (t :: burst) = negb (u <? settled_at settle t burst).
Proof.
  assert (forall rx, Forall (fun x => x <= u) rx -> received_by u rx = []) as Hrec.
  { induction 1 as [|x rx Hx _ IH]; cbn [received_by]; [done|]. by rewrite (proj2 (Z.leb_le _ _) Hx). }
  cbn [noticed select_debounce]. destruct (u <? settled_at settle t burst); [|done].
  rewrite Hrec by done. simpl. clear. induction others as [|v others IH]; [done|]. exact IH.
Qed.

(** Once a share was started the daemon stops on a signal only: the end of
    its tasks, even of all of them, is not noticed, since the map of the
    shares keeps them. *)
Theorem serve_ignores_exits {A : Type} (shares : gmap string A) (none register_dbus : bool)
    (polls : list Poll) (Hs : shares <> ∅) :
  serve_wait shares none register_dbus polls = true <-> PSignal ∈ polls.
Proof.
  induction polls as [|p polls IH]; cbn [serve_wait]; [split; [done|by intros ?%elem_of_nil]|].
  rewrite orb_true_iff, IH, elem_of_cons.
  destruct p; cbn [serve_turn]; rewrite ?(bool_decide_false _ Hs); naive_solver.
Qed.
End properties.

(** ** Witnesses *)

Definition toy_services : Services.
Proof.
  refine {| gossip_stream := fun _ => ret tt; watch := fun _ => ret tt |}; done.
Defined.

Section witnesses.
#[local] Existing Instance toy_metadata.
#[local] Existing Instance toy_sighted.
#[local] Existing Instance toy_entropy.
#[local] Existing Instance toy_blake3.
#[local] Existing Instance toy_aead.
#[local] Existing Instance toy_ed25519.
#[local] Existing Instance toy_box.
#[local] Existing Instance toy_base64.
#[local] Existing Instance toy_read_dir.
#[local] Existing Instance toy_clock.
#[local] Existing Instance toy_state.
#[local] Existing Instance toy_addrs.
#[local] Existing Instance toy_rotation_tuple.
#[local] Existing Instance toy_rotation_total.
#[local] Existing Instance toy_rotation.
#[local] Existing Instance toy_canonical.
#[local] Existing Instance toy_canonical_total.
#[local] Existing Instance toy_group.
#[local] Existing Instance toy_op.
#[local] Existing Instance toy_ops.
#[local] Existing Instance toy_ticket.
#[local] Existing Instance toy_msg.
#[local] Existing Instance idle_torrents.
#[local] Existing Instance idle_folders.
#[local] Existing Instance toy_services.

(** Alice's share with its log and keyring on disk. *)
Definition wl_cfg : ShareConfig :=
  {| sc_id := "share"; sc_topic := "topic"; sc_root_path := ["home"]; sc_role := Sync;
     sc_created_at := 0 |}.
Definition wl_world : world := snd (auth_save wd_dd "share" wa_final wd_world).
Definition wl_events : list (Event * bool) :=
  [(ETick, false); (ECommand CRotateKey, false); (EGossip [Byte.x01], false); (ESettled, false);
   (ECommand (CRevoke wd_bob), false); (ECommand CShutdown, false)].

Lemma wl_spawns :
  match (spawn_share_task wd_dd wl_cfg wl_world).1 with Ok t => length (ops (t_auth t)) | _ => O end = 3%nat.
Proof. vm_compute. reflexivity. Qed.

Lemma share_task_safe_witness :
  exists t w, spawn_share_task wd_dd wl_cfg wl_world = (Ok t, w) /\
    task_ok wd_dd "share" (snd (run_share wl_cfg wd_dd wa_alice 4240 wl_events t w)).
Proof.
  pose proof wl_spawns as Hs.
  destruct (spawn_share_task wd_dd wl_cfg wl_world) as [[t|e|] w] eqn:E; cbn [fst] in Hs; [|discriminate Hs..].
  exists t, w. split; [reflexivity|].
  apply (share_task_safe wl_cfg wd_dd wa_alice 4240 wl_events t wl_world w E).
  intros [l Hl]. discriminate Hl.
Defined.

Definition wl_payload : bytes := Eval vm_compute in
  match json_to_vec (MAnnounce wy_announce) with Some b => b | None => [] end.

Lemma leech_completes_once_witness :
  leech_turn wl_cfg wd_dd wa_alice ["home"] true (EGossip wl_payload, true) wd_task wl_world =
    (Ok (true, over), (wd_task, wl_world)).
Proof.
  apply (leech_completes_once wl_cfg wd_dd wa_alice ["home"] wl_payload wy_announce true).
  vm_compute. reflexivity.
Defined.

Lemma serve_starts_witness :
  exists m w, spawn_all wd_dd [wl_cfg] ∅ wl_world = (Ok m, w) /\
    (is_Some (m !! "share") \/
     exists w1 w2 e, spawn_share_task wd_dd wl_cfg w1 = (Err e, w2)).
Proof.
  assert (match (spawn_all wd_dd [wl_cfg] ∅ wl_world).1 with Ok _ => true | _ => false end = true) as Hs
    by (vm_compute; reflexivity).
  destruct (spawn_all wd_dd [wl_cfg] ∅ wl_world) as [[m|e|] w] eqn:E; cbn [fst] in Hs; [|discriminate Hs..].
  exists m, w. split; [reflexivity|].
  destruct (serve_starts wd_dd [wl_cfg] ∅ m wl_world w E) as (_ & _ & Hc).
  exact (Hc wl_cfg (proj2 (elem_of_cons _ _ _) (or_introl eq_refl))).
Defined.

(** A gossip message 100 ms after a save hides the save. *)
Lemma interrupted_debounce_loses_edit_witness : noticed 500 [100; 10000; 20000] [0] = false.
Proof.
  apply (interrupted_debounce_loses_edit 500 100 0 [] [10000; 20000]).
  constructor; [lia|constructor].
Defined.
End witnesses.
