(* ===== verification/Swarm.v ===== *)
(** * The peers of a sync share together

    A system of sync loops ([Loops.sync_start], [Loops.sync_turn]), one per
    peer, that start, hear each other's published payloads, stop and start
    again, on top of users and disks that do as they please.  A run in which
    starts find on disk what the peer held refines the abstract network of
    [Network]; when edits come with later times too, it refines a careful one,
    so that what is proved of careful networks holds of the loops.  What
    happens otherwise is in [Sync.restart_forgets_clock],
    [Network.restart_diverges] and [Network.skew_diverges]. *)

From stdpp Require Import functions.
From S2P Require Import Prelude World Tree Clock External Instances Share Crypto Auth.
From S2P Require Import Rotation Ticket Shadow Sync Frame Network Daemon Loops.

(** What is fixed for a peer. *)
Record Seat := {
  se_config : ShareConfig;
  se_data_dir : path;
  se_identity : bytes;
  se_port : Z;
}.

Section swarm.
Context `{MD : Metadata, ReadDir, Entropy, WallClock, Blake3, Aead, Ed25519, !CryptoBox, Base64}.
Context `{!Bincode rotation_tuple, !BincodeTotal rotation_tuple, !Bincode SignedRotation}.
Context `{!Bincode canonical_tuple, !BincodeTotal canonical_tuple, !GroupCrdt}.
Context `{!Bincode SignedOp, !Bincode (list SignedOp), !Bincode Ticket, !Json ShareMsg}.
Context `{!Json PersistedState, Torrents, SocketAddrs, Services}.

(** [sw_state]: the version a peer holds, or held when it stopped; [sw_up]:
    whether its loop runs; [sw_air]: every payload ever published. *)
Record swarm := {
  sw_state : string -> option ShareState;
  sw_up : string -> bool;
  sw_task : string -> ShareTask;
  sw_world : string -> world;
  sw_air : list bytes;
}.

Definition swarm_start (t : string -> ShareTask) (w : string -> world) : swarm :=
  {| sw_state := fun _ => None; sw_up := fun _ => false; sw_task := t; sw_world := w; sw_air := [] |}.

Definition se_root (seat : Seat) : path := sc_root_path (se_config seat).

Definition seat_turn (seat : Seat) : option ShareState -> Event -> SM (option ShareState * Turn) :=
  sync_turn (se_config seat) (se_data_dir seat) (se_identity seat) (se_port seat) (se_root seat).

Definition seat_start (seat : Seat) : SM (path * option ShareState * list bytes) :=
  sync_start (se_config seat) (se_data_dir seat) (se_identity seat) (se_port seat).

(** The swarm after peer [p] has done something. *)
Definition moved (s : swarm) (p : string) (up : bool) (st : option ShareState)
    (t : ShareTask) (w : world) (pub : list bytes) : swarm :=
  {| sw_state := <[p := st]> (sw_state s); sw_up := <[p := up]> (sw_up s);
     sw_task := <[p := t]> (sw_task s); sw_world := <[p := w]> (sw_world s);
     sw_air := pub ++ sw_air s |}.

Definition after_start (s : swarm) (p : string) (o : outcome (path * option ShareState * list bytes))
    (t : ShareTask) (w : world) : swarm :=
  match o with
  | Ok (_, st, pub) => moved s p true st t w pub
  | _ => moved s p false (sw_state s p) t w []
  end.

Definition after_turn (s : swarm) (p : string) (o : outcome (option ShareState * Turn))
    (t : ShareTask) (w : world) : swarm :=
  match o with
  | Ok (st, tn) => moved s p (negb (tn_stop tn)) st t w (tn_publish tn)
  | _ => moved s p false (sw_state s p) t w []
  end.

(** A peer that is not up starts its loop, with any keys and log; a peer that
    is up takes a turn, a payload it hears being one that was published; its
    loop ends with an error, by itself, or with the process; something else
    happens to the files of a peer.  Starts and turns have any outcome. *)
Inductive swarm_step (seats : gmap string Seat) (s : swarm) : swarm -> Prop :=
| sw_begin p seat t o t' w' :
    seats !! p = Some seat -> sw_up s p = false ->
    seat_start seat t (sw_world s p) = (o, (t', w')) ->
    swarm_step seats s (after_start s p o t' w')
| sw_turn p seat ev o t' w' :
    seats !! p = Some seat -> sw_up s p = true ->
    (forall b, ev = EGossip b -> b ∈ sw_air s) ->
    seat_turn seat (sw_state s p) ev (sw_task s p) (sw_world s p) = (o, (t', w')) ->
    swarm_step seats s (after_turn s p o t' w')
| sw_stop p :
    swarm_step seats s (moved s p false (sw_state s p) (sw_task s p) (sw_world s p) [])
| sw_outside p w' :
    swarm_step seats s (moved s p (sw_up s p) (sw_state s p) (sw_task s p) w' []).

(** *** Orderly runs *)

(** A peer that starts finds on its disk, and can read, the version [l] it
    held, and its directory has not become empty; or it held none and finds
    none. *)
Definition remembers (seat : Seat) (w : world) (l : option ShareState) : Prop :=
  let dd := se_data_dir seat in
  let sid := sc_id (se_config seat) in
  match l with
  | None => data_at (w_fs w) (state_path dd sid) = None
  | Some v => (forall w0, unreadable w0 (state_path dd sid) = false) /\
      saved_state dd sid (w_fs w) v /\ children (w_fs w) (se_root seat) <> []
  end.

(** When [l'] is a local edit of [l], it has a later time, and the counter of
    [p] was not at its maximum. *)
Definition prompt (p : string) (l l' : option ShareState) : Prop :=
  forall v', l' = Some v' -> ss_clock v' = increment (clock_of l) p ->
    get (clock_of l) p < u64_max /\ forall v, l = Some v -> ss_timestamp v < ss_timestamp v'.

(** Every peer that starts remembers; every edit is prompt. *)
Definition mindful (seats : gmap string Seat) (s s' : swarm) : Prop :=
  forall p seat, seats !! p = Some seat -> sw_up s p = false -> sw_up s' p = true ->
    remembers seat (sw_world s p) (sw_state s p).
Definition timely (seats : gmap string Seat) (s s' : swarm) : Prop :=
  forall p seat, seats !! p = Some seat -> prompt p (sw_state s p) (sw_state s' p).

Definition mindful_step (seats : gmap string Seat) (s s' : swarm) : Prop :=
  swarm_step seats s s' /\ mindful seats s s'.
Definition orderly_step (seats : gmap string Seat) (s s' : swarm) : Prop :=
  mindful_step seats s s' /\ timely seats s s'.

Definition mindful_reachable (seats : gmap string Seat) (s : swarm) : Prop :=
  exists t w, rtc (mindful_step seats) (swarm_start t w) s.
Definition orderly_reachable (seats : gmap string Seat) (s : swarm) : Prop :=
  exists t w, rtc (orderly_step seats) (swarm_start t w) s.

(** Each peer's counter is named by its public key. *)
Definition seated (seats : gmap string Seat) : Prop :=
  forall p seat, seats !! p = Some seat -> peer_id_hex (se_identity seat) = p.

(** ** The simulation *)

(** The versions a payload announces. *)
Definition heard_version (b : bytes) (r : Version) : Prop :=
  exists a, json_from_slice b = Some (MAnnounce a) /\ announced a = Some r.

Record simulates (s : swarm) (net : network) : Prop := {
  sim_held : forall p, n_peers net p = version_of <$> sw_state s p;
  sim_air : forall b r, b ∈ sw_air s -> heard_version b r -> r ∈ n_air net;
  sim_said : forall p v, n_peers net p = Some v -> v ∈ n_air net;
}.

Lemma elem_of_payloads b l :
  b ∈ announce_payloads l -> exists a, a ∈ l /\ json_from_slice b = Some (MAnnounce a).
Proof.
  intros (a & Ha & Hb)%list_elem_of_omap. exists a. split; [done|]. by apply json_from_to.
Qed.

Lemma payloads_heard b l r :
  b ∈ announce_payloads l -> heard_version b r -> exists a, a ∈ l /\ announced a = Some r.
Proof.
  intros (a & Ha & Hj)%elem_of_payloads (a' & Hj' & Hr). rewrite Hj in Hj'. simplify_eq. eauto.
Qed.

(** What is said of members carries no version. *)
Lemma membership_silent b t r :
  b ∈ publish_auth_ops (t_auth t) ++ publish_pending_rotations (t_pending t) -> ~ heard_version b r.
Proof.
  intros Hb (a & Hj & _). apply elem_of_app in Hb as [Hb|Hb].
  - unfold publish_auth_ops in Hb. destruct (auth_is_empty _); [by apply not_elem_of_nil in Hb|].
    destruct (auth_announce_bytes _) as [b'|e|] eqn:E; try by apply not_elem_of_nil in Hb.
    apply list_elem_of_singleton in Hb as ->. unfold auth_announce_bytes in E.
    apply rbind_Ok in E as (raw & _ & E). apply ok_or_Ok in E. apply json_from_to in E. congruence.
  - apply list_elem_of_omap in Hb as (rot & _ & E). apply json_from_to in E. congruence.
Qed.

(** What a start or a turn may do to the version of a peer; the last case is
    that of a transfer that fails. *)
Inductive version_move (p : string) (air : bytes -> Prop) (st st' : option ShareState) : Prop :=
| vm_same : version_of <$> st' = version_of <$> st -> version_move p air st st'
| vm_edit s :
    st' = Some s -> ss_clock s = increment (clock_of st) p -> version_move p air st st'
| vm_receive b r :
    air b -> heard_version b r -> version_of <$> st' = receive (version_of <$> st) r ->
    version_move p air st st'
| vm_refuse b r :
    air b -> heard_version b r -> wants (version_of <$> st) r = true -> st' = st ->
    version_move p air st st'.

(** Only the version held is announced. *)
Definition says_only (st : option ShareState) (pub : list bytes) : Prop :=
  forall b r, b ∈ pub -> heard_version b r -> version_of <$> st = Some r.

Lemma says_nothing st : says_only st [].
Proof. by intros b r ?%not_elem_of_nil. Qed.

Lemma says_own s port : says_only (Some s) (publish_sync_announce s port).
Proof.
  intros b r Hb (a & Hj & Hr). unfold publish_sync_announce in Hb.
  destruct (json_to_vec _) eqn:E; [|by apply not_elem_of_nil in Hb].
  apply list_elem_of_singleton in Hb as ->. apply json_from_to in E. rewrite E in Hj.
  injection Hj as <-. by rewrite <- Hr.
Qed.

Lemma says_engine st pub port :
  pub = [] \/ (exists s, st = Some s /\ pub = [sync_announce s port]) ->
  says_only st (announce_payloads pub).
Proof.
  intros Hpub b r Hb Hr. destruct (payloads_heard _ _ _ Hb Hr) as (a & Ha & Hv).
  destruct Hpub as [->|(s & -> & ->)]; [by apply not_elem_of_nil in Ha|].
  apply list_elem_of_singleton in Ha as ->. done.
Qed.

Lemma on_command_silent config dd id0 cmd t w tn tw :
  on_command config dd id0 cmd t w = (Ok tn, tw) -> tn_publish tn = [].
Proof.
  unfold on_command. intros (r & t1 & w1 & _ & E)%sbind_Ok. by injection E as <- _.
Qed.

Lemma seat_turn_moves seat air st ev t w st' tn tw :
  (forall b, ev = EGossip b -> air b) ->
  seat_turn seat st ev t w = (Ok (st', tn), tw) ->
  version_move (peer_id_hex (se_identity seat)) air st st' /\ says_only st' (tn_publish tn).
Proof.
  unfold seat_turn, sync_turn. intros Hair. destruct ev as [|cmd|b| | |]; intros Hrun.
  - unfold membership_turn in Hrun. injection Hrun as <- <- _. split; [by apply vm_same|]. simpl.
    intros b r [Hb|Hb]%elem_of_app Hr; [|by destruct (membership_silent b t r Hb Hr)].
    destruct st as [s|]; [|by apply not_elem_of_nil in Hb]. by eapply says_own.
  - apply sbind_Ok in Hrun as (tn' & t1 & w1 & Hc & Hrun). injection Hrun as <- <- _.
    split; [by apply vm_same|]. rewrite (on_command_silent _ _ _ _ _ _ _ _ Hc). apply says_nothing.
  - destruct (json_from_slice b) as [[a|l|rot]|] eqn:Ej.
    + unfold on_engine in Hrun. rewrite sget_run in Hrun.
      apply sio_Ok in Hrun as ([st1 pub] & w1 & Ha & Hrun). injection Hrun as <- <- _.
      apply on_announce_step in Ha as [Hpub Hv]. cbn [fst snd]. split.
      * destruct (announced a) as [r|] eqn:Er; [|apply vm_same; by rewrite Hv].
        assert (heard_version b r) as Hb by by exists a.
        destruct (wants (version_of <$> st) r) eqn:Ew;
          [|apply (vm_receive _ _ _ _ b r); [by apply Hair|done|by apply Hv]].
        destruct Hv as [_ Hv]. destruct (Hv eq_refl) as [[-> _]|E].
        -- apply (vm_refuse _ _ _ _ b r); [by apply Hair|done..].
        -- apply (vm_receive _ _ _ _ b r); [by apply Hair|done..].
      * eapply says_engine. destruct Hpub as [[_ ?]|?]; [by left|by right].
    + apply sbind_Ok in Hrun as ([] & t1 & w1 & _ & Hrun). injection Hrun as <- <- _.
      split; [by apply vm_same|apply says_nothing].
    + apply sbind_Ok in Hrun as ([] & t1 & w1 & _ & Hrun). injection Hrun as <- <- _.
      split; [by apply vm_same|apply says_nothing].
    + injection Hrun as <- <- _. split; [by apply vm_same|apply says_nothing].
  - injection Hrun as <- <- _. split; [by apply vm_same|apply says_nothing].
  - injection Hrun as <- <- _. split; [by apply vm_same|apply says_nothing].
  - unfold on_engine in Hrun. rewrite sget_run in Hrun.
    apply sio_Ok in Hrun as ([st1 pub] & w1 & Ha & Hrun). injection Hrun as <- <- _.
    apply on_local_change_step in Ha as [[-> ->]|(s & -> & -> & Hc)]; cbn [fst snd].
    + split; [by apply vm_same|apply says_nothing].
    + split; [by eapply vm_edit|]. eapply says_engine. right. eauto.
Qed.

(** *** A start *)

(** Creating the directory of the share adds directories only. *)
Definition kept (fs fs' : fsmap) : Prop :=
  (forall q, file_at fs' q = file_at fs q) /\ forall q, is_Some (fs !! q) -> is_Some (fs' !! q).

Lemma mkdirs_kept ps fs : kept fs (snd (mkdirs ps fs)).
Proof.
  split; [apply mkdirs_file_at|]. intros q Hq.
  by destruct (mkdirs_spec ps fs q) as [->|(_ & _ & ->)].
Qed.

Lemma create_dir_all_kept p w : kept (w_fs w) (w_fs (snd (fs_create_dir_all p w))).
Proof.
  apply (io_pres _ _ (kept (w_fs w))); [by split|apply mkdirs_kept|]. intros n. apply mkdirs_kept.
Qed.

Lemma kept_remembers seat w w' l :
  kept (w_fs w) (w_fs w') -> remembers seat w l -> remembers seat w' l.
Proof.
  intros [Hf Hs]. unfold remembers. cbv zeta. destruct l as [v|]; unfold saved_state, data_at; [|by rewrite Hf].
  rewrite Hf. intros (Hu & Hv & Hc). split; [done|]. split; [done|].
  destruct (children (w_fs w) (se_root seat)) as [|c l] eqn:E; [done|].
  assert (c ∈ children (w_fs w') (se_root seat)) as Hin.
  { apply elem_of_children, Hs, elem_of_children. rewrite E. left. }
  intros E'. rewrite E' in Hin. by apply not_elem_of_nil in Hin.
Qed.

Lemma seat_start_Ok seat t w root st' pub tw :
  seat_start seat t w = (Ok (root, st', pub), tw) ->
  says_only st' pub /\ exists w1 w2, kept (w_fs w) (w_fs w1) /\
    reconcile_on_start (se_config seat) (se_root seat) (se_data_dir seat)
      (peer_id_hex (se_identity seat)) (t_key t) w1 = (Ok st', w2).
Proof.
  unfold seat_start, sync_start. intros Hrun.
  apply sio_Ok in Hrun as ([] & w1 & Hc%ctx_Ok & Hrun).
  apply sio_Ok in Hrun as (r & w2 & Hn%ctx_Ok & Hrun).
  apply sio_Ok in Hrun as ([] & w3 & Hg & Hrun). rewrite sget_run in Hrun.
  apply sio_Ok in Hrun as (state & w4 & Hrec & Hrun). apply sio_Ok in Hrun as ([] & w5 & _ & Hrun).
  injection Hrun as _ <- <- _. split.
  - destruct state as [s|]; [apply says_own|apply says_nothing].
  - assert (w_fs w3 = w_fs w1) as E.
    { pose proof (gossip_stream_inert (share_topic (se_config seat)) w2) as E3. rewrite Hg in E3.
      unfold fs_canonicalize in Hn. apply io_Ok in Hn as (Hop & _ & _). simpl in E3. rewrite E3.
      unfold op_canonicalize in Hop. by destruct (w_fs w1 !! _); simplify_eq. }
    apply canonicalize_Ok in Hn as ->. exists w3, w4. split; [|done]. rewrite E.
    pose proof (create_dir_all_kept (sc_root_path (se_config seat)) w) as Hk. by rewrite Hc in Hk.
Qed.

Lemma state_load_none dd sid w v w' :
  data_at (w_fs w) (state_path dd sid) = None -> state_load dd sid w = (Ok v, w') -> v = None.
Proof.
  unfold state_load. intros Hd Hl. apply bind_Ok in Hl as (ex & w1 & Hex & Hl).
  destruct ex; simpl negb in Hl; cbv iota in Hl; [|by injection Hl as <-].
  apply fs_exists_true in Hex as [_ ->].
  apply bind_Ok in Hl as (raw & w2 & (Hd' & _)%ctx_Ok%fs_read_Ok & _). congruence.
Qed.

Lemma state_load_saved dd sid w s v w' :
  unreadable w (state_path dd sid) = false -> saved_state dd sid (w_fs w) s ->
  state_load dd sid w = (Ok v, w') ->
  w_fs w' = w_fs w /\
  v = Some {| ps_version_hash := ss_version_hash s; ps_clock := ss_clock s;
              ps_timestamp := ss_timestamp s; ps_manifest := ss_manifest s |}.
Proof.
  intros Hu (json & Hj & Hd) Hl. unfold state_load in Hl. cbv zeta in Hl.
  erewrite bind_run in Hl by by eapply fs_exists_data. simpl negb in Hl. cbv iota in Hl.
  apply bind_Ok in Hl as (raw & w2 & (Hd' & Hw2 & _)%ctx_Ok%fs_read_Ok & Hl).
  rewrite Hd in Hd'. injection Hd' as <-. rewrite (json_from_to _ _ Hj) in Hl. inv_ok. done.
Qed.

Lemma reconcile_moves seat air key w l st' w' :
  remembers seat w l ->
  reconcile_on_start (se_config seat) (se_root seat) (se_data_dir seat)
    (peer_id_hex (se_identity seat)) key w = (Ok st', w') ->
  version_move (peer_id_hex (se_identity seat)) air l st'.
Proof.
  intros Hrem Hrec. unfold reconcile_on_start in Hrec. apply bind_Ok in Hrec as (v & w1 & Hl & Hrec).
  apply bind_Ok in Hrec as (b & w2 & Hb & Hrec). apply has_content_Ok in Hb as (_ & Hb & _).
  destruct l as [s|]; simpl in Hrem.
  - destruct Hrem as (Hu & Hs & Hc). apply (state_load_saved _ _ _ s) in Hl as [Hfs ->]; [|done..].
    rewrite Hfs in Hb. destruct b; [|by apply Hb in Hc]. simpl negb in Hrec. cbv iota in Hrec.
    apply bind_Ok in Hrec as (sn & w3 & _ & Hrec). cbn [ps_version_hash ps_clock ps_timestamp] in Hrec.
    case_decide as Eh; inv_ok.
    + apply vm_same. unfold version_of. simpl. by rewrite Eh.
    + eapply vm_edit; [done|].
      match goal with H1 : adopt _ _ _ _ _ _ _ _ = _ |- _ => by apply adopt_Ok in H1 as (_ & -> & _) end.
  - apply state_load_none in Hl as ->; [|done].
    destruct b; simpl negb in Hrec; cbv iota in Hrec; [|injection Hrec as <- _; by apply vm_same].
    apply bind_Ok in Hrec as (sn & w3 & _ & Hrec). inv_ok.
    eapply vm_edit; [done|].
    match goal with H1 : adopt _ _ _ _ _ _ _ _ = _ |- _ => by apply adopt_Ok in H1 as (_ & -> & _) end.
Qed.

(** *** Steps *)

(** A network follows a move of a peer when it has the peer's new version,
    and has heard of it. *)
Lemma moved_simulates s net net' p up st' t' w' pub :
  simulates s net -> says_only st' pub ->
  n_peers net' = <[p := version_of <$> st']> (n_peers net) ->
  (forall v, v ∈ n_air net -> v ∈ n_air net') ->
  (forall v, version_of <$> st' = Some v -> v ∈ n_air net') ->
  simulates (moved s p up st' t' w' pub) net'.
Proof.
  intros [Hheld Hair Hsaid] Hsays Hpe Hmono Hown. split; cbn [moved sw_state sw_air].
  - intros q. rewrite Hpe. destruct (decide (p = q)) as [<-|]; [by rewrite !fn_lookup_insert|].
    by rewrite !fn_lookup_insert_ne.
  - intros b r [Hb|Hb]%elem_of_app Hr; [|by eapply Hmono, Hair]. by eapply Hown, Hsays.
  - intros q v. rewrite Hpe. destruct (decide (p = q)) as [<-|].
    + rewrite fn_lookup_insert. apply Hown.
    + rewrite fn_lookup_insert_ne by done. intros Hq. by eapply Hmono, Hsaid.
Qed.

(** The version is the same. *)
Lemma moved_same s net p up st' t' w' pub :
  simulates s net -> says_only st' pub -> version_of <$> st' = version_of <$> sw_state s p ->
  simulates (moved s p up st' t' w' pub) net.
Proof.
  intros [Hheld Hair Hsaid] Hsays E. split; cbn [moved sw_state sw_air].
  - intros q. destruct (decide (p = q)) as [<-|]; [by rewrite fn_lookup_insert, E|].
    by rewrite fn_lookup_insert_ne.
  - intros b r [Hb|Hb]%elem_of_app Hr; [|by eapply Hair].
    apply (Hsaid p). rewrite Hheld, <- E. by eapply Hsays.
  - done.
Qed.

Lemma simulate_move pol s net p up st' t' w' pub :
  simulates s net -> says_only st' pub ->
  version_move p (fun b => b ∈ sw_air s) (sw_state s p) st' ->
  (forall v, st' = Some v -> ss_clock v = increment (clock_of (sw_state s p)) p ->
     may_edit pol (version_of <$> sw_state s p) p (ss_timestamp v)) ->
  exists net', rtc (step pol) net net' /\ simulates (moved s p up st' t' w' pub) net'.
Proof.
  intros Hsim Hsays Hmove Hedit. pose proof (sim_held _ _ Hsim p) as Hhp.
  destruct Hmove as [E|v -> Hc|b r Hb Hv E|b r Hb Hv Ew ->].
  - exists net. split; [done|]. by apply moved_same.
  - assert (held_clock (n_peers net p) = clock_of (sw_state s p)) as Hclk
      by (rewrite Hhp; by destruct (sw_state s p)).
    assert (edit (n_peers net p) p (ss_timestamp v) (ss_version_hash v) = version_of v) as Ee
      by (unfold edit, version_of; by rewrite Hclk, Hc).
    exists (do_edit net p (ss_timestamp v) (ss_version_hash v)). split.
    { apply rtc_once, step_edit. rewrite Hhp. by apply Hedit. }
    eapply moved_simulates; [done..| | |]; unfold do_edit; rewrite Ee; cbn [n_peers n_air];
      [done|set_solver|]. intros u [= <-]. by left.
  - assert (r ∈ n_air net) as Hr by by eapply (sim_air _ _ Hsim).
    exists (do_deliver net p r). split; [by apply rtc_once, step_deliver|]. rewrite <- Hhp in E.
    eapply moved_simulates; [done..| | |]; unfold do_deliver; cbn [n_peers n_air];
      [by rewrite E|set_solver|].
    intros u Hu. rewrite E in Hu. rewrite Hu. simpl. by left.
  - exists net. split; [|by apply moved_same]. apply rtc_once, (step_refuse _ _ p r); [|by rewrite Hhp].
    by eapply (sim_air _ _ Hsim).
Qed.

(** Which networks a step of the swarm may be followed by. *)
Definition followed (pol : policy) (seats : gmap string Seat) (s s' : swarm) : Prop :=
  pol = hasty \/ pol = careful /\ timely seats s s'.

Lemma followed_edit pol seats s s' p seat st' :
  followed pol seats s s' -> seats !! p = Some seat -> sw_state s' p = st' ->
  forall v, st' = Some v -> ss_clock v = increment (clock_of (sw_state s p)) p ->
    may_edit pol (version_of <$> sw_state s p) p (ss_timestamp v).
Proof.
  intros [->|[-> Ho]] Hp E v Hv Hc; [done|]. destruct (Ho p seat Hp v) as [Hcnt Hts]; [congruence|done|]. split.
  - destruct (sw_state s p) as [u|]; [|done]. by apply Hts.
  - by destruct (sw_state s p).
Qed.

Lemma simulate_step pol seats s s' net :
  simulates s net -> seated seats -> mindful_step seats s s' -> followed pol seats s s' ->
  exists net', rtc (step pol) net net' /\ simulates s' net'.
Proof.
  intros Hsim Hseat [Hstep Hmind] Hfol.
  assert (forall p up t w, simulates (moved s p up (sw_state s p) t w []) net) as Hstill
    by (intros; by apply moved_same; [|apply says_nothing|]).
  destruct Hstep as [p seat t o t' w' Hp Hup Hrun|p seat ev o t' w' Hp Hup Hev Hrun|p|p w'].
  - destruct o as [[[root st'] pub]|e|]; cbn [after_start] in *; [|by exists net..].
    assert (Hs := Hrun). apply seat_start_Ok in Hs as (Hsays & w1 & w2 & Hk & Hrec).
    assert (remembers seat (sw_world s p) (sw_state s p)) as Hrem.
    { apply (Hmind p seat Hp Hup). simpl. by rewrite fn_lookup_insert. }
    apply (reconcile_moves _ (fun b => b ∈ sw_air s) _ _ (sw_state s p)) in Hrec;
      [|by eapply kept_remembers].
    rewrite (Hseat p seat Hp) in Hrec. apply simulate_move; [done..|].
    eapply followed_edit; [exact Hfol|exact Hp|]. simpl. by rewrite fn_lookup_insert.
  - destruct o as [[st' tn]|e|]; cbn [after_turn] in *; [|by exists net..].
    apply (seat_turn_moves _ (fun b => b ∈ sw_air s)) in Hrun as [Hm Hs]; [|done].
    rewrite (Hseat p seat Hp) in Hm. apply simulate_move; [done..|].
    eapply followed_edit; [exact Hfol|exact Hp|]. simpl. by rewrite fn_lookup_insert.
  - by exists net.
  - by exists net.
Qed.

Lemma simulate_run pol seats (R : relation swarm) s s' :
  seated seats -> (forall a b, R a b -> mindful_step seats a b /\ followed pol seats a b) ->
  rtc R s s' -> forall net, simulates s net ->
  exists net', rtc (step pol) net net' /\ simulates s' net'.
Proof.
  intros Hseat HR. induction 1 as [|s1 s2 s3 Hs _ IH]; intros net Hsim; [by exists net|].
  destruct (HR _ _ Hs) as [Hst Hfol].
  destruct (simulate_step pol seats s1 s2 net Hsim Hseat Hst Hfol) as (n2 & Hr2 & Hs2).
  destruct (IH n2 Hs2) as (n3 & Hr3 & Hs3). exists n3. split; [by etrans|done].
Qed.

Lemma simulates_start t w : simulates (swarm_start t w) start.
Proof. split; [done| |done]. by intros b r ?%not_elem_of_nil. Qed.

Lemma swarm_hasty seats s :
  seated seats -> mindful_reachable seats s -> exists net, reachable hasty net /\ simulates s net.
Proof.
  intros Hseat (t & w & Hr).
  apply (simulate_run hasty seats (mindful_step seats) _ _ Hseat) with (2 := Hr); [|apply simulates_start].
  intros a b Hab. split; [done|by left].
Qed.

Lemma swarm_careful seats s :
  seated seats -> orderly_reachable seats s -> exists net, reachable careful net /\ simulates s net.
Proof.
  intros Hseat (t & w & Hr).
  apply (simulate_run careful seats (orderly_step seats) _ _ Hseat) with (2 := Hr); [|apply simulates_start].
  intros a b [Hab Ho]. split; [done|by right].
Qed.
(** *** Showing that a run is orderly *)

Lemma increment_ne c p : increment c p <> c.
Proof.
  intros E. pose proof (get_increment c p p) as H1'. rewrite E, decide_True in H1' by done.
  unfold wrap64 in H1'. assert ((get c p + 1) mod 2 ^ 64 <> get c p); [|done]. intros E'.
  pose proof (Z.div_mod (get c p + 1) (2 ^ 64) ltac:(lia)). lia.
Qed.

Lemma prompt_same p l l' : version_of <$> l' = version_of <$> l -> prompt p l l'.
Proof.
  intros E v' -> Hc. destruct l as [v|]; [|done]. injection E as E _ _. exfalso.
  apply (increment_ne (ss_clock v) p). simpl in Hc. congruence.
Qed.

Lemma prompt_None p l' : prompt p None l'.
Proof. intros v' _ _. split; [simpl; by rewrite get_new|done]. Qed.

Lemma orderly_step_eq seats s s' :
  orderly_step seats s s' <-> swarm_step seats s s' /\ mindful seats s s' /\ timely seats s s'.
Proof. unfold orderly_step, mindful_step. tauto. Qed.

Lemma orderly_moved seats s p seat up st t w pub :
  seats !! p = Some seat ->
  (sw_up s p = false -> up = true -> remembers seat (sw_world s p) (sw_state s p)) ->
  prompt p (sw_state s p) st ->
  mindful seats s (moved s p up st t w pub) /\ timely seats s (moved s p up st t w pub).
Proof.
  intros Hp Hrem Hpr. split; intros q seat' Hq; cbn [moved sw_up sw_state];
    (destruct (decide (p = q)) as [<-|];
     [rewrite !fn_lookup_insert; by simplify_eq|rewrite !fn_lookup_insert_ne by done]).
  - congruence.
  - by apply prompt_same.
Qed.

Lemma orderly_begin seats s p seat o t w :
  seats !! p = Some seat -> remembers seat (sw_world s p) (sw_state s p) ->
  prompt p (sw_state s p) (sw_state (after_start s p o t w) p) ->
  mindful seats s (after_start s p o t w) /\ timely seats s (after_start s p o t w).
Proof.
  intros Hp Hrem. destruct o as [[[root st] pub]|e|]; cbn [after_start moved sw_state];
    rewrite fn_lookup_insert; intros; by eapply orderly_moved.
Qed.

Lemma orderly_turn seats s p seat o t w :
  seats !! p = Some seat -> sw_up s p = true ->
  prompt p (sw_state s p) (sw_state (after_turn s p o t w) p) ->
  mindful seats s (after_turn s p o t w) /\ timely seats s (after_turn s p o t w).
Proof.
  intros Hp Hup. destruct o as [[st tn]|e|]; cbn [after_turn moved sw_state];
    rewrite fn_lookup_insert; intros; eapply orderly_moved; try done; congruence.
Qed.
End swarm.

(** ** Properties *)

Section properties.
Context `{MD : Metadata, ReadDir, Entropy, WallClock, Blake3, Aead, Ed25519, !CryptoBox, Base64}.
Context `{!Bincode rotation_tuple, !BincodeTotal rotation_tuple, !Bincode SignedRotation}.
Context `{!Bincode canonical_tuple, !BincodeTotal canonical_tuple, !GroupCrdt}.
Context `{!Bincode SignedOp, !Bincode (list SignedOp), !Bincode Ticket, !Json ShareMsg}.
Context `{!Json PersistedState, Torrents, SocketAddrs, Services}.

(** C1. The sync loops of the peers refine the abstract network, in runs in
    which every peer that starts again finds on disk the version it held and a
    directory that is not empty: whatever the users, the disks, the transfers
    and the order of the messages do, the versions the loops hold and announce
    are those of a reachable network, where announces are adopted as [receive]
    says or refused, and edits increment the own counter.  When moreover every
    edit is later than the version it replaces, they are those of a careful
    network. *)
Theorem swarm_refines_network (seats : gmap string Seat) (s : swarm) (Hseat : seated seats) :
  let follows net :=
    (forall p, n_peers net p = version_of <$> sw_state s p) /\
    (forall b r, b ∈ sw_air s -> heard_version b r -> r ∈ n_air net) in
  (mindful_reachable seats s -> exists net, reachable hasty net /\ follows net) /\
  (orderly_reachable seats s -> exists net, reachable careful net /\ follows net).
Proof.
  cbv zeta. split; intros Hs.
  - destruct (swarm_hasty seats s Hseat Hs) as (net & Hr & [Hh Ha _]). by exists net.
  - destruct (swarm_careful seats s Hseat Hs) as (net & Hr & [Hh Ha _]). by exists net.
Qed.

(** C9. Peers agree, in runs where every edit is later than the version it
    replaces and every start finds on disk the version held and a directory
    that is not empty: when the clocks of two peers compare equal, so that
    neither acts on the announces of the other, they hold the same version
    hash and time; a peer whose clock is equal to that of an announce it hears
    holds the announced content already; two peers of which neither would
    change its version on hearing the other's hold the same content. *)
Theorem swarm_agrees (seats : gmap string Seat) (s : swarm) (p : string) (v : ShareState)
    (Hseat : seated seats) (Hs : orderly_reachable seats s) (Hp : sw_state s p = Some v) :
  (forall q u, sw_state s q = Some u -> compare (ss_clock v) (ss_clock u) = Equal ->
     ss_version_hash v = ss_version_hash u /\ ss_timestamp v = ss_timestamp u) /\
  (forall b r, b ∈ sw_air s -> heard_version b r -> compare (ss_clock v) (v_clock r) = Equal ->
     ss_version_hash v = v_hash r /\ ss_timestamp v = v_ts r) /\
  (forall q u, sw_state s q = Some u ->
     receive (Some (version_of v)) (version_of u) = Some (version_of v) ->
     receive (Some (version_of u)) (version_of v) = Some (version_of u) ->
     ss_version_hash v = ss_version_hash u /\ ss_timestamp v = ss_timestamp u).
Proof.
  destruct (swarm_careful seats s Hseat Hs) as (net & Hr & [Hh Ha _]).
  assert (Hi := inv_reachable _ Hr). pose proof (Hh p) as Hhp. rewrite Hp in Hhp.
  assert (good (n_log net) (version_of v)) as Hv by by apply (inv_held _ _ _ Hi Hhp).
  split; [|split].
  - intros q u Hq Hc%compare_Equal. pose proof (Hh q) as Hhq. rewrite Hq in Hhq.
    destruct (good_same _ _ _ Hv (inv_held _ _ _ Hi Hhq) Hc). done.
  - intros b r Hb Hheard Hc%compare_Equal.
    destruct (good_same _ _ _ Hv (i_air _ Hi r (Ha b r Hb Hheard)) Hc). done.
  - intros q u Hq Hvu Huv. pose proof (Hh q) as Hhq. rewrite Hq in Hhq.
    by destruct (quiescent_agree net p q _ _ Hr Hhp Hhq Hvu Huv).
Qed.
End properties.

(** ** Witness: Alice makes a version, Bob hears of it, Alice starts again *)

Section witnesses.
#[local] Existing Instance toy_metadata.
#[local] Existing Instance toy_entropy.
#[local] Existing Instance toy_blake3.
#[local] Existing Instance toy_aead.
#[local] Existing Instance toy_ed25519.
#[local] Existing Instance toy_box.
#[local] Existing Instance toy_base64.
#[local] Existing Instance toy_read_dir.
#[local] Existing Instance toy_clock.
#[local] Existing Instance toy_state.
#[local] Existing Instance toy_addrs.
#[local] Existing Instance toy_rotation_tuple.
#[local] Existing Instance toy_rotation_total.
#[local] Existing Instance toy_rotation.
#[local] Existing Instance toy_canonical.
#[local] Existing Instance toy_canonical_total.
#[local] Existing Instance toy_group.
#[local] Existing Instance toy_op.
#[local] Existing Instance toy_ops.
#[local] Existing Instance toy_ticket.
#[local] Existing Instance toy_msg.
#[local] Existing Instance toy_services.

(** Bob's transfer brings Alice's ciphertext files. *)
#[local] Instance wq_net : Torrents := toy_torrents (wy_pre []) (wy_after (wy_pre [])).

Definition wq_a : string := Eval vm_compute in peer_id_hex wa_alice.
Definition wq_b : string := Eval vm_compute in peer_id_hex wr_bob.
Definition wq_seat (i : bytes) (root : path) : Seat :=
  {| se_config := {| sc_id := "sid"; sc_topic := "topic"; sc_root_path := root; sc_role := Sync;
                     sc_created_at := 0 |};
     se_data_dir := wy_dd; se_identity := i; se_port := 4240 |}.
Definition wq_alice : Seat := wq_seat wa_alice ws_root1.
Definition wq_bob : Seat := wq_seat wr_bob ws_root2.
Definition wq_seats : gmap string Seat := {[ wq_a := wq_alice; wq_b := wq_bob ]}.
Definition wq_task (k : KeyRing) : ShareTask :=
  {| t_key := k; t_auth := auth_empty; t_pending := []; t_buffer := [] |}.

(** Alice has files, Bob an empty directory. *)
Definition wq_empty : world := world_of (with_dirs ws_root2 (with_dirs wy_dd root_fs)).
Definition wq_0 : swarm :=
  swarm_start (fun _ => wq_task w_ring) (<[wq_b := wq_empty]> (fun _ => ws_w1)).

Definition wq_begin (s : swarm) (p : string) (seat : Seat) (t : ShareTask) : swarm :=
  let r := seat_start seat t (sw_world s p) in after_start s p r.1 r.2.1 r.2.2.
Definition wq_turn (s : swarm) (p : string) (seat : Seat) (ev : Event) : swarm :=
  let r := seat_turn seat (sw_state s p) ev (sw_task s p) (sw_world s p) in
  after_turn s p r.1 r.2.1 r.2.2.

Definition wq_1 : swarm := wq_begin wq_0 wq_a wq_alice (wq_task w_ring).
Definition wq_2 : swarm := wq_begin wq_1 wq_b wq_bob (wq_task ws_ring2).
Definition wq_payload : bytes := Eval vm_compute in List.hd [] (sw_air wq_2).
Definition wq_3 : swarm := wq_turn wq_2 wq_b wq_bob (EGossip wq_payload).
Definition wq_4 : swarm :=
  moved wq_3 wq_a false (sw_state wq_3 wq_a) (sw_task wq_3 wq_a) (sw_world wq_3 wq_a) [].
Definition wq_5 : swarm := wq_begin wq_4 wq_a wq_alice (wq_task w_ring).

Lemma wq_begin_step s p seat t :
  wq_seats !! p = Some seat -> sw_up s p = false -> remembers seat (sw_world s p) (sw_state s p) ->
  prompt p (sw_state s p) (sw_state (wq_begin s p seat t) p) ->
  orderly_step wq_seats s (wq_begin s p seat t).
Proof.
  intros Hp Hup Hrem Hpr. rewrite orderly_step_eq. split; [|by eapply orderly_begin].
  apply (sw_begin _ _ p seat t); [done..|]. by rewrite <- !surjective_pairing.
Qed.

Lemma wq_turn_step s p seat ev :
  wq_seats !! p = Some seat -> sw_up s p = true -> (forall b, ev = EGossip b -> b ∈ sw_air s) ->
  prompt p (sw_state s p) (sw_state (wq_turn s p seat ev) p) ->
  orderly_step wq_seats s (wq_turn s p seat ev).
Proof.
  intros Hp Hup Hev Hpr. rewrite orderly_step_eq. split; [|by eapply orderly_turn].
  apply (sw_turn _ _ p seat ev); [done..|]. by rewrite <- !surjective_pairing.
Qed.

(** The version Alice holds at the end, which her disk has remembered. *)
Definition wq_v : ShareState := Eval vm_compute in
  match sw_state wq_4 wq_a with
  | Some v => v
  | None => {| ss_version_hash := ""; ss_info_hash := ""; ss_torrent_id := 0; ss_clock := ∅;
               ss_timestamp := 0; ss_manifest := ∅ |}
  end.

Lemma wq_v_held : sw_state wq_4 wq_a = Some wq_v.
Proof. vm_compute. reflexivity. Qed.

Lemma wq_remembered : remembers wq_alice (sw_world wq_4 wq_a) (Some wq_v).
Proof.
  split; [|split].
  - intros w0. apply (sighted_readable (H0 := toy_sighted)).
  - eexists. split; vm_compute; reflexivity.
  - vm_compute. discriminate.
Qed.

Lemma wq_seat_a : wq_seats !! wq_a = Some wq_alice.
Proof. vm_compute. reflexivity. Qed.
Lemma wq_seat_b : wq_seats !! wq_b = Some wq_bob.
Proof. vm_compute. reflexivity. Qed.

Lemma wq_step1 : orderly_step wq_seats wq_0 wq_1.
Proof.
  unfold wq_1. apply wq_begin_step; [exact wq_seat_a|vm_compute; reflexivity..|].
  apply prompt_None.
Qed.

Lemma wq_step2 : orderly_step wq_seats wq_1 wq_2.
Proof.
  assert (sw_state wq_1 wq_b = None) as E by (vm_compute; reflexivity).
  unfold wq_2. apply wq_begin_step; [exact wq_seat_b|vm_compute; reflexivity| |];
    rewrite E; [vm_compute; reflexivity|apply prompt_None].
Qed.

Lemma wq_step3 : orderly_step wq_seats wq_2 wq_3.
Proof.
  assert (sw_state wq_2 wq_b = None) as E by (vm_compute; reflexivity).
  unfold wq_3. apply wq_turn_step; [exact wq_seat_b|vm_compute; reflexivity| |].
  - intros b [= <-]. assert (sw_air wq_2 = [wq_payload]) as -> by (vm_compute; reflexivity). left.
  - rewrite E. apply prompt_None.
Qed.

Lemma wq_step4 : orderly_step wq_seats wq_3 wq_4.
Proof.
  rewrite orderly_step_eq. split; [apply (sw_stop wq_seats wq_3 wq_a)|].
  apply (orderly_moved wq_seats wq_3 wq_a wq_alice); [exact wq_seat_a| |apply prompt_same; reflexivity].
  intros _ Hup. discriminate Hup.
Qed.

Lemma wq_step5 : orderly_step wq_seats wq_4 wq_5.
Proof.
  unfold wq_5. apply wq_begin_step; [exact wq_seat_a|vm_compute; reflexivity| |].
  - rewrite wq_v_held. apply wq_remembered.
  - apply prompt_same. vm_compute. reflexivity.
Qed.

Lemma wq_run : rtc (orderly_step wq_seats) wq_0 wq_5.
Proof.
  eapply rtc_l; [exact wq_step1|]. eapply rtc_l; [exact wq_step2|].
  eapply rtc_l; [exact wq_step3|]. eapply rtc_l; [exact wq_step4|].
  eapply rtc_l; [exact wq_step5|]. apply rtc_refl.
Qed.

Lemma wq_reachable : orderly_reachable wq_seats wq_5.
Proof. eexists _, _. exact wq_run. Qed.

Lemma wq_seated : seated wq_seats.
Proof.
  intros p seat. unfold wq_seats.
  intros [[<- <-]|[_ Hp]]%lookup_insert_Some; [vm_compute; reflexivity|].
  apply lookup_singleton_Some in Hp as [<- <-]. vm_compute. reflexivity.
Qed.

Definition wq_get (s : swarm) (p : string) : ShareState :=
  match sw_state s p with Some v => v | None => wq_v end.

Lemma swarm_refines_network_witness :
  exists net, reachable careful net /\
    n_peers net wq_a = Some (version_of wq_v) /\ n_peers net wq_b = Some (version_of (wq_get wq_5 wq_b)) /\
    ss_version_hash (wq_get wq_5 wq_b) = vhash ws_m.
Proof.
  destruct (swarm_refines_network wq_seats wq_5 wq_seated) as [_ Hc].
  destruct (Hc wq_reachable) as (net & Hn & Hh & _). exists net. split; [exact Hn|].
  rewrite !Hh. split; [vm_compute; reflexivity|]. split; vm_compute; reflexivity.
Defined.

Lemma swarm_agrees_witness :
  ss_version_hash (wq_get wq_5 wq_a) = ss_version_hash (wq_get wq_5 wq_b) /\
  ss_timestamp (wq_get wq_5 wq_a) = ss_timestamp (wq_get wq_5 wq_b).
Proof.
  destruct (swarm_agrees wq_seats wq_5 wq_a (wq_get wq_5 wq_a) wq_seated wq_reachable) as (_ & _ & Hq).
  - vm_compute. reflexivity.
  - apply (Hq wq_b (wq_get wq_5 wq_b)); vm_compute; reflexivity.
Defined.
End witnesses.
