(* ===== verification/Ipc.v ===== *)
(** * The daemon's interface ([src/ipc.rs])

    The methods of [org.peerdup.Daemon1] on the map of running shares and the
    data directory.  The D-Bus transport is left out: a method is a
    computation that returns what the caller is answered; an error is what
    [fdo_err] would send.  A command for a share is one turn of its task. *)

From S2P Require Import Prelude World Tree Clock External Instances Share Crypto Auth.
From S2P Require Import Rotation Ticket Shadow Sync Frame Network Daemon Loops.

(** [DateTime::to_rfc3339] *)
Class Chrono := to_rfc3339 : Z -> string.

(** ** Parsing of roles *)

(** [str::to_lowercase] on ASCII; no other character has one of the letters
    compared with below as its lower case. *)
Definition lower_byte (b : byte) : byte :=
  let n := Z_of_byte b in if (65 <=? n) && (n <=? 90) then byte_of_Z (n + 32) else b.
Definition to_lowercase (s : string) : string := bytes_string (lower_byte <$> string_bytes s).

Definition parse_auth_role (s : string) : outcome AuthRole :=
  let l := to_lowercase s in
  if decide (l = "owner") then Ok Owner else
  if decide (l = "writer") then Ok Writer else
  if decide (l = "reader") then Ok Reader else
  Err (EMsg "unknown auth role").

Definition share_role_from_str (s : string) : outcome ShareRole :=
  let l := to_lowercase s in
  if decide (l = "seed") then Ok Seed else
  if decide (l = "leech") then Ok Leech else
  if decide (l = "sync") then Ok Sync else
  Err (EMsg "unknown role").

(** [role_to_str] of [main.rs], and the match of [share_list]. *)
Definition role_to_str (r : ShareRole) : string :=
  match r with Seed => "seed" | Leech => "leech" | Sync => "sync" end.

(** [Path::display] of an absolute path. *)
Definition path_display (p : path) : string := "/" +:+ bytes_string (path_text p).

Section ipc.
Context `{MD : Metadata, ReadDir, Entropy, WallClock, Blake3, Ed25519, !CryptoBox, Base64, Chrono}.
Context `{!Bincode rotation_tuple, !BincodeTotal rotation_tuple, !Bincode SignedRotation}.
Context `{!Bincode canonical_tuple, !BincodeTotal canonical_tuple, !GroupCrdt}.
Context `{!Bincode SignedOp, !Bincode (list SignedOp), !Bincode Ticket, !Json ShareMsg, !Json ShareConfig}.
Context `{!Json PersistedState}.

(** ** The daemon's state and its monad *)

(** A running share: its task, and whether its loop still receives commands
    (the map keeps the sender of a task that has ended). *)
Record Running := { run_config : ShareConfig; run_task : ShareTask; run_alive : bool }.

Abbreviation shares_map := (gmap string Running).

Definition DM (A : Type) : Type := shares_map -> world -> outcome A * (shares_map * world).

Definition dret {A : Type} (a : A) : DM A := fun m w => (Ok a, (m, w)).
Definition dfail {A : Type} (e : error) : DM A := fun m w => (Err e, (m, w)).
Definition dlift {A : Type} (r : outcome A) : DM A := fun m w => (r, (m, w)).
Definition dbind {A B : Type} (f : DM A) (k : A -> DM B) : DM B := fun m w =>
  match f m w with
  | (Ok a, (m', w')) => k a m' w'
  | (Err e, mw) => (Err e, mw)
  | (Panic, mw) => (Panic, mw)
  end.
Definition dio {A : Type} (f : M A) : DM A := fun m w => let '(r, w') := f w in (r, (m, w')).
Definition dget : DM shares_map := fun m w => (Ok m, (m, w)).
Definition dmod (f : shares_map -> shares_map) : DM unit := fun m w => (Ok tt, (f m, w)).

Notation "'let^' x ':=' m 'in' k" := (dbind m (fun x => k))
  (at level 10, x pattern, m at level 100, k at level 200) : rust_scope.
Notation "m ;^ k" := (dbind m (fun _ => k)) (at level 100, right associativity) : rust_scope.

Context (data_dir : path) (identity : bytes) (current_dir : outcome path).

Definition me : MemberId := public_key identity.

Definition whoami : DM string := dret (to_hex me).

Definition list_entry (c : ShareConfig) : string * string * string * string * string :=
  (sc_id c, sc_topic c, path_display (sc_root_path c), role_to_str (sc_role c),
   to_rfc3339 (sc_created_at c)).

Definition share_list : DM (list (string * string * string * string * string)) :=
  let^ configs := dio (load_all data_dir) in
  dret (list_entry <$> configs).

(** Start the task of a share and register its sender. *)
Definition start_share (config : ShareConfig) : DM unit :=
  let^ t := dio (spawn_share_task data_dir config) in
  dmod (<[sc_id config := {| run_config := config; run_task := t; run_alive := true |}]>).

(** The clients send an absolute path. *)
Definition share_add (topic : string) (p : path) (role : string) : DM string :=
  let^ role := dlift (rctx "invalid role" (share_role_from_str role)) in
  let^ ex := dio (fs_exists p) in
  if bool_decide (role = Seed) && negb ex then dfail (EMsg "seed path does not exist") else
  let^ config := dio (config_new topic p role) in
  let share_id := sc_id config in
  let^ shares := dget in
  if decide (is_Some (shares !! share_id)) then dfail (EMsg "share is already running") else
  let group_id := group_id_for share_id in
  let '(r, auth_state) := create_group identity group_id auth_empty in
  let^ _op := dlift r in
  dio (config_save config data_dir) ;^
  dio (auth_save data_dir share_id auth_state) ;^
  start_share config ;^
  dret share_id.

(** The loop over the ticket's log. *)
Fixpoint apply_log (l : list SignedOp) (st : AuthState) : outcome unit * AuthState :=
  match l with
  | [] => (Ok tt, st)
  | op :: l =>
      match apply_remote op st with
      | (Ok _, st) => apply_log l st
      | (Err e, st) => (Err (ECtx "applying auth op while joining" e), st)
      | (Panic, st) => (Panic, st)
      end
  end.

Definition configured (share_id : string) (configs : list ShareConfig) : bool :=
  existsb (fun c => bool_decide (sc_id c = share_id)) configs.

Definition share_join (ticket : string) (p : string) : DM string :=
  let^ t := dlift (decode ticket) in
  let^ p := (if is_absolute p then dret (components p) else
             let^ cwd := dlift (rctx "resolving cwd for relative join path" current_dir) in
             dret (join cwd p)) in
  if decide (invitee_pubkey t <> me) then dfail (EMsg "ticket was issued for a different public key") else
  let^ shares := dget in
  if decide (is_Some (shares !! share_id t)) then dfail (EMsg "share is already running") else
  let^ configs := dio (load_all data_dir) in
  if configured (share_id t) configs then dfail (EMsg "share is already configured locally") else
  dio (fs_create_dir_all p) ;^
  let^ now := dio utc_now in
  let cfg := {| sc_id := share_id t; sc_topic := topic t; sc_root_path := p; sc_role := role t;
                sc_created_at := now |} in
  dio (config_save cfg data_dir) ;^
  dio (install_keyring data_dir (share_id t) (tkeys t)) ;^
  let '(r, auth_state) := apply_log (auth_log t) auth_empty in
  dlift r ;^
  if negb (is_member auth_state (group_id_for (share_id t)) me)
  then dfail (EMsg "ticket's auth log does not list us as a member") else
  dio (auth_save data_dir (share_id t) auth_state) ;^
  start_share cfg ;^
  dret (share_id t).

(** Look up the sender of a share, send a command and await the reply; a task
    that panics drops it. *)
Definition call_share (id : string) (cmd : ShareCommand) : DM Reply := fun m w =>
  match m !! id with
  | None => (Err (EMsg "share not running"), (m, w))
  | Some r =>
      if negb (run_alive r) then (Err (EMsg "share task no longer running"), (m, w)) else
      let set t alive := <[id := {| run_config := run_config r; run_task := t; run_alive := alive |}]> m in
      match handle_share_command cmd (run_config r) data_dir identity (run_task r) w with
      | (Ok (stop, reply), (t, w)) => (Ok reply, (set t (negb stop), w))
      | (_, (t, w)) => (Err (EMsg "share task dropped reply"), (set t false, w))
      end
  end.

Definition share_invite (id invitee_pubkey role auth_role : string) : DM string :=
  let^ role := dlift (rctx "invalid role" (share_role_from_str role)) in
  let^ auth_role := dlift (parse_auth_role auth_role) in
  let^ invitee := dlift (rctx "parsing invitee public key" (from_hex invitee_pubkey)) in
  let^ reply := call_share id (CInvite invitee auth_role role) in
  match reply with RTicket r => dlift r | _ => dfail (EMsg "share task dropped reply") end.

Definition share_revoke (id peer_pubkey : string) : DM Z :=
  let^ target := dlift (rctx "parsing peer public key" (from_hex peer_pubkey)) in
  let^ reply := call_share id (CRevoke target) in
  match reply with REpoch r => dlift r | _ => dfail (EMsg "share task dropped reply") end.

Definition share_members (id : string) : DM (list (string * string)) :=
  let^ reply := call_share id CMembers in
  match reply with
  | RMembers l => dret ((fun mr => (to_hex mr.1, role_display mr.2)) <$> l)
  | _ => dfail (EMsg "share task dropped reply")
  end.

Definition share_rotate_key (id : string) : DM Z :=
  let^ reply := call_share id CRotateKey in
  match reply with REpoch r => dlift r | _ => dfail (EMsg "share task dropped reply") end.

(** [b.1.cmp(&a.1).then_with(|| a.0.cmp(&b.0))] *)
Definition peer_order (kv : string * Z) : Z * string := (- kv.2, kv.1).
Definition sort_peers (l : list (string * Z)) : list (string * Z) := sort_by peer_order l.

Definition share_peers (id : string) : DM (list (string * Z)) :=
  let^ configs := dio (load_all data_dir) in
  if negb (configured id configs) then dfail (EMsg "share not found") else
  let^ state := dio (state_load data_dir id) in
  match state with
  | None => dret []
  | Some st => dret (sort_peers (map_to_list (ps_clock st)))
  end.

(** Remove the shadow of a share whose directory is known. *)
Definition remove_shadow (root : option path) : M unit :=
  match root with
  | None => ret tt
  | Some root =>
      let shadow_parent := join root ".peerdup" in
      let! ex := fs_exists shadow_parent in
      if (ex : bool) then attempt (fs_remove_dir_all shadow_parent) ;;; ret tt else ret tt
  end.

Definition root_of (id : string) (configs : list ShareConfig) : option path :=
  sc_root_path <$> List.find (fun c => bool_decide (sc_id c = id)) configs.

Definition share_remove (id : string) : DM unit :=
  let^ configs := dio (load_all data_dir) in
  let root := root_of id configs in
  dmod (delete id) ;^
  dio (share_dir_remove data_dir id) ;^
  dio (remove_shadow root).
End ipc.

Notation "'let^' x ':=' m 'in' k" := (dbind m (fun x => k))
  (at level 10, x pattern, m at level 100, k at level 200) : rust_scope.
Notation "m ;^ k" := (dbind m (fun _ => k)) (at level 100, right associativity) : rust_scope.

(** ** Lemmas: logs of which nothing was refused *)

Section sound.
Context `{MD : Metadata, Blake3, Ed25519} `{!Bincode canonical_tuple, !BincodeTotal canonical_tuple, !GroupCrdt}.

(** The state is a function of its log: replaying the log gives it back. *)
Record log_sound (st : AuthState) : Prop := {
  ls_causal : causal [] (ops st);
  ls_nodup : NoDup (ids (ops st ++ pending st));
  ls_crdt : crdt_run (ops st) = Some (crdt st);
  ls_verified : Forall verified (ops st ++ pending st);
}.

Lemma log_sound_empty : log_sound auth_empty.
Proof. split; simpl; [done|constructor|done|constructor]. Qed.

Lemma sound_replay st :
  log_sound st ->
  replay (ops st) auth_empty = (Ok tt, {| crdt := crdt st; ops := ops st; pending := [] |}).
Proof.
  intros [Hc Hn Hr Hv]. apply replay_empty; [done| |by apply Forall_app in Hv as [? _]|done].
  rewrite ids_app in Hn. by apply NoDup_app in Hn as [? _].
Qed.

Lemma process_sound op st st' :
  log_sound st -> verified op -> deps_known (known st) op = true ->
  compute_id op ∉ ids (ops st ++ pending st) ->
  process op st = (Ok tt, st') -> log_sound st' /\ pending st' = pending st.
Proof.
  intros [Hc Hn Hr Hv] Hop Hd Hnew (s & Hs & ->)%process_Ok. split; [|done]. split; simpl.
  - by apply causal_snoc_nil.
  - rewrite <- app_assoc. simpl. unfold ids. rewrite <- Permutation_middle. by constructor.
  - by rewrite crdt_run_snoc, Hr.
  - rewrite <- app_assoc. simpl. apply Forall_app in Hv as [? ?]. apply Forall_app. split; [done|].
    by constructor.
Qed.

Lemma drain_sound fuel st st' :
  log_sound st -> drain_pending_loop fuel st = (Ok tt, st') -> log_sound st'.
Proof.
  revert st. induction fuel as [|fuel IH]; intros st Hs; cbn [drain_pending_loop]; [by intros [= <-]|].
  destruct (position _ _) as [idx|] eqn:Hp; [|by intros [= <-]].
  apply position_Some in Hp as (op & Hi & Hd). rewrite Hi. cbv zeta.
  pose proof (delete_Permutation _ _ _ Hi) as Hperm. destruct Hs as [Hc Hn Hr Hv].
  set (st1 := {| crdt := crdt st; ops := ops st; pending := delete idx (pending st) |}).
  assert (NoDup (compute_id op :: ids (ops st1 ++ pending st1))) as Hn1.
  { unfold st1, ids in *. simpl. rewrite Hperm, <- Permutation_middle in Hn. exact Hn. }
  assert (Forall verified (op :: ops st1 ++ pending st1)) as Hv1.
  { unfold st1. simpl. rewrite Hperm, <- Permutation_middle in Hv. exact Hv. }
  apply NoDup_cons in Hn1 as [Hnew Hn1]. apply Forall_cons in Hv1 as [Hop Hv1].
  destruct (process op st1) as [[[]|e|] st2] eqn:E; [|done..]. intros Hrun.
  apply (IH st2); [|done]. eapply process_sound; [..|exact E]; done.
Qed.

Lemma apply_remote_sound op st b st' :
  log_sound st -> apply_remote op st = (Ok b, st') -> log_sound st'.
Proof.
  intros Hs. unfold apply_remote. destruct (verify op) as [[]|e|] eqn:Ev; [|done..]. cbv zeta.
  destruct (_ || _) eqn:Edup; [by intros [= _ <-]|].
  apply orb_false_iff in Edup as [Hk%bool_decide_eq_false Hp%bool_decide_eq_false].
  assert (compute_id op ∉ ids (ops st ++ pending st)) as Hnew
    by (rewrite ids_app, elem_of_app; by intros [?|?]).
  destruct (deps_known (known st) op) eqn:Ed; simpl.
  - destruct (process op st) as [[[]|e|] st1] eqn:Epr; [|done..].
    apply process_sound in Epr as [Hs1 _]; [|done..].
    destruct (drain_pending st1) as [[[]|e|] st2] eqn:Edr; [|done..]. intros [= _ <-].
    by apply drain_sound in Edr.
  - intros [= _ <-]. destruct Hs as [Hc Hn Hr Hv]. split; simpl; try done.
    + rewrite app_assoc. unfold ids. rewrite fmap_app. simpl.
      rewrite <- Permutation_cons_append. by constructor.
    + rewrite app_assoc. apply Forall_app. split; [done|]. by constructor.
Qed.

Lemma apply_log_sound l st st' :
  log_sound st -> apply_log l st = (Ok tt, st') -> log_sound st'.
Proof.
  revert st. induction l as [|op l IH]; intros st Hs; simpl; [by intros [= <-]|].
  destruct (apply_remote op st) as [[b|e|] st1] eqn:E; [|done..].
  apply IH. by eapply apply_remote_sound.
Qed.

Lemma apply_log_replay l st st' : replay l st = (Ok tt, st') -> apply_log l st = (Ok tt, st').
Proof.
  revert st. induction l as [|op l IH]; intros st; simpl; [done|].
  destruct (apply_remote op st) as [[b|e|] st1]; [apply IH|done..].
Qed.
End sound.

(** ** Lemmas: the daemon monad *)

Section lemmas.
Context `{MD : Metadata, ReadDir, Entropy, WallClock, Blake3, Ed25519, !CryptoBox, Base64, Chrono}.
Context `{!Bincode rotation_tuple, !BincodeTotal rotation_tuple, !Bincode SignedRotation}.
Context `{!Bincode canonical_tuple, !BincodeTotal canonical_tuple, !GroupCrdt}.
Context `{!Bincode SignedOp, !Bincode (list SignedOp), !Bincode Ticket, !Json ShareMsg, !Json ShareConfig}.
Context `{!Json PersistedState}.

Abbreviation shares_map := (gmap string Running).

Lemma dbind_Ok {A B : Type} (f : DM A) (k : A -> DM B) m w b mw :
  dbind f k m w = (Ok b, mw) <->
  exists a m' w', f m w = (Ok a, (m', w')) /\ k a m' w' = (Ok b, mw).
Proof. unfold dbind. destruct (f m w) as [[a|e|] [m' w']]; naive_solver. Qed.

Lemma dio_Ok {A B : Type} (f : M A) (k : A -> DM B) m w b mw :
  dbind (dio f) k m w = (Ok b, mw) -> exists a w', f w = (Ok a, w') /\ k a m w' = (Ok b, mw).
Proof. unfold dbind, dio. destruct (f w) as [[a|e|] w']; naive_solver. Qed.

Lemma dlift_Ok {A B : Type} (r : outcome A) (k : A -> DM B) m w b mw :
  dbind (dlift r) k m w = (Ok b, mw) -> exists a, r = Ok a /\ k a m w = (Ok b, mw).
Proof. unfold dbind, dlift. destruct r; naive_solver. Qed.

Lemma dget_run {B : Type} (k : shares_map -> DM B) m w : dbind dget k m w = k m m w.
Proof. done. Qed.

Lemma dmod_run {B : Type} f (k : unit -> DM B) m w : dbind (dmod f) k m w = k tt (f m) w.
Proof. done. Qed.

(** What a task is spawned with, when its files are known. *)
Lemma spawn_from_disk `{!Sighted} dd config w t w' st raw :
  w_fs w !! kfile dd (sc_id config) <> None ->
  data_at (w_fs w) (auth_log_path dd (sc_id config)) = Some raw ->
  bin_encode (ops st) = Some raw -> log_sound st ->
  spawn_share_task dd config w = (Ok t, w') ->
  (forall r, disk_ring dd (sc_id config) (w_fs w) = Some r -> t_key t = r) /\
  t_auth t = {| crdt := crdt st; ops := ops st; pending := [] |} /\
  forall q, file_at (w_fs w') q = file_at (w_fs w) q.
Proof.
  intros Hk Hd He Hs Hsp. unfold spawn_share_task in Hsp.
  apply bind_Ok in Hsp as (k & w1 & Hl%ctx_Ok & Hsp).
  pose proof Hl as (_ & _ & Hfs)%load_keyring_Ok. specialize (Hfs (sighted_readable _ _) Hk).
  apply bind_Ok in Hsp as (st1 & w2 & Ha%ctx_Ok & Hsp).
  pose proof Ha as (_ & _ & Hfs2)%auth_load_Ok.
  apply bind_Ok in Hsp as (p & w3 & [Hp _]%attempt_Ok & Hsp). injection Hsp as <- <-. simpl.
  split; [intros r Hr; by destruct (load_keyring_same _ _ _ _ _ _ (sighted_readable _ _) Hr Hl) as [-> _]|].
  split; [|intros q; rewrite <- Hfs, <- Hfs2;
    refine (eq_trans _ (load_pending_touches dd (sc_id config) w2 q ltac:(tauto))); by rewrite Hp].
  unfold auth_load in Ha.
  apply bind_Ok in Ha as (ex & w4 & Hex & Ha).
  rewrite fs_exists_run in Hex by apply sighted_readable. injection Hex as <- <-.
  rewrite Hfs in Ha. rewrite bool_decide_true in Ha.
  2: { unfold data_at, file_at in Hd. destruct (w_fs w !! auth_log_path dd (sc_id config)); [by eexists|done]. }
  simpl negb in Ha. cbv iota in Ha.
  apply bind_Ok in Ha as (raw' & w5 & (Hd' & _ & _)%ctx_Ok%fs_read_Ok & Ha).
  rewrite Hfs, Hd in Hd'. injection Hd' as <-.
  apply bind_Ok in Ha as (l & w6 & [Hl' ->]%lift_Ok & Ha). apply ok_or_Ok in Hl'.
  destruct (bin_decode_encode _ _ He) as [n En]. rewrite En in Hl'. injection Hl' as <-.
  rewrite (sound_replay st Hs) in Ha. apply bind_Ok in Ha as ([] & w7 & [_ ->]%lift_Ok & Ha).
  rewrite decide_True in Ha by done. by injection Ha as <- _.
Qed.

(** Authoring on a sound log. *)
Lemma author_sound k g a st op st' :
  log_sound st -> auth_wf st -> author k g a st = (Ok op, st') ->
  compute_id op ∉ ids (ops st ++ pending st) -> log_sound st'.
Proof.
  intros Hs Hwf Ha Hnew. pose proof (author_wf k g a st Hwf) as [_ Hw]. rewrite Ha in Hw.
  destruct (Hw op eq_refl) as (Hop & _ & _ & _ & Hdeps).
  unfold author in Ha. destruct (bin_encode _); [|done].
  destruct (process _ _) as [[[]|e|] st1] eqn:E; [|done..]. injection Ha as Eop ->.
  rewrite Eop in E. eapply process_sound in E as [? _]; [done|done|done| |done].
  apply deps_known_true. rewrite Hdeps. apply wf_heads, Hwf.
Qed.

Lemma install_keyring_Ok dd sid ks w w' :
  install_keyring dd sid ks w = (Ok tt, w') ->
  file_at (w_fs w') (kfile dd sid) = Some (File (ring_bytes {| keys := ks |}) mode_0600) /\
  (Forall (fun k => length k = KEY_LEN) ks -> disk_ring dd sid (w_fs w') = Some {| keys := ks |}).
Proof.
  unfold install_keyring. intros Hi. apply bind_Ok in Hi as (ex & w1 & _ & Hi).
  destruct ex; [done|]. case_decide as Hne; [done|]. apply save_keyring_Ok in Hi. split; [done|].
  intros Hlen. apply disk_ring_bytes; [by split|]. unfold data_at. by rewrite Hi.
Qed.

Lemma share_join_Ok `{!Sighted} dd id0 cwd ticket p m w sid m' w' :
  share_join dd id0 cwd ticket p m w = (Ok sid, (m', w')) ->
  exists t st task root now, decode ticket = Ok t /\ sid = share_id t /\
    invitee_pubkey t = public_key id0 /\ m !! sid = None /\
    apply_log (auth_log t) auth_empty = (Ok tt, st) /\
    is_member st (group_id_for sid) (public_key id0) = true /\
    m' = <[sid := {| run_config := {| sc_id := sid; sc_topic := topic t; sc_root_path := root;
                                      sc_role := role t; sc_created_at := now |};
                     run_task := task; run_alive := true |}]> m /\
    (Forall (fun k => length k = KEY_LEN) (tkeys t) -> keys (t_key task) = tkeys t) /\
    t_auth task = {| crdt := crdt st; ops := ops st; pending := [] |} /\
    file_at (w_fs w') (kfile dd sid) = Some (File (ring_bytes {| keys := tkeys t |}) mode_0600) /\
    exists raw, bin_encode (ops st) = Some raw /\ data_at (w_fs w') (auth_log_path dd sid) = Some raw.
Proof.
  unfold share_join. intros Hj. apply dlift_Ok in Hj as (t & Ht & Hj).
  apply dbind_Ok in Hj as (root & m1 & w1 & Hp & Hj).
  assert (m1 = m /\ w1 = w) as [-> ->].
  { destruct (is_absolute p); [by injection Hp as _ <- <-|].
    apply dlift_Ok in Hp as (c & _ & Hp). by injection Hp as _ <- <-. }
  case_decide as Hinv; [done|]. rewrite dget_run in Hj. case_decide as Hrun; [done|].
  apply dio_Ok in Hj as (configs & w2 & _ & Hj). destruct (configured _ _); [done|].
  apply dio_Ok in Hj as ([] & w3 & _ & Hj). apply dio_Ok in Hj as (now & w4 & _ & Hj). cbv zeta in Hj.
  apply dio_Ok in Hj as ([] & w5 & _ & Hj). apply dio_Ok in Hj as ([] & w6 & Hk & Hj).
  destruct (apply_log (auth_log t) auth_empty) as [r st] eqn:El.
  apply dlift_Ok in Hj as ([] & -> & Hj). destruct (is_member _ _ _) eqn:Em; [|done].
  simpl negb in Hj. cbv iota in Hj. apply dio_Ok in Hj as ([] & w7 & Hs & Hj).
  apply dbind_Ok in Hj as ([] & m2 & w8 & Hst & Hj). injection Hj as <- <- <-.
  unfold start_share in Hst. apply dio_Ok in Hst as (task & w9 & Hsp & Hst). injection Hst as <- <-.
  cbn [sc_id] in *. exists t, st, task, root, now. split; [done|]. split; [done|].
  split; [by destruct (decide (invitee_pubkey t = public_key id0))|]. split; [by apply eq_None_not_Some|]. split; [done|]. split; [done|].
  split; [done|].
  pose proof (auth_save_ring _ _ _ _ _ Hs) as Hring.
  destruct (install_keyring_Ok _ _ _ _ _ Hk) as [Hfile Hdisk].
  assert (file_at (w_fs w7) (kfile dd (share_id t)) = Some (File (ring_bytes {| keys := tkeys t |}) mode_0600))
    as Hfile7.
  { rewrite <- Hfile. refine (touches_Ok _ _ _ _ _ _ (auth_save_touches dd (share_id t) st) Hs _).
    unfold auth_file, auth_tmp, kfile. by intros [[=]%app_inv_head|[=]%app_inv_head]. }
  assert (w_fs w7 !! kfile dd (share_id t) <> None) as Hex.
  { unfold file_at in Hfile7. intros E. by rewrite E in Hfile7. }
  apply auth_save_Ok in Hs as (raw & He & Hd).
  pose proof (apply_log_sound _ _ _ log_sound_empty El) as Hsound.
  match type of Hsp with spawn_share_task _ ?c _ = _ =>
    destruct (spawn_from_disk dd c w7 task w9 st raw Hex Hd He Hsound Hsp) as (Hkey & Hauth & Hkeep) end.
  split; [|split; [done|]].
  2: { split; [by rewrite Hkeep|]. exists raw. split; [done|]. unfold data_at in *. by rewrite Hkeep. }
  intros Hlen. rewrite (Hdisk Hlen) in Hring.
    rewrite (Hkey {| keys := tkeys t |} Hring). reflexivity.
Qed.

Lemma handle_invite_Ok config dd id0 m ar sr t w s t' w' :
  handle_invite config dd id0 m ar sr t w = (Ok s, (t', w')) ->
  exists op, add_member id0 (group_id_for (sc_id config)) m ar (t_auth t) = (Ok op, t_auth t') /\
    t' = set_auth (t_auth t') t /\
    encode {| version := TICKET_VERSION; share_id := sc_id config; topic := sc_topic config;
              tkeys := keys (t_key t); auth_log := ops (t_auth t'); invitee_pubkey := m;
              role := sr |} = Ok s.
Proof.
  unfold handle_invite. cbv zeta. rewrite sget_run. intros Hi.
  destruct (auth_is_empty _); [done|]. destruct (is_member _ _ _); [done|].
  apply sauth_Ok in Hi as (op & st & Ha & Hi). rewrite sget_run in Hi.
  apply sio_Ok in Hi as ([] & w1 & _ & Hi). injection Hi as He <- _. by exists op.
Qed.

Lemma share_add_Ok dd id0 topic p role m w sid m' w' :
  share_add dd id0 topic p role m w = (Ok sid, (m', w')) ->
  exists r, m !! sid = None /\ m' = <[sid := r]> m /\ run_alive r = true /\
    sid = id_from_topic topic /\ sc_id (run_config r) = sid /\ sc_topic (run_config r) = topic /\
    sc_root_path (run_config r) = p /\ share_role_from_str role = Ok (sc_role (run_config r)) /\
    exists op st, create_group id0 (group_id_for sid) auth_empty = (Ok op, st) /\ ops st = [op].
Proof.
  unfold share_add. intros Ha. apply dlift_Ok in Ha as (ro & Hro & Ha). apply rctx_Ok in Hro.
  apply dio_Ok in Ha as (ex & w1 & _ & Ha). destruct (_ && _); [done|].
  apply dio_Ok in Ha as (c & w2 & Hc & Ha). cbv zeta in Ha. rewrite dget_run in Ha.
  case_decide as Hrun; [done|]. destruct (create_group _ _ _) as [o st] eqn:Ecr.
  apply dlift_Ok in Ha as (op & -> & Ha).
  apply dio_Ok in Ha as ([] & w3 & _ & Ha). apply dio_Ok in Ha as ([] & w4 & _ & Ha).
  apply dbind_Ok in Ha as ([] & m1 & w5 & Hst & Ha). injection Ha as <- <- <-.
  unfold start_share in Hst. apply dio_Ok in Hst as (t & w6 & _ & Hst). injection Hst as <- <-.
  unfold config_new in Hc. apply bind_Ok in Hc as (now & w7 & _ & Hc). injection Hc as <- <-.
  eexists. split; [by apply eq_None_not_Some|]. split; [reflexivity|]. do 5 (split; [done|]).
  split; [done|]. exists op, st. split; [done|]. unfold create_group in Ecr. simpl in Ecr.
  pose proof (author_wf id0 (group_id_for (id_from_topic topic)) (Create [(public_key id0, Manage)])
    auth_empty auth_empty_wf) as [_ Hw]. unfold auth_is_empty in Ecr. simpl in Ecr.
  rewrite Ecr in Hw. by destruct (Hw op eq_refl) as (_ & Hops & _).
Qed.

(** Reading the configurations changes no file. *)
Lemma load_all_touches dd S : touches S (load_all dd).
Proof.
  unfold load_all. cbv zeta. apply touches_bind; [auto with peerdup|]. intros ex.
  destruct (negb ex); [auto with peerdup|]. apply touches_bind; [auto with peerdup|]. intros names.
  apply touches_bind; [|auto with peerdup].
  induction names as [|n names IH]; cbn [load_entries]; [auto with peerdup|].
  apply touches_bind; [|intros c; apply touches_bind; [done|auto with peerdup]].
  unfold load_entry. apply touches_bind; [auto with peerdup|]. intros ft.
  case_decide; [auto with peerdup|]. cbv zeta. apply touches_bind; [auto with peerdup|]. intros e.
  destruct (negb e); auto 10 with peerdup.
Qed.

Lemma remove_dir_all_touches p : touches (fun q => p `prefix_of` q) (fs_remove_dir_all p).
Proof.
  apply io_touches.
  - intros fs q Hq. unfold op_remove_dir_all, file_at. destruct (fs !! p) as [[]|]; [done| |done..].
    simpl. rewrite map_lookup_filter. destruct (fs !! q); simpl; [|done]. by rewrite option_guard_True.
  - intros n fs q Hq. unfold file_at. rewrite map_lookup_filter.
    destruct (fs !! q); simpl; [|done]. rewrite option_guard_True; [done|]. simpl. tauto.
Qed.

Lemma remove_dir_all_Ok p w w' q :
  fs_remove_dir_all p w = (Ok tt, w') -> p `prefix_of` q -> file_at (w_fs w') q = None.
Proof.
  intros (E & _)%io_Ok Hq. unfold op_remove_dir_all in E. destruct (w_fs w !! p) as [[]|]; [done| |done..].
  injection E as E. unfold file_at. rewrite <- E, map_lookup_filter.
  destruct (w_fs w !! q); simpl; [|done]. by rewrite option_guard_False by tauto.
Qed.

Lemma remove_dir_all_none p w q :
  file_at (w_fs w) q = None -> file_at (w_fs (snd (fs_remove_dir_all p w))) q = None.
Proof.
  assert (forall (P : path * node -> Prop) `{!forall x, Decision (P x)} (fs : fsmap),
    file_at fs q = None -> file_at (filter P fs) q = None) as Hfil.
  { intros P HP fs. unfold file_at. rewrite map_lookup_filter. destruct (fs !! q); simpl; [|done].
    by case_guard. }
  intros Hn. apply (io_pres _ _ (fun fs => file_at fs q = None)); [done| |].
  - unfold op_remove_dir_all. destruct (w_fs w !! p) as [[]|]; [done| |done..]. by apply Hfil.
  - intros n. by apply Hfil.
Qed.

(** The files [share_remove] may delete. *)
Definition removable (dd : path) (id : string) (root : option path) (q : path) : Prop :=
  share_dir dd id `prefix_of` q \/
  match root with Some r => join r ".peerdup" `prefix_of` q | None => False end.

(** The root of a configured share is that of a configuration with its id. *)
Lemma root_of_Some id cs r :
  root_of id cs = Some r -> exists c, c ∈ cs /\ sc_id c = id /\ sc_root_path c = r.
Proof.
  unfold root_of. destruct (List.find _ cs) as [c|] eqn:E; [|done]. intros [= <-].
  apply find_some in E as [Hc Hid%bool_decide_eq_true]. exists c. by rewrite list_elem_of_In.
Qed.

(** What a removal may touch, from the configurations it loads. *)
Lemma share_remove_touches dd id m w q :
  (forall cs w1, load_all dd w = (Ok cs, w1) -> ~ removable dd id (root_of id cs) q) ->
  file_at (w_fs (snd (share_remove dd id m w)).2) q = file_at (w_fs w) q.
Proof.
  intros Hq. unfold share_remove, dbind, dio, dmod.
  pose proof (load_all_touches dd (fun _ => False) w q ltac:(tauto)) as Hl.
  destruct (load_all dd w) as [[cs|e|] w1]; simpl in *; [|done..].
  specialize (Hq cs w1 eq_refl).
  assert (touches (fun q => removable dd id (root_of id cs) q) (share_dir_remove dd id)) as Hs.
  { unfold share_dir_remove. cbv zeta. apply touches_bind; [auto with peerdup|]. intros ex.
    destruct (negb ex); [auto with peerdup|]. apply touches_ctx.
    eapply touches_mono; [|apply remove_dir_all_touches]. intros z Hz. by left. }
  specialize (Hs w1 q Hq). destruct (share_dir_remove dd id w1) as [[[]|e|] w2]; simpl in *;
    try congruence.
  assert (touches (fun q => removable dd id (root_of id cs) q) (remove_shadow (root_of id cs))) as Hr.
  { unfold remove_shadow. destruct (root_of id cs) as [r|]; [|auto with peerdup].
    apply touches_bind; [auto with peerdup|]. intros [|]; [|auto with peerdup].
    apply touches_bind; [|auto with peerdup]. apply touches_attempt.
    eapply touches_mono; [|apply remove_dir_all_touches]. intros z Hz. by right. }
  specialize (Hr w2 q Hq). destruct (remove_shadow _ w2) as [o w3]. simpl in *. congruence.
Qed.

Lemma share_remove_frame dd id m w q :
  (forall r, ~ removable dd id r q) ->
  file_at (w_fs (snd (share_remove dd id m w)).2) q = file_at (w_fs w) q.
Proof. intros Hq. apply share_remove_touches. auto. Qed.
End lemmas.

Lemma sorted_mono {A : Type} (R S : relation A) (l : list A) :
  (forall x y, R x y -> S x y) -> StronglySorted R l -> StronglySorted S l.
Proof. intros HR. induction 1; constructor; [done|]. eapply Forall_impl; [done|]. auto. Qed.

(** ** Properties *)

Section properties.
Context `{MD : Metadata, ReadDir, Entropy, WallClock, Blake3, Ed25519, !CryptoBox, Base64, Chrono}.
Context `{!Bincode rotation_tuple, !BincodeTotal rotation_tuple, !Bincode SignedRotation}.
Context `{!Bincode canonical_tuple, !BincodeTotal canonical_tuple, !GroupCrdt}.
Context `{!Bincode SignedOp, !Bincode (list SignedOp), !Bincode Ticket, !Json ShareMsg, !Json ShareConfig}.
Context `{!Json PersistedState}.

Lemma call_share_step `{!KeysSighted} (dd : path) (id0 : bytes) (id : string) (cmd : ShareCommand)
    (m : gmap string Running) (w : world) :
  let '(o, (m', w')) := call_share dd id0 id cmd m w in
  (forall j, j <> id -> m' !! j = m !! j) /\
  match m !! id with
  | None => ~ is_Ok o /\ m' = m /\ w' = w
  | Some r =>
      (run_alive r = false -> ~ is_Ok o /\ m' = m /\ w' = w) /\
      (sc_id (run_config r) = id -> task_ok dd id (run_task r, w) ->
       exists r', m' !! id = Some r' /\ run_config r' = run_config r /\
         task_ok dd id (run_task r', w') /\ grows dd id (run_task r, w) (run_task r', w'))
  end.
Proof.
  unfold call_share. destruct (m !! id) as [r|] eqn:Em.
  2: { split; [done|]. split; [by intros [? ?]|done]. }
  destruct (run_alive r) eqn:Ea; simpl negb; cbv iota.
  2: { split; [done|]. split; [split; [by intros [? ?]|done]|]. intros _ Hok. exists r.
       split; [done|]. split; [done|]. split; [done|reflexivity]. }
  pose proof (command_keeps (run_config r) dd id0 cmd (run_task r) w) as Hk.
  destruct (handle_share_command cmd (run_config r) dd id0 (run_task r) w) as [[[stop reply]|e|] [t' w']];
    (split; [intros j Hj; by rewrite lookup_insert_ne|]; split; [done|]; intros Hid Hok;
     rewrite Hid in Hk; destruct (Hk Hok) as [Hok' Hg]; eexists; rewrite lookup_insert_eq;
     split; [reflexivity|]; done).
Qed.

(** C10. Invite and join, end to end: the text an inviting task answers, joined by
    the invitee's daemon, starts there a share with the same id and topic and
    the suggested role, whose task has the inviter's keyring and exactly the
    inviter's membership log and group state, the invitation included.
    ([Sighted]: the metadata of the joiner's files can be read.) *)
Theorem invite_join `{!Sighted} (config : ShareConfig) (dd dd' : path) (id0 id1 : bytes) (ar : AuthRole)
    (sr : ShareRole) (t t' : ShareTask) (w w' : world) (ticket p : string) (cwd : outcome path)
    (m m' : gmap string Running) (v v' : world) (sid : string)
    (Hsound : log_sound (t_auth t)) (Hwf : auth_wf (t_auth t)) (Hp : pending (t_auth t) = [])
    (Hring : ring_wf (t_key t))
    (Hinvite : handle_invite config dd id0 (public_key id1) ar sr t w = (Ok ticket, (t', w')))
    (Hfresh : NoDup (ids (ops (t_auth t'))))
    (Hjoin : share_join dd' id1 cwd ticket p m v = (Ok sid, (m', v'))) :
  sid = sc_id config /\ m !! sid = None /\
  exists r, m' = <[sid := r]> m /\ run_alive r = true /\
    sc_id (run_config r) = sid /\ sc_topic (run_config r) = sc_topic config /\
    sc_role (run_config r) = sr /\
    keys (t_key (run_task r)) = keys (t_key t) /\ t_auth (run_task r) = t_auth t' /\
    is_member (t_auth (run_task r)) (group_id_for sid) (public_key id1) = true.
Proof.
  apply handle_invite_Ok in Hinvite as (op & Hadd & Ht' & He).
  pose proof (author_wf id0 (group_id_for (sc_id config)) (Add (public_key id1) (to_access ar))
    (t_auth t) Hwf) as [_ Hw]. unfold add_member in Hadd. rewrite Hadd in Hw.
  destruct (Hw op eq_refl) as (_ & Hops & _). cbn [snd] in Hops.
  assert (log_sound (t_auth t')) as Hs'.
  { eapply author_sound; [exact Hsound|done|exact Hadd|]. rewrite Hp, app_nil_r.
    rewrite Hops, ids_app in Hfresh. apply NoDup_app in Hfresh as (_ & Hx & _).
    intros Hin. apply (Hx _ Hin). unfold ids. simpl. by left. }
  assert (pending (t_auth t') = []) as Hp'.
  { unfold author in Hadd. destruct (bin_encode _); [|done].
    destruct (process _ _) as [[[]|e|] st1] eqn:E; [|done..]. injection Hadd as _ <-.
    by apply process_Ok in E as (s & _ & ->). }
  apply decode_encode in He.
  2: { split; [done|]. split; simpl; [by apply Hring|]. rewrite Hops. by destruct (ops (t_auth t)). }
  apply share_join_Ok in Hjoin as (tk & st & task & root & now & Hd & -> & _ & Hm & Hl & Hmem & -> & Hk & Ha & _).
  rewrite He in Hd. injection Hd as <-. cbn [share_id topic role tkeys auth_log] in *.
  rewrite (apply_log_replay _ _ _ (sound_replay _ Hs')) in Hl. injection Hl as <-. simpl in Ha.
  assert (t_auth task = t_auth t') as Hauth.
  { rewrite Ha. destruct (t_auth t') as [c o pd]. simpl in *. by subst pd. }
  split; [done|]. split; [done|]. eexists. split; [reflexivity|]. simpl.
  split; [done|]. split; [done|]. split; [done|]. split; [done|].
  split; [apply Hk, Hring|]. split; [done|]. by rewrite Hauth.
Qed.

(** C23. What a join accepts: only a well-formed ticket that names this daemon's
    key, for a share that is not running, whose log verifies operation by
    operation and lists this daemon as a member; then the share runs with
    the keys of the ticket and with the state its log leads to, [keys.bin]
    holds the ticket's keys, readable by its owner only, and [auth.log] that
    log.  ([Sighted]: the metadata of the joiner's files can be read.) *)
Theorem share_join_sound `{!Sighted} (dd : path) (id0 : bytes) (cwd : outcome path) (ticket p : string)
    (m m' : gmap string Running) (w w' : world) (sid : string)
    (Hrun : share_join dd id0 cwd ticket p m w = (Ok sid, (m', w'))) :
  exists t st r raw, decode ticket = Ok t /\ sid = share_id t /\ invitee_pubkey t = public_key id0 /\
    m !! sid = None /\ m' = <[sid := r]> m /\
    apply_log (auth_log t) auth_empty = (Ok tt, st) /\ log_sound st /\
    is_member st (group_id_for sid) (public_key id0) = true /\
    ops (t_auth (run_task r)) = ops st /\ crdt (t_auth (run_task r)) = crdt st /\
    (Forall (fun k => length k = KEY_LEN) (tkeys t) -> keys (t_key (run_task r)) = tkeys t) /\
    file_at (w_fs w') (keys_path dd sid) = Some (File (ring_bytes {| keys := tkeys t |}) mode_0600) /\
    bin_encode (ops st) = Some raw /\ data_at (w_fs w') (auth_log_path dd sid) = Some raw.
Proof.
  apply share_join_Ok in Hrun
    as (t & st & task & root & now & Hd & -> & Hi & Hm & Hl & Hmem & -> & Hk & Ha & Hf & raw & He & Hr).
  exists t, st. eexists. exists raw. split; [done|]. split; [done|]. split; [done|]. split; [done|].
  split; [reflexivity|]. split; [done|]. split; [by apply (apply_log_sound _ _ _ log_sound_empty Hl)|].
  simpl. rewrite Ha, keys_path_eq. done.
Qed.

(** Adding a share: it runs under the id of its topic, as configured, and its
    membership log is the one operation that creates the group. *)
Theorem share_add_bootstraps (dd : path) (id0 : bytes) (topic : string) (p : path) (role : string)
    (m m' : gmap string Running) (w w' : world) (sid : string)
    (Hrun : share_add dd id0 topic p role m w = (Ok sid, (m', w'))) :
  sid = id_from_topic topic /\ m !! sid = None /\
  exists r op st, m' = <[sid := r]> m /\ run_alive r = true /\
    sc_topic (run_config r) = topic /\ sc_root_path (run_config r) = p /\
    share_role_from_str role = Ok (sc_role (run_config r)) /\
    create_group id0 (group_id_for sid) auth_empty = (Ok op, st) /\ ops st = [op].
Proof.
  apply share_add_Ok in Hrun as (r & Hm & -> & Hal & -> & _ & Ht & Hp & Hr & op & st & Hc & Ho).
  split; [done|]. split; [done|]. by exists r, op, st.
Qed.

(** C34. Removing a share spares everything else: whatever fails, only files in
    the directory its id names and in the [.peerdup] directory of the root
    that the share's own configuration gives can go; that directory is the
    share's own below [shares/] when the id is a plain name (for [..], which
    nobody refuses, it is the whole data directory); the share no longer runs
    once its configuration could be read; and after a success no file of the
    share's directory is left. *)
Theorem share_remove_spares (dd : path) (id : string) (m : gmap string Running) (w : world) :
  let '(o, (m', w')) := share_remove dd id m w in
  (forall q, ~ share_dir dd id `prefix_of` q ->
     (forall cs w1 c, load_all dd w = (Ok cs, w1) -> c ∈ cs -> sc_id c = id ->
        ~ join (sc_root_path c) ".peerdup" `prefix_of` q) ->
     file_at (w_fs w') q = file_at (w_fs w) q) /\
  (plain_name id -> share_dir dd id = shares_dir dd ++ [id]) /\
  (id = ".." -> share_dir dd id = dd) /\
  (m' = m \/ m' = delete id m) /\
  (o = Ok tt -> m' = delete id m /\
     forall q, share_dir dd id `prefix_of` q -> file_at (w_fs w') q = None).
Proof.
  destruct (share_remove dd id m w) as [o [m' w']] eqn:E.
  split; [|split; [intros; by apply join_plain|split; [intros ->; apply share_dir_dotdot|split]]].
  - intros q Hd Hq. pose proof (share_remove_touches dd id m w q) as Hf. rewrite E in Hf. apply Hf.
    intros cs w1 Hl [Hx|Hx]; [done|]. destruct (root_of id cs) as [r|] eqn:Er; [|done].
    apply root_of_Some in Er as (c & Hc & Hid & <-). by apply (Hq cs w1 c).
  - unfold share_remove, dbind, dio, dmod in E. destruct (load_all dd w) as [[cs|e|] w1]; simpl in E.
    + right. destruct (share_dir_remove dd id w1) as [[[]|e|] w2]; simpl in E; try congruence.
      destruct (remove_shadow _ w2). congruence.
    + left. congruence.
    + left. congruence.
  - intros ->. unfold share_remove in E. apply dio_Ok in E as (cs & w1 & _ & E). cbv zeta in E.
    rewrite dmod_run in E. apply dio_Ok in E as ([] & w2 & Hr & E). unfold dio in E.
    destruct (remove_shadow _ w2) as [o3 w3] eqn:E3. injection E as -> <- <-. split; [done|].
    intros q Hq. assert (file_at (w_fs w2) q = None) as Hn.
    { unfold share_dir_remove in Hr. cbv zeta in Hr. apply bind_Ok in Hr as (ex & w4 & _ & Hr).
      destruct ex; simpl negb in Hr; cbv iota in Hr; [|done].
      apply ctx_Ok in Hr. by eapply remove_dir_all_Ok. }
    unfold remove_shadow in E3. destruct (root_of id cs) as [r|]; [|by injection E3 as <-].
    apply bind_Ok in E3 as (ex & w4 & Hex & E3).
    destruct ex; [apply fs_exists_true in Hex as [_ ->]|injection Hex as _ <-; by injection E3 as <-].
    apply bind_Ok in E3 as (o & w5 & [Ho _]%attempt_Ok & E3).
    injection E3 as <-. pose proof (remove_dir_all_none (join r ".peerdup") w2 q Hn) as Hd.
    by rewrite Ho in Hd.
Qed.

(** [share_peers] lists every peer of the remembered clock once, the busiest
    first and peers with equal counts by name. *)
Theorem share_peers_sorted (dd : path) (id : string) (m m' : gmap string Running) (w w' : world)
    (l : list (string * Z)) (Hrun : share_peers dd id m w = (Ok l, (m', w'))) :
  m' = m /\
  exists st w1 w2, state_load dd id w1 = (Ok st, w2) /\
    l ≡ₚ map_to_list (match st with Some st => ps_clock st | None => ∅ end) /\
    NoDup l.*1 /\
    StronglySorted (fun a b => b.2 < a.2 \/ b.2 = a.2 /\ leb a.1 b.1 = true) l.
Proof.
  unfold share_peers in Hrun. apply dio_Ok in Hrun as (cs & w1 & _ & Hrun).
  destruct (configured id cs); [|done]. simpl negb in Hrun. cbv iota in Hrun.
  apply dio_Ok in Hrun as (st & w2 & Hst & Hrun).
  assert (m' = m /\ l = sort_peers (map_to_list (match st with Some st => ps_clock st | None => ∅ end)))
    as [-> ->].
  { destruct st; injection Hrun as <- <- _; [done|]. by rewrite map_to_list_empty. }
  split; [done|]. exists st, w1, w2. split; [done|]. set (c := match st with Some _ => _ | None => _ end).
  pose proof (sort_by_perm peer_order (map_to_list c)) as Hperm. split; [exact Hperm|]. split.
  - unfold sort_peers. rewrite Hperm. apply NoDup_fst_map_to_list.
  - eapply sorted_mono; [|apply (sort_by_sorted peer_order)].
    intros [k1 v1] [k2 v2] Hle. unfold key_le, peer_order in Hle. simpl in *.
    case_decide as E; [right; split; [lia|done]|]. left. apply Z.leb_le in Hle. lia.
Qed.

(** A command sent through the interface is one safe turn of its share's
    task: no other share's task changes; the task keeps its invariant and
    loses nothing, whatever the command answers; a share that is not in the
    map, or whose task has ended, gives an error and nothing changes. *)
Theorem call_share_safe `{!KeysSighted} (dd : path) (id0 : bytes) (id : string) (cmd : ShareCommand)
    (m : gmap string Running) (w : world) :
  let '(o, (m', w')) := call_share dd id0 id cmd m w in
  (forall j, j <> id -> m' !! j = m !! j) /\
  match m !! id with
  | None => ~ is_Ok o /\ m' = m /\ w' = w
  | Some r =>
      (run_alive r = false -> ~ is_Ok o /\ m' = m /\ w' = w) /\
      (sc_id (run_config r) = id -> task_ok dd id (run_task r, w) ->
       exists r', m' !! id = Some r' /\ run_config r' = run_config r /\
         task_ok dd id (run_task r', w') /\ grows dd id (run_task r, w) (run_task r', w'))
  end.
Proof. apply call_share_step. Qed.
End properties.

(** ** Witnesses *)

#[export] Instance ser_config : Ser ShareConfig.
Proof.
  refine (ser_inj (B := (string * string) * (path * (ShareRole * Z)))
    (fun c => ((sc_id c, sc_topic c), (sc_root_path c, (sc_role c, sc_created_at c))))
    (fun x => Some {| sc_id := x.1.1; sc_topic := x.1.2; sc_root_path := x.2.1; sc_role := x.2.2.1;
                      sc_created_at := x.2.2.2 |}) _).
  by intros [].
Defined.

Definition toy_config : Json ShareConfig := toy_json _.
Definition toy_chrono : Chrono := fun _ => "1970-01-01T00:00:00+00:00".

Section witnesses.
#[local] Existing Instance toy_metadata.
#[local] Existing Instance toy_sighted.
#[local] Existing Instance toy_entropy.
#[local] Existing Instance toy_blake3.
#[local] Existing Instance toy_ed25519.
#[local] Existing Instance toy_box.
#[local] Existing Instance toy_base64.
#[local] Existing Instance toy_read_dir.
#[local] Existing Instance toy_clock.
#[local] Existing Instance toy_state.
#[local] Existing Instance toy_rotation_tuple.
#[local] Existing Instance toy_rotation_total.
#[local] Existing Instance toy_rotation.
#[local] Existing Instance toy_canonical.
#[local] Existing Instance toy_canonical_total.
#[local] Existing Instance toy_group.
#[local] Existing Instance toy_op.
#[local] Existing Instance toy_ops.
#[local] Existing Instance toy_ticket.
#[local] Existing Instance toy_msg.
#[local] Existing Instance toy_config.
#[local] Existing Instance toy_chrono.

(** Alice invites Dave. *)
Definition wi_dave : bytes := wa_key Byte.x0d.
#[local] Abbreviation wi_invite :=
  (handle_invite wd_cfg wd_dd wa_alice (public_key wi_dave) Writer Sync wd_task wd_world).
Definition wi_ticket : string := Eval vm_compute in match wi_invite.1 with Ok s => s | _ => "" end.
#[local] Abbreviation wi_join :=
  (share_join ["dave"] wi_dave (Ok []) wi_ticket "/home/dave/share" ∅ (world_of root_fs)).

Lemma wi_invited :
  bool_decide (wi_invite.1 = Ok wi_ticket) && bool_decide (NoDup (ids (ops (t_auth wi_invite.2.1)))) = true.
Proof. vm_compute. reflexivity. Qed.

Lemma wi_joined : wi_join.1 = Ok "share".
Proof. vm_compute. reflexivity. Qed.

Lemma wi_sound : log_sound (t_auth wd_task).
Proof.
  change (t_auth wd_task) with wa_final. destruct wa_final_inv as [Hc Hn _ Hr].
  split; [exact Hc|exact Hn|exact Hr|]. rewrite wa_final_pending, app_nil_r. exact wa_final_verified.
Qed.

Lemma wi_ring_wf : ring_wf w_ring.
Proof. split; [discriminate|]. repeat constructor. Qed.

Lemma invite_join_witness :
  exists r, wi_join.2.1 !! "share" = Some r /\ keys (t_key (run_task r)) = keys w_ring /\
    t_auth (run_task r) = t_auth wi_invite.2.1.
Proof.
  pose proof wi_invited as Hi. pose proof wi_joined as Hj.
  destruct wi_invite as [o1 [t' w']] eqn:E1. destruct wi_join as [o2 [m' v']] eqn:E2.
  cbn [fst snd] in *. subst o2.
  apply andb_true_iff in Hi as [Ho%bool_decide_eq_true Hn%bool_decide_eq_true]. subst o1.
  destruct (invite_join wd_cfg wd_dd ["dave"] wa_alice wi_dave Writer Sync wd_task t' wd_world w'
    wi_ticket "/home/dave/share" (Ok []) ∅ m' (world_of root_fs) v' "share"
    wi_sound wa_final_wf wa_final_pending wi_ring_wf E1 Hn E2)
    as (_ & _ & r & -> & _ & _ & _ & _ & Hk & Ha & _).
  exists r. split; [apply lookup_insert_eq|]. split; [exact Hk|exact Ha].
Defined.

Lemma share_join_sound_witness :
  exists t, decode wi_ticket = Ok t /\ invitee_pubkey t = public_key wi_dave /\
    data_at (w_fs wi_join.2.2) (keys_path ["dave"] "share") = Some (ring_bytes {| keys := tkeys t |}).
Proof.
  pose proof wi_joined as Hj. destruct wi_join as [o2 [m' v']] eqn:E2. cbn [fst snd] in *. subst o2.
  destruct (share_join_sound ["dave"] wi_dave (Ok []) wi_ticket "/home/dave/share" ∅ m'
    (world_of root_fs) v' "share" E2)
    as (t & st & r & raw & Hd & _ & Hi & _ & _ & _ & _ & _ & _ & _ & _ & Hf & _).
  exists t. split; [exact Hd|]. split; [exact Hi|]. unfold data_at. by rewrite Hf.
Defined.

#[local] Abbreviation wi_add := (share_add wd_dd wa_alice "topic" ["home"] "Sync" ∅ (world_of root_fs)).

Lemma wi_added : match wi_add.1 with Ok _ => true | _ => false end = true.
Proof. vm_compute. reflexivity. Qed.

Lemma share_add_bootstraps_witness :
  exists r, wi_add.2.1 !! id_from_topic "topic" = Some r /\ run_alive r = true.
Proof.
  pose proof wi_added as Ha. destruct wi_add as [[sid|e|] [m' v']] eqn:E; cbn [fst snd] in *; [|discriminate Ha..].
  destruct (share_add_bootstraps wd_dd wa_alice "topic" ["home"] "Sync" ∅ m' (world_of root_fs) v' sid E)
    as (-> & _ & r & op & st & -> & Hal & _).
  exists r. split; [apply lookup_insert_eq|exact Hal].
Defined.

(** A daemon with two shares, "share" with its root and its shadow. *)
Definition wi_two : world := world_of
  (with_file (share_dir wd_dd "b" ++ ["keys.bin"]) [Byte.x01]
    (with_file ["home"; ".peerdup"; "encrypted"; "x.bin"] [Byte.x02]
      (with_file ["home"; "x"] [Byte.x03] (w_fs (snd (config_save wd_cfg wd_dd wd_world)))))).
#[local] Abbreviation wi_removed id := (share_remove wd_dd id ∅ wi_two).2.2.

(** The configurations found there. *)
Lemma wi_two_configs cs w1 : load_all wd_dd wi_two = (Ok cs, w1) -> cs = [wd_cfg].
Proof.
  assert (E : bool_decide ((load_all wd_dd wi_two).1 = Ok [wd_cfg]) = true) by (vm_compute; reflexivity).
  apply bool_decide_eq_true in E. intros Hl. rewrite Hl in E. by injection E.
Qed.

Lemma share_remove_spares_witness :
  file_at (w_fs (wi_removed "share")) (share_dir wd_dd "b" ++ ["keys.bin"]) =
    Some (File [Byte.x01] default_mode) /\
  file_at (w_fs (wi_removed "share")) ["home"; "x"] = Some (File [Byte.x03] default_mode).
Proof.
  pose proof (share_remove_spares wd_dd "share" ∅ wi_two) as Hs.
  destruct (share_remove wd_dd "share" ∅ wi_two) as [o [m' w']]. cbn [fst snd].
  destruct Hs as [Hf _].
  split; (rewrite Hf; [vm_compute; reflexivity|intros [l Hl]; discriminate Hl|]);
    intros cs w1 c Hl Hc _ [l E]; apply wi_two_configs in Hl as ->;
    apply list_elem_of_singleton in Hc as ->; discriminate E.
Defined.

(** The id is not checked: asked to remove the share [..], which is configured
    nowhere, the daemon deletes all files of its data directory, the keys of
    every share and its identity included.  (Of the emptied directory itself
    the host may refuse the removal under this name.) *)
Theorem share_remove_dotdot :
  is_Some (file_at (w_fs wi_two) (share_dir wd_dd "b" ++ ["keys.bin"])) /\
  forallb (fun kn => negb (bool_decide (wd_dd `prefix_of` kn.1)))
    (map_to_list (w_fs (wi_removed ".."))) = true.
Proof. split; vm_compute; [by eexists|reflexivity]. Qed.

Definition wi_state : world := snd (config_save wd_cfg wd_dd
  (snd (state_save wd_dd "share" wsh_state (world_of root_fs)))).
#[local] Abbreviation wi_peers := (share_peers wd_dd "share" ∅ wi_state).

Lemma wi_peers_ok : match wi_peers.1 with Ok l => length l | _ => O end = 1%nat.
Proof. vm_compute. reflexivity. Qed.

Lemma share_peers_sorted_witness :
  exists l, wi_peers.1 = Ok l /\ NoDup l.*1.
Proof.
  pose proof wi_peers_ok as Hp. destruct wi_peers as [[l|e|] [m' w']] eqn:E; cbn [fst] in *; [|discriminate Hp..].
  destruct (share_peers_sorted wd_dd "share" ∅ m' wi_state w' l E) as (_ & st & w1 & w2 & _ & _ & Hn & _).
  exists l. split; [reflexivity|exact Hn].
Defined.

Definition wi_running : gmap string Running :=
  {[ "share" := {| run_config := wd_cfg; run_task := wd_task; run_alive := true |} ]}.
#[local] Abbreviation wi_call := (call_share wd_dd wa_alice "share" (CRevoke wd_bob) wi_running wd_world).

Lemma wi_task_ok : task_ok wd_dd "share" (wd_task, wd_world).
Proof.
  split; [exact wa_final_wf|split; [simpl; lia|constructor]|].
  exists w_ring. split; [exact wd_disk|reflexivity].
Qed.

Lemma call_share_safe_witness :
  exists r, wi_call.2.1 !! "share" = Some r /\ task_ok wd_dd "share" (run_task r, wi_call.2.2).
Proof.
  pose proof (call_share_safe wd_dd wa_alice "share" (CRevoke wd_bob) wi_running wd_world) as Hc.
  destruct wi_call as [o [m' w']]. cbn [fst snd]. destruct Hc as [_ Hc].
  destruct (proj2 Hc eq_refl wi_task_ok) as (r & Hr & _ & Hok & _). exists r. split; [exact Hr|exact Hok].
Defined.

(** *** Three ways in which the interface goes wrong *)

(** A share that is on disk but not running (its task could not be spawned)
    is added again: its log, with Bob and Carol in it, is replaced by a log
    of one operation. *)
Definition wi_topic_id : string := Eval vm_compute in id_from_topic "topic".
Definition wi_before : world := snd (auth_save wd_dd wi_topic_id wa_final (world_of root_fs)).
Definition log_length (w : world) : outcome nat :=
  match (auth_load wd_dd wi_topic_id w).1 with
  | Ok st => Ok (length (ops st))
  | Err e => Err e
  | Panic => Panic
  end.

Theorem share_add_forgets_members :
  log_length wi_before = Ok 3%nat /\
  log_length (share_add wd_dd wa_alice "topic" ["home"] "sync" ∅ wi_before).2.2 = Ok 1%nat.
Proof. split; vm_compute; reflexivity. Qed.

(** A ticket whose log does not list the joiner is refused, but only after
    the configuration and the keyring were written: the share is configured
    from then on, and a good ticket for it is refused too. *)
Definition wi_stranger : bytes := wa_key Byte.x3f.
Definition wi_bad_ticket : Ticket :=
  {| version := TICKET_VERSION; share_id := "share"; topic := "topic"; tkeys := keys w_ring;
     auth_log := wa_log; invitee_pubkey := public_key wi_dave; role := Sync |}.
Definition wi_text (t : Ticket) : string := match encode t with Ok s => s | _ => "" end.
#[local] Abbreviation wi_bad_join :=
  (share_join ["dave"] wi_dave (Ok []) (wi_text wi_bad_ticket) "/home/dave/share" ∅ (world_of root_fs)).

Theorem refused_join_stays_configured :
  wi_bad_join.1 = Err (EMsg "ticket's auth log does not list us as a member") /\
  (share_join ["dave"] wi_dave (Ok []) wi_ticket "/home/dave/share" ∅ wi_bad_join.2.2).1 =
    Err (EMsg "share is already configured locally").
Proof. split; vm_compute; reflexivity. Qed.

(** The share id of a ticket is not checked: an absolute one makes the joiner
    write outside its data directory. *)
Definition wi_evil_ticket : Ticket :=
  {| version := TICKET_VERSION; share_id := "/etc/evil"; topic := "topic"; tkeys := keys w_ring;
     auth_log := wa_log; invitee_pubkey := public_key wi_dave; role := Sync |}.
#[local] Abbreviation wi_evil_join :=
  (share_join ["dave"] wi_dave (Ok []) (wi_text wi_evil_ticket) "/home/dave/share" ∅ (world_of root_fs)).

Theorem ticket_id_escapes_data_dir :
  is_Some (file_at (w_fs wi_evil_join.2.2) ["etc"; "evil"; "share.json"]) /\
  data_at (w_fs wi_evil_join.2.2) ["etc"; "evil"; "keys.bin"] = Some (ring_bytes w_ring).
Proof. split; vm_compute; [by eexists|reflexivity]. Qed.
End witnesses.
