(* ===== verification/Reach.v ===== *)
(** * What a share task may write

    Every turn of a share's task, whatever its role, the event and the
    failures, changes no file but those in the share's own directory below
    [shares/], those below the directory the user shares, and one temporary
    file next to it.  (The directories that users share may be nested: a file
    below the root of a share may be below that of another one.) *)

From S2P Require Import Prelude World Tree Clock External Instances Share Crypto Auth.
From S2P Require Import Rotation Ticket Shadow Sync Frame Network Daemon Loops Ipc.

(** ** Files of a share *)

Definition own (dd : path) (sid : string) (q : path) : Prop := share_dir dd sid `prefix_of` q.

(** A file of the share: in its own directory, in the shared one, or the
    temporary file that [decrypt_file] writes beside the latter. *)
Definition task_file (config : ShareConfig) (dd : path) (q : path) : Prop :=
  own dd (sc_id config) q \/ sc_root_path config `prefix_of` q \/ q = beside (sc_root_path config).

Lemma own_app dd sid l : own dd sid (share_dir dd sid ++ l).
Proof. apply prefix_app_r. done. Qed.

#[export] Hint Resolve own_app : peerdup.

(** ** The operations on files of one share *)

Section files.
Context `{MD : Metadata, ReadDir, Entropy, WallClock, Blake3, Aead, Ed25519, !CryptoBox}.
Context `{!Bincode rotation_tuple, !BincodeTotal rotation_tuple, !Bincode SignedRotation}.
Context `{!Bincode canonical_tuple, !BincodeTotal canonical_tuple, !GroupCrdt}.
Context `{!Bincode (list SignedOp), !Json ShareConfig} (dd : path) (sid : string).

Lemma touches_none S {A : Type} (m : M A) : touches (fun _ => False) m -> touches S m.
Proof. by apply touches_mono. Qed.

Lemma save_keyring_own r : touches (own dd sid) (save_keyring dd sid r).
Proof.
  eapply touches_mono; [|apply save_keyring_touches]. unfold kfile, ktmp. intros q [->| ->]; apply own_app.
Qed.

Lemma auth_save_own st : touches (own dd sid) (auth_save dd sid st).
Proof.
  eapply touches_mono; [|apply auth_save_touches]. unfold auth_file, auth_tmp.
  intros q [->| ->]; apply own_app.
Qed.

Lemma load_keyring_own : touches (own dd sid) (load_or_create_keyring dd sid).
Proof.
  unfold load_or_create_keyring. cbv zeta. apply touches_bind; [auto with peerdup|]. intros [|].
  - apply touches_bind; [auto with peerdup|]. intros raw. case_decide; auto with peerdup.
  - apply touches_bind; [auto with peerdup|]. intros k. cbv zeta.
    apply touches_bind; [apply save_keyring_own|]. auto with peerdup.
Qed.

Lemma rotate_keyring_own : touches (own dd sid) (rotate_keyring dd sid).
Proof.
  unfold rotate_keyring. apply touches_bind; [apply load_keyring_own|]. intros r.
  apply touches_bind; [auto with peerdup|]. intros k. cbv zeta.
  apply touches_bind; [apply save_keyring_own|]. auto with peerdup.
Qed.

Lemma install_keyring_own ks : touches (own dd sid) (install_keyring dd sid ks).
Proof.
  unfold install_keyring. apply touches_bind; [auto with peerdup|]. intros [|]; [auto with peerdup|].
  case_decide; [auto with peerdup|]. apply save_keyring_own.
Qed.

Lemma install_epoch_own e k : touches (own dd sid) (install_epoch_key dd sid e k).
Proof.
  unfold install_epoch_key. apply touches_bind; [apply load_keyring_own|]. intros r. cbv zeta.
  destruct (e =? _).
  - apply touches_bind; [auto with peerdup|]. intros k'. case_decide; auto with peerdup.
  - destruct (e <? _); [auto with peerdup|]. destruct (_ <? e); [auto with peerdup|].
    apply touches_bind; [apply save_keyring_own|]. auto with peerdup.
Qed.

Lemma save_pending_own rot : touches (own dd sid) (save_pending dd sid rot).
Proof.
  unfold save_pending. cbv zeta. rewrite pending_dir_eq.
  rewrite join_plain by apply pending_name_plain. rewrite pending_tmp_eq.
  assert (forall e, own dd sid (pfile dd sid e) /\ own dd sid (ptmp dd sid e)) as Ho.
  { intros e. unfold pfile, ptmp, pdir. rewrite <- !app_assoc. split; apply own_app. }
  change (pdir dd sid ++ [pending_name (epoch rot)]) with (pfile dd sid (epoch rot)).
  destruct (Ho (epoch rot)) as [Hp Ht].
  apply touches_bind; [auto with peerdup|]. intros _. apply touches_bind; [auto with peerdup|]. intros raw.
  apply touches_bind; [apply touches_ctx; eapply touches_mono; [|apply touches_write]; intros q ->; done|].
  intros _. apply touches_bind.
  - apply touches_ctx. eapply touches_mono; [|apply touches_rename]. intros q [->| ->]; done.
  - intros _. apply touches_ctx. eapply touches_mono; [|apply touches_set_mode]. by intros q ->.
Qed.

Lemma build_inert sk ep k rs S : touches S (build_signed_rotation sk ep k rs).
Proof.
  unfold build_signed_rotation. cbv zeta. apply touches_bind; [|auto with peerdup].
  induction (dedup_by id (sort_by id rs)) as [|r l IH]; cbn [seal_all]; [auto with peerdup|].
  apply touches_bind; [unfold seal_for; auto 10 with peerdup|]. intros env.
  apply touches_bind; [exact IH|]. auto with peerdup.
Qed.

Lemma config_save_own c : sc_id c = sid -> touches (own dd sid) (config_save c dd).
Proof.
  intros <-. unfold config_save. cbv zeta. fold (share_dir dd (sc_id c)).
  apply touches_bind; [auto with peerdup|]. intros _. apply touches_bind; [auto with peerdup|]. intros j.
  apply touches_ctx. eapply touches_mono; [|apply touches_write]. intros q ->.
  rewrite join_plain by plain_const. apply own_app.
Qed.

Lemma auth_load_inert S : touches S (auth_load dd sid).
Proof.
  unfold auth_load. apply touches_bind; [auto with peerdup|]. intros ex.
  destruct (negb ex); [auto with peerdup|]. apply touches_bind; [auto with peerdup|]. intros raw.
  apply touches_bind; [auto with peerdup|]. intros l. destruct (replay l auth_empty) as [r st].
  apply touches_bind; [auto with peerdup|]. intros _. case_decide; auto with peerdup.
Qed.
End files.

Section spawn.
Context `{MD : Metadata, ReadDir, Entropy, WallClock, Blake3, Aead, Ed25519, !CryptoBox, Base64}.
Context `{!Bincode rotation_tuple, !BincodeTotal rotation_tuple, !Bincode SignedRotation}.
Context `{!Bincode canonical_tuple, !BincodeTotal canonical_tuple, !GroupCrdt}.
Context `{!Bincode SignedOp, !Bincode (list SignedOp), !Bincode Ticket, !Json ShareMsg}.

Lemma spawn_own dd config : touches (own dd (sc_id config)) (spawn_share_task dd config).
Proof.
  unfold spawn_share_task. apply touches_bind; [apply touches_ctx, load_keyring_own|]. intros k.
  apply touches_bind; [apply touches_ctx, auth_load_inert|]. intros st.
  apply touches_bind; [apply touches_attempt, touches_none, load_pending_touches|]. auto with peerdup.
Qed.
End spawn.

(** ** Computations of a task *)

Section writes.
Context `{MD : Metadata, Blake3} `{!Bincode canonical_tuple, !BincodeTotal canonical_tuple, !GroupCrdt}.

Definition writes (S : path -> Prop) {A : Type} (m : SM A) : Prop :=
  forall t w q, ~ S q -> file_at (w_fs (snd (m t w)).2) q = file_at (w_fs w) q.

Context (S : path -> Prop).

Lemma writes_mono (T : path -> Prop) {A : Type} (m : SM A) :
  (forall q, T q -> S q) -> writes T m -> writes S m.
Proof. intros HST Hm t w q Hq. apply Hm. by intros ?%HST. Qed.

Lemma writes_sbind {A B : Type} (m : SM A) (k : A -> SM B) :
  writes S m -> (forall a, writes S (k a)) -> writes S (sbind m k).
Proof.
  intros Hm Hk t w q Hq. specialize (Hm t w q Hq). unfold sbind.
  destruct (m t w) as [[a|e|] [t' w']]; simpl in *; [|done..]. rewrite <- Hm. by apply Hk.
Qed.

(** The continuation may know where its argument comes from. *)
Lemma writes_sbind_Ok {A B : Type} (m : SM A) (k : A -> SM B) :
  writes S m -> (forall t w a tw, m t w = (Ok a, tw) -> writes S (k a)) -> writes S (sbind m k).
Proof.
  intros Hm Hk t w q Hq. specialize (Hm t w q Hq). unfold sbind.
  destruct (m t w) as [[a|e|] [t' w']] eqn:E; simpl in *; [|done..]. rewrite <- Hm.
  by apply (Hk t w a (t', w')).
Qed.

Lemma writes_pure {A : Type} (m : SM A) : (forall t w, (snd (m t w)).2 = w) -> writes S m.
Proof. intros Hm t w q _. by rewrite Hm. Qed.

Lemma writes_sret {A : Type} (a : A) : writes S (sret a).
Proof. by apply writes_pure. Qed.
Lemma writes_sfail {A : Type} e : writes S (sfail (A := A) e).
Proof. by apply writes_pure. Qed.
Lemma writes_slift {A : Type} (r : outcome A) : writes S (slift r).
Proof. by apply writes_pure. Qed.
Lemma writes_sget : writes S sget.
Proof. by apply writes_pure. Qed.
Lemma writes_smod f : writes S (smod f).
Proof. by apply writes_pure. Qed.
Lemma writes_sauth {A : Type} (f : AuthState -> outcome A * AuthState) : writes S (sauth f).
Proof. apply writes_pure. intros t w. unfold sauth. by destruct (f _). Qed.

Lemma writes_sio {A : Type} (m : M A) : touches S m -> writes S (sio m).
Proof. intros Hm t w q Hq. specialize (Hm w q Hq). unfold sio. by destruct (m w). Qed.

Lemma writes_sattempt {A : Type} (m : SM A) : writes S m -> writes S (sattempt m).
Proof.
  intros Hm t w q Hq. specialize (Hm t w q Hq). unfold sattempt.
  by destruct (m t w) as [[a|e|] [t' w']].
Qed.

Lemma writes_logged {A : Type} (m : SM A) : writes S m -> writes S (logged m).
Proof. intros Hm. apply writes_sbind; [by apply writes_sattempt|]. intros _. apply writes_sret. Qed.
End writes.

#[export] Hint Resolve writes_sret writes_sfail writes_slift writes_sget writes_smod writes_sauth
  writes_sattempt : peerdup.

(** ** Turns of a task *)

Section turns.
Context `{MD : Metadata, ReadDir, Entropy, WallClock, Blake3, Aead, Ed25519, !CryptoBox, Base64}.
Context `{!Bincode rotation_tuple, !BincodeTotal rotation_tuple, !Bincode SignedRotation}.
Context `{!Bincode canonical_tuple, !BincodeTotal canonical_tuple, !GroupCrdt}.
Context `{!Bincode SignedOp, !Bincode (list SignedOp), !Bincode Ticket, !Json ShareMsg}.
Context `{!Json PersistedState, Torrents, SocketAddrs, Services}.

Section membership.
Context (dd : path) (sid : string) (g : MemberId) (identity : bytes).

Abbreviation keeps_out := (writes (own dd sid)).

Lemma try_install_own rot : keeps_out (try_install_rotation rot g identity dd sid).
Proof.
  unfold try_install_rotation. apply writes_sbind; [auto with peerdup|]. intros t.
  destruct (verify_and_decrypt _ _ _ _) as [k| | | |]; auto with peerdup.
  apply writes_sbind; [apply writes_sio, touches_ctx, install_epoch_own|].
  intros [| | |]; auto with peerdup.
  apply writes_sbind; [apply writes_sio, touches_ctx, load_keyring_own|]. intros r.
  apply writes_sbind; auto with peerdup.
Qed.

Lemma drain_loop_own fuel : keeps_out (drain_loop fuel g identity dd sid).
Proof.
  induction fuel as [|fuel IH]; cbn [drain_loop]; [auto with peerdup|].
  apply writes_sbind; [auto with peerdup|]. intros t.
  destruct (sort_by epoch (t_buffer t)) as [|c rest]; [auto with peerdup|].
  apply writes_sbind; [auto with peerdup|]. intros _.
  apply writes_sbind; [apply writes_sattempt, try_install_own|].
  intros [[| | |]|e|]; auto with peerdup.
Qed.

Lemma apply_rotation_own rot : keeps_out (apply_key_rotation rot g identity dd sid).
Proof.
  unfold apply_key_rotation. apply writes_sbind; [apply try_install_own|].
  intros [| | |]; auto with peerdup.
  unfold drain_rotation_buffer. apply writes_sbind; [auto with peerdup|]. intros t. apply drain_loop_own.
Qed.

Lemma apply_auth_ops_own payload : keeps_out (apply_auth_ops payload dd sid).
Proof.
  unfold apply_auth_ops. apply writes_sbind; [auto with peerdup|]. intros n.
  apply writes_sbind; [|auto with peerdup]. destruct (0 <? n)%nat; [|auto with peerdup].
  apply writes_sbind; [auto with peerdup|]. intros t. apply writes_sio, touches_ctx, auth_save_own.
Qed.
End membership.

Context (config : ShareConfig) (dd : path) (identity : bytes).

Abbreviation keeps_out := (writes (own dd (sc_id config))).

Lemma invite_own m ar sr : keeps_out (handle_invite config dd identity m ar sr).
Proof.
  unfold handle_invite. cbv zeta. apply writes_sbind; [auto with peerdup|]. intros t.
  destruct (auth_is_empty _); [auto with peerdup|]. destruct (is_member _ _ _); [auto with peerdup|].
  apply writes_sbind; [auto with peerdup|]. intros _. apply writes_sbind; [auto with peerdup|]. intros t1.
  apply writes_sbind; [apply writes_sio, auth_save_own|]. auto with peerdup.
Qed.

Lemma revoke_own m : keeps_out (handle_revoke config dd identity m).
Proof.
  unfold handle_revoke. cbv zeta. apply writes_sbind; [auto with peerdup|]. intros t.
  destruct (auth_is_empty _); [auto with peerdup|]. destruct (negb _); [auto with peerdup|].
  apply writes_sbind; [auto with peerdup|]. intros _. apply writes_sbind; [auto with peerdup|]. intros t1.
  apply writes_sbind; [apply writes_sio, auth_save_own|]. intros _.
  apply writes_sbind; [apply writes_sio, rotate_keyring_own|]. intros e.
  apply writes_sbind; [apply writes_sio, load_keyring_own|]. intros r.
  apply writes_sbind; [auto with peerdup|]. intros k.
  apply writes_sbind; [apply writes_sio, load_keyring_own|]. intros fresh.
  apply writes_sbind; [auto with peerdup|]. intros _.
  apply writes_sbind; [apply writes_sio, build_inert|]. intros rot.
  apply writes_sbind; [apply writes_sio, save_pending_own|]. intros _.
  apply writes_sbind; auto with peerdup.
Qed.

Lemma rotate_own : keeps_out (handle_rotate_key config dd).
Proof.
  unfold handle_rotate_key. apply writes_sbind; [apply writes_sio, rotate_keyring_own|]. intros e.
  apply writes_sbind; [apply writes_sio, load_keyring_own|]. intros fresh.
  apply writes_sbind; auto with peerdup.
Qed.

Lemma command_own cmd : keeps_out (handle_share_command cmd config dd identity).
Proof.
  destruct cmd as [m ar sr|m| | |]; simpl.
  - apply writes_sbind; [apply writes_sattempt, invite_own|]. auto with peerdup.
  - apply writes_sbind; [apply writes_sattempt, revoke_own|]. auto with peerdup.
  - apply writes_sbind; [apply writes_sattempt, rotate_own|]. auto with peerdup.
  - apply writes_sbind; auto with peerdup.
  - auto with peerdup.
Qed.

Section loops.
Context `{!TorrentFolders} (port : Z).

Abbreviation root := (sc_root_path config).
Abbreviation within := (writes (task_file config dd)).

Lemma own_within {A : Type} (m : SM A) : keeps_out m -> within m.
Proof. apply writes_mono. by left. Qed.

Lemma engine_within {A : Type} (m : M A) : touches (engine_file root dd (sc_id config)) m -> within (sio m).
Proof.
  intros Hm. apply writes_sio. eapply touches_mono; [|exact Hm]. unfold engine_file, task_file, sfile, stmp.
  intros q [?|[?|[->| ->]]]; [tauto|tauto|left; apply own_app..].
Qed.

Lemma inert_within {A : Type} (m : M A) : (forall w, w_fs (snd (m w)) = w_fs w) -> within (sio m).
Proof. intros Hm. by apply writes_sio, touches_inert. Qed.

Lemma on_command_within cmd : within (on_command config dd identity cmd).
Proof.
  unfold on_command. apply writes_sbind; [apply own_within, command_own|]. auto with peerdup.
Qed.

Lemma on_auth_ops_within l : within (on_auth_ops config dd l).
Proof. apply writes_logged, own_within, apply_auth_ops_own. Qed.

Lemma on_rotation_within rot : within (on_rotation config dd identity rot).
Proof. apply writes_logged, own_within, apply_rotation_own. Qed.

Lemma on_engine_within (m : KeyRing -> M (option ShareState * list Announce)) :
  (forall k, touches (engine_file root dd (sc_id config)) (m k)) -> within (on_engine m).
Proof.
  intros Hm. unfold on_engine. apply writes_sbind; [auto with peerdup|]. intros t.
  apply writes_sbind; [apply engine_within, Hm|]. auto with peerdup.
Qed.

Lemma seed_turn_within ann st ev : within (seed_turn config dd identity ann st ev).
Proof.
  destruct ev as [|cmd|b| | |]; cbn [seed_turn]; auto with peerdup.
  - apply writes_sbind; [|auto with peerdup]. unfold membership_turn. apply writes_sbind; auto with peerdup.
  - apply writes_sbind; [apply on_command_within|]. auto with peerdup.
  - destruct (json_from_slice b) as [[a|l|rot]|]; auto with peerdup.
    + apply writes_sbind; [apply on_auth_ops_within|]. auto with peerdup.
    + apply writes_sbind; [apply on_rotation_within|]. auto with peerdup.
Qed.

Lemma leech_turn_within c ev : within (leech_turn config dd identity root c ev).
Proof.
  destruct ev as [[|cmd|b| | |] closed]; cbn [leech_turn]; auto with peerdup.
  - apply writes_sbind; [apply on_command_within|]. auto with peerdup.
  - destruct (json_from_slice b) as [[a|l|rot]|]; auto with peerdup.
    + destruct c; [auto with peerdup|]. apply writes_sbind; [|intros [u|e|]; auto with peerdup].
      by apply writes_sattempt, engine_within, leech_apply_frame.
    + apply writes_sbind; [apply on_auth_ops_within|]. auto with peerdup.
    + apply writes_sbind; [apply on_rotation_within|]. auto with peerdup.
Qed.

Lemma sync_turn_within st ev : within (sync_turn config dd identity port root st ev).
Proof.
  destruct ev as [|cmd|b| | |]; cbn [sync_turn]; auto with peerdup.
  - apply writes_sbind; [|auto with peerdup]. unfold membership_turn. apply writes_sbind; auto with peerdup.
  - apply writes_sbind; [apply on_command_within|]. auto with peerdup.
  - destruct (json_from_slice b) as [[a|l|rot]|]; auto with peerdup.
    + apply on_engine_within. intros k. by apply on_announce_frame.
    + apply writes_sbind; [apply on_auth_ops_within|]. auto with peerdup.
    + apply writes_sbind; [apply on_rotation_within|]. auto with peerdup.
  - apply on_engine_within. intros k. by apply local_change_frame.
Qed.

Lemma start_within {A : Type} (k : path -> SM A) :
  within (k root) ->
  within (sio (ctx "create_dir_all" (fs_create_dir_all root)) ;*
          let* p := sio (ctx "canonicalize" (fs_canonicalize root)) in
          sio (gossip_stream (share_topic config)) ;* k p).
Proof.
  intros Hk. apply writes_sbind; [apply writes_sio; auto with peerdup|]. intros _.
  apply writes_sbind_Ok; [apply writes_sio; auto with peerdup|].
  intros t w p tw Hp. unfold sio in Hp. destruct (ctx _ _ w) as [o w1] eqn:E. simplify_eq.
  apply ctx_Ok in E. apply canonicalize_Ok in E as ->.
  apply writes_sbind; [|done]. apply inert_within, gossip_stream_inert.
Qed.

Lemma seed_start_within : within (seed_start config port).
Proof.
  unfold seed_start. apply writes_sbind; [apply writes_sio; auto with peerdup|]. intros p.
  apply writes_sbind; [apply writes_sio, touches_ctx, touches_inert, create_torrent_inert|]. intros res.
  apply writes_sbind; [apply inert_within, add_bytes_inert|]. intros resp.
  apply writes_sbind; [auto with peerdup|]. intros h. apply writes_sbind; [auto with peerdup|]. intros ann.
  apply writes_sbind; [apply inert_within, gossip_stream_inert|]. auto with peerdup.
Qed.

Lemma leech_start_within : within (leech_start config).
Proof. apply start_within. apply writes_sbind; auto with peerdup. Qed.

Lemma sync_start_within : within (sync_start config dd identity port).
Proof.
  apply start_within. apply writes_sbind; [auto with peerdup|]. intros t.
  apply writes_sbind; [by apply engine_within, reconcile_frame|]. intros v.
  apply writes_sbind; [apply writes_sio, touches_ctx, touches_inert, watch_inert|]. auto with peerdup.
Qed.
End loops.
End turns.
