(* ===== verification/Cli.v ===== *)
(** * The command line ([src/main.rs], [src/lock.rs])

    Every client command has two forms: through the daemon ([client.rs] hands
    the arguments to the methods of [Ipc]), or, when [--data-dir] is given,
    directly on the files.  A command returns the values it prints; a listing
    also whether it is a table or the line that says there is nothing. *)

From S2P Require Import Prelude World Tree Clock External Instances Share Crypto Auth.
From S2P Require Import Rotation Ticket Shadow Sync Frame Network Daemon Loops Ipc.

(** ** [truncate] *)

(** U+2026 *)
Definition ellipsis : bytes := [Byte.xe2; Byte.x80; Byte.xa6].

(** A slice that does not end on a character boundary panics. *)
Definition truncate (s : string) (max : nat) : outcome string :=
  let b := string_bytes s in
  if (length b <=? max)%nat then Ok s else
  let k := (max - 1)%nat in
  if is_char_boundary b k then Ok (bytes_string (take k b ++ ellipsis)) else Panic.

(** [format!("{:?}", role)] *)
Definition role_debug (r : ShareRole) : string :=
  match r with Seed => "Seed" | Leech => "Leech" | Sync => "Sync" end.

(** The strings of [cmd_share_invite]. *)
Definition auth_role_str (r : AuthRole) : string :=
  match r with Owner => "owner" | Writer => "writer" | Reader => "reader" end.

(** ** The lock of the daemon ([lock.rs]) *)

(** [fs2::FileExt::try_lock_exclusive]: whether the lock was got. *)
Class FileLock := {
  try_lock_exclusive : path -> M bool;
  try_lock_inert : forall p w, w_fs (snd (try_lock_exclusive p w)) = w_fs w;
}.

(** [OpenOptions] with [create], without [truncate]. *)
Definition op_open_create (p : path) : fsop unit := fun fs =>
  match fs !! p with
  | Some (NFile _) => (Ok tt, fs)
  | Some NDir => (Err (EIo IsADirectory), fs)
  | Some NOther => (Err (EIo OtherIo), fs)
  | None =>
      if is_dir fs (parent p)
      then (Ok tt, <[p := NFile (File [] default_mode)]> fs)
      else (Err (EIo NotFound), fs)
  end.
Definition fs_open_create (p : path) : M unit := io (op_open_create p) no_effect.

Definition acquire `{FileLock} (p : path) : M unit :=
  ctx "create_dir_all" (fs_create_dir_all (parent p)) ;;;
  ctx "opening" (fs_open_create p) ;;;
  let! got := try_lock_exclusive p in
  if (got : bool) then ret tt else fail (EMsg "another peerdup daemon is already running").

(** What a listing command prints: one line saying that there is nothing,
    with the data directory if it names it ("No shares configured at ..."), or
    a header and the rows. *)
Inductive Listing (A : Type) :=
  | Nothing (place : option path)
  | Table (rows : list A).
Arguments Nothing {A} place.
Arguments Table {A} rows.

Section cli.
Context `{MD : Metadata, ReadDir, Entropy, WallClock, Blake3, Ed25519, !CryptoBox, Base64, FileLock}.
Context `{!Bincode rotation_tuple, !BincodeTotal rotation_tuple, !Bincode SignedRotation}.
Context `{!Bincode canonical_tuple, !BincodeTotal canonical_tuple, !GroupCrdt}.
Context `{!Bincode SignedOp, !Bincode (list SignedOp), !Bincode Ticket, !Json ShareMsg, !Json ShareConfig}.
Context `{!Json PersistedState}.
Context (data_dir : path) (current_dir : outcome path).

(** The start of [cmd_serve]: the lock, the identity, and the shares of which
    the tasks are spawned by [serve]. *)
Definition cmd_serve_start : M (bytes * list ShareConfig) :=
  fs_create_dir_all data_dir ;;;
  acquire (lock_path data_dir) ;;;
  let! identity := load_or_create (identity_path data_dir) in
  let! configs := load_all data_dir in
  ret (identity, configs).

Definition absolute (p : string) : M path :=
  if is_absolute p then ret (components p) else
  let! cwd := lift current_dir in
  ret (join cwd p).

(** Returns the id of the share and the owner's key. *)
Definition cmd_share_add_direct (topic p : string) (role : ShareRole) : M (string * string) :=
  let! p := absolute p in
  let! ex := fs_exists p in
  if bool_decide (role = Seed) && negb ex then fail (EMsg "seed path does not exist") else
  let! config := config_new topic p role in
  config_save config data_dir ;;;
  let! identity := load_or_create (identity_path data_dir) in
  let group_id := group_id_for (sc_id config) in
  let '(r, auth_state) := create_group identity group_id auth_empty in
  let! _op := lift r in
  auth_save data_dir (sc_id config) auth_state ;;;
  ret (sc_id config, to_hex (public_key identity)).

Fixpoint list_rows (configs : list ShareConfig) : outcome (list (string * string * string * string)) :=
  match configs with
  | [] => Ok []
  | c :: configs =>
      try! topic := truncate (sc_topic c) 20 in
      try! rows := list_rows configs in
      Ok ((sc_id c, to_lowercase (role_debug (sc_role c)), topic, path_display (sc_root_path c)) :: rows)
  end.

Definition cmd_share_list_direct : M (Listing (string * string * string * string)) :=
  let! configs := load_all data_dir in
  if decide (configs = []) then ret (Nothing (Some data_dir)) else
  let! rows := lift (list_rows configs) in
  ret (Table rows).

(** The check that starts most commands. *)
Definition find_share (id : string) (configs : list ShareConfig) : option ShareConfig :=
  List.find (fun c => bool_decide (sc_id c = id)) configs.

Definition cmd_share_rotate_key_direct (id : string) : M Z :=
  let! configs := load_all data_dir in
  if negb (configured id configs) then fail (EMsg "share not found") else
  rotate_keyring data_dir id.

(** The own key, if the identity can be read or made. *)
Definition own_key : M (option MemberId) :=
  let! r := attempt (load_or_create (identity_path data_dir)) in
  ret (match r with Ok k => Some (public_key k) | _ => None end).

(** Every line comes with whether it is marked [(self)]. *)
Definition cmd_share_peers_direct (id : string) : M (Listing (string * Z * bool)) :=
  let! configs := load_all data_dir in
  if negb (configured id configs) then fail (EMsg "share not found") else
  let! me := own_key in
  let! state := state_load data_dir id in
  match state with
  | None => ret (Nothing None)
  | Some st =>
      ret (Table ((fun kv => (kv, bool_decide (to_hex <$> me = Some kv.1))) <$>
                    sort_peers (map_to_list (ps_clock st))))
  end.

Definition cmd_share_members_direct (id : string) : M (Listing (string * string * bool)) :=
  let! configs := load_all data_dir in
  if negb (configured id configs) then fail (EMsg "share not found") else
  let! auth_state := auth_load data_dir id in
  if auth_is_empty auth_state then ret (Nothing None) else
  let group_id := group_id_for id in
  let! me := own_key in
  ret (Table ((fun mr => (to_hex mr.1, role_display mr.2, bool_decide (Some mr.1 = me))) <$>
                sort_by fst (members auth_state group_id))).

Definition cmd_share_revoke_direct (id peer_pubkey_hex : string) : M Z :=
  let! configs := load_all data_dir in
  if negb (configured id configs) then fail (EMsg "share not found") else
  let! target := lift (rctx "parsing peer public key" (from_hex peer_pubkey_hex)) in
  let! identity := load_or_create (identity_path data_dir) in
  let group_id := group_id_for id in
  let! auth_state := auth_load data_dir id in
  if auth_is_empty auth_state then fail (EMsg "no auth state on disk") else
  if negb (is_member auth_state group_id target) then fail (EMsg "not a current member") else
  let '(r, auth_state) := remove_member identity group_id target auth_state in
  let! _op := lift r in
  auth_save data_dir id auth_state ;;;
  let remaining := sort_by Datatypes.id
    (base.filter (fun m => m <> target) ((members auth_state group_id).*1)) in
  let! new_epoch := rotate_keyring data_dir id in
  let! ring := load_or_create_keyring data_dir id in
  let! new_key := lift (ok_or (EMsg "rotated keyring missing epoch") (key_for_epoch ring new_epoch)) in
  let! rotation_msg := build_signed_rotation identity new_epoch new_key remaining in
  save_pending data_dir id rotation_msg ;;;
  ret new_epoch.

Definition cmd_whoami_direct : M string :=
  fs_create_dir_all data_dir ;;;
  let! identity := load_or_create (identity_path data_dir) in
  ret (to_hex (public_key identity)).

Definition cmd_share_invite_direct (id invitee_pubkey_hex : string) (role : ShareRole)
    (auth_role : AuthRole) : M string :=
  let! configs := load_all data_dir in
  let! cfg := lift (ok_or (EMsg "share not found") (find_share id configs)) in
  let! invitee := lift (rctx "parsing invitee public key" (from_hex invitee_pubkey_hex)) in
  let! identity := load_or_create (identity_path data_dir) in
  let group_id := group_id_for id in
  let! auth_state := auth_load data_dir id in
  if auth_is_empty auth_state then fail (EMsg "no auth state on disk") else
  if is_member auth_state group_id invitee then fail (EMsg "already a member") else
  let '(r, auth_state) := add_member identity group_id invitee auth_role auth_state in
  let! _op := lift r in
  auth_save data_dir id auth_state ;;;
  let! ring := load_or_create_keyring data_dir id in
  lift (encode {| version := TICKET_VERSION; share_id := sc_id cfg; topic := sc_topic cfg;
                  tkeys := export_keys ring; auth_log := ops auth_state; invitee_pubkey := invitee;
                  Ticket.role := role |}).

Definition cmd_share_join_direct (ticket_str p : string) : M ShareConfig :=
  let! t := lift (decode ticket_str) in
  let! configs := load_all data_dir in
  if configured (share_id t) configs then fail (EMsg "share is already configured locally") else
  let! identity := load_or_create (identity_path data_dir) in
  let me := public_key identity in
  if decide (invitee_pubkey t <> me) then fail (EMsg "ticket was issued for a different public key") else
  let! p := absolute p in
  fs_create_dir_all p ;;;
  let! now := utc_now in
  let cfg := {| sc_id := share_id t; sc_topic := topic t; sc_root_path := p;
                sc_role := Ticket.role t; sc_created_at := now |} in
  config_save cfg data_dir ;;;
  install_keyring data_dir (share_id t) (tkeys t) ;;;
  let '(r, auth_state) := apply_log (auth_log t) auth_empty in
  lift r ;;;
  if negb (is_member auth_state (group_id_for (share_id t)) me)
  then fail (EMsg "ticket's auth log does not list us as a member") else
  auth_save data_dir (share_id t) auth_state ;;;
  ret cfg.

Definition cmd_share_remove_direct (id : string) : M unit :=
  let! configs := load_all data_dir in
  let root := root_of id configs in
  share_dir_remove data_dir id ;;;
  remove_shadow root.
End cli.

(** ** Lemmas *)

Section lemmas.
Context `{MD : Metadata, ReadDir, Entropy, WallClock, Blake3, Ed25519, !CryptoBox, Base64, FileLock}.
Context `{!Bincode rotation_tuple, !BincodeTotal rotation_tuple, !Bincode SignedRotation}.
Context `{!Bincode canonical_tuple, !BincodeTotal canonical_tuple, !GroupCrdt}.
Context `{!Bincode SignedOp, !Bincode (list SignedOp), !Bincode Ticket, !Json ShareMsg, !Json ShareConfig}.
Context `{!Json PersistedState}.

Lemma auth_save_quiet dd sid st : quiet (auth_save dd sid st).
Proof.
  unfold auth_save, fs_create_dir_all, fs_write, fs_rename, fs_set_mode. cbv zeta. eauto 20 with peerdup.
Qed.

Lemma save_keyring_quiet dd sid r : quiet (save_keyring dd sid r).
Proof.
  unfold save_keyring, fs_create_dir_all, fs_write, fs_rename, fs_set_mode. cbv zeta. eauto 20 with peerdup.
Qed.

Lemma load_keyring_quiet dd sid : quiet (load_or_create_keyring dd sid).
Proof.
  unfold load_or_create_keyring. cbv zeta. apply quiet_bind; [auto with peerdup|]. intros [|].
  - apply quiet_bind; [apply quiet_ctx, quiet_io|]. intros raw. case_decide; auto with peerdup.
  - apply quiet_bind; [auto with peerdup|]. intros k. cbv zeta.
    apply quiet_bind; [apply save_keyring_quiet|]. auto with peerdup.
Qed.

Lemma rotate_quiet dd sid : quiet (rotate_keyring dd sid).
Proof.
  unfold rotate_keyring. apply quiet_bind; [apply load_keyring_quiet|]. intros r.
  apply quiet_bind; [auto with peerdup|]. intros k. cbv zeta.
  apply quiet_bind; [apply save_keyring_quiet|]. auto with peerdup.
Qed.

Lemma load_ring_run dd sid w r :
  w_faults w = [] -> disk_ring dd sid (w_fs w) = Some r -> load_or_create_keyring dd sid w = (Ok r, w).
Proof.
  intros Hf [Hw Hd]%disk_ring_data. by rewrite (load_keyring_run dd sid w _ Hf Hd), parse_ring_bytes.
Qed.

(** What the direct commands read before they start, on a working disk. *)
Record loaded (dd : path) (id : string) (w : world) (cfg : ShareConfig) (id0 : bytes)
    (st : AuthState) (r : KeyRing) : Prop := {
  ld_faults : w_faults w = [];
  ld_configs : exists cs, load_all dd w = (Ok cs, w) /\ find_share id cs = Some cfg;
  ld_identity : load_or_create (identity_path dd) w = (Ok id0, w);
  ld_auth : auth_load dd id w = (Ok st, w);
  ld_ring : disk_ring dd id (w_fs w) = Some r;
}.

Lemma find_share_id id cs cfg : find_share id cs = Some cfg -> sc_id cfg = id.
Proof. intros Hf. apply find_some in Hf as [_ Hf]. by apply bool_decide_eq_true in Hf. Qed.

Lemma find_share_configured id cs cfg : find_share id cs = Some cfg -> configured id cs = true.
Proof.
  intros Hf. apply find_some in Hf as [Hin Hf]. apply existsb_exists. by exists cfg.
Qed.

(** After a successful save of the log the ring is read back. *)
Lemma ring_after_save dd id st w w' r :
  w_faults w = [] -> disk_ring dd id (w_fs w) = Some r -> auth_save dd id st w = (Ok tt, w') ->
  w_faults w' = [] /\ disk_ring dd id (w_fs w') = Some r.
Proof.
  intros Hf Hr Hs. split; [by apply (quiet_Ok _ _ _ _ (auth_save_quiet dd id st) Hs)|].
  by rewrite (auth_save_ring _ _ _ _ _ Hs).
Qed.

Lemma lift_ctx_run {A} c (r : outcome A) a w : r = Ok a -> lift (rctx c r) w = (Ok a, w).
Proof. by intros ->. Qed.

Lemma invite_direct_same dd id hex (m : MemberId) sr ar w cfg id0 t :
  loaded dd id w cfg id0 (t_auth t) (t_key t) -> from_hex hex = Ok m ->
  cmd_share_invite_direct dd id hex sr ar w =
    let '(o, (_, w')) := handle_invite cfg dd id0 m ar sr t w in (o, w').
Proof.
  destruct t as [r st p b]. cbn [t_auth t_key]. intros [Hf (cs & Hcs & Hcfg) Hid Hst Hr] Hm.
  pose proof (find_share_id _ _ _ Hcfg) as Hsid.
  unfold cmd_share_invite_direct. rewrite (bind_run _ _ _ _ _ Hcs).
  rewrite (bind_run (lift (ok_or _ _)) _ w cfg w) by by rewrite Hcfg.
  rewrite (bind_run _ _ _ _ _ (lift_ctx_run _ _ _ w Hm)).
  rewrite (bind_run _ _ _ _ _ Hid). cbv zeta. rewrite (bind_run _ _ _ _ _ Hst).
  unfold handle_invite. rewrite sget_run. cbn [t_auth]. rewrite Hsid.
  destruct (auth_is_empty st); [done|]. destruct (is_member st (group_id_for id) m); [done|].
  unfold sbind, sauth. cbn [t_auth]. destruct (add_member _ _ _ _ st) as [[op|e|] st1]; [|done..].
  unfold sget, sio. cbn [t_auth set_auth t_key]. unfold bind at 1, lift at 1. unfold bind at 1.
  destruct (auth_save dd id st1 w) as [[[]|e|] w1] eqn:Es; [|done..].
  destruct (ring_after_save _ _ _ _ _ _ Hf Hr Es) as [Hf1 Hr1].
  rewrite (bind_run _ _ _ _ _ (load_ring_run _ _ _ _ Hf1 Hr1)). done.
Qed.

Lemma revoke_direct_same dd id hex (m : MemberId) w cfg id0 t :
  loaded dd id w cfg id0 (t_auth t) (t_key t) -> from_hex hex = Ok m ->
  cmd_share_revoke_direct dd id hex w =
    let '(o, (_, w')) := handle_revoke cfg dd id0 m t w in (o, w').
Proof.
  destruct t as [r st p b]. cbn [t_auth t_key]. intros [Hf (cs & Hcs & Hcfg) Hid Hst Hr] Hm.
  pose proof (find_share_id _ _ _ Hcfg) as Hsid.
  unfold cmd_share_revoke_direct. rewrite (bind_run _ _ _ _ _ Hcs).
  rewrite (find_share_configured _ _ _ Hcfg). cbn [negb].
  rewrite (bind_run _ _ _ _ _ (lift_ctx_run _ _ _ w Hm)).
  rewrite (bind_run _ _ _ _ _ Hid). cbv zeta. rewrite (bind_run _ _ _ _ _ Hst).
  unfold handle_revoke. rewrite sget_run. cbn [t_auth]. rewrite Hsid.
  destruct (auth_is_empty st); [done|]. destruct (negb _); [done|].
  unfold sbind at 1, sauth. cbn [t_auth]. destruct (remove_member _ _ _ st) as [[op|e|] st1]; [|done..].
  rewrite sget_run. cbn [t_auth set_auth]. unfold bind at 1, lift at 1.
  unfold bind at 1, sbind at 1, sio at 1.
  destruct (auth_save dd id st1 w) as [[[]|e|] w1] eqn:Es; [|done..].
  destruct (ring_after_save _ _ _ _ _ _ Hf Hr Es) as [Hf1 Hr1]. cbv zeta.
  unfold bind at 1, sbind at 1, sio at 1.
  destruct (rotate_keyring dd id w1) as [[ne|e|] w2] eqn:Er; [|done..].
  pose proof (quiet_Ok _ _ _ _ (rotate_quiet dd id) Er Hf1) as Hf2.
  pose proof (rotate_keyring_Ok _ _ _ _ _ Er) as (r0 & k & _ & _ & Hd & _).
  pose proof (load_ring_run _ _ _ _ Hf2 Hd) as Hl.
  rewrite (bind_run _ _ _ _ _ Hl), (sio_run _ _ _ _ _ _ Hl).
  unfold bind at 1, lift at 1, sbind at 1, slift at 1.
  destruct (ok_or _ (key_for_epoch _ ne)) as [nk|e|]; [|done..].
  rewrite (sio_run _ _ _ _ _ _ Hl), smod_run. unfold bind at 1, sbind at 1, sio at 1.
  destruct (build_signed_rotation _ _ _ _ w2) as [[rot|e|] w3]; [|done..].
  unfold bind at 1, sbind at 1, sio at 1.
  destruct (save_pending dd id rot w3) as [[[]|e|] w4]; done.
Qed.
End lemmas.

(** ** Properties *)

Section properties.
Context `{MD : Metadata, ReadDir, Entropy, WallClock, Blake3, Ed25519, !CryptoBox, Base64, FileLock}.
Context `{!Bincode rotation_tuple, !BincodeTotal rotation_tuple, !Bincode SignedRotation}.
Context `{!Bincode canonical_tuple, !BincodeTotal canonical_tuple, !GroupCrdt}.
Context `{!Bincode SignedOp, !Bincode (list SignedOp), !Bincode Ticket, !Json ShareMsg, !Json ShareConfig}.
Context `{!Json PersistedState}.

(** C40. [share invite] on the files does what the task of a running share does:
    on a disk without failures, where the task's keyring and log are the ones
    on disk, both give the same answer - ticket or error - and leave the same
    world. *)
Theorem invite_direct_equiv (dd : path) (id hex : string) (m : MemberId) (sr : ShareRole)
    (ar : AuthRole) (w : world) (cfg : ShareConfig) (id0 : bytes) (t : ShareTask) :
  loaded dd id w cfg id0 (t_auth t) (t_key t) -> from_hex hex = Ok m ->
  cmd_share_invite_direct dd id hex sr ar w =
    let '(o, (_, w')) := handle_invite cfg dd id0 m ar sr t w in (o, w').
Proof. apply invite_direct_same. Qed.

(** C22. [share revoke] on the files does what the task of a running share does:
    the same answer - epoch or error - and the same world. *)
Theorem revoke_direct_equiv (dd : path) (id hex : string) (m : MemberId) (w : world)
    (cfg : ShareConfig) (id0 : bytes) (t : ShareTask) :
  loaded dd id w cfg id0 (t_auth t) (t_key t) -> from_hex hex = Ok m ->
  cmd_share_revoke_direct dd id hex w =
    let '(o, (_, w')) := handle_revoke cfg dd id0 m t w in (o, w').
Proof. apply revoke_direct_same. Qed.

(** The roles survive every trip between the command line, the daemon and the
    listing. *)
Theorem roles_round_trip (r : ShareRole) (a : AuthRole) :
  share_role_from_str (role_to_str r) = Ok r /\ parse_auth_role (auth_role_str a) = Ok a /\
  share_role_from_str (role_debug r) = Ok r /\ to_lowercase (role_debug r) = role_to_str r.
Proof. destruct r, a; vm_compute; repeat split. Qed.

Lemma acquire_refused dd v x v' :
  (forall u, fst (try_lock_exclusive (lock_path dd) u) <> Ok true) ->
  acquire (lock_path dd) v <> (Ok x, v').
Proof.
  intros Hl Ha. unfold acquire in Ha.
  apply bind_Ok in Ha as (? & v1 & _ & Ha). apply bind_Ok in Ha as (? & v2 & _ & Ha).
  apply bind_Ok in Ha as (got & v3 & Hg & Ha). destruct got; [|discriminate Ha].
  apply (Hl v2). by rewrite Hg.
Qed.

Lemma open_create_touches p : touches (fun q => q = p) (fs_open_create p).
Proof.
  apply io_touches; [|done]. intros fs q Hq. unfold op_open_create, file_at.
  destruct (fs !! p) as [[]|]; try done. destruct (is_dir _ _); [|done].
  cbn [snd]. by rewrite lookup_insert_ne.
Qed.

Lemma acquire_touches p : touches (fun q => q = p) (acquire p).
Proof.
  unfold acquire. apply touches_bind; [apply touches_ctx, touches_create_dir_all|]. intros _.
  apply touches_bind; [apply touches_ctx, open_create_touches|]. intros _.
  apply touches_bind; [apply touches_inert, try_lock_inert|]. intros [|]; [apply touches_ret|apply touches_fail].
Qed.

(** A second daemon on the same data directory does not start, and changes no
    file but the lock. *)
Theorem serve_locked_out (dd : path) (w : world) :
  (forall u, fst (try_lock_exclusive (lock_path dd) u) <> Ok true) ->
  (forall x, fst (cmd_serve_start dd w) <> Ok x) /\
  forall q, q <> lock_path dd -> file_at (w_fs (snd (cmd_serve_start dd w))) q = file_at (w_fs w) q.
Proof.
  intros Hl. split.
  - intros x Hx. apply run_Ok in Hx. unfold cmd_serve_start in Hx.
    apply bind_Ok in Hx as (? & w1 & _ & Hx). apply bind_Ok in Hx as (? & w2 & Ha & _).
    by apply (acquire_refused _ _ _ _ Hl) in Ha.
  - intros q Hq. unfold cmd_serve_start. unfold bind at 1.
    pose proof (touches_create_dir_all (fun q => q = lock_path dd) dd w q Hq) as Hc.
    destruct (fs_create_dir_all dd w) as [[[]|e|] w1]; try done.
    pose proof (acquire_touches (lock_path dd) w1 q Hq) as Ha. unfold bind at 1.
    destruct (acquire (lock_path dd) w1) as [[[]|e|] w2] eqn:E; [|cbn [snd] in *; congruence..].
    by apply (acquire_refused _ _ _ _ Hl) in E.
Qed.

(** [truncate] keeps a text that fits, else cuts it to [max - 1] bytes and an
    ellipsis; it panics exactly when the cut falls inside a character, which
    never happens in ASCII. *)
Theorem truncate_bounds (s : string) (max : nat) :
  match truncate s max with
  | Ok r => (length (string_bytes s) <= max)%nat /\ r = s \/
            (max < length (string_bytes s))%nat /\
            exists pre, pre `prefix_of` string_bytes s /\ length pre = (max - 1)%nat /\
                        string_bytes r = pre ++ ellipsis
  | Panic => (max < length (string_bytes s))%nat /\ ~ (forall c, c ∈ string_bytes s -> Z_of_byte c < 128)
  | Err _ => False
  end.
Proof.
  unfold truncate. destruct (Nat.leb_spec (length (string_bytes s)) max) as [Hl|Hl]; [by left|].
  destruct (is_char_boundary _ _) eqn:Hb.
  - right. split; [done|]. exists (take (max - 1) (string_bytes s)).
    split; [apply prefix_take|]. split; [rewrite length_take; lia|]. apply string_bytes_string.
  - split; [done|]. intros Ha. rewrite ascii_boundary in Hb; [done|done|lia].
Qed.
End properties.

(** ** Witnesses *)

Section witnesses.
#[local] Existing Instance toy_metadata.
#[local] Existing Instance toy_entropy.
#[local] Existing Instance toy_blake3.
#[local] Existing Instance toy_ed25519.
#[local] Existing Instance toy_box.
#[local] Existing Instance toy_base64.
#[local] Existing Instance toy_read_dir.
#[local] Existing Instance toy_clock.
#[local] Existing Instance toy_state.
#[local] Existing Instance toy_rotation_tuple.
#[local] Existing Instance toy_rotation_total.
#[local] Existing Instance toy_rotation.
#[local] Existing Instance toy_canonical.
#[local] Existing Instance toy_canonical_total.
#[local] Existing Instance toy_group.
#[local] Existing Instance toy_op.
#[local] Existing Instance toy_ops.
#[local] Existing Instance toy_ticket.
#[local] Existing Instance toy_msg.
#[local] Existing Instance toy_config.

(** A lock that another process holds. *)
#[local] Instance held_lock : FileLock :=
  {| try_lock_exclusive _ := ret false; try_lock_inert _ _ := eq_refl |}.

Definition wc_world : world :=
  snd (fs_write (identity_path wd_dd) wa_alice
    (snd (config_save wd_cfg wd_dd (snd (auth_save wd_dd "share" wa_final wd_world))))).

Definition wc_auth : AuthState := match fst (auth_load wd_dd "share" wc_world) with Ok s => s | _ => auth_empty end.
Definition wc_dave : MemberId := public_key wi_dave.

Lemma wc_identity : load_or_create (identity_path wd_dd) wc_world = (Ok wa_alice, wc_world).
Proof. vm_compute. reflexivity. Qed.

Lemma wc_configs : load_all wd_dd wc_world = (Ok [wd_cfg], wc_world).
Proof. vm_compute. reflexivity. Qed.

#[local] Abbreviation wc_loads := (auth_load wd_dd "share" wc_world).

Lemma wc_loads_ok : match fst wc_loads with Ok _ => true | _ => false end = true.
Proof. vm_compute. reflexivity. Qed.

Lemma wc_loads_inert : snd wc_loads = wc_world.
Proof. vm_compute. reflexivity. Qed.

Lemma wc_load : wc_loads = (Ok wc_auth, wc_world).
Proof.
  pose proof wc_loads_ok as Hl. pose proof wc_loads_inert as Hw. unfold wc_auth.
  destruct wc_loads as [[st|e|] w]; cbn [fst snd] in *; [by subst|discriminate Hl..].
Qed.

Lemma wc_ring : disk_ring wd_dd "share" (w_fs wc_world) = Some w_ring.
Proof. vm_compute. reflexivity. Qed.

Definition wc_task : ShareTask :=
  {| t_key := w_ring; t_auth := wc_auth; t_pending := []; t_buffer := [] |}.

Lemma wc_loaded : loaded wd_dd "share" wc_world wd_cfg wa_alice (t_auth wc_task) (t_key wc_task).
Proof.
  unfold wc_task. cbn [t_auth t_key].
  split; [vm_compute; reflexivity|exists [wd_cfg]; split; [exact wc_configs|vm_compute; reflexivity]|..].
  - exact wc_identity.
  - exact wc_load.
  - exact wc_ring.
Qed.

Definition wc_dave_hex : string := Eval vm_compute in to_hex wc_dave.
Definition wc_bob_hex : string := Eval vm_compute in to_hex wd_bob.
Lemma wc_dave_parses : from_hex wc_dave_hex = Ok wc_dave.
Proof. vm_compute. reflexivity. Qed.
Lemma wc_bob_parses : from_hex wc_bob_hex = Ok wd_bob.
Proof. vm_compute. reflexivity. Qed.

#[local] Abbreviation wc_invite := (cmd_share_invite_direct wd_dd "share" wc_dave_hex Sync Writer wc_world).
#[local] Abbreviation wc_revoke := (cmd_share_revoke_direct wd_dd "share" wc_bob_hex wc_world).

Lemma wc_invite_ok : match fst wc_invite with Ok _ => true | _ => false end = true.
Proof. vm_compute. reflexivity. Qed.

Lemma wc_revoke_ok : fst wc_revoke = Ok 3.
Proof. vm_compute. reflexivity. Qed.

Lemma invite_direct_equiv_witness :
  exists ticket, fst wc_invite = Ok ticket /\
    fst (handle_invite wd_cfg wd_dd wa_alice wc_dave Writer Sync wc_task wc_world) = Ok ticket.
Proof.
  pose proof wc_invite_ok as Ho.
  pose proof (invite_direct_equiv wd_dd "share" wc_dave_hex wc_dave Sync Writer wc_world wd_cfg wa_alice
    wc_task wc_loaded wc_dave_parses) as He.
  destruct wc_invite as [o1 w1].
  destruct (handle_invite wd_cfg wd_dd wa_alice wc_dave Writer Sync wc_task wc_world) as [o [t' w']].
  apply (f_equal fst) in He. cbn [fst] in *. subst o1.
  destruct o as [ticket|e|]; [|discriminate Ho..]. exists ticket. split; reflexivity.
Defined.

Lemma revoke_direct_equiv_witness :
  fst (handle_revoke wd_cfg wd_dd wa_alice wd_bob wc_task wc_world) = Ok 3.
Proof.
  pose proof wc_revoke_ok as Ho.
  pose proof (revoke_direct_equiv wd_dd "share" wc_bob_hex wd_bob wc_world wd_cfg wa_alice
    wc_task wc_loaded wc_bob_parses) as He.
  destruct wc_revoke as [o1 w1].
  destruct (handle_revoke wd_cfg wd_dd wa_alice wd_bob wc_task wc_world) as [o [t' w']].
  apply (f_equal fst) in He. cbn [fst] in *. rewrite <- He. exact Ho.
Defined.

Lemma serve_locked_out_witness :
  file_at (w_fs (snd (cmd_serve_start wd_dd wc_world))) (kfile wd_dd "share") =
  file_at (w_fs wc_world) (kfile wd_dd "share").
Proof.
  apply (serve_locked_out wd_dd wc_world); [intros u; discriminate|].
  apply (bool_decide_eq_true (kfile wd_dd "share" <> lock_path wd_dd)). vm_compute. reflexivity.
Defined.

(** *** Two ways in which the command line goes wrong *)

(** A topic of nineteen letters and an accented one: its listing panics. *)
Definition wc_topic : string := "nineteen letters..é...".

Theorem truncate_panics_in_character :
  truncate wc_topic 20 = Panic /\
  list_rows [{| sc_id := "share"; sc_topic := wc_topic; sc_root_path := ["home"];
                sc_role := Sync; sc_created_at := 0 |}] = Panic.
Proof. split; vm_compute; reflexivity. Qed.

(** Bob is revoked on the files while the daemon runs.  The next invitation
    the daemon signs writes the log that it has in memory: the revocation is
    gone from the disk, and after a restart Bob is a member again. *)
Definition bob_is_member (w : world) : outcome bool :=
  match fst (auth_load wd_dd "share" w) with
  | Ok st => Ok (is_member st (group_id_for "share") wd_bob)
  | Err e => Err e
  | Panic => Panic
  end.

Theorem direct_revoke_lost :
  bob_is_member wc_world = Ok true /\
  bob_is_member (snd wc_revoke) = Ok false /\
  bob_is_member (snd (snd (handle_invite wd_cfg wd_dd wa_alice wc_dave Writer Sync wc_task (snd wc_revoke)))) = Ok true.
Proof. split; [|split]; vm_compute; reflexivity. Qed.
End witnesses.
