(* ===== verification/Client.v ===== *)
(** * The client commands ([src/main.rs] 196-334, [src/client.rs])

    Without [--data-dir] a command connects to the session bus and calls the
    method of the daemon's interface.  Client and daemon run on one machine:
    a command is a computation on the daemon's shares and the shared disk. *)

From S2P Require Import Prelude World Tree Clock External Instances Share Crypto Auth.
From S2P Require Import Rotation Ticket Shadow Sync Frame Network Daemon Loops Ipc Cli.

(** [zbus]: reaching the session bus and the daemon on it; no files. *)
Class Bus := {
  bus_connect : M unit;
  bus_connect_inert : forall w, w_fs (snd (bus_connect w)) = w_fs w;
}.

Section client.
Context `{MD : Metadata, ReadDir, Entropy, WallClock, Blake3, Ed25519, !CryptoBox, Base64, Chrono, Bus}.
Context `{!Bincode rotation_tuple, !BincodeTotal rotation_tuple, !Bincode SignedRotation}.
Context `{!Bincode canonical_tuple, !BincodeTotal canonical_tuple, !GroupCrdt}.
Context `{!Bincode SignedOp, !Bincode (list SignedOp), !Bincode Ticket, !Json ShareMsg, !Json ShareConfig}.
Context `{!Json PersistedState}.
Context (data_dir : path) (identity : bytes) (daemon_dir current_dir : outcome path).

(** ** [client.rs] *)

Definition connect : DM unit := dio bus_connect.

(** [Proxy::call] and [map_call_err]; a method that panics never answers. *)
Definition call {A : Type} (method : DM A) : DM A := fun m w =>
  match method m w with
  | (Err e, s) => (Err (ECtx "D-Bus call failed" e), s)
  | r => r
  end.

(** [.await.ok()] *)
Definition dattempt {A : Type} (f : DM A) : DM (option A) := fun m w =>
  match f m w with
  | (Ok a, s) => (Ok (Some a), s)
  | (Err _, s) => (Ok None, s)
  | (Panic, s) => (Panic, s)
  end.

Definition client_whoami : DM string := call (whoami identity).
Definition client_share_list : DM (list (string * string * string * string * string)) :=
  call (share_list data_dir).
Definition client_share_add (topic : string) (p : path) (role : string) : DM string :=
  call (share_add data_dir identity topic p role).
Definition client_share_join (ticket : string) (p : path) : DM string :=
  call (share_join data_dir identity daemon_dir ticket (path_display p)).
Definition client_share_invite (id invitee_pubkey role auth_role : string) : DM string :=
  call (share_invite data_dir identity id invitee_pubkey role auth_role).
Definition client_share_revoke (id peer_pubkey : string) : DM Z :=
  call (share_revoke data_dir identity id peer_pubkey).
Definition client_share_members (id : string) : DM (list (string * string)) :=
  call (share_members data_dir identity id).
Definition client_share_peers (id : string) : DM (list (string * Z)) :=
  call (share_peers data_dir id).
Definition client_share_rotate_key (id : string) : DM Z :=
  call (share_rotate_key data_dir identity id).
Definition client_share_remove (id : string) : DM unit := call (share_remove data_dir id).

(** ** The commands of [main.rs] *)

Definition cmd_share_add (topic p : string) (role : ShareRole) : DM string :=
  let^ p := dio (absolute current_dir p) in
  let^ ex := dio (fs_exists p) in
  if bool_decide (role = Seed) && negb ex then dfail (EMsg "seed path does not exist") else
  connect ;^
  client_share_add topic p (role_to_str role).

(** One line of the listing per share. *)
Fixpoint entry_rows (shares : list (string * string * string * string * string))
    : outcome (list (string * string * string * string)) :=
  match shares with
  | [] => Ok []
  | (id, topic, p, role, _) :: shares =>
      try! topic := truncate topic 20 in
      try! rows := entry_rows shares in
      Ok ((id, role, topic, p) :: rows)
  end.

Definition cmd_share_list : DM (Listing (string * string * string * string)) :=
  connect ;^
  let^ shares := client_share_list in
  if decide (shares = []) then dret (Nothing None) else
  let^ rows := dlift (entry_rows shares) in
  dret (Table rows).

Definition cmd_share_rotate_key (id : string) : DM Z :=
  connect ;^
  client_share_rotate_key id.

Definition cmd_share_peers (id : string) : DM (Listing (string * Z * bool)) :=
  connect ;^
  let^ me := dattempt client_whoami in
  let^ peers := client_share_peers id in
  if decide (peers = []) then dret (Nothing None) else
  dret (Table ((fun kv => (kv, bool_decide (me = Some kv.1))) <$> peers)).

Definition cmd_share_members (id : string) : DM (Listing (string * string * bool)) :=
  connect ;^
  let^ me := dattempt client_whoami in
  let^ members := client_share_members id in
  if decide (members = []) then dret (Nothing None) else
  dret (Table ((fun mr => (mr, bool_decide (me = Some mr.1))) <$> members)).

Definition cmd_share_revoke (id peer_pubkey_hex : string) : DM Z :=
  connect ;^
  client_share_revoke id peer_pubkey_hex.

Definition cmd_whoami : DM string := connect ;^ client_whoami.

Definition cmd_share_invite (id invitee_pubkey_hex : string) (role : ShareRole)
    (auth_role : AuthRole) : DM string :=
  connect ;^
  client_share_invite id invitee_pubkey_hex (role_to_str role) (auth_role_str auth_role).

Definition cmd_share_join (ticket_str p : string) : DM string :=
  let^ p := dio (absolute current_dir p) in
  connect ;^
  client_share_join ticket_str p.

Definition cmd_share_remove (id : string) : DM unit :=
  connect ;^
  client_share_remove id.

(** ** Lemmas *)

Lemma call_Ok {A : Type} (f : DM A) m w a s : call f m w = (Ok a, s) <-> f m w = (Ok a, s).
Proof. unfold call. by destruct (f m w) as [[?|e|] ?]. Qed.

Lemma entry_rows_list configs : entry_rows (list_entry <$> configs) = list_rows configs.
Proof.
  induction configs as [|c configs IH]; [done|]. cbn [fmap list_fmap list_entry entry_rows list_rows].
  fold (fmap (M := list) list_entry configs) in *. rewrite IH.
  destruct (truncate (sc_topic c) 20) as [t|e|]; [|done..]. cbn.
  destruct (list_rows configs) as [l|e|]; [|done..]. cbn. by destruct (sc_role c).
Qed.
End client.

Section lemmas.
Context `{MD : Metadata, ReadDir, Entropy, WallClock, Blake3, Ed25519}.
Context `{!Json ShareConfig, !Json PersistedState}.

(** Reading: no file changes, no faults appear. *)
Definition reading {A : Type} (m : M A) : Prop := touches (fun _ => False) m /\ quiet m.

Lemma reading_bind {A B : Type} (m : M A) (k : A -> M B) :
  reading m -> (forall a, reading (k a)) -> reading (bind m k).
Proof.
  intros [Ht Hq] Hk. split; [apply touches_bind|apply quiet_bind]; try done; intros a; apply Hk.
Qed.

Lemma load_entry_reading dir n : reading (load_entry dir n).
Proof.
  unfold load_entry. apply reading_bind; [split; [apply touches_file_type|apply quiet_io]|]. intros ft.
  case_decide; [split; auto with peerdup|]. apply reading_bind; [split; auto with peerdup|].
  intros [|]; cbn [negb]; [|split; auto with peerdup].
  apply reading_bind; [split; [apply touches_ctx, touches_read|apply quiet_ctx, quiet_io]|].
  split; auto with peerdup.
Qed.

Lemma load_all_reading dd : reading (load_all dd).
Proof.
  unfold load_all. cbv zeta. apply reading_bind; [split; auto with peerdup|].
  intros [|]; cbn [negb]; [|split; auto with peerdup].
  apply reading_bind; [split; [apply touches_ctx, touches_read_dir|apply quiet_ctx, quiet_io]|].
  intros names. apply reading_bind; [|split; auto with peerdup].
  induction names as [|n names IH]; cbn [load_entries]; [split; auto with peerdup|].
  apply reading_bind; [apply load_entry_reading|]. intros c.
  apply reading_bind; [exact IH|split; auto with peerdup].
Qed.

Lemma identity_run p w k :
  w_faults w = [] -> data_at (w_fs w) p = Some k -> length k = PRIVATE_KEY_LEN ->
  load_or_create p w = (Ok k, w).
Proof.
  intros Hf Hd Hk. unfold load_or_create. rewrite (bind_run _ _ _ _ _ (fs_exists_data _ _ _ (quiet_readable _ _ Hf) Hd)).
  rewrite (bind_run _ _ w k w) by (unfold ctx; by rewrite (fs_read_run _ _ _ Hf Hd)).
  by rewrite decide_True.
Qed.
End lemmas.

(** ** Properties *)

Section properties.
Context `{MD : Metadata, ReadDir, Entropy, WallClock, Blake3, Ed25519, !CryptoBox, Base64, Chrono, Bus}.
Context `{!Bincode rotation_tuple, !BincodeTotal rotation_tuple, !Bincode SignedRotation}.
Context `{!Bincode canonical_tuple, !BincodeTotal canonical_tuple, !GroupCrdt}.
Context `{!Bincode SignedOp, !Bincode (list SignedOp), !Bincode Ticket, !Json ShareMsg, !Json ShareConfig}.
Context `{!Json PersistedState}.

(** What the client prints where the direct command prints [l]. *)
Definition through_bus {A : Type} (l : Listing A) : Listing A :=
  match l with Nothing _ | Table [] => Nothing None | Table rows => Table rows end.

Lemma through_bus_table {A : Type} (rows : list A) : rows <> [] -> through_bus (Table rows) = Table rows.
Proof. by destruct rows. Qed.

Lemma list_rows_nil configs rows : list_rows configs = Ok rows -> rows = [] -> configs = [].
Proof.
  destruct configs as [|c configs]; [done|]. cbn [list_rows]. intros Hr ->.
  destruct (truncate _ _); [|done..]. cbn in Hr. by destruct (list_rows configs).
Qed.

(** C36. The views of a share are the same whether the daemon or the files are
    asked: with the bus up, a working disk, and the daemon's identity on that
    disk, [share list] and [share peers] succeed in one way exactly when they
    do in the other, with the same rows and the same markers in the same
    order; when there is nothing to list both say so, in other words: asked
    directly, [share list] names the data directory, and [share peers] prints
    an empty table for a recorded state without any peer. *)
Theorem views_agree (dd : path) (id0 : bytes) (id : string) (m : gmap string Running) (w : world) :
  bus_connect w = (Ok tt, w) -> w_faults w = [] ->
  data_at (w_fs w) (identity_path dd) = Some id0 -> length id0 = PRIVATE_KEY_LEN ->
  (forall l w', cmd_share_list dd m w = (Ok l, (m, w')) <->
     exists l', cmd_share_list_direct dd w = (Ok l', w') /\ l = through_bus l') /\
  (forall l w', cmd_share_peers dd id0 id m w = (Ok l, (m, w')) <->
     exists l', cmd_share_peers_direct dd id w = (Ok l', w') /\ l = through_bus l').
Proof.
  intros Hb Hf Hd Hl. split; intros l w'.
  - unfold cmd_share_list, connect, client_share_list, call, share_list, cmd_share_list_direct.
    unfold dbind, dio, dlift, dret, bind, lift, ret. rewrite Hb.
    destruct (load_all dd w) as [[cs|e|] w1]; [|split; [discriminate|by intros (? & ? & _)]..].
    destruct (decide (cs = [])) as [->|Hcs].
    { cbn. split; [intros [= <- <-]; by eexists|by intros (l' & [= <- <-] & ->)]. }
    rewrite decide_False by (by destruct cs). rewrite entry_rows_list.
    destruct (list_rows cs) as [rows|e|] eqn:Er; [|split; [discriminate|by intros (? & ? & _)]..].
    assert (through_bus (Table rows) = Table rows) as Ht
      by (apply through_bus_table; intros E; by eapply Hcs, list_rows_nil).
    split; [intros [= <- <-]; by eexists|intros (l' & [= <- <-] & ->); by rewrite Ht].
  - unfold cmd_share_peers, connect, client_whoami, whoami, client_share_peers, share_peers, call, dattempt.
    unfold cmd_share_peers_direct, own_key, attempt, dbind, dio, dret, dfail, bind, ret, fail. rewrite Hb.
    destruct (load_all_reading dd) as [Ht Hq]. specialize (Ht w (identity_path dd) (fun f => f)). specialize (Hq w Hf).
    destruct (load_all dd w) as [[cs|e|] w1]; [|split; [discriminate|by intros (? & ? & _)]..]. cbn [snd] in *.
    destruct (negb (configured id cs)); [split; [discriminate|by intros (? & ? & _)]|].
    rewrite (identity_run (identity_path dd) w1 id0 Hq) by (unfold data_at in *; by rewrite ?Ht).
    destruct (state_load dd id w1) as [[[st|]|e|] w2]; [| |split; [discriminate|by intros (? & ? & _)]..].
    + cbn [fmap option_fmap option_map]. case_decide as Ep.
      * rewrite Ep. split; [intros [= <- <-]; by eexists|by intros (l' & [= <- <-] & ->)].
      * destruct (sort_peers _) as [|kv kvs]; [done|].
        split; [intros [= <- <-]; by eexists|by intros (l' & [= <- <-] & ->)].
    + rewrite decide_True by done. split; [intros [= <- <-]; by eexists|by intros (l' & [= <- <-] & ->)].
Qed.

(** A command that cannot reach the daemon fails, and changes neither the
    daemon's shares nor a file. *)
Definition powerless {A : Type} (f : gmap string Running -> world -> outcome A * (gmap string Running * world)) : Prop :=
  forall m w, let '(r, (m', w')) := f m w in
  (forall a, r <> Ok a) /\ m' = m /\ w_fs w' = w_fs w.

Lemma powerless_connect {A : Type} (k : unit -> DM A) :
  (forall w, fst (bus_connect w) <> Ok tt) -> powerless (dbind connect k).
Proof.
  intros Hb m w. unfold dbind, connect, dio. specialize (Hb w). pose proof (bus_connect_inert w) as Hi.
  destruct (bus_connect w) as [[[]|e|] w1]; [done|..]; done.
Qed.

Lemma powerless_after {A B : Type} (g : M B) (k : B -> DM A) :
  (forall w, w_fs (snd (g w)) = w_fs w) -> (forall b, powerless (k b)) -> powerless (dbind (dio g) k).
Proof.
  intros Hg Hk m w. unfold dbind, dio. specialize (Hg w). destruct (g w) as [[b|e|] w1]; [|done..].
  specialize (Hk b m w1). cbn [snd] in Hg. destruct (k b m w1) as [r [m' w']]. by rewrite <- Hg.
Qed.

Lemma absolute_inert (cwd : outcome path) p w : w_fs (snd (absolute cwd p w)) = w_fs w.
Proof. unfold absolute, bind, ret, lift. destruct (is_absolute p); [done|]. by destruct cwd. Qed.

(** Without a session bus no client command has an effect. *)
Theorem no_bus_no_effect (dd : path) (id0 : bytes) (ddir cwd : outcome path)
    (s1 s2 : string) (r : ShareRole) (ar : AuthRole) :
  (forall w, fst (bus_connect w) <> Ok tt) ->
  powerless (cmd_share_add dd id0 cwd s1 s2 r) /\ powerless (cmd_share_list dd) /\
  powerless (cmd_share_rotate_key dd id0 s1) /\ powerless (cmd_share_peers dd id0 s1) /\
  powerless (cmd_share_members dd id0 s1) /\ powerless (cmd_share_revoke dd id0 s1 s2) /\
  powerless (cmd_whoami id0) /\ powerless (cmd_share_invite dd id0 s1 s2 r ar) /\
  powerless (cmd_share_join dd id0 ddir cwd s1 s2) /\ powerless (cmd_share_remove dd s1).
Proof.
  intros Hb. repeat split; try by apply powerless_connect.
  - apply powerless_after; [apply absolute_inert|]. intros p.
    apply powerless_after; [done|]. intros ex. destruct (_ && _); [by intros m w|by apply powerless_connect].
  - apply powerless_after; [apply absolute_inert|]. intros p. by apply powerless_connect.
Qed.
End properties.

(** ** Witnesses *)

Definition bus_up : Bus := {| bus_connect := ret tt; bus_connect_inert _ := eq_refl |}.
Definition bus_down : Bus := {| bus_connect := fail (EMsg "no D-Bus session bus available");
                                bus_connect_inert _ := eq_refl |}.

Section witnesses.
#[local] Existing Instance toy_metadata.
#[local] Existing Instance toy_entropy.
#[local] Existing Instance toy_blake3.
#[local] Existing Instance toy_ed25519.
#[local] Existing Instance toy_box.
#[local] Existing Instance toy_base64.
#[local] Existing Instance toy_read_dir.
#[local] Existing Instance toy_clock.
#[local] Existing Instance toy_state.
#[local] Existing Instance toy_rotation_tuple.
#[local] Existing Instance toy_rotation_total.
#[local] Existing Instance toy_rotation.
#[local] Existing Instance toy_canonical.
#[local] Existing Instance toy_canonical_total.
#[local] Existing Instance toy_group.
#[local] Existing Instance toy_op.
#[local] Existing Instance toy_ops.
#[local] Existing Instance toy_ticket.
#[local] Existing Instance toy_msg.
#[local] Existing Instance toy_config.
#[local] Existing Instance toy_chrono.
#[local] Existing Instance bus_up.

(** Alice's disk with a recorded clock. *)
Definition wv_world : world := snd (state_save wd_dd "share" wsh_state wc_world).
#[local] Abbreviation wv_direct := (cmd_share_peers_direct wd_dd "share" wv_world).

Lemma wv_direct_ok : match fst wv_direct with Ok (Table l) => length l | _ => O end = 1%nat.
Proof. vm_compute. reflexivity. Qed.

Lemma wv_bus : bus_connect wv_world = (Ok tt, wv_world).
Proof. reflexivity. Qed.

Lemma wv_quiet : w_faults wv_world = [].
Proof. vm_compute. reflexivity. Qed.

Lemma wv_identity : data_at (w_fs wv_world) (identity_path wd_dd) = Some wa_alice.
Proof. vm_compute. reflexivity. Qed.

Lemma wv_length : length wa_alice = PRIVATE_KEY_LEN.
Proof. vm_compute. reflexivity. Qed.

Lemma views_agree_witness :
  exists rows, fst (cmd_share_peers wd_dd wa_alice "share" ∅ wv_world) = Ok (Table rows) /\
    length rows = 1%nat.
Proof.
  pose proof wv_direct_ok as Hd.
  destruct wv_direct as [[[pl|[|r rows]]|e|] w'] eqn:E; cbn [fst] in Hd; [discriminate Hd|discriminate Hd| |discriminate Hd|discriminate Hd].
  destruct (views_agree wd_dd wa_alice "share" ∅ wv_world wv_bus wv_quiet wv_identity wv_length) as [_ Hp].
  pose proof (proj2 (Hp (Table (r :: rows)) w') (ex_intro _ _ (conj E eq_refl))) as E'.
  exists (r :: rows). rewrite E'. split; [reflexivity|exact Hd].
Defined.

#[local] Existing Instance bus_down.

Lemma no_bus_no_effect_witness :
  w_fs (snd (snd (cmd_share_revoke wd_dd wa_alice "share" wc_bob_hex ∅ wv_world))) = w_fs wv_world.
Proof.
  destruct (no_bus_no_effect wd_dd wa_alice (Ok []) (Ok []) "share" wc_bob_hex Sync Writer)
    as (_ & _ & _ & _ & _ & Hr & _); [intros w; discriminate|].
  specialize (Hr ∅ wv_world). destruct (cmd_share_revoke _ _ _ _ _ _) as [r [m' w']].
  cbn [snd]. apply Hr.
Defined.
End witnesses.
