(* ===== verification/Host.v ===== *)
(** * One daemon: all its shares on one disk

    The running tasks, the service that starts, commands and removes them,
    the commands that other processes run directly on the data directory, and
    the users who edit their files, interleaved in any order.  What [Loops]
    proves of one task alone holds of all of them together: no task writes in
    another share's directory below [shares/]. *)

From S2P Require Import Prelude World Tree Clock External Instances Share Crypto Auth.
From S2P Require Import Rotation Ticket Shadow Sync Frame Network Daemon Loops Ipc Reach Cli.

(** ** The loop of a task, opened up *)

(** What a loop carries between turns besides the task's state. *)
Inductive LoopState :=
  | LSeed (announce_bytes : bytes)
  | LLeech (root : path) (completed : bool)
  | LSync (root : path) (state : option ShareState).

Section loop.
Context `{MD : Metadata, ReadDir, Entropy, WallClock, Blake3, Aead, Ed25519, !CryptoBox, Base64}.
Context `{!Bincode rotation_tuple, !BincodeTotal rotation_tuple, !Bincode SignedRotation}.
Context `{!Bincode canonical_tuple, !BincodeTotal canonical_tuple, !GroupCrdt}.
Context `{!Bincode SignedOp, !Bincode (list SignedOp), !Bincode Ticket, !Json ShareMsg}.
Context `{!Json PersistedState, Torrents, SocketAddrs, Services}.
Context (config : ShareConfig) (dd : path) (identity : bytes) (port : Z).

(** [run_share] up to its loop, with what is published on the way. *)
Definition loop_begin : SM (LoopState * list bytes) :=
  match sc_role config with
  | Seed => let* b := seed_start config port in sret (LSeed b, [])
  | Leech => let* s := leech_start config in sret (LLeech s.1 false, s.2)
  | Sync => let* s := sync_start config dd identity port in sret (LSync s.1.1 s.1.2, s.2)
  end.

Definition loop_turn (l : LoopState) (evc : Event * bool) : SM (LoopState * Turn) :=
  match l with
  | LSeed b => let* r := seed_turn config dd identity b tt evc.1 in sret (LSeed b, r.2)
  | LLeech root c => let* r := leech_turn config dd identity root c evc in sret (LLeech root r.1, r.2)
  | LSync root st => let* r := sync_turn config dd identity port root st evc.1 in sret (LSync root r.1, r.2)
  end.
End loop.

(** ** The daemon *)

(** [h_loops]: the loops that have begun. *)
Record host `{Blake3, !Bincode canonical_tuple, !BincodeTotal canonical_tuple, !GroupCrdt} := {
  h_shares : gmap string Running;
  h_loops : gmap string LoopState;
  h_world : world;
}.

(** The methods of the service and the direct commands. *)
Inductive Request :=
  | RqWhoami | RqList
  | RqAdd (topic : string) (p : path) (role : string)
  | RqJoin (ticket p : string)
  | RqInvite (id invitee role auth_role : string)
  | RqRevoke (id peer : string)
  | RqMembers (id : string) | RqPeers (id : string) | RqRotateKey (id : string)
  | RqRemove (id : string).

Section host.
Context `{MD : Metadata, ReadDir, Entropy, WallClock, Blake3, Aead, Ed25519, !CryptoBox, Base64, Chrono}.
Context `{!Bincode rotation_tuple, !BincodeTotal rotation_tuple, !Bincode SignedRotation}.
Context `{!Bincode canonical_tuple, !BincodeTotal canonical_tuple, !GroupCrdt}.
Context `{!Bincode SignedOp, !Bincode (list SignedOp), !Bincode Ticket, !Json ShareMsg, !Json ShareConfig}.
Context `{!Json PersistedState, Torrents, SocketAddrs, Services}.
Context (dd : path) (identity : bytes) (port : Z) (cwd : outcome path).

Abbreviation shares_map := (gmap string Running).

Definition quietly {A : Type} (f : DM A) : DM unit := let^ _ := f in dret tt.

Definition serve_request (rq : Request) : DM unit :=
  match rq with
  | RqWhoami => quietly (whoami identity)
  | RqList => quietly (share_list dd)
  | RqAdd topic p role => quietly (share_add dd identity topic p role)
  | RqJoin ticket p => quietly (share_join dd identity cwd ticket p)
  | RqInvite id invitee role auth_role => quietly (share_invite dd identity id invitee role auth_role)
  | RqRevoke id peer => quietly (share_revoke dd identity id peer)
  | RqMembers id => quietly (share_members dd identity id)
  | RqPeers id => quietly (share_peers dd id)
  | RqRotateKey id => quietly (share_rotate_key dd identity id)
  | RqRemove id => share_remove dd id
  end.

(** Ids that are names of directories, and shared directories that are
    neither inside nor around [shares/]. *)
Definition good_id (id : string) : Prop := plain_name id /\ id <> PEERDUP_DIR_NAME.
Definition good_root (root : path) : Prop :=
  ~ root `prefix_of` shares_dir dd /\ ~ shares_dir dd `prefix_of` root.

(** What the callers have to respect; the program does not check it. *)
Definition sane (rq : Request) : Prop :=
  match rq with
  | RqAdd _ p _ => good_root p
  | RqJoin ticket p =>
      (forall t, decode ticket = Ok t -> good_id (share_id t)) /\
      (is_absolute p = true -> good_root (components p)) /\
      (forall c, cwd = Ok c -> good_root (join c p))
  | RqRemove id => good_id id
  | _ => True
  end.

(** The share a request is about, whose loop must have begun to serve it. *)
Definition target (rq : Request) : option string :=
  match rq with
  | RqInvite id _ _ _ | RqRevoke id _ | RqMembers id | RqRotateKey id => Some id
  | _ => None
  end.

(** The loops of tasks that still run. *)
Definition live_loops (m : shares_map) (l : gmap string LoopState) : gmap string LoopState :=
  base.filter (fun kv => (run_alive <$> m !! kv.1) = Some true) l.

Definition with_task (r : Running) (t : ShareTask) (alive : bool) : Running :=
  {| run_config := run_config r; run_task := t; run_alive := alive |}.

(** The direct commands of other processes; the lock does not stop them. *)
Inductive Direct :=
  | DWhoami | DList
  | DAdd (topic p : string) (role : ShareRole)
  | DJoin (ticket p : string)
  | DInvite (id invitee : string) (role : ShareRole) (auth_role : AuthRole)
  | DRevoke (id peer : string)
  | DMembers (id : string) | DPeers (id : string) | DRotateKey (id : string)
  | DRemove (id : string).

Definition run_direct (cur : outcome path) (c : Direct) (w : world) : world :=
  match c with
  | DWhoami => snd (cmd_whoami_direct dd w)
  | DList => snd (cmd_share_list_direct dd w)
  | DAdd topic p role => snd (cmd_share_add_direct dd cur topic p role w)
  | DJoin ticket p => snd (cmd_share_join_direct dd cur ticket p w)
  | DInvite id invitee role auth_role => snd (cmd_share_invite_direct dd id invitee role auth_role w)
  | DRevoke id peer => snd (cmd_share_revoke_direct dd id peer w)
  | DMembers id => snd (cmd_share_members_direct dd id w)
  | DPeers id => snd (cmd_share_peers_direct dd id w)
  | DRotateKey id => snd (cmd_share_rotate_key_direct dd id w)
  | DRemove id => snd (cmd_share_remove_direct dd id w)
  end.

(** Removing directly a share that the daemon runs takes its files away
    under its task: that is up to the user not to do. *)
Definition direct_sane (m : shares_map) (c : Direct) : Prop :=
  match c with
  | DJoin ticket _ => forall t, decode ticket = Ok t -> good_id (share_id t)
  | DInvite id _ _ _ | DRevoke id _ | DRotateKey id => good_id id
  | DRemove id => good_id id /\ m !! id = None
  | _ => True
  end.

(** A task begins its loop or fails to; takes a turn that ends the loop or
    not; the service answers a request; another process runs a direct
    command; and anything happens to the world outside [shares/], the faults
    ahead included. *)
Inductive host_step (h : host) : host -> Prop :=
| host_begin id r o t' w' :
    h_shares h !! id = Some r -> run_alive r = true -> h_loops h !! id = None ->
    loop_begin (run_config r) dd identity port (run_task r) (h_world h) = (o, (t', w')) ->
    host_step h
      match o with
      | Ok (l, _) => {| h_shares := <[id := with_task r t' true]> (h_shares h);
                        h_loops := <[id := l]> (h_loops h); h_world := w' |}
      | _ => {| h_shares := <[id := with_task r t' false]> (h_shares h);
                h_loops := h_loops h; h_world := w' |}
      end
| host_turn id r l evc o t' w' :
    h_shares h !! id = Some r -> h_loops h !! id = Some l ->
    loop_turn (run_config r) dd identity port l evc (run_task r) (h_world h) = (o, (t', w')) ->
    host_step h
      match o with
      | Ok (l', tn) =>
          if tn_stop tn
          then {| h_shares := <[id := with_task r t' false]> (h_shares h);
                  h_loops := delete id (h_loops h); h_world := w' |}
          else {| h_shares := <[id := with_task r t' true]> (h_shares h);
                  h_loops := <[id := l']> (h_loops h); h_world := w' |}
      | _ => {| h_shares := <[id := with_task r t' false]> (h_shares h);
                h_loops := delete id (h_loops h); h_world := w' |}
      end
| host_request rq o m' w' :
    sane rq ->
    (forall id r, target rq = Some id -> h_shares h !! id = Some r -> run_alive r = true ->
       is_Some (h_loops h !! id)) ->
    serve_request rq (h_shares h) (h_world h) = (o, (m', w')) ->
    host_step h {| h_shares := m'; h_loops := live_loops m' (h_loops h); h_world := w' |}
| host_direct cur c :
    direct_sane (h_shares h) c ->
    host_step h {| h_shares := h_shares h; h_loops := h_loops h;
                   h_world := run_direct cur c (h_world h) |}
| host_outside w' :
    (forall q, shares_dir dd `prefix_of` q -> file_at (w_fs w') q = file_at (w_fs (h_world h)) q) ->
    host_step h {| h_shares := h_shares h; h_loops := h_loops h; h_world := w' |}.

(** The daemon after the first part of [serve]. *)
Definition host_start (shares : gmap string (ShareConfig * ShareTask)) (w : world) : host :=
  {| h_shares := (fun ct => {| run_config := ct.1; run_task := ct.2; run_alive := true |}) <$> shares;
     h_loops := ∅; h_world := w |}.

Definition host_reachable (h : host) : Prop :=
  exists configs w0 shares w,
    Forall (fun c => good_id (sc_id c) /\ good_root (sc_root_path c)) configs /\
    spawn_all dd configs ∅ w0 = (Ok shares, w) /\ rtc host_step (host_start shares w) h.

(** ** The invariant *)

Record share_ok (id : string) (r : Running) (w : world) : Prop := {
  so_id : sc_id (run_config r) = id;
  so_good : good_id id;
  so_root : good_root (sc_root_path (run_config r));
  so_task : task_ok dd id (run_task r, w);
}.

Definition shares_ok (m : shares_map) (w : world) : Prop :=
  forall id r, m !! id = Some r -> share_ok id r w.

(** A loop works on the directory of its share. *)
Definition loop_ok (r : Running) (l : LoopState) : Prop :=
  match l with
  | LSeed _ => sc_role (run_config r) = Seed
  | LLeech root _ => sc_role (run_config r) = Leech /\ root = sc_root_path (run_config r)
  | LSync root _ => sc_role (run_config r) = Sync /\ root = sc_root_path (run_config r)
  end.

Record host_ok (h : host) : Prop := {
  ho_shares : shares_ok (h_shares h) (h_world h);
  ho_loops : forall id l, h_loops h !! id = Some l ->
    exists r, h_shares h !! id = Some r /\ run_alive r = true /\ loop_ok r l;
}.

(** From one state of the shares to a later one; [X] are the shares that are
    removed on the way. *)
Definition evolution (X : string -> Prop) (s s' : shares_map * world) : Prop :=
  shares_ok s.1 s.2 ->
  shares_ok s'.1 s'.2 /\
  forall id r, s.1 !! id = Some r -> ~ X id ->
    exists r', s'.1 !! id = Some r' /\ run_config r' = run_config r /\
      grows dd id (run_task r, s.2) (run_task r', s'.2).
End host.

(** ** Lemmas: places *)

Lemma prefix_snoc {A : Type} (l k : list A) x : l `prefix_of` k ++ [x] -> l = k ++ [x] \/ l `prefix_of` k.
Proof.
  intros [m E]. destruct m as [|y m _] using rev_ind; [left; by rewrite app_nil_r in E|].
  right. rewrite app_assoc in E. apply app_inj_tail in E as [-> _]. by apply prefix_app_r.
Qed.

Section places.
Context (dd : path).

Lemma share_dir_plain id : plain_name id -> share_dir dd id = shares_dir dd ++ [id].
Proof. apply join_plain. Qed.

Lemma own_shares id q : plain_name id -> own dd id q -> shares_dir dd `prefix_of` q.
Proof. intros Hp. unfold own. rewrite share_dir_plain by done. apply prefix_app_l. Qed.

Lemma own_disjoint a b q : plain_name a -> plain_name b -> own dd a q -> own dd b q -> a = b.
Proof.
  unfold own. intros Ha Hb. rewrite !share_dir_plain by done. intros [k ->] [l E].
  rewrite <- !app_assoc in E. apply app_inv_head in E. by injection E.
Qed.

Lemma kfile_own id : own dd id (kfile dd id).
Proof. apply own_app. Qed.

Lemma good_root_outside root q :
  good_root dd root -> shares_dir dd `prefix_of` q -> ~ root `prefix_of` q /\ q <> beside root.
Proof.
  intros [H1 H2] Hq. split.
  - intros Hr. destruct (prefix_weak_total _ _ _ Hr Hq); tauto.
  - intros ->. unfold beside, set_file_name in Hq.
    destruct (prefix_snoc _ _ _ Hq) as [E|Hp].
    + unfold shares_dir in E. rewrite join_plain in E by plain_const. apply app_inj_2 in E as [_ [= E]]; [|done].
      apply (f_equal string_bytes) in E. rewrite string_bytes_app in E.
      apply (f_equal length) in E. rewrite length_app in E. simpl in E. lia.
    + apply H2. etrans; [exact Hp|]. destruct root as [|c root _] using rev_ind; [done|].
      rewrite removelast_last. by apply prefix_app_r.
Qed.

Lemma task_file_elsewhere config j q :
  plain_name (sc_id config) -> good_root dd (sc_root_path config) -> plain_name j -> j <> sc_id config ->
  own dd j q -> ~ task_file config dd q.
Proof.
  intros Hc Hr Hj Hne Hq. destruct (good_root_outside _ q Hr (own_shares j q Hj Hq)).
  intros [Ho|[?|?]]; [|done|done]. by apply Hne, (own_disjoint _ _ q).
Qed.

Lemma good_root_kfile root id : good_root dd root -> plain_name id -> ~ root `prefix_of` kfile dd id.
Proof. intros Hr Hi. by apply good_root_outside, (own_shares id), kfile_own. Qed.
End places.

Lemma hex_encode_high b c : c ∈ hex_encode b -> 48 <= Z_of_byte c.
Proof.
  unfold hex_encode. intros (y & Hc & _)%list_elem_of_bind. destruct (nibble_range y).
  unfold hex_byte in Hc. rewrite !elem_of_cons, elem_of_nil in Hc.
  destruct Hc as [->|[->|[]]]; rewrite hex_digit_Z by done; case_match; lia.
Qed.

Lemma topic_id_good `{Blake3} topic : good_id (id_from_topic topic).
Proof.
  unfold id_from_topic. set (d := take 16 (hex_encode (blake3 (string_bytes topic)))).
  assert (forall c, c ∈ d -> 48 <= Z_of_byte c) as Hd.
  { intros c Hc. apply (hex_encode_high (blake3 (string_bytes topic))). eapply subseteq_take, Hc. }
  assert (length d = 16%nat) as Hl.
  { unfold d. rewrite length_take, length_hex_encode, blake3_length. done. }
  clearbody d. assert (forall s, length (string_bytes s) <> 16%nat -> bytes_string d <> s) as Hne.
  { intros s Hs E. apply Hs. by rewrite <- E, string_bytes_string. }
  split; [|by apply Hne]. apply plain_name_intro; [|by apply Hne..].
  rewrite string_bytes_string. intros Hs. apply Hd in Hs. vm_compute in Hs. by destruct Hs.
Qed.

(** ** Lemmas: evolution *)

Section kept.
Context `{MD : Metadata, ReadDir, Entropy, WallClock, Blake3, Aead, Ed25519, !CryptoBox, Base64, Chrono}.
Context `{!Bincode rotation_tuple, !BincodeTotal rotation_tuple, !Bincode SignedRotation}.
Context `{!Bincode canonical_tuple, !BincodeTotal canonical_tuple, !GroupCrdt}.
Context `{!Bincode SignedOp, !Bincode (list SignedOp), !Bincode Ticket, !Json ShareMsg, !Json ShareConfig}.
Context `{!Json PersistedState, Torrents, SocketAddrs, Services}.
Context `{!KeysSighted}.
Context (dd : path).

(** No keyring loses a key between two worlds. *)
Definition ring_kept (id : string) (w w' : world) : Prop :=
  forall r, disk_ring dd id (w_fs w) = Some r ->
  exists r', disk_ring dd id (w_fs w') = Some r' /\ ring_extends r r'.

Lemma ring_kept_same id w w' :
  file_at (w_fs w') (kfile dd id) = file_at (w_fs w) (kfile dd id) -> ring_kept id w w'.
Proof. intros E r Hr. exists r. unfold disk_ring, data_at in *. by rewrite E. Qed.

#[export] Instance ring_kept_preorder id : PreOrder (ring_kept id).
Proof.
  split; [by intros w r Hr; exists r|]. intros w1 w2 w3 H1' H2' r Hr.
  destruct (H1' r Hr) as (r2 & Hr2 & E2). destruct (H2' r2 Hr2) as (r3 & Hr3 & E3).
  exists r3. split; [done|by etrans].
Qed.

(** *** Computations on files *)

Definition all_rings {A : Type} (m : M A) : Prop := forall w id, good_id id -> ring_kept id w (snd (m w)).

Lemma all_rings_bind {A B : Type} (m : M A) (k : A -> M B) :
  all_rings m -> (forall a, all_rings (k a)) -> all_rings (bind m k).
Proof.
  intros Hm Hk w id Hid. specialize (Hm w id Hid). unfold bind.
  destruct (m w) as [[a|e|] w']; simpl in *; [|done..]. etrans; [done|by apply Hk].
Qed.

Lemma all_rings_bind_Ok {A B : Type} (m : M A) (k : A -> M B) :
  all_rings m -> (forall w a w', m w = (Ok a, w') -> all_rings (k a)) -> all_rings (bind m k).
Proof.
  intros Hm Hk w id Hid. specialize (Hm w id Hid). unfold bind.
  destruct (m w) as [[a|e|] w'] eqn:E; simpl in *; [|done..]. etrans; [done|by eapply Hk].
Qed.

Lemma all_rings_none {A : Type} (m : M A) : touches (fun _ => False) m -> all_rings m.
Proof. intros Hm w id _. apply ring_kept_same, Hm. tauto. Qed.

(** An operation on the files of one share that keeps its keyring. *)
Lemma all_rings_own {A : Type} sid (m : M A) :
  good_id sid -> touches (own dd sid) m -> keeps_ring dd sid m -> all_rings m.
Proof.
  intros Hs Ht Hk w id Hid. destruct (decide (id = sid)) as [->|Hne];
    [intros r; apply Hk, keys_sighted|].
  apply ring_kept_same, Ht. intros Ho. apply Hne. symmetry.
  apply (own_disjoint dd _ _ (kfile dd id)); [apply Hs|apply Hid|done|apply kfile_own].
Qed.

Lemma all_rings_ctx {A : Type} c (m : M A) : all_rings m -> all_rings (ctx c m).
Proof. intros Hm w id Hid. specialize (Hm w id Hid). unfold ctx. by destruct (m w). Qed.

Lemma all_rings_attempt {A : Type} (m : M A) : all_rings m -> all_rings (attempt m).
Proof. intros Hm w id Hid. specialize (Hm w id Hid). unfold attempt. by destruct (m w) as [[] ?]. Qed.

(** Files outside [shares/]. *)
Lemma all_rings_outside {A : Type} (S : path -> Prop) (m : M A) :
  touches S m -> (forall q, S q -> ~ shares_dir dd `prefix_of` q) -> all_rings m.
Proof.
  intros Hm HS w id Hid. apply ring_kept_same, Hm. intros Hq. apply (HS _ Hq).
  apply (own_shares dd id); [apply Hid|apply kfile_own].
Qed.
End kept.

Section evolution.
Context `{MD : Metadata, ReadDir, Entropy, WallClock, Blake3, Aead, Ed25519, !CryptoBox, Base64, Chrono}.
Context `{!Bincode rotation_tuple, !BincodeTotal rotation_tuple, !Bincode SignedRotation}.
Context `{!Bincode canonical_tuple, !BincodeTotal canonical_tuple, !GroupCrdt}.
Context `{!Bincode SignedOp, !Bincode (list SignedOp), !Bincode Ticket, !Json ShareMsg, !Json ShareConfig}.
Context `{!Json PersistedState, Torrents, SocketAddrs, Services}.
Context `{!KeysSighted}.
Context (dd : path) (X : string -> Prop).

Abbreviation shares_map := (gmap string Running).

Lemma task_world id t w w' :
  ring_kept dd id w w' -> task_ok dd id (t, w) -> task_ok dd id (t, w') /\ grows dd id (t, w) (t, w').
Proof.
  intros Hk [Ha Hb (r & Hr & He)]. simpl in *. destruct (Hk r Hr) as (r' & Hr' & He').
  split; [split; [done..|]; exists r'; split; [done|by etrans]|]. split; try done.
Qed.

Lemma share_ok_world id r w w' :
  ring_kept dd id w w' -> share_ok dd id r w ->
  share_ok dd id r w' /\ grows dd id (run_task r, w) (run_task r, w').
Proof.
  intros Hk [Hi Hg Hr Ht]. destruct (task_world id (run_task r) w w' Hk Ht). by split.
Qed.

#[export] Instance evolution_preorder : PreOrder (evolution dd X).
Proof.
  split.
  - intros s Hs. split; [done|]. intros id r Hr _. exists r. split; [done|]. split; [done|reflexivity].
  - intros s1 s2 s3 E1 E2 Hs1. destruct (E1 Hs1) as [Hs2 G1]. destruct (E2 Hs2) as [Hs3 G2].
    split; [done|]. intros id r Hr HX. destruct (G1 id r Hr HX) as (r2 & Hr2 & Hc2 & Hg2).
    destruct (G2 id r2 Hr2 HX) as (r3 & Hr3 & Hc3 & Hg3). exists r3.
    split; [done|]. split; [congruence|by etrans].
Qed.

(** Only the world changes. *)
Lemma evolution_running (m : shares_map) w w' :
  (forall id, is_Some (m !! id) -> good_id id -> ring_kept dd id w w') -> evolution dd X (m, w) (m, w').
Proof.
  intros Hk Hs. simpl in *.
  assert (forall id r, m !! id = Some r ->
    share_ok dd id r w' /\ grows dd id (run_task r, w) (run_task r, w')) as Ha.
  { intros id r Hr. specialize (Hs id r Hr). apply share_ok_world; [|done].
    apply Hk; [by exists r|apply (so_good _ _ _ _ Hs)]. }
  split; [intros id r Hr; by apply Ha|]. intros id r Hr _. exists r.
  split; [done|]. split; [done|by apply Ha].
Qed.

Lemma evolution_world (m : shares_map) w w' :
  (forall id, good_id id -> ring_kept dd id w w') -> evolution dd X (m, w) (m, w').
Proof. intros Hk. apply evolution_running. intros id _. apply Hk. Qed.

(** The task of one share moves. *)
Lemma evolution_task (m : shares_map) w w' id r t alive :
  m !! id = Some r -> evolves dd (sc_id (run_config r)) (run_task r, w) (t, w') ->
  (forall j, good_id id -> good_root dd (sc_root_path (run_config r)) -> sc_id (run_config r) = id ->
     good_id j -> j <> id -> ring_kept dd j w w') ->
  evolution dd X (m, w) (<[id := with_task r t alive]> m, w').
Proof.
  intros Hr He Hk Hs. simpl in *. pose proof (Hs id r Hr) as [Hid Hg Hroot Ht].
  rewrite Hid in He. destruct (He Ht) as [Ht' Hgr].
  assert (forall j r', j <> id -> m !! j = Some r' ->
    share_ok dd j r' w' /\ grows dd j (run_task r', w) (run_task r', w')) as Hother.
  { intros j r' Hj Hr'. specialize (Hs j r' Hr'). apply share_ok_world; [|done].
    by apply Hk; [| | |apply (so_good _ _ _ _ Hs)|]. }
  split.
  - intros j r' Hr'. destruct (decide (j = id)) as [->|Hne].
    + rewrite lookup_insert_eq in Hr'. injection Hr' as <-. by split.
    + rewrite lookup_insert_ne in Hr' by done. by apply Hother.
  - intros j r' Hr' _. destruct (decide (j = id)) as [->|Hne].
    + rewrite Hr in Hr'. injection Hr' as <-. eexists. rewrite lookup_insert_eq.
      split; [reflexivity|]. by split.
    + exists r'. rewrite lookup_insert_ne by done. split; [done|]. split; [done|]. by apply Hother.
Qed.

(** A share is removed. *)
Lemma evolution_delete (m : shares_map) w w' id :
  (forall j, good_id j -> j <> id -> ring_kept dd j w w') -> X id ->
  evolution dd X (m, w) (delete id m, w').
Proof.
  intros Hk HX Hs. simpl in *.
  assert (forall j r, j <> id -> m !! j = Some r ->
    share_ok dd j r w' /\ grows dd j (run_task r, w) (run_task r, w')) as Ha.
  { intros j r Hj Hr. specialize (Hs j r Hr). apply share_ok_world; [|done].
    apply Hk; [apply (so_good _ _ _ _ Hs)|done]. }
  split.
  - intros j r [Hne Hr]%lookup_delete_Some. by apply Ha.
  - intros j r Hr HXj. assert (j <> id) by (by intros ->). exists r.
    rewrite lookup_delete_ne by done. split; [done|]. split; [done|by apply Ha].
Qed.

(** A share is started. *)
Lemma evolution_new (m : shares_map) w w' id r :
  m !! id = None -> share_ok dd id r w' -> (forall j, good_id j -> ring_kept dd j w w') ->
  evolution dd X (m, w) (<[id := r]> m, w').
Proof.
  intros Hm Hr Hk Hs. destruct (evolution_world m w w' Hk Hs) as [Hs' Hg]. simpl in *. split.
  - intros j r' [[<- <-]|[Hne Hj]]%lookup_insert_Some; [done|by apply Hs'].
  - intros j r' Hj HX. destruct (Hg j r' Hj HX) as (r2 & Hr2 & ?). exists r2.
    rewrite lookup_insert_ne by congruence. done.
Qed.
End evolution.

(** ** Lemmas: the requests *)

Section requests.
Context `{MD : Metadata, ReadDir, Entropy, WallClock, Blake3, Aead, Ed25519, !CryptoBox, Base64, Chrono}.
Context `{!Bincode rotation_tuple, !BincodeTotal rotation_tuple, !Bincode SignedRotation}.
Context `{!Bincode canonical_tuple, !BincodeTotal canonical_tuple, !GroupCrdt}.
Context `{!Bincode SignedOp, !Bincode (list SignedOp), !Bincode Ticket, !Json ShareMsg, !Json ShareConfig}.
Context `{!Json PersistedState, Torrents, SocketAddrs, Services}.
Context `{!KeysSighted}.
Context (dd : path).

Abbreviation all_rings := (all_rings dd).
Abbreviation shares_map := (gmap string Running).

(** An operation that never asks for metadata: any answers will do. *)
Lemma all_rings_blind {A : Type} sid (m : M A) :
  good_id sid -> touches (own dd sid) m -> keeps_ring (MD := toy_metadata) dd sid m -> all_rings m.
Proof. pose proof toy_sighted. apply (all_rings_own (MD := toy_metadata)). Qed.

Lemma config_save_rings c : good_id (sc_id c) -> all_rings (config_save c dd).
Proof.
  intros Hg. eapply all_rings_blind; [exact Hg|by apply config_save_own|].
  apply (keeps_ring_same _ _ (fun q => q = share_dir dd (sc_id c) ++ ["share.json"])).
  - unfold config_save. cbv zeta. fold (share_dir dd (sc_id c)).
    apply touches_bind; [auto with peerdup|]. intros _. apply touches_bind; [auto with peerdup|]. intros j.
    apply touches_ctx. eapply touches_mono; [|apply touches_write]. intros q ->.
    by rewrite join_plain by plain_const.
  - unfold kfile. by intros [=]%app_inv_head.
Qed.

Lemma auth_save_rings sid st : good_id sid -> all_rings (auth_save dd sid st).
Proof. intros Hg. eapply all_rings_blind; [exact Hg|apply auth_save_own|apply auth_save_keeps]. Qed.

Lemma load_keyring_rings sid : good_id sid -> all_rings (load_or_create_keyring dd sid).
Proof. intros Hg. eapply all_rings_own; [exact Hg|apply load_keyring_own|apply load_keeps]. Qed.

Lemma rotate_keyring_rings sid : good_id sid -> all_rings (rotate_keyring dd sid).
Proof. intros Hg. eapply all_rings_own; [exact Hg|apply rotate_keyring_own|apply rotate_keeps]. Qed.

Lemma install_keyring_rings sid ks : good_id sid -> all_rings (install_keyring dd sid ks).
Proof. intros Hg. eapply all_rings_own; [exact Hg|apply install_keyring_own|apply install_keeps]. Qed.

Lemma save_pending_rings sid rot : good_id sid -> all_rings (save_pending dd sid rot).
Proof. intros Hg. eapply all_rings_blind; [exact Hg|apply save_pending_own|apply save_pending_keeps]. Qed.

Lemma identity_rings : all_rings (load_or_create (identity_path dd)).
Proof.
  apply (all_rings_outside dd (fun q => q = identity_path dd)).
  - unfold load_or_create. apply touches_bind; [auto with peerdup|]. intros [|].
    + apply touches_bind; [auto with peerdup|]. intros raw. case_decide; auto with peerdup.
    + apply touches_bind; [by apply touches_inert|]. intros k.
      apply touches_bind; [auto with peerdup|]. intros _. apply touches_bind; [auto with peerdup|]. intros _.
      apply touches_bind; auto with peerdup.
  - intros q -> Hp. unfold shares_dir, identity_path in Hp. rewrite !join_plain in Hp by plain_const.
    apply prefix_app_inv in Hp. by apply prefix_cons_inv_1 in Hp.
Qed.

Lemma spawn_rings c : good_id (sc_id c) -> all_rings (spawn_share_task dd c).
Proof.
  intros Hg. unfold spawn_share_task.
  apply all_rings_bind; [by apply all_rings_ctx, load_keyring_rings|]. intros k.
  apply all_rings_bind; [apply all_rings_ctx, all_rings_none, (auth_load_inert dd (sc_id c))|]. intros st.
  apply all_rings_bind; [apply all_rings_attempt, all_rings_none, load_pending_touches|]. intros r.
  apply all_rings_none. auto with peerdup.
Qed.

Lemma state_load_rings sid : all_rings (state_load dd sid).
Proof.
  apply all_rings_none. unfold state_load. apply touches_bind; [auto with peerdup|]. intros [|]; [|done].
  apply touches_bind; [auto with peerdup|]. intros raw. apply touches_bind; auto with peerdup.
Qed.

Lemma config_new_rings topic p role : all_rings (config_new topic p role).
Proof. apply all_rings_none. unfold config_new. apply touches_bind; auto with peerdup. Qed.

Lemma config_new_id topic p role w c w' :
  config_new topic p role w = (Ok c, w') -> sc_id c = id_from_topic topic.
Proof. unfold config_new. intros (now & w1 & _ & Hc)%bind_Ok. by injection Hc as <- _. Qed.

(** *** The service *)

Section service.
Context (identity : bytes) (cwd : outcome path).

Definition devolves_at (X : string -> Prop) (m : shares_map) {A : Type} (f : DM A) : Prop :=
  forall w, evolution dd X (m, w) (snd (f m w)).

Lemma dv_dio_Ok X m {A B : Type} (g : M A) (k : A -> DM B) :
  all_rings g -> (forall w a w', g w = (Ok a, w') -> devolves_at X m (k a)) ->
  devolves_at X m (dbind (dio g) k).
Proof.
  intros Hg Hk w. assert (evolution dd X (m, w) (m, snd (g w))) as He
    by (apply evolution_world; intros id Hid; by apply Hg).
  unfold dbind, dio. destruct (g w) as [[a|e|] w'] eqn:E; [|done..]. etrans; [exact He|]. by eapply Hk.
Qed.

Lemma dv_dio X m {A B : Type} (g : M A) (k : A -> DM B) :
  all_rings g -> (forall a, devolves_at X m (k a)) -> devolves_at X m (dbind (dio g) k).
Proof. intros Hg Hk. apply dv_dio_Ok; [done|]. intros w a w' _. apply Hk. Qed.

Lemma dv_dlift X m {A B : Type} (r : outcome A) (k : A -> DM B) :
  (forall a, r = Ok a -> devolves_at X m (k a)) -> devolves_at X m (dbind (dlift r) k).
Proof. intros Hk w. unfold dbind, dlift. destruct r; [by apply Hk|reflexivity..]. Qed.

Lemma dv_last X m {A B : Type} (f : DM A) (b : B) :
  devolves_at X m f -> devolves_at X m (dbind f (fun _ => dret b)).
Proof. intros Hf w. specialize (Hf w). unfold dbind. by destruct (f m w) as [[a|e|] [m' w']]. Qed.

(** The state after a method does not depend on how its answer is read. *)
Lemma dv_reply X m {A B : Type} (f : DM A) (k : A -> DM B) :
  devolves_at X m f -> (forall a m' w', snd (k a m' w') = (m', w')) -> devolves_at X m (dbind f k).
Proof.
  intros Hf Hk w. specialize (Hf w). unfold dbind. destruct (f m w) as [[a|e|] [m' w']]; [|done..].
  by rewrite Hk.
Qed.

Lemma start_share_devolves X m c :
  good_id (sc_id c) -> good_root dd (sc_root_path c) -> m !! sc_id c = None ->
  devolves_at X m (start_share dd c).
Proof.
  intros Hg Hr Hm w. unfold start_share, dbind, dio, dmod. pose proof (spawn_rings c Hg w) as Hk.
  destruct (spawn_share_task dd c w) as [[t|e|] w'] eqn:E; [|by apply evolution_world..].
  apply evolution_new; [done| |done]. split; [done..|]. by apply spawn_ok in E.
Qed.

Lemma share_add_devolves X m topic p role :
  good_root dd p -> devolves_at X m (share_add dd identity topic p role).
Proof.
  intros Hr. unfold share_add. apply dv_dlift. intros ro _.
  apply dv_dio; [apply all_rings_none; auto with peerdup|]. intros ex.
  destruct (_ && _); [by intros w|]. apply dv_dio_Ok.
  { apply config_new_rings. }
  intros w c w' Hc. unfold config_new in Hc. apply bind_Ok in Hc as (now & w1 & _ & Hc).
  injection Hc as <- _. cbn [sc_id]. cbv zeta. intros w2. rewrite dget_run. revert w2.
  case_decide as Hrun; [by intros w2|]. apply eq_None_not_Some in Hrun.
  change (devolves_at X m (let '(r, auth_state) :=
    create_group identity (group_id_for (id_from_topic topic)) auth_empty in
    dlift r ;^
    dio (config_save {| sc_id := id_from_topic topic; sc_topic := topic; sc_root_path := p;
                        sc_role := ro; sc_created_at := now |} dd) ;^
    dio (auth_save dd (id_from_topic topic) auth_state) ;^
    start_share dd {| sc_id := id_from_topic topic; sc_topic := topic; sc_root_path := p;
                      sc_role := ro; sc_created_at := now |} ;^
    dret (id_from_topic topic))).
  pose proof (topic_id_good topic) as Hg. destruct (create_group _ _ _) as [o st].
  apply dv_dlift. intros op _. apply dv_dio; [by apply config_save_rings|]. intros _.
  apply dv_dio; [by apply auth_save_rings|]. intros _. by apply dv_last, start_share_devolves.
Qed.

Lemma share_join_devolves X m ticket p :
  sane dd cwd (RqJoin ticket p) -> devolves_at X m (share_join dd identity cwd ticket p).
Proof.
  intros (Hid & Habs & Hrel). unfold share_join. apply dv_dlift. intros t Ht. specialize (Hid t Ht).
  assert (forall {B : Type} (k : path -> DM B), (forall q, good_root dd q -> devolves_at X m (k q)) ->
    devolves_at X m (dbind (if is_absolute p then dret (components p) else
      let^ cwd := dlift (rctx "resolving cwd for relative join path" cwd) in dret (join cwd p)) k)) as Hpath.
  { intros B k Hk. destruct (is_absolute p); [by apply Hk, Habs|].
    intros w. destruct cwd as [c|e|]; [by apply Hk, Hrel|reflexivity..]. }
  apply Hpath. intros root Hroot. case_decide; [by intros w|]. intros w. rewrite dget_run. revert w.
  case_decide as Hrun; [by intros w|]. apply eq_None_not_Some in Hrun.
  match goal with |- forall w, evolution _ _ _ (snd (?f _ _)) => change (devolves_at X m f) end.
  apply dv_dio; [apply all_rings_none, load_all_touches|]. intros cs. destruct (configured _ _); [by intros w|].
  apply dv_dio; [apply all_rings_none; auto with peerdup|]. intros _.
  apply dv_dio; [apply all_rings_none; auto with peerdup|]. intros now. cbv zeta.
  apply dv_dio; [by apply config_save_rings|]. intros _.
  apply dv_dio; [by apply install_keyring_rings|]. intros _.
  destruct (apply_log _ _) as [o st]. apply dv_dlift. intros _ _. destruct (negb _); [by intros w|].
  apply dv_dio; [by apply auth_save_rings|]. intros _. by apply dv_last, start_share_devolves.
Qed.

Lemma command_rings config cmd j t w :
  good_id (sc_id config) -> good_id j -> j <> sc_id config ->
  ring_kept dd j w (snd (handle_share_command cmd config dd identity t w)).2.
Proof.
  intros Hc Hj Hne. apply ring_kept_same, command_own. intros Ho.
  apply Hne, (own_disjoint dd _ _ (kfile dd j)); [apply Hj|apply Hc|apply kfile_own|done].
Qed.

Lemma call_share_devolves X m id cmd : devolves_at X m (call_share dd identity id cmd).
Proof.
  intros w. unfold call_share. destruct (m !! id) as [r|] eqn:Hr; [|reflexivity].
  destruct (negb (run_alive r)); [reflexivity|]. cbv zeta.
  pose proof (command_keeps (run_config r) dd identity cmd (run_task r) w) as Hk.
  pose proof (fun j => command_rings (run_config r) cmd j (run_task r) w) as Hj.
  destruct (handle_share_command cmd (run_config r) dd identity (run_task r) w) as [o [t' w']].
  simpl in Hk, Hj.
  assert (forall alive, evolution dd X (m, w) (<[id := with_task r t' alive]> m, w')) as He.
  { intros alive. apply evolution_task; [done|exact Hk|]. intros j Hg _ <- Hgj Hne. by apply Hj. }
  destruct o as [[stop reply]|e|]; apply He.
Qed.

Lemma removable_elsewhere id j ro :
  PEERDUP_DIR_NAME ∉ dd -> good_id id -> good_id j -> j <> id -> ~ removable dd id ro (kfile dd j).
Proof.
  intros Hdd [Hp Hne] [Hj Hjp] Hji [Ho|Hx].
  - apply Hji, (own_disjoint dd _ _ (kfile dd j)); [done|done|apply kfile_own|done].
  - destruct ro as [ro|]; [|done]. destruct Hx as [l Hl]. rewrite join_plain in Hl by plain_const.
    assert (PEERDUP_DIR_NAME ∈ kfile dd j) as Hin by (rewrite Hl; set_solver).
    unfold kfile in Hin. rewrite share_dir_plain in Hin by done. unfold shares_dir in Hin.
    rewrite join_plain in Hin by plain_const. unfold PEERDUP_DIR_NAME in *. set_solver.
Qed.

Lemma share_remove_evolves m id w :
  PEERDUP_DIR_NAME ∉ dd -> good_id id ->
  evolution dd (fun j => (snd (share_remove dd id m w)).1 !! j = None) (m, w) (snd (share_remove dd id m w)).
Proof.
  intros Hdd Hid.
  assert (forall j, good_id j -> j <> id ->
    ring_kept dd j w (snd (share_remove dd id m w)).2) as Hk.
  { intros j Hj Hji. apply ring_kept_same, share_remove_frame. intros ro. by apply removable_elsewhere. }
  revert Hk. unfold share_remove, dbind, dio, dmod. cbn [snd fst].
  pose proof (all_rings_none dd (load_all dd) (load_all_touches dd _) w) as Hl.
  destruct (load_all dd w) as [[cs|e|] w1]; [|intros _; by apply evolution_world..].
  cbv zeta. intros Hk. match goal with |- evolution _ _ _ (snd ?f) =>
    assert (exists w2, snd f = (delete id m, w2)) as [w2 E] end.
  { destruct (share_dir_remove dd id w1) as [[[]|e|] w2]; [|by exists w2..].
    destruct (remove_shadow _ w2) as [o w3]. by exists w3. }
  rewrite E in *. simpl in *. apply evolution_delete; [|apply lookup_delete_eq].
  intros j Hj Hji. by apply Hk.
Qed.

Lemma evolution_mono (X Y : string -> Prop) s s' :
  (forall j, X j -> Y j) -> evolution dd X s s' -> evolution dd Y s s'.
Proof.
  intros HXY He Hs. destruct (He Hs) as [Hs' Hg]. split; [done|]. intros j r Hr HY. apply Hg; auto.
Qed.

Lemma request_evolves rq m w :
  PEERDUP_DIR_NAME ∉ dd -> sane dd cwd rq ->
  let s' := snd (serve_request dd identity cwd rq m w) in
  evolution dd (fun j => s'.1 !! j = None) (m, w) s'.
Proof.
  intros Hdd Hsane. cbv zeta.
  assert ((exists id, rq = RqRemove id) \/
    devolves_at (fun _ => False) m (serve_request dd identity cwd rq)) as [[id ->]|Hd].
  2: { by apply share_remove_evolves. }
  2: { by eapply evolution_mono, Hd. }
  destruct rq; cbn [serve_request]; unfold quietly; try (right; apply dv_last).
  - by intros w'.
  - apply dv_dio; [apply all_rings_none, load_all_touches|]. by intros cs w'.
  - by apply share_add_devolves.
  - by apply share_join_devolves.
  - unfold share_invite. apply dv_dlift. intros ro _. apply dv_dlift. intros ar _.
    apply dv_dlift. intros mem _. apply dv_reply; [apply call_share_devolves|]. by intros [] ? ?.
  - unfold share_revoke. apply dv_dlift. intros mem _.
    apply dv_reply; [apply call_share_devolves|]. by intros [] ? ?.
  - apply dv_reply; [apply call_share_devolves|]. by intros [] ? ?.
  - unfold share_peers. apply dv_dio; [apply all_rings_none, load_all_touches|]. intros cs.
    destruct (negb _); [by intros w'|]. apply dv_dio; [apply state_load_rings|by intros [st|] w'].
  - apply dv_reply; [apply call_share_devolves|]. by intros [] ? ?.
  - left. by exists id.
Qed.
End service.
End requests.

(** ** Lemmas: the loops *)

Section loops.
Context `{MD : Metadata, ReadDir, Entropy, WallClock, Blake3, Aead, Ed25519, !CryptoBox, Base64, Chrono}.
Context `{!Bincode rotation_tuple, !BincodeTotal rotation_tuple, !Bincode SignedRotation}.
Context `{!Bincode canonical_tuple, !BincodeTotal canonical_tuple, !GroupCrdt}.
Context `{!Bincode SignedOp, !Bincode (list SignedOp), !Bincode Ticket, !Json ShareMsg, !Json ShareConfig}.
Context `{!Json PersistedState, Torrents, SocketAddrs, Services, !TorrentFolders}.
Context `{!KeysSighted}.
Context (dd : path) (identity : bytes) (port : Z) (config : ShareConfig).

Abbreviation keeps := (keeps dd (sc_id config)).
Abbreviation within := (writes (task_file config dd)).
Abbreviation root := (sc_root_path config).
Context (Hroot : ~ root `prefix_of` kfile dd (sc_id config)).

Lemma loop_begin_keeps : keeps (loop_begin config dd identity port).
Proof.
  unfold loop_begin. destruct (sc_role config).
  - apply keeps_sbind; [apply seed_start_keeps|]. intros b. apply keeps_sret.
  - apply keeps_sbind; [by apply leech_start_keeps|]. intros s. apply keeps_sret.
  - apply keeps_sbind; [by apply sync_start_keeps|]. intros s. apply keeps_sret.
Qed.

Lemma loop_begin_within : within (loop_begin config dd identity port).
Proof.
  unfold loop_begin. destruct (sc_role config).
  - apply writes_sbind; [apply seed_start_within|]. auto with peerdup.
  - apply writes_sbind; [apply leech_start_within|]. auto with peerdup.
  - apply writes_sbind; [apply sync_start_within|]. auto with peerdup.
Qed.

Lemma loop_begin_ok t w l b tw r :
  loop_begin config dd identity port t w = (Ok (l, b), tw) -> run_config r = config -> loop_ok r l.
Proof.
  unfold loop_begin. intros Hb <-. destruct (sc_role (run_config r)) eqn:Er; unfold sbind, sret in Hb.
  - destruct (seed_start _ _ _ _) as [[x|e|] [t1 w1]]; by simplify_eq/=.
  - destruct (leech_start _ _ _) as [[x|e|] [t1 w1]] eqn:E; simplify_eq/=.
    split; [done|]. by eapply leech_start_root.
  - destruct (sync_start _ _ _ _ _ _) as [[x|e|] [t1 w1]] eqn:E; simplify_eq/=.
    split; [done|]. by eapply sync_start_root.
Qed.

Lemma loop_turn_keeps r l evc :
  run_config r = config -> loop_ok r l -> keeps (loop_turn config dd identity port l evc).
Proof.
  intros <- Hl. destruct l as [b|p c|p st]; simpl in *.
  - apply keeps_sbind; [apply seed_turn_keeps|]. intros s. apply keeps_sret.
  - destruct Hl as [_ ->]. apply keeps_sbind; [by apply leech_turn_keeps|]. intros s. apply keeps_sret.
  - destruct Hl as [_ ->]. apply keeps_sbind; [by apply sync_turn_keeps|]. intros s. apply keeps_sret.
Qed.

Lemma loop_turn_within r l evc :
  run_config r = config -> loop_ok r l -> within (loop_turn config dd identity port l evc).
Proof.
  intros <- Hl. destruct l as [b|p c|p st]; simpl in *.
  - apply writes_sbind; [apply seed_turn_within|]. intros s. apply writes_sret.
  - destruct Hl as [_ ->]. apply writes_sbind; [by apply leech_turn_within|]. intros s. apply writes_sret.
  - destruct Hl as [_ ->]. apply writes_sbind; [by apply sync_turn_within|]. intros s. apply writes_sret.
Qed.

Lemma loop_turn_ok r l evc t w l' tn tw :
  loop_turn config dd identity port l evc t w = (Ok (l', tn), tw) -> loop_ok r l -> loop_ok r l'.
Proof.
  intros Ht Hl. destruct l as [b|p c|p st]; simpl in *; unfold sbind, sret in Ht.
  - destruct (seed_turn _ _ _ _ _ _ _ _) as [[x|e|] [t1 w1]]; by simplify_eq/=.
  - destruct (leech_turn _ _ _ _ _ _ _ _) as [[x|e|] [t1 w1]]; by simplify_eq/=.
  - destruct (sync_turn _ _ _ _ _ _ _ _ _) as [[x|e|] [t1 w1]]; by simplify_eq/=.
Qed.
End loops.

(** ** Lemmas: the direct commands *)

Section direct.
Context `{MD : Metadata, ReadDir, Entropy, WallClock, Blake3, Ed25519, !CryptoBox, Base64, Chrono}.
Context `{!Bincode rotation_tuple, !BincodeTotal rotation_tuple, !Bincode SignedRotation}.
Context `{!Bincode canonical_tuple, !BincodeTotal canonical_tuple, !GroupCrdt}.
Context `{!Bincode SignedOp, !Bincode (list SignedOp), !Bincode Ticket, !Json ShareConfig}.
Context `{!Json PersistedState}.
Context `{!KeysSighted}.
Context (dd : path).

Abbreviation all_rings := (all_rings dd).

Lemma load_all_rings : all_rings (load_all dd).
Proof. apply all_rings_none, load_all_touches. Qed.

Lemma auth_load_rings sid : all_rings (auth_load dd sid).
Proof. apply all_rings_none, (auth_load_inert dd sid). Qed.

Lemma lift_rings {A : Type} (r : outcome A) : all_rings (lift r).
Proof. apply all_rings_none. auto with peerdup. Qed.

Lemma ret_rings {A : Type} (a : A) : all_rings (ret a).
Proof. apply all_rings_none. auto with peerdup. Qed.

Lemma exists_rings p : all_rings (fs_exists p).
Proof. apply all_rings_none. auto with peerdup. Qed.

Lemma utc_now_rings : all_rings utc_now.
Proof. apply all_rings_none. auto with peerdup. Qed.

Lemma build_rings sk ep k rs : all_rings (build_signed_rotation sk ep k rs).
Proof. apply all_rings_none, build_inert. Qed.

Lemma fail_rings {A : Type} e : all_rings (fail (A := A) e).
Proof. apply all_rings_none. auto with peerdup. Qed.

Lemma absolute_rings cur p : all_rings (absolute cur p).
Proof. apply all_rings_none. unfold absolute. destruct (is_absolute p); [done|]. apply touches_bind; auto with peerdup. Qed.

Lemma mkdir_rings p : all_rings (fs_create_dir_all p).
Proof. apply all_rings_none. auto with peerdup. Qed.

#[local] Hint Resolve load_all_rings auth_load_rings lift_rings ret_rings fail_rings absolute_rings
  mkdir_rings exists_rings utc_now_rings build_rings state_load_rings topic_id_good : peerdup.
#[local] Hint Resolve identity_rings config_save_rings auth_save_rings load_keyring_rings
  rotate_keyring_rings install_keyring_rings save_pending_rings all_rings_attempt : peerdup.

(** A computation made of operations that keep the rings. *)
Ltac rings :=
  repeat first
    [ solve [auto with peerdup]
    | apply all_rings_bind
    | match goal with |- forall _, _ => intros ? end
    | match goal with
      | |- all_rings (if ?b then _ else _) => destruct b
      | |- all_rings (match ?r with Some _ => _ | None => _ end) => destruct r
      | |- all_rings (let '(_, _) := ?r in _) => destruct r
      end ].

Lemma own_key_rings : all_rings (own_key dd).
Proof. unfold own_key. rings. Qed.
#[local] Hint Resolve own_key_rings : peerdup.

Lemma whoami_direct_rings : all_rings (cmd_whoami_direct dd).
Proof. unfold cmd_whoami_direct. rings. Qed.

Lemma list_direct_rings : all_rings (cmd_share_list_direct dd).
Proof. unfold cmd_share_list_direct. rings. Qed.

Lemma add_direct_rings cur topic p role : all_rings (cmd_share_add_direct dd cur topic p role).
Proof.
  unfold cmd_share_add_direct. apply all_rings_bind; [auto with peerdup|]. intros q.
  apply all_rings_bind; [auto with peerdup|]. intros ex. destruct (_ && _); [auto with peerdup|].
  apply all_rings_bind_Ok; [apply config_new_rings|]. intros w c w' Hc%config_new_id.
  assert (good_id (sc_id c)) by (rewrite Hc; apply topic_id_good). rings.
Qed.

Lemma members_direct_rings id : all_rings (cmd_share_members_direct dd id).
Proof. unfold cmd_share_members_direct. rings. Qed.

Lemma peers_direct_rings id : all_rings (cmd_share_peers_direct dd id).
Proof. unfold cmd_share_peers_direct. rings. Qed.

Lemma rotate_direct_rings id : good_id id -> all_rings (cmd_share_rotate_key_direct dd id).
Proof. intros Hid. unfold cmd_share_rotate_key_direct. rings. Qed.

Lemma invite_direct_rings id hex sr ar : good_id id -> all_rings (cmd_share_invite_direct dd id hex sr ar).
Proof. intros Hid. unfold cmd_share_invite_direct. rings. Qed.

Lemma revoke_direct_rings id hex : good_id id -> all_rings (cmd_share_revoke_direct dd id hex).
Proof. intros Hid. unfold cmd_share_revoke_direct. rings. Qed.

Lemma join_direct_rings cur ticket p :
  (forall t, decode ticket = Ok t -> good_id (share_id t)) -> all_rings (cmd_share_join_direct dd cur ticket p).
Proof.
  intros Hid. unfold cmd_share_join_direct. apply all_rings_bind_Ok; [auto with peerdup|].
  intros w t w' [Ht _]%lift_Ok. specialize (Hid t Ht). rings.
Qed.

(** On the disk the direct [remove] does what the method of the service does. *)
Lemma remove_direct_world id m w : snd (cmd_share_remove_direct dd id w) = (snd (share_remove dd id m w)).2.
Proof.
  unfold cmd_share_remove_direct, share_remove, dbind, dio, dmod, bind. cbn [snd fst].
  destruct (load_all dd w) as [[cs|e|] w1]; [|done..]. cbv zeta.
  destruct (share_dir_remove dd id w1) as [[[]|e|] w2]; [|done..].
  by destruct (remove_shadow _ w2).
Qed.

Lemma direct_kept m cur c w j :
  PEERDUP_DIR_NAME ∉ dd -> direct_sane m c -> is_Some (m !! j) -> good_id j ->
  ring_kept dd j w (run_direct dd cur c w).
Proof.
  intros Hdd Hc [r Hr] Hj. destruct c; cbn [run_direct direct_sane] in *.
  - by apply whoami_direct_rings.
  - by apply list_direct_rings.
  - by apply add_direct_rings.
  - by apply join_direct_rings.
  - by apply invite_direct_rings.
  - by apply revoke_direct_rings.
  - by apply members_direct_rings.
  - by apply peers_direct_rings.
  - by apply rotate_direct_rings.
  - destruct Hc as [Hid Hm]. apply ring_kept_same. rewrite (remove_direct_world id ∅).
    apply share_remove_frame. intros ro. apply removable_elsewhere; [done..|]. congruence.
Qed.
End direct.

(** ** Lemmas: the steps *)

Section steps.
Context `{MD : Metadata, ReadDir, Entropy, WallClock, Blake3, Aead, Ed25519, !CryptoBox, Base64, Chrono}.
Context `{!Bincode rotation_tuple, !BincodeTotal rotation_tuple, !Bincode SignedRotation}.
Context `{!Bincode canonical_tuple, !BincodeTotal canonical_tuple, !GroupCrdt}.
Context `{!Bincode SignedOp, !Bincode (list SignedOp), !Bincode Ticket, !Json ShareMsg, !Json ShareConfig}.
Context `{!Json PersistedState, Torrents, SocketAddrs, Services, !TorrentFolders}.
Context `{!KeysSighted}.
Context (dd : path) (identity : bytes) (port : Z) (cwd : outcome path).

Abbreviation step := (host_step dd identity port cwd).
Abbreviation ok := (host_ok dd).

(** A computation of one share's task leaves the rings of the others. *)
Lemma within_rings {A : Type} (m : SM A) r t w j :
  writes (task_file (run_config r) dd) m -> good_id (sc_id (run_config r)) ->
  good_root dd (sc_root_path (run_config r)) -> good_id j -> j <> sc_id (run_config r) ->
  ring_kept dd j w (snd (m t w)).2.
Proof.
  intros Hm Hc Hr Hj Hne. apply ring_kept_same, Hm.
  apply (task_file_elsewhere dd _ j); [apply Hc|done|apply Hj|done|apply kfile_own].
Qed.

Lemma share_ok_kfile id r w :
  share_ok dd id r w -> ~ sc_root_path (run_config r) `prefix_of` kfile dd (sc_id (run_config r)).
Proof. intros [-> [Hp _] Hr _]. by apply good_root_kfile. Qed.

(** One share's task moves, in its loop or into it. *)
Lemma task_step {A : Type} X (f : SM A) m w id r alive :
  m !! id = Some r -> sc_id (run_config r) = id -> keeps dd id f ->
  writes (task_file (run_config r) dd) f ->
  let s' := snd (f (run_task r) w) in
  evolution dd X (m, w) (<[id := with_task r s'.1 alive]> m, s'.2).
Proof.
  cbv zeta. intros Hr Hid Hk Hw. apply (evolution_task dd X m w _ id r); [done| |].
  - rewrite Hid, <- surjective_pairing. apply Hk.
  - intros j Hg Hroot _ Hj Hne. apply (within_rings f r); [done|by rewrite Hid|done|done|by rewrite Hid].
Qed.

Lemma step_evolves h h' :
  PEERDUP_DIR_NAME ∉ dd -> ok h -> step h h' ->
  evolution dd (fun id => h_shares h' !! id = None) (h_shares h, h_world h) (h_shares h', h_world h').
Proof.
  intros Hdd [Hs Hl] Hst. destruct Hst as [id r o t' w' Hr Ha Hn Hb|id r l evc o t' w' Hr Hlo Ht
    |rq o m' w' Hsane Htg Hrq|cur c Hc|w' Hw].
  - pose proof (so_id _ _ _ _ (Hs id r Hr)) as Hid. pose proof (share_ok_kfile _ _ _ (Hs id r Hr)) as Hk.
    assert (forall X alive, evolution dd X (h_shares h, h_world h) (<[id := with_task r t' alive]> (h_shares h), w'))
      as He.
    { intros X alive. pose proof (task_step X (loop_begin (run_config r) dd identity port)
        (h_shares h) (h_world h) id r alive Hr Hid) as He. rewrite Hb in He. apply He.
      - rewrite <- Hid. by apply loop_begin_keeps.
      - apply loop_begin_within. }
    destruct o as [[l b]|e|]; apply He.
  - pose proof (so_id _ _ _ _ (Hs id r Hr)) as Hid. pose proof (share_ok_kfile _ _ _ (Hs id r Hr)) as Hk.
    destruct (Hl id l Hlo) as (r' & Hr' & _ & Hok). rewrite Hr in Hr'. injection Hr' as <-.
    assert (forall X alive, evolution dd X (h_shares h, h_world h) (<[id := with_task r t' alive]> (h_shares h), w'))
      as He.
    { intros X alive. pose proof (task_step X (loop_turn (run_config r) dd identity port l evc)
        (h_shares h) (h_world h) id r alive Hr Hid) as He. rewrite Ht in He. apply He.
      - rewrite <- Hid. eapply loop_turn_keeps; done.
      - apply loop_turn_within with (r := r); done. }
    destruct o as [[l' tn]|e|]; [destruct (tn_stop tn)|..]; apply He.
  - pose proof (request_evolves dd identity cwd rq (h_shares h) (h_world h) Hdd Hsane) as He.
    by rewrite Hrq in He.
  - apply evolution_running. intros j Hj Hg. by apply (direct_kept dd (h_shares h)).
  - apply evolution_world. intros j Hj. apply ring_kept_same, Hw, (own_shares dd j); [apply Hj|apply kfile_own].
Qed.

Lemma loop_ok_config r r' l : run_config r' = run_config r -> loop_ok r l -> loop_ok r' l.
Proof. intros E. unfold loop_ok. by rewrite E. Qed.

(** The loops after the task of [id] moved. *)
Lemma loops_insert (m : gmap string Running) (ls : gmap string LoopState) id r t l :
  m !! id = Some r -> loop_ok r l ->
  (forall j k, ls !! j = Some k -> exists r, m !! j = Some r /\ run_alive r = true /\ loop_ok r k) ->
  forall j k, <[id := l]> ls !! j = Some k ->
  exists r', <[id := with_task r t true]> m !! j = Some r' /\ run_alive r' = true /\ loop_ok r' k.
Proof.
  intros Hr Hl Hls j k [[<- <-]|[Hne Hj]]%lookup_insert_Some.
  - exists (with_task r t true). by rewrite lookup_insert_eq.
  - rewrite lookup_insert_ne by done. by apply Hls.
Qed.

Lemma loops_delete (m : gmap string Running) (ls : gmap string LoopState) id r :
  (forall j k, ls !! j = Some k -> exists r, m !! j = Some r /\ run_alive r = true /\ loop_ok r k) ->
  forall j k, delete id ls !! j = Some k ->
  exists r', <[id := r]> m !! j = Some r' /\ run_alive r' = true /\ loop_ok r' k.
Proof.
  intros Hls j k [Hne Hj]%lookup_delete_Some. rewrite lookup_insert_ne by done. by apply Hls.
Qed.

Lemma step_ok h h' : PEERDUP_DIR_NAME ∉ dd -> ok h -> step h h' -> ok h'.
Proof.
  intros Hdd Hok Hst. pose proof (step_evolves h h' Hdd Hok Hst) as He.
  destruct Hok as [Hs Hl]. destruct (He Hs) as [Hs' Hg]. split; [exact Hs'|]. clear He. simpl in Hg.
  destruct Hst as [id r o t' w' Hr Ha Hn Hb|id r l evc o t' w' Hr Hlo Ht
    |rq o m' w' Hsane Htg Hrq|cur c Hc|w' Hw]; cbn [h_shares h_loops h_world] in *.
  - destruct o as [[l b]|e|].
    + apply loops_insert; [done| |done]. eapply loop_begin_ok; [exact (share_ok_kfile _ _ _ (Hs id r Hr))|done..].
    + rewrite <- (delete_id (h_loops h) id Hn). by apply loops_delete.
    + rewrite <- (delete_id (h_loops h) id Hn). by apply loops_delete.
  - destruct (Hl id l Hlo) as (r' & Hr' & _ & Hok). rewrite Hr in Hr'. injection Hr' as <-.
    destruct o as [[l' tn]|e|]; [destruct (tn_stop tn)|..]; try by apply loops_delete.
    apply loops_insert; [done| |done]. by eapply loop_turn_ok.
  - intros id l [Hi Ha]%map_lookup_filter_Some. cbn [fst] in Ha.
    destruct (Hl id l Hi) as (r & Hr & _ & Hok).
    destruct (Hg id r Hr) as (r' & Hr' & Hc & _); [by intros E; cbn [fst h_shares] in E; rewrite E in Ha|].
    exists r'. split; [done|]. rewrite Hr' in Ha. split; [by injection Ha|by eapply loop_ok_config].
  - exact Hl.
  - exact Hl.
Qed.

Lemma spawn_all_shares configs m0 w0 m w :
  Forall (fun c => good_id (sc_id c) /\ good_root dd (sc_root_path c)) configs ->
  shares_ok dd (h_shares (host_start m0 w0)) w0 ->
  spawn_all dd configs m0 w0 = (Ok m, w) -> shares_ok dd (h_shares (host_start m w)) w.
Proof.
  intros Hcs. revert m0 w0. induction Hcs as [|c configs [Hg Hr] _ IH]; intros m0 w0 Hm0; cbn [spawn_all].
  { by intros [= <- <-]. }
  intros (o & w1 & Ho & Hs)%bind_Ok. apply attempt_Ok in Ho as [Ho _].
  pose proof (spawn_rings dd c Hg w0) as Hk. rewrite Ho in Hk. cbn [snd] in Hk.
  destruct (evolution_world dd (fun _ => False) _ _ _ Hk Hm0) as [Hm1 _].
  destruct o as [t|e|]; (eapply IH; [|exact Hs]); [|done..].
  intros id r. cbn [host_start h_shares]. rewrite fmap_insert.
  intros [[<- <-]|[_ Hid]]%lookup_insert_Some; [|by apply Hm1].
  split; [done..|]. by eapply spawn_ok.
Qed.

Lemma start_ok configs w0 m w :
  Forall (fun c => good_id (sc_id c) /\ good_root dd (sc_root_path c)) configs ->
  spawn_all dd configs ∅ w0 = (Ok m, w) -> ok (host_start m w).
Proof.
  intros Hcs Hm. split; [|done]. eapply spawn_all_shares; [exact Hcs| |exact Hm].
  intros id r Hr. cbn [host_start h_shares] in Hr. by rewrite fmap_empty in Hr.
Qed.

Lemma reachable_ok h : PEERDUP_DIR_NAME ∉ dd -> host_reachable dd identity port cwd h -> ok h.
Proof.
  intros Hdd (configs & w0 & m & w & Hcs & Hm & Hrun).
  pose proof (start_ok configs w0 m w Hcs Hm) as Hok. revert Hok. induction Hrun; [done|].
  intros Hok. by eapply IHHrun, step_ok.
Qed.
(** A loop inside a loop on larger states. *)
Lemma run_loop_wrap {St St' Ev Ev' : Type} (f : St -> St') (g : Ev' -> Ev)
    (turn : St -> Ev -> SM (St * Turn)) (turn' : St' -> Ev' -> SM (St' * Turn)) :
  (forall st e t w, turn' (f st) e t w = (let* r := turn st (g e) in sret (f r.1, r.2)) t w) ->
  forall evs st t w,
    run_loop turn' (f st) evs t w = (let* r := run_loop turn st (g <$> evs) in sret (f r.1, r.2)) t w.
Proof.
  intros Hf evs. induction evs as [|e evs IH]; intros st t w; [done|].
  cbn [run_loop fmap list_fmap]. unfold sbind at 1. rewrite Hf. unfold sbind, sret.
  destruct (turn st (g e) t w) as [[[st1 tn]|er|] [t1 w1]]; [|done..]. cbn [fst snd].
  destruct (tn_stop tn); [done|]. rewrite IH. unfold sbind, sret.
  by destruct (run_loop turn st1 (g <$> evs) t1 w1) as [[[st2 l]|er|] [t2 w2]].
Qed.

End steps.

(** ** Properties *)

Section properties.
Context `{MD : Metadata, ReadDir, Entropy, WallClock, Blake3, Aead, Ed25519, !CryptoBox, Base64, Chrono}.
Context `{!Bincode rotation_tuple, !BincodeTotal rotation_tuple, !Bincode SignedRotation}.
Context `{!Bincode canonical_tuple, !BincodeTotal canonical_tuple, !GroupCrdt}.
Context `{!Bincode SignedOp, !Bincode (list SignedOp), !Bincode Ticket, !Json ShareMsg, !Json ShareConfig}.
Context `{!Json PersistedState, Torrents, SocketAddrs, Services, !TorrentFolders}.
Context `{!KeysSighted}.

(** C12. The invariant of the daemon: whatever its tasks, its callers, the direct
    commands and the users do, in any order and under any faults, every share
    it runs is registered under its own id, has a well-formed log, a bounded
    buffer, and keys that are all on the disk; and the loops that have begun
    are the ones of running tasks, on the directories of their shares.
    ([KeysSighted]: the metadata of [keys.bin] can be read.) *)
Theorem daemon_invariant (dd : path) (identity : bytes) (port : Z) (cwd : outcome path) (h : host)
    (Hdd : PEERDUP_DIR_NAME ∉ dd) (Hh : host_reachable dd identity port cwd h) :
  (forall id r, h_shares h !! id = Some r ->
     sc_id (run_config r) = id /\ task_ok dd id (run_task r, h_world h)) /\
  (forall id l, h_loops h !! id = Some l ->
     exists r, h_shares h !! id = Some r /\ run_alive r = true /\ loop_ok r l).
Proof.
  destruct (reachable_ok dd identity port cwd h Hdd Hh) as [Hs Hl]. split; [|done].
  intros id r Hr. destruct (Hs id r Hr). done.
Qed.

(** C2. As long as a share is not removed nothing that its task knows is lost, and
    no key on the disk: in any history of the daemon that keeps the share, its
    configuration stays, and its log, its queue of rotations and its keyring
    in memory, and the keyring on the disk, only grow, whatever the other
    shares and processes do.  (The log on the disk is not covered: see
    [Cli.direct_revoke_lost].  The requests and direct commands are [sane] and
    [direct_sane]; [KeysSighted]: the metadata of [keys.bin] can be read.) *)
Theorem daemon_loses_nothing (dd : path) (identity : bytes) (port : Z) (cwd : outcome path)
    (h h' : host) (id : string) (r : Running)
    (Hdd : PEERDUP_DIR_NAME ∉ dd) (Hh : host_reachable dd identity port cwd h)
    (Hr : h_shares h !! id = Some r)
    (Hrun : rtc (fun a b => host_step dd identity port cwd a b /\ is_Some (h_shares b !! id)) h h') :
  exists r', h_shares h' !! id = Some r' /\ run_config r' = run_config r /\
    grows dd id (run_task r, h_world h) (run_task r', h_world h').
Proof.
  apply (reachable_ok dd identity port cwd h Hdd) in Hh. revert r Hr Hh.
  induction Hrun as [h|a b c [Hst [rb Hb]] _ IH]; intros r Hr Hok.
  { exists r. split; [done|]. split; [done|reflexivity]. }
  destruct (step_evolves dd identity port cwd a b Hdd Hok Hst (ho_shares _ _ Hok)) as [_ Hg].
  destruct (Hg id r Hr) as (r1 & Hr1 & Hc1 & Hg1); [simpl; congruence|].
  destruct (IH r1 Hr1 (step_ok dd identity port cwd a b Hdd Hok Hst)) as (r2 & Hr2 & Hc2 & Hg2).
  exists r2. split; [done|]. split; [congruence|by etrans].
Qed.

(** C4. The tasks do not disturb each other: at the start of its loop and in
    every turn, whatever the event, the outcome and the faults, a task writes
    only files in its share's own directory, files below the root of its share
    and one file beside that root (the temporary file of [decrypt_file]).  In
    particular it writes no file in the directory of another share below
    [shares/], and, but for that one file, none below the root of another
    share when neither root is inside the other. *)
Theorem task_isolated (dd : path) (identity : bytes) (port : Z) (cwd : outcome path)
    (h : host) (id : string) (r : Running)
    (Hdd : PEERDUP_DIR_NAME ∉ dd) (Hh : host_reachable dd identity port cwd h)
    (Hr : h_shares h !! id = Some r) :
  let same q w' := file_at (w_fs w') q = file_at (w_fs (h_world h)) q in
  let begun := snd (loop_begin (run_config r) dd identity port (run_task r) (h_world h)) in
  let turned l evc := snd (loop_turn (run_config r) dd identity port l evc (run_task r) (h_world h)) in
  let untouched q := same q begun.2 /\
    forall l evc, h_loops h !! id = Some l -> same q (turned l evc).2 in
  let root := sc_root_path (run_config r) in
  (forall q, ~ share_dir dd id `prefix_of` q -> ~ root `prefix_of` q -> q <> beside root -> untouched q) /\
  forall j r' q, h_shares h !! j = Some r' -> j <> id ->
    let root' := sc_root_path (run_config r') in
    (share_dir dd j `prefix_of` q -> untouched q) /\
    (~ root `prefix_of` root' -> ~ root' `prefix_of` root ->
     root' `prefix_of` q -> q <> beside root -> untouched q).
Proof.
  cbv zeta. destruct (reachable_ok dd identity port cwd h Hdd Hh) as [Hs Hl].
  pose proof (share_ok_kfile dd _ _ _ (Hs id r Hr)) as Hk.
  destruct (Hs id r Hr) as [Hid [Hg _] Hroot _].
  assert (forall q, ~ task_file (run_config r) dd q ->
    file_at (w_fs (snd (loop_begin (run_config r) dd identity port (run_task r) (h_world h))).2) q =
      file_at (w_fs (h_world h)) q /\
    forall l evc, h_loops h !! id = Some l ->
      file_at (w_fs (snd (loop_turn (run_config r) dd identity port l evc (run_task r) (h_world h))).2) q =
        file_at (w_fs (h_world h)) q) as Hout.
  { intros q Hq. split; [by apply loop_begin_within|]. intros l evc Hlo.
    destruct (Hl id l Hlo) as (r' & Hr' & _ & Hok). rewrite Hr in Hr'. injection Hr' as <-.
    by apply (loop_turn_within dd identity port (run_config r) Hk r l evc eq_refl Hok). }
  split.
  - intros q H1' H2' H3'. apply Hout. unfold task_file, own. rewrite Hid. tauto.
  - intros j r' q Hj Hne. destruct (Hs j r' Hj) as [_ [Hgj _] Hroot' _]. split; [intros Hq|intros Hn Hn' Hq Hb];
      apply Hout.
    + apply (task_file_elsewhere dd _ j); [by rewrite Hid|done|done|by rewrite Hid|done].
    + rewrite <- Hid in Hg. intros [Ho|[Hq'|?]]; [|by destruct (prefix_weak_total _ _ _ Hq Hq')|done].
      by apply (proj1 (good_root_outside dd _ q Hroot' (own_shares dd _ q Hg Ho))).
Qed.

(** The steps of the daemon are the program's: a task that is begun and then
    takes turn after turn until one ends it does what [run_share] does. *)
Lemma run_share_turns (config : ShareConfig) (dd : path) (identity : bytes) (port : Z)
    (evs : list (Event * bool)) (t : ShareTask) (w : world) :
  run_share config dd identity port evs t w =
  (let* s := loop_begin config dd identity port in
   let* r := run_loop (loop_turn config dd identity port) s.1 evs in
   sret (match s.1 with LSeed _ => [] | _ => [says s.2] end ++ r.2)) t w.
Proof.
  unfold run_share, loop_begin, seed_loop, leech_loop, sync_loop.
  destruct (sc_role config); unfold sbind at 1 3 4, sret at 2.
  - destruct (seed_start _ _ _ _) as [[b|e|] [t1 w1]]; [|done..]. cbn [fst snd].
    unfold sbind. rewrite (run_loop_wrap (fun _ => LSeed b) fst (seed_turn config dd identity b)
      (loop_turn config dd identity port) ltac:(by intros [] ? ? ?) evs tt).
    unfold sbind, sret. by destruct (run_loop _ _ _ _ _) as [[[[] l]|e|] [t2 w2]].
  - destruct (leech_start _ _ _) as [[s|e|] [t1 w1]]; [|done..]. cbn [fst snd].
    unfold sbind. rewrite (run_loop_wrap (LLeech s.1) id (leech_turn config dd identity s.1)
      (loop_turn config dd identity port) ltac:(done) evs false).
    rewrite list_fmap_id. unfold sbind, sret. by destruct (run_loop _ _ _ _ _) as [[[? l]|e|] [t2 w2]].
  - destruct (sync_start _ _ _ _ _ _) as [[s|e|] [t1 w1]]; [|done..]. cbn [fst snd].
    unfold sbind. rewrite (run_loop_wrap (LSync s.1.1) fst (sync_turn config dd identity port s.1.1)
      (loop_turn config dd identity port) ltac:(done) evs s.1.2).
    unfold sbind, sret. by destruct (run_loop _ _ _ _ _) as [[[? l]|e|] [t2 w2]].
Qed.
End properties.

(** ** Witnesses *)

Section witnesses.
#[local] Existing Instance toy_metadata.
#[local] Existing Instance toy_sighted.
#[local] Existing Instance toy_entropy.
#[local] Existing Instance toy_blake3.
#[local] Existing Instance toy_aead.
#[local] Existing Instance toy_ed25519.
#[local] Existing Instance toy_box.
#[local] Existing Instance toy_base64.
#[local] Existing Instance toy_read_dir.
#[local] Existing Instance toy_clock.
#[local] Existing Instance toy_chrono.
#[local] Existing Instance toy_state.
#[local] Existing Instance toy_addrs.
#[local] Existing Instance toy_rotation_tuple.
#[local] Existing Instance toy_rotation_total.
#[local] Existing Instance toy_rotation.
#[local] Existing Instance toy_canonical.
#[local] Existing Instance toy_canonical_total.
#[local] Existing Instance toy_group.
#[local] Existing Instance toy_op.
#[local] Existing Instance toy_ops.
#[local] Existing Instance toy_ticket.
#[local] Existing Instance toy_msg.
#[local] Existing Instance toy_config.
#[local] Existing Instance idle_torrents.
#[local] Existing Instance idle_folders.
#[local] Existing Instance toy_services.

Definition wh_cwd : outcome path := Ok [].
Abbreviation wh_step := (host_step wd_dd wa_alice 4240 wh_cwd).
Abbreviation wh_reachable := (host_reachable wd_dd wa_alice 4240 wh_cwd).

(** Alice's daemon has spawned her share; then its key is rotated behind the
    daemon's back. *)
Definition wh_rotated (h : host) : host :=
  {| h_shares := h_shares h; h_loops := h_loops h;
     h_world := run_direct wd_dd wh_cwd (DRotateKey "share") (h_world h) |}.

Lemma wh_good : good_id "share".
Proof. split; [plain_const|discriminate]. Qed.

Lemma wh_root : good_root wd_dd (sc_root_path wl_cfg).
Proof. split; intros [l Hl]; discriminate Hl. Qed.

Lemma wh_dir : PEERDUP_DIR_NAME ∉ wd_dd.
Proof. apply (bool_decide_eq_true (PEERDUP_DIR_NAME ∉ wd_dd)). vm_compute. reflexivity. Qed.

Lemma wh_spawns : exists m w r, spawn_all wd_dd [wl_cfg] ∅ wl_world = (Ok m, w) /\
  h_shares (host_start m w) !! "share" = Some r /\ run_config r = wl_cfg.
Proof.
  pose proof wl_spawns as Hs. cbn [spawn_all]. unfold bind, attempt.
  destruct (spawn_share_task wd_dd wl_cfg wl_world) as [[t|e|] w]; cbn [fst] in Hs; [|discriminate Hs..].
  exists (<[sc_id wl_cfg := (wl_cfg, t)]> ∅), w, {| run_config := wl_cfg; run_task := t; run_alive := true |}.
  split; [reflexivity|]. split; [|reflexivity]. cbn [host_start h_shares].
  rewrite fmap_insert. apply lookup_insert_eq.
Qed.

Lemma wh_start m w : spawn_all wd_dd [wl_cfg] ∅ wl_world = (Ok m, w) -> wh_reachable (host_start m w).
Proof.
  intros Hm. exists [wl_cfg], wl_world, m, w.
  split; [constructor; [split; [exact wh_good|exact wh_root]|constructor]|]. split; [exact Hm|constructor].
Qed.

Lemma wh_steps h : wh_step h (wh_rotated h).
Proof. apply (host_direct wd_dd wa_alice 4240 wh_cwd h wh_cwd (DRotateKey "share")). exact wh_good. Qed.

Lemma daemon_invariant_witness :
  exists h r, wh_reachable h /\ h_shares h !! "share" = Some r /\
    task_ok wd_dd "share" (run_task r, h_world h).
Proof.
  destruct wh_spawns as (m & w & r & Hm & Hr & _). exists (host_start m w), r.
  split; [exact (wh_start m w Hm)|]. split; [exact Hr|].
  exact (proj2 (proj1 (daemon_invariant wd_dd wa_alice 4240 wh_cwd _ wh_dir (wh_start m w Hm)) "share" r Hr)).
Defined.

Lemma daemon_loses_nothing_witness :
  exists h r, h_shares h !! "share" = Some r /\
    grows wd_dd "share" (run_task r, h_world h) (run_task r, h_world (wh_rotated h)).
Proof.
  destruct wh_spawns as (m & w & r & Hm & Hr & _). exists (host_start m w), r. split; [exact Hr|].
  destruct (daemon_loses_nothing wd_dd wa_alice 4240 wh_cwd (host_start m w) (wh_rotated (host_start m w))
    "share" r wh_dir (wh_start m w Hm) Hr) as (r' & Hr' & _ & Hg).
  - apply rtc_once. split; [apply wh_steps|]. exists r. exact Hr.
  - cbn [wh_rotated h_shares] in Hr'. rewrite Hr in Hr'. injection Hr' as <-. exact Hg.
Defined.

Lemma task_isolated_witness :
  exists h r, h_shares h !! "share" = Some r /\
    let s' := snd (loop_begin (run_config r) wd_dd wa_alice 4240 (run_task r) (h_world h)) in
    file_at (w_fs s'.2) (kfile wd_dd "other") = file_at (w_fs (h_world h)) (kfile wd_dd "other").
Proof.
  destruct wh_spawns as (m & w & r & Hm & Hr & Hc). exists (host_start m w), r. split; [exact Hr|].
  apply (task_isolated wd_dd wa_alice 4240 wh_cwd (host_start m w) "share" r wh_dir (wh_start m w Hm) Hr).
  - intros [l Hl]. discriminate Hl.
  - rewrite Hc. intros [l Hl]. discriminate Hl.
  - rewrite Hc. intros Hl. discriminate Hl.
Defined.

(** Why [direct_sane] excludes a running share: its direct removal takes the
    keyring away under the task, and the next rotation, which starts a keyring
    of its own, makes the daemon forget the keys it had. *)
Definition wh_later : world := World (w_fs wc_world) (w_faults wc_world) 7 (w_tick wc_world).
#[local] Abbreviation wh_rotation :=
  (handle_rotate_key wd_cfg wd_dd wd_task (run_direct wd_dd wh_cwd (DRemove "share") wh_later)).

Theorem direct_remove_forgets_keys :
  length (keys (t_key wd_task)) = 2%nat /\ fst wh_rotation = Ok 2 /\
  bool_decide (keys (t_key wd_task) `prefix_of` keys (t_key (fst (snd wh_rotation)))) = false.
Proof. split; [|split]; vm_compute; reflexivity. Qed.
End witnesses.
