(* ===== verification/Main.v ===== *)
(** * The program ([src/main.rs] 20-194, the start of [daemon.rs] [serve])

    Which command runs where, how the daemon starts and stops; a command that
    respects what the program does not check is a step of [Host]. *)

From S2P Require Import Prelude World Tree Clock External Instances Share Crypto Auth.
From S2P Require Import Rotation Ticket Shadow Sync Frame Network Daemon Loops Ipc Reach Cli Client Host.

(** ** The command line *)

Inductive Cmd :=
  | Serve (bt_port : Z) (no_dbus : bool)
  | ShareAdd (topic p : string) (role : ShareRole)
  | ShareList
  | ShareRemove (id : string)
  | ShareRotateKey (id : string)
  | ShareInvite (id invitee_pubkey : string) (role : ShareRole) (auth_role : AuthRole)
  | ShareJoin (ticket p : string)
  | SharePeers (id : string)
  | ShareMembers (id : string)
  | ShareRevoke (id peer_pubkey : string)
  | Whoami.

(** What a command prints. *)
Inductive Answer :=
  | ANothing
  | AText (s : string)
  | AAdded (id : string) (owner : option string)
  | ARows (l : Listing (string * string * string * string))
  | AEpoch (e : Z)
  | AJoined (id : string)
  | APeers (l : Listing (string * Z * bool))
  | AMembers (l : Listing (string * string * bool))
  | AServed (shares : list string) (on_bus : bool).

(** [p2panda_net] and [librqbit] come up; the directory of the session is the
    data directory, but nothing is written into [shares/]. *)
Class Runtime := {
  start_runtime : path -> Z -> bytes -> M unit;
  start_runtime_touches : forall dd port identity,
    touches (fun q => ~ shares_dir dd `prefix_of` q) (start_runtime dd port identity);
}.

(** [zbus]: claiming the name of the daemon on the session bus. *)
Class Register := {
  register : M unit;
  register_inert : forall w, w_fs (snd (register w)) = w_fs w;
}.

(** [$DBUS_SESSION_BUS_ADDRESS] is set, and [$XDG_RUNTIME_DIR]. *)
Record Environment := {
  env_bus_address : bool;
  env_runtime_dir : option path;
}.

Definition session_bus_likely_available `{Metadata} (env : Environment) : M bool :=
  if env_bus_address env then ret true else
  match env_runtime_dir env with
  | Some runtime =>
      let! ex := fs_exists (join runtime "bus") in
      if ex then ret true else ret false
  | None => ret false
  end.

Section serve.
Context `{MD : Metadata, ReadDir, Entropy, WallClock, Blake3, Ed25519, !CryptoBox, FileLock, Runtime, Register}.
Context `{!Bincode rotation_tuple, !BincodeTotal rotation_tuple, !Bincode SignedRotation}.
Context `{!Bincode canonical_tuple, !BincodeTotal canonical_tuple, !GroupCrdt}.
Context `{!Bincode SignedOp, !Bincode (list SignedOp), !Json ShareConfig}.
Context (env : Environment).

(** [serve] up to its loop: the tasks, and whether the daemon is on the bus. *)
Definition serve_start (data_dir : path) (bt_port : Z) (identity : bytes) (configs : list ShareConfig)
    (register_dbus : bool) : M (gmap string (ShareConfig * ShareTask) * bool) :=
  start_runtime data_dir bt_port identity ;;;
  let! shares := spawn_all data_dir configs ∅ in
  let! dbus_conn :=
    if register_dbus then
      let! likely := session_bus_likely_available env in
      if (likely : bool) then
        let! r := attempt register in
        ret (match r with Ok _ => true | _ => false end)
      else ret false
    else ret false in
  ret (shares, dbus_conn).

Definition cmd_serve (data_dir : path) (bt_port : Z) (register_dbus : bool)
    : M (bytes * list ShareConfig * gmap string (ShareConfig * ShareTask) * bool) :=
  let! start := cmd_serve_start data_dir in
  let! r := serve_start data_dir bt_port start.1 start.2 register_dbus in
  ret (start.1, start.2, r.1, r.2).
End serve.

(** [JoinSet::shutdown] aborts every task; what the shares know in memory is
    gone when the process ends. *)
Definition finish_shutdown `{Blake3, !Bincode canonical_tuple, !BincodeTotal canonical_tuple, !GroupCrdt}
    (h : host) : host :=
  {| h_shares := (fun r => with_task r (run_task r) false) <$> h_shares h; h_loops := ∅;
     h_world := h_world h |}.

Section main.
Context `{MD : Metadata, ReadDir, Entropy, WallClock, Blake3, Aead, Ed25519, !CryptoBox, Base64, Chrono, FileLock}.
Context `{Bus, Runtime, Register}.
Context `{!Bincode rotation_tuple, !BincodeTotal rotation_tuple, !Bincode SignedRotation}.
Context `{!Bincode canonical_tuple, !BincodeTotal canonical_tuple, !GroupCrdt}.
Context `{!Bincode SignedOp, !Bincode (list SignedOp), !Bincode Ticket, !Json ShareMsg, !Json ShareConfig}.
Context `{!Json PersistedState}.
Context (env : Environment) (platform : option path) (current_dir : outcome path).

(** The running daemon, if a command reaches one. *)
Context (dd : path) (identity : bytes) (daemon_dir : outcome path).

Definition answer {A : Type} (f : A -> Answer) (m : DM A) : DM Answer := let^ a := m in dret (f a).

Definition main (direct_dir : option path) (cmd : Cmd) : DM Answer :=
  match cmd with
  | Serve bt_port no_dbus =>
      let^ data_dir := dlift (resolve direct_dir platform) in
      answer (fun r => AServed (map_to_list r.1.2).*1 r.2)
        (dio (cmd_serve env data_dir bt_port (negb no_dbus)))
  | ShareAdd topic p role =>
      match direct_dir with
      | Some d => answer (fun r => AAdded r.1 (Some r.2)) (dio (cmd_share_add_direct d current_dir topic p role))
      | None => answer (fun id => AAdded id None) (cmd_share_add dd identity current_dir topic p role)
      end
  | ShareList =>
      match direct_dir with
      | Some d => answer ARows (dio (cmd_share_list_direct d))
      | None => answer ARows (cmd_share_list dd)
      end
  | ShareRemove id =>
      match direct_dir with
      | Some d => answer (fun _ => ANothing) (dio (cmd_share_remove_direct d id))
      | None => answer (fun _ => ANothing) (cmd_share_remove dd id)
      end
  | ShareRotateKey id =>
      match direct_dir with
      | Some d => answer AEpoch (dio (cmd_share_rotate_key_direct d id))
      | None => answer AEpoch (cmd_share_rotate_key dd identity id)
      end
  | ShareInvite id invitee_pubkey role auth_role =>
      match direct_dir with
      | Some d => answer AText (dio (cmd_share_invite_direct d id invitee_pubkey role auth_role))
      | None => answer AText (cmd_share_invite dd identity id invitee_pubkey role auth_role)
      end
  | ShareJoin ticket p =>
      match direct_dir with
      | Some d => answer (fun c => AJoined (sc_id c)) (dio (cmd_share_join_direct d current_dir ticket p))
      | None => answer AJoined (cmd_share_join dd identity daemon_dir current_dir ticket p)
      end
  | SharePeers id =>
      match direct_dir with
      | Some d => answer APeers (dio (cmd_share_peers_direct d id))
      | None => answer APeers (cmd_share_peers dd identity id)
      end
  | ShareMembers id =>
      match direct_dir with
      | Some d => answer AMembers (dio (cmd_share_members_direct d id))
      | None => answer AMembers (cmd_share_members dd identity id)
      end
  | ShareRevoke id peer_pubkey =>
      match direct_dir with
      | Some d => answer AEpoch (dio (cmd_share_revoke_direct d id peer_pubkey))
      | None => answer AEpoch (cmd_share_revoke dd identity id peer_pubkey)
      end
  | Whoami =>
      match direct_dir with
      | Some d => answer AText (dio (cmd_whoami_direct d))
      | None => answer AText (cmd_whoami identity)
      end
  end.
End main.

(** ** The commands as steps of the daemon *)

Section steps.
Context `{MD : Metadata, ReadDir, Entropy, WallClock, Blake3, Aead, Ed25519, !CryptoBox, Base64, Chrono, FileLock}.
Context `{Bus, Runtime, Register}.
Context `{!Bincode rotation_tuple, !BincodeTotal rotation_tuple, !Bincode SignedRotation}.
Context `{!Bincode canonical_tuple, !BincodeTotal canonical_tuple, !GroupCrdt}.
Context `{!Bincode SignedOp, !Bincode (list SignedOp), !Bincode Ticket, !Json ShareMsg, !Json ShareConfig}.
Context `{!Json PersistedState, Torrents, SocketAddrs, Services}.
Context (dd : path) (identity : bytes) (port : Z) (daemon_dir : outcome path).

Abbreviation step := (host_step dd identity port daemon_dir).
Abbreviation shares_map := (gmap string Running).

(** What a command asks of the files or of the daemon. *)
Definition direct_of (cmd : Cmd) : option Direct :=
  match cmd with
  | Serve _ _ => None
  | ShareAdd topic p role => Some (DAdd topic p role)
  | ShareList => Some DList
  | ShareRemove id => Some (DRemove id)
  | ShareRotateKey id => Some (DRotateKey id)
  | ShareInvite id invitee_pubkey role auth_role => Some (DInvite id invitee_pubkey role auth_role)
  | ShareJoin ticket p => Some (DJoin ticket p)
  | SharePeers id => Some (DPeers id)
  | ShareMembers id => Some (DMembers id)
  | ShareRevoke id peer_pubkey => Some (DRevoke id peer_pubkey)
  | Whoami => Some DWhoami
  end.

(** What the user has to respect, in either mode. *)
Definition cmd_sane (current_dir : outcome path) (m : shares_map) (direct : bool) (cmd : Cmd) : Prop :=
  if direct then match direct_of cmd with Some c => direct_sane m c | None => False end else
  match cmd with
  | Serve _ _ => False
  | ShareAdd _ p _ => forall q w w', absolute current_dir p w = (Ok q, w') -> good_root dd q
  | ShareJoin ticket p => forall q w w', absolute current_dir p w = (Ok q, w') ->
      sane dd daemon_dir (RqJoin ticket (path_display q))
  | ShareRemove id => good_id id
  | _ => True
  end.

(** The share whose loop has to answer. *)
Definition cmd_target (cmd : Cmd) : option string :=
  match cmd with
  | ShareInvite id _ _ _ | ShareRevoke id _ | ShareMembers id | ShareRotateKey id => Some id
  | _ => None
  end.

Definition ready (t : option string) (m : shares_map) (l : gmap string LoopState) : Prop :=
  forall id r, t = Some id -> m !! id = Some r -> run_alive r = true -> is_Some (l !! id).

Definition lands (h : host) (s : shares_map * world) : Prop :=
  exists h', rtc step h h' /\ h_shares h' = s.1 /\ h_world h' = s.2.

(** A command moves the daemon by steps; [P] is about its shares and loops. *)
Definition moves (P : shares_map -> gmap string LoopState -> Prop) {A : Type} (f : DM A) : Prop :=
  forall h, P (h_shares h) (h_loops h) -> lands h (snd (f (h_shares h) (h_world h))).

Lemma moves_still P {A B : Type} (f : DM A) (k : A -> DM B) :
  (forall m w, snd (f m w) = (m, w)) -> (forall a, moves P (k a)) -> moves P (dbind f k).
Proof.
  intros Hf Hk h Hh. unfold dbind. specialize (Hf (h_shares h) (h_world h)).
  destruct (f (h_shares h) (h_world h)) as [[a|e|] [m w]]; simpl in Hf; injection Hf as -> ->;
    [by apply Hk|by exists h..].
Qed.

Lemma moves_after P {A B : Type} (f : DM A) (k : A -> DM B) :
  moves P f -> (forall a m w, snd (k a m w) = (m, w)) -> moves P (dbind f k).
Proof.
  intros Hf Hk h Hh. specialize (Hf h Hh). unfold dbind.
  destruct (f (h_shares h) (h_world h)) as [[a|e|] [m w]]; [|done..]. by rewrite Hk.
Qed.

(** A computation that touches no file of a share. *)
Lemma moves_outside P {A B : Type} (g : M A) (k : A -> DM B) :
  touches (fun q => ~ shares_dir dd `prefix_of` q) g ->
  (forall w a w', g w = (Ok a, w') -> moves P (k a)) -> moves P (dbind (dio g) k).
Proof.
  intros Hg Hk h Hh. unfold dbind, dio. specialize (Hg (h_world h)).
  destruct (g (h_world h)) as [o w1] eqn:E. cbn [snd] in Hg.
  set (h1 := {| h_shares := h_shares h; h_loops := h_loops h; h_world := w1 |}).
  assert (step h h1) as Hs by (apply host_outside; intros q Hq; apply Hg; tauto).
  destruct o as [a|e|]; [|by exists h1; split; [apply rtc_once|]..].
  destruct (Hk _ _ _ E h1 Hh) as (h2 & Hr & Hm & Hw).
  exists h2. split; [by eapply rtc_l|]. by split.
Qed.

Lemma moves_inert P {A B : Type} (g : M A) (k : A -> DM B) :
  (forall w, w_fs (snd (g w)) = w_fs w) -> (forall w a w', g w = (Ok a, w') -> moves P (k a)) ->
  moves P (dbind (dio g) k).
Proof. intros Hg. by apply moves_outside, touches_inert. Qed.

Lemma moves_request {A : Type} rq (f : DM A) :
  sane dd daemon_dir rq ->
  (forall m w, snd (f m w) = snd (serve_request dd identity daemon_dir rq m w)) ->
  moves (ready (target rq)) f.
Proof.
  intros Hs Hf h Hh. rewrite Hf.
  destruct (serve_request dd identity daemon_dir rq (h_shares h) (h_world h)) as [o [m' w']] eqn:E.
  eexists. split; [|split].
  - apply rtc_once. eapply host_request; [exact Hs|exact Hh|exact E].
  - done.
  - done.
Qed.

Lemma call_state {A : Type} (f : DM A) m w : snd (call f m w) = snd (f m w).
Proof. unfold call. by destruct (f m w) as [[a|e|] s]. Qed.

Lemma quietly_state {A : Type} (f : DM A) m w : snd (quietly f m w) = snd (f m w).
Proof. unfold quietly, dbind. by destruct (f m w) as [[a|e|] [m' w']]. Qed.

(** A method called through the bus. *)
Lemma moves_call {A : Type} rq (f : DM A) :
  sane dd daemon_dir rq ->
  (forall m w, snd (f m w) = snd (serve_request dd identity daemon_dir rq m w)) ->
  moves (ready (target rq)) (connect ;^ call f).
Proof.
  intros Hs Hf. apply moves_inert; [apply bus_connect_inert|]. intros _ _ _ _.
  apply (moves_request rq); [done|]. intros m w. by rewrite call_state.
Qed.

Lemma answer_moves P {A : Type} (f : A -> Answer) (m : DM A) : moves P m -> moves P (answer f m).
Proof. intros Hm. unfold answer. by apply moves_after. Qed.

Lemma whoami_still m w : snd (dattempt (client_whoami identity) m w) = (m, w).
Proof. done. Qed.

Lemma bus_moves env platform cur cmd m :
  cmd_sane cur m false cmd ->
  moves (ready (cmd_target cmd)) (main env platform cur dd identity daemon_dir None cmd).
Proof.
  destruct cmd; cbn [cmd_sane main cmd_target]; intros Hs; [done|..]; apply answer_moves.
  - unfold cmd_share_add. apply moves_inert; [apply absolute_inert|]. intros w q w' Hq.
    apply moves_inert; [done|]. intros _ ex _ _.
    destruct (_ && _); [intros h _; by exists h|].
    apply (moves_call (RqAdd topic q (role_to_str role))); [by eapply Hs|].
    intros m' w2. cbn [serve_request]. by rewrite quietly_state.
  - unfold cmd_share_list. apply moves_inert; [apply bus_connect_inert|]. intros _ _ _ _.
    apply moves_after.
    2: { intros l m' w'. case_decide; [done|]. unfold dbind, dlift. by destruct (entry_rows l). }
    apply (moves_request RqList); [done|]. intros m' w'.
    unfold client_share_list. cbn [serve_request]. by rewrite call_state, quietly_state.
  - by apply (moves_call (RqRemove id)).
  - apply (moves_call (RqRotateKey id)); [done|]. intros m' w'. cbn [serve_request]. by rewrite quietly_state.
  - apply (moves_call (RqInvite id invitee_pubkey (role_to_str role) (auth_role_str auth_role))); [done|].
    intros m' w'. cbn [serve_request]. by rewrite quietly_state.
  - unfold cmd_share_join. apply moves_inert; [apply absolute_inert|]. intros w q w' Hq.
    apply (moves_call (RqJoin ticket (path_display q))); [by eapply Hs|].
    intros m' w2. cbn [serve_request]. by rewrite quietly_state.
  - unfold cmd_share_peers. apply moves_inert; [apply bus_connect_inert|]. intros _ _ _ _.
    apply moves_still; [done|]. intros me.
    apply moves_after; [|by intros l m' w'; case_decide].
    apply (moves_request (RqPeers id)); [done|]. intros m' w'. unfold client_share_peers.
    cbn [serve_request]. by rewrite call_state, quietly_state.
  - unfold cmd_share_members. apply moves_inert; [apply bus_connect_inert|]. intros _ _ _ _.
    apply moves_still; [done|]. intros me.
    apply moves_after; [|by intros l m' w'; case_decide].
    apply (moves_request (RqMembers id)); [done|]. intros m' w'. unfold client_share_members.
    cbn [serve_request]. by rewrite call_state, quietly_state.
  - apply (moves_call (RqRevoke id peer_pubkey)); [done|]. intros m' w'. cbn [serve_request].
    by rewrite quietly_state.
  - unfold cmd_whoami. apply moves_inert; [apply bus_connect_inert|]. intros _ _ _ _.
    intros h _. by exists h.
Qed.

(** A direct command does on the disk what [Host] says, and nothing else. *)
Lemma main_direct env platform cur cmd c m w :
  direct_of cmd = Some c ->
  snd (main env platform cur dd identity daemon_dir (Some dd) cmd m w) = (m, run_direct dd cur c w).
Proof.
  assert (forall {A : Type} (f : A -> Answer) (g : M A), snd (answer f (dio g) m w) = (m, snd (g w))) as Ha.
  { intros A f g. unfold answer, dbind, dio. by destruct (g w) as [[a|e|] w']. }
  destruct cmd; cbn [direct_of]; intros [= <-]; cbn [main run_direct]; apply Ha.
Qed.

Lemma command_lands env platform cur direct cmd h :
  cmd_sane cur (h_shares h) direct cmd -> ready (cmd_target cmd) (h_shares h) (h_loops h) ->
  lands h (snd (main env platform cur dd identity daemon_dir (if direct then Some dd else None) cmd
                  (h_shares h) (h_world h))).
Proof.
  destruct direct; [|intros Hs Hr; by eapply bus_moves].
  cbn [cmd_sane]. destruct (direct_of cmd) as [c|] eqn:Hc; [|done]. intros Hs _.
  rewrite (main_direct _ _ _ _ _ _ _ Hc). eexists. split; [|split].
  - apply rtc_once, (host_direct dd identity port daemon_dir h cur c Hs).
  - done.
  - done.
Qed.
(** A command line other than [serve], typed with the care of [cmd_sane], with
    [--data-dir] or through the bus, leaves the daemon it meets in a state
    that is reachable in [Host]. *)
Lemma commands_are_steps (env : Environment) (platform : option path) (cur : outcome path)
    (direct : bool) (cmd : Cmd) (h : host)
    (Hh : host_reachable dd identity port daemon_dir h)
    (Hsane : cmd_sane cur (h_shares h) direct cmd)
    (Hready : ready (cmd_target cmd) (h_shares h) (h_loops h)) :
  let s' := snd (main env platform cur dd identity daemon_dir (if direct then Some dd else None) cmd
                   (h_shares h) (h_world h)) in
  exists h', host_reachable dd identity port daemon_dir h' /\ h_shares h' = s'.1 /\ h_world h' = s'.2.
Proof.
  cbv zeta. destruct (command_lands env platform cur direct cmd h Hsane Hready)
    as (h' & Hr & Hm & Hw).
  exists h'. split; [|by split]. destruct Hh as (configs & w0 & m & w & Hc & Hs & Hrun).
  exists configs, w0, m, w. split; [done|]. split; [done|by etrans].
Qed.

End steps.

(** ** Starting the daemon *)

Section start.
Context `{MD : Metadata, ReadDir, Entropy, WallClock, Blake3, Aead, Ed25519, !CryptoBox, Base64, Chrono, FileLock}.
Context `{Runtime, Register}.
Context `{!Bincode rotation_tuple, !BincodeTotal rotation_tuple, !Bincode SignedRotation}.
Context `{!Bincode canonical_tuple, !BincodeTotal canonical_tuple, !GroupCrdt}.
Context `{!Bincode SignedOp, !Bincode (list SignedOp), !Bincode Ticket, !Json ShareMsg, !Json ShareConfig}.
Context `{!Json PersistedState, Torrents, SocketAddrs, Services, !TorrentFolders}.
Context `{!KeysSighted}.
Context (env : Environment) (dd : path) (port : Z).

Abbreviation all_rings := (all_rings dd).
Abbreviation good_config := (fun c => good_id (sc_id c) /\ good_root dd (sc_root_path c)).

Lemma cmd_serve_start_rings : all_rings (cmd_serve_start dd).
Proof.
  unfold cmd_serve_start. apply all_rings_bind; [apply mkdir_rings|]. intros _.
  apply all_rings_bind.
  { apply (all_rings_outside dd _ _ (acquire_touches (lock_path dd))). intros q -> Hp.
    unfold shares_dir, lock_path in Hp. rewrite !join_plain in Hp by plain_const.
    apply prefix_app_inv in Hp. by apply prefix_cons_inv_1 in Hp. }
  intros _. apply all_rings_bind; [apply identity_rings|]. intros i.
  apply all_rings_bind; [apply load_all_rings|]. intros cs. apply ret_rings.
Qed.

(** A task that is spawned has the keyring that is on the disk. *)
Lemma spawn_key c w t w' r :
  spawn_share_task dd c w = (Ok t, w') -> disk_ring dd (sc_id c) (w_fs w) = Some r -> t_key t = r.
Proof.
  unfold spawn_share_task. intros Hs Hr. apply bind_Ok in Hs as (k & w1 & Hk%ctx_Ok & Hs).
  destruct (load_keyring_same _ _ _ _ _ _ (keys_sighted _ _ _) Hr Hk) as [-> _].
  apply bind_Ok in Hs as (st & w2 & _ & Hs). apply bind_Ok in Hs as (o & w3 & _ & Hs). by injection Hs as <- _.
Qed.

(** Every share has at least the keys that were on the disk before. *)
Definition informed (w0 : world) (m : gmap string (ShareConfig * ShareTask)) : Prop :=
  forall id c t r, m !! id = Some (c, t) -> disk_ring dd id (w_fs w0) = Some r -> ring_extends r (t_key t).

Lemma spawn_all_informed configs w0 m0 w1 m w :
  Forall good_config configs -> (forall id, good_id id -> ring_kept dd id w0 w1) -> informed w0 m0 ->
  spawn_all dd configs m0 w1 = (Ok m, w) ->
  informed w0 m /\ forall id, good_id id -> ring_kept dd id w0 w.
Proof.
  intros Hcs. revert m0 w1. induction Hcs as [|c configs [Hg Hr] _ IH]; intros m0 w1 Hk Hm; cbn [spawn_all].
  { by intros [= <- <-]. }
  intros (o & w2 & Ho & Hs)%bind_Ok. apply attempt_Ok in Ho as [Ho _].
  assert (forall id, good_id id -> ring_kept dd id w0 w2) as Hk2.
  { intros id Hid. etrans; [by apply Hk|]. pose proof (spawn_rings dd c Hg w1 id Hid) as H'. by rewrite Ho in H'. }
  destruct o as [t|e|]; (eapply IH; [exact Hk2| |exact Hs]); [|done..].
  intros id c' t' r. intros [[<- [= <- <-]]|[_ Hid]]%lookup_insert_Some Hd; [|by eapply Hm].
  destruct (Hk _ Hg r Hd) as (r' & Hr' & He). by rewrite (spawn_key _ _ _ _ _ Ho Hr').
Qed.

Lemma available_inert w : w_fs (snd (session_bus_likely_available env w)) = w_fs w.
Proof.
  unfold session_bus_likely_available. destruct (env_bus_address env); [done|].
  destruct (env_runtime_dir env); [|done]. unfold bind, fs_exists. by destruct (_ && _).
Qed.

Lemma serve_start_Ok identity configs reg w0 shares bus w :
  serve_start env dd port identity configs reg w0 = (Ok (shares, bus), w) ->
  exists w1 w2, (forall id, good_id id -> ring_kept dd id w0 w1) /\
    spawn_all dd configs ∅ w1 = (Ok shares, w2) /\ w_fs w = w_fs w2.
Proof.
  unfold serve_start. intros ([] & w1 & Hrt & Hs)%bind_Ok. apply bind_Ok in Hs as (m & w2 & Hm & Hs).
  apply bind_Ok in Hs as (b & w3 & Hb & Hs). injection Hs as <- <- <-. exists w1, w2.
  split; [|split; [exact Hm|]].
  - intros id Hid. apply ring_kept_same.
    pose proof (start_runtime_touches dd port identity w0 (kfile dd id)) as Ht. rewrite Hrt in Ht.
    apply Ht. intros Hn. apply Hn, (own_shares dd id); [apply Hid|apply kfile_own].
  - destruct reg; [|by injection Hb as _ <-].
    apply bind_Ok in Hb as (l & w4 & Hl & Hb). pose proof (available_inert w2) as Ha. rewrite Hl in Ha.
    cbn [snd] in Ha. destruct l; [|injection Hb as _ <-; done].
    apply bind_Ok in Hb as (r & w5 & [Hr _]%attempt_Ok & Hb). injection Hb as _ <-.
    pose proof (register_inert w4) as Hi. rewrite Hr in Hi. simpl in Hi. congruence.
Qed.

(** What [peerdup serve] leads to. *)
Lemma cmd_serve_Ok reg w0 identity configs shares bus w :
  cmd_serve env dd port reg w0 = (Ok (identity, configs, shares, bus), w) -> Forall good_config configs ->
  (exists w1 w2, spawn_all dd configs ∅ w1 = (Ok shares, w2) /\ w_fs w = w_fs w2) /\ informed w0 shares.
Proof.
  unfold cmd_serve. intros ([i cs] & w1 & H1' & Hs)%bind_Ok Hg.
  apply bind_Ok in Hs as ([m b] & w2 & Hs & Hr). cbn [fst snd] in *. injection Hr as -> -> -> -> ->.
  apply serve_start_Ok in Hs as (w3 & w4 & Hk & Hm & Hfs). split; [by exists w3, w4|].
  eapply spawn_all_informed; [exact Hg| | |exact Hm].
  - intros id Hid. etrans; [|by apply Hk].
    pose proof (cmd_serve_start_rings w0 id Hid) as H2'. by rewrite H1' in H2'.
  - by intros id c t r ?%lookup_empty_Some.
Qed.

Lemma serve_reaches identity cwd configs shares w1 w2 w :
  Forall good_config configs -> spawn_all dd configs ∅ w1 = (Ok shares, w2) -> w_fs w = w_fs w2 ->
  host_reachable dd identity port cwd (host_start shares w).
Proof.
  intros Hg Hm Hw. exists configs, w1, shares, w2. split; [done|]. split; [done|].
  apply rtc_once, (host_outside dd identity port cwd (host_start shares w2) w). intros q _. by rewrite Hw.
Qed.
End start.

(** ** Properties *)

Section properties.
Context `{MD : Metadata, ReadDir, Entropy, WallClock, Blake3, Aead, Ed25519, !CryptoBox, Base64, Chrono, FileLock}.
Context `{Bus, Runtime, Register}.
Context `{!Bincode rotation_tuple, !BincodeTotal rotation_tuple, !Bincode SignedRotation}.
Context `{!Bincode canonical_tuple, !BincodeTotal canonical_tuple, !GroupCrdt}.
Context `{!Bincode SignedOp, !Bincode (list SignedOp), !Bincode Ticket, !Json ShareMsg, !Json ShareConfig}.
Context `{!Json PersistedState, Torrents, SocketAddrs, Services, !TorrentFolders}.
Context `{!KeysSighted}.

(** C11. No key is lost when the daemon stops and starts again: whatever happened
    before, with a daemon started on the disk that the old one left (after a
    shutdown, or after it was killed between turns), every share that runs
    again has in memory at least the keys that the old task had, and the new
    daemon is in a state of [Host].  ([KeysSighted]: the metadata of
    [keys.bin] can be read.) *)
Theorem restart_keeps_keys (env : Environment) (dd : path) (identity identity' : bytes) (port port' : Z)
    (cwd cwd' : outcome path) (h : host) (reg : bool) (configs : list ShareConfig)
    (shares : gmap string (ShareConfig * ShareTask)) (bus : bool) (w : world)
    (Hdd : PEERDUP_DIR_NAME ∉ dd) (Hh : host_reachable dd identity port cwd h)
    (Hserve : cmd_serve env dd port' reg (h_world (finish_shutdown h)) =
              (Ok (identity', configs, shares, bus), w))
    (Hgood : Forall (fun c => good_id (sc_id c) /\ good_root dd (sc_root_path c)) configs) :
  host_reachable dd identity' port' cwd' (host_start shares w) /\
  forall id r c t, h_shares h !! id = Some r -> shares !! id = Some (c, t) ->
    ring_extends (t_key (run_task r)) (t_key t).
Proof.
  apply cmd_serve_Ok in Hserve as [(w1 & w2 & Hm & Hw) Hi]; [|done].
  split; [by eapply serve_reaches|]. intros id r c t Hr Hs.
  destruct (ho_shares _ _ (reachable_ok dd identity port cwd h Hdd Hh) id r Hr) as [_ _ _ [_ _ (r0 & Hd & He)]].
  etrans; [exact He|]. by eapply Hi.
Qed.

(** A command with [--data-dir] does not depend on a daemon: neither its
    answer nor its effect on the disk depends on what runs, and what runs is
    not told. *)
Theorem direct_offline (env : Environment) (platform : option path) (cur daemon_dir : outcome path)
    (dd d : path) (identity : bytes) (cmd : Cmd) :
  exists f : M Answer, forall m w,
    main env platform cur dd identity daemon_dir (Some d) cmd m w = let '(o, w') := f w in (o, (m, w')).
Proof.
  assert (forall {A : Type} (k : A -> Answer) (g : M A), exists f : M Answer, forall m w,
    answer k (dio g) m w = let '(o, w') := f w in (o, (m, w'))) as Ha.
  { intros A k g. exists (let! a := g in ret (k a)). intros m w. unfold answer, dbind, dio, bind.
    by destruct (g w) as [[a|e|] w']. }
  destruct cmd; apply Ha.
Qed.

(** The daemon claims its name only if it was asked to and a bus is likely. *)
Theorem bus_claimed_when_likely (env : Environment) (dd : path) (port : Z) (identity : bytes)
    (configs : list ShareConfig) (reg : bool) (w w' : world)
    (shares : gmap string (ShareConfig * ShareTask))
    (Hrun : serve_start env dd port identity configs reg w = (Ok (shares, true), w')) :
  reg = true /\ (env_bus_address env = true \/ exists d, env_runtime_dir env = Some d).
Proof.
  unfold serve_start in Hrun. apply bind_Ok in Hrun as ([] & w1 & _ & Hrun).
  apply bind_Ok in Hrun as (m & w2 & _ & Hrun). apply bind_Ok in Hrun as (b & w3 & Hb & Hrun).
  injection Hrun as _ -> _. destruct reg; [|done]. split; [done|].
  apply bind_Ok in Hb as (l & w4 & Hl & Hb). destruct l; [|done].
  unfold session_bus_likely_available in Hl. destruct (env_bus_address env); [by left|].
  destruct (env_runtime_dir env) as [d|]; [right; by exists d|done].
Qed.
End properties.

(** ** Witnesses *)

Section witnesses.
#[local] Existing Instance toy_metadata.
#[local] Existing Instance toy_sighted.
#[local] Existing Instance toy_entropy.
#[local] Existing Instance toy_blake3.
#[local] Existing Instance toy_aead.
#[local] Existing Instance toy_ed25519.
#[local] Existing Instance toy_box.
#[local] Existing Instance toy_base64.
#[local] Existing Instance toy_read_dir.
#[local] Existing Instance toy_clock.
#[local] Existing Instance toy_chrono.
#[local] Existing Instance toy_state.
#[local] Existing Instance toy_addrs.
#[local] Existing Instance toy_rotation_tuple.
#[local] Existing Instance toy_rotation_total.
#[local] Existing Instance toy_rotation.
#[local] Existing Instance toy_canonical.
#[local] Existing Instance toy_canonical_total.
#[local] Existing Instance toy_group.
#[local] Existing Instance toy_op.
#[local] Existing Instance toy_ops.
#[local] Existing Instance toy_ticket.
#[local] Existing Instance toy_msg.
#[local] Existing Instance toy_config.
#[local] Existing Instance idle_torrents.
#[local] Existing Instance idle_folders.
#[local] Existing Instance toy_services.
#[local] Existing Instance bus_up.
#[local] Instance free_lock : FileLock :=
  {| try_lock_exclusive _ := ret true; try_lock_inert _ _ := eq_refl |}.
#[local] Instance idle_runtime : Runtime :=
  {| start_runtime _ _ _ := ret tt; start_runtime_touches _ _ _ := touches_ret _ tt |}.
#[local] Instance free_name : Register := {| register := ret tt; register_inert _ := eq_refl |}.

Definition wm_env : Environment := {| env_bus_address := true; env_runtime_dir := None |}.

Abbreviation wh_reachable := (host_reachable wd_dd wa_alice 4240 wh_cwd).

#[local] Abbreviation wm_serve := (cmd_serve wm_env wd_dd 4240 true).

(** What was configured, and what runs as [share]. *)
Definition wm_seen (o : outcome (bytes * list ShareConfig * gmap string (ShareConfig * ShareTask) * bool))
    : list ShareConfig * option ShareConfig :=
  match o with Ok r => (r.1.1.2, fst <$> r.1.2 !! "share") | _ => ([], None) end.

Lemma wm_first : wm_seen (fst (wm_serve wc_world)) = ([wd_cfg], Some wd_cfg).
Proof. vm_compute. reflexivity. Qed.

Lemma wm_second : wm_seen (fst (wm_serve (snd (wm_serve wc_world)))) = ([wd_cfg], Some wd_cfg).
Proof. vm_compute. reflexivity. Qed.

Lemma wm_runs (m : gmap string (ShareConfig * ShareTask)) (cs : list ShareConfig) :
  (cs, fst <$> m !! "share") = ([wd_cfg], Some wd_cfg) ->
  cs = [wd_cfg] /\ exists t, m !! "share" = Some (wd_cfg, t).
Proof.
  intros E. injection E as -> E. split; [reflexivity|].
  destruct (m !! "share") as [[c t]|]; [|discriminate E]. injection E as ->. by exists t.
Qed.

Lemma wm_good : Forall (fun c => good_id (sc_id c) /\ good_root wd_dd (sc_root_path c)) [wd_cfg].
Proof.
  constructor; [|constructor]. split; [exact wh_good|]. split; intros [l Hl]; discriminate Hl.
Qed.

(** Alice's daemon is started twice on her disk. *)
Lemma restart_keeps_keys_witness :
  exists h t1 t2 m w, host_reachable wd_dd wa_alice 4240 wh_cwd h /\
    h_shares h !! "share" = Some {| run_config := wd_cfg; run_task := t1; run_alive := true |} /\
    snd (wm_serve (h_world h)) = w /\ h_shares (host_start m w) !! "share" =
      Some {| run_config := wd_cfg; run_task := t2; run_alive := true |} /\
    ring_extends (t_key t1) (t_key t2).
Proof.
  pose proof wm_first as Hf. pose proof wm_second as Hs.
  destruct (wm_serve wc_world) as [[[[[i cs] m] b]|e|] w] eqn:E1; cbn [fst snd wm_seen] in *; [|discriminate..].
  destruct (wm_serve w) as [[[[[i2 cs2] m2] b2]|e|] w2] eqn:E2; cbn [fst snd wm_seen] in *; [|discriminate..].
  apply wm_runs in Hf as [-> [t1 Ht1]]. apply wm_runs in Hs as [-> [t2 Ht2]].
  destruct (cmd_serve_Ok wm_env wd_dd 4240 true wc_world i [wd_cfg] m b w E1 wm_good)
    as [(w3 & w4 & Hm & Hw) _].
  pose proof (serve_reaches wd_dd 4240 wa_alice wh_cwd [wd_cfg] m w3 w4 w wm_good Hm Hw) as Hh.
  assert (h_shares (host_start m w) !! "share" = Some {| run_config := wd_cfg; run_task := t1; run_alive := true |})
    as Hr by (cbn [host_start h_shares]; rewrite lookup_fmap, Ht1; reflexivity).
  destruct (restart_keeps_keys wm_env wd_dd wa_alice i2 4240 4240 wh_cwd wh_cwd (host_start m w) true
    [wd_cfg] m2 b2 w2 wh_dir Hh E2 wm_good) as [_ Hk].
  exists (host_start m w), t1, t2, m2, w2. split; [exact Hh|]. split; [exact Hr|].
  split; [exact (f_equal snd E2)|]. split; [cbn [host_start h_shares]; rewrite lookup_fmap, Ht2; reflexivity|].
  exact (Hk "share" _ wd_cfg t2 Hr Ht2).
Defined.
End witnesses.
