(* ===== verification/UnitTests.v ===== *)
(** * The unit tests of the repository

    The [mod tests] of [clock.rs], [crypto.rs], [auth.rs], [ticket.rs],
    [rotation.rs] and [daemon.rs], translated like the code they test and run
    on the model with the instances of [Instances]: what the authors expect of
    the program is what the definitions of this development do. *)

From S2P Require Import Prelude World Tree Clock External Instances Share Crypto Auth.
From S2P Require Import Rotation Ticket Shadow Sync Frame Network Daemon Loops Ipc.

(** ** Assertions *)

Definition assert_that (b : bool) : M unit := fun w => (if b then Ok tt else Panic, w).

(** [Result::unwrap] *)
Definition unwrap {A : Type} (m : M A) : M A := fun w =>
  match m w with
  | (Err _, w) => (Panic, w)
  | r => r
  end.

Definition expect {A : Type} (o : option A) : M A := fun w =>
  (match o with Some a => Ok a | None => Panic end, w).

Definition is_err {A : Type} (o : outcome A) : bool := match o with Err _ => true | _ => false end.

(** [l[i] ^= mask] *)
Definition xor_at (i : nat) (mask : Z) (l : bytes) : outcome bytes :=
  match l !! i with
  | Some x => Ok (<[i := byte_of_Z (Z.lxor (Z_of_byte x) mask)]> l)
  | None => Panic
  end.

Definition passes (test : M unit) (w : world) : bool :=
  match fst (test w) with Ok _ => true | _ => false end.

(** ** [clock.rs] *)

Definition equal : M unit :=
  let a := new in
  let b := new in
  assert_that (bool_decide (compare a b = Equal)).

Definition dominates_after_increment : M unit :=
  let a := new in
  let b := new in
  let a := increment a "p1" in
  assert_that (bool_decide (compare a b = SelfDominates)) ;;;
  assert_that (bool_decide (compare b a = OtherDominates)).

Definition concurrent_when_each_ahead_on_different_peer : M unit :=
  let a := new in
  let b := new in
  let a := increment a "p1" in
  let b := increment b "p2" in
  assert_that (bool_decide (compare a b = Concurrent)) ;;;
  assert_that (bool_decide (compare b a = Concurrent)).

Definition merge_takes_per_peer_max : M unit :=
  let a := new in
  let a := increment a "p1" in
  let a := increment a "p1" in
  let a := increment a "p2" in
  let b := new in
  let b := increment b "p1" in
  let b := increment b "p3" in
  let b := merge b a in
  assert_that (bool_decide (b !! "p1" = Some 2)) ;;;
  assert_that (bool_decide (b !! "p2" = Some 1)) ;;;
  assert_that (bool_decide (b !! "p3" = Some 1)).

Definition clock_suite : list (M unit) :=
  [equal; dominates_after_increment; concurrent_when_each_ahead_on_different_peer; merge_takes_per_peer_max].

(** ** [crypto.rs] *)

Section crypto.
Context `{MD : Metadata, Entropy, Aead}.

Fixpoint draw_keys (n : nat) (keys : list Key) : M (list Key) :=
  match n with
  | O => ret keys
  | S n =>
      let! k := fill_bytes KEY_LEN in
      draw_keys n (keys ++ [k])
  end.

Definition ring_with (n : nat) : M KeyRing :=
  let! keys := draw_keys n [] in
  ret {| keys := keys |}.

Definition round_trip_with_current_epoch : M unit :=
  let! r := ring_with 1 in
  let! ct := unwrap (encrypt r (string_bytes "hello")) in
  let! out := unwrap (lift (decrypt r ct)) in
  assert_that (bool_decide (out = string_bytes "hello")).

Definition old_ciphertext_decrypts_after_rotation : M unit :=
  let! r := ring_with 1 in
  let! ct := unwrap (encrypt r (string_bytes "under epoch 1")) in
  let! k := fill_bytes KEY_LEN in
  let r := {| keys := keys r ++ [k] |} in
  assert_that (bool_decide (current_epoch r = 2)) ;;;
  let! ct2 := unwrap (encrypt r (string_bytes "under epoch 2")) in
  assert_that (bool_decide (take EPOCH_LEN ct = u64_le 1)) ;;;
  assert_that (bool_decide (take EPOCH_LEN ct2 = u64_le 2)) ;;;
  let! one := unwrap (lift (decrypt r ct)) in
  assert_that (bool_decide (one = string_bytes "under epoch 1")) ;;;
  let! two := unwrap (lift (decrypt r ct2)) in
  assert_that (bool_decide (two = string_bytes "under epoch 2")).

Definition missing_epoch_fails_loudly : M unit :=
  let! r1 := ring_with 1 in
  let! blob := unwrap (encrypt r1 (string_bytes "x")) in
  let blob := u64_le 5 ++ drop EPOCH_LEN blob in
  assert_that (match decrypt r1 blob with Err (ENoKey 5 _) => true | _ => false end).

Definition tampered_ciphertext_fails : M unit :=
  let! r := ring_with 1 in
  let! ct := unwrap (encrypt r (string_bytes "secret")) in
  let last := (length ct - 1)%nat in
  let! ct := lift (xor_at last 1 ct) in
  assert_that (is_err (decrypt r ct)).

Definition wrong_keyring_fails : M unit :=
  let! r1 := ring_with 1 in
  let! r2 := ring_with 1 in
  let! ct := unwrap (encrypt r1 (string_bytes "secret")) in
  assert_that (is_err (decrypt r2 ct)).

(** [TmpDir]: a fresh directory, removed when the test is over. *)
Definition tmp_new (label : string) : M path :=
  let! nonce := fill_bytes 16 in
  let suffix := bytes_string (hex_encode nonce) in
  let p := join ["tmp"] ("peerdup-" +:+ label +:+ "-" +:+ suffix) in
  unwrap (fs_create_dir_all p) ;;;
  ret p.

Definition with_tmp {A : Type} (new_dir : M path) (body : path -> M A) : M A :=
  let! td := new_dir in
  let! a := body td in
  let! _ := attempt (fs_remove_dir_all td) in
  ret a.

Definition fresh_ring_on_disk (share_id : string) : M path :=
  let! td := tmp_new "crypto" in
  let! _ := unwrap (load_or_create_keyring td share_id) in
  ret td.

Definition install_epoch_key_appends_when_epoch_is_next : M unit :=
  with_tmp (fresh_ring_on_disk "share-install-1") (fun td =>
    let new_key := replicate KEY_LEN (byte_of_Z 9) in
    let! outcome := unwrap (install_epoch_key td "share-install-1" 2 new_key) in
    assert_that (bool_decide (outcome = Installed)) ;;;
    let! ring := unwrap (load_or_create_keyring td "share-install-1") in
    assert_that (bool_decide (current_epoch ring = 2)) ;;;
    let! k := expect (key_for_epoch ring 2) in
    assert_that (bool_decide (k = new_key))).

Definition install_epoch_key_idempotent_for_same_key : M unit :=
  with_tmp (fresh_ring_on_disk "share-install-2") (fun td =>
    let! ring := unwrap (load_or_create_keyring td "share-install-2") in
    let! epoch1_key := expect (key_for_epoch ring 1) in
    let! outcome := unwrap (install_epoch_key td "share-install-2" 1 epoch1_key) in
    assert_that (bool_decide (outcome = Idempotent)) ;;;
    let! ring2 := unwrap (load_or_create_keyring td "share-install-2") in
    assert_that (bool_decide (current_epoch ring2 = 1))).

Definition install_epoch_key_rejects_overwrite : M unit :=
  with_tmp (fresh_ring_on_disk "share-install-3") (fun td =>
    let mismatched := replicate KEY_LEN (byte_of_Z 171) in
    let! r := attempt (install_epoch_key td "share-install-3" 1 mismatched) in
    assert_that (bool_decide (r = Err (EEpochConflict 1)))).

Definition install_epoch_key_returns_gap_for_future_epoch : M unit :=
  with_tmp (fresh_ring_on_disk "share-install-4") (fun td =>
    let key := replicate KEY_LEN (byte_of_Z 119) in
    let! outcome := unwrap (install_epoch_key td "share-install-4" 5 key) in
    assert_that (bool_decide (outcome = Gap 1 5)) ;;;
    let! ring := unwrap (load_or_create_keyring td "share-install-4") in
    assert_that (bool_decide (current_epoch ring = 1))).

Definition install_epoch_key_stale_is_noop : M unit :=
  with_tmp (fresh_ring_on_disk "share-install-5") (fun td =>
    let! new_epoch := unwrap (rotate_keyring td "share-install-5") in
    assert_that (bool_decide (new_epoch = 2)) ;;;
    let stale := replicate KEY_LEN (byte_of_Z 85) in
    let! outcome := unwrap (install_epoch_key td "share-install-5" 1 stale) in
    assert_that (bool_decide (outcome = Stale)) ;;;
    let! ring := unwrap (load_or_create_keyring td "share-install-5") in
    assert_that (bool_decide (current_epoch ring = 2)) ;;;
    let! k := expect (key_for_epoch ring 1) in
    assert_that (negb (bool_decide (k = stale)))).

Definition crypto_suite : list (M unit) :=
  [round_trip_with_current_epoch; old_ciphertext_decrypts_after_rotation; missing_epoch_fails_loudly;
   tampered_ciphertext_fails; wrong_keyring_fails; install_epoch_key_appends_when_epoch_is_next;
   install_epoch_key_idempotent_for_same_key; install_epoch_key_rejects_overwrite;
   install_epoch_key_returns_gap_for_future_epoch; install_epoch_key_stale_is_noop].
End crypto.

(** ** [auth.rs] *)

Section auth.
Context `{MD : Metadata, Entropy, Blake3, Ed25519}.
Context `{!Bincode canonical_tuple, !BincodeTotal canonical_tuple, !GroupCrdt, !Bincode SignedOp}.

Definition fresh_key : M bytes := private_key_new.
Definition me_of (k : bytes) : MemberId := public_key k.

(** [members.sort_by_key(|(m, _)| m.0)] *)
Definition by_key (l : list (MemberId * AuthRole)) : list (MemberId * AuthRole) := sort_by fst l.

Definition create_then_add_member : M unit :=
  let! alice := fresh_key in
  let! bob := fresh_key in
  let group := group_id_for "share-1" in
  let '(r, state) := create_group alice group auth_empty in
  let! _create_op := unwrap (lift r) in
  let '(r, state) := add_member alice group (me_of bob) Writer state in
  let! _add_op := unwrap (lift r) in
  let members := by_key (members state group) in
  let expected := by_key [(me_of alice, Owner); (me_of bob, Writer)] in
  assert_that (bool_decide (members = expected)).

Definition op_round_trip_through_bincode_and_signature_verifies : M unit :=
  let! alice := fresh_key in
  let group := group_id_for "share-roundtrip" in
  let '(r, state) := create_group alice group auth_empty in
  let! op := unwrap (lift r) in
  let! bytes := unwrap (lift (op_encode op)) in
  let! decoded := unwrap (lift (op_decode bytes)) in
  assert_that (bool_decide (op_author decoded = op_author op)) ;;;
  assert_that (bool_decide (op_deps decoded = op_deps op)) ;;;
  assert_that (bool_decide (op_signature decoded = op_signature op)) ;;;
  unwrap (lift (verify decoded)) ;;;
  assert_that (bool_decide (compute_id decoded = compute_id op)).

Definition tampered_op_fails_verify : M unit :=
  let! alice := fresh_key in
  let group := group_id_for "share-tamper" in
  let '(r, state) := create_group alice group auth_empty in
  let! op := unwrap (lift r) in
  let! flipped := lift (xor_at 0 1 (op_signature op)) in
  let bad := {| op_author := op_author op; op_deps := op_deps op; op_payload := op_payload op;
                op_signature := flipped |} in
  assert_that (is_err (verify bad)) ;;;
  let bad2 := {| op_author := replicate 32 (byte_of_Z 171); op_deps := op_deps op;
                 op_payload := op_payload op; op_signature := op_signature op |} in
  assert_that (is_err (verify bad2)).

Definition remote_replay_converges_with_local : M unit :=
  let! alice := fresh_key in
  let! bob := fresh_key in
  let group := group_id_for "share-converge" in
  let '(r, alice_state) := create_group alice group auth_empty in
  let! op1 := unwrap (lift r) in
  let '(r, alice_state) := add_member alice group (me_of bob) Reader alice_state in
  let! op2 := unwrap (lift r) in
  let '(r, bob_state) := apply_remote op1 auth_empty in
  let! new1 := unwrap (lift r) in
  assert_that new1 ;;;
  let '(r, bob_state) := apply_remote op2 bob_state in
  let! new2 := unwrap (lift r) in
  assert_that new2 ;;;
  let a := by_key (members alice_state group) in
  let b := by_key (members bob_state group) in
  assert_that (bool_decide (a = b)).

Definition out_of_order_arrival_is_buffered_then_applied : M unit :=
  let! alice := fresh_key in
  let! bob := fresh_key in
  let group := group_id_for "share-ooo" in
  let '(r, alice_state) := create_group alice group auth_empty in
  let! op1 := unwrap (lift r) in
  let '(r, alice_state) := add_member alice group (me_of bob) Writer alice_state in
  let! op2 := unwrap (lift r) in
  let '(r, bob_state) := apply_remote op2 auth_empty in
  let! new2 := unwrap (lift r) in
  assert_that (negb new2) ;;;
  assert_that (bool_decide (members bob_state group = [])) ;;;
  let '(r, bob_state) := apply_remote op1 bob_state in
  let! new1 := unwrap (lift r) in
  assert_that new1 ;;;
  let members := by_key (members bob_state group) in
  let expected := by_key [(me_of alice, Owner); (me_of bob, Writer)] in
  assert_that (bool_decide (members = expected)).

Definition duplicate_apply_is_a_noop : M unit :=
  let! alice := fresh_key in
  let group := group_id_for "share-dup" in
  let '(r, state) := create_group alice group auth_empty in
  let! op := unwrap (lift r) in
  let '(r, state) := apply_remote op state in
  let! new := unwrap (lift r) in
  assert_that (negb new) ;;;
  assert_that (length (ops state) =? 1)%nat.

Definition revoke_drops_member : M unit :=
  let! alice := fresh_key in
  let! bob := fresh_key in
  let group := group_id_for "share-revoke" in
  let '(r, state) := create_group alice group auth_empty in
  let! _ := unwrap (lift r) in
  let '(r, state) := add_member alice group (me_of bob) Writer state in
  let! _ := unwrap (lift r) in
  assert_that (is_member state group (me_of bob)) ;;;
  let '(r, state) := remove_member alice group (me_of bob) state in
  let! _ := unwrap (lift r) in
  assert_that (negb (is_member state group (me_of bob))) ;;;
  assert_that (is_member state group (me_of alice)).

Definition member_id_hex_round_trip : M unit :=
  let m : MemberId := byte_of_Z ∘ Z.of_nat <$> seq 0 32 in
  let s := to_hex m in
  assert_that (length (string_bytes s) =? 64)%nat ;;;
  let! back := unwrap (lift (from_hex s)) in
  assert_that (bool_decide (back = m)).

Definition auth_suite : list (M unit) :=
  [create_then_add_member; op_round_trip_through_bincode_and_signature_verifies; tampered_op_fails_verify;
   remote_replay_converges_with_local; out_of_order_arrival_is_buffered_then_applied;
   duplicate_apply_is_a_noop; revoke_drops_member; member_id_hex_round_trip].
End auth.

(** ** [ticket.rs] *)

Section ticket.
Context `{MD : Metadata, Entropy, Blake3, Ed25519, Base64}.
Context `{!Bincode canonical_tuple, !BincodeTotal canonical_tuple, !GroupCrdt, !Bincode Ticket}.

Definition make_log : M (bytes * bytes * list SignedOp) :=
  let! alice := private_key_new in
  let! bob := private_key_new in
  let group := group_id_for "ticket-test" in
  let '(r, state) := create_group alice group auth_empty in
  let! _ := unwrap (lift r) in
  let '(r, state) := add_member alice group (public_key bob) Writer state in
  let! _ := unwrap (lift r) in
  ret (alice, bob, ops state).

Definition round_trip : M unit :=
  let! made := make_log in
  let '(_, bob, log) := made in
  let t := {| version := TICKET_VERSION; share_id := "abcd1234"; topic := "demo";
              tkeys := [replicate KEY_LEN (byte_of_Z 1); replicate KEY_LEN (byte_of_Z 2)];
              auth_log := log; invitee_pubkey := public_key bob; role := Sync |} in
  let! s := unwrap (lift (encode t)) in
  let! back := unwrap (lift (decode s)) in
  assert_that (bool_decide (share_id back = share_id t)) ;;;
  assert_that (bool_decide (topic back = topic t)) ;;;
  assert_that (bool_decide (tkeys back = tkeys t)) ;;;
  assert_that (bool_decide (role back = role t)) ;;;
  assert_that (bool_decide (invitee_pubkey back = invitee_pubkey t)) ;;;
  assert_that (length (auth_log back) =? length log)%nat ;;;
  forM (auth_log back) (fun op => unwrap (lift (verify op))).

Definition rejects_bad_base64 : M unit := assert_that (is_err (decode "!!!not base64!!!")).

Definition rejects_old_version : M unit :=
  let! made := make_log in
  let '(_, bob, log) := made in
  let t v := {| version := v; share_id := "abcd1234"; topic := "demo";
                tkeys := [replicate KEY_LEN (byte_of_Z 1)];
                auth_log := log; invitee_pubkey := public_key bob; role := Sync |} in
  let! s := unwrap (lift (encode (t 1))) in
  assert_that (match decode s with Err (EBadTicketVersion _) => true | _ => false end) ;;;
  let! s := unwrap (lift (encode (t TICKET_VERSION))) in
  assert_that (match decode s with Ok _ => true | _ => false end).

Definition ticket_suite : list (M unit) := [round_trip; rejects_bad_base64; rejects_old_version].
End ticket.

(** ** [rotation.rs] *)

Section rotation.
Context `{MD : Metadata, Entropy, Blake3, Ed25519, !CryptoBox}.
Context `{!Bincode rotation_tuple, !BincodeTotal rotation_tuple}.
Context `{!Bincode canonical_tuple, !BincodeTotal canonical_tuple, !GroupCrdt}.

Definition fresh : M bytes := private_key_new.
(** The tests' own replay of a log. *)
Fixpoint replayed (l : list SignedOp) (st : AuthState) : M AuthState :=
  match l with
  | [] => ret st
  | op :: l =>
      let '(r, st) := apply_remote op st in
      let! _ := unwrap (lift r) in
      replayed l st
  end.

Definition round_trip_envelope_seal_open : M unit :=
  let! alice := fresh in
  let group := group_id_for "rot-roundtrip" in
  let '(r, state) := create_group alice group auth_empty in
  let! _ := unwrap (lift r) in
  let new_key := replicate KEY_LEN (byte_of_Z 205) in
  let! rot := unwrap (build_signed_rotation alice 2 new_key [me_of alice]) in
  assert_that (bool_decide (verify_and_decrypt rot state group alice = OkForUs new_key)).

Definition signature_verifies_when_rotator_is_manager : M unit :=
  let! alice := fresh in
  let! bob := fresh in
  let group := group_id_for "rot-mgr" in
  let '(r, state) := create_group alice group auth_empty in
  let! _ := unwrap (lift r) in
  let '(r, state) := add_member alice group (me_of bob) Writer state in
  let! _ := unwrap (lift r) in
  let new_key := replicate KEY_LEN (byte_of_Z 66) in
  let! rot := unwrap (build_signed_rotation alice 2 new_key [me_of bob]) in
  let! bob_state := replayed (ops state) auth_empty in
  assert_that (bool_decide (verify_and_decrypt rot bob_state group bob = OkForUs new_key)).

Definition signature_rejected_when_rotator_is_not_a_manager : M unit :=
  let! alice := fresh in
  let! bob := fresh in
  let! mallory := fresh in
  let group := group_id_for "rot-nomgr" in
  let '(r, state) := create_group alice group auth_empty in
  let! _ := unwrap (lift r) in
  let '(r, state) := add_member alice group (me_of bob) Writer state in
  let! _ := unwrap (lift r) in
  let new_key := replicate KEY_LEN (byte_of_Z 153) in
  let! rot := unwrap (build_signed_rotation mallory 2 new_key [me_of bob]) in
  let! bob_state := replayed (ops state) auth_empty in
  assert_that (bool_decide (verify_and_decrypt rot bob_state group bob = NotAManager)).

Definition signature_rejected_when_tampered : M unit :=
  let! alice := fresh in
  let! bob := fresh in
  let group := group_id_for "rot-tamper" in
  let '(r, state) := create_group alice group auth_empty in
  let! _ := unwrap (lift r) in
  let '(r, state) := add_member alice group (me_of bob) Writer state in
  let! _ := unwrap (lift r) in
  let new_key := replicate KEY_LEN (byte_of_Z 170) in
  let! rot := unwrap (build_signed_rotation alice 2 new_key [me_of bob]) in
  let! e := expect (head (envelopes rot)) in
  let! flipped := lift (xor_at 0 1 (ciphertext e)) in
  let e := {| recipient_pubkey := recipient_pubkey e; ephemeral_pubkey := ephemeral_pubkey e;
              nonce := nonce e; ciphertext := flipped |} in
  let rot := {| epoch := epoch rot; rotator_pubkey := rotator_pubkey rot; signature := signature rot;
                envelopes := e :: tail (envelopes rot) |} in
  let! bob_state := replayed (ops state) auth_empty in
  assert_that (bool_decide (verify_and_decrypt rot bob_state group bob = BadSignature)).

Definition not_for_us_when_no_envelope_addressed : M unit :=
  let! alice := fresh in
  let! bob := fresh in
  let! charlie := fresh in
  let group := group_id_for "rot-not-us" in
  let '(r, state) := create_group alice group auth_empty in
  let! _ := unwrap (lift r) in
  let '(r, state) := add_member alice group (me_of bob) Writer state in
  let! _ := unwrap (lift r) in
  let '(r, state) := add_member alice group (me_of charlie) Writer state in
  let! _ := unwrap (lift r) in
  let new_key := replicate KEY_LEN (byte_of_Z 51) in
  let! rot := unwrap (build_signed_rotation alice 2 new_key [me_of charlie]) in
  let! bob_state := replayed (ops state) auth_empty in
  assert_that (bool_decide (verify_and_decrypt rot bob_state group bob = NotForUs)).

Definition rotation_suite : list (M unit) :=
  [round_trip_envelope_seal_open; signature_verifies_when_rotator_is_manager;
   signature_rejected_when_rotator_is_not_a_manager; signature_rejected_when_tampered;
   not_for_us_when_no_envelope_addressed].
End rotation.

(** ** [daemon.rs] *)

Section daemon.
Context `{MD : Metadata, ReadDir, Entropy, WallClock, Blake3, Ed25519, !CryptoBox, Base64}.
Context `{!Bincode rotation_tuple, !BincodeTotal rotation_tuple, !Bincode SignedRotation}.
Context `{!Bincode canonical_tuple, !BincodeTotal canonical_tuple, !GroupCrdt}.
Context `{!Bincode SignedOp, !Bincode (list SignedOp), !Bincode Ticket, !Json ShareConfig}.

(** [rand::random] gives the 8 bytes of the number that names the directory. *)
Definition ipc_tmp_new (label : string) : M path :=
  let! nonce := fill_bytes 8 in
  let p := join ["tmp"] ("peerdup-ipc-" +:+ label +:+ "-" +:+ bytes_string (hex_encode (rev nonce))) in
  unwrap (fs_create_dir_all p) ;;;
  ret p.

Definition bootstrap (label : string) : M (path * (ShareConfig * bytes * AuthState * KeyRing)) :=
  let! td := ipc_tmp_new label in
  let! identity := private_key_new in
  let topic := "topic-" +:+ label in
  let! config := config_new topic (join td "share-root") Sync in
  unwrap (config_save config td) ;;;
  let group := group_id_for (sc_id config) in
  let '(r, auth_state) := create_group identity group auth_empty in
  let! _ := unwrap (lift r) in
  unwrap (auth_save td (sc_id config) auth_state) ;;;
  let! ring := unwrap (load_or_create_keyring td (sc_id config)) in
  ret (td, (config, identity, auth_state, ring)).

(** A handler called on the pieces of a task. *)
Definition on_task {A : Type} (f : SM A) (t : ShareTask) : M (A * ShareTask) := fun w =>
  match f t w with
  | (Ok a, (t, w)) => (Ok (a, t), w)
  | (Err e, (t, w)) => (Err e, w)
  | (Panic, (t, w)) => (Panic, w)
  end.

Definition task_of (ring : KeyRing) (auth_state : AuthState) : ShareTask :=
  {| t_key := ring; t_auth := auth_state; t_pending := []; t_buffer := [] |}.

Definition finish (td : path) (test : M unit) : M unit :=
  test ;;;
  let! _ := attempt (fs_remove_dir_all td) in
  ret tt.

Definition invite_handler_appends_op_and_returns_ticket : M unit :=
  let! b := bootstrap "invite-1" in
  let '(td, (config, identity, auth_state, key)) := b in
  finish td (
    let! bob := private_key_new in
    let! r := unwrap (on_task (handle_invite config td identity (me_of bob) Writer Sync)
                              (task_of key auth_state)) in
    assert_that (negb (bool_decide (r.1 = ""))) ;;;
    let! reloaded := unwrap (auth_load td (sc_id config)) in
    assert_that (length (ops reloaded) =? 2)%nat ;;;
    let group := group_id_for (sc_id config) in
    assert_that (is_member reloaded group (me_of bob))).

Definition revoke_handler_rotates_keyring_and_writes_pending : M unit :=
  let! b := bootstrap "revoke-1" in
  let '(td, (config, identity, auth_state, key)) := b in
  finish td (
    let! bob := private_key_new in
    let! r := unwrap (on_task (handle_invite config td identity (me_of bob) Writer Sync)
                              (task_of key auth_state)) in
    let! r := unwrap (on_task (handle_revoke config td identity (me_of bob)) r.2) in
    assert_that (bool_decide (r.1 = 2)) ;;;
    assert_that (length (t_pending r.2) =? 1)%nat ;;;
    let! on_disk := unwrap (load_pending td (sc_id config)) in
    assert_that (length on_disk =? 1)%nat ;;;
    let! rot := expect (head on_disk) in
    assert_that (bool_decide (epoch rot = 2)) ;;;
    let! ring := unwrap (load_or_create_keyring td (sc_id config)) in
    assert_that (bool_decide (current_epoch ring = 2)) ;;;
    assert_that (bool_decide (current_epoch (t_key r.2) = 2))).

Definition rotate_key_handler_appends_epoch : M unit :=
  let! b := bootstrap "rotate-1" in
  let '(td, (config, _, auth_state, key)) := b in
  finish td (
    assert_that (bool_decide (current_epoch key = 1)) ;;;
    let! r := unwrap (on_task (handle_rotate_key config td) (task_of key auth_state)) in
    assert_that (bool_decide (r.1 = 2)) ;;;
    assert_that (bool_decide (current_epoch (t_key r.2) = 2))).

Definition daemon_suite : list (M unit) :=
  [invite_handler_appends_op_and_returns_ticket; revoke_handler_rotates_keyring_and_writes_pending;
   rotate_key_handler_appends_epoch].
End daemon.

(** ** The tests pass *)

Section run.
#[local] Existing Instance toy_metadata.
#[local] Existing Instance toy_entropy.
#[local] Existing Instance toy_blake3.
#[local] Existing Instance toy_aead.
#[local] Existing Instance toy_ed25519.
#[local] Existing Instance toy_box.
#[local] Existing Instance toy_base64.
#[local] Existing Instance toy_read_dir.
#[local] Existing Instance toy_clock.
#[local] Existing Instance toy_rotation_tuple.
#[local] Existing Instance toy_rotation_total.
#[local] Existing Instance toy_rotation.
#[local] Existing Instance toy_canonical.
#[local] Existing Instance toy_canonical_total.
#[local] Existing Instance toy_group.
#[local] Existing Instance toy_op.
#[local] Existing Instance toy_ops.
#[local] Existing Instance toy_ticket.
#[local] Existing Instance toy_config.

Definition all_pass (suite : list (M unit)) : bool :=
  forallb (fun test => passes test (world_of root_fs)) suite.

Lemma clock_tests_pass : all_pass clock_suite = true.
Proof. vm_compute. reflexivity. Qed.

Lemma crypto_tests_pass : all_pass crypto_suite = true.
Proof. vm_compute. reflexivity. Qed.

Lemma auth_tests_pass : all_pass auth_suite = true.
Proof. vm_compute. reflexivity. Qed.

Lemma ticket_tests_pass : all_pass ticket_suite = true.
Proof. vm_compute. reflexivity. Qed.

Lemma rotation_tests_pass : all_pass rotation_suite = true.
Proof. vm_compute. reflexivity. Qed.

Lemma daemon_tests_pass : all_pass daemon_suite = true.
Proof. vm_compute. reflexivity. Qed.
End run.
